(* ===== verification/_CoqProject ===== *)
-Q . S2P
Prelude.v
Bytes.v
Protocol.v
Chan.v
Block.v
Report.v
Socket.v
SocketInv.v
SocketSafety.v
SocketType.v
Shutdown.v
SocketExcl.v
Broadcast.v
Drain.v
Fair.v
Delivery.v
Returns.v
Stutter.v
Lifecycle.v
Cmsg.v
Link.v
Strconv.v
Filter.v
AFPacket.v
Config.v
Handshake.v
Client.v
Packets.v
Testclient.v
Flags.v
Session.v
Daemon.v
DaemonLive.v
CClient.v
CBlocks.v
CResources.v
CReturn.v
CExample.v
CSession.v
