(* ===== verification/Prelude.v ===== *)
(** * Testimony: a verification of the packet-sharing daemon and its clients

    testimonyd opens AF_PACKET sockets with a memory-mapped ring of blocks and
    shares each ring, read-only, with any number of client processes.  A client
    connects to a Unix socket, learns the sizes, picks one socket of a fanout
    group, receives its descriptor, maps the ring, and then exchanges block
    indexes with the daemon: the daemon writes the index of every block the kernel
    filled, the client writes it back when it is done.  A block goes back to the
    kernel when nobody holds it, by reference counting.

    ** The files, in order, and the code they model

    - Prelude, Bytes, Chan, Link: machine integers, bytes and big-endian words,
      Go channels, and one end of a Unix stream connection with a state and error
      monad; what the code uses of Go and of its standard library.  Strconv and
      Cmsg hold [strconv.Atoi] and the control messages that carry descriptors.
    - Protocol: go/protocol/protocol.go ([ToTL], [TLFrom], [TypeOf], [SendTLV],
      ...), the generator go/protocol/to_c/to_c.go, and the C client's reading of
      the same words (c/testimony.c).
    - Block: the block type of socket.go, its reference count and status word.
    - Report: the [String] methods, [cblock], [stats] and [reportStats] of socket.go,
      package vlog, and [localSocketName] of the Go client.
    - Socket: getNewBlocks, run, addNewConn, conn.run and conn.handleReads of
      socket.go as a labelled transition system.  A state is one socket with all
      its connections, channels, blocks and program counters; a label picks the
      goroutine that moves and whatever the code leaves open (select branches, map
      order, what the peer sends, failing writes, the kernel).  [step] is a
      function, [run_schedule] executes schedules, [reachable] is what schedules
      reach.  A step never contains two accesses to shared data, so every
      interleaving of the Go program is a schedule.
    - SocketInv: who holds a block, counted; the invariant [Inv] and its
      preservation by every step.
    - SocketSafety: consequences for all schedules: no crash, exact reference
      counts, no lost block, every reference given up once, the bytes on the wire.
    - SocketType: the types of the state in the narrow sense the code relies on, for
      every reachable state.
    - Shutdown: a rank for the shutdown of a connection; from every reachable state
      the goroutines involved can take the connection to its end.
    - SocketExcl: when a held block is out of the kernel's reach, and the schedule
      in which it is not.
    - Broadcast: what all clients of a socket are sent together: the same blocks, in
      the order of the ring, from the one that is next when a client is accepted.
    - Drain: from every reachable state the goroutines can come to rest on their own,
      with every connection ended and every block in use given back.
    - Fair: infinite executions and fairness; a connection whose client is gone ends in
      every fair execution.  One measure decreases with every step of the connection's
      goroutines and with nobody else's step increases.
    - Delivery: in every fair execution a block the kernel filled, at the cursor of
      getNewBlocks or further on after other filled ones, is queued, passed on and
      written to a connected client.
    - Returns: in every fair execution an index a client sent back and handleReads
      queued makes conn.run give up the block.
    - Stutter: what one socket does in an execution of the whole process is an execution
      of the socket with pauses; leaving them out keeps fairness.
    - Lifecycle: an abstract machine for one block and the refinement theorem.
    - Filter: [compileFilter] of socket.go on the output of tcpdump.
    - AFPacket: socket.c ([AFPacket], [WaitForBlocks]) as a sequence of system
      calls answered by an oracle, and [newSocket].
    - Config: testimonyd/daemon.go ([main]) and the set-up part of
      socket/daemon.go ([RunTestimony], [setPermissions], fanout ids).
    - Handshake: [Testimony.handle] and the accept loop of socket/daemon.go.
    - Client: go/testimony/testimony.go, [Connect], [Init], [Close], [Conn.Block],
      [Block.Return].
    - Packets: the packet iterators of the Go and the C client over a block.
    - Testclient: go/testclient/testclient.go, the loop over blocks and packets.
    - Flags: the flags of testimonyd, vlog and testclient, [flag.Parse], and the two
      programs started from their arguments.
    - Session: the Go client and the daemon together: the handshake, the stream of
      blocks, and a returned block, each end reading what the other wrote.
    - Daemon: the whole process.  The sockets of every entry with their goroutines, the
      accept loops and the handshakes side by side as one transition system
      ([world_step]), which meet only where [handle] passes a connection to a socket
      over newConns; [boot] is the result of RunTestimony, with the entries started one
      after the other.
    - DaemonLive: infinite executions of that process; clients are admitted and blocks
      reach them, from the kernel to [Conn.Block].
    - CClient: c/testimony.c, every function.  The state is the struct behind the
      handle and the process around it: errno, the results of the coming recv, send
      and poll calls, the bytes sent, the resources held.  A peer that stays connected
      and silent is a result too, and a function that waits for it for ever an outcome
      ([Waits]).  The file shows that the buffered reading is [io.ReadFull] and that
      connecting agrees with the Go client.
    - CBlocks: getting and returning blocks, address arithmetic, termination.
    - CResources: [testimony_init], and what errors and [testimony_close] leave behind.
    - CReturn: [testimony_return_packets] called by many threads, split at its atomic
      operations and sends, as a transition system of its own ([client_step]); what
      callers and daemon have to keep to is a separate condition ([allowed]).
    - CExample: c/testimony_client.c, the C example client.
    - CSession: the C client and the daemon together.

    ** What the theorems show

    For the daemon's goroutines, properties of every reachable state: safety (nothing
    panics), the reference-count invariant, exactly-once release, delivery without
    loss, the same blocks in ring order for all clients, well-typedness, a shutdown
    without deadlock, a ring that can always be emptied, and mutual exclusion with the
    kernel under a proviso that the code does not enforce (the counterexample is a
    theorem too); and that every step refines the life cycle of each block. For its infinite executions, liveness
    under stated fairness: filled blocks reach the clients, returned blocks are given
    up, and connections without a client end. For the process as a whole, that no
    client can take it down, that a client is served by the socket whose descriptor it
    got, what a Go client reads from first byte to last block, and, in its fair
    executions, that a client with a valid request is admitted and that a block the
    kernel fills is in the end returned by [Conn.Block] in the client. For command
    lines, which values the programs run with. For set-up, handshake and clients, the
    result of each operation on every branch, what every error path releases,
    that the reading loops return unless the peer falls silent, bounds on machine integers, round trips of the
    encodings, equivalence of the Go and the C client, exactly-once return of blocks
    by any number of threads and with failing sends, and end-to-end theorems that compose each client with
    the daemon.

    ** Bounds and fuel

    The reading loops of the clients take as many turns as there are bytes to read
    (and, in C, results of poll), which is proved to suffice; the loop that looks for
    a free fanout id takes one turn more than there are ids; the word scanner one more
    than there are bytes; the iterators one more than there are packets; the inner
    loops of recv_t, discard_bytes and send_be_32 one per byte. Integers are [Z] with
    the conversions of the source written out; Go's [int] and C's [size_t] have 64
    bits, C's [int] 32. No more than 2^31 - 4 connections are open at the same time
    ([conn_bound], [world_bound], part of [reachable] and [world_reachable]), which
    keeps the int32 reference counts in range; there is no bound on the connections
    over the life of the daemon. Executions are functions from the natural numbers;
    fairness is required only of the goroutines a theorem is about, weakly, and
    strongly of a select that must not pass over a waiting case forever, as Go's
    random choice does not.

    ** Assumptions about code outside the repository

    System calls, user and group lookups, tcpdump and the JSON decoder are parameters
    (the records [os], [sys] and [csys], the oracle of AFPacket, the lists of coming
    results in CClient). A failed system call sets errno and a successful one leaves
    it. The kernel fills only blocks whose status is 0 and then sets it
    ([kernel_fill]). A stream connection delivers the peer's bytes in order; a read
    returns some of them or an error; a write may fail after any prefix. The end of a
    connection in Link, under [handle] and the Go client, holds all the peer sends
    before it closes: a peer that stays silent is, for [handle], a handshake whose turn
    does not come in the schedule. Descriptors of packet sockets are below FD_SETSIZE,
    as [WaitForBlocks] needs.

    ** Not modelled

    The text of log and error messages (fmt, TERR) and where they go, the
    floating-point rates in the statistics, the timestamps in [outstanding] beyond
    being set, the time between the start of the first and the last socket of one entry
    (no connection can reach them yet), and the build of the C client without atomic
    builtins. The JSON
    decoder, syslog and glibc's argp_parse are called, not written, by the repository:
    the first two are parameters of [Config.main], the last one of [CExample.main]. *)

From stdpp Require Import base gmap list numbers option.
From Stdlib Require Import ZArith Lia.

#[global] Set Default Goal Selector "!".
#[global] Open Scope Z_scope.

(** ** Machine integers

    Go's fixed-width integer types are modelled by [Z] with the conversion
    written out at the places where the source converts or computes.  [int] is
    the 64-bit type of the platforms testimonyd is built for. *)
Definition uint8 (z : Z) : Z := z mod 2 ^ 8.
Definition uint16 (z : Z) : Z := z mod 2 ^ 16.
Definition uint32 (z : Z) : Z := z mod 2 ^ 32.
Definition uint64 (z : Z) : Z := z mod 2 ^ 64.
Definition int32 (z : Z) : Z := (z + 2 ^ 31) mod 2 ^ 32 - 2 ^ 31.
Definition int64 (z : Z) : Z := (z + 2 ^ 63) mod 2 ^ 64 - 2 ^ 63.

(** Evaluate the powers of two that occur in machine-integer side conditions. *)
Ltac pow2 :=
  repeat match goal with
  | |- context [ (2 ^ ?n)%Z ] =>
      let v := eval vm_compute in (2 ^ n)%Z in
      match v with Zpos _ => change (2 ^ n)%Z with v end
  | H : context [ (2 ^ ?n)%Z ] |- _ =>
      let v := eval vm_compute in (2 ^ n)%Z in
      match v with Zpos _ => change (2 ^ n)%Z with v in H end
  end.

(** Arithmetic goals about machine integers: unfold the conversions and use
    [lia] with the division hook of [Z]. *)
Ltac mach :=
  unfold uint8, uint16, uint32, uint64, int32, int64 in *; pow2;
  Z.div_mod_to_equations; lia.

Lemma uint32_range (z : Z) : 0 <= uint32 z < 2 ^ 32.
Proof. mach. Qed.

Lemma uint32_small (z : Z) : 0 <= z < 2 ^ 32 → uint32 z = z.
Proof. intros. mach. Qed.

Lemma uint16_range (z : Z) : 0 <= uint16 z < 2 ^ 16.
Proof. mach. Qed.

Lemma uint16_small (z : Z) : 0 <= z < 2 ^ 16 → uint16 z = z.
Proof. intros. mach. Qed.

Lemma int32_small (z : Z) : - 2 ^ 31 <= z < 2 ^ 31 → int32 z = z.
Proof. intros. mach. Qed.

Lemma int64_small (z : Z) : - 2 ^ 63 <= z < 2 ^ 63 → int64 z = z.
Proof. intros. mach. Qed.

Lemma uint64_small (z : Z) : 0 <= z < 2 ^ 64 → uint64 z = z.
Proof. intros. mach. Qed.

(** The mask and the shift of a TL word as arithmetic. *)
Lemma land_ones16 (z : Z) : Z.land z 0xFFFF = z mod 2 ^ 16.
Proof. change 0xFFFF with (Z.ones 16). by rewrite Z.land_ones. Qed.

Lemma land_bit (z n : Z) : 0 <= n → Z.land z (2 ^ n) = if Z.testbit z n then 2 ^ n else 0.
Proof.
  intros Hn. apply Z.bits_inj'. intros k Hk.
  rewrite Z.land_spec, Z.pow2_bits_eqb by done.
  destruct (Z.eqb_spec n k) as [->|Hne].
  - destruct (Z.testbit z k); [by rewrite Z.pow2_bits_true|by rewrite Z.bits_0].
  - rewrite andb_false_r. destruct (Z.testbit z n); [|by rewrite Z.bits_0].
    by rewrite Z.pow2_bits_false by lia.
Qed.

(** ** Sums of a list *)
Lemma sum_lookup_le {A} (f : A → nat) (l : list A) (i : nat) (a : A) :
  l !! i = Some a → (f a ≤ sum_list_with f l)%nat.
Proof. intros Hi%list_elem_of_lookup_2. by apply sum_list_with_in. Qed.

Lemma sum_alter_le {A} (f : A → nat) (g : A → A) (l : list A) (i : nat) (a : A) :
  l !! i = Some a → (f (g a) ≤ f a)%nat →
  (sum_list_with f (alter g i l) ≤ sum_list_with f l)%nat.
Proof.
  revert i. induction l as [|b l IH]; intros [|i]; simpl; [done..| |].
  - intros [= ->]. lia.
  - intros Hi Hle. specialize (IH i Hi Hle). unfold alter in *. lia.
Qed.
