(* ===== verification/Bytes.v ===== *)
(** * Bytes, big-endian words, streams

    The part of Go's standard library the wire code rests on: [byte] values,
    [binary.BigEndian.PutUint32]/[Uint32], [io.ReadFull] on the remaining bytes
    of a connection, [io.Writer], and a type class of wire codecs whose law is
    the round trip.  Every sequence of words the daemon batches into one
    [Write] is decoded through that class. *)

From stdpp Require Import base list numbers option.
From Stdlib Require Import ZArith Lia.
From Stdlib Require Strings.Byte.
From S2P Require Import Prelude.

Abbreviation byte := Corelib.Init.Byte.byte.

(** ** Bytes as integers *)
Definition byte_val (b : byte) : Z := Z.of_N (Byte.to_N b).

(** Conversion [byte(z)]: the low eight bits. *)
Definition byte_of (z : Z) : byte :=
  default Byte.x00 (Byte.of_N (Z.to_N (uint8 z))).

#[export] Instance byte_eq_dec : EqDecision byte := Byte.byte_eq_dec.

Lemma byte_val_range (b : byte) : 0 <= byte_val b < 2 ^ 8.
Proof. unfold byte_val. pose proof (Byte.to_N_bounded b). pow2. lia. Qed.

Lemma byte_val_of (z : Z) : byte_val (byte_of z) = uint8 z.
Proof.
  unfold byte_of, byte_val.
  assert (0 <= uint8 z < 256) as Hr by mach.
  destruct (Byte.of_N (Z.to_N (uint8 z))) as [b|] eqn:E; simpl.
  - apply Byte.to_of_N in E. rewrite E. lia.
  - apply Byte.of_N_None_iff in E. lia.
Qed.

Lemma byte_val_inj (a b : byte) : byte_val a = byte_val b → a = b.
Proof.
  unfold byte_val. intros H. apply N2Z.inj in H.
  pose proof (Byte.of_to_N a) as Ha. pose proof (Byte.of_to_N b) as Hb.
  rewrite H in Ha. congruence.
Qed.

Lemma byte_of_val (b : byte) : byte_of (byte_val b) = b.
Proof.
  apply byte_val_inj. rewrite byte_val_of. pose proof (byte_val_range b). mach.
Qed.

(** ** [binary.BigEndian] *)

(** [PutUint32(b[0:4], v)], the four bytes written. *)
Definition put_uint32 (v : Z) : list byte :=
  [byte_of (Z.shiftr v 24); byte_of (Z.shiftr v 16); byte_of (Z.shiftr v 8); byte_of v].

(** [Uint32(b[0:4])]. *)
Definition get_uint32 (b0 b1 b2 b3 : byte) : Z :=
  Z.lor (Z.lor (byte_val b3) (Z.shiftl (byte_val b2) 8))
        (Z.lor (Z.shiftl (byte_val b1) 16) (Z.shiftl (byte_val b0) 24)).

(** [Uint32] of a slice; Go panics below four bytes, hence the option. *)
Definition uint32_of (bs : list byte) : option Z :=
  match bs with
  | b0 :: b1 :: b2 :: b3 :: _ => Some (get_uint32 b0 b1 b2 b3)
  | _ => None
  end.

Lemma lor_add_shift (a b n : Z) :
  0 <= n → 0 <= a < 2 ^ n → Z.lor a (Z.shiftl b n) = a + b * 2 ^ n.
Proof.
  intros Hn Ha. rewrite Z.shiftl_mul_pow2 by done.
  assert (Z.land a (b * 2 ^ n) = 0) as Hl.
  { apply Z.bits_inj'. intros k Hk. rewrite Z.land_spec, Z.bits_0.
    destruct (Z.lt_ge_cases k n).
    - rewrite Z.mul_pow2_bits_low by done. apply andb_false_r.
    - rewrite <- (Z.mod_small a (2 ^ n)), Z.mod_pow2_bits_high by lia. done. }
  by rewrite <- Z.lxor_lor, <- Z.add_nocarry_lxor.
Qed.

Lemma get_uint32_sum (b0 b1 b2 b3 : byte) :
  get_uint32 b0 b1 b2 b3 =
    byte_val b3 + byte_val b2 * 2 ^ 8 + byte_val b1 * 2 ^ 16 + byte_val b0 * 2 ^ 24.
Proof.
  unfold get_uint32.
  pose proof (byte_val_range b0); pose proof (byte_val_range b1);
  pose proof (byte_val_range b2); pose proof (byte_val_range b3).
  rewrite (lor_add_shift (byte_val b3)) by (pow2; lia).
  replace (Z.shiftl (byte_val b0) 24) with (Z.shiftl (Z.shiftl (byte_val b0) 8) 16)
    by (rewrite Z.shiftl_shiftl by lia; done).
  rewrite <- Z.shiftl_lor, (lor_add_shift (byte_val b1)) by (pow2; lia).
  rewrite lor_add_shift by (pow2; lia). pow2. lia.
Qed.

Lemma get_uint32_range (b0 b1 b2 b3 : byte) : 0 <= get_uint32 b0 b1 b2 b3 < 2 ^ 32.
Proof.
  rewrite get_uint32_sum.
  pose proof (byte_val_range b0); pose proof (byte_val_range b1);
  pose proof (byte_val_range b2); pose proof (byte_val_range b3). pow2. lia.
Qed.

Lemma uint32_of_put (v : Z) (rest : list byte) :
  uint32_of (put_uint32 v ++ rest) = Some (uint32 v).
Proof.
  simpl. f_equal. rewrite get_uint32_sum, !byte_val_of, !Z.shiftr_div_pow2 by lia. mach.
Qed.

Lemma put_uint32_of (b0 b1 b2 b3 : byte) :
  put_uint32 (get_uint32 b0 b1 b2 b3) = [b0; b1; b2; b3].
Proof.
  unfold put_uint32.
  pose proof (byte_val_range b0); pose proof (byte_val_range b1);
  pose proof (byte_val_range b2); pose proof (byte_val_range b3).
  repeat f_equal; apply byte_val_inj;
    rewrite byte_val_of, ?Z.shiftr_div_pow2, get_uint32_sum by lia; mach.
Qed.

(** [Uint32] of an array or a slice that is known to have its four bytes. *)
Definition Uint32 (bs : list byte) : Z := default 0 (uint32_of bs).

Lemma Uint32_put (v : Z) : Uint32 (put_uint32 v) = uint32 v.
Proof. unfold Uint32. by rewrite <- (app_nil_r (put_uint32 v)), uint32_of_put. Qed.

Lemma Uint32_range (bs : list byte) : 0 <= Uint32 bs < 2 ^ 32.
Proof.
  unfold Uint32. destruct (uint32_of bs) as [v|] eqn:E; [|simpl; pow2; lia].
  destruct bs as [|? [|? [|? [|? ?]]]]; simplify_eq/=. apply get_uint32_range.
Qed.

Lemma length_put_uint32 (v : Z) : length (put_uint32 v) = 4%nat.
Proof. done. Qed.

Arguments put_uint32 : simpl never.
Arguments get_uint32 : simpl never.

(** ** Reading a connection *)

(** The errors of the [io] package the source distinguishes, and any other
    error of the transport. *)
Inductive io_error := EOF | ErrUnexpectedEOF | ErrTransport (code : Z).

#[export] Instance io_error_eq_dec : EqDecision io_error.
Proof. solve_decision. Defined.

(** [io.ReadFull(c, buf)] with [len(buf) = n], where the peer sends exactly the
    bytes of the stream and then closes: a read of nothing is [EOF], a short
    one [ErrUnexpectedEOF], and a read into an empty buffer succeeds. *)
Definition read_full (n : nat) (stream : list byte) :
    (list byte * list byte) + io_error :=
  if bool_decide (n ≤ length stream)%nat then inl (take n stream, drop n stream)
  else match stream with [] => inr EOF | _ => inr ErrUnexpectedEOF end.

Lemma read_full_app (bs rest : list byte) :
  read_full (length bs) (bs ++ rest) = inl (bs, rest).
Proof.
  unfold read_full. rewrite bool_decide_true by (rewrite length_app; lia).
  by rewrite take_app_length, drop_app_length.
Qed.

(** A successful read consumes exactly [n] bytes from the front. *)
Lemma read_full_inl (n : nat) (s bs rest : list byte) :
  read_full n s = inl (bs, rest) → s = bs ++ rest ∧ length bs = n.
Proof.
  unfold read_full. case_bool_decide; [|destruct s; done].
  intros [= <- <-]. rewrite take_drop, length_take. split; [done|lia].
Qed.

(** ** [io.Writer] *)

(** What the wire code needs of a writer: one [Write] of a buffer, which either
    succeeds or reports an error. *)
Class Writer (W : Type) := write : W → list byte → W * option io_error.

(** A connection as the list of bytes the peer will read. *)
#[export] Instance buffer_writer : Writer (list byte) := λ w bs, (w ++ bs, None).

(** A connection that breaks once [budget] more bytes were accepted. *)
Record flaky := Flaky { accepted : list byte; budget : nat }.

#[export] Instance flaky_writer : Writer flaky := λ w bs,
  if bool_decide (length bs ≤ budget w)%nat
  then (Flaky (accepted w ++ bs) (budget w - length bs), None)
  else (Flaky (accepted w ++ take (budget w) bs) 0, Some (ErrTransport 32)).

(** ** Wire codecs *)

(** What an encoder promises to the decoder at the other end of the stream:
    decoding what was encoded returns the value and leaves the rest. *)
Class Codec (A : Type) (valid : A → Prop) := {
  encode : A → list byte;
  decode : list byte → option (A * list byte);
  decode_encode (a : A) (rest : list byte) :
    valid a → decode (encode a ++ rest) = Some (a, rest);
  encode_nonempty (a : A) : encode a ≠ [];
}.

Section codec_list.
Context {A : Type} {valid : A → Prop} `{!Codec A valid}.

Definition encode_all (l : list A) : list byte := l ≫= encode.

(** Decode messages until the stream is empty; every message is at least one
    byte long, so the stream's length bounds the number of messages. *)
Fixpoint decode_fuel (fuel : nat) (s : list byte) : option (list A) :=
  match s, fuel with
  | [], _ => Some []
  | _, O => None
  | _, S fuel => '(a, s') ← decode s; l ← decode_fuel fuel s'; Some (a :: l)
  end.

Definition decode_all (s : list byte) : option (list A) := decode_fuel (length s) s.

Lemma decode_fuel_encode (l : list A) (fuel : nat) :
  Forall valid l → (length (encode_all l) ≤ fuel)%nat →
  decode_fuel fuel (encode_all l) = Some l.
Proof.
  revert fuel. induction l as [|a l IH]; intros fuel Hv Hf; [by destruct fuel|].
  apply Forall_cons_iff in Hv as [Ha Hl].
  change (encode_all (a :: l)) with (encode a ++ encode_all l) in *.
  rewrite length_app in Hf. pose proof (encode_nonempty a) as Hne.
  destruct (encode a) as [|x xs] eqn:E; [done|]. simpl in Hf.
  destruct fuel as [|fuel]; [lia|].
  change (decode_fuel (S fuel) ((x :: xs) ++ encode_all l)) with
    ('(a, s') ← decode ((x :: xs) ++ encode_all l);
     l ← decode_fuel fuel s'; Some (a :: l)).
  rewrite <- E, decode_encode by done. simpl. by rewrite IH by (done || lia).
Qed.

(** A batch decodes to the sequence it was built from. *)
Lemma decode_encode_all (l : list A) :
  Forall valid l → decode_all (encode_all l) = Some l.
Proof. intros. by apply decode_fuel_encode. Qed.
End codec_list.

Arguments encode_all {A valid _} l.
Arguments decode_all {A valid _} s.

(** The 32-bit words of the wire. *)
Definition decode_uint32 (s : list byte) : option (Z * list byte) :=
  match read_full 4 s with
  | inl (bs, rest) => v ← uint32_of bs; Some (v, rest)
  | inr _ => None
  end.

#[export, refine] Instance uint32_codec : Codec Z (λ v, 0 <= v < 2 ^ 32) := {
  encode := put_uint32;
  decode := decode_uint32;
}.
Proof.
  - intros v rest Hv. unfold decode_uint32.
    rewrite (read_full_app (put_uint32 v) rest : read_full 4 _ = _).
    rewrite <- (app_nil_r (put_uint32 v)), uint32_of_put. simpl. by rewrite uint32_small.
  - done.
Defined.
