(* ===== verification/Protocol.v ===== *)
(** * The wire protocol: go/protocol/protocol.go

    Message types, the type/length word, [SendTLV] and its callers; the C
    client's reading of the same word (c/testimony.c) and the generator of its
    constants (go/protocol/to_c/to_c.go).

    A [Type] is a [uint16] and is modelled by the [Z] of its value; [iota]
    counts the constants of the block from 0. *)

From stdpp Require Import base list numbers option gmap strings pretty sorting.
From Stdlib Require Import ZArith Lia.
From S2P Require Import Prelude Bytes.

(** ** Message types *)
Definition TypeBlockIndex : Z := 0.
Definition TypeServerToClient : Z := 0x8000 + 1.
Definition TypeWaitingForFanoutIndex : Z := 0x8000 + 2.
Definition TypeFanoutSize : Z := 0x8000 + 3.
Definition TypeBlockSize : Z := 0x8000 + 4.
Definition TypeNumBlocks : Z := 0x8000 + 5.
Definition TypeClientToServer : Z := 0xC000 + 6.
Definition TypeFanoutIndex : Z := 0xC000 + 7.
Definition TypeError : Z := 0xFFFF.

Definition TypeNames : gmap Z string := list_to_map [
  (TypeBlockIndex, "BlockIndex");
  (TypeServerToClient, "ServerToClient");
  (TypeWaitingForFanoutIndex, "WaitingForFanoutIndex");
  (TypeFanoutSize, "FanoutSize");
  (TypeBlockSize, "BlockSize");
  (TypeNumBlocks, "NumBlocks");
  (TypeClientToServer, "ClientToServer");
  (TypeFanoutIndex, "FanoutIndex");
  (TypeError, "Error")]%string.

(** [TypeOf]: the high-level class of a type. *)
Definition TypeOf (t : Z) : Z :=
  if Z.land t 0x8000 =? 0 then TypeBlockIndex
  else if (TypeServerToClient <? t) && (t <? TypeClientToServer) then TypeServerToClient
  else if (TypeClientToServer <? t) && (t <? TypeError) then TypeClientToServer
  else TypeError.

(** [ToTL]: the uint32 of a type and a length. *)
Definition ToTL (typ length : Z) : Z :=
  uint32 (uint32 (Z.shiftl (uint32 typ) 16) + uint32 length).

(** [TLFrom]: split a uint32 into a type and a length. *)
Definition TLFrom (from : Z) : Z * Z :=
  if Z.land from 0x80000000 =? 0 then (TypeBlockIndex, 0)
  else (uint16 (Z.shiftr from 16), Z.land from 0xFFFF).

(** ** Sending *)
Inductive send_error :=
  | InvalidSendType (typ : Z)
  | TooLongValue (len : Z)
  | WriteFailed (typ len : Z) (err : io_error).

#[export] Instance send_error_eq_dec : EqDecision send_error.
Proof. solve_decision. Defined.

Section send.
Context {W : Type} `{!Writer W}.

Definition SendTLV (to : W) (typ : Z) (val : list byte) : W * option send_error :=
  let len := Z.of_nat (length val) in
  if negb (TypeOf typ =? TypeServerToClient) && negb (TypeOf typ =? TypeClientToServer)
  then (to, Some (InvalidSendType typ))
  else if 0xFFFF <? len then (to, Some (TooLongValue len))
  else match write to (put_uint32 (ToTL typ len) ++ val) with
       | (to, Some err) => (to, Some (WriteFailed typ len err))
       | (to, None) => (to, None)
       end.

Definition SendType (to : W) (typ : Z) : W * option send_error := SendTLV to typ [].

Definition SendUint32 (to : W) (typ val : Z) : W * option send_error :=
  SendTLV to typ (put_uint32 val).
End send.

(** ** The C client's reading of the same words: c/testimony.c *)
Module C.
Definition protocol_type (x : Z) : Z :=
  if Z.land x 0x80000000 =? 0 then 0 else Z.shiftr x 16.

Definition protocol_length (x : Z) : Z :=
  if Z.land x 0x80000000 =? 0 then 0 else Z.land x 0xFFFF.

(** [set_be_32(a, x)]: the four bytes stored. *)
Definition set_be_32 (x : Z) : list byte :=
  [byte_of (Z.shiftr x 24); byte_of (Z.shiftr x 16); byte_of (Z.shiftr x 8); byte_of x].

(** The accumulation loop of [recv_be_32] over the four bytes received. *)
Definition recv_be_32 (msg : list byte) : Z :=
  foldl (λ out m, uint32 (uint32 (Z.shiftl out 8) + byte_val m)) 0 msg.
End C.

(** ** The constants generator: go/protocol/to_c/to_c.go *)

(** [main], where [order] is the order in which [range] visits the map. *)
Definition to_c_main (order : list Z) : list string :=
  let keys := merge_sort Z.le order in
  (λ k, "#define TESTIMONY_PROTOCOL_TYPE_" +:+ default "" (TypeNames !! k)
        +:+ " " +:+ pretty k)%string <$> keys.

(** ** Properties *)

(** Both tests of the top bit of a 32-bit word as a comparison. *)
Lemma top_bit (x : Z) :
  0 <= x < 2 ^ 32 → (Z.land x 0x80000000 =? 0) = (x <? 2 ^ 31).
Proof.
  intros Hx. change 0x80000000 with (2 ^ 31). rewrite land_bit by lia.
  rewrite Z.testbit_eqb by lia.
  destruct (Z.ltb_spec x (2 ^ 31)).
  - by rewrite (Z.div_small x) by lia.
  - replace (x / 2 ^ 31) with 1 by (pow2; Z.div_mod_to_equations; lia). done.
Qed.

Lemma type_top_bit (t : Z) :
  0 <= t < 2 ^ 16 → (Z.land t 0x8000 =? 0) = (t <? 2 ^ 15).
Proof.
  intros Hx. change 0x8000 with (2 ^ 15). rewrite land_bit by lia.
  rewrite Z.testbit_eqb by lia.
  destruct (Z.ltb_spec t (2 ^ 15)).
  - by rewrite (Z.div_small t) by lia.
  - replace (t / 2 ^ 15) with 1 by (pow2; Z.div_mod_to_equations; lia). done.
Qed.

(** [ToTL] as arithmetic, for arguments that fit their fields. *)
Lemma ToTL_sum (typ len : Z) :
  0 <= typ < 2 ^ 16 → 0 <= len < 2 ^ 16 → ToTL typ len = typ * 2 ^ 16 + len.
Proof. intros. unfold ToTL. rewrite Z.shiftl_mul_pow2 by lia. mach. Qed.

Lemma TLFrom_msg (from : Z) :
  2 ^ 31 <= from < 2 ^ 32 → TLFrom from = (from / 2 ^ 16, from mod 2 ^ 16).
Proof.
  intros. unfold TLFrom. rewrite top_bit, land_ones16, Z.shiftr_div_pow2 by (pow2; lia).
  rewrite (proj2 (Z.ltb_ge from (2 ^ 31))) by lia. f_equal. mach.
Qed.

Lemma TLFrom_index (from : Z) : 0 <= from < 2 ^ 31 → TLFrom from = (TypeBlockIndex, 0).
Proof.
  intros. unfold TLFrom. rewrite top_bit by (pow2; lia).
  by rewrite (proj2 (Z.ltb_lt from (2 ^ 31))) by lia.
Qed.

(** A type/length word splits back into the type and the length it was made
    of, for every type with its top bit set and every length that fits 16 bits. *)
Theorem TLFrom_ToTL (typ len : Z) :
  2 ^ 15 <= typ < 2 ^ 16 → 0 <= len < 2 ^ 16 → TLFrom (ToTL typ len) = (typ, len).
Proof.
  intros. rewrite ToTL_sum, TLFrom_msg by (pow2; lia).
  f_equal; pow2; Z.div_mod_to_equations; lia.
Qed.

Lemma TLFrom_ToTL_witness : TLFrom (ToTL TypeFanoutIndex 4) = (TypeFanoutIndex, 4).
Proof. apply TLFrom_ToTL; pow2; vm_compute; split; congruence. Defined.

Lemma ToTL_TLFrom (from : Z) :
  2 ^ 31 <= from < 2 ^ 32 → ToTL (TLFrom from).1 (TLFrom from).2 = from.
Proof.
  intros. rewrite TLFrom_msg by done. simpl.
  rewrite ToTL_sum; pow2; Z.div_mod_to_equations; lia.
Qed.

(** The classes of the 16-bit types are the documented ranges: block indexes
    have the top bit clear, server-to-client types lie strictly between the two
    markers, client-to-server types strictly between the second marker and the
    error type, and the markers themselves (and 0x8000) are errors. *)
Theorem TypeOf_spec (t : Z) :
  0 <= t < 2 ^ 16 →
  (TypeOf t = TypeBlockIndex ↔ t < 0x8000) ∧
  (TypeOf t = TypeServerToClient ↔ TypeServerToClient < t < TypeClientToServer) ∧
  (TypeOf t = TypeClientToServer ↔ TypeClientToServer < t < TypeError) ∧
  (TypeOf t = TypeError ↔
     t ∈ [0x8000; TypeServerToClient; TypeClientToServer; TypeError]).
Proof.
  intros Ht. unfold TypeOf. rewrite type_top_bit by done.
  unfold TypeBlockIndex, TypeServerToClient, TypeClientToServer, TypeError. pow2.
  rewrite !elem_of_cons, elem_of_nil.
  destruct (Z.ltb_spec t 32768); [lia|].
  destruct (Z.ltb_spec (32768 + 1) t), (Z.ltb_spec t (49152 + 6)),
    (Z.ltb_spec (49152 + 6) t), (Z.ltb_spec t 65535); simpl; lia.
Qed.

Lemma TypeOf_spec_witness : TypeOf TypeNumBlocks = TypeServerToClient.
Proof.
  apply (TypeOf_spec TypeNumBlocks); vm_compute; split; congruence.
Defined.

(** The types [SendTLV] accepts. *)
Definition sendable (typ : Z) : Prop :=
  TypeServerToClient < typ < TypeClientToServer ∨ TypeClientToServer < typ < TypeError.

#[export] Instance sendable_dec typ : Decision (sendable typ).
Proof. apply _. Defined.

Lemma sendable_range (typ : Z) : sendable typ → 2 ^ 15 <= typ < 2 ^ 16.
Proof.
  unfold sendable, TypeServerToClient, TypeClientToServer, TypeError. pow2. lia.
Qed.

(** The guard of [SendTLV]. *)
Lemma send_guard (typ : Z) :
  0 <= typ < 2 ^ 16 →
  negb (TypeOf typ =? TypeServerToClient) && negb (TypeOf typ =? TypeClientToServer)
  = negb (bool_decide (sendable typ)).
Proof.
  intros Ht. unfold sendable, TypeOf. rewrite type_top_bit by done.
  unfold TypeServerToClient, TypeClientToServer, TypeError, TypeBlockIndex. pow2.
  destruct (Z.ltb_spec typ 32768); [rewrite bool_decide_false by lia; done|].
  destruct (Z.ltb_spec (32768 + 1) typ), (Z.ltb_spec typ (49152 + 6)),
    (Z.ltb_spec (49152 + 6) typ), (Z.ltb_spec typ 65535); simpl;
    first [exfalso; lia | by rewrite bool_decide_true by lia | by rewrite bool_decide_false by lia].
Qed.

Section send_spec.
Context {W : Type} `{!Writer W}.

(** Every branch of [SendTLV], on any writer: a type that is not a message
    type and a value longer than 16 bits can say are refused before anything
    is written; otherwise exactly one [Write] is made, of the type/length word
    followed by the value, and the writer's error is reported. *)
Theorem SendTLV_spec (to : W) (typ : Z) (val : list byte) :
  0 <= typ < 2 ^ 16 →
  (¬ sendable typ → SendTLV to typ val = (to, Some (InvalidSendType typ))) ∧
  (sendable typ → 0xFFFF < Z.of_nat (length val) →
     SendTLV to typ val = (to, Some (TooLongValue (Z.of_nat (length val))))) ∧
  (sendable typ → Z.of_nat (length val) <= 0xFFFF →
     SendTLV to typ val =
       let r := write to
         (put_uint32 (typ * 2 ^ 16 + Z.of_nat (length val)) ++ val) in
       (r.1, WriteFailed typ (Z.of_nat (length val)) <$> r.2)).
Proof.
  intros Ht. unfold SendTLV. rewrite send_guard by done. split_and!.
  - intros Hs. by rewrite bool_decide_false.
  - intros Hs Hl. rewrite bool_decide_true by done. simpl.
    by rewrite (proj2 (Z.ltb_lt _ _)).
  - intros Hs Hl. rewrite bool_decide_true by done. simpl.
    rewrite (proj2 (Z.ltb_ge _ _)) by done.
    rewrite ToTL_sum by (done || pow2; lia).
    by destruct (write to _) as [? []].
Qed.
End send_spec.

Lemma SendTLV_spec_witness :
  SendTLV (Flaky [] 6) TypeFanoutSize (put_uint32 7) =
    (Flaky (put_uint32 0x80030004 ++ take 2 (put_uint32 7)) 0,
     Some (WriteFailed TypeFanoutSize 4 (ErrTransport 32))).
Proof.
  destruct (SendTLV_spec (Flaky [] 6) TypeFanoutSize (put_uint32 7)) as (_ & _ & H);
    [vm_compute; split; congruence|].
  rewrite H; [reflexivity|vm_compute; left; split; congruence|vm_compute; congruence].
Defined.

(** ** TLV messages as a codec *)

(** A message: a type and its value. *)
Definition tlv : Type := Z * list byte.

Definition tlv_valid (m : tlv) : Prop :=
  sendable m.1 ∧ Z.of_nat (length m.2) <= 0xFFFF.

(** A reference decoder, which says what it is to read a message: the word first, then
    as many bytes as its length field says.  A word with its top bit clear is not a
    message.  The readers of the code, each with its own errors and what it does with a
    message, are in Handshake, Client and CClient. *)
Definition decode_tlv (s : list byte) : option (tlv * list byte) :=
  '(num, s) ← decode_uint32 s;
  if num <? 2 ^ 31 then None
  else let '(typ, len) := TLFrom num in
       match read_full (Z.to_nat len) s with
       | inl (val, s) => Some ((typ, val), s)
       | inr _ => None
       end.

Lemma decode_uint32_put (v : Z) (rest : list byte) :
  0 <= v < 2 ^ 32 → decode_uint32 (put_uint32 v ++ rest) = Some (v, rest).
Proof. intros Hv. exact (decode_encode v rest Hv). Qed.

(** The bytes [SendTLV] puts on a connection. *)
Definition tlv_bytes (m : tlv) : list byte :=
  put_uint32 (ToTL m.1 (Z.of_nat (length m.2))) ++ m.2.

(** What the reader of a valid message sees in its word. *)
Lemma tlv_word (m : tlv) :
  tlv_valid m →
  let x := ToTL m.1 (Z.of_nat (length m.2)) in
  2 ^ 31 <= x < 2 ^ 32 ∧ TLFrom x = (m.1, Z.of_nat (length m.2)).
Proof.
  intros [Hs Hl] x. subst x. pose proof (sendable_range _ Hs).
  rewrite ToTL_sum by (pow2; lia). split; [pow2; lia|].
  rewrite TLFrom_msg by (pow2; lia). f_equal; pow2; Z.div_mod_to_equations; lia.
Qed.

Lemma decode_tlv_bytes (m : tlv) (rest : list byte) :
  tlv_valid m → decode_tlv (tlv_bytes m ++ rest) = Some (m, rest).
Proof.
  intros Hm. destruct (tlv_word m Hm) as [Hx HT]. unfold decode_tlv, tlv_bytes.
  rewrite <- app_assoc, decode_uint32_put by (pow2; lia). cbn [mbind option_bind].
  rewrite (proj2 (Z.ltb_ge _ _)), HT by lia.
  rewrite Nat2Z.id, read_full_app. by destruct m.
Qed.

#[export] Instance tlv_codec : Codec tlv tlv_valid := {
  encode := tlv_bytes;
  decode := decode_tlv;
  decode_encode := decode_tlv_bytes;
  encode_nonempty := λ m H, ltac:(discriminate H);
}.

(** A valid message is one [Write] of its bytes, on any writer. *)
Lemma SendTLV_write `{!Writer W} (to : W) (m : tlv) :
  tlv_valid m →
  SendTLV to m.1 m.2 =
    let r := write to (tlv_bytes m) in
    (r.1, WriteFailed m.1 (Z.of_nat (length m.2)) <$> r.2).
Proof.
  intros [Hs Hl]. pose proof (sendable_range _ Hs). unfold SendTLV.
  rewrite send_guard, bool_decide_true by (done || pow2; lia). cbn [negb].
  rewrite (proj2 (Z.ltb_ge _ _)) by done. change (_ ++ m.2) with (tlv_bytes m).
  by destruct (write to _) as [? []].
Qed.

Lemma SendTLV_buffer (w : list byte) (m : tlv) :
  tlv_valid m → SendTLV w m.1 m.2 = (w ++ tlv_bytes m, None).
Proof. intros. by rewrite SendTLV_write. Qed.

(** [SendTLV] of one message after another. *)
Definition send_all (w : list byte) (ms : list tlv) : list byte :=
  foldl (λ w m, (SendTLV w m.1 m.2).1) w ms.

Lemma send_all_bytes (w : list byte) (ms : list tlv) :
  Forall tlv_valid ms → send_all w ms = w ++ encode_all ms.
Proof.
  revert w. induction ms as [|m ms IH]; intros w Hv; simpl; [by rewrite app_nil_r|].
  apply Forall_cons_iff in Hv as [Hm Hms].
  rewrite SendTLV_buffer, IH by done. simpl. by rewrite <- app_assoc.
Qed.

(** C40: any sequence of messages sent with [SendTLV] over one connection is read
    back as that sequence: framing never loses, merges or reorders messages,
    whatever the values contain. *)
Theorem tlv_stream_roundtrip (ms : list tlv) :
  Forall tlv_valid ms → decode_all (send_all [] ms) = Some ms.
Proof. intros Hv. rewrite send_all_bytes by done. by apply decode_encode_all. Qed.

Lemma tlv_stream_roundtrip_witness :
  decode_all (send_all [] [(TypeBlockSize, put_uint32 (2 ^ 32 - 1));
                           (TypeWaitingForFanoutIndex, [])])
  = Some [(TypeBlockSize, put_uint32 (2 ^ 32 - 1)); (TypeWaitingForFanoutIndex, [])].
Proof.
  apply tlv_stream_roundtrip.
  repeat constructor; vm_compute; (congruence || left; split; congruence).
Defined.

(** ** The C client agrees *)

Lemma c_word_TLFrom (x : Z) :
  0 <= x < 2 ^ 32 → C.protocol_type x = (TLFrom x).1 ∧ C.protocol_length x = (TLFrom x).2.
Proof.
  intros Hx. unfold C.protocol_type, C.protocol_length, TLFrom.
  destruct (Z.land x _ =? 0); [done|]. simpl. rewrite Z.shiftr_div_pow2 by lia. split; [mach|done].
Qed.

Lemma c_word_agrees (b0 b1 b2 b3 : byte) :
  let x := get_uint32 b0 b1 b2 b3 in
  C.protocol_type x = (TLFrom x).1 ∧ C.protocol_length x = (TLFrom x).2 ∧
  C.recv_be_32 [b0; b1; b2; b3] = x ∧ C.set_be_32 x = [b0; b1; b2; b3].
Proof.
  intros x. pose proof (get_uint32_range b0 b1 b2 b3) as Hx. fold x in Hx.
  destruct (c_word_TLFrom x Hx) as [Ht Hl]. split_and!; [done..| |].
  - unfold x. rewrite get_uint32_sum. unfold C.recv_be_32. simpl.
    pose proof (byte_val_range b0); pose proof (byte_val_range b1);
    pose proof (byte_val_range b2); pose proof (byte_val_range b3).
    rewrite !Z.shiftl_mul_pow2 by lia. mach.
  - apply put_uint32_of.
Qed.

(** On every 32-bit word the C client's [protocol_type]/[protocol_length] and
    the Go side's [TLFrom] agree, and the byte-order loops of the C client
    agree with [binary.BigEndian]. *)
Theorem c_protocol_agrees (b0 b1 b2 b3 : byte) :
  let x := get_uint32 b0 b1 b2 b3 in
  C.protocol_type x = (TLFrom x).1 ∧ C.protocol_length x = (TLFrom x).2 ∧
  C.recv_be_32 [b0; b1; b2; b3] = x ∧ C.set_be_32 x = [b0; b1; b2; b3].
Proof. apply c_word_agrees. Qed.

(** ** The generated constants *)

(** Whatever order Go's map iteration visits the names in, the generator
    prints the block of defines that stands in c/testimony.c (lines 36-44). *)
Theorem to_c_main_output (order : list Z) :
  order ≡ₚ (map_to_list TypeNames).*1 →
  to_c_main order = [
    "#define TESTIMONY_PROTOCOL_TYPE_BlockIndex 0";
    "#define TESTIMONY_PROTOCOL_TYPE_ServerToClient 32769";
    "#define TESTIMONY_PROTOCOL_TYPE_WaitingForFanoutIndex 32770";
    "#define TESTIMONY_PROTOCOL_TYPE_FanoutSize 32771";
    "#define TESTIMONY_PROTOCOL_TYPE_BlockSize 32772";
    "#define TESTIMONY_PROTOCOL_TYPE_NumBlocks 32773";
    "#define TESTIMONY_PROTOCOL_TYPE_ClientToServer 49158";
    "#define TESTIMONY_PROTOCOL_TYPE_FanoutIndex 49159";
    "#define TESTIMONY_PROTOCOL_TYPE_Error 65535"]%string.
Proof.
  intros Hp. unfold to_c_main.
  assert (merge_sort Z.le order = merge_sort Z.le (map_to_list TypeNames).*1) as ->;
    [|reflexivity].
  apply (Sorted_unique Z.le); [apply Sorted_merge_sort; apply _..|].
  by rewrite !merge_sort_Permutation.
Qed.

Lemma to_c_main_output_witness :
  length (to_c_main (reverse (map_to_list TypeNames).*1)) = 9%nat.
Proof. rewrite to_c_main_output; [reflexivity|apply reverse_Permutation]. Defined.
