(* ===== verification/Chan.v ===== *)
(** * Go channels

    A buffered channel is its queue, its capacity and whether it is closed.  The
    operations are the ones the daemon uses, with Go's outcome on every state:
    a send on a full channel waits, a send on or a close of a closed channel
    panics, a receive from an empty channel waits and from a closed and drained
    one yields the zero value. *)

From stdpp Require Import base list numbers option.
From Stdlib Require Import ZArith Lia.
From S2P Require Import Prelude.

Record chan (A : Type) := Chan {
  ch_buf : list A;
  ch_cap : nat;
  ch_closed : bool;
}.
Arguments Chan {A} _ _ _.
Arguments ch_buf {A} _.
Arguments ch_cap {A} _.
Arguments ch_closed {A} _.

Inductive send_result (A : Type) := SendFull | SendPanic | Sent (ch : chan A).
Arguments SendFull {A}.
Arguments SendPanic {A}.
Arguments Sent {A} _.

Inductive recv_result (A : Type) := RecvEmpty | RecvZero | Recv (x : A) (ch : chan A).
Arguments RecvEmpty {A}.
Arguments RecvZero {A}.
Arguments Recv {A} _ _.

Section chan.
Context {A : Type}.

(** [make(chan A, cap)] *)
Definition make_chan (cap : nat) : chan A := Chan [] cap false.

(** [ch <- x] *)
Definition chan_send (ch : chan A) (x : A) : send_result A :=
  if ch_closed ch then SendPanic
  else if bool_decide (length (ch_buf ch) < ch_cap ch)%nat
  then Sent (Chan (ch_buf ch ++ [x]) (ch_cap ch) false)
  else SendFull.

(** [<-ch] *)
Definition chan_recv (ch : chan A) : recv_result A :=
  match ch_buf ch with
  | x :: l => Recv x (Chan l (ch_cap ch) (ch_closed ch))
  | [] => if ch_closed ch then RecvZero else RecvEmpty
  end.

(** [close(ch)]; [None] is the panic of closing twice. *)
Definition chan_close (ch : chan A) : option (chan A) :=
  if ch_closed ch then None else Some (Chan (ch_buf ch) (ch_cap ch) true).

Lemma chan_recv_inv (ch ch' : chan A) (x : A) :
  chan_recv ch = Recv x ch' →
  ch_buf ch = x :: ch_buf ch' ∧ ch_cap ch' = ch_cap ch ∧ ch_closed ch' = ch_closed ch.
Proof.
  destruct ch as [[|y l] cap cl]; unfold chan_recv; simpl; [by destruct cl|].
  intros [= -> <-]. done.
Qed.

Lemma chan_recv_zero (ch : chan A) :
  chan_recv ch = RecvZero → ch_buf ch = [] ∧ ch_closed ch = true.
Proof. destruct ch as [[|y l] cap []]; done. Qed.

Lemma chan_recv_empty (ch : chan A) :
  chan_recv ch = RecvEmpty → ch_buf ch = [] ∧ ch_closed ch = false.
Proof. destruct ch as [[|y l] cap []]; done. Qed.

Lemma chan_send_inv (ch ch' : chan A) (x : A) :
  chan_send ch x = Sent ch' →
  ch_buf ch' = ch_buf ch ++ [x] ∧ ch_cap ch' = ch_cap ch ∧
  ch_closed ch' = false ∧ ch_closed ch = false.
Proof.
  unfold chan_send. destruct (ch_closed ch); [done|]. case_bool_decide; [|done].
  intros [= <-]. done.
Qed.

Lemma chan_send_room (ch : chan A) (x : A) :
  ch_closed ch = false → (length (ch_buf ch) < ch_cap ch)%nat →
  chan_send ch x = Sent (Chan (ch_buf ch ++ [x]) (ch_cap ch) false).
Proof. intros Hc Hl. unfold chan_send. by rewrite Hc, bool_decide_true. Qed.
End chan.
