(* ===== verification/Block.v ===== *)
(** * Packet blocks: the [block] type of socket.go

    A block of the ring with the daemon's reference count [r] and the
    [block_status] word it shares with the kernel.  [b_gen] counts how often the
    kernel filled the block; it has no counterpart in the code and stands for
    the packets in the memory of the block. *)

From stdpp Require Import base list numbers option.
From Stdlib Require Import ZArith Lia.
From S2P Require Import Prelude.

Record block := Block {
  b_r : Z;       (* reference count, an int32 updated atomically *)
  b_status : Z;  (* block_status of the tpacket header: 0 is the kernel's *)
  b_gen : nat;   (* contents *)
}.

(** [&block{s: s, index: i}] on a ring just mapped: no references, and the
    kernel owns the block. *)
Definition new_block : block := Block 0 0 0.

(** [ref]: the atomic increment. *)
Definition ref (b : block) : block := Block (int32 (b_r b + 1)) (b_status b) (b_gen b).

(** The atomic decrement of [unref], with the value it returns. *)
Definition unref_dec (b : block) : block * Z :=
  let refs := int32 (b_r b - 1) in (Block refs (b_status b) (b_gen b), refs).

Arguments unref_dec : simpl never.

(** [clear] *)
Definition clear (b : block) : block := Block (b_r b) 0 (b_gen b).

(** [ready]: the reference count is loaded first, then the status. *)
Definition ready (b : block) : bool := (b_r b =? 0) && negb (b_status b =? 0).

(** What follows the decrement in [unref]. *)
Inductive unref_next := UnrefClear | UnrefPanic (refs : Z) | UnrefDone.

Definition unref_after (refs : Z) : unref_next :=
  if refs =? 0 then UnrefClear else if refs <? 0 then UnrefPanic refs else UnrefDone.

(** [unref] when nothing interleaves; [None] is its panic. *)
Definition unref (b : block) : option block :=
  let '(b, refs) := unref_dec b in
  match unref_after refs with
  | UnrefClear => Some (clear b)
  | UnrefPanic _ => None
  | UnrefDone => Some b
  end.

(** The kernel's side (linux/if_packet.h, TPACKET_V3): it writes packets only to
    a block whose status is [TP_STATUS_KERNEL] (0) and hands it over with a
    nonzero status. *)
Definition kernel_fill (status : Z) (b : block) : option block :=
  if (b_status b =? 0) && negb (status =? 0)
  then Some (Block (b_r b) status (S (b_gen b))) else None.
