(* ===== verification/Report.v ===== *)
(** * Names, log lines and statistics

    What the daemon and the Go client print and how they name things: the [String]
    methods of socket.go, package vlog, the temporary socket name of the client
    (testimony.go), and the counters of [stats] and [reportStats]. *)

From stdpp Require Import base list numbers option strings pretty.
From Stdlib Require Import ZArith Lia Ascii.
From Stdlib Require String.
From S2P Require Import Prelude Bytes Block.

(** ** Names *)
Definition socket_String (SocketName : string) (num : Z) : string :=
  "[S:" +:+ SocketName +:+ ":" +:+ pretty num +:+ "]".

Definition conn_String (s RemoteAddr : string) : string :=
  "[C:" +:+ s +:+ ":" +:+ RemoteAddr +:+ "]".

Definition block_String (s : string) (index : Z) : string :=
  "[B:" +:+ s +:+ ":" +:+ pretty index +:+ "]".

(** [localSocketName], given what [rand.Read] filled in (or that it failed) and the
    directory for temporary files, a clean path below the root. *)
Definition hex_digit (n : Z) : ascii := ascii_of_N (Z.to_N (if n <? 10 then 48 + n else 87 + n)).

Fixpoint hex_EncodeToString (bs : list byte) : string :=
  match bs with
  | [] => ""
  | b :: bs => String (hex_digit (byte_val b / 16))
                 (String (hex_digit (byte_val b mod 16)) (hex_EncodeToString bs))
  end.

Definition localSocketName (rand : list byte + Z) (TempDir : string) : option string :=
  match rand with
  | inl randbytes =>
      if (length randbytes =? 8)%nat
      then Some (TempDir +:+ "/" +:+ "testimony_go_client_" +:+ hex_EncodeToString randbytes)
      else None                                  (* panic *)
  | inr _ => None
  end.

(** ** vlog *)

(** [filepath.Base] of the path of a source file. *)
Fixpoint base_go (cur : string) (path : string) : string :=
  match path with
  | "" => cur
  | String c path => if decide (c = "/"%char) then base_go "" path else base_go (cur +:+ String c "") path
  end.

Definition Base (path : string) : string := base_go "" path.

Record frame := Frame { f_file : string; f_line : Z }.

(** [runtime.Caller(skip)]: frame 0 is the function that asks. *)
Definition Caller (stack : list frame) (skip : nat) : frame :=
  default (Frame "" 0) (stack !! skip).

(** [VUp(level, caller, ...)] with its own frame on top of [stack]: the line written
    for the formatted message. *)
Definition VUp (verbose level : Z) (caller : nat) (msg : string) (stack : list frame) :
    option string :=
  if level <=? verbose then
    let f := Caller stack (caller + 1) in
    Some (Base (f_file f) +:+ ":" +:+ pretty (f_line f) +:+ " -" +:+ String "009" "" +:+ msg)
  else None.

(** [V(level, ...)], which calls [VUp] from [here]. *)
Definition V (verbose level : Z) (msg : string) (here : frame) (stack : list frame) :
    option string :=
  VUp verbose level 1 msg (here :: stack).

(** ** Statistics *)

(** The kernel's counters of a packet socket: uint32, read and reset together. *)
Record counters := Counters { tp_packets : Z; tp_drops : Z }.

(** [stats]: getsockopt(PACKET_STATISTICS), which may fail and then resets nothing. *)
Definition stats (err : option Z) (k : counters) : counters * (counters + Z) :=
  match err with
  | Some e => (k, inr e)
  | None => (Counters 0 0, inl k)
  end.

(** A line of the log: the last minute and the totals; the share of drops is over
    a sum of uint32 values. *)
Record report := Report {
  rp_packets : Z; rp_drops : Z; rp_sum : Z;
  rp_totalPackets : Z; rp_totalDrops : Z; rp_total_sum : Z;
}.

(** What happens in a minute: packets and drops counted by the kernel, and whether the
    call fails. *)
Record minute := Minute { mi_packets : Z; mi_drops : Z; mi_err : option Z }.

Definition count_minute (m : minute) (k : counters) : counters :=
  Counters (uint32 (tp_packets k + mi_packets m)) (uint32 (tp_drops k + mi_drops m)).

(** The loop of [reportStats] over the ticks; an error is logged ([inr]). *)
Fixpoint report_loop (totalPackets totalDrops : Z) (k : counters) (ms : list minute) :
    Z * Z * counters * list (report + Z) :=
  match ms with
  | [] => (totalPackets, totalDrops, k, [])
  | m :: ms =>
      let '(k, r) := stats (mi_err m) (count_minute m k) in
      match r with
      | inr e =>
          let '(p, d, k, l) := report_loop totalPackets totalDrops k ms in (p, d, k, inr e :: l)
      | inl s =>
          let totalPackets := uint64 (totalPackets + tp_packets s) in
          let totalDrops := uint64 (totalDrops + tp_drops s) in
          let line := Report (tp_packets s) (tp_drops s) (uint32 (tp_drops s + tp_packets s))
                        totalPackets totalDrops (uint64 (totalPackets + totalDrops)) in
          let '(p, d, k, l) := report_loop totalPackets totalDrops k ms in (p, d, k, inl line :: l)
      end
  end.

(** [reportStats]: a first read, whose result and error are ignored. *)
Definition reportStats (err : option Z) (k : counters) (ms : list minute) :
    Z * Z * counters * list (report + Z) :=
  report_loop 0 0 (stats err k).1 ms.

(** ** Where a block is *)

(** [cblock]: the address of the header of block [index], with [uintptr] arithmetic; the
    header follows two 32-bit words. *)
Definition cblock (ring BlockSize index : Z) : Z :=
  uint64 (uint64 (ring + uint64 (uint64 BlockSize * uint64 index)) + 8).

(** ** Properties *)

(** *** Names are unique *)
Abbreviation chars := String.list_ascii_of_string.

Lemma chars_app (a b : string) : chars (a +:+ b) = chars a ++ chars b.
Proof. induction a as [|c a IH]; [done|].
  change (chars (String c a +:+ b)) with (c :: chars (a +:+ b)). by rewrite IH. Qed.

Lemma chars_inj (a b : string) : chars a = chars b → a = b.
Proof.
  intros H. by rewrite <- (String.string_of_list_ascii_of_string a), H,
    String.string_of_list_ascii_of_string.
Qed.

(** A separator that does not occur after its last place splits a string one way. *)
Lemma split_first (c : ascii) (a a' b b' : list ascii) :
  c ∉ b → c ∉ b' → b ++ c :: a = b' ++ c :: a' → b = b' ∧ a = a'.
Proof.
  revert b'. induction b as [|x b IH]; intros [|x' b'] Hb Hb' H; cbn in H; simplify_eq.
  - done.
  - by destruct Hb'; left.
  - by destruct Hb; left.
  - destruct (IH b') as [-> ->]; [| |done|done].
    + intros ?. apply Hb. by right.
    + intros ?. apply Hb'. by right.
Qed.

Lemma split_last (c : ascii) (a a' b b' : list ascii) :
  c ∉ b → c ∉ b' → a ++ c :: b = a' ++ c :: b' → a = a' ∧ b = b'.
Proof.
  intros Hb Hb' H. apply (f_equal reverse) in H. rewrite !reverse_app, !reverse_cons in H.
  rewrite <- !app_assoc in H. cbn [app] in H.
  apply split_first in H as [Hr Hl]; [|by rewrite elem_of_reverse..].
  split; [by apply (inj reverse)|by apply (inj reverse)].
Qed.

(** Digits are not colons. *)
Lemma pretty_N_go_no_colon (x : N) (s : string) :
  ":"%char ∉ chars s → ":"%char ∉ chars (pretty_N_go x s).
Proof.
  revert s. induction (N.lt_wf_0 x) as [x _ IH]; intros s Hs.
  assert (x = 0 ∨ 0 < x)%N as [->|Hx] by lia; [done|].
  rewrite pretty_N_go_step by done. apply IH; [by apply N.div_lt|].
  cbn. intros [E|?]%elem_of_cons; [|done]. unfold pretty_N_char in E. by repeat case_match.
Qed.

Lemma pretty_no_colon (z : Z) : ":"%char ∉ chars (pretty z).
Proof.
  assert (∀ p, ":"%char ∉ chars (pretty (N.pos p))) as H.
  { intros p. unfold pretty, pretty_N. case_decide; [done|]. apply pretty_N_go_no_colon.
    apply not_elem_of_nil. }
  destruct z as [|p|p]; unfold pretty, pretty_Z.
  - cbn. intros [?|?%elem_of_nil]%elem_of_cons; done.
  - apply H.
  - rewrite chars_app. intros [E|E]%elem_of_app; [|by apply (H p)].
    cbn in E. by apply elem_of_cons in E as [?|?%elem_of_nil].
Qed.

(** A name of the form [prefix name : part ]. *)
Lemma name_inj (pre a a' b b' : string) :
  ":"%char ∉ chars b → ":"%char ∉ chars b' →
  pre +:+ a +:+ ":" +:+ b +:+ "]" = pre +:+ a' +:+ ":" +:+ b' +:+ "]" → a = a' ∧ b = b'.
Proof.
  intros Hb Hb' H. apply (f_equal chars) in H. rewrite !chars_app in H.
  apply app_inv_head in H. cbn [chars app] in H.
  assert (∀ l, ":"%char ∉ l → ":"%char ∉ l ++ ["]"%char]) as Hend.
  { intros l Hl [?|E]%elem_of_app; [done|]. by apply elem_of_cons in E as [?|?%elem_of_nil]. }
  apply split_last in H as [Ha Hbb]; [|by apply Hend..].
  apply app_inv_tail in Hbb. split; by apply chars_inj.
Qed.

(** The names are unique, as the comments of socket.go say: two sockets with the same
    string have the same name and number, two blocks with the same string belong to
    the same socket and have the same index; and two connections of a socket with
    addresses that contain no colon have different strings. *)
Theorem names_unique :
  (∀ n n' i i', socket_String n i = socket_String n' i' → n = n' ∧ i = i') ∧
  (∀ n n' i i' x x', block_String (socket_String n i) x = block_String (socket_String n' i') x' →
     n = n' ∧ i = i' ∧ x = x') ∧
  (∀ s s' a a', ":"%char ∉ chars a → ":"%char ∉ chars a' →
     conn_String s a = conn_String s' a' → s = s' ∧ a = a').
Proof.
  assert (∀ n n' i i', socket_String n i = socket_String n' i' → n = n' ∧ i = i') as Hs.
  { intros n n' i i' H. apply name_inj in H as [-> H]; [|apply pretty_no_colon..].
    split; [done|]. by apply (inj pretty). }
  split_and!.
  - exact Hs.
  - intros n n' i i' x x' H. apply name_inj in H as [H Hx]; [|apply pretty_no_colon..].
    apply Hs in H as [-> ->]. split_and!; [done..|]. by apply (inj pretty).
  - intros s s' a a' Ha Ha' H. by apply name_inj in H.
Qed.

(** An address with a colon can make two connections look the same. *)
Lemma conn_String_ambiguous :
  conn_String (socket_String "a" 1) "q:2]:z" = conn_String (socket_String "a:1]:q" 2) "z".
Proof. vm_compute. reflexivity. Qed.

Lemma hex_digit_inj (a b : Z) : 0 <= a < 16 → 0 <= b < 16 → hex_digit a = hex_digit b → a = b.
Proof.
  intros Ha Hb H. apply (f_equal N_of_ascii) in H. unfold hex_digit in H.
  destruct (Z.ltb_spec a 10), (Z.ltb_spec b 10); rewrite !N_ascii_embedding in H by lia; lia.
Qed.

Lemma hex_inj (bs bs' : list byte) : hex_EncodeToString bs = hex_EncodeToString bs' → bs = bs'.
Proof.
  revert bs'. induction bs as [|b bs IH]; intros [|b' bs'] H; try done.
  injection H as H1 H2 H3. f_equal; [|by apply IH].
  pose proof (byte_val_range b) as Hb. pose proof (byte_val_range b') as Hb'. pow2.
  apply hex_digit_inj in H1, H2; try (Z.div_mod_to_equations; lia).
  apply byte_val_inj. Z.div_mod_to_equations. lia.
Qed.

(** Two clients get the same temporary name only from the same random bytes. *)
Theorem localSocketName_inj (bs bs' : list byte) (dir name : string) :
  localSocketName (inl bs) dir = Some name → localSocketName (inl bs') dir = Some name → bs = bs'.
Proof.
  unfold localSocketName. destruct (length bs =? 8)%nat; [|done].
  destruct (length bs' =? 8)%nat; [|done]. intros [= <-] [= H].
  repeat apply (inj (String.append _)) in H. symmetry. by apply hex_inj.
Qed.

(** *** Log lines *)

(** A message goes out exactly when its level is low enough, under the place of the call
    of [V]; the calls of [VUp] in [ref], [unref] (with 1) and [clear] (with 2) name
    the place where [ref] or [unref] was called. *)
Theorem vlog_attribution (verbose level : Z) (msg : string) (vup v r c site : frame)
    (stack : list frame) :
  let line := Base (f_file site) +:+ ":" +:+ pretty (f_line site) +:+ " -" +:+
                String "009" "" +:+ msg in
  let expected := if level <=? verbose then Some line else None in
  V verbose level msg vup (v :: site :: stack) = expected ∧
  VUp verbose level 1 msg (vup :: r :: site :: stack) = expected ∧
  VUp verbose level 2 msg (vup :: c :: r :: site :: stack) = expected.
Proof. unfold V, VUp. by destruct (level <=? verbose). Qed.

(** *** Statistics *)
Definition all_packets (ms : list minute) : Z := foldr (λ m, Z.add (mi_packets m)) 0 ms.
Definition all_drops (ms : list minute) : Z := foldr (λ m, Z.add (mi_drops m)) 0 ms.

(** The kernel's counters do not overflow: what is counted between two reads that
    succeed stays below 2^32. *)
Fixpoint no_overflow (p d : Z) (ms : list minute) : Prop :=
  match ms with
  | [] => True
  | m :: ms =>
      let p := p + mi_packets m in let d := d + mi_drops m in
      0 <= mi_packets m ∧ 0 <= mi_drops m ∧ p < 2 ^ 32 ∧ d < 2 ^ 32 ∧
      match mi_err m with Some _ => no_overflow p d ms | None => no_overflow 0 0 ms end
  end.

Lemma report_loop_conserves (ms : list minute) (tp td p d : Z) :
  0 <= p → 0 <= d → no_overflow p d ms →
  let '(tp', td', k, l) := report_loop tp td (Counters p d) ms in
  (tp + p + all_packets ms) mod 2 ^ 64 = (tp' + tp_packets k) mod 2 ^ 64 ∧
  (td + d + all_drops ms) mod 2 ^ 64 = (td' + tp_drops k) mod 2 ^ 64 ∧
  length l = length ms.
Proof.
  revert tp td p d. induction ms as [|m ms IH]; intros tp td p d Hp Hd Hno.
  { cbn. by rewrite !Z.add_0_r. }
  destruct Hno as (H1 & H2 & H3 & H4 & Hno). cbn [report_loop]. unfold count_minute.
  cbn [tp_packets tp_drops]. rewrite !uint32_small by lia.
  change (all_packets (m :: ms)) with (mi_packets m + all_packets ms).
  change (all_drops (m :: ms)) with (mi_drops m + all_drops ms).
  destruct (mi_err m) as [e|]; cbn [stats].
  - specialize (IH tp td (p + mi_packets m) (d + mi_drops m) ltac:(lia) ltac:(lia) Hno).
    destruct (report_loop _ _ _ ms) as [[[tp' td'] k] l]. destruct IH as (IH1 & IH2 & IH3).
    cbn [length]. rewrite <- IH1, <- IH2, IH3. split_and!; [f_equal; lia..|done].
  - cbn [tp_packets tp_drops].
    specialize (IH (uint64 (tp + (p + mi_packets m))) (uint64 (td + (d + mi_drops m))) 0 0
      ltac:(lia) ltac:(lia) Hno).
    destruct (report_loop _ _ _ ms) as [[[tp' td'] k] l]. destruct IH as (IH1 & IH2 & IH3).
    cbn [length]. rewrite <- IH1, <- IH2, IH3. unfold uint64.
    rewrite !Z.add_0_r, !Zplus_mod_idemp_l. split_and!; [f_equal; lia..|done].
Qed.

(** C39: the statistics lose nothing: after any number of minutes, failed reads among
    them, the totals and what the kernel still counts add up to everything counted
    since the first read (modulo 2^64), as long as the kernel's own counters do not
    overflow between two reads that succeed. *)
Theorem reportStats_conserves (k : counters) (ms : list minute) :
  no_overflow 0 0 ms →
  let '(totalPackets, totalDrops, k', lines) := reportStats None k ms in
  all_packets ms mod 2 ^ 64 = (totalPackets + tp_packets k') mod 2 ^ 64 ∧
  all_drops ms mod 2 ^ 64 = (totalDrops + tp_drops k') mod 2 ^ 64 ∧
  length lines = length ms.
Proof.
  intros Hno. unfold reportStats. cbn [stats fst].
  pose proof (report_loop_conserves ms 0 0 0 0 ltac:(done) ltac:(done) Hno) as H.
  by destruct (report_loop _ _ _ ms) as [[[tp td] k'] l].
Qed.

Lemma reportStats_conserves_witness :
  let '(totalPackets, totalDrops, k', _) :=
    reportStats None (Counters 99 99) [Minute 10 1 None; Minute 20 2 (Some 9); Minute 5 0 None] in
  all_packets [Minute 10 1 None; Minute 20 2 (Some 9); Minute 5 0 None] mod 2 ^ 64 =
    (totalPackets + tp_packets k') mod 2 ^ 64 ∧ totalPackets = 35 ∧ totalDrops = 3.
Proof.
  pose proof (reportStats_conserves (Counters 99 99)
    [Minute 10 1 None; Minute 20 2 (Some 9); Minute 5 0 None]) as H.
  destruct (reportStats None (Counters 99 99) _) as [[[tp td] k'] l] eqn:E.
  destruct H as (H & _ & _); [vm_compute; repeat split; congruence|].
  split; [exact H|]. vm_compute in E. injection E as <- <- _ _. split; reflexivity.
Defined.

Lemma localSocketName_inj_witness :
  put_uint32 7 ++ put_uint32 9 = put_uint32 7 ++ put_uint32 9.
Proof.
  apply (localSocketName_inj (put_uint32 7 ++ put_uint32 9) (put_uint32 7 ++ put_uint32 9) "/tmp"
    "/tmp/testimony_go_client_0000000700000009"); vm_compute; reflexivity.
Defined.

(** *** Addresses *)

(** The header of a block lies in its own part of the ring, for every ring that fits
    the address space. *)
Lemma cblock_inside (ring BlockSize index nr : Z) :
  0 < ring → 0 <= index < nr → ring + BlockSize * nr <= 2 ^ 64 →
  16 <= BlockSize →
  cblock ring BlockSize index = ring + BlockSize * index + 8 ∧
  ring + BlockSize * index <= cblock ring BlockSize index < ring + BlockSize * (index + 1).
Proof.
  intros Hr Hi Hs H16.
  assert (BlockSize * (index + 1) <= BlockSize * nr) by nia. assert (0 <= BlockSize * index) by nia.
  assert (index <= BlockSize * index) by nia.
  assert (cblock ring BlockSize index = ring + BlockSize * index + 8) as ->.
  { unfold cblock. rewrite (uint64_small BlockSize), (uint64_small index) by lia.
    rewrite (uint64_small (BlockSize * index)) by lia.
    rewrite (uint64_small (ring + BlockSize * index)) by lia. by rewrite uint64_small by lia. }
  lia.
Qed.
