(* ===== verification/Socket.v ===== *)
(** * One AF_PACKET socket and its clients: socket.go

    The goroutines that share a [socket] (getNewBlocks, run, and for each client
    connection conn.run and conn.handleReads) as one transition system.  Each
    goroutine has a program counter; a step executes the code up to its next
    access to something shared: an atomic operation on a block, the status word
    of a block, a channel operation, or I/O.  In particular the decrement of
    [unref] and its [clear] are two steps, and so are the two loads of [ready].

    A label names the goroutine that moves and everything the code does not
    determine: the branch a [select] takes, the order of a map iteration, what
    the peer sends, whether a write fails, when the kernel fills a block.  [step]
    is a function, so a schedule (a list of labels) can be executed.

    Logging has no effect on the state and is left out; a timestamp in
    [outstanding] matters only by [IsZero], so the slice holds booleans. *)

From stdpp Require Import base list numbers option gmap.
From Stdlib Require Import ZArith Lia.
From S2P Require Import Prelude Bytes Protocol Chan Block.

(** ** Program counters *)

(** getNewBlocks, at the block [s_gi]. *)
Inductive gpc := GLoadR | GLoadStatus | GWait | GRef | GSend.

#[export] Instance gpc_eq_dec : EqDecision gpc.
Proof. solve_decision. Defined.

(** Where run continues after an unref. *)
Inductive skont := KFan (todo : list nat) | KRun.

(** socket.run *)
Inductive spc :=
  | RSelect                                   (* the select *)
  | RClose (c : nat)                          (* close(c.newBlocks); delete *)
  | RFan (b : nat) (todo : list nat)          (* next client of the range loop *)
  | RSend (b c : nat) (todo : list nat)       (* the inner select: send or drop *)
  | RUnref (b : nat) (k : skont)
  | RClear (b : nat) (k : skont).

(** Where conn.run continues after an unref. *)
Inductive ckont := KSelect | KDrain | KFinal (i : nat).

(** conn.run *)
Inductive cpc :=
  | CSelect                                   (* the select of loop *)
  | CBatch (b : nat) (out : list byte)        (* head of blockLoop *)
  | CInner (out : list byte)                  (* the inner select *)
  | CWrite (out : list byte)
  | CUnref (b : nat) (k : ckont)
  | CClear (b : nat) (k : ckont)
  | CClose                                    (* after loop: c.c.Close() *)
  | CSendOld                                  (* c.s.oldConns <- c *)
  | CDrainNew                                 (* range c.newBlocks *)
  | CDrainOld                                 (* range c.oldBlocks *)
  | CFinal (i : nat)                          (* range outstanding, at i *)
  | CDone.

(** conn.handleReads *)
Inductive hpc :=
  | HRead
  | HVal (typ len : Z)                        (* io.ReadFull of a TLV value *)
  | HSend (i : Z)                             (* c.oldBlocks <- i *)
  | HClose                                    (* deferred close(c.oldBlocks) *)
  | HDone.

(** ** State *)

(** What happened on a connection; the daemon keeps no such record. *)
Record conn_log := ConnLog {
  l_sent : list nat;   (* blocks run put into newBlocks *)
  l_got : list nat;    (* blocks conn.run took out of newBlocks *)
  l_put : list nat;    (* blocks conn.run unref'd *)
  l_wire : list byte;  (* bytes written to the client *)
}.

Record conn := Conn {
  c_new : chan nat;     (* newBlocks *)
  c_old : chan Z;       (* oldBlocks *)
  c_out : list bool;    (* outstanding *)
  c_pc : cpc;
  c_rd : hpc;
  c_shut : bool;        (* c.c was closed *)
  c_log : conn_log;
}.

Record state := State {
  s_nb : nat;                 (* conf.NumBlocks *)
  s_blocks : list block;
  s_new : chan nat;           (* newBlocks *)
  s_cur : gset nat;           (* currentConns *)
  s_conns : gmap nat conn;    (* every connection made so far *)
  s_g : gpc;
  s_gi : nat;                 (* blockIndex *)
  s_run : spc;
}.

Definition set_new (ch : chan nat) (cn : conn) : conn :=
  Conn ch (c_old cn) (c_out cn) (c_pc cn) (c_rd cn) (c_shut cn) (c_log cn).
Definition set_old (ch : chan Z) (cn : conn) : conn :=
  Conn (c_new cn) ch (c_out cn) (c_pc cn) (c_rd cn) (c_shut cn) (c_log cn).
Definition set_out (out : list bool) (cn : conn) : conn :=
  Conn (c_new cn) (c_old cn) out (c_pc cn) (c_rd cn) (c_shut cn) (c_log cn).
Definition set_pc (pc : cpc) (cn : conn) : conn :=
  Conn (c_new cn) (c_old cn) (c_out cn) pc (c_rd cn) (c_shut cn) (c_log cn).
Definition set_rd (pc : hpc) (cn : conn) : conn :=
  Conn (c_new cn) (c_old cn) (c_out cn) (c_pc cn) pc (c_shut cn) (c_log cn).
Definition set_shut (cn : conn) : conn :=
  Conn (c_new cn) (c_old cn) (c_out cn) (c_pc cn) (c_rd cn) true (c_log cn).

Definition log_sent (b : nat) (cn : conn) : conn :=
  let l := c_log cn in
  Conn (c_new cn) (c_old cn) (c_out cn) (c_pc cn) (c_rd cn) (c_shut cn)
    (ConnLog (l_sent l ++ [b]) (l_got l) (l_put l) (l_wire l)).
Definition log_got (b : nat) (cn : conn) : conn :=
  let l := c_log cn in
  Conn (c_new cn) (c_old cn) (c_out cn) (c_pc cn) (c_rd cn) (c_shut cn)
    (ConnLog (l_sent l) (l_got l ++ [b]) (l_put l) (l_wire l)).
Definition log_put (b : nat) (cn : conn) : conn :=
  let l := c_log cn in
  Conn (c_new cn) (c_old cn) (c_out cn) (c_pc cn) (c_rd cn) (c_shut cn)
    (ConnLog (l_sent l) (l_got l) (l_put l ++ [b]) (l_wire l)).
Definition log_wire (bs : list byte) (cn : conn) : conn :=
  let l := c_log cn in
  Conn (c_new cn) (c_old cn) (c_out cn) (c_pc cn) (c_rd cn) (c_shut cn)
    (ConnLog (l_sent l) (l_got l) (l_put l) (l_wire l ++ bs)).

Definition set_blocks (bs : list block) (s : state) : state :=
  State (s_nb s) bs (s_new s) (s_cur s) (s_conns s) (s_g s) (s_gi s) (s_run s).
Definition set_snew (ch : chan nat) (s : state) : state :=
  State (s_nb s) (s_blocks s) ch (s_cur s) (s_conns s) (s_g s) (s_gi s) (s_run s).
Definition set_cur (cur : gset nat) (s : state) : state :=
  State (s_nb s) (s_blocks s) (s_new s) cur (s_conns s) (s_g s) (s_gi s) (s_run s).
Definition set_conn (c : nat) (cn : conn) (s : state) : state :=
  State (s_nb s) (s_blocks s) (s_new s) (s_cur s) (<[c := cn]> (s_conns s))
    (s_g s) (s_gi s) (s_run s).
Definition set_g (g : gpc) (s : state) : state :=
  State (s_nb s) (s_blocks s) (s_new s) (s_cur s) (s_conns s) g (s_gi s) (s_run s).
Definition set_gi (gi : nat) (s : state) : state :=
  State (s_nb s) (s_blocks s) (s_new s) (s_cur s) (s_conns s) (s_g s) gi (s_run s).
Definition set_run (pc : spc) (s : state) : state :=
  State (s_nb s) (s_blocks s) (s_new s) (s_cur s) (s_conns s) (s_g s) (s_gi s) pc.

(** The socket newSocket returns, its goroutines about to start. *)
Definition newSocket_state (NumBlocks : nat) : state :=
  State NumBlocks (replicate NumBlocks new_block) (make_chan NumBlocks) ∅ ∅
    GLoadR 0 RSelect.

(** ** Outcomes and labels *)

(** The ways this code can take the process down. *)
Inductive crash :=
  | PanicUnref (b : nat) (refs : Z)        (* unref to a negative count *)
  | FatalOutstanding (c b : nat)           (* received already outstanding block *)
  | PanicSendClosed                        (* send on a closed channel *)
  | PanicCloseClosed                       (* close of a closed channel *)
  | PanicNilBlock                          (* b.index with b == nil *)
  | PanicIndex                             (* index out of range *)
  | PanicWaitForBlocks (errno : Z).        (* select(2) failed *)

Inductive outcome :=
  | Blocked                                (* the label is not enabled *)
  | Next (s : state)
  | Crash (why : crash).

(** What c.c.Read or io.ReadFull returns. *)
Inductive read_event :=
  | RdData (bs : list byte)                (* bytes and a nil error *)
  | RdEOF
  | RdErr (bs : list byte).                (* bytes and a non-nil error *)

(** The branch conn.run takes where the code leaves it open. *)
Inductive conn_choice :=
  | PickNew | PickOld                      (* the ready case of the select *)
  | WriteOk | WriteErr (n : nat)           (* result of Write, n bytes written *)
  | Tau.

Inductive label :=
  | LKernel (b : nat) (status : Z)         (* the kernel fills block b *)
  | LG (errno : Z)                         (* getNewBlocks; result of WaitForBlocks *)
  | LRun                                   (* run, outside its select *)
  | LAccept (c : nat)                      (* run: case <-newConns *)
  | LOld (c : nat)                         (* run: case <-oldConns, from conn c *)
  | LNew (order : list nat)                (* run: case <-newBlocks; range order *)
  | LConn (c : nat) (ch : conn_choice)     (* conn.run of c *)
  | LRead (c : nat) (ev : read_event).     (* conn.handleReads of c *)

(** ** getNewBlocks *)
Definition upd_block (f : block → block) (i : nat) (s : state) : state :=
  set_blocks (alter f i (s_blocks s)) s.

Definition getNewBlocks_step (errno : Z) (s : state) : outcome :=
  match s_blocks s !! s_gi s with
  | None => Crash PanicIndex
  | Some b =>
      match s_g s with
      | GLoadR => Next (set_g (if b_r b =? 0 then GLoadStatus else GWait) s)
      | GLoadStatus => Next (set_g (if b_status b =? 0 then GWait else GRef) s)
      | GWait => if errno =? 0 then Next (set_g GLoadR s)
                 else Crash (PanicWaitForBlocks errno)
      | GRef => Next (set_g GSend (upd_block ref (s_gi s) s))
      | GSend =>
          match chan_send (s_new s) (s_gi s) with
          | SendFull => Blocked
          | SendPanic => Crash PanicSendClosed
          | Sent ch =>
              Next (set_g GLoadR (set_gi ((s_gi s + 1) mod s_nb s)%nat (set_snew ch s)))
          end
      end
  end.

(** ** socket.run *)

(** The decrement of [unref] on block [b]: the state and what comes next. *)
Definition dec_block (b : nat) (s : state) : option (state * unref_next) :=
  bl ← s_blocks s !! b;
  Some (upd_block (λ bl, (unref_dec bl).1) b s, unref_after (unref_dec bl).2).

Definition run_resume (b : nat) (k : skont) : spc :=
  match k with KFan todo => RFan b todo | KRun => RSelect end.

(** The connection made by addNewConn, its two goroutines about to start. *)
Definition addNewConn (nblocks : nat) : conn :=
  Conn (make_chan nblocks) (make_chan nblocks) (replicate nblocks false)
    CSelect HRead false (ConnLog [] [] [] []).

(** The three cases of the select. *)
Definition run_accept (c : nat) (s : state) : outcome :=
  match s_run s, s_conns s !! c with
  | RSelect, None =>
      Next (set_cur ({[c]} ∪ s_cur s) (set_conn c (addNewConn (length (s_blocks s))) s))
  | _, _ => Blocked
  end.

Definition run_old (c : nat) (s : state) : outcome :=
  match s_run s, s_conns s !! c with
  | RSelect, Some cn =>
      match c_pc cn with
      | CSendOld => Next (set_run (RClose c) (set_conn c (set_pc CDrainNew cn) s))
      | _ => Blocked
      end
  | _, _ => Blocked
  end.

Definition run_new (order : list nat) (s : state) : outcome :=
  match s_run s with
  | RSelect =>
      if bool_decide (NoDup order ∧ list_to_set order = s_cur s) then
        match chan_recv (s_new s) with
        | RecvEmpty => Blocked
        | RecvZero => Crash PanicNilBlock
        | Recv b ch => Next (set_run (RFan b order) (set_snew ch s))
        end
      else Blocked
  | _ => Blocked
  end.

(** The bodies of the cases. *)
Definition run_step (s : state) : outcome :=
  match s_run s with
  | RSelect => Blocked
  | RClose c =>
      match s_conns s !! c with
      | None => Blocked
      | Some cn =>
          match chan_close (c_new cn) with
          | None => Crash PanicCloseClosed
          | Some ch =>
              Next (set_run RSelect (set_cur (s_cur s ∖ {[c]}) (set_conn c (set_new ch cn) s)))
          end
      end
  | RFan b [] => Next (set_run (RUnref b KRun) s)
  | RFan b (c :: todo) => Next (set_run (RSend b c todo) (upd_block ref b s))
  | RSend b c todo =>
      match s_conns s !! c with
      | None => Blocked
      | Some cn =>
          match chan_send (c_new cn) b with
          | Sent ch => Next (set_run (RFan b todo) (set_conn c (log_sent b (set_new ch cn)) s))
          | SendFull => Next (set_run (RUnref b (KFan todo)) s)
          | SendPanic => Crash PanicSendClosed
          end
      end
  | RUnref b k =>
      match dec_block b s with
      | None => Crash PanicIndex
      | Some (s, UnrefClear) => Next (set_run (RClear b k) s)
      | Some (s, UnrefPanic refs) => Crash (PanicUnref b refs)
      | Some (s, UnrefDone) => Next (set_run (run_resume b k) s)
      end
  | RClear b k => Next (set_run (run_resume b k) (upd_block clear b s))
  end.

(** ** conn.run *)
Definition conn_resume (k : ckont) : cpc :=
  match k with KSelect => CSelect | KDrain => CDrainNew | KFinal i => CFinal i end.

(** Taking a block out of newBlocks. *)
Definition take_new (ch : chan nat) (b : nat) (pc : cpc) (cn : conn) : conn :=
  log_got b (set_pc pc (set_new ch cn)).

Definition conn_step (c : nat) (cn : conn) (choice : conn_choice) (s : state) : outcome :=
  let next cn := Next (set_conn c cn s) in
  match c_pc cn with
  | CSelect =>
      match choice with
      | PickNew =>
          match chan_recv (c_new cn) with
          | RecvEmpty => Blocked
          | RecvZero => Crash PanicNilBlock
          | Recv b ch => next (take_new ch b (CBatch b []) cn)
          end
      | PickOld =>
          match chan_recv (c_old cn) with
          | RecvEmpty => Blocked
          | RecvZero => next (set_pc CClose cn)
          | Recv v ch =>
              let cn := set_old ch cn in
              if v =? 0 then next (set_pc CClose cn)
              else let i := Z.to_nat (v - 1) in
                   match c_out cn !! i with
                   | None => Crash PanicIndex
                   | Some false => next (set_pc CClose cn)
                   | Some true =>
                       next (set_pc (CUnref i KSelect) (set_out (<[i := false]> (c_out cn)) cn))
                   end
          end
      | _ => Blocked
      end
  | CBatch b out =>
      match c_out cn !! b with
      | None => Crash PanicIndex
      | Some true => Crash (FatalOutstanding c b)
      | Some false =>
          next (set_pc (CInner (out ++ put_uint32 (uint32 (Z.of_nat b))))
                  (set_out (<[b := true]> (c_out cn)) cn))
      end
  | CInner out =>
      match chan_recv (c_new cn) with
      | Recv b ch => next (take_new ch b (CBatch b out) cn)
      | RecvZero => Crash PanicNilBlock
      | RecvEmpty => next (set_pc (CWrite out) cn)
      end
  | CWrite out =>
      match choice with
      | WriteOk => next (set_pc CSelect (log_wire out cn))
      | WriteErr n => next (set_pc CClose (log_wire (take n out) cn))
      | _ => Blocked
      end
  | CUnref b k =>
      match dec_block b s with
      | None => Crash PanicIndex
      | Some (s, UnrefClear) => Next (set_conn c (log_put b (set_pc (CClear b k) cn)) s)
      | Some (s, UnrefPanic refs) => Crash (PanicUnref b refs)
      | Some (s, UnrefDone) => Next (set_conn c (log_put b (set_pc (conn_resume k) cn)) s)
      end
  | CClear b k => Next (set_conn c (set_pc (conn_resume k) cn) (upd_block clear b s))
  | CClose => next (set_pc CSendOld (set_shut cn))
  | CSendOld => Blocked
  | CDrainNew =>
      match chan_recv (c_new cn) with
      | RecvEmpty => Blocked
      | RecvZero => next (set_pc CDrainOld cn)
      | Recv b ch => next (take_new ch b (CUnref b KDrain) cn)
      end
  | CDrainOld =>
      match chan_recv (c_old cn) with
      | RecvEmpty => Blocked
      | RecvZero => next (set_pc (CFinal 0) cn)
      | Recv _ ch => next (set_old ch cn)
      end
  | CFinal i =>
      match c_out cn !! i with
      | None => next (set_pc CDone cn)
      | Some false => next (set_pc (CFinal (S i)) cn)
      | Some true => next (set_pc (CUnref i (KFinal (S i))) cn)
      end
  | CDone => Blocked
  end.

(** ** conn.handleReads *)

(** [handleTLV] ignores every message. *)
Definition handleTLV (typ : Z) (val : list byte) : option io_error := None.

(** After the value of a TLV (possibly none) was read. *)
Definition after_tlv (typ : Z) (val : list byte) : hpc :=
  match handleTLV typ val with None => HRead | Some _ => HClose end.

(** What handleReads does with the result of [c.c.Read(buf[:])]. *)
Definition handle_word (nb : nat) (ev : read_event) : hpc :=
  match ev with
  | RdEOF | RdErr _ => HClose
  | RdData bs =>
      if negb (length bs =? 4)%nat then HClose
      else match uint32_of bs with
           | None => HClose
           | Some num =>
               if negb (Z.land num 0x80000000 =? 0) then
                 let '(typ, length) := TLFrom num in
                 if negb (length =? 0) then HVal typ length else after_tlv typ []
               else if (num <? 0) || (Z.of_nat nb <=? num) then HClose
               else HSend (num + 1)
           end
  end.

(** A [Read] of four bytes returns at most four, and after [Close] only errors. *)
Definition read_possible (cn : conn) (n : nat) (ev : read_event) : bool :=
  match ev with
  | RdData bs => (length bs <=? n)%nat && negb (c_shut cn)
  | RdEOF => negb (c_shut cn)
  | RdErr bs => (length bs <=? n)%nat
  end.

Definition read_step (c : nat) (cn : conn) (ev : read_event) (s : state) : outcome :=
  let next cn := Next (set_conn c cn s) in
  match c_rd cn with
  | HRead =>
      if read_possible cn 4 ev then next (set_rd (handle_word (s_nb s) ev) cn) else Blocked
  | HVal typ len =>
      if read_possible cn (Z.to_nat len) ev then
        match ev with
        | RdData bs =>
            if (length bs =? Z.to_nat len)%nat then next (set_rd (after_tlv typ bs) cn)
            else Blocked
        | _ => next (set_rd HClose cn)
        end
      else Blocked
  | HSend v =>
      match chan_send (c_old cn) v with
      | SendFull => Blocked
      | SendPanic => Crash PanicSendClosed
      | Sent ch => next (set_rd HRead (set_old ch cn))
      end
  | HClose =>
      match chan_close (c_old cn) with
      | None => Crash PanicCloseClosed
      | Some ch => next (set_rd HDone (set_old ch cn))
      end
  | HDone => Blocked
  end.

(** ** The whole system *)
Definition kernel_step (b : nat) (status : Z) (s : state) : outcome :=
  match s_blocks s !! b ≫= kernel_fill status with
  | Some bl => Next (set_blocks (<[b := bl]> (s_blocks s)) s)
  | None => Blocked
  end.

Definition step (l : label) (s : state) : outcome :=
  match l with
  | LKernel b status => kernel_step b status s
  | LG errno => getNewBlocks_step errno s
  | LRun => run_step s
  | LAccept c => run_accept c s
  | LOld c => run_old c s
  | LNew order => run_new order s
  | LConn c choice =>
      match s_conns s !! c with Some cn => conn_step c cn choice s | None => Blocked end
  | LRead c ev =>
      match s_conns s !! c with Some cn => read_step c cn ev s | None => Blocked end
  end.

(** Executing a schedule. *)
Fixpoint run_schedule (ls : list label) (s : state) : option state :=
  match ls with
  | [] => Some s
  | l :: ls => match step l s with Next s' => run_schedule ls s' | _ => None end
  end.

Lemma run_schedule_app (ls ks : list label) (s : state) :
  run_schedule (ls ++ ks) s = run_schedule ls s ≫= run_schedule ks.
Proof.
  revert s. induction ls as [|l ls IH]; intros s; simpl; [done|]. by destruct (step l s).
Qed.

(** ** Reachable states *)

(** Sums over the connections. *)
Definition conn_sum (f : conn → nat) (m : gmap nat conn) : nat :=
  map_fold (λ _ cn n, f cn + n)%nat 0%nat m.

(** Connections whose conn.run has not returned. *)
Definition is_open (cn : conn) : nat := match c_pc cn with CDone => 0 | _ => 1 end.
Definition open_conns (s : state) : nat := conn_sum is_open (s_conns s).

(** Fewer connections at one time than an int32 can count: each holds a block at most
    once, so no reference count overflows. *)
Definition conn_bound (s : state) : Prop := Z.of_nat (open_conns s) + 3 < 2 ^ 31.
#[export] Instance conn_bound_dec s : Decision (conn_bound s) := Z_lt_dec _ _.

(** The states the daemon can reach from a new socket with [n] blocks, never having
    that many connections open at once. *)
Inductive reachable (n : nat) : state → Prop :=
  | reach_init : reachable n (newSocket_state n)
  | reach_step s l s' : reachable n s → conn_bound s → step l s = Next s' → reachable n s'.

(** The bound along a schedule, checked by executing it. *)
Fixpoint bounded (ls : list label) (s : state) : bool :=
  bool_decide (conn_bound s) &&
  match ls with
  | [] => true
  | l :: ls => match step l s with Next s' => bounded ls s' | _ => true end
  end.

Lemma reachable_schedule (n : nat) (ls : list label) (s s' : state) :
  reachable n s → bounded ls s = true → run_schedule ls s = Some s' →
  reachable n s' ∧ conn_bound s'.
Proof.
  revert s. induction ls as [|l ls IH]; intros s Hs; simpl; intros [Hb Hls]%andb_prop;
    apply bool_decide_eq_true_1 in Hb; [by intros [= <-]|].
  destruct (step l s) eqn:E; try done. apply IH; [|done]. by eapply reach_step.
Qed.

Lemma bounded_app (ls ks : list label) (s s' : state) :
  bounded (ls ++ ks) s = true → run_schedule ls s = Some s' → conn_bound s'.
Proof.
  revert s. induction ls as [|l ls IH]; intros s; simpl.
  - destruct ks; simpl; intros [Hb%bool_decide_eq_true_1 _]%andb_prop; by intros [= <-].
  - intros [_ Hls]%andb_prop. destruct (step l s); try done. by apply IH.
Qed.
