(* ===== verification/SocketInv.v ===== *)
(** * The invariant of a socket's goroutines

    Who holds a reference to a block: getNewBlocks between its ref and its send,
    the newBlocks queue, run while it distributes the block, and each connection
    (its queue, its outstanding slice, the block in hand).  [holders] counts
    them; [Inv] says that every reference count is exactly that number and
    collects what the code relies on about its channels and goroutines.  [Inv]
    is preserved by every step of the system. *)

From stdpp Require Import base list numbers option gmap.
From Stdlib Require Import ZArith Lia.
From S2P Require Import Prelude Bytes Protocol Chan Block Socket.

Local Open Scope nat_scope.

(** ** Counting *)
Definition is_at (b i : nat) : nat := if decide (b = i) then 1 else 0.

Fixpoint occ (i : nat) (l : list nat) : nat :=
  match l with [] => 0 | b :: l => is_at b i + occ i l end.

Lemma occ_app (i : nat) (l k : list nat) : occ i (l ++ k) = occ i l + occ i k.
Proof. induction l as [|b l IH]; simpl; lia. Qed.

Lemma occ_elem (i : nat) (l : list nat) : 0 < occ i l ↔ i ∈ l.
Proof.
  induction l as [|b l IH]; simpl; [split; [lia|by intros ?%elem_of_nil]|].
  unfold is_at. rewrite elem_of_cons. case_decide; subst; [split; [auto|lia]|].
  simpl. rewrite IH. naive_solver.
Qed.

(** A queue without repetitions of numbers below [n] is no longer than [n]. *)
Lemma occ_length (n : nat) (l : list nat) :
  (∀ i, occ i l ≤ 1) → (∀ i, n ≤ i → occ i l = 0) → length l ≤ n.
Proof.
  intros H1 Hr. rewrite <- (length_seq n 0). apply submseteq_length, NoDup_submseteq.
  - clear Hr. induction l as [|b l IH]; constructor.
    + intros Hb%occ_elem. specialize (H1 b). simpl in H1. unfold is_at in H1.
      rewrite decide_True in H1 by done. lia.
    + apply IH. intros i. specialize (H1 i). simpl in H1. lia.
  - intros i Hi%occ_elem. apply elem_of_seq. split; [lia|].
    destruct (decide (n ≤ i)) as [Hle|]; [|lia]. specialize (Hr i Hle). lia.
Qed.

(** ** Holders of references *)

(** The block conn.run has in hand. *)
Definition pc_held (pc : cpc) (i : nat) : nat :=
  match pc with CBatch b _ | CUnref b _ => is_at b i | _ => 0 end.

(** Whether an entry of outstanding still stands for a reference: the final loop
    of conn.run gives the references up without resetting the entries. *)
Definition out_live (pc : cpc) (i : nat) : bool :=
  match pc with
  | CFinal k | CUnref _ (KFinal k) | CClear _ (KFinal k) => (k <=? i)
  | CDone => false
  | _ => true
  end.

Definition out_held (cn : conn) (i : nat) : nat :=
  match c_out cn !! i with
  | Some true => if out_live (c_pc cn) i then 1 else 0
  | _ => 0
  end.

(** Taken out of newBlocks and not unref'd yet. *)
Definition taken (cn : conn) (i : nat) : nat := out_held cn i + pc_held (c_pc cn) i.

Definition conn_held (cn : conn) (i : nat) : nat := occ i (ch_buf (c_new cn)) + taken cn i.

Definition conns_held (m : gmap nat conn) (i : nat) : nat := conn_sum (λ cn, conn_held cn i) m.

(** The reference getNewBlocks took, until run gives it up. *)
Definition g_own (s : state) (i : nat) : nat :=
  match s_g s with GSend => is_at (s_gi s) i | _ => 0 end.

Definition queued (s : state) (i : nat) : nat := g_own s i + occ i (ch_buf (s_new s)).

Definition run_own (pc : spc) (i : nat) : nat :=
  match pc with
  | RFan b _ | RSend b _ _ | RUnref b _ | RClear b (KFan _) => is_at b i
  | _ => 0
  end.

(** The reference run made for a client and has not handed over. *)
Definition run_transit (pc : spc) (i : nat) : nat :=
  match pc with RSend b _ _ | RUnref b (KFan _) => is_at b i | _ => 0 end.

Definition holders (s : state) (i : nat) : nat :=
  queued s i + run_own (s_run s) i + run_transit (s_run s) i + conns_held (s_conns s) i.

(** ** Sums over the connections *)
Section conn_sum.
Context (f : conn → nat).
Implicit Types (m : gmap nat conn) (c : nat) (cn : conn).

Lemma conn_sum_fresh m c cn :
  m !! c = None → conn_sum f (<[c := cn]> m) = f cn + conn_sum f m.
Proof.
  intros Hm. unfold conn_sum. rewrite map_fold_insert_L; [done| |done].
  intros. lia.
Qed.

Lemma conn_sum_update m c cn cn' :
  m !! c = Some cn → conn_sum f (<[c := cn']> m) + f cn = conn_sum f m + f cn'.
Proof.
  intros Hm. rewrite <- (insert_id m c cn Hm) at 2. rewrite <- !(insert_delete_eq m).
  rewrite !conn_sum_fresh by apply lookup_delete_eq. lia.
Qed.

Lemma conn_sum_lookup m c cn : m !! c = Some cn → f cn ≤ conn_sum f m.
Proof.
  intros Hm. rewrite <- (insert_id m c cn Hm), <- (insert_delete_eq m).
  rewrite conn_sum_fresh by apply lookup_delete_eq. lia.
Qed.
End conn_sum.

Lemma conn_sum_le (f g : conn → nat) (m : gmap nat conn) :
  (∀ c cn, m !! c = Some cn → f cn ≤ g cn) → conn_sum f m ≤ conn_sum g m.
Proof.
  induction m as [|c cn m Hm IH] using map_ind; intros H; [done|].
  rewrite !conn_sum_fresh by done.
  specialize (H c cn) as Hc. rewrite lookup_insert_eq in Hc. specialize (Hc eq_refl).
  assert (conn_sum f m ≤ conn_sum g m); [|lia].
  apply IH. intros c' cn' Hc'. apply (H c'). rewrite lookup_insert_ne; [done|].
  intros ->. congruence.
Qed.

Lemma conns_held_fresh (m : gmap nat conn) (c : nat) (cn : conn) (i : nat) :
  m !! c = None → conns_held (<[c := cn]> m) i = conn_held cn i + conns_held m i.
Proof. apply (conn_sum_fresh (λ cn, conn_held cn i)). Qed.

Lemma conns_held_update (m : gmap nat conn) (c : nat) (cn cn' : conn) (i : nat) :
  m !! c = Some cn →
  conns_held (<[c := cn']> m) i + conn_held cn i = conns_held m i + conn_held cn' i.
Proof. apply (conn_sum_update (λ cn, conn_held cn i)). Qed.

Lemma conns_held_lookup (m : gmap nat conn) (c : nat) (cn : conn) (i : nat) :
  m !! c = Some cn → conn_held cn i ≤ conns_held m i.
Proof. apply (conn_sum_lookup (λ cn, conn_held cn i)). Qed.

Lemma conns_held_0 (m : gmap nat conn) (i : nat) :
  (∀ c cn, m !! c = Some cn → conn_held cn i = 0) → conns_held m i = 0.
Proof.
  induction m as [|c cn m Hm IH] using map_ind; intros H; [done|].
  rewrite conns_held_fresh, IH by done || (intros c' cn' Hc'; apply (H c');
    rewrite lookup_insert_ne; [done|congruence]).
  rewrite (H c cn) by apply lookup_insert_eq. done.
Qed.

(** ** The invariant of one connection *)

(** A connection is in currentConns and served; or run took its goodbye and is
    about to close its newBlocks; or it was removed. *)
Inductive stage := Open | Closing | Closed.

Definition closing (s : state) (c : nat) : bool :=
  match s_run s with RClose c' => bool_decide (c = c') | _ => false end.

Definition stage_of (s : state) (c : nat) : stage :=
  if decide (c ∈ s_cur s) then if closing s c then Closing else Open else Closed.

(** Phases of conn.run: in its loop or saying goodbye, draining newBlocks,
    finishing. *)
Inductive phase := Serving | Draining | Finishing.

Definition phase_of (pc : cpc) : phase :=
  match pc with
  | CSelect | CBatch _ _ | CInner _ | CWrite _ | CClose | CSendOld
  | CUnref _ KSelect | CClear _ KSelect => Serving
  | CDrainNew | CUnref _ KDrain | CClear _ KDrain => Draining
  | CDrainOld | CFinal _ | CUnref _ (KFinal _) | CClear _ (KFinal _) | CDone => Finishing
  end.

Definition stage_ok (st : stage) (cn : conn) : Prop :=
  match st with
  | Open => ch_closed (c_new cn) = false ∧ phase_of (c_pc cn) = Serving
  | Closing => ch_closed (c_new cn) = false ∧ phase_of (c_pc cn) = Draining
  | Closed => ch_closed (c_new cn) = true ∧
      (phase_of (c_pc cn) = Draining ∨
       phase_of (c_pc cn) = Finishing ∧ ch_buf (c_new cn) = [])
  end.

(** The reader closes oldBlocks when it ends, and only block numbers (plus one)
    go through it. *)
Definition index_ok (nb : nat) (v : Z) : Prop := (1 <= v <= Z.of_nat nb)%Z.

Definition reader_ok (nb : nat) (cn : conn) : Prop :=
  Forall (index_ok nb) (ch_buf (c_old cn)) ∧
  match c_rd cn with
  | HDone => ch_closed (c_old cn) = true
  | HSend v => ch_closed (c_old cn) = false ∧ index_ok nb v
  | _ => ch_closed (c_old cn) = false
  end.

(** The words conn.run writes for a sequence of blocks. *)
Definition wire_word (b : nat) : list byte := put_uint32 (uint32 (Z.of_nat b)).
Definition wire_of (bs : list nat) : list byte := bs ≫= wire_word.

(** What was written so far, and what is in the buffer [out]. *)
Definition wire_ok (cn : conn) : Prop :=
  let wire := l_wire (c_log cn) in
  let got := wire_of (l_got (c_log cn)) in
  match c_pc cn with
  | CSelect | CUnref _ KSelect | CClear _ KSelect => wire = got
  | CBatch b out => wire ++ out ++ wire_word b = got
  | CInner out | CWrite out => wire ++ out = got
  | _ => wire `prefix_of` got
  end.

Record conn_wf (nb : nat) (st : stage) (cn : conn) : Prop := {
  cw_newcap : ch_cap (c_new cn) = nb;
  cw_oldcap : ch_cap (c_old cn) = nb;
  cw_out : length (c_out cn) = nb;
  cw_stage : stage_ok st cn;
  cw_reader : reader_ok nb cn;
  cw_fifo : l_sent (c_log cn) = l_got (c_log cn) ++ ch_buf (c_new cn);
  cw_sent : Forall (λ b, b < nb) (l_sent (c_log cn));
  cw_ledger i : occ i (l_got (c_log cn)) = occ i (l_put (c_log cn)) + taken cn i;
  cw_wire : wire_ok cn;
  cw_one i : conn_held cn i ≤ 1;
  cw_range i : nb ≤ i → conn_held cn i = 0;
}.

(** ** The invariant of the system *)
Definition run_ok (s : state) : Prop :=
  let fresh b c := ∀ cn, s_conns s !! c = Some cn → conn_held cn b = 0 in
  match s_run s with
  | RFan b todo => NoDup todo ∧ ∀ c, c ∈ todo → c ∈ s_cur s ∧ fresh b c
  | RSend b c todo => NoDup (c :: todo) ∧ ∀ c', c' ∈ c :: todo → c' ∈ s_cur s ∧ fresh b c'
  | RUnref _ (KFan _) | RClear _ (KFan _) => False
  | RClose c => c ∈ s_cur s
  | _ => True
  end.

Record Inv (s : state) : Prop := {
  i_nb : 0 < s_nb s;
  i_len : length (s_blocks s) = s_nb s;
  i_newcap : ch_cap (s_new s) = s_nb s;
  i_newopen : ch_closed (s_new s) = false;
  i_gi : s_gi s < s_nb s;
  i_conn c cn : s_conns s !! c = Some cn → conn_wf (s_nb s) (stage_of s c) cn;
  i_dom c : c ∈ s_cur s → is_Some (s_conns s !! c);
  i_range i : s_nb s ≤ i → queued s i + run_own (s_run s) i = 0;
  i_one i : queued s i + run_own (s_run s) i ≤ 1;
  i_queued i c cn : 0 < queued s i → s_conns s !! c = Some cn → conn_held cn i = 0;
  i_ready : s_g s = GLoadStatus ∨ s_g s = GRef → holders s (s_gi s) = 0;
  i_run : run_ok s;
  i_ref i bl : s_blocks s !! i = Some bl → b_r bl = Z.of_nat (holders s i);
}.

Lemma done_taken (cn : conn) (i : nat) : c_pc cn = CDone → taken cn i = 0.
Proof.
  intros Hpc. unfold taken, out_held. rewrite Hpc. simpl.
  by destruct (c_out cn !! i) as [[]|].
Qed.

(** A connection that has ended has nothing. *)
Lemma done_held (nb : nat) (st : stage) (cn : conn) :
  conn_wf nb st cn → c_pc cn = CDone → ch_buf (c_new cn) = [] ∧ ∀ i, conn_held cn i = 0.
Proof.
  intros HW Hpc. assert (ch_buf (c_new cn) = []) as Hbuf.
  { pose proof (cw_stage _ _ _ HW) as Hst. unfold stage_ok in Hst. rewrite Hpc in Hst.
    destruct st; naive_solver. }
  split; [done|]. intros i. unfold conn_held. rewrite Hbuf, done_taken by done. done.
Qed.

Section inv_facts.
Context (s : state) (HI : Inv s).

Lemma conns_held_open (i : nat) : conns_held (s_conns s) i ≤ open_conns s.
Proof.
  apply conn_sum_le. intros c cn Hc. pose proof (i_conn _ HI _ _ Hc) as HW.
  pose proof (cw_one _ _ _ HW i) as H1. unfold is_open. destruct (c_pc cn) eqn:Hpc; try done.
  destruct (done_held _ _ _ HW Hpc) as [_ H0]. by rewrite H0.
Qed.

Lemma transit_own (i : nat) : run_transit (s_run s) i ≤ run_own (s_run s) i.
Proof. destruct (s_run s) as [| | | |? []|? []]; simpl; lia. Qed.

Lemma holders_bound (i : nat) : holders s i ≤ open_conns s + 2.
Proof.
  pose proof (conns_held_open i). pose proof (transit_own i).
  pose proof (i_one _ HI i). unfold holders. lia.
Qed.

(** Indexes that someone holds are blocks of the ring. *)
Lemma holders_block (i : nat) : 0 < holders s i → ∃ bl, s_blocks s !! i = Some bl.
Proof.
  intros Hh. destruct (decide (i < s_nb s)) as [Hi|Hi].
  - apply lookup_lt_is_Some. by rewrite (i_len _ HI).
  - exfalso. pose proof (i_range _ HI i ltac:(lia)). pose proof (transit_own i).
    assert (conns_held (s_conns s) i = 0); [|unfold holders in Hh; lia].
    apply conns_held_0. intros c cn Hc.
    apply (cw_range _ _ _ (i_conn _ HI _ _ Hc)). lia.
Qed.

(** Queues are never longer than the ring. *)
Lemma new_length : length (ch_buf (s_new s)) ≤ s_nb s.
Proof.
  apply occ_length.
  - intros i. pose proof (i_one _ HI i). unfold queued in *. lia.
  - intros i Hi. pose proof (i_range _ HI i Hi). unfold queued in *. lia.
Qed.

(** A queue that misses one block of the ring has room for it. *)
Lemma occ_room (b : nat) (l : list nat) :
  b < s_nb s → (∀ i, occ i l ≤ 1) → (∀ i, s_nb s ≤ i → occ i l = 0) → occ b l = 0 →
  length l < s_nb s.
Proof.
  intros Hb H1 Hr H0.
  assert (length (b :: l) ≤ s_nb s); [|simpl in *; lia].
  apply occ_length; intros i; simpl; unfold is_at; case_decide; subst.
  - lia.
  - specialize (H1 i). lia.
  - lia.
  - intros. rewrite Hr by done. lia.
Qed.
End inv_facts.

(** ** Steps of one connection *)

(** A connection whose goroutines moved without taking a new reference. *)
Lemma conn_wf_moved (nb : nat) (st0 st : stage) (cn cn' : conn) :
  conn_wf nb st0 cn →
  ch_cap (c_new cn') = ch_cap (c_new cn) → ch_cap (c_old cn') = ch_cap (c_old cn) →
  length (c_out cn') = length (c_out cn) → stage_ok st cn' → reader_ok nb cn' →
  l_sent (c_log cn') = l_got (c_log cn') ++ ch_buf (c_new cn') →
  l_sent (c_log cn') = l_sent (c_log cn) →
  (∀ i, occ i (l_got (c_log cn')) = occ i (l_put (c_log cn')) + taken cn' i) →
  wire_ok cn' → (∀ i, conn_held cn' i ≤ conn_held cn i) →
  conn_wf nb st cn'.
Proof.
  intros [] ?????? Hs ?? Hle. constructor; try congruence; try done.
  - intros i. specialize (Hle i). specialize (cw_one0 i). lia.
  - intros i Hi. specialize (Hle i). specialize (cw_range0 i Hi). lia.
Qed.

(** Moves that leave the queues, the outstanding slice and the references alone
    only have to respect the phase and the bytes written. *)
Lemma conn_wf_pc (nb : nat) (st : stage) (cn : conn) (pc : cpc) :
  conn_wf nb st cn → stage_ok st (set_pc pc cn) → wire_ok (set_pc pc cn) →
  (∀ i, taken (set_pc pc cn) i = taken cn i) →
  conn_wf nb st (set_pc pc cn) ∧ ∀ i, conn_held (set_pc pc cn) i = conn_held cn i.
Proof.
  intros HW Hst Hw Ht.
  assert (∀ i, conn_held (set_pc pc cn) i = conn_held cn i) as Hh.
  { intros i. unfold conn_held. simpl. by rewrite Ht. }
  split; [|done]. eapply conn_wf_moved; try done; try apply HW.
  - intros i. rewrite Ht. apply HW.
  - intros i. by rewrite Hh.
Qed.

(** Receiving a block from newBlocks. *)
Lemma conn_wf_take (nb : nat) (st : stage) (cn : conn) (ch : chan nat) (b : nat) (pc : cpc) :
  conn_wf nb st cn → chan_recv (c_new cn) = Recv b ch →
  (∀ i, out_live pc i = out_live (c_pc cn) i) →
  (∀ i, pc_held (c_pc cn) i = 0) → (∀ i, pc_held pc i = is_at b i) →
  phase_of pc = phase_of (c_pc cn) → phase_of pc ≠ Finishing →
  wire_ok (take_new ch b pc cn) →
  conn_wf nb st (take_new ch b pc cn) ∧
  ∀ i, conn_held (take_new ch b pc cn) i = conn_held cn i.
Proof.
  intros HW Hrecv Hlive Hp Hp' Hph Hnf Hw.
  apply chan_recv_inv in Hrecv as (Hbuf & Hcap & Hcl).
  assert (∀ i, taken (take_new ch b pc cn) i = is_at b i + taken cn i) as Ht.
  { intros i. unfold taken, out_held. simpl. rewrite Hlive, Hp, Hp'. lia. }
  assert (∀ i, conn_held (take_new ch b pc cn) i = conn_held cn i) as Hh.
  { intros i. unfold conn_held. rewrite Ht, Hbuf. simpl. lia. }
  split; [|done]. eapply conn_wf_moved; try done; try apply HW.
  - pose proof (cw_stage _ _ _ HW) as Hst. unfold stage_ok in *. simpl.
    rewrite Hph, Hcl in *. destruct st; naive_solver congruence.
  - simpl. rewrite (cw_fifo _ _ _ HW), Hbuf. by rewrite <- app_assoc.
  - intros i. rewrite Ht. simpl. rewrite occ_app. simpl.
    rewrite (cw_ledger _ _ _ HW i). lia.
  - intros i. by rewrite Hh.
Qed.

(** Giving a reference up. *)
Lemma conn_wf_put (nb : nat) (st : stage) (cn : conn) (b : nat) (k : ckont) (pc : cpc) :
  conn_wf nb st cn → c_pc cn = CUnref b k → pc = CClear b k ∨ pc = conn_resume k →
  conn_wf nb st (log_put b (set_pc pc cn)) ∧
  ∀ i, conn_held (log_put b (set_pc pc cn)) i + is_at b i = conn_held cn i.
Proof.
  intros HW Hpc Hpc'.
  assert (∀ i, taken (log_put b (set_pc pc cn)) i + is_at b i = taken cn i) as Ht.
  { intros i. unfold taken, out_held. simpl. rewrite Hpc.
    destruct Hpc' as [->| ->], k; simpl; lia. }
  assert (∀ i, conn_held (log_put b (set_pc pc cn)) i + is_at b i = conn_held cn i) as Hh.
  { intros i. unfold conn_held. simpl. rewrite <- Ht. lia. }
  split; [|done]. eapply conn_wf_moved; try done; try apply HW.
  - pose proof (cw_stage _ _ _ HW) as Hst. unfold stage_ok in *. simpl.
    rewrite Hpc in Hst. destruct Hpc' as [->| ->], k; done.
  - intros i. simpl. rewrite occ_app. simpl.
    rewrite (cw_ledger _ _ _ HW i), <- (Ht i). lia.
  - pose proof (cw_wire _ _ _ HW) as Hw. unfold wire_ok in *. simpl.
    rewrite Hpc in Hw. destruct Hpc' as [->| ->], k; done.
  - intros i. rewrite <- Hh. lia.
Qed.

(** Marking a block outstanding, and taking the mark back. *)
Lemma taken_mark (cn : conn) (b : nat) (old new : bool) (pc : cpc) :
  c_out cn !! b = Some old →
  (∀ i, out_live pc i = true) → (∀ i, out_live (c_pc cn) i = true) →
  (∀ i, pc_held pc i + (if new then is_at b i else 0) =
        pc_held (c_pc cn) i + (if old then is_at b i else 0)) →
  ∀ i, taken (set_pc pc (set_out (<[b := new]> (c_out cn)) cn)) i = taken cn i.
Proof.
  intros Hb Hl Hl' Hp i. unfold taken, out_held. simpl. specialize (Hp i).
  rewrite list_lookup_insert, Hl, Hl'. unfold is_at in *.
  apply lookup_lt_Some in Hb as Hlt.
  destruct (decide (b = i)) as [->|Hne].
  - rewrite decide_True, Hb by done. destruct old, new; lia.
  - rewrite decide_False by naive_solver. destruct old, new; lia.
Qed.

Lemma conn_wf_mark (nb : nat) (st : stage) (cn : conn) (b : nat) (old new : bool) (pc : cpc) :
  let cn' := set_pc pc (set_out (<[b := new]> (c_out cn)) cn) in
  conn_wf nb st cn → c_out cn !! b = Some old →
  (∀ i, out_live pc i = true) → (∀ i, out_live (c_pc cn) i = true) →
  (∀ i, pc_held pc i + (if new then is_at b i else 0) =
        pc_held (c_pc cn) i + (if old then is_at b i else 0)) →
  phase_of pc = phase_of (c_pc cn) → wire_ok cn' →
  conn_wf nb st cn' ∧ ∀ i, conn_held cn' i = conn_held cn i.
Proof.
  intros cn' HW Hb Hl Hl' Hp Hph Hw.
  pose proof (taken_mark cn b old new pc Hb Hl Hl' Hp) as Ht. fold cn' in Ht.
  assert (∀ i, conn_held cn' i = conn_held cn i) as Hh.
  { intros i. unfold conn_held. by rewrite Ht. }
  split; [|done]. eapply conn_wf_moved; try done; try apply HW.
  - simpl. by rewrite length_insert.
  - pose proof (cw_stage _ _ _ HW) as Hst. unfold stage_ok in *. simpl. by rewrite Hph.
  - intros i. rewrite Ht. apply HW.
  - intros i. by rewrite Hh.
Qed.

(** Steps that touch oldBlocks or the reader. *)
Lemma conn_wf_old (nb : nat) (st : stage) (cn : conn) (ch : chan Z) (rd : hpc) :
  conn_wf nb st cn → ch_cap ch = ch_cap (c_old cn) →
  reader_ok nb (set_rd rd (set_old ch cn)) →
  conn_wf nb st (set_rd rd (set_old ch cn)) ∧
  ∀ i, conn_held (set_rd rd (set_old ch cn)) i = conn_held cn i.
Proof.
  intros HW Hcap Hrd. split; [|done].
  eapply conn_wf_moved; try done; apply HW.
Qed.

(** Writing to the client, and closing the connection. *)
Lemma conn_wf_io (nb : nat) (st : stage) (cn : conn) (bs : list byte) (pc : cpc) :
  let cn' := set_pc pc (log_wire bs cn) in
  conn_wf nb st cn → stage_ok st cn' → wire_ok cn' → (∀ i, taken cn' i = taken cn i) →
  conn_wf nb st cn' ∧ ∀ i, conn_held cn' i = conn_held cn i.
Proof.
  intros cn' HW Hst Hw Ht.
  assert (∀ i, conn_held cn' i = conn_held cn i) as Hh.
  { intros i. unfold conn_held. by rewrite Ht. }
  split; [|done]. eapply conn_wf_moved; try done; try apply HW;
    intros i; rewrite ?Hh, ?Ht; done || apply HW.
Qed.

Lemma conn_wf_shut (nb : nat) (st : stage) (cn : conn) :
  conn_wf nb st cn → conn_wf nb st (set_shut cn).
Proof. intros HW. eapply conn_wf_moved; try done; apply HW. Qed.

(** The block whose status conn.run, or run, is about to reset. *)
Definition clearing (pc : cpc) : option nat :=
  match pc with CClear b _ => Some b | _ => None end.

Definition run_clearing (pc : spc) : option nat :=
  match pc with RClear b _ => Some b | _ => None end.

(** What a step of a connection's goroutine does to the shared state: nothing;
    the decrement of an unref; the clear that follows a decrement to zero. *)
Inductive conn_effect (nb : nat) (st : stage) (s : state) (c : nat) (cn : conn) :
    state → Prop :=
  | eff_move cn' :
      conn_wf nb st cn' → (∀ i, conn_held cn' i = conn_held cn i) →
      clearing (c_pc cn) = None → clearing (c_pc cn') = None →
      conn_effect nb st s c cn (set_conn c cn' s)
  | eff_put b bl cn' :
      conn_wf nb st cn' → (∀ i, conn_held cn' i + is_at b i = conn_held cn i) →
      s_blocks s !! b = Some bl → clearing (c_pc cn) = None →
      clearing (c_pc cn') = (if ((unref_dec bl).2 =? 0)%Z then Some b else None) →
      conn_effect nb st s c cn (set_conn c cn' (upd_block (λ bl, (unref_dec bl).1) b s))
  | eff_clear b cn' :
      conn_wf nb st cn' → (∀ i, conn_held cn' i = conn_held cn i) →
      clearing (c_pc cn) = Some b → clearing (c_pc cn') = None →
      conn_effect nb st s c cn (set_conn c cn' (upd_block clear b s)).

Lemma dec_block_inv (b : nat) (s s' : state) (n : unref_next) :
  dec_block b s = Some (s', n) →
  ∃ bl, s_blocks s !! b = Some bl ∧ s' = upd_block (λ bl, (unref_dec bl).1) b s ∧
        n = unref_after (unref_dec bl).2.
Proof.
  unfold dec_block. destruct (s_blocks s !! b) as [bl|]; [|done].
  intros [= <- <-]. eauto.
Qed.

Lemma unref_after_clear (refs : Z) : unref_after refs = UnrefClear → (refs =? 0)%Z = true.
Proof. unfold unref_after. repeat case_match; done. Qed.

Lemma unref_after_done (refs : Z) :
  unref_after refs = UnrefDone → (0 < refs)%Z.
Proof. unfold unref_after. repeat case_match; try done. intros _. lia. Qed.

(** The stage of a connection pins the phase of conn.run, so each program counter
    knows whether newBlocks can be closed. *)
Lemma serving_open (nb : nat) (st : stage) (cn : conn) :
  conn_wf nb st cn → phase_of (c_pc cn) = Serving → st = Open ∧ ch_closed (c_new cn) = false.
Proof.
  intros HW Hp. pose proof (cw_stage _ _ _ HW) as Hst. unfold stage_ok in Hst.
  destruct st; naive_solver congruence.
Qed.

Lemma wire_of_app (l k : list nat) : wire_of (l ++ k) = wire_of l ++ wire_of k.
Proof. unfold wire_of. by rewrite bind_app. Qed.

Lemma wire_of_snoc (l : list nat) (b : nat) : wire_of (l ++ [b]) = wire_of l ++ wire_word b.
Proof. rewrite wire_of_app. by f_equal. Qed.

Section conn_step_effect.
Context (nb : nat) (st : stage) (s : state) (c : nat) (cn : conn) (HW : conn_wf nb st cn).

(** Effects out of the lemmas above. *)
Lemma move_effect (cn' : conn) :
  conn_wf nb st cn' ∧ (∀ i, conn_held cn' i = conn_held cn i) →
  clearing (c_pc cn) = None → clearing (c_pc cn') = None →
  conn_effect nb st s c cn (set_conn c cn' s).
Proof. intros [??] ??. by apply eff_move. Qed.

(** conn.run took the goodbye path out of its loop. *)
Lemma goodbye_effect :
  c_pc cn = CSelect → conn_effect nb st s c cn (set_conn c (set_pc CClose cn) s).
Proof.
  intros Hpc. apply move_effect; [|by rewrite Hpc|done]. apply conn_wf_pc; [done|..].
  - pose proof (cw_stage _ _ _ HW) as Hst. unfold stage_ok in *. by rewrite Hpc in Hst.
  - pose proof (cw_wire _ _ _ HW) as Hw. unfold wire_ok in *. rewrite Hpc in Hw.
    simpl. by rewrite Hw.
  - intros i. unfold taken, out_held. simpl. by rewrite Hpc.
Qed.

Lemma take_effect (ch : chan nat) (b : nat) (out : list byte) :
  chan_recv (c_new cn) = Recv b ch →
  c_pc cn = CSelect ∧ out = [] ∨ c_pc cn = CInner out →
  conn_effect nb st s c cn (set_conn c (take_new ch b (CBatch b out) cn) s).
Proof.
  intros Hr Hpc. pose proof (cw_wire _ _ _ HW) as Hw. unfold wire_ok in Hw.
  apply move_effect; [|by destruct Hpc as [[-> _]| ->]|done].
  apply conn_wf_take; try done; try (by destruct Hpc as [[-> _]| ->]).
  unfold wire_ok. simpl. rewrite wire_of_snoc.
  destruct Hpc as [[Hpc ->]|Hpc]; rewrite Hpc in Hw; rewrite <- Hw; [done|].
  by rewrite app_assoc.
Qed.

Lemma batch_effect (b : nat) (out : list byte) :
  c_pc cn = CBatch b out → c_out cn !! b = Some false →
  conn_effect nb st s c cn
    (set_conn c (set_pc (CInner (out ++ wire_word b))
                   (set_out (<[b := true]> (c_out cn)) cn)) s).
Proof.
  intros Hpc Hb. pose proof (cw_wire _ _ _ HW) as Hw. unfold wire_ok in Hw.
  rewrite Hpc in Hw. apply move_effect; [|by rewrite Hpc|done].
  eapply conn_wf_mark; rewrite ?Hpc; done.
Qed.

Lemma return_effect (i : nat) :
  c_pc cn = CSelect → c_out cn !! i = Some true →
  conn_effect nb st s c cn
    (set_conn c (set_pc (CUnref i KSelect) (set_out (<[i := false]> (c_out cn)) cn)) s).
Proof.
  intros Hpc Hb. pose proof (cw_wire _ _ _ HW) as Hw. unfold wire_ok in Hw.
  rewrite Hpc in Hw. apply move_effect; [|by rewrite Hpc|done].
  eapply conn_wf_mark; rewrite ?Hpc; done.
Qed.

(** Program counters that differ in nothing but the code to come. *)
Lemma goto_effect (pc : cpc) :
  clearing (c_pc cn) = None → clearing pc = None →
  stage_ok st (set_pc pc cn) → wire_ok (set_pc pc cn) →
  (∀ i, taken (set_pc pc cn) i = taken cn i) →
  conn_effect nb st s c cn (set_conn c (set_pc pc cn) s).
Proof. intros. apply move_effect; [by apply conn_wf_pc|done..]. Qed.

Lemma put_effect (b : nat) (bl : block) (k : ckont) (pc : cpc) :
  c_pc cn = CUnref b k → s_blocks s !! b = Some bl →
  pc = (if ((unref_dec bl).2 =? 0)%Z then CClear b k else conn_resume k) →
  conn_effect nb st s c cn
    (set_conn c (log_put b (set_pc pc cn)) (upd_block (λ bl, (unref_dec bl).1) b s)).
Proof.
  intros Hpc Hb ->. destruct (conn_wf_put nb st cn b k
    (if ((unref_dec bl).2 =? 0)%Z then CClear b k else conn_resume k)) as [Hwf Hh];
    [done..|by destruct ((unref_dec bl).2 =? 0)%Z; [left|right]|].
  eapply eff_put; try done; [by rewrite Hpc|].
  destruct ((unref_dec bl).2 =? 0)%Z; [done|by destruct k].
Qed.

(** Effects do not depend on the reader's side of the connection. *)
Lemma effect_after (cn0 : conn) (s' : state) :
  (∀ i, conn_held cn i = conn_held cn0 i) → c_pc cn = c_pc cn0 →
  conn_effect nb st s c cn s' → conn_effect nb st s c cn0 s'.
Proof.
  intros Hh Hpc [? ? Hh' ?|? ? ? ? Hh' ?|? ? ? Hh' ?]; rewrite Hpc in *;
    [apply eff_move|eapply eff_put|apply eff_clear]; try done;
    intros i; by rewrite Hh', Hh.
Qed.
End conn_step_effect.

(** [taken] after a jump, by computation on the two program counters. *)
Ltac solve_taken Hpc :=
  intros; unfold taken, out_held; simpl; rewrite ?Hpc; simpl; done.

(** The select of conn.run on oldBlocks. *)
Lemma select_old_effect (nb : nat) (st : stage) (s s' : state) (c : nat) (cn : conn) :
  conn_wf nb st cn → c_pc cn = CSelect → conn_step c cn PickOld s = Next s' →
  conn_effect nb st s c cn s'.
Proof.
  intros HW Hpc Hstep. unfold conn_step in Hstep. rewrite Hpc in Hstep.
  destruct (chan_recv (c_old cn)) as [| |v ch] eqn:Hr; simplify_eq.
  { by apply goodbye_effect. }
  apply chan_recv_inv in Hr as (Hbuf & Hcap & Hcl).
  destruct (conn_wf_old nb st cn ch (c_rd cn)) as [HW' Hh]; [done..| |].
  { destruct (cw_reader _ _ _ HW) as [Hf Hrd]. rewrite Hbuf in Hf.
    apply Forall_cons_iff in Hf as [_ Hf]. split; [done|]. simpl.
    rewrite Hcl. by destruct (c_rd cn). }
  apply (effect_after nb st s c (set_old ch cn) cn); [done|done|].
  destruct (v =? 0)%Z; [simplify_eq; by apply goodbye_effect|].
  simpl in Hstep. destruct (c_out cn !! Z.to_nat (v - 1)) as [[]|] eqn:Ho; simplify_eq.
  - by apply (return_effect nb st s c (set_old ch cn)).
  - by apply goodbye_effect.
Qed.

(** Draining oldBlocks. *)
Lemma drain_old_effect (nb : nat) (st : stage) (s s' : state) (c : nat) (cn : conn)
    (choice : conn_choice) :
  conn_wf nb st cn → c_pc cn = CDrainOld → conn_step c cn choice s = Next s' →
  conn_effect nb st s c cn s'.
Proof.
  intros HW Hpc Hstep. unfold conn_step in Hstep. rewrite Hpc in Hstep.
  pose proof (cw_wire _ _ _ HW) as Hw. pose proof (cw_stage _ _ _ HW) as Hst.
  unfold wire_ok in Hw. unfold stage_ok in Hst. rewrite Hpc in Hw, Hst.
  destruct (chan_recv (c_old cn)) as [| |v ch] eqn:Hr; simplify_eq.
  - apply goto_effect; rewrite ?Hpc; try done; solve_taken Hpc.
  - apply chan_recv_inv in Hr as (Hbuf & Hcap & Hcl).
    apply move_effect; [|by rewrite Hpc|simpl; by rewrite Hpc].
    apply (conn_wf_old nb st cn ch (c_rd cn)); [done..|].
    destruct (cw_reader _ _ _ HW) as [Hf Hrd]. rewrite Hbuf in Hf.
    apply Forall_cons_iff in Hf as [_ Hf]. split; [done|]. simpl.
    rewrite Hcl. by destruct (c_rd cn).
Qed.

Lemma leb_S_ne (k i : nat) : k ≠ i → (S k <=? i) = (k <=? i).
Proof. intros. destruct (Nat.leb_spec k i), (Nat.leb_spec (S k) i); done || lia. Qed.

(** The loop over outstanding at the end of conn.run. *)
Lemma final_effect (nb : nat) (st : stage) (s s' : state) (c : nat) (cn : conn)
    (choice : conn_choice) (k : nat) :
  conn_wf nb st cn → c_pc cn = CFinal k → conn_step c cn choice s = Next s' →
  conn_effect nb st s c cn s'.
Proof.
  intros HW Hpc Hstep. unfold conn_step in Hstep. rewrite Hpc in Hstep.
  pose proof (cw_wire _ _ _ HW) as Hw. pose proof (cw_stage _ _ _ HW) as Hst.
  unfold wire_ok in Hw. unfold stage_ok in Hst. rewrite Hpc in Hw, Hst.
  destruct (c_out cn !! k) as [[]|] eqn:Ho; simplify_eq;
    (apply goto_effect; rewrite ?Hpc; try done);
    intros i; unfold taken, out_held; cbn [c_out c_pc set_pc]; rewrite Hpc;
    unfold pc_held, out_live, is_at.
  - destruct (decide (k = i)) as [->|Hne]; [|by rewrite leb_S_ne].
    rewrite Ho, (proj2 (Nat.leb_le i i)), (proj2 (Nat.leb_gt (S i) i)) by lia. done.
  - destruct (decide (k = i)) as [->|Hne]; [by rewrite Ho|by rewrite leb_S_ne].
  - destruct (c_out cn !! i) as [[]|] eqn:Hi; try done.
    apply lookup_ge_None in Ho. apply lookup_lt_Some in Hi.
    by destruct (Nat.leb_spec k i); [lia|].
Qed.

Lemma write_effect (nb : nat) (st : stage) (s s' : state) (c : nat) (cn : conn)
    (choice : conn_choice) (out : list byte) :
  conn_wf nb st cn → c_pc cn = CWrite out →
  conn_step c cn choice s = Next s' → conn_effect nb st s c cn s'.
Proof.
  intros HW Hpc Hstep. pose proof (cw_wire _ _ _ HW) as Hw. pose proof (cw_stage _ _ _ HW) as Hst.
  unfold wire_ok in Hw; unfold stage_ok in Hst; rewrite Hpc in Hw, Hst.
  unfold conn_step in Hstep; rewrite Hpc in Hstep. destruct choice; simplify_eq;
    (apply move_effect; [|by rewrite Hpc|done]).
  - apply (conn_wf_io nb st cn out CSelect); try done. solve_taken Hpc.
  - apply (conn_wf_io nb st cn (take n out) CClose); try done; [|solve_taken Hpc].
    unfold wire_ok. simpl. rewrite <- Hw. apply prefix_app.
    exists (drop n out). by rewrite take_drop.
Qed.

Lemma unref_effect (nb : nat) (st : stage) (s s' : state) (c : nat) (cn : conn)
    (choice : conn_choice) (b : nat) (k : ckont) :
  conn_wf nb st cn → c_pc cn = CUnref b k →
  conn_step c cn choice s = Next s' → conn_effect nb st s c cn s'.
Proof.
  intros HW Hpc Hstep. unfold conn_step in Hstep; rewrite Hpc in Hstep.
  destruct (dec_block b s) as [[s1 nx]|] eqn:Hd; [|done].
  apply dec_block_inv in Hd as (bl & Hbl & -> & ->).
  destruct (unref_after _) eqn:Hu; simplify_eq; eapply put_effect; try done.
  - by rewrite (unref_after_clear _ Hu).
  - apply unref_after_done in Hu. by rewrite (proj2 (Z.eqb_neq _ _)) by lia.
Qed.

Lemma drain_new_effect (nb : nat) (st : stage) (s s' : state) (c : nat) (cn : conn)
    (choice : conn_choice) :
  conn_wf nb st cn → c_pc cn = CDrainNew →
  conn_step c cn choice s = Next s' → conn_effect nb st s c cn s'.
Proof.
  intros HW Hpc Hstep. pose proof (cw_wire _ _ _ HW) as Hw. pose proof (cw_stage _ _ _ HW) as Hst.
  unfold wire_ok in Hw; unfold stage_ok in Hst; rewrite Hpc in Hw, Hst.
  unfold conn_step in Hstep; rewrite Hpc in Hstep.
  destruct (chan_recv (c_new cn)) eqn:Hr; simplify_eq.
  - apply chan_recv_zero in Hr as [??].
    apply goto_effect; rewrite ?Hpc; try done; [|solve_taken Hpc].
    unfold stage_ok. simpl. destruct st; naive_solver congruence.
  - apply move_effect; [|by rewrite Hpc|done].
    apply conn_wf_take; rewrite ?Hpc; try done.
    unfold wire_ok; simpl. rewrite wire_of_snoc. by apply prefix_app_r.
Qed.

Lemma conn_step_effect (nb : nat) (st : stage) (s s' : state) (c : nat) (cn : conn)
    (choice : conn_choice) :
  conn_wf nb st cn → conn_step c cn choice s = Next s' → conn_effect nb st s c cn s'.
Proof.
  intros HW Hstep. destruct (c_pc cn) eqn:Hpc;
    [|..|by eapply drain_old_effect|by eapply final_effect|];
    pose proof (cw_wire _ _ _ HW) as Hw; pose proof (cw_stage _ _ _ HW) as Hst;
    unfold wire_ok in Hw; unfold stage_ok in Hst; rewrite Hpc in Hw, Hst.
  - destruct choice; try by (unfold conn_step in Hstep; rewrite Hpc in Hstep).
    + unfold conn_step in Hstep; rewrite Hpc in Hstep.
      destruct (chan_recv (c_new cn)) eqn:Hr; simplify_eq. apply take_effect; [done..|by left].
    + by apply select_old_effect.
  - unfold conn_step in Hstep; rewrite Hpc in Hstep.
    destruct (c_out cn !! b) as [[]|] eqn:Ho; simplify_eq. by apply batch_effect.
  - unfold conn_step in Hstep; rewrite Hpc in Hstep.
    destruct (chan_recv (c_new cn)) eqn:Hr; simplify_eq.
    + apply goto_effect; rewrite ?Hpc; try done. solve_taken Hpc.
    + apply take_effect; [done..|by right].
  - by eapply write_effect.
  - by eapply unref_effect.
  - unfold conn_step in Hstep; rewrite Hpc in Hstep; simplify_eq.
    edestruct (conn_wf_pc nb st cn (conn_resume k)) as [??]; [done| | | |].
    + unfold stage_ok. by destruct k.
    + unfold wire_ok. by destruct k.
    + intros i. unfold taken, out_held. rewrite Hpc. by destruct k.
    + apply eff_clear; try done; [by rewrite Hpc|by destruct k].
  - unfold conn_step in Hstep; rewrite Hpc in Hstep; simplify_eq.
    apply move_effect; [|by rewrite Hpc|done].
    apply (conn_wf_pc nb st (set_shut cn)); try done; [by apply conn_wf_shut|].
    solve_taken Hpc.
  - by unfold conn_step in Hstep; rewrite Hpc in Hstep.
  - by eapply drain_new_effect.
  - by unfold conn_step in Hstep; rewrite Hpc in Hstep.
Qed.

(** handleReads only ever queues numbers of blocks of the ring. *)
Lemma handle_word_ok (nb : nat) (ev : read_event) :
  match handle_word nb ev with
  | HSend v => index_ok nb v
  | HDone => False
  | _ => True
  end.
Proof.
  unfold handle_word. destruct ev as [bs| |bs]; try done.
  destruct (negb (length bs =? 4)); [done|].
  destruct (uint32_of bs) as [num|]; [|done].
  destruct (negb _); [destruct (TLFrom num) as [t len]; by destruct (negb (len =? 0)%Z)|].
  destruct (Z.ltb_spec num 0), (Z.leb_spec (Z.of_nat nb) num); simpl; try done.
  unfold index_ok. lia.
Qed.

Lemma read_step_move (st : stage) (s s' : state) (c : nat) (cn : conn) (ev : read_event) :
  conn_wf (s_nb s) st cn → read_step c cn ev s = Next s' →
  ∃ cn', s' = set_conn c cn' s ∧ conn_wf (s_nb s) st cn' ∧
         (∀ i, conn_held cn' i = conn_held cn i) ∧ c_pc cn' = c_pc cn.
Proof.
  intros HW Hstep. destruct (cw_reader _ _ _ HW) as [Hf Hrd].
  assert (∀ rd, match rd with HDone => False | HSend v => index_ok (s_nb s) v | _ => True end →
    ch_closed (c_old cn) = false → s' = set_conn c (set_rd rd cn) s →
    ∃ cn', s' = set_conn c cn' s ∧ conn_wf (s_nb s) st cn' ∧
         (∀ i, conn_held cn' i = conn_held cn i) ∧ c_pc cn' = c_pc cn) as Hgo.
  { intros rd Hok Hop ->. exists (set_rd rd cn). split; [done|].
    edestruct (conn_wf_old (s_nb s) st cn (c_old cn) rd) as [??]; try done.
    split; [done|]. simpl. by destruct rd. }
  unfold read_step in Hstep. destruct (c_rd cn) eqn:Hpc.
  - destruct (read_possible cn 4 ev); simplify_eq. eapply Hgo; [|done|done].
    apply handle_word_ok.
  - destruct (read_possible _ _ ev); [|done]. destruct ev.
    + destruct (length bs =? _); simplify_eq. by apply (Hgo (after_tlv typ bs)).
    + simplify_eq. by apply (Hgo HClose).
    + simplify_eq. by apply (Hgo HClose).
  - destruct (chan_send (c_old cn) i) as [| |ch] eqn:Hs; simplify_eq.
    apply chan_send_inv in Hs as (Hb & Hc & Hcl & _). eexists. split; [done|].
    edestruct (conn_wf_old (s_nb s) st cn ch HRead) as [??]; try done.
    split; [|done]. simpl. rewrite Hb. apply Forall_app_2; [done|].
    constructor; [apply Hrd|done].
  - destruct (chan_close (c_old cn)) as [ch|] eqn:Hs; simplify_eq.
    unfold chan_close in Hs. rewrite Hrd in Hs. simplify_eq. eexists. split; [done|].
    by edestruct (conn_wf_old (s_nb s) st cn
      (Chan (ch_buf (c_old cn)) (ch_cap (c_old cn)) true) HDone) as [??].
  - done.
Qed.

(** ** Preservation *)

(** A connection changed its state, and blocks their counts, without a new
    reference. *)
Lemma inv_conn (s : state) (c : nat) (cn cn' : conn) (bs : list block) :
  let s' := set_conn c cn' (set_blocks bs s) in
  Inv s → s_conns s !! c = Some cn → conn_wf (s_nb s) (stage_of s c) cn' →
  (∀ i, conn_held cn' i ≤ conn_held cn i) → length bs = s_nb s →
  (∀ i bl, bs !! i = Some bl → b_r bl = Z.of_nat (holders s' i)) →
  Inv s'.
Proof.
  intros s' HI Hc HW Hle Hlen Href.
  assert (∀ c' cn1, s_conns s' !! c' = Some cn1 →
    ∃ cn0, s_conns s !! c' = Some cn0 ∧ ∀ i, conn_held cn1 i ≤ conn_held cn0 i) as Hold.
  { intros c' cn1. simpl. destruct (decide (c = c')) as [<-|Hne].
    - rewrite lookup_insert_eq. intros [= <-]. eauto.
    - rewrite lookup_insert_ne by done. eauto. }
  constructor; try apply HI; try done.
  - intros c' cn1. simpl. destruct (decide (c = c')) as [<-|Hne].
    + rewrite lookup_insert_eq. by intros [= <-].
    + rewrite lookup_insert_ne by done. apply HI.
  - intros c' Hc'. simpl. apply lookup_insert_is_Some'. right. by apply HI.
  - intros i c' cn1 Hq Hc1. destruct (Hold _ _ Hc1) as (cn0 & Hc0 & Hle0).
    pose proof (i_queued _ HI i c' cn0 Hq Hc0). specialize (Hle0 i). lia.
  - intros Hg. pose proof (i_ready _ HI Hg) as H0. simpl.
    pose proof (conns_held_update _ _ _ cn' (s_gi s) Hc). specialize (Hle (s_gi s)).
    unfold holders, queued, g_own in *. simpl in *. lia.
  - pose proof (i_run _ HI) as Hr. unfold run_ok in *. simpl.
    assert (∀ b c', (∀ cn0, s_conns s !! c' = Some cn0 → conn_held cn0 b = 0) →
      ∀ cn1, <[c:=cn']> (s_conns s) !! c' = Some cn1 → conn_held cn1 b = 0) as Hf.
    { intros b c' H0 cn1 H1. destruct (Hold _ _ H1) as (cn0 & Hc0 & Hle0).
      specialize (Hle0 b). rewrite (H0 _ Hc0) in Hle0. lia. }
    destruct (s_run s); naive_solver.
Qed.

Lemma is_at_eq (b i : nat) : b = i → is_at b i = 1.
Proof. intros. unfold is_at. by rewrite decide_True. Qed.

Lemma is_at_ne (b i : nat) : b ≠ i → is_at b i = 0.
Proof. intros. unfold is_at. by rewrite decide_False. Qed.

(** Blocks whose counts follow a change of [holders] by one. *)
Lemma refs_ref (s : state) (b : nat) (h : nat → nat) :
  Inv s → (∀ i, h i = holders s i + is_at b i) → (Z.of_nat (h b) < 2 ^ 31)%Z →
  ∀ i bl, alter ref b (s_blocks s) !! i = Some bl → b_r bl = Z.of_nat (h i).
Proof.
  intros HI Hh Hb i bl. rewrite list_lookup_alter. case_decide as Heq; subst.
  - destruct (s_blocks s !! i) as [bl0|] eqn:E; [|done]. intros [= <-]. simpl.
    rewrite (i_ref _ HI _ _ E). specialize (Hh i). rewrite is_at_eq in Hh by done.
    rewrite int32_small; lia.
  - intros E. rewrite (i_ref _ HI _ _ E), Hh, is_at_ne by done. lia.
Qed.

Lemma refs_dec (s : state) (b : nat) (h : nat → nat) :
  Inv s → (∀ i, h i + is_at b i = holders s i) → (Z.of_nat (holders s b) < 2 ^ 31)%Z →
  ∀ i bl, alter (λ bl, (unref_dec bl).1) b (s_blocks s) !! i = Some bl →
          b_r bl = Z.of_nat (h i).
Proof.
  intros HI Hh Hb i bl. rewrite list_lookup_alter. case_decide as Heq; subst.
  - destruct (s_blocks s !! i) as [bl0|] eqn:E; [|done]. intros [= <-].
    unfold unref_dec. simpl.
    rewrite (i_ref _ HI _ _ E). specialize (Hh i). rewrite is_at_eq in Hh by done.
    rewrite int32_small; lia.
  - intros E. rewrite (i_ref _ HI _ _ E), <- Hh, is_at_ne by done. lia.
Qed.

Lemma refs_same (s : state) (f : block → block) (b : nat) :
  Inv s → (∀ bl, b_r (f bl) = b_r bl) →
  ∀ i bl, alter f b (s_blocks s) !! i = Some bl → b_r bl = Z.of_nat (holders s i).
Proof.
  intros HI Hf i bl. rewrite list_lookup_alter. case_decide as Heq; subst.
  - destruct (s_blocks s !! i) as [bl0|] eqn:E; [|done]. intros [= <-]. rewrite Hf.
    by apply HI.
  - apply HI.
Qed.

(** The number after a decrement by a holder. *)
Lemma dec_value (s : state) (b : nat) (bl : block) :
  Inv s → conn_bound s → s_blocks s !! b = Some bl → 0 < holders s b →
  (unref_dec bl).2 = Z.of_nat (holders s b - 1).
Proof.
  intros HI Hb E Hpos. unfold unref_dec. simpl. rewrite (i_ref _ HI _ _ E).
  pose proof (holders_bound s HI b). unfold conn_bound in Hb. rewrite int32_small; lia.
Qed.

Lemma holders_lt (s : state) (b : nat) :
  Inv s → conn_bound s → (Z.of_nat (holders s b) < 2 ^ 31)%Z.
Proof.
  intros HI Hb. pose proof (holders_bound s HI b). unfold conn_bound in Hb. lia.
Qed.

(** The holders when one connection changes. *)
Lemma holders_set_conn (s : state) (c : nat) (cn cn' : conn) (i : nat) :
  s_conns s !! c = Some cn →
  holders (set_conn c cn' s) i + conn_held cn i = holders s i + conn_held cn' i.
Proof.
  intros Hc. pose proof (conns_held_update _ _ _ cn' i Hc).
  unfold holders, queued, g_own. simpl. lia.
Qed.

Lemma inv_conn_effect (s s' : state) (c : nat) (cn : conn) :
  Inv s → conn_bound s → s_conns s !! c = Some cn →
  conn_effect (s_nb s) (stage_of s c) s c cn s' → Inv s'.
Proof.
  intros HI Hb Hc [cn' HW Hh _ _|b bl cn' HW Hh Hbl _ _|b cn' HW Hh _ _].
  - apply (inv_conn s c cn cn' (s_blocks s)); try done; [|apply HI|].
    + intros i. by rewrite Hh.
    + intros i bl E. rewrite (i_ref _ HI _ _ E).
      pose proof (holders_set_conn s c cn cn' i Hc). rewrite Hh in *.
      change (holders (set_conn c cn' (set_blocks _ s)) i) with
        (holders (set_conn c cn' s) i). lia.
  - apply (inv_conn s c cn cn'); try done.
    + intros i. specialize (Hh i). lia.
    + rewrite length_alter. apply HI.
    + apply refs_dec; [done| |by apply holders_lt]. intros i.
      pose proof (holders_set_conn s c cn cn' i Hc) as H. specialize (Hh i).
      change (holders (set_conn c cn' (set_blocks _ s)) i) with
        (holders (set_conn c cn' s) i). lia.
  - apply (inv_conn s c cn cn'); try done.
    + intros i. by rewrite Hh.
    + rewrite length_alter. apply HI.
    + intros i bl E. rewrite (refs_same s clear b HI (λ _, eq_refl) i bl E).
      pose proof (holders_set_conn s c cn cn' i Hc). rewrite Hh in *.
      change (holders (set_conn c cn' (set_blocks _ s)) i) with
        (holders (set_conn c cn' s) i). lia.
Qed.

(** A step that changes only the blocks' status or contents. *)
Lemma inv_blocks (s : state) (bs : list block) :
  Inv s → length bs = s_nb s →
  (∀ i bl, bs !! i = Some bl → b_r bl = Z.of_nat (holders s i)) → Inv (set_blocks bs s).
Proof. intros HI Hlen Href. constructor; try apply HI; try done. Qed.

Lemma inv_kernel (s s' : state) (b : nat) (status : Z) :
  Inv s → kernel_step b status s = Next s' → Inv s'.
Proof.
  intros HI. unfold kernel_step.
  destruct (s_blocks s !! b) as [bl0|] eqn:E; simpl; [|done].
  unfold kernel_fill. destruct (_ && _); simpl; [|done]. intros [= <-].
  apply inv_blocks; [done|by rewrite length_insert; apply HI|].
  intros i bl. rewrite list_lookup_insert. case_decide as Hd; [|apply HI].
  destruct Hd as [-> _]. intros [= <-]. simpl. by apply HI.
Qed.

(** getNewBlocks between its sends. *)
Lemma inv_g (s : state) (g : gpc) :
  Inv s → s_g s ≠ GSend → g ≠ GSend →
  (g = GLoadStatus ∨ g = GRef → holders s (s_gi s) = 0) → Inv (set_g g s).
Proof.
  intros HI Hg Hg' Hr.
  assert (∀ i, queued (set_g g s) i = queued s i) as Hq.
  { intros i. unfold queued, g_own. simpl. by destruct g, (s_g s). }
  assert (∀ i, holders (set_g g s) i = holders s i) as Hh.
  { intros i. unfold holders. by rewrite Hq. }
  constructor; try apply HI; try done.
  - intros i. rewrite Hq. apply HI.
  - intros i. rewrite Hq. apply HI.
  - intros i c cn. rewrite Hq. apply HI.
  - rewrite Hh. done.
  - intros i bl Hbl. rewrite Hh. by apply HI.
Qed.

Lemma inv_g_ref (s : state) :
  Inv s → conn_bound s → s_g s = GRef → Inv (set_g GSend (upd_block ref (s_gi s) s)).
Proof.
  intros HI Hb Hg. pose proof (i_ready _ HI (or_intror Hg)) as H0.
  set (s' := set_g GSend _).
  assert (∀ i, queued s' i = queued s i + is_at (s_gi s) i) as Hq.
  { intros i. unfold queued, g_own. simpl. rewrite Hg. lia. }
  assert (∀ i, holders s' i = holders s i + is_at (s_gi s) i) as Hh.
  { intros i. unfold holders. rewrite Hq. simpl. lia. }
  assert (queued s (s_gi s) + run_own (s_run s) (s_gi s) + conns_held (s_conns s) (s_gi s) = 0)
    as H1 by (unfold holders in H0; lia).
  constructor; try apply HI; try done.
  - simpl. rewrite length_alter. apply HI.
  - intros i Hi. rewrite Hq. simpl. pose proof (i_range _ HI i Hi). pose proof (i_gi _ HI).
    simpl in *. rewrite is_at_ne by lia. lia.
  - intros i. rewrite Hq. simpl. pose proof (i_one _ HI i). unfold is_at.
    case_decide; subst; lia.
  - intros i c cn. rewrite Hq. simpl. unfold is_at. case_decide; subst.
    + intros _ Hc. pose proof (conns_held_lookup _ _ _ (s_gi s) Hc). lia.
    + rewrite Nat.add_0_r. apply HI.
  - intros [?|?]; done.
  - apply refs_ref; [done..|]. rewrite Hh, H0, is_at_eq by done. lia.
Qed.

Lemma inv_g_send (s : state) (ch : chan nat) :
  Inv s → s_g s = GSend → chan_send (s_new s) (s_gi s) = Sent ch →
  Inv (set_g GLoadR (set_gi ((s_gi s + 1) mod s_nb s) (set_snew ch s))).
Proof.
  intros HI Hg Hs. apply chan_send_inv in Hs as (Hbuf & Hcap & Hcl & _).
  set (s' := set_g GLoadR _).
  assert (∀ i, queued s' i = queued s i) as Hq.
  { intros i. unfold queued, g_own. simpl. rewrite Hg, Hbuf, occ_app. simpl. lia. }
  assert (∀ i, holders s' i = holders s i) as Hh.
  { intros i. unfold holders. by rewrite Hq. }
  constructor; try apply HI; try done.
  - simpl. rewrite Hcap. apply HI.
  - simpl. apply Nat.mod_upper_bound. pose proof (i_nb _ HI). lia.
  - intros i. rewrite Hq. apply HI.
  - intros i. rewrite Hq. apply HI.
  - intros i c cn. rewrite Hq. apply HI.
  - intros [?|?]; done.
  - intros i bl Hbl. rewrite Hh. by apply HI.
Qed.

Lemma inv_getNewBlocks (s s' : state) (errno : Z) :
  Inv s → conn_bound s → getNewBlocks_step errno s = Next s' → Inv s'.
Proof.
  intros HI Hb. unfold getNewBlocks_step.
  destruct (s_blocks s !! s_gi s) as [bl|] eqn:E; [|done].
  destruct (s_g s) eqn:Hg.
  - intros [= <-]. apply inv_g; [done|by rewrite Hg|by case_match|].
    destruct (Z.eqb_spec (b_r bl) 0) as [H0|]; [|by intros [|]].
    intros _. rewrite (i_ref _ HI _ _ E) in H0. lia.
  - intros [= <-]. apply inv_g; [done|by rewrite Hg|by case_match|].
    intros _. apply HI. by left.
  - case_match; [|done]. intros [= <-]. apply inv_g; [done|by rewrite Hg|done|by intros [|]].
  - intros [= <-]. by apply inv_g_ref.
  - destruct (chan_send _ _) eqn:Hs; [done|done|]. intros [= <-]. by apply inv_g_send.
Qed.

(** run moved, and nothing changed for the connections. *)
Lemma inv_run_pc (s : state) (pc : spc) (bs : list block) (ch : chan nat) :
  let s' := set_run pc (set_blocks bs (set_snew ch s)) in
  Inv s → (∀ c, closing s' c = closing s c) →
  length bs = s_nb s → ch_cap ch = s_nb s → ch_closed ch = false →
  (∀ i, queued s' i + run_own pc i ≤ queued s i + run_own (s_run s) i) →
  (∀ i, queued s' i ≤ queued s i) → (∀ i, holders s i = 0 → holders s' i = 0) →
  run_ok s' → (∀ i bl, bs !! i = Some bl → b_r bl = Z.of_nat (holders s' i)) →
  Inv s'.
Proof.
  intros s' HI Hcl Hlen Hcap Hopen Hown Hq Hz Hrun Href.
  assert (∀ c, stage_of s' c = stage_of s c) as Hst.
  { intros c. unfold stage_of. rewrite Hcl. done. }
  constructor; try apply HI; try done.
  - intros c cn Hc. rewrite Hst. by apply HI.
  - intros i Hi. pose proof (i_range _ HI i Hi). specialize (Hown i). simpl in *. lia.
  - intros i. pose proof (i_one _ HI i). specialize (Hown i). simpl in *. lia.
  - intros i c cn Hq0 Hc. apply (i_queued _ HI i c); [|done]. specialize (Hq i). lia.
  - intros Hg. apply Hz. by apply HI.
Qed.

Lemma inv_run_new (s : state) (b : nat) (ch : chan nat) (order : list nat) :
  Inv s → s_run s = RSelect → NoDup order → list_to_set order = s_cur s →
  chan_recv (s_new s) = Recv b ch → Inv (set_run (RFan b order) (set_snew ch s)).
Proof.
  intros HI Hpc Hnd Hord Hr. apply chan_recv_inv in Hr as (Hbuf & Hcap & Hcl).
  set (s' := set_run _ _).
  assert (∀ i, queued s' i + is_at b i = queued s i) as Hq.
  { intros i. unfold queued, g_own. simpl. rewrite Hbuf. simpl. lia. }
  assert (∀ i, holders s' i = holders s i) as Hh.
  { intros i. unfold holders. rewrite Hpc, <- Hq. simpl. lia. }
  apply (inv_run_pc s (RFan b order) (s_blocks s) ch); try apply HI; try done.
  - intros c. unfold closing. simpl. by rewrite Hpc.
  - rewrite Hcap. apply HI.
  - rewrite Hcl. apply HI.
  - intros i. rewrite Hpc. change (queued s' i + is_at b i ≤ queued s i + 0). rewrite Hq. lia.
  - intros i. change (queued s' i ≤ queued s i). rewrite <- Hq. lia.
  - intros i. change (holders s i = 0 → holders s' i = 0). by rewrite Hh.
  - split; [done|]. intros c Hc. simpl. split; [rewrite <- Hord; by apply elem_of_list_to_set|].
    intros cn Hcn. apply (i_queued _ HI b c); [|done]. rewrite <- Hq, is_at_eq by done. lia.
  - intros i bl E. change (b_r bl = Z.of_nat (holders s' i)). rewrite Hh. by apply HI.
Qed.

Lemma inv_run_ref (s : state) (b c : nat) (todo : list nat) :
  Inv s → conn_bound s → s_run s = RFan b (c :: todo) →
  Inv (set_run (RSend b c todo) (upd_block ref b s)).
Proof.
  intros HI Hb Hpc. set (s' := set_run _ _).
  assert (∀ i, holders s' i = holders s i + is_at b i) as Hh.
  { intros i. unfold holders, queued, g_own. simpl. rewrite Hpc. simpl. lia. }
  assert (holders s' b ≤ open_conns s + 2) as Hle.
  { pose proof (i_one _ HI b) as H1. rewrite Hpc in H1. simpl in H1.
    rewrite is_at_eq in H1 by done. pose proof (conns_held_open s HI b).
    unfold holders, queued, g_own in *. simpl. rewrite !(is_at_eq b b) by done. lia. }
  apply (inv_run_pc s (RSend b c todo) (alter ref b (s_blocks s)) (s_new s));
    try apply HI; try done.
  - intros c'. unfold closing. simpl. by rewrite Hpc.
  - rewrite length_alter. apply HI.
  - intros i. rewrite Hpc. done.
  - intros i Hi. change (holders s' i = 0). rewrite Hh, Hi.
    unfold holders in Hi. rewrite Hpc in Hi. simpl in Hi. lia.
  - pose proof (i_run _ HI) as Hr. unfold run_ok in *. rewrite Hpc in Hr. done.
  - intros i bl E. change (b_r bl = Z.of_nat (holders s' i)). revert i bl E.
    apply refs_ref; [done..|]. unfold conn_bound in Hb. lia.
Qed.

Lemma inv_run_unref (s : state) (b : nat) (pc : spc) :
  Inv s → conn_bound s → s_run s = RUnref b KRun → pc = RClear b KRun ∨ pc = RSelect →
  Inv (set_run pc (upd_block (λ bl, (unref_dec bl).1) b s)).
Proof.
  intros HI Hb Hpc Hpc'. set (s' := set_run _ _).
  assert (∀ i, run_own pc i = 0 ∧ run_transit pc i = 0) as H0 by (by destruct Hpc' as [->| ->]).
  assert (∀ i, holders s' i + is_at b i = holders s i) as Hh.
  { intros i. unfold holders, queued, g_own. simpl. rewrite Hpc. simpl.
    destruct (H0 i). lia. }
  apply (inv_run_pc s pc (alter (λ bl, (unref_dec bl).1) b (s_blocks s)) (s_new s));
    try apply HI; try done.
  - intros c'. unfold closing. simpl. rewrite Hpc. by destruct Hpc' as [->| ->].
  - rewrite length_alter. apply HI.
  - intros i. destruct (H0 i) as [-> _]. unfold queued, g_own. simpl. lia.
  - intros i Hi. change (holders s' i = 0). specialize (Hh i). lia.
  - unfold run_ok. simpl. by destruct Hpc' as [->| ->].
  - intros i bl E. change (b_r bl = Z.of_nat (holders s' i)). revert i bl E.
    apply refs_dec; [done..|]. by apply holders_lt.
Qed.

(** ** Connections coming and going *)

Lemma occ_replicate_false (n i : nat) : (replicate n false) !! i ≠ Some true.
Proof. intros H. apply lookup_replicate in H as [? _]. done. Qed.

Lemma conn_held_new (n i : nat) : conn_held (addNewConn n) i = 0.
Proof.
  unfold conn_held, taken, out_held. simpl.
  destruct (replicate n false !! i) as [[]|] eqn:E; try done.
  by apply occ_replicate_false in E.
Qed.

Lemma conn_wf_new (n : nat) : conn_wf n Open (addNewConn n).
Proof.
  constructor; try done.
  - simpl. by rewrite length_replicate.
  - intros i. pose proof (conn_held_new n i) as H. unfold conn_held in H. simpl in *. lia.
  - intros i. rewrite conn_held_new. lia.
  - intros i _. apply conn_held_new.
Qed.

Lemma inv_accept (s s' : state) (c : nat) :
  Inv s → run_accept c s = Next s' → Inv s'.
Proof.
  intros HI. unfold run_accept. destruct (s_run s) eqn:Hpc; try done.
  destruct (s_conns s !! c) eqn:Hc; [done|]. intros [= <-].
  assert (c ∉ s_cur s) as Hnc. { intros H%(i_dom _ HI). rewrite Hc in H. by destruct H. }
  set (s' := set_cur _ _).
  assert (∀ i, holders s' i = holders s i) as Hh.
  { intros i. unfold holders, queued, g_own. simpl.
    rewrite conns_held_fresh, conn_held_new by done. lia. }
  constructor; try apply HI; try done.
  - intros c' cn. simpl. unfold stage_of, closing. simpl. rewrite Hpc.
    destruct (decide (c = c')) as [<-|Hne].
    + rewrite lookup_insert_eq. intros [= <-]. rewrite decide_True by set_solver.
      rewrite (i_len _ HI). apply conn_wf_new.
    + rewrite lookup_insert_ne by done. intros Hcn.
      pose proof (i_conn _ HI _ _ Hcn) as HW. unfold stage_of, closing in HW.
      rewrite Hpc in HW. destruct (decide (c' ∈ s_cur s)).
      * rewrite decide_True by set_solver. done.
      * rewrite decide_False by set_solver. done.
  - intros c'. simpl. rewrite elem_of_union, elem_of_singleton, lookup_insert_is_Some'.
    intros [->|H]; [by left|right; by apply HI].
  - intros i c' cn Hq. simpl. destruct (decide (c = c')) as [<-|Hne].
    + rewrite lookup_insert_eq. intros [= <-]. apply conn_held_new.
    + rewrite lookup_insert_ne by done. by apply HI.
  - intros Hg. rewrite Hh. by apply HI.
  - unfold run_ok. simpl. by rewrite Hpc.
  - intros i bl E. rewrite Hh. by apply HI.
Qed.

(** A change of one connection together with a move of run, for a run that is at
    its select before or after. *)
Lemma inv_conn_run (s : state) (c : nat) (cn cn' : conn) (cur : gset nat) (pc : spc) :
  let s' := set_run pc (set_cur cur (set_conn c cn' s)) in
  Inv s → s_conns s !! c = Some cn → (∀ c', c' ∈ cur → c' ∈ s_cur s) →
  conn_wf (s_nb s) (stage_of s' c) cn' →
  (∀ c' cn1, c ≠ c' → s_conns s !! c' = Some cn1 → stage_of s' c' = stage_of s c') →
  (∀ i, run_own pc i = run_own (s_run s) i) →
  (∀ i, run_transit pc i + conn_held cn' i = run_transit (s_run s) i + conn_held cn i) →
  (∀ i, 0 < queued s i → conn_held cn' i = 0) →
  run_ok s' → Inv s'.
Proof.
  intros s' HI Hc Hcur HW Hst Hown Htr Hqc Hrun.
  assert (∀ i, holders s' i = holders s i) as Hh.
  { intros i. pose proof (conns_held_update _ _ _ cn' i Hc). specialize (Htr i).
    unfold holders, queued, g_own. simpl. rewrite Hown. lia. }
  assert (∀ i, queued s' i = queued s i) as Hq by done.
  constructor; try apply HI; try done.
  - intros c' cn1. simpl. destruct (decide (c = c')) as [<-|Hne].
    + rewrite lookup_insert_eq. by intros [= <-].
    + rewrite lookup_insert_ne by done. intros Hc1. erewrite Hst by done. by apply HI.
  - intros c' Hc'. simpl. apply lookup_insert_is_Some'. right. apply HI. by apply Hcur.
  - intros i Hi. simpl. rewrite Hq, Hown. by apply HI.
  - intros i. simpl. rewrite Hq, Hown. by apply HI.
  - intros i c' cn1 Hqi. simpl. destruct (decide (c = c')) as [<-|Hne].
    + rewrite lookup_insert_eq. intros [= <-]. by apply Hqc.
    + rewrite lookup_insert_ne by done. by apply HI.
  - intros Hg. rewrite Hh. by apply HI.
  - intros i bl E. rewrite Hh. by apply HI.
Qed.

Lemma inv_old (s s' : state) (c : nat) :
  Inv s → run_old c s = Next s' → Inv s'.
Proof.
  intros HI. unfold run_old. destruct (s_run s) eqn:Hpc; try done.
  destruct (s_conns s !! c) as [cn|] eqn:Hc; [|done].
  destruct (c_pc cn) eqn:Hcp; try done. intros [= <-].
  pose proof (i_conn _ HI _ _ Hc) as HW.
  destruct (serving_open _ _ _ HW) as [Hst Hop]; [by rewrite Hcp|].
  assert (c ∈ s_cur s) as Hin.
  { unfold stage_of in Hst. by destruct (decide (c ∈ s_cur s)). }
  assert (∀ i, conn_held (set_pc CDrainNew cn) i = conn_held cn i) as Hh.
  { intros i. unfold conn_held, taken, out_held. simpl. by rewrite Hcp. }
  apply (inv_conn_run s c cn (set_pc CDrainNew cn) (s_cur s) (RClose c)); try done.
  - unfold stage_of, closing. simpl. rewrite decide_True, bool_decide_true by done.
    eapply (conn_wf_moved _ _ _ cn); try done; try apply HW.
    + intros i. unfold taken, out_held. simpl. rewrite (cw_ledger _ _ _ HW i).
      unfold taken, out_held. by rewrite Hcp.
    + pose proof (cw_wire _ _ _ HW) as Hw. unfold wire_ok in *. by rewrite Hcp in Hw.
    + intros i. by rewrite Hh.
  - intros c' cn1 Hne _. unfold stage_of, closing. simpl. rewrite Hpc.
    by rewrite bool_decide_false.
  - intros i. by rewrite Hpc.
  - intros i. rewrite Hpc, Hh. done.
  - intros i Hq. rewrite Hh. by apply (i_queued _ HI i c).
Qed.

Lemma inv_close (s : state) (c : nat) (cn : conn) (ch : chan nat) :
  Inv s → s_run s = RClose c → s_conns s !! c = Some cn → chan_close (c_new cn) = Some ch →
  Inv (set_run RSelect (set_cur (s_cur s ∖ {[c]}) (set_conn c (set_new ch cn) s))).
Proof.
  intros HI Hpc Hc Hcl. pose proof (i_conn _ HI _ _ Hc) as HW.
  unfold chan_close in Hcl. destruct (ch_closed (c_new cn)) eqn:Hop; simplify_eq.
  assert (stage_ok Closing cn) as [_ Hph].
  { pose proof (cw_stage _ _ _ HW) as H. pose proof (i_run _ HI) as Hr.
    unfold run_ok in Hr. unfold stage_of, closing in H. rewrite Hpc in Hr, H.
    by rewrite decide_True, bool_decide_true in H. }
  apply (inv_conn_run s c cn); try done.
  - set_solver.
  - unfold stage_of. simpl. rewrite decide_False by set_solver.
    eapply (conn_wf_moved _ _ _ cn); try done; try apply HW. by split; [|left].
  - intros c' cn1 Hne _. unfold stage_of, closing. simpl. rewrite Hpc.
    rewrite bool_decide_false by done.
    destruct (decide (c' ∈ s_cur s)).
    + by rewrite decide_True by set_solver.
    + by rewrite decide_False by set_solver.
  - intros i. by rewrite Hpc.
  - intros i. by rewrite Hpc.
  - intros i Hq. exact (i_queued _ HI i c cn Hq Hc).
Qed.

(** Handing a block to a client that does not hold it. *)
Lemma conn_wf_send (nb : nat) (st : stage) (cn : conn) (b : nat) (ch : chan nat) :
  conn_wf nb st cn → st = Open → conn_held cn b = 0 → b < nb →
  chan_send (c_new cn) b = Sent ch →
  conn_wf nb st (log_sent b (set_new ch cn)) ∧
  ∀ i, conn_held (log_sent b (set_new ch cn)) i = conn_held cn i + is_at b i.
Proof.
  intros HW -> H0 Hb Hs. apply chan_send_inv in Hs as (Hbuf & Hcap & Hcl & Hop).
  assert (∀ i, conn_held (log_sent b (set_new ch cn)) i = conn_held cn i + is_at b i) as Hh.
  { intros i. unfold conn_held. simpl. rewrite Hbuf, occ_app. simpl.
    change (taken (log_sent b (set_new ch cn)) i) with (taken cn i). lia. }
  split; [|done]. constructor; try apply HW.
  - simpl. rewrite Hcap. apply HW.
  - destruct (cw_stage _ _ _ HW). by split.
  - simpl. rewrite (cw_fifo _ _ _ HW), Hbuf. by rewrite app_assoc.
  - simpl. apply Forall_app_2; [apply HW|]. by constructor.
  - intros i. rewrite Hh. pose proof (cw_one _ _ _ HW i). unfold is_at.
    case_decide; subst; lia.
  - intros i Hi. rewrite Hh, is_at_ne, (cw_range _ _ _ HW) by lia. done.
Qed.

Section run_send.
Context (s : state) (b c : nat) (todo : list nat) (HI : Inv s) (Hpc : s_run s = RSend b c todo).

(** What run knows when it is about to send: the client is served, does not
    hold the block, and its queue has room. *)
Lemma run_send_facts :
  ∃ cn, s_conns s !! c = Some cn ∧ stage_of s c = Open ∧ conn_held cn b = 0 ∧
    b < s_nb s ∧ queued s b = 0 ∧ ch_closed (c_new cn) = false ∧
    length (ch_buf (c_new cn)) < ch_cap (c_new cn).
Proof.
  pose proof (i_run _ HI) as Hr. unfold run_ok in Hr. rewrite Hpc in Hr.
  destruct Hr as [Hnd Hall]. destruct (Hall c) as [Hcur Hfresh]; [by left|].
  destruct (i_dom _ HI c Hcur) as [cn Hc]. exists cn. specialize (Hfresh _ Hc).
  assert (b < s_nb s) as Hb.
  { destruct (decide (b < s_nb s)); [done|]. pose proof (i_range _ HI b ltac:(lia)) as H.
    rewrite Hpc in H. simpl in H. rewrite is_at_eq in H by done. lia. }
  assert (stage_of s c = Open) as Hst.
  { unfold stage_of, closing. rewrite decide_True by done. by rewrite Hpc. }
  pose proof (i_conn _ HI _ _ Hc) as HW. rewrite Hst in HW.
  pose proof (i_one _ HI b) as H1. rewrite Hpc in H1. simpl in H1.
  rewrite is_at_eq in H1 by done.
  split_and!; [done..|lia|apply (cw_stage _ _ _ HW)|].
  rewrite (cw_newcap _ _ _ HW). apply (occ_room s b); try done.
  - intros i. pose proof (cw_one _ _ _ HW i). unfold conn_held in *. lia.
  - intros i Hi. pose proof (cw_range _ _ _ HW i Hi). unfold conn_held in *. lia.
  - unfold conn_held in Hfresh. lia.
Qed.

(** So the send cannot take the default case. *)
Lemma run_send_sent :
  ∃ cn ch, s_conns s !! c = Some cn ∧ chan_send (c_new cn) b = Sent ch.
Proof.
  destruct run_send_facts as (cn & Hc & _ & _ & _ & _ & Hop & Hroom).
  eexists cn, _. split; [done|]. by apply chan_send_room.
Qed.

Lemma inv_send (cn : conn) (ch : chan nat) :
  s_conns s !! c = Some cn → chan_send (c_new cn) b = Sent ch →
  Inv (set_run (RFan b todo) (set_conn c (log_sent b (set_new ch cn)) s)).
Proof.
  intros Hc Hs. destruct run_send_facts as (cn0 & Hc0 & Hst & Hfresh & Hb & Hq & _ & _).
  simplify_eq. pose proof (i_conn _ HI _ _ Hc) as HW.
  destruct (conn_wf_send _ _ _ _ _ HW Hst Hfresh Hb Hs) as [HW' Hh].
  assert (∀ c', stage_of (set_run (RFan b todo) (set_cur (s_cur s)
    (set_conn c (log_sent b (set_new ch cn)) s))) c' = stage_of s c') as Hst'.
  { intros c'. unfold stage_of, closing. simpl. by rewrite Hpc. }
  apply (inv_conn_run s c cn (log_sent b (set_new ch cn)) (s_cur s) (RFan b todo)); try done.
  - by rewrite Hst'.
  - intros i. by rewrite Hpc.
  - intros i. rewrite Hpc, Hh. simpl. lia.
  - intros i Hqi. rewrite Hh, is_at_ne by (intros ->; lia).
    rewrite (i_queued _ HI i c cn Hqi Hc). done.
  - pose proof (i_run _ HI) as Hr. unfold run_ok in Hr. rewrite Hpc in Hr.
    destruct Hr as [Hnd Hall]. apply NoDup_cons in Hnd as [Hni Hnd]. split; [done|].
    intros c' Hc'. destruct (Hall c') as [? Hf]; [by right|]. split; [done|]. simpl.
    rewrite lookup_insert_ne by (intros ->; done). done.
Qed.
End run_send.

Lemma inv_run_step (s s' : state) :
  Inv s → conn_bound s → run_step s = Next s' → Inv s'.
Proof.
  intros HI Hb. unfold run_step. destruct (s_run s) as [|c|b todo|b c todo|b k|b k] eqn:Hpc.
  - done.
  - destruct (s_conns s !! c) as [cn|] eqn:Hc; [|done].
    destruct (chan_close _) as [ch|] eqn:Hcl; [|done]. intros [= <-]. by eapply inv_close.
  - destruct todo as [|c todo]; intros [= <-]; [|by apply inv_run_ref].
    apply (inv_run_pc s (RUnref b KRun) (s_blocks s) (s_new s)); try apply HI; try done.
    + intros c. unfold closing. simpl. by rewrite Hpc.
    + intros i. by rewrite Hpc.
    + intros i. unfold holders, queued, g_own. simpl. by rewrite Hpc.
    + intros i bl E. rewrite (i_ref _ HI _ _ E). unfold holders, queued, g_own. simpl.
      by rewrite Hpc.
  - destruct (run_send_sent s b c todo HI Hpc) as (cn & ch & Hc & Hs). rewrite Hc, Hs.
    intros [= <-]. by eapply inv_send.
  - destruct (dec_block b s) as [[s1 nx]|] eqn:Hd; [|done].
    apply dec_block_inv in Hd as (bl & Hbl & -> & ->).
    pose proof (i_run _ HI) as Hr. unfold run_ok in Hr. rewrite Hpc in Hr.
    destruct k; [done|]. destruct (unref_after _); try done; intros [= <-];
      apply inv_run_unref; auto.
  - pose proof (i_run _ HI) as Hr. unfold run_ok in Hr. rewrite Hpc in Hr.
    destruct k; [done|]. intros [= <-].
    apply (inv_run_pc s RSelect (alter clear b (s_blocks s)) (s_new s)); try apply HI; try done.
    + intros c. unfold closing. simpl. by rewrite Hpc.
    + by rewrite length_alter; apply HI.
    + intros i. by rewrite Hpc.
    + intros i. unfold holders, queued, g_own. simpl. by rewrite Hpc.
    + intros i bl E. rewrite (refs_same s clear b HI (λ _, eq_refl) i bl E).
      unfold holders, queued, g_own. simpl. by rewrite Hpc.
Qed.
