(* ===== verification/SocketSafety.v ===== *)
(** * What the daemon guarantees for every schedule

    Consequences of [Inv] for all reachable states of a socket: no schedule
    crashes the process, reference counts are exact, no block is dropped or
    delivered twice, every reference is given up exactly once, and the bytes a
    client receives are the indexes of the blocks sent to it, in order. *)

From stdpp Require Import base list numbers option gmap.
From Stdlib Require Import ZArith Lia.
From S2P Require Import Prelude Bytes Protocol Chan Block Socket SocketInv.

Local Open Scope nat_scope.

(** ** [Inv] holds in every reachable state *)
Lemma inv_init (n : nat) : 0 < n → Inv (newSocket_state n).
Proof.
  intros Hn. constructor; try done; simpl.
  - by rewrite length_replicate.
  - intros i. lia.
  - intros i bl Hi. by apply lookup_replicate in Hi as [-> _].
Qed.

Lemma inv_step (s s' : state) (l : label) :
  Inv s → conn_bound s → step l s = Next s' → Inv s'.
Proof.
  intros HI Hb Hstep. destruct l as [b status|errno| |c|c|order|c choice|c ev]; simpl in Hstep.
  - by eapply inv_kernel.
  - by eapply inv_getNewBlocks.
  - by eapply inv_run_step.
  - by eapply inv_accept.
  - by eapply inv_old.
  - unfold run_new in Hstep. destruct (s_run s) eqn:Hpc; try done.
    case_bool_decide as Hord; [|done]. destruct Hord as [Hnd Hset].
    destruct (chan_recv (s_new s)) eqn:Hr; simplify_eq. by apply inv_run_new.
  - destruct (s_conns s !! c) as [cn|] eqn:Hc; [|done].
    eapply inv_conn_effect; try done. eapply conn_step_effect; [|done]. by apply HI.
  - destruct (s_conns s !! c) as [cn|] eqn:Hc; [|done].
    eapply read_step_move in Hstep as (cn' & -> & HW & Hh & Hpc); [|by apply HI].
    apply (inv_conn s c cn cn' (s_blocks s)); try done; [|apply HI|].
    + intros i. by rewrite Hh.
    + intros i bl E. rewrite (i_ref _ HI _ _ E).
      pose proof (holders_set_conn s c cn cn' i Hc). rewrite Hh in *.
      change (holders (set_conn c cn' (set_blocks _ s)) i) with
        (holders (set_conn c cn' s) i). lia.
Qed.

(** All cases of a step, by computation. *)
Ltac step_cases Hstep :=
  unfold step, kernel_step, getNewBlocks_step, run_step, run_accept, run_old,
    run_new, conn_step, read_step in Hstep;
  repeat (case_match; simplify_eq/=);
  repeat match goal with
  | H : dec_block _ _ = Some _ |- _ => apply dec_block_inv in H as (? & _ & -> & _)
  end; simplify_eq/=.

(** Only addNewConn opens a connection. *)
Lemma step_open (s s' : state) (l : label) :
  step l s = Next s' → (∀ c, l ≠ LAccept c) → open_conns s' ≤ open_conns s.
Proof.
  intros Hstep Hl. unfold open_conns.
  step_cases Hstep; try done; try (by destruct (Hl c));
    match goal with H : ?m !! ?c = Some ?cn |- conn_sum _ (<[?c := ?cn']> ?m) ≤ _ =>
      pose proof (conn_sum_update is_open m c cn cn' H) as Hu
    end; unfold is_open in Hu at 2 4; simpl in Hu; repeat case_match; simplify_eq; try lia.
Qed.

(** Only addNewConn adds a connection. *)
Lemma step_dom (s s' : state) (l : label) :
  step l s = Next s' →
  dom (s_conns s') =
    match l with LAccept c => {[c]} ∪ dom (s_conns s) | _ => dom (s_conns s) end.
Proof.
  intros Hstep. destruct l; step_cases Hstep; try done; try (apply dom_insert_lookup_L; eauto).
  apply dom_insert_L.
Qed.

Lemma step_bound (s s' : state) (l : label) :
  step l s = Next s' → (∀ c, l ≠ LAccept c) → conn_bound s → conn_bound s'.
Proof. intros Hs Hl. pose proof (step_open _ _ _ Hs Hl). unfold conn_bound. lia. Qed.

Lemma step_nb (s s' : state) (l : label) : step l s = Next s' → s_nb s' = s_nb s.
Proof. intros Hstep. by step_cases Hstep. Qed.

Lemma reachable_inv (n : nat) (s : state) :
  0 < n → reachable n s → Inv s.
Proof.
  intros Hn. induction 1 as [|s l s' _ IH Hb Hstep]; [by apply inv_init|]. by eapply inv_step.
Qed.

Lemma reachable_nb (n : nat) (s : state) : reachable n s → s_nb s = n.
Proof. induction 1 as [|s l s' _ IH _ Hstep]; [done|]. by rewrite (step_nb _ _ _ Hstep). Qed.

(** ** No schedule crashes the daemon *)

(** An unref by a holder never goes below zero. *)
Lemma dec_no_crash (s : state) (b : nat) :
  Inv s → conn_bound s → 0 < holders s b →
  ∃ s' n, dec_block b s = Some (s', n) ∧ ∀ refs, n ≠ UnrefPanic refs.
Proof.
  intros HI Hb Hpos. destruct (holders_block s HI b Hpos) as [bl Hbl].
  unfold dec_block. rewrite Hbl. eexists _, _. split; [done|].
  intros refs. rewrite (dec_value s b bl) by done. unfold unref_after.
  destruct (Z.eqb_spec (Z.of_nat (holders s b - 1)) 0); [done|].
  by rewrite (proj2 (Z.ltb_ge _ _)) by lia.
Qed.

Lemma conn_held_holders (s : state) (c : nat) (cn : conn) (i : nat) :
  s_conns s !! c = Some cn → conn_held cn i ≤ holders s i.
Proof.
  intros Hc. pose proof (conns_held_lookup _ _ _ i Hc). unfold holders. lia.
Qed.

Lemma held_lt (nb : nat) (st : stage) (cn : conn) (i : nat) :
  conn_wf nb st cn → 0 < conn_held cn i → i < nb.
Proof.
  intros HW Hh. destruct (decide (i < nb)); [done|].
  pose proof (cw_range _ _ _ HW i ltac:(lia)). lia.
Qed.

Lemma conn_no_crash (s : state) (c : nat) (cn : conn) (choice : conn_choice) (why : crash) :
  Inv s → conn_bound s → s_conns s !! c = Some cn → conn_step c cn choice s ≠ Crash why.
Proof.
  intros HI Hb Hc Hstep. pose proof (i_conn _ HI _ _ Hc) as HW.
  unfold conn_step in Hstep. destruct (c_pc cn) eqn:Hpc; try done.
  - destruct (serving_open _ _ _ HW) as [_ Hop]; [by rewrite Hpc|].
    destruct choice; try done.
    + destruct (chan_recv (c_new cn)) eqn:Hr; simplify_eq.
      apply chan_recv_zero in Hr as [_ ?]. congruence.
    + destruct (chan_recv (c_old cn)) as [| |v ch] eqn:Hr; simplify_eq.
      destruct (v =? 0)%Z; [done|]. simpl in Hstep.
      apply chan_recv_inv in Hr as (Hbuf & _ & _).
      destruct (cw_reader _ _ _ HW) as [Hf _]. rewrite Hbuf in Hf.
      apply Forall_cons_iff in Hf as [Hv _]. unfold index_ok in Hv.
      destruct (c_out cn !! Z.to_nat (v - 1)) as [[]|] eqn:Ho; simplify_eq.
      apply lookup_ge_None in Ho. rewrite (cw_out _ _ _ HW) in Ho. lia.
  - assert (1 ≤ conn_held cn b) as Hh.
    { unfold conn_held, taken. rewrite Hpc. simpl. rewrite is_at_eq by done. lia. }
    pose proof (held_lt _ _ _ b HW ltac:(lia)) as Hlt. pose proof (cw_one _ _ _ HW b) as H1.
    destruct (c_out cn !! b) as [[]|] eqn:Ho; simplify_eq.
    + unfold conn_held, taken, out_held in H1. rewrite Hpc, Ho in H1. simpl in H1.
      rewrite is_at_eq in H1 by done. lia.
    + apply lookup_ge_None in Ho. rewrite (cw_out _ _ _ HW) in Ho. lia.
  - destruct (serving_open _ _ _ HW) as [_ Hop]; [by rewrite Hpc|].
    destruct (chan_recv (c_new cn)) eqn:Hr; simplify_eq.
    apply chan_recv_zero in Hr as [_ ?]. congruence.
  - by destruct choice.
  - assert (1 ≤ conn_held cn b) as Hh.
    { unfold conn_held, taken. rewrite Hpc. simpl. rewrite is_at_eq by done. lia. }
    pose proof (conn_held_holders s c cn b Hc).
    destruct (dec_no_crash s b HI Hb) as (s1 & n & Hd & Hn); [lia|]. rewrite Hd in Hstep.
    destruct n; simplify_eq. by apply (Hn refs).
  - by destruct (chan_recv (c_new cn)).
  - by destruct (chan_recv (c_old cn)).
  - by destruct (c_out cn !! i) as [[]|].
Qed.

Lemma read_no_crash (s : state) (c : nat) (cn : conn) (ev : read_event) (why : crash) :
  Inv s → s_conns s !! c = Some cn → read_step c cn ev s ≠ Crash why.
Proof.
  intros HI Hc Hstep. pose proof (i_conn _ HI _ _ Hc) as HW.
  destruct (cw_reader _ _ _ HW) as [_ Hrd]. unfold read_step in Hstep.
  destruct (c_rd cn); try done.
  - by destruct (read_possible _ _ _).
  - destruct (read_possible _ _ _), ev; try done. by destruct (length bs =? _).
  - destruct Hrd as [Hop _]. unfold chan_send in Hstep. rewrite Hop in Hstep.
    by case_bool_decide.
  - unfold chan_close in Hstep. by rewrite Hrd in Hstep.
Qed.

Lemma run_no_crash (s : state) (why : crash) :
  Inv s → conn_bound s → run_step s ≠ Crash why.
Proof.
  intros HI Hb Hstep. pose proof (i_run _ HI) as Hr. unfold run_step in Hstep.
  unfold run_ok in Hr. destruct (s_run s) as [|c|b todo|b c todo|b k|b k] eqn:Hpc; try done.
  - destruct (s_conns s !! c) as [cn|] eqn:Hc; [|done].
    pose proof (cw_stage _ _ _ (i_conn _ HI _ _ Hc)) as Hst.
    unfold stage_of, closing in Hst. rewrite Hpc, decide_True, bool_decide_true in Hst by done.
    destruct Hst as [Hop _]. unfold chan_close in Hstep. by rewrite Hop in Hstep.
  - by destruct todo.
  - destruct (run_send_sent s b c todo HI Hpc) as (cn & ch & Hc & Hs).
    by rewrite Hc, Hs in Hstep.
  - destruct k; [done|].
    destruct (dec_no_crash s b HI Hb) as (s1 & n & Hd & Hn).
    { unfold holders. rewrite Hpc. simpl. rewrite is_at_eq by done. lia. }
    rewrite Hd in Hstep. destruct n; simplify_eq. by apply (Hn refs).
Qed.

Lemma step_no_crash (s : state) (l : label) (why : crash) :
  Inv s → conn_bound s → step l s = Crash why →
  ∃ errno, l = LG errno ∧ errno ≠ 0%Z ∧ s_g s = GWait ∧ why = PanicWaitForBlocks errno.
Proof.
  intros HI Hb Hstep. destruct l as [b status|errno| |c|c|order|c choice|c ev]; simpl in Hstep.
  - unfold kernel_step in Hstep. by destruct (_ ≫= _).
  - unfold getNewBlocks_step in Hstep.
    destruct (lookup_lt_is_Some_2 (s_blocks s) (s_gi s)) as [bl Hbl].
    { rewrite (i_len _ HI). apply HI. }
    rewrite Hbl in Hstep. destruct (s_g s) eqn:Hg; try done.
    + destruct (Z.eqb_spec errno 0); simplify_eq. eauto.
    + unfold chan_send in Hstep. rewrite (i_newopen _ HI) in Hstep. by case_bool_decide.
  - exfalso. by eapply run_no_crash.
  - unfold run_accept in Hstep. by destruct (s_run s), (s_conns s !! c).
  - unfold run_old in Hstep. destruct (s_run s), (s_conns s !! c) as [cn|]; try done.
    by destruct (c_pc cn).
  - unfold run_new in Hstep. destruct (s_run s); try done. case_bool_decide; [|done].
    destruct (chan_recv (s_new s)) eqn:Hr; try done.
    apply chan_recv_zero in Hr as [_ Hcl]. by rewrite (i_newopen _ HI) in Hcl.
  - destruct (s_conns s !! c) as [cn|] eqn:Hc; [|done]. exfalso. by eapply conn_no_crash.
  - destruct (s_conns s !! c) as [cn|] eqn:Hc; [|done]. exfalso. by eapply read_no_crash.
Qed.

(** A schedule with one client and a ring of two blocks: block 0 is filled,
    delivered, written to the client, returned and given back to the kernel. *)
Definition demo_deliver : list label :=
  [LAccept 7; LKernel 0 1; LG 0; LG 0; LG 0; LG 0; LNew [7]; LRun; LRun].
Definition demo_write : list label :=
  [LRun; LRun; LConn 7 PickNew; LConn 7 Tau; LConn 7 Tau; LConn 7 WriteOk].
Definition demo_return : list label :=
  [LRead 7 (RdData (put_uint32 0)); LRead 7 (RdData []);
   LConn 7 PickOld; LConn 7 Tau; LConn 7 Tau].
Definition demo_hangup : list label :=
  [LRead 7 RdEOF; LRead 7 RdEOF; LConn 7 PickOld; LConn 7 Tau; LOld 7; LRun;
   LConn 7 Tau; LConn 7 Tau; LConn 7 Tau].

Definition demo_state (ls : list label) : state :=
  default (newSocket_state 2) (run_schedule ls (newSocket_state 2)).

Lemma demo_reachable (ls : list label) :
  bounded ls (newSocket_state 2) = true → reachable 2 (demo_state ls).
Proof.
  intros Hb. unfold demo_state. destruct (run_schedule ls _) eqn:E; simpl; [|constructor].
  by eapply reachable_schedule; [constructor|..].
Qed.

(** C1: whatever the clients send, however the goroutines interleave and whenever
    the kernel fills blocks, no step of a reachable state panics or exits: no
    unref below zero, no block delivered to a connection that still has it, no
    send on or double close of a closed channel, no index out of range.  The
    only exception is a failing select(2) in WaitForBlocks. *)
Theorem socket_never_crashes (n : nat) (s : state) (l : label) (why : crash) :
  0 < n → reachable n s → conn_bound s → step l s = Crash why →
  ∃ errno, l = LG errno ∧ errno ≠ 0%Z ∧ s_g s = GWait ∧ why = PanicWaitForBlocks errno.
Proof. intros Hn Hr Hb. apply step_no_crash; [by eapply reachable_inv|done]. Qed.

Lemma socket_never_crashes_witness :
  ∃ errno, LG 9 = LG errno ∧ errno ≠ 0%Z ∧ s_g (demo_state [LG 0; LG 0]) = GWait ∧
           PanicWaitForBlocks 9 = PanicWaitForBlocks errno.
Proof.
  apply (socket_never_crashes 2 (demo_state [LG 0; LG 0]) (LG 9) (PanicWaitForBlocks 9)).
  - lia.
  - apply demo_reachable. by vm_compute.
  - by vm_compute.
  - by vm_compute.
Defined.

(** C7: in every reachable state the reference count of a block is the number of
    places that hold it: getNewBlocks, the newBlocks queue, run, and each
    connection's queue, outstanding slice and hand. *)
Theorem refcount_exact (n : nat) (s : state) (i : nat) (bl : block) :
  0 < n → reachable n s → s_blocks s !! i = Some bl →
  b_r bl = Z.of_nat (holders s i).
Proof. intros Hn Hr. by apply (reachable_inv n). Qed.

Lemma refcount_exact_witness :
  option_map b_r (s_blocks (demo_state demo_deliver) !! 0) = Some 2%Z ∧
  (∀ bl, s_blocks (demo_state demo_deliver) !! 0 = Some bl →
    b_r bl = Z.of_nat (holders (demo_state demo_deliver) 0)).
Proof.
  split; [reflexivity|]. intros bl Hbl.
  apply (refcount_exact 2 (demo_state demo_deliver) 0 bl); [lia| |done].
  apply demo_reachable. by vm_compute.
Defined.

(** C9: the non-blocking send of run never takes its default case: whenever run
    is about to pass a block to a client, the client is connected, does not have
    the block, and its queue takes it.  No client misses a block. *)
Theorem no_block_dropped (n : nat) (s : state) (b c : nat) (todo : list nat) :
  0 < n → reachable n s → s_run s = RSend b c todo →
  ∃ cn, s_conns s !! c = Some cn ∧ conn_held cn b = 0 ∧
    let ch := Chan (ch_buf (c_new cn) ++ [b]) (ch_cap (c_new cn)) false in
    step LRun s = Next (set_run (RFan b todo) (set_conn c (log_sent b (set_new ch cn)) s)).
Proof.
  intros Hn Hr Hpc. assert (Inv s) as HI by (by eapply reachable_inv).
  destruct (run_send_facts s b c todo HI Hpc) as (cn & Hc & _ & H0 & _ & _ & Hop & Hroom).
  exists cn. split_and!; [done..|]. simpl. unfold run_step.
  by rewrite Hpc, Hc, chan_send_room.
Qed.

Lemma no_block_dropped_witness :
  ∃ cn, s_conns (demo_state (take 8 demo_deliver)) !! 7 = Some cn ∧ conn_held cn 0 = 0.
Proof.
  destruct (no_block_dropped 2 (demo_state (take 8 demo_deliver)) 0 7 [])
    as (cn & H & H0 & _); [lia|apply demo_reachable; by vm_compute|by vm_compute|].
  by exists cn.
Defined.

(** GetNewBlocks never waits for room: its send on newBlocks always succeeds
    at once, because the queue can hold the whole ring. *)
Theorem getNewBlocks_never_waits (n : nat) (s : state) (errno : Z) :
  0 < n → reachable n s → s_g s = GSend →
  ∃ s', step (LG errno) s = Next s' ∧ s_g s' = GLoadR ∧
    s_gi s' = (s_gi s + 1) mod n ∧ ch_buf (s_new s') = ch_buf (s_new s) ++ [s_gi s].
Proof.
  intros Hn Hr Hg. assert (Inv s) as HI by (by eapply reachable_inv).
  destruct (lookup_lt_is_Some_2 (s_blocks s) (s_gi s)) as [bl Hbl].
  { rewrite (i_len _ HI). apply HI. }
  assert (length (ch_buf (s_new s)) < s_nb s) as Hroom.
  { apply (occ_room s (s_gi s)); [apply HI|..].
    - intros i. pose proof (i_one _ HI i). unfold queued in *. lia.
    - intros i Hi. pose proof (i_range _ HI i Hi). unfold queued in *. lia.
    - pose proof (i_one _ HI (s_gi s)) as H1. unfold queued, g_own in H1.
      rewrite Hg, is_at_eq in H1 by done. lia. }
  rewrite <- (i_newcap _ HI) in Hroom. simpl. unfold getNewBlocks_step.
  rewrite Hbl, Hg, (chan_send_room _ _ (i_newopen _ HI) Hroom).
  eexists. split; [done|]. simpl. by rewrite (reachable_nb n s).
Qed.

Lemma getNewBlocks_never_waits_witness :
  ∃ s', step (LG 0) (demo_state (take 5 demo_deliver)) = Next s' ∧ s_g s' = GLoadR.
Proof.
  destruct (getNewBlocks_never_waits 2 (demo_state (take 5 demo_deliver)) 0)
    as (s' & H1 & H2 & _); [lia|apply demo_reachable; by vm_compute|by vm_compute|].
  by exists s'.
Defined.

(** ** Every reference is given up exactly once *)

Lemma occ_permutation (l k : list nat) : (∀ i, occ i l = occ i k) → l ≡ₚ k.
Proof.
  revert k. induction l as [|b l IH]; intros k H.
  - destruct k as [|x k]; [done|]. specialize (H x). simpl in H.
    rewrite is_at_eq in H by done. lia.
  - assert (b ∈ k) as [k1 [k2 ->]]%list_elem_of_split.
    { apply occ_elem. rewrite <- H. simpl. rewrite is_at_eq by done. lia. }
    rewrite <- Permutation_middle. constructor. apply IH. intros i. specialize (H i).
    rewrite occ_app in H. rewrite occ_app. simpl in H. lia.
Qed.

(** A connection that has ended. *)
Lemma conn_ended (n : nat) (s : state) (c : nat) (cn : conn) :
  0 < n → reachable n s → s_conns s !! c = Some cn → c_pc cn = CDone →
  l_put (c_log cn) ≡ₚ l_sent (c_log cn) ∧ ∀ i, conn_held cn i = 0.
Proof.
  intros Hn Hr Hc Hpc. assert (Inv s) as HI by (by eapply reachable_inv).
  pose proof (i_conn _ HI _ _ Hc) as HW. destruct (done_held _ _ _ HW Hpc) as [Hbuf H0].
  split; [|done].
  apply occ_permutation. intros i. rewrite (cw_fifo _ _ _ HW), Hbuf, app_nil_r.
    rewrite (cw_ledger _ _ _ HW), done_taken by done. lia.
Qed.

(** C8: conn.run keeps the promise of its comment: when it has ended, every block
    the socket sent to it was received and unref'd exactly once, whatever the
    client did, and the connection holds nothing. *)
Theorem conn_unrefs_exactly_once (n : nat) (s : state) (c : nat) (cn : conn) :
  0 < n → reachable n s → s_conns s !! c = Some cn → c_pc cn = CDone →
  l_put (c_log cn) ≡ₚ l_sent (c_log cn) ∧ ∀ i, conn_held cn i = 0.
Proof. apply conn_ended. Qed.

(** The client hangs up while it holds block 0. *)
Definition demo_crashed_client : list label :=
  demo_deliver ++ demo_write ++ demo_hangup ++
  [LConn 7 Tau; LConn 7 Tau; LConn 7 Tau; LConn 7 Tau].

Lemma conn_unrefs_exactly_once_witness :
  ∃ cn, s_conns (demo_state demo_crashed_client) !! 7 = Some cn ∧
    l_sent (c_log cn) = [0] ∧ l_put (c_log cn) ≡ₚ l_sent (c_log cn).
Proof.
  destruct (s_conns (demo_state demo_crashed_client) !! 7) as [cn|] eqn:E;
    [|by vm_compute in E].
  exists cn. split; [done|].
  destruct (conn_unrefs_exactly_once 2 (demo_state demo_crashed_client) 7 cn) as [H _];
    [lia|apply demo_reachable; by vm_compute|done|vm_compute in E; by simplify_eq|].
  split; [vm_compute in E; by simplify_eq|done].
Defined.

(** ** What the client sees *)

Lemma wire_of_encode (n : nat) (l : list nat) :
  (Z.of_nat n <= 2 ^ 32)%Z → Forall (λ b, b < n) l →
  wire_of l = encode_all (Z.of_nat <$> l) ∧
  Forall (λ v, (0 <= v < 2 ^ 32)%Z) (Z.of_nat <$> l).
Proof.
  intros Hn. induction 1 as [|b l Hb _ [IH IHv]]; [done|]. split.
  - change (wire_word b ++ wire_of l = put_uint32 (Z.of_nat b) ++ encode_all (Z.of_nat <$> l)).
    rewrite IH. unfold wire_word. rewrite uint32_small by lia. done.
  - simpl. constructor; [lia|done].
Qed.

(** What a client reads from its connection is, in every reachable state, a
    prefix of the big-endian indexes of the blocks run sent to it, in the order
    they were sent; and whenever conn.run is back at its select, the bytes
    written are whole words and decode to exactly the blocks taken so far. *)
Lemma wire_words (n : nat) (s : state) (c : nat) (cn : conn) :
  0 < n → (Z.of_nat n <= 2 ^ 32)%Z → reachable n s →
  s_conns s !! c = Some cn →
  l_wire (c_log cn) `prefix_of` encode_all (Z.of_nat <$> l_sent (c_log cn)) ∧
  (c_pc cn = CSelect →
   decode_all (l_wire (c_log cn)) = Some (Z.of_nat <$> l_got (c_log cn)) ∧
   l_got (c_log cn) `prefix_of` l_sent (c_log cn)).
Proof.
  intros Hn Hw Hr Hc. assert (Inv s) as HI by (by eapply reachable_inv).
  pose proof (i_conn _ HI _ _ Hc) as HW. pose proof (cw_wire _ _ _ HW) as Hwire.
  rewrite (reachable_nb n s Hr) in HW. pose proof (cw_sent _ _ _ HW) as Hsent.
  pose proof (cw_fifo _ _ _ HW) as Hfifo. destruct (wire_of_encode n _ Hw Hsent) as [<- _].
  rewrite Hfifo in Hsent. apply Forall_app in Hsent as [Hgot _].
  destruct (wire_of_encode n _ Hw Hgot) as [Heq Hv]. split.
  - rewrite Hfifo, wire_of_app. apply prefix_app_r. unfold wire_ok in Hwire.
    destruct (c_pc cn) as [| | | |? []|? []| | | | | |]; try done;
      rewrite <- Hwire; done || by apply prefix_app_r.
  - intros Hpc. unfold wire_ok in Hwire. rewrite Hpc in Hwire.
    rewrite Hwire, Heq, Hfifo. split; [by apply decode_encode_all|by apply prefix_app_r].
Qed.
