(* ===== verification/SocketType.v ===== *)
(** * The types of a socket's state

    Go's types are wider than the values the daemon keeps in them: an index is an
    int, a reference count an int32, a channel of ints carries block numbers.  Here
    every reachable state is shown to be well typed in the narrow sense the code
    relies on: indexes in range, queues within their capacity, slices of the length
    of the ring, counts that fit. *)

From stdpp Require Import base list numbers option gmap.
From Stdlib Require Import ZArith Lia.
From S2P Require Import Prelude Bytes Protocol Chan Block Socket SocketInv SocketSafety.

Local Open Scope nat_scope.

(** A channel of [cap] entries that all satisfy [P]. *)
Record chan_typed {A} (cap : nat) (P : A → Prop) (ch : chan A) : Prop := {
  ct_cap : ch_cap ch = cap;
  ct_room : length (ch_buf ch) ≤ cap;
  ct_buf : Forall P (ch_buf ch);
}.

Section chan_typed.
Context {A : Type} (cap : nat) (P : A → Prop).

Lemma chan_typed_make : chan_typed cap P (make_chan cap).
Proof. split; simpl; [done|lia|constructor]. Qed.

Lemma chan_typed_send (ch ch' : chan A) (x : A) :
  chan_typed cap P ch → P x → chan_send ch x = Sent ch' → chan_typed cap P ch'.
Proof.
  intros [Hc Hr Hb] Hx. unfold chan_send. destruct (ch_closed ch); [done|].
  case_bool_decide; [|done]. intros [= <-]. split; simpl; [done|rewrite length_app; simpl; lia|].
  apply Forall_app. by repeat constructor.
Qed.

Lemma chan_typed_recv (ch ch' : chan A) (x : A) :
  chan_typed cap P ch → chan_recv ch = Recv x ch' → chan_typed cap P ch'.
Proof.
  intros [Hc Hr Hb] (E & Hcap & _)%chan_recv_inv. rewrite E in Hr, Hb.
  apply Forall_cons_iff in Hb as [_ Hb]. split; [congruence|simpl in Hr; lia|done].
Qed.

Lemma chan_typed_close (ch ch' : chan A) :
  chan_typed cap P ch → chan_close ch = Some ch' → chan_typed cap P ch'.
Proof. intros [Hc Hr Hb]. unfold chan_close. destruct (ch_closed ch); [done|]. by intros [= <-]. Qed.
End chan_typed.

(** The reader: a value has a type with its top bit set and a length that is not zero,
    both of 16 bits; an index is one of the ring's, plus one. *)
Definition reader_typed (nb : nat) (rd : hpc) : Prop :=
  match rd with
  | HVal typ len => (2 ^ 15 <= typ < 2 ^ 16 ∧ 0 < len < 2 ^ 16)%Z
  | HSend v => index_ok nb v
  | _ => True
  end.

(** The side of a connection that reads from the client. *)
Definition inbound (nb : nat) (cn : conn) : Prop :=
  chan_typed nb (index_ok nb) (c_old cn) ∧ reader_typed nb (c_rd cn).

Lemma handle_word_typed (nb : nat) (ev : read_event) : reader_typed nb (handle_word nb ev).
Proof.
  unfold handle_word. destruct ev as [bs| |]; [|done..].
  destruct (length bs =? 4); [|done]. destruct (uint32_of bs) as [num|] eqn:E; [|done].
  assert (0 <= num < 2 ^ 32)%Z as Hr.
  { pose proof (Uint32_range bs) as H. unfold Uint32 in H. by rewrite E in H. }
  cbn [negb]. rewrite top_bit by done. destruct (Z.ltb_spec num (2 ^ 31)); cbn [negb].
  - destruct (Z.ltb_spec num 0), (Z.leb_spec (Z.of_nat nb) num); try done.
    simpl. unfold index_ok. lia.
  - rewrite TLFrom_msg by lia. destruct (Z.eqb_spec (num mod 2 ^ 16) 0); cbn [negb]; [done|].
    simpl. pow2. Z.div_mod_to_equations. lia.
Qed.

(** The reader's steps keep its side typed, and the steps of the others do not touch
    it other than by taking an index out. *)
Lemma read_step_inbound (s s' : state) (c : nat) (cn : conn) (ev : read_event) :
  inbound (s_nb s) cn → read_step c cn ev s = Next s' →
  ∃ cn', s_conns s' = <[c := cn']> (s_conns s) ∧ inbound (s_nb s) cn'.
Proof.
  intros [Hch Hrd] Hs. unfold read_step in Hs. destruct (c_rd cn) as [|typ len|v| |] eqn:E; [..|done].
  - destruct (read_possible _ _ _); [|done]. injection Hs as <-. eexists. split; [done|].
    split; [done|apply handle_word_typed].
  - destruct (read_possible _ _ _); [|done].
    destruct ev as [bs| |]; [destruct (length bs =? _); [|done]|..];
      injection Hs as <-; (eexists; split; [done|]; split; [done|]); exact I.
  - destruct (chan_send (c_old cn) v) as [| |ch] eqn:Hsend; [done..|]. injection Hs as <-.
    eexists. split; [done|]. split; [|done]. by eapply chan_typed_send.
  - destruct (chan_close (c_old cn)) as [ch|] eqn:Hcl; [|done]. injection Hs as <-.
    eexists. split; [done|]. split; [|done]. by eapply chan_typed_close.
Qed.

Lemma conn_step_inbound (s s' : state) (c : nat) (cn : conn) (choice : conn_choice) :
  inbound (s_nb s) cn → conn_step c cn choice s = Next s' →
  ∃ cn', s_conns s' = <[c := cn']> (s_conns s) ∧ inbound (s_nb s) cn'.
Proof.
  intros [Hch Hrd] Hs. unfold conn_step in Hs.
  repeat (case_match; simplify_eq/=);
    repeat match goal with
    | H : dec_block _ _ = Some _ |- _ => apply dec_block_inv in H as (? & _ & -> & _)
    end; simplify_eq/=;
    (eexists; split; [done|]; split; [|done]; simpl; try done; by eapply chan_typed_recv).
Qed.

Definition all_inbound (s : state) : Prop :=
  ∀ c cn, s_conns s !! c = Some cn → inbound (s_nb s) cn.

Lemma all_inbound_set (s s' : state) (c : nat) (cn' : conn) :
  all_inbound s → s_nb s' = s_nb s → s_conns s' = <[c := cn']> (s_conns s) →
  inbound (s_nb s) cn' → all_inbound s'.
Proof.
  intros H Hn Hs Hin c0 cn0. rewrite Hs, Hn. destruct (decide (c0 = c)) as [->|Hne].
  - rewrite lookup_insert_eq. by intros [= <-].
  - rewrite lookup_insert_ne by done. apply H.
Qed.

Lemma all_inbound_same (s s' : state) :
  all_inbound s → s_nb s' = s_nb s → s_conns s' = s_conns s → all_inbound s'.
Proof. intros H Hn Hs c cn. rewrite Hn, Hs. apply H. Qed.

Lemma step_inbound (l : label) (s s' : state) :
  length (s_blocks s) = s_nb s → all_inbound s → step l s = Next s' → all_inbound s'.
Proof.
  intros Hlen H Hstep. pose proof (step_nb _ _ _ Hstep) as Hn.
  destruct l as [b status|errno| |c|c|order|c choice|c ev]; simpl in Hstep.
  - unfold kernel_step in Hstep. case_match; simplify_eq. by apply (all_inbound_same s).
  - unfold getNewBlocks_step in Hstep. repeat (case_match; simplify_eq/=);
      by apply (all_inbound_same s).
  - unfold run_step in Hstep. repeat (case_match; simplify_eq/=);
      repeat match goal with
      | H : dec_block _ _ = Some _ |- _ => apply dec_block_inv in H as (? & _ & -> & _)
      end; simplify_eq/=;
      try (by apply (all_inbound_same s));
      match goal with H : s_conns s !! ?c = Some ?cn |- _ =>
        eapply (all_inbound_set s _ c); [done|done|reflexivity|] end;
      match goal with Hc : s_conns s !! _ = Some _ |- _ => exact (H _ _ Hc) end.
  - unfold run_accept in Hstep. destruct (s_run s); try done.
    destruct (s_conns s !! c); [done|]. injection Hstep as <-.
    eapply (all_inbound_set s _ c); [done|done|reflexivity|]. rewrite Hlen.
    split; [apply chan_typed_make|done].
  - unfold run_old in Hstep. destruct (s_run s); try done.
    destruct (s_conns s !! c) as [cn|] eqn:Hc; [|done]. destruct (c_pc cn); try done.
    injection Hstep as <-. eapply (all_inbound_set s _ c); [done|done|reflexivity|].
    exact (H _ _ Hc).
  - unfold run_new in Hstep. repeat (case_match; simplify_eq/=); by apply (all_inbound_same s).
  - destruct (s_conns s !! c) as [cn|] eqn:Hc; [|done].
    apply conn_step_inbound in Hstep as (cn' & Hs & Hin); [|by apply (H c)].
    by eapply all_inbound_set.
  - destruct (s_conns s !! c) as [cn|] eqn:Hc; [|done].
    apply read_step_inbound in Hstep as (cn' & Hs & Hin); [|by apply (H c)].
    by eapply all_inbound_set.
Qed.

Lemma reachable_inbound (n : nat) (s : state) :
  0 < n → reachable n s → all_inbound s.
Proof.
  intros Hn. induction 1 as [|s l s' Hr IH Hb Hstep]; [by intros c cn ?|].
  eapply step_inbound; [by eapply reachable_inv|done|done].
Qed.

(** ** Well-typed states *)

(** The block conn.run stands at. *)
Definition conn_pc_typed (nb : nat) (pc : cpc) : Prop :=
  match pc with CBatch b _ | CUnref b _ => b < nb | _ => True end.

Definition run_pc_typed (s : state) : Prop :=
  match s_run s with
  | RClose c => is_Some (s_conns s !! c)
  | RFan b todo => b < s_nb s ∧ ∀ c, c ∈ todo → is_Some (s_conns s !! c)
  | RSend b c todo => b < s_nb s ∧ ∀ c', c' ∈ c :: todo → is_Some (s_conns s !! c')
  | RUnref b _ => b < s_nb s
  | _ => True
  end.

Record conn_typed (nb : nat) (cn : conn) : Prop := {
  ty_new : chan_typed nb (λ b, b < nb) (c_new cn);
  ty_old : chan_typed nb (index_ok nb) (c_old cn);
  ty_out : length (c_out cn) = nb;
  ty_pc : conn_pc_typed nb (c_pc cn);
  ty_rd : reader_typed nb (c_rd cn);
}.

Record well_typed (nb : nat) (s : state) : Prop := {
  ty_nb : s_nb s = nb;
  ty_blocks : length (s_blocks s) = nb;
  ty_refs : Forall (λ bl, 0 <= b_r bl < 2 ^ 31)%Z (s_blocks s);
  ty_snew : chan_typed nb (λ b, b < nb) (s_new s);
  ty_gi : s_gi s < nb;
  ty_run : run_pc_typed s;
  ty_cur c : c ∈ s_cur s → is_Some (s_conns s !! c);
  ty_conns c cn : s_conns s !! c = Some cn → conn_typed nb cn;
}.

Lemma held_pc_typed (nb : nat) (st : stage) (cn : conn) :
  conn_wf nb st cn → conn_pc_typed nb (c_pc cn).
Proof.
  intros HW. assert (∀ b, pc_held (c_pc cn) b = 1 → b < nb) as H.
  { intros b Hb. apply (held_lt nb st cn b HW). unfold conn_held, taken. lia. }
  destruct (c_pc cn) as [|b out| | |b k| | | | | | |] eqn:E; try done;
    simpl in H; apply H; by rewrite is_at_eq.
Qed.

Lemma queue_typed (nb : nat) (ch : chan nat) :
  ch_cap ch = nb → (∀ i, occ i (ch_buf ch) ≤ 1) → (∀ i, nb ≤ i → occ i (ch_buf ch) = 0) →
  chan_typed nb (λ b, b < nb) ch.
Proof.
  intros Hc H1 Hr. split; [done|by apply occ_length|]. apply Forall_lookup. intros k b Hk.
  destruct (decide (b < nb)) as [|Hge]; [done|]. specialize (Hr b ltac:(lia)).
  assert (0 < occ b (ch_buf ch)); [|lia]. apply occ_elem. by eapply list_elem_of_lookup_2.
Qed.

Lemma inv_conn_typed (s : state) (c : nat) (cn : conn) :
  Inv s → all_inbound s → s_conns s !! c = Some cn → conn_typed (s_nb s) cn.
Proof.
  intros HI Hin Hc. pose proof (i_conn _ HI _ _ Hc) as HW. destruct (Hin c cn Hc) as [Ho Hrd].
  split; [|done|apply HW|by eapply held_pc_typed|done].
  apply queue_typed; [apply HW|..]; intros i.
  - pose proof (cw_one _ _ _ HW i). unfold conn_held in *. lia.
  - intros Hi. pose proof (cw_range _ _ _ HW i Hi). unfold conn_held in *. lia.
Qed.

Lemma inv_run_typed (s : state) : Inv s → run_pc_typed s.
Proof.
  intros HI. pose proof (i_run _ HI) as Hr. unfold run_ok, run_pc_typed in *.
  assert (∀ b, run_own (s_run s) b = 1 → b < s_nb s) as Hlt.
  { intros b Hb. destruct (decide (b < s_nb s)) as [|Hge]; [done|].
    pose proof (i_range _ HI b ltac:(lia)). lia. }
  destruct (s_run s) as [|c|b todo|b c todo|b k|b k] eqn:E; simpl in *; try done.
  - by apply HI.
  - destruct Hr as [_ Hr]. split; [apply Hlt; by rewrite is_at_eq|].
    intros c Hc. apply HI. by apply Hr.
  - destruct Hr as [_ Hr]. split; [apply Hlt; by rewrite is_at_eq|].
    intros c' Hc. apply HI. by apply Hr.
  - apply Hlt. by rewrite is_at_eq.
Qed.

(** C23: every reachable state is well typed: reference counts are between 0 and the
    largest int32, every block number in a queue, at a program counter or in
    outstanding is one of the ring, every queue is within its capacity, oldBlocks
    carries only numbers between 1 and NumBlocks, so 0 means closed and nothing
    else, and the reader asks for values of 1 to 65535 bytes. *)
Theorem reachable_well_typed (n : nat) (s : state) :
  0 < n → reachable n s → conn_bound s → well_typed n s.
Proof.
  intros Hn Hr Hb. assert (Inv s) as HI by (by eapply reachable_inv).
  pose proof (reachable_inbound n s Hn Hr) as Hin.
  rewrite <- (reachable_nb n s Hr). split.
  - done.
  - apply HI.
  - apply Forall_lookup. intros i bl Hi. rewrite (i_ref _ HI _ _ Hi).
    pose proof (holders_bound s HI i). unfold conn_bound in Hb. lia.
  - apply queue_typed; [apply HI|..]; intros i.
    + pose proof (i_one _ HI i). unfold queued in *. lia.
    + intros Hi. pose proof (i_range _ HI i Hi). unfold queued in *. lia.
  - apply HI.
  - by apply inv_run_typed.
  - apply HI.
  - intros c cn Hc. by eapply inv_conn_typed.
Qed.

Lemma reachable_well_typed_witness :
  well_typed 2 (demo_state (demo_deliver ++ demo_write ++ demo_return)).
Proof. apply reachable_well_typed; [lia|apply demo_reachable; by vm_compute|by vm_compute]. Defined.
