(* ===== verification/Shutdown.v ===== *)
(** * Shutting down a connection

    From every reachable state in which a client goes away, conn.run, handleReads and
    run can take the connection to its end on their own: no goroutine of the
    shutdown waits for something that cannot come.  The schedule is built one step
    at a time against a rank that decreases, so the rank is also a proof that the
    code's shutdown sequence makes progress at every point. *)

From stdpp Require Import base list numbers option gmap.
From Stdlib Require Import ZArith Lia.
From S2P Require Import Prelude Bytes Protocol Chan Block Socket SocketInv SocketSafety.

Local Open Scope nat_scope.

(** ** The rank *)

(** How far conn.run has got. *)
Definition phase_rank (pc : cpc) : nat :=
  match pc with
  | CSelect | CBatch _ _ | CInner _ | CWrite _ | CUnref _ KSelect | CClear _ KSelect => 6
  | CClose => 5
  | CSendOld => 4
  | CDrainNew | CUnref _ KDrain | CClear _ KDrain => 3
  | CDrainOld => 2
  | CFinal _ | CUnref _ (KFinal _) | CClear _ (KFinal _) => 1
  | CDone => 0
  end.

(** The steps of run until its next select. *)
Definition kont_rank (k : skont) : nat :=
  match k with KFan todo => 3 + 2 * length todo | KRun => 0 end.

Definition run_rank (pc : spc) : nat :=
  match pc with
  | RSelect => 0
  | RClose _ => 1
  | RFan _ todo => 3 + 2 * length todo
  | RSend _ _ todo => 4 + 2 * length todo
  | RUnref _ k => 2 + kont_rank k
  | RClear _ k => 1 + kont_rank k
  end.

(** The steps within a phase: blocks to take, returned indexes to take, the reader,
    the program counter. *)
Definition reader_rank (rd : hpc) : nat :=
  match rd with HDone => 0 | HClose => 1 | HRead | HVal _ _ => 2 | HSend _ => 8 end.

Definition pc_rank (nb : nat) (pc : cpc) : nat :=
  match pc with
  | CBatch _ _ => 3 | CInner _ => 2 | CWrite _ => 1
  | CUnref _ (KFinal i) => 2 + 4 * (S nb - i) | CUnref _ _ => 2
  | CClear _ (KFinal i) => 1 + 4 * (S nb - i) | CClear _ _ => 1
  | CFinal i => 4 * (S nb - i)
  | _ => 0
  end.

Definition work_rank (nb : nat) (cn : conn) : nat :=
  10 * length (ch_buf (c_new cn)) + 5 * length (ch_buf (c_old cn)) +
  reader_rank (c_rd cn) + pc_rank nb (c_pc cn).

(** [s'] is nearer to the end of the connection than [s]. *)
Definition nearer (s s' : state) (cn cn' : conn) : Prop :=
  phase_rank (c_pc cn') < phase_rank (c_pc cn) ∨
  phase_rank (c_pc cn') = phase_rank (c_pc cn) ∧
    (run_rank (s_run s') < run_rank (s_run s) ∨
     run_rank (s_run s') = run_rank (s_run s) ∧
       work_rank (s_nb s') cn' < work_rank (s_nb s) cn).

(** The steps of a connection whose client is gone: reads return an error, writes
    fail.  Nothing of other connections, of getNewBlocks or of the kernel. *)
Inductive goodbye (c : nat) : label → Prop :=
  | goodbye_run : goodbye c LRun
  | goodbye_old : goodbye c (LOld c)
  | goodbye_conn choice : choice ≠ WriteOk → goodbye c (LConn c choice)
  | goodbye_read : goodbye c (LRead c (RdErr [])).

(** ** run reaches its select *)
Section progress.
Context (s : state) (HI : Inv s) (Hb : conn_bound s).

(** An unref by a holder goes through. *)
Lemma dec_progress (b : nat) :
  0 < holders s b →
  ∃ bl, dec_block b s = Some (upd_block (λ bl, (unref_dec bl).1) b s,
                              unref_after (unref_dec bl).2) ∧
    ∀ refs, unref_after (unref_dec bl).2 ≠ UnrefPanic refs.
Proof.
  intros Hpos. destruct (dec_no_crash s b HI Hb Hpos) as (s' & n & Hd & Hn).
  pose proof Hd as Hd'. apply dec_block_inv in Hd' as (bl & Hbl & -> & ->).
  exists bl. done.
Qed.

Definition same_pcs (s' : state) : Prop :=
  ∀ c cn, s_conns s !! c = Some cn → ∃ cn', s_conns s' !! c = Some cn' ∧ c_pc cn' = c_pc cn.

Lemma same_pcs_set (s' : state) (c : nat) (cn cn' : conn) :
  s_conns s !! c = Some cn → s_conns s' = <[c := cn']> (s_conns s) → c_pc cn' = c_pc cn →
  same_pcs s'.
Proof.
  intros Hc Hs Hpc c0 cn0 H0. rewrite Hs. destruct (decide (c0 = c)) as [->|Hne].
  - rewrite lookup_insert_eq. eexists. split; [done|]. congruence.
  - rewrite lookup_insert_ne by done. eauto.
Qed.

Lemma run_progress :
  s_run s ≠ RSelect →
  ∃ s', step LRun s = Next s' ∧ run_rank (s_run s') < run_rank (s_run s) ∧ same_pcs s'.
Proof.
  intros Hsel. pose proof (i_run _ HI) as Hr. unfold run_ok in Hr. simpl. unfold run_step.
  assert (∀ s', s_conns s' = s_conns s → same_pcs s') as Hsame
    by (intros s' E c cn Hc; rewrite E; eauto).
  destruct (s_run s) as [|c|b todo|b c todo|b k|b k] eqn:Hpc; [done|..].
  - destruct (i_dom _ HI c Hr) as [cn Hc]. rewrite Hc.
    pose proof (cw_stage _ _ _ (i_conn _ HI _ _ Hc)) as Hst. unfold stage_of, closing in Hst.
    rewrite Hpc, decide_True, bool_decide_true in Hst by done. destruct Hst as [Hop _].
    unfold chan_close. rewrite Hop. eexists. split; [done|]. split; [simpl; lia|].
    eapply same_pcs_set; [exact Hc|reflexivity|done].
  - destruct todo as [|c todo]; (eexists; split; [done|]); simpl; split; try lia; by apply Hsame.
  - destruct (run_send_sent s b c todo HI Hpc) as (cn & ch & Hc & Hs). rewrite Hc, Hs.
    eexists. split; [done|]. split; [simpl; lia|]. eapply same_pcs_set; [exact Hc|reflexivity|done].
  - destruct k as [todo|]; [done|].
    destruct (dec_progress b) as (bl & -> & Hn).
    { unfold holders. rewrite Hpc. simpl. rewrite is_at_eq by done. lia. }
    destruct (unref_after _) eqn:E; [|by destruct (Hn refs)|];
      (eexists; split; [done|]; simpl; split; [lia|by apply Hsame]).
  - eexists. split; [done|]. simpl. split; [destruct k; simpl; lia|by apply Hsame].
Qed.
End progress.

(** ** A connection without its client comes nearer to its end *)
Section conn_progress.
Context (s : state) (HI : Inv s) (Hb : conn_bound s).
Context (c : nat) (cn : conn) (Hc : s_conns s !! c = Some cn).

Definition advances : Prop :=
  ∃ l s' cn', goodbye c l ∧ step l s = Next s' ∧ s_conns s' !! c = Some cn' ∧ nearer s s' cn cn'.

(** A step of conn.run or of its reader. *)
Lemma advance_set (l : label) (s1 : state) (cn' : conn) :
  goodbye c l → step l s = Next (set_conn c cn' s1) → s_run s1 = s_run s → s_nb s1 = s_nb s →
  phase_rank (c_pc cn') < phase_rank (c_pc cn) ∨
  phase_rank (c_pc cn') = phase_rank (c_pc cn) ∧ work_rank (s_nb s) cn' < work_rank (s_nb s) cn →
  advances.
Proof.
  intros Hg Hs Hr Hn Hrank. exists l, (set_conn c cn' s1), cn'. split_and!; [done..| |].
  - apply lookup_insert_eq.
  - unfold nearer. cbn [set_conn s_run s_nb]. rewrite Hr, Hn. destruct Hrank as [?|[? ?]]; auto.
Qed.

Lemma advance_conn (choice : conn_choice) (s1 : state) (cn' : conn) :
  choice ≠ WriteOk → conn_step c cn choice s = Next (set_conn c cn' s1) →
  s_run s1 = s_run s → s_nb s1 = s_nb s →
  phase_rank (c_pc cn') < phase_rank (c_pc cn) ∨
  phase_rank (c_pc cn') = phase_rank (c_pc cn) ∧ work_rank (s_nb s) cn' < work_rank (s_nb s) cn →
  advances.
Proof.
  intros Hch Hs. apply (advance_set (LConn c choice)); [by constructor|]. simpl. by rewrite Hc.
Qed.

(** The reader ends, or hands over an index it has, while there is room for it. *)
Lemma advance_reader :
  ch_closed (c_old cn) = false → ch_buf (c_old cn) = [] → advances.
Proof.
  intros Hop Hbuf. pose proof (i_conn _ HI _ _ Hc) as HW.
  destruct (cw_reader _ _ _ HW) as [_ Hrd].
  assert (∃ cn', step (LRead c (RdErr [])) s = Next (set_conn c cn' s) ∧ c_pc cn' = c_pc cn ∧
                 work_rank (s_nb s) cn' < work_rank (s_nb s) cn) as (cn' & Hs & Hpc & Hw).
  { simpl. rewrite Hc. unfold read_step, work_rank. destruct (c_rd cn) as [|typ len|v| |] eqn:E.
    - eexists. split; [done|]. split; [done|]. simpl. lia.
    - eexists. split; [done|]. split; [done|]. simpl. lia.
    - rewrite chan_send_room; [|done|].
      + eexists. split; [done|]. split; [done|]. simpl. rewrite Hbuf. simpl. lia.
      + rewrite Hbuf, (cw_oldcap _ _ _ HW). apply HI.
    - unfold chan_close. rewrite Hop. eexists. split; [done|]. split; [done|]. simpl. lia.
    - congruence. }
  apply (advance_set _ s cn' (goodbye_read c) Hs); [done..|]. right. by rewrite Hpc.
Qed.

Lemma held_in_hand (b : nat) (k : ckont) : c_pc cn = CUnref b k → 0 < holders s b.
Proof.
  intros Hpc. pose proof (conn_held_holders s c cn b Hc) as H.
  unfold conn_held, taken in H. rewrite Hpc in H. simpl in H. rewrite is_at_eq in H by done. lia.
Qed.

(** Giving up a block and clearing it. *)
Lemma advance_unref (b : nat) (k : ckont) : c_pc cn = CUnref b k → advances.
Proof.
  intros Hpc. destruct (dec_progress s HI Hb b (held_in_hand b k Hpc)) as (bl & Hd & Hn).
  assert (∀ pc, conn_step c cn Tau s =
      Next (set_conn c (log_put b (set_pc pc cn)) (upd_block (λ bl, (unref_dec bl).1) b s)) →
    phase_rank pc = phase_rank (CUnref b k) → pc_rank (s_nb s) pc < pc_rank (s_nb s) (CUnref b k) →
    advances) as Hadv.
  { intros pc Hs Hph Hlt. apply (advance_conn Tau _ _ ltac:(done) Hs); [done..|].
    right. unfold work_rank. simpl in *. rewrite Hpc. split; [done|]. simpl. lia. }
  unfold conn_step in Hadv. rewrite Hpc, Hd in Hadv.
  destruct (unref_after _) eqn:E; [|by destruct (Hn refs)|];
    (eapply Hadv; [done|destruct k; done|destruct k; simpl; lia]).
Qed.

Lemma advance_clear (b : nat) (k : ckont) : c_pc cn = CClear b k → advances.
Proof.
  intros Hpc. apply (advance_conn Tau (upd_block clear b s) (set_pc (conn_resume k) cn));
    [done| |done|done|].
  - unfold conn_step. by rewrite Hpc.
  - right. unfold work_rank. simpl. rewrite Hpc. destruct k; simpl; (split; [done|lia]).
Qed.

(** The select of conn.run. *)
Lemma advance_select : c_pc cn = CSelect → advances.
Proof.
  intros Hpc. pose proof (i_conn _ HI _ _ Hc) as HW. pose proof (conn_no_crash s c cn) as Hno.
  destruct (serving_open _ _ _ HW) as [_ Hop]; [by rewrite Hpc|].
  destruct (ch_buf (c_new cn)) as [|b l] eqn:Hbuf.
  - destruct (ch_buf (c_old cn)) as [|v l] eqn:Hold.
    + destruct (ch_closed (c_old cn)) eqn:Hcl; [|by apply advance_reader].
      apply (advance_conn PickOld s (set_pc CClose cn)); [done| |done|done|].
      * unfold conn_step, chan_recv. by rewrite Hpc, Hold, Hcl.
      * left. rewrite Hpc. simpl. lia.
    + specialize (Hno PickOld PanicIndex HI Hb Hc). unfold conn_step, chan_recv in Hno.
      rewrite Hpc, Hold in Hno. set (cn1 := set_old _ cn) in Hno.
      assert (∀ cn', conn_step c cn PickOld s = Next (set_conn c cn' s) →
        phase_rank (c_pc cn') < 6 ∨ phase_rank (c_pc cn') = 6 ∧
          work_rank (s_nb s) cn' < work_rank (s_nb s) cn → advances) as Hadv
        by (intros cn' H1 H2; apply (advance_conn PickOld s cn'); try done; by rewrite Hpc).
      unfold conn_step, chan_recv in Hadv. rewrite Hpc, Hold in Hadv. fold cn1 in Hadv.
      destruct (v =? 0)%Z; [eapply Hadv; [done|]; left; simpl; lia|].
      destruct (c_out cn1 !! Z.to_nat (v - 1)) as [[]|] eqn:Ho; [| |done].
      * eapply Hadv; [done|]. right. split; [done|]. unfold work_rank. simpl.
         rewrite Hold, Hpc. simpl. lia.
      * eapply Hadv; [done|]. left. simpl. lia.
  - apply (advance_conn PickNew s (take_new (Chan l (ch_cap (c_new cn)) (ch_closed (c_new cn))) b
      (CBatch b []) cn)); [done| |done|done|].
    + unfold conn_step, chan_recv. by rewrite Hpc, Hbuf.
    + right. rewrite Hpc. split; [done|]. unfold work_rank. simpl. rewrite Hbuf, Hpc. simpl. lia.
Qed.

(** The loop of conn.run. *)
Lemma advance_serving : phase_rank (c_pc cn) = 6 → advances.
Proof.
  intros Hph. pose proof (i_conn _ HI _ _ Hc) as HW. pose proof (conn_no_crash s c cn) as Hno.
  destruct (c_pc cn) as [|b out|out|out|b k|b k| | | | | |] eqn:Hpc; try done.
  - by apply advance_select.
  - pose proof (Hno Tau PanicIndex HI Hb Hc) as H1.
    pose proof (Hno Tau (FatalOutstanding c b) HI Hb Hc) as H2.
    unfold conn_step in H1, H2. rewrite Hpc in H1, H2.
    destruct (c_out cn !! b) as [[]|] eqn:Ho; [done| |done].
    eapply (advance_conn Tau s); [done|unfold conn_step; by rewrite Hpc, Ho|done|done|].
    right. rewrite Hpc. split; [done|]. unfold work_rank. simpl. rewrite Hpc. simpl. lia.
  - destruct (serving_open _ _ _ HW) as [_ Hop]; [by rewrite Hpc|].
    destruct (ch_buf (c_new cn)) as [|b l] eqn:Hbuf.
    + apply (advance_conn Tau s (set_pc (CWrite out) cn)); [done| |done|done|].
      * unfold conn_step, chan_recv. by rewrite Hpc, Hbuf, Hop.
      * right. rewrite Hpc. split; [done|]. unfold work_rank. simpl. rewrite Hpc. simpl. lia.
    + apply (advance_conn Tau s (take_new (Chan l (ch_cap (c_new cn)) (ch_closed (c_new cn))) b
        (CBatch b out) cn)); [done| |done|done|].
      * unfold conn_step, chan_recv. by rewrite Hpc, Hbuf.
      * right. rewrite Hpc. split; [done|]. unfold work_rank. simpl. rewrite Hbuf, Hpc. simpl. lia.
  - apply (advance_conn (WriteErr 0) s (set_pc CClose (log_wire (take 0 out) cn)));
      [done| |done|done|].
    + unfold conn_step. by rewrite Hpc.
    + left. rewrite Hpc. simpl. lia.
  - by eapply advance_unref.
  - by eapply advance_clear.
Qed.

(** With run at its select, a connection that drains newBlocks finds it closed. *)
Lemma draining_closed : s_run s = RSelect → phase_rank (c_pc cn) = 3 → ch_closed (c_new cn) = true.
Proof.
  intros Hr Hph. pose proof (cw_stage _ _ _ (i_conn _ HI _ _ Hc)) as Hst.
  unfold stage_of, closing in Hst. rewrite Hr in Hst. case_decide; simpl in Hst; [|by destruct Hst].
  destruct Hst as [_ Hst]. by destruct (c_pc cn) as [| | | |? []|? []| | | | | |].
Qed.

(** Taking leave of run needs run at its select. *)
Lemma advance_run : s_run s ≠ RSelect → advances.
Proof.
  intros Hr. destruct (run_progress s HI Hb Hr) as (s' & Hs & Hlt & Hsame).
  destruct (Hsame c cn Hc) as (cn' & Hc' & Hpc). exists LRun, s', cn'.
  split_and!; [constructor|done|done|]. right. rewrite Hpc. auto.
Qed.

Lemma advance_leaving :
  s_run s = RSelect → 3 ≤ phase_rank (c_pc cn) ≤ 4 → advances.
Proof.
  intros Hr Hph. destruct (c_pc cn) as [| | | |b [| |i]|b [| |i]| | | | | |] eqn:Hpc; simpl in Hph; try lia.
  - by eapply advance_unref.
  - by eapply advance_clear.
  - exists (LOld c), (set_run (RClose c) (set_conn c (set_pc CDrainNew cn) s)), (set_pc CDrainNew cn).
    split_and!; [constructor|simpl; unfold run_old; by rewrite Hr, Hc, Hpc|apply lookup_insert_eq|].
    left. rewrite Hpc. simpl. lia.
  - pose proof (draining_closed Hr) as Hcl. rewrite Hpc in Hcl. specialize (Hcl eq_refl).
    destruct (ch_buf (c_new cn)) as [|b l] eqn:Hbuf.
    + apply (advance_conn Tau s (set_pc CDrainOld cn)); [done| |done|done|].
      * unfold conn_step, chan_recv. by rewrite Hpc, Hbuf, Hcl.
      * left. rewrite Hpc. simpl. lia.
    + apply (advance_conn Tau s (take_new (Chan l (ch_cap (c_new cn)) (ch_closed (c_new cn))) b
        (CUnref b KDrain) cn)); [done| |done|done|].
      * unfold conn_step, chan_recv. by rewrite Hpc, Hbuf.
      * right. rewrite Hpc. split; [done|]. unfold work_rank. simpl. rewrite Hbuf, Hpc. simpl. lia.
Qed.

(** The last two loops. *)
Lemma advance_finishing : 1 ≤ phase_rank (c_pc cn) ≤ 2 → advances.
Proof.
  intros Hph. pose proof (i_conn _ HI _ _ Hc) as HW.
  destruct (c_pc cn) as [| | | |b [| |i]|b [| |i]| | | |i| |] eqn:Hpc; simpl in Hph; try lia.
  - by eapply advance_unref.
  - by eapply advance_clear.
  - destruct (ch_buf (c_old cn)) as [|v l] eqn:Hold.
    + destruct (ch_closed (c_old cn)) eqn:Hcl; [|by apply advance_reader].
      apply (advance_conn Tau s (set_pc (CFinal 0) cn)); [done| |done|done|].
      * unfold conn_step, chan_recv. by rewrite Hpc, Hold, Hcl.
      * left. rewrite Hpc. simpl. lia.
    + eapply (advance_conn Tau s); [done|unfold conn_step, chan_recv; by rewrite Hpc, Hold|done|done|].
      right. rewrite Hpc. simpl. rewrite Hpc. split; [done|]. unfold work_rank. simpl.
      rewrite Hold, Hpc. simpl. lia.
  - pose proof (cw_out _ _ _ HW) as Hlen. destruct (c_out cn !! i) as [[]|] eqn:Ho.
    + apply lookup_lt_Some in Ho as Hlt. eapply (advance_conn Tau s);
        [done|unfold conn_step; by rewrite Hpc, Ho|done|done|].
      right. rewrite Hpc. split; [done|]. unfold work_rank. simpl. rewrite Hpc. simpl. lia.
    + apply lookup_lt_Some in Ho as Hlt. eapply (advance_conn Tau s);
        [done|unfold conn_step; by rewrite Hpc, Ho|done|done|].
      right. rewrite Hpc. split; [done|]. unfold work_rank. simpl. rewrite Hpc. simpl. lia.
    + eapply (advance_conn Tau s); [done|unfold conn_step; by rewrite Hpc, Ho|done|done|].
      left. rewrite Hpc. simpl. lia.
Qed.

(** Until it has ended, a connection without its client can always move on. *)
Lemma conn_advances : c_pc cn ≠ CDone → advances.
Proof.
  intros Hd. assert (phase_rank (c_pc cn) ≤ 6 ∧ phase_rank (c_pc cn) ≠ 0) as [H6 H0].
  { by destruct (c_pc cn) as [| | | |? []|? []| | | | | |]; simpl; (split; [lia|]). }
  destruct (decide (phase_rank (c_pc cn) = 6)); [by apply advance_serving|].
  destruct (decide (phase_rank (c_pc cn) = 5)) as [H5|].
  { destruct (c_pc cn) as [| | | |? []|? []| | | | | |] eqn:Hpc; try done.
    apply (advance_conn Tau s (set_pc CSendOld (set_shut cn))); [done| |done|done|].
    - unfold conn_step. by rewrite Hpc.
    - left. rewrite Hpc. simpl. lia. }
  destruct (decide (phase_rank (c_pc cn) ≤ 2)); [apply advance_finishing; lia|].
  destruct (decide (run_rank (s_run s) = 0)) as [Hr|Hr].
  - apply advance_leaving; [by destruct (s_run s) as [| | | |? []|? []]|lia].
  - apply advance_run. intros E. by rewrite E in Hr.
Qed.
End conn_progress.

(** ** The whole shutdown *)
Lemma goodbye_bound (c : nat) (l : label) (s s' : state) :
  goodbye c l → step l s = Next s' → conn_bound s → conn_bound s'.
Proof. intros Hg Hs. apply (step_bound s s' l Hs). intros c'. by destruct Hg. Qed.

(** A schedule of such steps. *)
Definition leads (c : nat) (s s' : state) : Prop :=
  ∃ ls, Forall (goodbye c) ls ∧ run_schedule ls s = Some s'.

Lemma leads_cons (c : nat) (l : label) (s s1 s' : state) :
  goodbye c l → step l s = Next s1 → leads c s1 s' → leads c s s'.
Proof.
  intros Hg Hs (ls & Hls & Hr). exists (l :: ls). split; [by constructor|]. simpl. by rewrite Hs.
Qed.

Lemma leads_done (p r w : nat) (c : nat) (s : state) (cn : conn) :
  Inv s → conn_bound s → s_conns s !! c = Some cn →
  phase_rank (c_pc cn) = p → run_rank (s_run s) = r → work_rank (s_nb s) cn = w →
  ∃ s' cn', leads c s s' ∧ s_conns s' !! c = Some cn' ∧ c_pc cn' = CDone.
Proof.
  revert r w s cn. induction (lt_wf p) as [p _ IHp]. intros r.
  induction (lt_wf r) as [r _ IHr]. intros w. induction (lt_wf w) as [w _ IHw].
  intros s cn HI Hb Hc Hp Hr Hw. destruct (decide (phase_rank (c_pc cn) = 0)) as [H0|H0].
  { exists s, cn. split_and!; [by exists []|done|].
    by destruct (c_pc cn) as [| | | |? []|? []| | | | | |]. }
  destruct (conn_advances s HI Hb c cn Hc) as (l & s1 & cn1 & Hg & Hs & Hc1 & Hn);
    [by intros E; rewrite E in H0|].
  assert (Inv s1) as HI1 by (by eapply inv_step).
  assert (conn_bound s1) as Hb1 by (by eapply goodbye_bound).
  assert (∃ s' cn', leads c s1 s' ∧ s_conns s' !! c = Some cn' ∧ c_pc cn' = CDone)
    as (s' & cn' & Hl & ? & ?); [|exists s', cn'; eauto using leads_cons].
  subst p r w. destruct Hn as [Hlt|[Hp' [Hlt|[Hr' Hlt]]]].
  - by eapply (IHp _ Hlt).
  - by eapply (IHr _ Hlt).
  - by eapply (IHw _ Hlt).
Qed.

Lemma goodbye_bounded (c : nat) (ls : list label) (s : state) :
  Forall (goodbye c) ls → conn_bound s → bounded ls s = true.
Proof.
  intros Hls. revert s. induction Hls as [|l ls Hg _ IH]; intros s Hb; simpl;
    rewrite bool_decide_true by done; [done|]. simpl.
  destruct (step l s) as [|s1|] eqn:E; try done. apply IH. by eapply goodbye_bound.
Qed.

(** A client that goes away never leaves its connection hanging: from every
    reachable state, wherever conn.run and handleReads stand and whatever their
    channels hold, run, conn.run and handleReads alone, with every read and write
    failing, take the connection to its end, where it holds no block and every
    block sent to it was given up exactly once. *)
Theorem connection_can_close (n : nat) (s : state) (c : nat) (cn : conn) :
  0 < n → reachable n s → conn_bound s → s_conns s !! c = Some cn →
  ∃ s' cn', leads c s s' ∧ s_conns s' !! c = Some cn' ∧ c_pc cn' = CDone ∧
    l_put (c_log cn') ≡ₚ l_sent (c_log cn') ∧ ∀ i, conn_held cn' i = 0.
Proof.
  intros Hn Hr Hb Hc. assert (Inv s) as HI by (by eapply reachable_inv).
  destruct (leads_done _ _ _ c s cn HI Hb Hc eq_refl eq_refl eq_refl) as (s' & cn' & Hl & Hc' & Hpc).
  exists s', cn'. split_and!; [done..| |]; destruct Hl as (ls & Hls & Hrun).
  all: destruct (reachable_schedule n ls s s' Hr (goodbye_bounded c ls s Hls Hb) Hrun) as [Hr' _].
  all: by apply (conn_ended n s' c cn').
Qed.

Lemma connection_can_close_witness :
  ∃ s' cn', leads 7 (demo_state (demo_deliver ++ take 4 demo_write)) s' ∧
    s_conns s' !! 7 = Some cn' ∧ c_pc cn' = CDone.
Proof.
  destruct (s_conns (demo_state (demo_deliver ++ take 4 demo_write)) !! 7) as [cn|] eqn:E;
    [|by vm_compute in E].
  destruct (connection_can_close 2 (demo_state (demo_deliver ++ take 4 demo_write)) 7 cn)
    as (s' & cn' & H1 & H2 & H3 & _); [lia|apply demo_reachable; by vm_compute|by vm_compute|done|].
  by exists s', cn'.
Defined.
