(* ===== verification/SocketExcl.v ===== *)
(** * Who owns a block's memory: the daemon or the kernel

    A block with status 0 belongs to the kernel, which may overwrite it.  The
    daemon must not let a client see such a block.  [unref] decrements the count
    and resets the status in two steps, and [ready] reads the count and the
    status in two steps, without a lock.

    This file shows both sides.  If getNewBlocks never reads the status of a
    block between another goroutine's decrement to zero and its reset
    ([reachable_quiet]), no held block ever belongs to the kernel, and its
    contents cannot change while it is held.  Without that proviso there is a
    schedule in which a client is given a block that the kernel then fills. *)

From stdpp Require Import base list numbers option gmap.
From Stdlib Require Import ZArith Lia.
From S2P Require Import Prelude Bytes Protocol Chan Block Socket SocketInv SocketSafety.

Local Open Scope nat_scope.

(** Some goroutine has brought the count of block [i] to zero and not reset its
    status yet. *)
Definition pending (s : state) (i : nat) : Prop :=
  run_clearing (s_run s) = Some i ∨
  ∃ c cn, s_conns s !! c = Some cn ∧ clearing (c_pc cn) = Some i.

(** getNewBlocks does not read a status inside such a window. *)
Definition quiet (l : label) (s : state) : Prop :=
  match l with LG _ => s_g s = GLoadStatus → ¬ pending s (s_gi s) | _ => True end.

Inductive reachable_quiet (n : nat) : state → Prop :=
  | quiet_init : reachable_quiet n (newSocket_state n)
  | quiet_step s l s' :
      reachable_quiet n s → conn_bound s → quiet l s → step l s = Next s' → reachable_quiet n s'.

Lemma quiet_reachable (n : nat) (s : state) : reachable_quiet n s → reachable n s.
Proof. induction 1; [constructor|by eapply reach_step]. Qed.

Record Excl (s : state) : Prop := {
  ex_held i bl : s_blocks s !! i = Some bl → 0 < holders s i → b_status bl ≠ 0%Z;
  ex_pend i : pending s i → holders s i = 0;
  ex_ref bl : s_g s = GRef → s_blocks s !! s_gi s = Some bl → b_status bl ≠ 0%Z;
  ex_refp : s_g s = GRef → ¬ pending s (s_gi s);
}.

(** No held block lost its nonzero status. *)
Definition status_kept (s s' : state) : Prop :=
  ∀ i bl', s_blocks s' !! i = Some bl' →
    ∃ bl, s_blocks s !! i = Some bl ∧ (b_status bl ≠ 0%Z → b_status bl' ≠ 0%Z).

Lemma status_kept_alter (s s' : state) (f : block → block) (b : nat) :
  s_blocks s' = alter f b (s_blocks s) → (∀ bl, b_status (f bl) = b_status bl) →
  status_kept s s'.
Proof.
  intros Hs Hf i bl'. rewrite Hs, list_lookup_alter. case_decide as Heq; subst.
  - destruct (s_blocks s !! i) as [bl|]; [|done]. intros [= <-]. exists bl.
    by rewrite Hf.
  - eauto.
Qed.

(** Steps that neither create holders out of nothing nor open a window. *)
Lemma excl_keep (s s' : state) :
  Excl s → s_g s' ≠ GRef ∨ s_g s = GRef ∧ s_gi s' = s_gi s →
  (∀ i, 0 < holders s' i → 0 < holders s i) → (∀ i, pending s' i → pending s i) →
  status_kept s s' → Excl s'.
Proof.
  intros HE Hg Hh Hp Hs. constructor.
  - intros i bl' Hbl' Hpos. destruct (Hs _ _ Hbl') as (bl & Hbl & Hk).
    apply Hk. apply (ex_held _ HE i); auto.
  - intros i Hi%Hp%(ex_pend _ HE). specialize (Hh i). lia.
  - intros bl' Hg' Hbl'. destruct (Hs _ _ Hbl') as (bl & Hbl & Hk). apply Hk.
    destruct Hg as [?|[Hg Hgi]]; [done|]. apply (ex_ref _ HE); [done|]. by rewrite <- Hgi.
  - intros Hg' Hi%Hp. destruct Hg as [?|[Hg Hgi]]; [done|]. rewrite Hgi in Hi.
    by apply (ex_refp _ HE).
Qed.

(** The decrement of an unref. *)
Lemma excl_dec (s s' : state) (b : nat) :
  Inv s → Excl s → s_g s' = s_g s → s_gi s' = s_gi s →
  s_blocks s' = alter (λ bl, (unref_dec bl).1) b (s_blocks s) →
  (∀ i, holders s' i + is_at b i = holders s i) →
  (∀ i, pending s' i → pending s i ∨ i = b ∧ holders s' b = 0) →
  Excl s'.
Proof.
  intros HI HE Hg Hgi Hs Hh Hp.
  assert (status_kept s s') as Hk by (by eapply status_kept_alter).
  constructor.
  - intros i bl' Hbl' Hpos. destruct (Hk _ _ Hbl') as (bl & Hbl & Hne). apply Hne.
    apply (ex_held _ HE i); [done|]. specialize (Hh i). lia.
  - intros i Hi. destruct (Hp i Hi) as [Hi'%(ex_pend _ HE)|[-> H0]]; [|done].
    specialize (Hh i). lia.
  - rewrite Hg, Hgi. intros bl' HgR Hbl'. destruct (Hk _ _ Hbl') as (bl & Hbl & Hne).
    apply Hne. by apply (ex_ref _ HE).
  - rewrite Hg, Hgi. intros HgR Hi. destruct (Hp _ Hi) as [Hi'|[Heq _]].
    + by apply (ex_refp _ HE).
    + pose proof (i_ready _ HI (or_intror HgR)) as H0. specialize (Hh (s_gi s)).
      rewrite is_at_eq in Hh by done. lia.
Qed.

(** The reset that ends a window. *)
Lemma excl_clear (s s' : state) (b : nat) :
  Excl s → s_g s' = s_g s → s_gi s' = s_gi s → s_blocks s' = alter clear b (s_blocks s) →
  (∀ i, holders s' i = holders s i) → pending s b → (∀ i, pending s' i → pending s i) →
  Excl s'.
Proof.
  intros HE Hg Hgi Hs Hh Hb Hp.
  assert (∀ i bl', i ≠ b → s_blocks s' !! i = Some bl' → s_blocks s !! i = Some bl') as Hne.
  { intros i bl' Hi. rewrite Hs, list_lookup_alter_ne by done. done. }
  constructor.
  - intros i bl' Hbl'. rewrite Hh. intros Hpos. destruct (decide (i = b)) as [->|].
    + pose proof (ex_pend _ HE b Hb). lia.
    + apply (ex_held _ HE i); auto.
  - intros i Hi%Hp. rewrite Hh. by apply (ex_pend _ HE).
  - rewrite Hg, Hgi. intros bl' HgR Hbl'. destruct (decide (s_gi s = b)) as [Heq|].
    + exfalso. apply (ex_refp _ HE HgR). by rewrite Heq.
    + apply (ex_ref _ HE); auto.
  - rewrite Hg, Hgi. intros HgR Hi%Hp. by apply (ex_refp _ HE).
Qed.

(** Windows of a state that differs in one connection. *)
Lemma pending_conn (s s' : state) (c : nat) (cn' : conn) (i : nat) :
  s_run s' = s_run s → s_conns s' = <[c := cn']> (s_conns s) →
  pending s' i → pending s i ∨ clearing (c_pc cn') = Some i.
Proof.
  intros Hr Hc [Hp|(c0 & cn0 & H0 & Hp)]; [left; left; by rewrite <- Hr|].
  rewrite Hc in H0. destruct (decide (c = c0)) as [<-|Hne].
  - rewrite lookup_insert_eq in H0. simplify_eq. by right.
  - rewrite lookup_insert_ne in H0 by done. left; right; eauto.
Qed.

(** Windows of a state that differs in run. *)
Lemma pending_run (s s' : state) (i : nat) :
  s_conns s' = s_conns s → pending s' i → pending s i ∨ run_clearing (s_run s') = Some i.
Proof. intros Hc [Hp|Hp]; [by right|]. left; right. by rewrite <- Hc. Qed.

(** ** Preservation *)

Lemma status_kept_refl (s s' : state) : s_blocks s' = s_blocks s → status_kept s s'.
Proof. intros Hs i bl. rewrite Hs. eauto. Qed.

(** A goroutine of a connection. *)
Lemma excl_conn_effect (s s' : state) (c : nat) (cn : conn) :
  Inv s → conn_bound s → Excl s → s_conns s !! c = Some cn →
  conn_effect (s_nb s) (stage_of s c) s c cn s' → Excl s'.
Proof.
  intros HI Hb HE Hc [cn' HW Hh Hcl Hcl'|b bl cn' HW Hh Hbl Hcl Hcl'|b cn' HW Hh Hcl Hcl'].
  - apply (excl_keep s); [done|..|by apply status_kept_refl].
    + simpl. destruct (s_g s); auto.
    + intros i. pose proof (holders_set_conn s c cn cn' i Hc). rewrite Hh in *. lia.
    + intros i Hi. eapply pending_conn in Hi as [Hi|Hi]; [done| |done..]. congruence.
  - assert (∀ i, holders (set_conn c cn' (upd_block (λ bl, (unref_dec bl).1) b s)) i
                 + is_at b i = holders s i) as Hh'.
    { intros i. pose proof (holders_set_conn s c cn cn' i Hc) as H. specialize (Hh i).
      change (holders (set_conn c cn' (upd_block _ b s)) i) with
        (holders (set_conn c cn' s) i). lia. }
    apply (excl_dec s _ b); try done. intros i Hi.
    eapply pending_conn in Hi as [Hi|Hi]; [by left| |done..]. right.
    rewrite Hcl' in Hi. destruct ((unref_dec bl).2 =? 0)%Z eqn:E0; simplify_eq.
    split; [done|]. specialize (Hh' i). rewrite is_at_eq in Hh' by done.
    rewrite (dec_value s i bl) in E0 by (done || lia). apply Z.eqb_eq in E0. lia.
  - apply (excl_clear s _ b); try done.
    + intros i. pose proof (holders_set_conn s c cn cn' i Hc). rewrite Hh in *.
      change (holders (set_conn c cn' (upd_block _ b s)) i) with
        (holders (set_conn c cn' s) i). lia.
    + right. eauto.
    + intros i Hi. eapply pending_conn in Hi as [Hi|Hi]; [done| |done..]. congruence.
Qed.

Lemma excl_kernel (s s' : state) (b : nat) (status : Z) :
  Excl s → kernel_step b status s = Next s' → Excl s'.
Proof.
  intros HE. unfold kernel_step.
  destruct (s_blocks s !! b) as [bl0|] eqn:E; simpl; [|done].
  unfold kernel_fill. destruct (b_status bl0 =? 0)%Z eqn:E0; [|done].
  destruct (Z.eqb_spec status 0) as [|Hne]; simpl; [done|]. intros [= <-].
  apply (excl_keep s); try done.
  - simpl. destruct (s_g s); auto.
  - intros i bl. simpl. rewrite list_lookup_insert. case_decide as Hd; [|eauto].
    destruct Hd as [-> _]. intros [= <-]. eauto.
Qed.

Lemma excl_getNewBlocks (s s' : state) (errno : Z) :
  Inv s → Excl s → quiet (LG errno) s → getNewBlocks_step errno s = Next s' → Excl s'.
Proof.
  intros HI HE Hquiet. unfold getNewBlocks_step. simpl in Hquiet.
  destruct (s_blocks s !! s_gi s) as [bl|] eqn:E; [|done].
  assert (∀ g, s_g s ≠ GSend → g ≠ GSend → g ≠ GRef → Excl (set_g g s)) as Hgo.
  { intros g H1 H2 H3. apply (excl_keep s); [done|by left| |done|by apply status_kept_refl].
    intros i. unfold holders, queued, g_own. simpl. by destruct g, (s_g s). }
  destruct (s_g s) eqn:Hg.
  - intros [= <-]. apply Hgo; try done; by case_match.
  - intros [= <-]. destruct (Z.eqb_spec (b_status bl) 0) as [|Hst]; [by apply Hgo|].
    specialize (Hquiet eq_refl).
    assert (∀ i, holders (set_g GRef s) i = holders s i) as Hh.
    { intros i. unfold holders, queued, g_own. simpl. by rewrite Hg. }
    constructor; try done.
    + intros i bl'. rewrite Hh. apply HE.
    + intros i Hi. rewrite Hh. by apply (ex_pend _ HE).
    + simpl. intros bl' _ Hbl'. by simplify_eq.
  - case_match; [|done]. intros [= <-]. by apply Hgo.
  - intros [= <-]. set (s' := set_g GSend _).
    assert (∀ i, holders s' i = holders s i + is_at (s_gi s) i) as Hh.
    { intros i. unfold holders, queued, g_own. simpl. rewrite Hg. lia. }
    assert (status_kept s s') as Hk by (by eapply status_kept_alter).
    constructor; try done.
    + intros i bl' Hbl'. rewrite Hh. destruct (Hk _ _ Hbl') as (bl0 & Hbl0 & Hne).
      unfold is_at. case_decide as Heq; intros Hpos; apply Hne.
      * subst i. by apply (ex_ref _ HE).
      * apply (ex_held _ HE i); [done|lia].
    + intros i Hi. rewrite Hh, (ex_pend _ HE i Hi), is_at_ne; [done|].
      intros <-. by apply (ex_refp _ HE).
  - destruct (chan_send _ _) as [| |ch] eqn:Hs; [done|done|]. intros [= <-].
    apply chan_send_inv in Hs as (Hbuf & _). apply (excl_keep s); [done|by left| |done|by apply status_kept_refl].
    intros i. unfold holders, queued, g_own. simpl. rewrite Hg, Hbuf, occ_app. simpl. lia.
Qed.

(** Moves of run that keep the holders and open no window. *)
Lemma excl_run_move (s s' : state) :
  Excl s → s_g s' = s_g s → s_gi s' = s_gi s → status_kept s s' →
  run_clearing (s_run s') = None → (∀ i, 0 < holders s' i → 0 < holders s i) →
  (∀ c cn', s_conns s' !! c = Some cn' → clearing (c_pc cn') = None ∨
     ∃ cn, s_conns s !! c = Some cn ∧ clearing (c_pc cn) = clearing (c_pc cn')) →
  Excl s'.
Proof.
  intros HE Hg Hgi Hk Hr Hh Hc. apply (excl_keep s); try done.
  - rewrite Hg. destruct (s_g s); auto.
  - intros i [Hi|(c & cn' & Hcn' & Hi)]; [congruence|].
    destruct (Hc c cn' Hcn') as [?|(cn & Hcn & Heq)]; [congruence|].
    right. exists c, cn. by rewrite Heq.
Qed.

Lemma excl_close (s : state) (c : nat) (cn : conn) (ch : chan nat) :
  Excl s → s_run s = RClose c → s_conns s !! c = Some cn → ch_buf ch = ch_buf (c_new cn) →
  Excl (set_run RSelect (set_cur (s_cur s ∖ {[c]}) (set_conn c (set_new ch cn) s))).
Proof.
  intros HE Hpc Hc Hbuf. apply (excl_run_move s); try done; [by apply status_kept_refl|..].
  - intros i. pose proof (holders_set_conn s c cn (set_new ch cn) i Hc) as H.
    unfold holders, queued, g_own in *. simpl in *. rewrite Hpc in *. simpl in *.
    change (conn_held (set_new ch cn) i) with (occ i (ch_buf ch) + taken cn i) in H.
    rewrite Hbuf in H. unfold conn_held in H. lia.
  - intros c' cn'. simpl. destruct (decide (c = c')) as [<-|].
    + rewrite lookup_insert_eq. intros [= <-]. right. by exists cn.
    + rewrite lookup_insert_ne by done. eauto.
Qed.

Lemma excl_send (s : state) (b c : nat) (todo : list nat) (cn : conn) (ch : chan nat) :
  Excl s → s_run s = RSend b c todo → s_conns s !! c = Some cn →
  chan_send (c_new cn) b = Sent ch →
  Excl (set_run (RFan b todo) (set_conn c (log_sent b (set_new ch cn)) s)).
Proof.
  intros HE Hpc Hc Hs. apply chan_send_inv in Hs as (Hbuf & _).
  apply (excl_run_move s); try done; [by apply status_kept_refl|..].
  - intros i. pose proof (conns_held_update _ _ _ (log_sent b (set_new ch cn)) i Hc) as H.
    unfold holders, queued, g_own. simpl. rewrite Hpc. simpl.
    change (conn_held (log_sent b (set_new ch cn)) i) with
      (occ i (ch_buf ch) + taken cn i) in H. rewrite Hbuf, occ_app in H. simpl in H.
    unfold conn_held in H. lia.
  - intros c' cn'. simpl. destruct (decide (c = c')) as [<-|].
    + rewrite lookup_insert_eq. intros [= <-]. right. by exists cn.
    + rewrite lookup_insert_ne by done. eauto.
Qed.

Lemma excl_run_dec (s : state) (b : nat) (bl : block) (pc : spc) :
  Inv s → conn_bound s → Excl s → s_run s = RUnref b KRun → s_blocks s !! b = Some bl →
  pc = RSelect ∨ pc = RClear b KRun ∧ ((unref_dec bl).2 =? 0)%Z = true →
  Excl (set_run pc (upd_block (λ bl, (unref_dec bl).1) b s)).
Proof.
  intros HI Hb HE Hpc Hbl Hpc'. set (s' := set_run _ _).
  assert (∀ i, holders s' i + is_at b i = holders s i) as Hh.
  { intros i. unfold holders, queued, g_own. simpl. rewrite Hpc.
    destruct Hpc' as [->|[-> _]]; simpl; lia. }
  apply (excl_dec s _ b); try done. intros i Hi.
  apply (pending_run s) in Hi as [Hi|Hi]; [by left| |done]. right.
  destruct Hpc' as [->|[-> E0]]; [done|]. injection Hi as <-. split; [done|]. specialize (Hh b).
  rewrite is_at_eq in Hh by done.
  rewrite (dec_value s b bl) in E0 by (done || lia). apply Z.eqb_eq in E0. lia.
Qed.

Lemma excl_run_step (s s' : state) :
  Inv s → conn_bound s → Excl s → run_step s = Next s' → Excl s'.
Proof.
  intros HI Hb HE. pose proof (i_run _ HI) as Hrun. unfold run_step, run_ok in *.
  destruct (s_run s) as [|c|b todo|b c todo|b k|b k] eqn:Hpc.
  - done.
  - destruct (s_conns s !! c) as [cn|] eqn:Hc; [|done].
    unfold chan_close. destruct (ch_closed _); [done|]. intros [= <-]. by apply excl_close.
  - destruct todo as [|c todo]; intros [= <-];
      (apply (excl_run_move s); try done; [| |by eauto]).
    + by apply status_kept_refl.
    + intros i. unfold holders, queued, g_own. simpl. by rewrite Hpc.
    + by eapply status_kept_alter.
    + intros i. unfold holders, queued, g_own. simpl. rewrite Hpc. simpl. lia.
  - destruct (run_send_sent s b c todo HI Hpc) as (cn & ch & Hc & Hs). rewrite Hc, Hs.
    intros [= <-]. by apply excl_send.
  - destruct (dec_block b s) as [[s1 nx]|] eqn:Hd; [|done].
    apply dec_block_inv in Hd as (bl & Hbl & -> & ->). destruct k; [done|].
    destruct (unref_after _) eqn:Hu; [|done|]; intros [= <-]; eapply excl_run_dec; try done.
    + right. split; [done|]. by apply unref_after_clear.
    + by left.
  - destruct k; [done|]. intros [= <-]. apply (excl_clear s _ b); try done.
    + intros i. unfold holders, queued, g_own. simpl. by rewrite Hpc.
    + left. by rewrite Hpc.
    + intros i Hi. by apply (pending_run s) in Hi as [Hi|Hi].
Qed.

Lemma excl_accept (s s' : state) (c : nat) :
  Excl s → run_accept c s = Next s' → Excl s'.
Proof.
  intros HE. unfold run_accept. destruct (s_run s) eqn:Hpc; try done.
  destruct (s_conns s !! c) eqn:Hc; [done|]. intros [= <-].
  apply (excl_run_move s); try done; [by apply status_kept_refl|by simpl; rewrite Hpc|..].
  - intros i. unfold holders, queued, g_own. simpl.
    by rewrite conns_held_fresh, conn_held_new by done.
  - intros c' cn'. simpl. destruct (decide (c = c')) as [<-|].
    + rewrite lookup_insert_eq. intros [= <-]. by left.
    + rewrite lookup_insert_ne by done. eauto.
Qed.

Lemma excl_old (s s' : state) (c : nat) :
  Excl s → run_old c s = Next s' → Excl s'.
Proof.
  intros HE. unfold run_old. destruct (s_run s) eqn:Hpc; try done.
  destruct (s_conns s !! c) as [cn|] eqn:Hc; [|done].
  destruct (c_pc cn) eqn:Hcp; try done. intros [= <-].
  apply (excl_run_move s); try done; [by apply status_kept_refl|..].
  - intros i. pose proof (conns_held_update _ _ _ (set_pc CDrainNew cn) i Hc) as H.
    unfold holders, queued, g_own. simpl. rewrite Hpc. simpl.
    assert (conn_held (set_pc CDrainNew cn) i = conn_held cn i) as Heq; [|lia].
    unfold conn_held, taken, out_held. simpl. by rewrite Hcp.
  - intros c' cn'. simpl. destruct (decide (c = c')) as [<-|].
    + rewrite lookup_insert_eq. intros [= <-]. by left.
    + rewrite lookup_insert_ne by done. eauto.
Qed.

Lemma excl_new (s s' : state) (order : list nat) :
  Excl s → run_new order s = Next s' → Excl s'.
Proof.
  intros HE. unfold run_new. destruct (s_run s) eqn:Hpc; try done.
  case_bool_decide; [|done]. destruct (chan_recv (s_new s)) as [| |b ch] eqn:Hr; try done.
  intros [= <-]. apply chan_recv_inv in Hr as (Hbuf & _).
  apply (excl_run_move s); try done; [by apply status_kept_refl| |by eauto].
  intros i. unfold holders, queued, g_own. simpl. rewrite Hpc, Hbuf. simpl. lia.
Qed.

Lemma excl_step (s s' : state) (l : label) :
  Inv s → conn_bound s → Excl s → quiet l s → step l s = Next s' → Excl s'.
Proof.
  intros HI Hb HE Hq Hstep. destruct l as [b status|errno| |c|c|order|c choice|c ev];
    simpl in Hstep.
  - by eapply excl_kernel.
  - by eapply excl_getNewBlocks.
  - by eapply excl_run_step.
  - by eapply excl_accept.
  - by eapply excl_old.
  - by eapply excl_new.
  - destruct (s_conns s !! c) as [cn|] eqn:Hc; [|done].
    eapply excl_conn_effect; try done. eapply conn_step_effect; [|done]. by apply HI.
  - destruct (s_conns s !! c) as [cn|] eqn:Hc; [|done].
    eapply read_step_move in Hstep as (cn' & -> & HW & Hh & Hpc); [|by apply HI].
    apply (excl_keep s); [done|..|by apply status_kept_refl].
    + simpl. destruct (s_g s); auto.
    + intros i. pose proof (holders_set_conn s c cn cn' i Hc). rewrite Hh in *. lia.
    + intros i Hi. eapply pending_conn in Hi as [Hi|Hi]; [done| |done..].
      right. exists c, cn. by rewrite <- Hpc.
Qed.

Lemma excl_init (n : nat) : Excl (newSocket_state n).
Proof.
  assert (∀ i, holders (newSocket_state n) i = 0) as H0 by done.
  constructor; try done. intros i bl _. rewrite H0. lia.
Qed.

Lemma reachable_quiet_excl (n : nat) (s : state) :
  0 < n → reachable_quiet n s → Excl s.
Proof.
  intros Hn. induction 1 as [|s l s' Hr IH Hb Hq Hstep]; [apply excl_init|].
  eapply excl_step; eauto using reachable_inv, quiet_reachable.
Qed.

(** ** The guarantee *)

(** C4: in a schedule that is quiet (getNewBlocks does not read the status of a
    block between a decrement to zero and its reset), a block that anybody holds
    has a nonzero status, so the kernel cannot fill it: its contents stay what
    they were for as long as a client may read them. *)
Theorem held_block_not_kernels (n : nat) (s : state) (i : nat) (bl : block) (status : Z) :
  0 < n → reachable_quiet n s → s_blocks s !! i = Some bl →
  0 < holders s i → b_status bl ≠ 0%Z ∧ step (LKernel i status) s = Blocked.
Proof.
  intros Hn Hr Hbl Hpos.
  pose proof (ex_held _ (reachable_quiet_excl n s Hn Hr) i bl Hbl Hpos) as Hst.
  split; [done|]. simpl. unfold kernel_step, kernel_fill. rewrite Hbl. simpl.
  by rewrite (proj2 (Z.eqb_neq _ _)).
Qed.

(** A quiet schedule is checked by executing it. *)
Definition quietb (l : label) (s : state) : bool :=
  match l, s_g s with
  | LG _, GLoadStatus =>
      negb (bool_decide (run_clearing (s_run s) = Some (s_gi s))) &&
      forallb (λ p, negb (bool_decide (clearing (c_pc p.2) = Some (s_gi s))))
        (map_to_list (s_conns s))
  | _, _ => true
  end.

Fixpoint run_quiet (ls : list label) (s : state) : option state :=
  match ls with
  | [] => Some s
  | l :: ls => if bool_decide (conn_bound s) && quietb l s then
                 match step l s with Next s' => run_quiet ls s' | _ => None end
               else None
  end.

Lemma quietb_quiet (l : label) (s : state) : quietb l s = true → quiet l s.
Proof.
  unfold quietb, quiet. destruct l; try done. intros Hq Hg. rewrite Hg in Hq.
  apply andb_true_iff in Hq as [Hr Hc]. intros [Hp|(c & cn & Hcn & Hp)].
  - by rewrite bool_decide_true in Hr.
  - rewrite forallb_forall in Hc. specialize (Hc (c, cn)). simpl in Hc.
    rewrite bool_decide_true in Hc by done. discriminate Hc.
    apply list_elem_of_In. by apply elem_of_map_to_list.
Qed.

Lemma run_quiet_reachable (n : nat) (ls : list label) (s s' : state) :
  reachable_quiet n s → run_quiet ls s = Some s' → reachable_quiet n s'.
Proof.
  revert s. induction ls as [|l ls IH]; intros s Hs; simpl; [congruence|].
  destruct (bool_decide (conn_bound s)) eqn:Hb; [|done]. apply bool_decide_eq_true_1 in Hb. simpl.
  destruct (quietb l s) eqn:Hq; [|done]. destruct (step l s) eqn:E; try done.
  intros H. eapply IH; [|done]. eapply quiet_step; eauto. by apply quietb_quiet.
Qed.

Lemma held_block_not_kernels_witness :
  ∃ s, run_quiet (demo_deliver ++ demo_write) (newSocket_state 2) = Some s ∧
       holders s 0 = 1 ∧ step (LKernel 0 1) s = Blocked.
Proof.
  destruct (run_quiet (demo_deliver ++ demo_write) (newSocket_state 2)) as [s|] eqn:E;
    [|by vm_compute in E].
  exists s. split; [done|].
  assert (∃ bl, s_blocks s !! 0 = Some bl) as [bl Hbl]
    by (vm_compute in E; simplify_eq; by eexists).
  assert (holders s 0 = 1) as Hh by (vm_compute in E; by simplify_eq).
  split; [done|]. apply (held_block_not_kernels 2 s 0 bl 1); [lia| |done|lia].
  eapply run_quiet_reachable; [constructor|done].
Defined.

(** ** The race *)

(** The window that must not be entered.  One client, a ring of one block.  The
    block was delivered and returned; conn.run has decremented the count to
    zero, and before it resets the status getNewBlocks finds the count zero and
    the status still set, takes the block again and has it sent to the client;
    only then conn.run resets the status and goes on to serve the block. *)
Definition race_schedule : list label :=
  [LAccept 7; LKernel 0 1; LG 0; LG 0; LG 0; LG 0; LNew [7]; LRun; LRun; LRun; LRun;
   LConn 7 PickNew; LConn 7 Tau; LConn 7 Tau; LConn 7 WriteOk;
   LRead 7 (RdData (put_uint32 0)); LRead 7 (RdData []);
   LConn 7 PickOld; LConn 7 Tau;                         (* count is 0 *)
   LG 0; LG 0; LG 0; LG 0;                               (* ready, ref, send *)
   LNew [7]; LRun; LRun; LRun; LRun;
   LConn 7 Tau;                                          (* status is 0 *)
   LConn 7 PickNew; LConn 7 Tau; LConn 7 Tau; LConn 7 WriteOk].

(** C5: without that proviso the guarantee fails.  The code reaches a state
    in which a client was sent block 0 (twice) for a single filling of the block,
    holds it, and the kernel owns it: the kernel may overwrite the packets the
    client is reading. *)
Theorem unref_clear_race :
  ∃ s cn bl s', run_schedule race_schedule (newSocket_state 1) = Some s ∧
    s_conns s !! 7 = Some cn ∧ c_out cn = [true] ∧ l_sent (c_log cn) = [0; 0] ∧
    s_blocks s !! 0 = Some bl ∧ b_r bl = 1%Z ∧ b_status bl = 0%Z ∧ b_gen bl = 1 ∧
    step (LKernel 0 1) s = Next s' ∧ b_gen <$> s_blocks s' !! 0 = Some 2.
Proof.
  destruct (run_schedule race_schedule (newSocket_state 1)) as [s|] eqn:E;
    [|by vm_compute in E].
  vm_compute in E. simplify_eq. eexists _, _, _, _. split; [reflexivity|]. by vm_compute.
Qed.
