(* ===== verification/Broadcast.v ===== *)
(** * Broadcast: every client sees the same blocks in ring order

    What run promises to all clients of a socket together.  getNewBlocks goes round the
    ring, run takes the blocks in that order and passes each to every connection it
    knows.  Hence from the moment a client is accepted it is sent every block, in the
    order of the ring, none left out and none twice, and two clients that are connected
    at the same time are sent the same sequence. *)

From stdpp Require Import base list numbers option gmap.
From Stdlib Require Import ZArith Lia.
From S2P Require Import Prelude Bytes Protocol Chan Block Socket SocketInv SocketSafety.

Local Open Scope nat_scope.

(** ** What a step of run does to one client *)

(** The block run is passing on, as long as [c] has not got it. *)
Definition debt (s : state) (c : nat) : list nat :=
  match s_run s with
  | RFan b todo => if bool_decide (c ∈ todo) then [b] else []
  | RSend b c' todo => if bool_decide (c ∈ c' :: todo) then [b] else []
  | _ => []
  end.

(** The block run takes from the queue in this step. *)
Definition taken_now (l : label) (s : state) : list nat :=
  match l, chan_recv (s_new s) with LNew _, Recv b _ => [b] | _, _ => [] end.

(** The blocks run takes along a schedule. *)
Fixpoint distributed (ls : list label) (s : state) : list nat :=
  match ls with
  | [] => []
  | l :: ls => taken_now l s ++ match step l s with Next s' => distributed ls s' | _ => [] end
  end.

(** Sent to a client, or about to be. *)
Definition sent_or_due (s : state) (c : nat) (cn : conn) : list nat :=
  l_sent (c_log cn) ++ debt s c.

(** Steps that are not run's leave all this alone. *)
Definition of_run (l : label) : bool :=
  match l with LRun | LAccept _ | LOld _ | LNew _ => true | _ => false end.

Lemma others_sent (s s' : state) (l : label) (c : nat) (cn : conn) :
  of_run l = false → step l s = Next s' → s_conns s !! c = Some cn →
  s_run s' = s_run s ∧ s_cur s' = s_cur s ∧
  ∃ cn', s_conns s' !! c = Some cn' ∧ l_sent (c_log cn') = l_sent (c_log cn).
Proof.
  intros Hl Hstep Hc. destruct l; try done; step_cases Hstep; split_and!; try done; try (by exists cn);
    match goal with |- context [<[?c0 := _]> _ !! c] =>
      destruct (decide (c0 = c)) as [->|];
        [rewrite lookup_insert_eq|rewrite lookup_insert_ne by done; by exists cn]
    end; simplify_eq; by eexists.
Qed.

(** A client that stays known. *)
Definition served_on (s s' : state) (l : label) (c : nat) (cn cn' : conn) : Prop :=
  c ∈ s_cur s ∧ sent_or_due s' c cn' = sent_or_due s c cn ++ taken_now l s.

Lemma send_sent (s s' : state) (b c' : nat) (todo : list nat) (c : nat) (cn : conn) :
  Inv s → s_run s = RSend b c' todo → run_step s = Next s' → s_conns s !! c = Some cn →
  s_cur s' = s_cur s ∧
  ∃ cn', s_conns s' !! c = Some cn' ∧ sent_or_due s' c cn' = sent_or_due s c cn ∧
    (c ∉ s_cur s → cn' = cn).
Proof.
  intros HI Hpc Hstep Hc. destruct (run_send_sent s b c' todo HI Hpc) as (cn0 & ch & Hc0 & Hs).
  unfold run_step in Hstep. rewrite Hpc, Hc0, Hs in Hstep. injection Hstep as <-. split; [done|].
  pose proof (i_run _ HI) as Hr. unfold run_ok in Hr. rewrite Hpc in Hr.
  destruct Hr as [Hnd%NoDup_cons Hall]. destruct Hnd as [Hnin _].
  unfold sent_or_due, debt. rewrite Hpc. simpl. destruct (decide (c' = c)) as [->|Hne].
  - rewrite lookup_insert_eq. eexists. split; [done|]. rewrite Hc in Hc0. injection Hc0 as <-.
    rewrite bool_decide_false by done. rewrite bool_decide_true by (by left). simpl.
    split; [by rewrite app_nil_r|]. intros Hn. destruct (Hall c) as [Hcur _]; [by left|done].
  - rewrite lookup_insert_ne by done. exists cn. split_and!; [done| |done]. f_equal.
    by rewrite (bool_decide_ext (c ∈ c' :: todo) (c ∈ todo)) by (rewrite elem_of_cons; naive_solver).
Qed.

(** run's own steps outside the select. *)
Lemma run_sent (s s' : state) (c : nat) (cn : conn) :
  Inv s → run_step s = Next s' → s_conns s !! c = Some cn →
  ∃ cn', s_conns s' !! c = Some cn' ∧
    (c ∈ s_cur s' → c ∈ s_cur s ∧ sent_or_due s' c cn' = sent_or_due s c cn) ∧
    (c ∉ s_cur s' → l_sent (c_log cn') = l_sent (c_log cn)).
Proof.
  intros HI Hstep Hc. pose proof (i_run _ HI) as Hr. unfold run_ok in Hr.
  destruct (s_run s) as [|c'|b [|c' todo]|b c' todo|b k|b k] eqn:Hpc.
  5: { destruct (send_sent s s' b c' todo c cn HI Hpc Hstep Hc) as (-> & cn' & Hc' & Hs & Hn).
       exists cn'. split_and!; [done..|]. intros Hcur. by rewrite Hn. }
  all: unfold run_step in Hstep; rewrite Hpc in Hstep.
  - done.
  - destruct (s_conns s !! c') as [cn0|] eqn:Hc0; [|done].
    destruct (chan_close (c_new cn0)) as [ch|]; [|done]. injection Hstep as <-.
    unfold sent_or_due, debt. rewrite Hpc. simpl. destruct (decide (c' = c)) as [->|Hne].
    + simplify_eq. rewrite lookup_insert_eq. eexists. split_and!; [done| |done]. set_solver.
    + rewrite lookup_insert_ne by done. exists cn. split_and!; [done| |done]. set_solver.
  - injection Hstep as <-. exists cn. unfold sent_or_due, debt. rewrite Hpc. simpl.
    by split_and!.
  - injection Hstep as <-. exists cn. unfold sent_or_due, debt. rewrite Hpc. done.
  - destruct k as [|]; [done|]. destruct (dec_block b s) as [[s1 nx]|] eqn:Hd; [|done].
    apply dec_block_inv in Hd as (bl & _ & -> & _).
    exists cn. unfold sent_or_due, debt. rewrite Hpc. destruct nx; simplify_eq; done.
  - destruct k as [|]; [done|]. injection Hstep as <-.
    exists cn. unfold sent_or_due, debt. by rewrite Hpc.
Qed.

Lemma sent_step (s s' : state) (l : label) (c : nat) (cn : conn) :
  Inv s → step l s = Next s' → s_conns s !! c = Some cn →
  ∃ cn', s_conns s' !! c = Some cn' ∧ (c ∈ s_cur s' → served_on s s' l c cn cn') ∧
    (c ∉ s_cur s' → l_sent (c_log cn') = l_sent (c_log cn)).
Proof.
  intros HI Hstep Hc. unfold served_on. destruct (of_run l) eqn:Hl.
  - destruct l as [| | |c'|c'|order| |]; try done; simpl in Hstep.
    + destruct (run_sent s s' c cn HI Hstep Hc) as (cn' & Hc' & H1 & H2). exists cn'.
      split_and!; [done| |done]. simpl. by rewrite app_nil_r.
    + unfold run_accept in Hstep. destruct (s_run s) eqn:Hpc; try done.
      destruct (s_conns s !! c') eqn:Hc'; [done|]. injection Hstep as <-.
      assert (c' ≠ c) as Hne by congruence. exists cn. simpl. rewrite lookup_insert_ne by done.
      unfold sent_or_due, debt. simpl. rewrite Hpc, !app_nil_r. set_solver.
    + unfold run_old in Hstep. destruct (s_run s) eqn:Hpc; try done.
      destruct (s_conns s !! c') as [cn0|] eqn:Hc'; [|done]. destruct (c_pc cn0); try done.
      injection Hstep as <-. unfold sent_or_due, debt. simpl. rewrite Hpc.
      destruct (decide (c' = c)) as [->|Hne].
      * simplify_eq. rewrite lookup_insert_eq. eexists. split_and!; [done| |done]. simpl.
        by rewrite !app_nil_r.
      * rewrite lookup_insert_ne by done. exists cn. by rewrite !app_nil_r.
    + unfold run_new in Hstep. destruct (s_run s) eqn:Hpc; try done.
      case_bool_decide as Hord; [|done]. destruct Hord as [_ Hord].
      destruct (chan_recv (s_new s)) as [| |b ch] eqn:Hr; try done. injection Hstep as <-.
      exists cn. split_and!; [done| |done]. simpl. intros Hcur. split; [done|].
      unfold sent_or_due, debt. simpl. rewrite Hpc, Hr, app_nil_r.
      rewrite bool_decide_true; [done|]. rewrite <- Hord in Hcur. set_solver.
  - destruct (others_sent s s' l c cn Hl Hstep Hc) as (Hr & Hcur & cn' & Hc' & Hs).
    exists cn'. split_and!; [done| |done]. rewrite Hcur. intros Hin. split; [done|].
    unfold sent_or_due, debt. rewrite Hr, Hs. destruct l; try done; simpl; by rewrite app_nil_r.
Qed.

(** ** Along a schedule *)
Lemma sent_schedule (ls : list label) (s s' : state) (c : nat) (cn : conn) :
  Inv s → bounded ls s = true → run_schedule ls s = Some s' → s_conns s !! c = Some cn →
  c ∈ s_cur s' →
  c ∈ s_cur s ∧ ∃ cn', s_conns s' !! c = Some cn' ∧
    sent_or_due s' c cn' = sent_or_due s c cn ++ distributed ls s.
Proof.
  revert s cn. induction ls as [|l ls IH]; intros s cn HI; simpl; intros [Hb Hls]%andb_prop Hrun Hc Hcur.
  { injection Hrun as <-. split; [done|]. exists cn. by rewrite app_nil_r. }
  apply bool_decide_eq_true_1 in Hb. destruct (step l s) as [|s1|] eqn:E; try done.
  destruct (sent_step s s1 l c cn HI E Hc) as (cn1 & Hc1 & Hon & _).
  destruct (IH s1 cn1 (inv_step _ _ _ HI Hb E) Hls Hrun Hc1 Hcur) as (Hcur1 & cn' & Hc' & Hs').
  destruct (Hon Hcur1) as [Hcur0 Hs1]. split; [done|]. exists cn'. split; [done|].
  by rewrite Hs', Hs1, app_assoc.
Qed.

(** A connection run has dropped is sent nothing any more, and in any case nothing but
    the blocks run takes. *)
Lemma dropped_schedule (ls : list label) (s s' : state) (c : nat) (cn : conn) :
  Inv s → bounded ls s = true → run_schedule ls s = Some s' → s_conns s !! c = Some cn →
  c ∉ s_cur s →
  ∃ cn', s_conns s' !! c = Some cn' ∧ l_sent (c_log cn') = l_sent (c_log cn).
Proof.
  revert s cn. induction ls as [|l ls IH]; intros s cn HI; simpl; intros [Hb Hls]%andb_prop Hrun Hc Hcur.
  { injection Hrun as <-. by exists cn. }
  apply bool_decide_eq_true_1 in Hb. destruct (step l s) as [|s1|] eqn:E; try done.
  destruct (sent_step s s1 l c cn HI E Hc) as (cn1 & Hc1 & Hon & Hoff).
  assert (c ∉ s_cur s1) as Hcur1 by (by intros [? _]%Hon).
  destruct (IH s1 cn1 (inv_step _ _ _ HI Hb E) Hls Hrun Hc1 Hcur1) as (cn' & Hc' & Hs).
  exists cn'. split; [done|]. rewrite Hs. by apply Hoff.
Qed.

Lemma sent_prefix (ls : list label) (s s' : state) (c : nat) (cn : conn) :
  Inv s → bounded ls s = true → run_schedule ls s = Some s' → s_conns s !! c = Some cn →
  ∃ cn', s_conns s' !! c = Some cn' ∧
    l_sent (c_log cn') `prefix_of` sent_or_due s c cn ++ distributed ls s.
Proof.
  revert s cn. induction ls as [|l ls IH]; intros s cn HI; simpl; intros [Hb Hls]%andb_prop Hrun Hc.
  { injection Hrun as <-. exists cn. split; [done|]. unfold sent_or_due. rewrite <- app_assoc.
    by apply prefix_app_r. }
  apply bool_decide_eq_true_1 in Hb. destruct (step l s) as [|s1|] eqn:E; try done.
  destruct (sent_step s s1 l c cn HI E Hc) as (cn1 & Hc1 & Hon & Hoff).
  pose proof (inv_step _ _ _ HI Hb E) as HI1. destruct (decide (c ∈ s_cur s1)) as [Hcur|Hcur].
  - destruct (IH s1 cn1 HI1 Hls Hrun Hc1) as (cn' & Hc' & Hp). exists cn'. split; [done|].
    by rewrite (proj2 (Hon Hcur)), <- app_assoc in Hp.
  - destruct (dropped_schedule ls s1 s' c cn1 HI1 Hls Hrun Hc1 Hcur) as (cn' & Hc' & Hs).
    exists cn'. split; [done|]. rewrite Hs, (Hoff Hcur). unfold sent_or_due. rewrite <- app_assoc.
    by apply prefix_app_r.
Qed.

Lemma distributed_app (ls ks : list label) (s s' : state) :
  run_schedule ls s = Some s' → distributed (ls ++ ks) s = distributed ls s ++ distributed ks s'.
Proof.
  revert s. induction ls as [|l ls IH]; intros s; simpl; [by intros [= <-]|].
  destruct (step l s) as [|s1|]; try done. intros H. by rewrite (IH s1 H), app_assoc.
Qed.

Lemma bounded_head (ls ks : list label) (s : state) :
  bounded (ls ++ ks) s = true → bounded ls s = true.
Proof.
  revert s. induction ls as [|l ls IH]; intros s; simpl.
  - destruct ks; simpl; intros [H _]%andb_prop; by rewrite H.
  - intros [-> H]%andb_prop. destruct (step l s); [done|by apply IH|done].
Qed.

Lemma bounded_tail (ls ks : list label) (s s' : state) :
  bounded (ls ++ ks) s = true → run_schedule ls s = Some s' → bounded ks s' = true.
Proof.
  revert s. induction ls as [|l ls IH]; intros s; simpl; [by intros H [= <-]|].
  intros [_ H]%andb_prop. destruct (step l s) as [|s1|]; try done. by apply IH.
Qed.

(** ** The ring *)

(** [m] blocks of a ring of [n], from the [a]-th on. *)
Definition ring (n a m : nat) : list nat := (λ k, k mod n) <$> seq a m.

Lemma ring_snoc (n a m : nat) : ring n a (S m) = ring n a m ++ [(a + m) mod n].
Proof. unfold ring. by rewrite seq_S, fmap_app. Qed.

Lemma ring_cons (n a m : nat) : ring n a (S m) = a mod n :: ring n (S a) m.
Proof. done. Qed.

(** [q] blocks were queued and [d] of them distributed. *)
Record in_ring (n : nat) (s : state) (d q : nat) : Prop := {
  ir_queue : ch_buf (s_new s) = ring n d (q - d);
  ir_le : d ≤ q;
  ir_gi : s_gi s = q mod n;
}.

(** After the step [q'] blocks are queued, and run took the next of them or none. *)
Definition queue_ok (n : nat) (s s' : state) (l : label) (d q : nat) : Prop :=
  let d' := d + length (taken_now l s) in
  ∃ q', q ≤ q' ∧ d' ≤ q' ∧ ch_buf (s_new s') = ring n d' (q' - d') ∧
    s_gi s' = q' mod n ∧ taken_now l s = ring n d (length (taken_now l s)).

Lemma queue_ring (n : nat) (s s' : state) (l : label) (d q : nat) :
  s_nb s = n → step l s = Next s' → in_ring n s d q → queue_ok n s s' l d q.
Proof.
  intros Hnb Hstep [Hq Hle Hgi]. unfold queue_ok.
  assert (ch_buf (s_new s') = ch_buf (s_new s) → s_gi s' = s_gi s → taken_now l s = [] →
    queue_ok n s s' l d q) as Hsame.
  { unfold queue_ok. intros Hb Hg ->. exists q. simpl. rewrite Nat.add_0_r, Hb, Hg. by split_and!. }
  destruct l as [b status|errno| |c'|c'|order|c' choice|c' ev].
  1,3-5,7-8: apply Hsame; [by step_cases Hstep..|done].
  - simpl in Hstep. unfold getNewBlocks_step in Hstep. destruct (s_blocks s !! s_gi s); [|done].
    destruct (s_g s); try (apply Hsame; [repeat case_match; by simplify_eq..|done]).
    destruct (chan_send (s_new s) (s_gi s)) as [| |ch] eqn:Hs; simplify_eq.
    apply chan_send_inv in Hs as (Hb & _). exists (S q). simpl. rewrite Nat.add_0_r, Hb, Hq, Hgi.
    replace (S q - d) with (S (q - d)) by lia. rewrite ring_snoc.
    replace (d + (q - d)) with q by lia. split_and!; [lia..|done| |done].
    rewrite Nat.Div0.add_mod_idemp_l. f_equal. lia.
  - simpl in Hstep. unfold run_new in Hstep. destruct (s_run s); try done.
    case_bool_decide; [|done]. unfold taken_now.
    destruct (chan_recv (s_new s)) as [| |b ch] eqn:Hr; try done. injection Hstep as <-.
    apply chan_recv_inv in Hr as (Hb & _). rewrite Hq in Hb.
    destruct (q - d) as [|m] eqn:Em; [done|]. rewrite ring_cons in Hb. injection Hb as Hb Hch.
    exists q. simpl. replace (d + 1) with (S d) by lia. replace (q - S d) with m by lia.
    split_and!; [lia..|done|done|]. unfold ring. simpl. by rewrite Hb.
Qed.

Lemma ring_app (n a m k : nat) : ring n a m ++ ring n (a + m) k = ring n a (m + k).
Proof. unfold ring. by rewrite seq_app, fmap_app. Qed.

Lemma length_ring (n a m : nat) : length (ring n a m) = m.
Proof. unfold ring. by rewrite length_fmap, length_seq. Qed.

Lemma ring_prefix (n a m : nat) (l k : list nat) :
  l ++ k = ring n a m → l = ring n a (length l) ∧ length l ≤ m.
Proof.
  intros H. assert (length l ≤ m) as Hle.
  { apply (f_equal length) in H. rewrite length_app, length_ring in H. lia. }
  split; [|done]. replace m with (length l + (m - length l)) in H by lia. rewrite <- ring_app in H.
  apply app_inj_1 in H as [H _]; [done|]. by rewrite length_ring.
Qed.

(** run takes the blocks round the ring, in order. *)
Lemma distributed_ring (n : nat) (ls : list label) (s s' : state) (d q : nat) :
  s_nb s = n → in_ring n s d q → run_schedule ls s = Some s' →
  distributed ls s = ring n d (length (distributed ls s)).
Proof.
  intros Hnb HR Hrun. revert s d q Hnb HR Hrun. induction ls as [|l ls IH]; intros s d q Hnb HR; [done|].
  simpl. destruct (step l s) as [|s1|] eqn:E; try done. intros Hrun.
  destruct (queue_ring n s s1 l d q Hnb E HR) as (q' & _ & Hle & Hq & Hgi & Ht).
  rewrite length_app. rewrite Ht at 1.
  rewrite (IH s1 (d + length (taken_now l s)) q') at 1; [by rewrite ring_app| |by split|done].
  rewrite <- Hnb. by eapply step_nb.
Qed.

Lemma start_distributed (n : nat) (ls : list label) (s : state) :
  run_schedule ls (newSocket_state n) = Some s →
  distributed ls (newSocket_state n) = ring n 0 (length (distributed ls (newSocket_state n))).
Proof.
  apply (distributed_ring n ls _ s 0 0); [done|]. split; [done|done|]. simpl. by rewrite Nat.Div0.mod_0_l.
Qed.

(** A new connection. *)
Lemma accepted_fresh (s s1 : state) (c : nat) :
  step (LAccept c) s = Next s1 →
  ∃ cn, s_conns s1 !! c = Some cn ∧ sent_or_due s1 c cn = [].
Proof.
  simpl. unfold run_accept. destruct (s_run s) eqn:Hpc; try done.
  destruct (s_conns s !! c); [done|]. intros [= <-]. simpl. rewrite lookup_insert_eq.
  eexists. split; [done|]. unfold sent_or_due, debt. simpl. by rewrite Hpc.
Qed.

(** From the acceptance of a client on. *)
Lemma accepted_schedule (n : nat) (before after : list label) (s : state) (c : nat) (cn : conn) :
  let ls := before ++ LAccept c :: after in
  0 < n → bounded ls (newSocket_state n) = true → run_schedule ls (newSocket_state n) = Some s →
  s_conns s !! c = Some cn →
  ∃ sent, distributed ls (newSocket_state n) = distributed before (newSocket_state n) ++ sent ∧
    l_sent (c_log cn) `prefix_of` sent ∧
    (c ∈ s_cur s → s_run s = RSelect → l_sent (c_log cn) = sent).
Proof.
  intros ls Hn Hb Hrun Hc. unfold ls in *. rewrite run_schedule_app in Hrun.
  destruct (run_schedule before (newSocket_state n)) as [s0|] eqn:E0; [|done].
  rewrite (distributed_app _ _ _ _ E0). pose proof (bounded_tail _ _ _ _ Hb E0) as Hb0.
  destruct (reachable_schedule n before (newSocket_state n) s0) as [Hr0 Hcb];
    [constructor|by eapply bounded_head|done|].
  cbn [mbind option_bind run_schedule distributed bounded taken_now app] in *.
  apply andb_prop in Hb0 as [_ Hb0]. destruct (step (LAccept c) s0) as [|s1|] eqn:E1; try done.
  destruct (accepted_fresh s0 s1 c E1) as (cn1 & Hc1 & Hs1).
  assert (Inv s1) as HI1 by (eapply (inv_step s0); [by eapply reachable_inv|done|done]).
  exists (distributed after s1). split_and!; [done| |].
  - destruct (sent_prefix after s1 s c cn1 HI1 Hb0 Hrun Hc1) as (cn' & Hc' & Hp).
    rewrite Hs1 in Hp. by simplify_eq.
  - intros Hcur Hsel. destruct (sent_schedule after s1 s c cn1 HI1 Hb0 Hrun Hc1 Hcur)
      as (_ & cn' & Hc' & Hp). rewrite Hs1 in Hp. unfold sent_or_due, debt in Hp.
    rewrite Hsel, app_nil_r in Hp. by simplify_eq.
Qed.

(** ** The guarantees *)

(** C10: broadcast: from any reachable state with run at its select to any later such
    state, every connection run still knows has been sent exactly the blocks run took
    from its queue in between, in that order: all clients get the same blocks, none
    misses one, none gets one twice, whatever each of them does meanwhile. *)
Theorem run_broadcasts (n : nat) (s s' : state) (ls : list label) (c : nat) (cn : conn) :
  0 < n → reachable n s → bounded ls s = true → run_schedule ls s = Some s' →
  s_run s = RSelect → s_run s' = RSelect → s_conns s !! c = Some cn → c ∈ s_cur s' →
  ∃ cn', s_conns s' !! c = Some cn' ∧
    l_sent (c_log cn') = l_sent (c_log cn) ++ distributed ls s.
Proof.
  intros Hn Hr Hb Hrun Hsel Hsel' Hc Hcur.
  destruct (sent_schedule ls s s' c cn (reachable_inv n s Hn Hr) Hb Hrun Hc Hcur)
    as (_ & cn' & Hc' & Hs).
  exists cn'. split; [done|]. unfold sent_or_due, debt in Hs. rewrite Hsel, Hsel' in Hs.
  by rewrite !app_nil_r in Hs.
Qed.

(** Client 7 is taken in, then the kernel fills a block of the ring of two. *)
Example run_broadcasts_witness :
  let ls := drop 1 demo_deliver ++ demo_write in
  ∃ cn', s_conns (demo_state (demo_deliver ++ demo_write)) !! 7 = Some cn' ∧
    l_sent (c_log cn') = distributed ls (demo_state (take 1 demo_deliver)) ∧
    distributed ls (demo_state (take 1 demo_deliver)) = [0].
Proof.
  destruct (s_conns (demo_state (take 1 demo_deliver)) !! 7) as [cn|] eqn:E; [|by vm_compute in E].
  destruct (run_broadcasts 2 (demo_state (take 1 demo_deliver))
    (demo_state (demo_deliver ++ demo_write)) (drop 1 demo_deliver ++ demo_write) 7 cn)
    as (cn' & Hc & Hs);
    [lia|apply demo_reachable; by vm_compute|by vm_compute..|done|apply (bool_decide_eq_true_1 _); by vm_compute|].
  exists cn'. split; [done|]. vm_compute in E. injection E as <-. split; [done|by vm_compute].
Defined.

(** C11: ring order: what a client is sent are consecutive blocks of the ring, round and
    round, from the one that comes next when it is accepted: if run took [a] blocks
    before, which were those from 0 to a-1, the client is sent a, a+1, a+2, ... modulo
    the number of blocks, none left out as long as run knows it.  What was written to
    it is always a beginning of that sequence, word for word, and conn.run at its select
    has written all it took. *)
Theorem clients_see_ring_order (n : nat) (before after : list label) (s : state) (c : nat)
    (cn : conn) :
  let ls := before ++ LAccept c :: after in
  let a := length (distributed before (newSocket_state n)) in
  let l := length (l_sent (c_log cn)) in
  0 < n → (Z.of_nat n <= 2 ^ 32)%Z → bounded ls (newSocket_state n) = true →
  run_schedule ls (newSocket_state n) = Some s → s_conns s !! c = Some cn →
  distributed before (newSocket_state n) = ring n 0 a ∧
  l_sent (c_log cn) = ring n a l ∧
  (c ∈ s_cur s → s_run s = RSelect → a + l = length (distributed ls (newSocket_state n))) ∧
  l_wire (c_log cn) `prefix_of` encode_all (Z.of_nat <$> ring n a l) ∧
  length (l_got (c_log cn)) ≤ l ∧
  (c_pc cn = CSelect →
   decode_all (l_wire (c_log cn)) = Some (Z.of_nat <$> ring n a (length (l_got (c_log cn))))).
Proof.
  intros ls a l Hn Hw Hb Hrun Hc.
  destruct (accepted_schedule n before after s c cn Hn Hb Hrun Hc) as (sent & Hd & [tl Hp] & Hall).
  pose proof (start_distributed n ls s Hrun) as Hring. fold ls in Hd. rewrite Hd in Hring.
  rewrite length_app in Hring. fold a in Hring. rewrite <- ring_app in Hring.
  apply app_inj_1 in Hring as [Hbefore Hsent]; [|by rewrite length_ring].
  assert (l_sent (c_log cn) = ring n a l) as Hl.
  { rewrite Hp in Hsent. symmetry in Hp. by apply ring_prefix in Hsent as [Hsent _]. }
  destruct (reachable_schedule n ls (newSocket_state n) s) as [Hr _]; [constructor|done..|].
  destruct (wire_words n s c cn Hn Hw Hr Hc) as [Hwire Hdec].
  split_and!; [done|done| | | |].
  - intros Hcur Hsel. rewrite Hd, length_app. fold a. f_equal. unfold l. by rewrite (Hall Hcur Hsel).
  - by rewrite <- Hl.
  - pose proof (i_conn _ (reachable_inv n s Hn Hr) _ _ Hc) as HW. unfold l.
    rewrite (cw_fifo _ _ _ HW), length_app. lia.
  - intros Hpc. destruct (Hdec Hpc) as [-> [rest Hgot]]. do 2 f_equal. rewrite Hgot in Hl.
    by apply ring_prefix in Hl as [Hl _].
Qed.

(** Block 0 is filled while nobody is connected; client 7 comes after it and gets block 1. *)
Definition demo_before : list label :=
  [LKernel 0 1; LG 0; LG 0; LG 0; LG 0; LNew []; LRun; LRun; LRun].
Definition demo_after : list label :=
  [LKernel 1 1; LG 0; LG 0; LG 0; LG 0; LNew [7]; LRun; LRun; LRun; LRun;
   LConn 7 PickNew; LConn 7 Tau; LConn 7 Tau; LConn 7 WriteOk].

Example clients_see_ring_order_witness :
  ∃ cn, s_conns (demo_state (demo_before ++ LAccept 7 :: demo_after)) !! 7 = Some cn ∧
    l_sent (c_log cn) = ring 2 1 1 ∧ ring 2 1 1 = [1] ∧
    decode_all (l_wire (c_log cn)) = Some [1%Z].
Proof.
  destruct (s_conns (demo_state (demo_before ++ LAccept 7 :: demo_after)) !! 7) as [cn|] eqn:E;
    [|by vm_compute in E].
  destruct (clients_see_ring_order 2 demo_before demo_after
    (demo_state (demo_before ++ LAccept 7 :: demo_after)) 7 cn) as (_ & Hs & _);
    [lia|lia|by vm_compute|by vm_compute|done|].
  exists cn. split; [done|]. vm_compute in E. injection E as <-. split; [exact Hs|by vm_compute].
Defined.
