(* ===== verification/Drain.v ===== *)
(** * Emptying the ring

    Nothing the daemon took from the kernel stays with it for good: from every
    reachable state the goroutines of a socket, without any help from the kernel or
    a client, can come to rest with every connection ended, every reference count
    at zero, and every block that anybody held given back.  The schedule has four
    parts: getNewBlocks finishes a block it is passing on, run distributes what is
    queued, the connections end one after the other (file Shutdown), and run
    returns to its select. *)

From stdpp Require Import base list numbers option gmap.
From Stdlib Require Import ZArith Lia.
From S2P Require Import Prelude Bytes Protocol Chan Block Socket SocketInv SocketSafety.
From S2P Require Import SocketExcl Shutdown.

Local Open Scope nat_scope.

(** ** A block in use is given back

    A block is in order if somebody holds it, or is about to reset its status, or
    the kernel owns it.  Only the kernel can change that. *)
Definition in_order (s : state) (i : nat) : Prop :=
  ∀ bl, s_blocks s !! i = Some bl → (0 < b_r bl)%Z ∨ pending s i ∨ b_status bl = 0%Z.

(** How the goroutines change a block in order. *)
Lemma in_order_same (s s' : state) (i : nat) :
  s_blocks s' = s_blocks s → (pending s i → pending s' i) → in_order s i → in_order s' i.
Proof. intros Hs Hp Ho bl Hbl. rewrite Hs in Hbl. destruct (Ho bl Hbl) as [|[|]]; auto. Qed.

Lemma in_order_ref (s s' : state) (b i : nat) :
  Inv s → conn_bound s → s_blocks s' = alter ref b (s_blocks s) →
  (pending s i → pending s' i) → in_order s i → in_order s' i.
Proof.
  intros HI Hb Hs Hp Ho bl'. rewrite Hs, list_lookup_alter. case_decide; subst.
  - destruct (s_blocks s !! i) as [bl|] eqn:Hbl; simpl; [|done]. intros [= <-]. left. simpl.
    rewrite (i_ref _ HI _ _ Hbl). pose proof (holders_bound s HI i). unfold conn_bound in Hb.
    rewrite int32_small; lia.
  - intros Hbl. destruct (Ho _ Hbl) as [|[|]]; auto.
Qed.

Lemma in_order_dec (s s' : state) (b i : nat) (bl : block) :
  Inv s → conn_bound s → s_blocks s !! b = Some bl → 0 < holders s b →
  s_blocks s' = alter (λ bl, (unref_dec bl).1) b (s_blocks s) →
  (pending s i → pending s' i) → ((unref_dec bl).2 = 0%Z → pending s' b) →
  in_order s i → in_order s' i.
Proof.
  intros HI Hb Hbl Hpos Hs Hp H0 Ho bl'. rewrite Hs, list_lookup_alter. case_decide; subst.
  - rewrite Hbl. intros [= <-]. pose proof (dec_value s i bl HI Hb Hbl Hpos) as Hv.
    destruct (decide ((unref_dec bl).2 = 0%Z)) as [E|E]; [auto|]. left.
    change (0 < (unref_dec bl).2)%Z. lia.
  - intros Hbl'. destruct (Ho _ Hbl') as [|[|]]; auto.
Qed.

Lemma in_order_clear (s s' : state) (b i : nat) :
  s_blocks s' = alter clear b (s_blocks s) → (i ≠ b → pending s i → pending s' i) →
  in_order s i → in_order s' i.
Proof.
  intros Hs Hp Ho bl'. rewrite Hs, list_lookup_alter. case_decide as E; subst.
  - destruct (s_blocks s !! i); simpl; [|done]. intros [= <-]. auto.
  - intros Hbl. destruct (Ho _ Hbl) as [|[|]]; auto.
Qed.

(** Windows that stay open. *)
Lemma pending_conn_keep (s s' : state) (c : nat) (cn cn' : conn) (i : nat) :
  s_conns s !! c = Some cn → run_clearing (s_run s') = run_clearing (s_run s) →
  s_conns s' = <[c := cn']> (s_conns s) →
  (clearing (c_pc cn) = Some i → clearing (c_pc cn') = Some i) → pending s i → pending s' i.
Proof.
  intros Hc Hr Hs Hcl [Hp|(c0 & cn0 & H0 & Hp)]; [left; by rewrite Hr|]. right.
  exists c0. rewrite Hs. destruct (decide (c0 = c)) as [->|].
  - rewrite lookup_insert_eq. simplify_eq. eauto.
  - rewrite lookup_insert_ne by done. eauto.
Qed.

Lemma pending_run_keep (s s' : state) (i : nat) :
  s_conns s' = s_conns s →
  (run_clearing (s_run s) = Some i → run_clearing (s_run s') = Some i) →
  pending s i → pending s' i.
Proof. intros Hs Hr [Hp|Hp]; [left; auto|right; by rewrite Hs]. Qed.

(** No goroutine of the daemon puts a block out of order. *)
Lemma in_order_conn (s s' : state) (c i : nat) (cn : conn) :
  Inv s → conn_bound s → s_conns s !! c = Some cn →
  conn_effect (s_nb s) (stage_of s c) s c cn s' → in_order s i → in_order s' i.
Proof.
  intros HI Hb Hc [cn' HW Hh Hcl Hcl'|b bl cn' HW Hh Hbl Hcl Hcl'|b cn' HW Hh Hcl Hcl'].
  - apply in_order_same; [done|]. eapply pending_conn_keep; [done..|]. congruence.
  - eapply in_order_dec; [done..| | | |].
    + pose proof (conn_held_holders s c cn b Hc). specialize (Hh b).
      rewrite is_at_eq in Hh by done. lia.
    + done.
    + eapply pending_conn_keep; [done..|]. congruence.
    + intros E. right. exists c, cn'. split; [apply lookup_insert_eq|]. by rewrite Hcl', E.
  - eapply in_order_clear; [done|]. intros Hne. eapply pending_conn_keep; [done..|]. congruence.
Qed.

Lemma in_order_run (s s' : state) (i : nat) :
  Inv s → conn_bound s → run_step s = Next s' → in_order s i → in_order s' i.
Proof.
  intros HI Hb Hstep. unfold run_step in Hstep.
  destruct (s_run s) as [|c|b [|c todo]|b c todo|b k|b k] eqn:Hpc; [done|..].
  - destruct (s_conns s !! c) as [cn|] eqn:Hc; [|done]. destruct (chan_close _); [|done].
    injection Hstep as <-. apply in_order_same; [done|].
    eapply pending_conn_keep; [done|by rewrite Hpc|done|done].
  - injection Hstep as <-. apply in_order_same; [done|]. apply pending_run_keep; [done|].
    by rewrite Hpc.
  - injection Hstep as <-. eapply in_order_ref; [done..|]. apply pending_run_keep; [done|].
    by rewrite Hpc.
  - destruct (run_send_sent s b c todo HI Hpc) as (cn & ch & Hc & Hs). rewrite Hc, Hs in Hstep.
    injection Hstep as <-. apply in_order_same; [done|].
    eapply pending_conn_keep; [done|by rewrite Hpc|done|done].
  - destruct (dec_block b s) as [[s1 nx]|] eqn:Hd; [|done].
    apply dec_block_inv in Hd as (bl & Hbl & -> & ->).
    assert (0 < holders s b) as Hpos.
    { unfold holders. rewrite Hpc. simpl. rewrite is_at_eq by done. lia. }
    destruct (unref_after (unref_dec bl).2) eqn:E; [| |]; simplify_eq;
      (eapply in_order_dec; [exact HI|exact Hb|exact Hbl|exact Hpos|done| |]).
    + apply pending_run_keep; [done|]. by rewrite Hpc.
    + intros _. by left.
    + apply pending_run_keep; [done|]. by rewrite Hpc.
    + intros E0. by rewrite E0 in E.
  - injection Hstep as <-. eapply in_order_clear; [done|]. intros Hne.
    apply pending_run_keep; [done|]. rewrite Hpc. simpl. congruence.
Qed.

Lemma in_order_step (s s' : state) (l : label) (i : nat) :
  Inv s → conn_bound s → step l s = Next s' → (∀ b status, l ≠ LKernel b status) →
  in_order s i → in_order s' i.
Proof.
  intros HI Hb Hstep Hk. destruct l as [b status|errno| |c|c|order|c choice|c ev]; simpl in Hstep.
  - by destruct (Hk b status).
  - step_cases Hstep; try (by apply in_order_same); by eapply in_order_ref.
  - by eapply in_order_run.
  - unfold run_accept in Hstep. destruct (s_run s) eqn:Hpc; try done.
    destruct (s_conns s !! c) eqn:Hc; [done|]. injection Hstep as <-. apply in_order_same; [done|].
    intros [Hp|(c0 & cn0 & H0 & Hp)]; [by left|]. right. exists c0, cn0. split; [|done].
    simpl. rewrite lookup_insert_ne; [done|congruence].
  - unfold run_old in Hstep. destruct (s_run s) eqn:Hpc; try done.
    destruct (s_conns s !! c) as [cn|] eqn:Hc; [|done]. destruct (c_pc cn) eqn:Hcp; try done.
    injection Hstep as <-. apply in_order_same; [done|].
    eapply pending_conn_keep; [done|by rewrite Hpc|done|by rewrite Hcp].
  - step_cases Hstep. apply in_order_same; [done|]. apply pending_run_keep; [done|].
    intros Hr. by rewrite H in Hr.
  - destruct (s_conns s !! c) as [cn|] eqn:Hc; [|done].
    eapply in_order_conn; [done..|]. eapply conn_step_effect; [|done]. by apply HI.
  - destruct (s_conns s !! c) as [cn|] eqn:Hc; [|done].
    eapply read_step_move in Hstep as (cn' & -> & HW & Hh & Hpc); [|by apply HI].
    apply in_order_same; [done|]. eapply pending_conn_keep; [done..|]. by rewrite Hpc.
Qed.

(** ** Steps without help

    Nothing from the kernel, no new client, no read or write that succeeds. *)
Definition on_its_own (l : label) : Prop :=
  match l with
  | LKernel _ _ | LAccept _ | LConn _ WriteOk => False
  | LG errno => errno = 0%Z
  | LRead _ ev => ev = RdErr []
  | _ => True
  end.

Definition settles (s s' : state) : Prop :=
  ∃ ls, Forall on_its_own ls ∧ run_schedule ls s = Some s'.

Lemma settles_refl (s : state) : settles s s.
Proof. by exists []. Qed.

Lemma settles_cons (l : label) (s s1 s' : state) :
  on_its_own l → step l s = Next s1 → settles s1 s' → settles s s'.
Proof.
  intros Hl Hs (ls & Hls & Hr). exists (l :: ls). split; [by constructor|]. simpl. by rewrite Hs.
Qed.

Lemma settles_trans (s s1 s' : state) : settles s s1 → settles s1 s' → settles s s'.
Proof.
  intros (ls & Hls & Hr) (ks & Hks & Hr'). exists (ls ++ ks).
  split; [by apply Forall_app|]. by rewrite run_schedule_app, Hr.
Qed.

Lemma goodbye_own (c : nat) (l : label) : goodbye c l → on_its_own l.
Proof. by intros [| |[]|]. Qed.

Lemma own_conns (l : label) (s s' : state) :
  on_its_own l → step l s = Next s' → dom (s_conns s') = dom (s_conns s).
Proof. intros Hl Hstep. apply step_dom in Hstep. by destruct l. Qed.

(** What such steps keep. *)
Record sound (n : nat) (s : state) : Prop := {
  so_n : 0 < n;
  so_reach : reachable n s;
  so_bound : conn_bound s;
}.

Lemma sound_inv (n : nat) (s : state) : sound n s → Inv s.
Proof. intros [? ? ?]. by eapply reachable_inv. Qed.

Lemma own_sound (n : nat) (l : label) (s s' : state) :
  on_its_own l → step l s = Next s' → sound n s → sound n s'.
Proof.
  intros Hl Hs [Hn Hr Hb]. split; [done|by eapply reach_step|].
  apply (step_bound s s' l Hs); [|done]. intros c ->. done.
Qed.

Lemma settles_ind (P : state → Prop) (n : nat) (s s' : state) :
  (∀ l s s', on_its_own l → sound n s → step l s = Next s' → P s → P s') →
  settles s s' → sound n s → P s → sound n s' ∧ P s'.
Proof.
  intros HP (ls & Hls & Hr). revert s Hr.
  induction Hls as [|l ls Hl _ IH]; intros s Hr Hs HPs; simpl in Hr; [by simplify_eq|].
  destruct (step l s) as [|s1|] eqn:E; try done.
  eapply IH; [done|by eapply own_sound|by eapply HP].
Qed.

(** An ended connection stays ended. *)
Definition ended (s : state) (c : nat) : Prop :=
  ∃ cn, s_conns s !! c = Some cn ∧ c_pc cn = CDone.

Lemma step_ended (l : label) (s s' : state) (c : nat) :
  step l s = Next s' → ended s c → ended s' c.
Proof.
  intros Hstep (cn & Hc & Hpc). unfold ended.
  step_cases Hstep; eauto;
    match goal with |- context [<[?c0 := _]> _ !! c] =>
      destruct (decide (c0 = c)) as [->|]; [rewrite lookup_insert_eq|rewrite lookup_insert_ne by done]
    end; eauto; simplify_eq; eauto; congruence.
Qed.

(** ** The parts of the schedule *)

(** getNewBlocks finishes the send it has begun. *)
Lemma settle_get (n : nat) (s : state) :
  sound n s → ∃ s', settles s s' ∧ s_g s' ≠ GSend.
Proof.
  intros [Hn Hr Hb]. destruct (decide (s_g s = GSend)) as [Hg|]; [|by eauto using settles_refl].
  destruct (getNewBlocks_never_waits n s 0 Hn Hr Hg) as (s' & Hs & Hg' & _).
  exists s'. split; [|congruence]. eapply (settles_cons (LG 0)); [done..|]. apply settles_refl.
Qed.

(** run passes on everything that is queued and comes back to its select. *)
Definition at_select (s : state) : Prop := s_run s = RSelect ∧ ch_buf (s_new s) = [].

Lemma run_step_queue (s s' : state) :
  step LRun s = Next s' → s_g s' = s_g s ∧ s_new s' = s_new s.
Proof. intros Hstep. by step_cases Hstep. Qed.

Lemma settle_run_rank (n q r : nat) (s : state) :
  sound n s → length (ch_buf (s_new s)) = q → run_rank (s_run s) = r →
  ∃ s', settles s s' ∧ s_g s' = s_g s ∧ at_select s'.
Proof.
  revert r s. induction q as [q IHq] using lt_wf_ind. intros r.
  induction r as [r IHr] using lt_wf_ind. intros s Hs Hq Hrk.
  destruct (decide (run_rank (s_run s) = 0)) as [H0|H0].
  - assert (s_run s = RSelect) as Hsel by (destruct (s_run s); simpl in H0; try done; lia).
    destruct (ch_buf (s_new s)) as [|b l] eqn:Hbuf.
    { exists s. split_and!; [apply settles_refl|done|by split]. }
    set (s1 := set_run (RFan b (elements (s_cur s)))
                 (set_snew (Chan l (ch_cap (s_new s)) (ch_closed (s_new s))) s)).
    assert (step (LNew (elements (s_cur s))) s = Next s1) as Hstep.
    { simpl. unfold run_new, chan_recv. rewrite Hsel, Hbuf, bool_decide_true; [done|].
      split; [apply NoDup_elements|apply list_to_set_elements_L]. }
    destruct (IHq (length l)) with (r := run_rank (s_run s1)) (s := s1) as (s' & Hs' & Hg & Hat);
      [simpl in Hq; lia|eapply own_sound; [|exact Hstep|done]; done|done|done|].
    exists s'. split_and!; [eapply settles_cons; [|exact Hstep|done]; done|done|done].
  - destruct (run_progress s (sound_inv _ _ Hs) (so_bound _ _ Hs)) as (s1 & Hstep & Hlt & _);
      [by intros E; rewrite E in H0|].
    destruct (run_step_queue s s1 Hstep) as [Hg1 Hn1].
    destruct (IHr (run_rank (s_run s1))) with (s := s1) as (s' & Hs' & Hg & Hat);
      [lia|by eapply (own_sound n LRun)|by rewrite Hn1|done|].
    exists s'. split_and!; [by eapply (settles_cons LRun)|congruence|done].
Qed.

Lemma settle_run (n : nat) (s : state) :
  sound n s → ∃ s', settles s s' ∧ s_g s' = s_g s ∧ at_select s'.
Proof. intros Hs. by eapply settle_run_rank. Qed.

(** One connection, and then all of them. *)
Lemma goodbye_queue (c : nat) (l : label) (s s' : state) :
  goodbye c l → step l s = Next s' → s_g s' = s_g s ∧ s_new s' = s_new s.
Proof. intros Hg Hstep. by destruct Hg; step_cases Hstep. Qed.

Lemma leads_settles (c : nat) (s s' : state) :
  leads c s s' → settles s s' ∧ s_g s' = s_g s ∧ s_new s' = s_new s.
Proof.
  intros (ls & Hls & Hr). revert s Hr.
  induction Hls as [|l ls Hl _ IH]; intros s Hr; simpl in Hr.
  { simplify_eq. split; [apply settles_refl|done]. }
  destruct (step l s) as [|s1|] eqn:E; try done.
  destruct (IH s1 Hr) as (Hs & Hg & Hn). destruct (goodbye_queue c l s s1 Hl E) as [Hg1 Hn1].
  split_and!; [eapply settles_cons; [by eapply goodbye_own|done..]|congruence..].
Qed.

Lemma settles_ended (n c : nat) (s s' : state) :
  settles s s' → sound n s → ended s c → ended s' c.
Proof.
  intros Hs Hso He. apply (settles_ind (λ s, ended s c) n s s'); [|done..].
  intros l s1 s2 _ _. apply step_ended.
Qed.

Lemma settles_sound (n : nat) (s s' : state) : settles s s' → sound n s → sound n s'.
Proof. intros Hs Hso. by apply (settles_ind (λ _, True) n s s'). Qed.

Lemma settle_conns (n : nat) (cs : list nat) (s : state) :
  sound n s → Forall (λ c, c ∈ dom (s_conns s)) cs →
  ∃ s', settles s s' ∧ s_g s' = s_g s ∧ s_new s' = s_new s ∧ Forall (ended s') cs.
Proof.
  intros Hs. revert s Hs. induction cs as [|c cs IH]; intros s Hs Hcs.
  { exists s. split_and!; [apply settles_refl|done..]. }
  apply Forall_cons_iff in Hcs as [[cn Hc]%elem_of_dom Hcs].
  destruct (leads_done _ _ _ c s cn (sound_inv _ _ Hs) (so_bound _ _ Hs) Hc eq_refl eq_refl eq_refl)
    as (s1 & cn1 & (Hs1 & Hg1 & Hn1)%leads_settles & Hc1 & Hpc1).
  pose proof (settles_sound n s s1 Hs1 Hs) as Hso1.
  destruct (IH s1 Hso1) as (s' & Hs' & Hg' & Hn' & He).
  { destruct (settles_ind (λ s', dom (s_conns s') = dom (s_conns s)) n s s1) as [_ Hd]; try done.
    - intros l s2 s3 Hl _ Hst Hd. by rewrite (own_conns l s2 s3 Hl Hst).
    - by rewrite Hd. }
  exists s'. split_and!; [by eapply settles_trans|congruence..|].
  constructor; [|done]. eapply settles_ended; [done..|]. by exists cn1.
Qed.

(** At rest nobody holds a block. *)
Lemma rest_holders (n : nat) (s : state) (i : nat) :
  sound n s → s_g s ≠ GSend → at_select s → (∀ c cn, s_conns s !! c = Some cn → c_pc cn = CDone) →
  holders s i = 0 ∧ ¬ pending s i.
Proof.
  intros [Hn Hr Hb] Hg [Hsel Hq] Hdone. split.
  - unfold holders, queued, g_own. rewrite Hsel, Hq. rewrite conns_held_0.
    + by destruct (s_g s).
    + intros c cn Hc. by apply (conn_ended n s c cn Hn Hr Hc), (Hdone c).
  - intros [Hp|(c & cn & Hc & Hp)]; [by rewrite Hsel in Hp|]. by rewrite (Hdone c cn Hc) in Hp.
Qed.

(** C16: no block and no reference stays with the daemon for good: from every reachable
    state, its goroutines can come to rest on their own (no kernel step, no new client,
    every read and write failing) with every connection ended, every reference count
    zero, and every block that somebody held, queued or was about to reset owned by
    the kernel again. *)
Theorem ring_can_drain (n : nat) (s : state) :
  0 < n → reachable n s → conn_bound s →
  ∃ s', settles s s' ∧ (∀ c cn, s_conns s' !! c = Some cn → c_pc cn = CDone) ∧
    ∀ i bl bl', s_blocks s !! i = Some bl → s_blocks s' !! i = Some bl' →
      b_r bl' = 0%Z ∧ ((0 < b_r bl)%Z ∨ pending s i → b_status bl' = 0%Z).
Proof.
  intros Hn Hr Hb. assert (sound n s) as Hs by done.
  destruct (settle_get n s Hs) as (s1 & R1 & G1).
  pose proof (settles_sound _ _ _ R1 Hs) as Hs1.
  destruct (settle_run n s1 Hs1) as (s2 & R2 & G2 & A2).
  pose proof (settles_sound _ _ _ R2 Hs1) as Hs2.
  destruct (settle_conns n (elements (dom (s_conns s2))) s2 Hs2) as (s3 & R3 & G3 & N3 & E3).
  { apply Forall_forall. set_solver. }
  pose proof (settles_sound _ _ _ R3 Hs2) as Hs3.
  destruct (settle_run n s3 Hs3) as (s4 & R4 & G4 & A4).
  pose proof (settles_sound _ _ _ R4 Hs3) as Hs4.
  assert (settles s s4) as R by (do 3 (eapply settles_trans; [done|]); done).
  assert (∀ c cn, s_conns s4 !! c = Some cn → c_pc cn = CDone) as Hdone.
  { destruct (settles_ind (λ s, dom (s_conns s) = dom (s_conns s2)) n s2 s4) as [_ Hd]; try done.
    - intros l sa sb Hl _ Hst Hd. by rewrite (own_conns l sa sb Hl Hst).
    - by eapply settles_trans.
    - intros c cn Hc. rewrite Forall_forall in E3.
      destruct (settles_ended n c s3 s4 R4 Hs3) as (cn' & Hc' & Hpc); [|congruence].
      apply E3, elem_of_elements. rewrite <- Hd. by apply elem_of_dom_2 in Hc. }
  exists s4. split_and!; [done..|]. intros i bl bl' Hbl Hbl'.
  destruct (rest_holders n s4 i Hs4) as [H0 Hp]; [congruence|done..|].
  assert (b_r bl' = 0%Z) as Hr0.
  { rewrite (i_ref _ (sound_inv _ _ Hs4) _ _ Hbl'). by rewrite H0. }
  split; [done|]. intros Huse.
  destruct (settles_ind (λ s, in_order s i) n s s4) as [_ Ho]; try done.
  - intros l sa sb Hl Hso Hst. eapply (in_order_step sa sb l); [by eapply sound_inv|apply Hso|done|].
    by intros b st ->.
  - intros bl0 Hbl0. simplify_eq. tauto.
  - destruct (Ho bl' Hbl') as [|[|]]; [lia|done|done].
Qed.

(** A client holds block 0 and another block is on its way to it. *)
Definition demo_busy : list label :=
  demo_deliver ++ demo_write ++ [LKernel 1 1; LG 0; LG 0; LG 0; LG 0].

Lemma ring_can_drain_witness :
  option_map b_r (s_blocks (demo_state demo_busy) !! 1) = Some 1%Z ∧
  ∃ s', settles (demo_state demo_busy) s' ∧
    ∀ bl', s_blocks s' !! 1 = Some bl' → b_r bl' = 0%Z ∧ b_status bl' = 0%Z.
Proof.
  split; [reflexivity|].
  destruct (ring_can_drain 2 (demo_state demo_busy)) as (s' & Hs & _ & H);
    [lia|apply demo_reachable; by vm_compute|by vm_compute|].
  exists s'. split; [done|]. intros bl' Hbl'.
  destruct (s_blocks (demo_state demo_busy) !! 1) as [bl|] eqn:E; [|by vm_compute in E].
  destruct (H 1 bl bl' E Hbl') as [H1 H2]. split; [done|]. apply H2. left.
  vm_compute in E. by simplify_eq.
Defined.
