(* ===== verification/Fair.v ===== *)
(** * A connection ends: liveness under fair scheduling

    The file Shutdown shows that a connection without its client can always be taken
    to its end.  Here it is shown that it is: in every infinite execution of the
    socket, whatever the other clients, the kernel and getNewBlocks do, once the
    client of a connection is gone the connection comes to its end, provided the
    scheduler is fair to the goroutines involved.  Weak fairness (a goroutine that
    can always move moves) is enough for conn.run, handleReads and run; the select of
    run must not pass over a waiting goodbye forever (strong fairness, which Go's
    random choice among ready cases gives).

    The proof uses one measure of a connection that its own goroutines decrease with
    every step and that nobody else increases: blocks the connection does not have are
    counted too, so that a new block arriving lowers it. *)

From stdpp Require Import base list numbers option gmap.
From Stdlib Require Import ZArith Lia.
From S2P Require Import Prelude Bytes Protocol Chan Block Socket SocketInv SocketSafety Shutdown.

Local Open Scope nat_scope.

(** ** The measure *)

(** How many of the first [n] numbers [f] maps to 0. *)
Fixpoint zeros (f : nat → nat) (n : nat) : nat :=
  match n with O => 0 | S n => (if f n =? 0 then 1 else 0) + zeros f n end.

Lemma zeros_ext (f g : nat → nat) (n : nat) : (∀ i, i < n → f i = g i) → zeros f n = zeros g n.
Proof.
  induction n as [|n IH]; intros H; simpl; [done|]. rewrite (H n), IH by (intros; try apply H; lia). done.
Qed.

Lemma zeros_change (f g : nat → nat) (b n : nat) :
  (∀ i, i ≠ b → f i = g i) → zeros g n ≤ S (zeros f n).
Proof.
  intros H. induction n as [|n IH]; simpl; [lia|]. destruct (decide (n = b)) as [->|Hne].
  - rewrite (zeros_ext g f) by (intros i Hi; rewrite H; lia). repeat case_match; lia.
  - rewrite H by done. lia.
Qed.

Lemma zeros_taken (f g : nat → nat) (b n : nat) :
  (∀ i, i ≠ b → f i = g i) → f b = 0 → g b ≠ 0 → b < n → S (zeros g n) = zeros f n.
Proof.
  intros H Hf Hg. induction n as [|n IH]; intros Hb; simpl; [lia|].
  destruct (decide (n = b)) as [->|Hne].
  - rewrite Hf, (zeros_ext g f) by (intros i Hi; rewrite H; lia).
    destruct (Nat.eqb_spec (g b) 0); [done|]. simpl. lia.
  - rewrite H by done. specialize (IH ltac:(lia)). lia.
Qed.

(** The references of a connection by its log: sent to it and not given up. *)
Definition refs_open (sent put : list nat) (i : nat) : nat := occ i sent - occ i put.

Lemma refs_open_held (nb : nat) (st : stage) (cn : conn) (i : nat) :
  conn_wf nb st cn →
  refs_open (l_sent (c_log cn)) (l_put (c_log cn)) i = conn_held cn i ∧ occ i (l_put (c_log cn)) ≤ occ i (l_sent (c_log cn)).
Proof.
  intros HW. unfold refs_open, conn_held. rewrite (cw_fifo _ _ _ HW), occ_app.
  rewrite (cw_ledger _ _ _ HW i). lia.
Qed.

Definition rd_rank (rd : hpc) : nat :=
  match rd with HDone => 0 | HClose => 1 | HRead | HVal _ _ => 2 | HSend _ => 11 end.

Definition at_rank (nb : nat) (pc : cpc) : nat :=
  match pc with
  | CBatch _ _ => 3 | CInner _ => 2 | CWrite _ => 1
  | CUnref _ KSelect => 7 | CUnref _ KDrain => 2 | CUnref _ (KFinal i) => 2 + 4 * (S nb - i)
  | CClear _ (KFinal i) => 1 + 4 * (S nb - i) | CClear _ _ => 1
  | CFinal i => 4 * (S nb - i)
  | _ => 0
  end.

(** What is left to do in the current phase of conn.run. *)
Definition chores (nb : nat) (cn : conn) : nat :=
  (if 4 <=? phase_rank (c_pc cn) then 5 * zeros (refs_open (l_sent (c_log cn)) (l_put (c_log cn))) nb
   else 0) +
  4 * length (ch_buf (c_new cn)) + 8 * length (ch_buf (c_old cn)) +
  rd_rank (c_rd cn) + at_rank nb (c_pc cn) + (if ch_closed (c_new cn) then 0 else 1).

Definition closer (nb : nat) (cn cn' : conn) : Prop :=
  phase_rank (c_pc cn') < phase_rank (c_pc cn) ∨
  phase_rank (c_pc cn') = phase_rank (c_pc cn) ∧ chores nb cn' < chores nb cn.

(** ** The connection's own steps *)

(** The lengths of the queues around a channel operation. *)
Ltac queues :=
  repeat match goal with
  | H : chan_recv _ = Recv _ _ |- _ =>
      let Hb := fresh "Hb" in
      apply chan_recv_inv in H as (Hb & _ & ?); apply (f_equal length) in Hb; simpl in Hb
  | H : chan_send _ _ = Sent _ |- _ =>
      let Hb := fresh "Hb" in
      apply chan_send_inv in H as (Hb & _ & ? & ?); apply (f_equal length) in Hb;
      rewrite length_app in Hb; simpl in Hb
  end.

Lemma conn_step_closer (s s' : state) (c : nat) (cn : conn) (choice : conn_choice) :
  length (c_out cn) = s_nb s → conn_step c cn choice s = Next s' →
  ∃ cn', s_conns s' !! c = Some cn' ∧ closer (s_nb s) cn cn'.
Proof.
  intros Hout Hstep. unfold conn_step in Hstep.
  destruct (c_pc cn) as [|b out|out|out|b k|b k| | | | |i|] eqn:Hpc.
  5: { destruct (dec_block b s) as [[s1 nx]|] eqn:Hd; [|done].
       apply dec_block_inv in Hd as (bl & _ & -> & _).
       assert (zeros (refs_open (l_sent (c_log cn)) (l_put (c_log cn) ++ [b])) (s_nb s) ≤
               S (zeros (refs_open (l_sent (c_log cn)) (l_put (c_log cn))) (s_nb s))) as Hz.
       { apply (zeros_change _ _ b). intros i Hi. unfold refs_open.
         rewrite occ_app. simpl. rewrite is_at_ne by done. lia. }
       unfold closer, chores. destruct nx; simplify_eq; (eexists; split; [apply lookup_insert_eq|]);
         simpl; rewrite Hpc; destruct k; simpl; lia. }
  5: { simplify_eq. eexists; split; [apply lookup_insert_eq|]. unfold closer, chores. simpl. rewrite ?Hpc. destruct k; simpl; lia. }
  all: repeat (case_match; simplify_eq); simplify_eq; queues; simpl in *;
    (eexists; split; [apply lookup_insert_eq|]); unfold closer, chores; simpl; rewrite ?Hpc; simpl;
    repeat match goal with
    | H : ch_closed _ = ch_closed _ |- _ => rewrite H
    | H : _ !! _ = Some _ |- _ => apply lookup_lt_Some in H; rewrite Hout in H
    end; try lia.
Qed.

(** A read that fails, as all do when the client is gone. *)
Definition failing (ev : read_event) : Prop := match ev with RdData _ => False | _ => True end.

Lemma read_step_closer (s s' : state) (c : nat) (cn : conn) (ev : read_event) :
  failing ev → read_step c cn ev s = Next s' →
  ∃ cn', s_conns s' !! c = Some cn' ∧ closer (s_nb s) cn cn'.
Proof.
  intros Hev Hstep. unfold read_step in Hstep. unfold closer, chores.
  destruct (c_rd cn) as [|typ len|v| |] eqn:Hrd.
  - destruct (read_possible cn 4 ev); [|done]. simplify_eq.
    eexists; split; [apply lookup_insert_eq|]. simpl. right. split; [done|].
    destruct ev; [done|simpl; lia..].
  - destruct (read_possible _ _ ev); [|done]. destruct ev; simplify_eq; [done|..];
      (eexists; split; [apply lookup_insert_eq|]); simpl; lia.
  - destruct (chan_send (c_old cn) v) as [| |ch] eqn:Hs; simplify_eq. queues.
    eexists; split; [apply lookup_insert_eq|]. simpl. lia.
  - unfold chan_close in Hstep. destruct (ch_closed (c_old cn)); simplify_eq.
    eexists; split; [apply lookup_insert_eq|]. simpl. lia.
  - done.
Qed.

(** ** Everybody else's steps *)

(** Labels that are not a read of new bytes from the client of [c]. *)
Definition calm (c : nat) (l : label) : Prop := ∀ ev, l = LRead c ev → failing ev.

(** The record of a connection that a step of somebody else touches. *)
Lemma other_conn (c c' : nat) (cn cn' : conn) (m : gmap nat conn) (nb : nat) :
  m !! c = Some cn → (c' = c → closer nb cn cn') →
  <[c' := cn']> m !! c = Some cn ∨ ∃ cn1, <[c' := cn']> m !! c = Some cn1 ∧ closer nb cn cn1.
Proof.
  intros Hc Hcl. destruct (decide (c' = c)) as [->|Hne].
  - right. exists cn'. by rewrite lookup_insert_eq; auto.
  - left. by rewrite lookup_insert_ne.
Qed.

(** run closes a queue: only this changes, from open to closed. *)
Lemma close_closer (nb : nat) (cn : conn) (ch : chan nat) :
  chan_close (c_new cn) = Some ch → closer nb cn (set_new ch cn).
Proof.
  unfold chan_close. destruct (ch_closed (c_new cn)) eqn:E; [done|]. intros [= <-].
  right. split; [done|]. unfold chores. simpl. rewrite E. lia.
Qed.

(** run sends a block: one block fewer the connection does not have. *)
Lemma arrival_sent (s : state) (b c : nat) (todo : list nat) (cn : conn) :
  Inv s → s_run s = RSend b c todo → s_conns s !! c = Some cn →
  S (zeros (refs_open (l_sent (c_log cn) ++ [b]) (l_put (c_log cn))) (s_nb s)) =
  zeros (refs_open (l_sent (c_log cn)) (l_put (c_log cn))) (s_nb s).
Proof.
  intros HI Hpc Hc. destruct (run_send_facts s b c todo HI Hpc)
    as (cn' & Hc' & Hst & H0 & Hlt & _). simplify_eq.
  pose proof (i_conn _ HI _ _ Hc) as HW.
  destruct (refs_open_held _ _ cn b HW) as [Hr Hle]. apply (zeros_taken _ _ b); [|congruence| |done].
  - intros i Hi. unfold refs_open. rewrite occ_app. simpl. rewrite is_at_ne by done. lia.
  - unfold refs_open. rewrite occ_app. simpl. rewrite is_at_eq by done. lia.
Qed.

Lemma arrival_closer (s : state) (b c : nat) (todo : list nat) (cn : conn) (ch : chan nat) :
  Inv s → s_run s = RSend b c todo → s_conns s !! c = Some cn → chan_send (c_new cn) b = Sent ch →
  closer (s_nb s) cn (log_sent b (set_new ch cn)).
Proof.
  intros HI Hpc Hc Hs. pose proof (arrival_sent s b c todo cn HI Hpc Hc) as Hz.
  destruct (run_send_facts s b c todo HI Hpc) as (cn' & Hc' & Hst & _). simplify_eq.
  pose proof (cw_stage _ _ _ (i_conn _ HI _ _ Hc)) as Hok.
  rewrite Hst in Hok. destruct Hok as [_ Hph].
  assert (4 <= phase_rank (c_pc cn)) as Hge
    by (destruct (c_pc cn) as [| | | |? []|? []| | | | | |]; simpl in *; (done || lia)).
  queues. right. split; [done|]. unfold chores.
  cbn [c_pc c_new c_old c_rd c_log l_sent l_put log_sent set_new].
  rewrite (proj2 (Nat.leb_le 4 _) Hge).
  repeat match goal with H : ch_closed _ = _ |- _ => rewrite H end. lia.
Qed.

(** No step takes a connection without its client further from its end. *)
Lemma step_closer (s s' : state) (l : label) (c : nat) (cn : conn) :
  Inv s → s_conns s !! c = Some cn → calm c l → step l s = Next s' →
  s_conns s' !! c = Some cn ∨ ∃ cn', s_conns s' !! c = Some cn' ∧ closer (s_nb s) cn cn'.
Proof.
  intros HI Hc Hcalm Hstep. destruct l as [b status|errno| |c'|c'|order|c' choice|c' ev];
    simpl in Hstep.
  - unfold kernel_step in Hstep. destruct (_ ≫= _); simplify_eq. by left.
  - left. by step_cases Hstep.
  - unfold run_step in Hstep.
    destruct (s_run s) as [|c'|b [|c' todo]|b c' todo|b k|b k] eqn:Hpc; simplify_eq; try by left.
    + destruct (s_conns s !! c') as [cn'|] eqn:Hc'; [|done].
      destruct (chan_close (c_new cn')) eqn:E; simplify_eq. apply other_conn; [done|].
      intros ->. simplify_eq. by apply close_closer.
    + destruct (run_send_sent s b c' todo HI Hpc) as (cn' & ch & Hc' & Hs).
      rewrite Hc', Hs in Hstep. simplify_eq. apply other_conn; [done|]. intros ->. simplify_eq.
      by eapply arrival_closer.
    + left. by step_cases Hstep.
  - unfold run_accept in Hstep. destruct (s_run s); try done.
    destruct (s_conns s !! c') eqn:Hc'; simplify_eq. left. simpl.
    rewrite lookup_insert_ne; [done|congruence].
  - unfold run_old in Hstep. destruct (s_run s); try done.
    destruct (s_conns s !! c') as [cn'|] eqn:Hc'; [|done].
    destruct (c_pc cn') eqn:Hp; simplify_eq. apply other_conn; [done|]. intros ->. simplify_eq.
    left. rewrite Hp. simpl. lia.
  - left. by step_cases Hstep.
  - destruct (s_conns s !! c') as [cn'|] eqn:Hc'; [|done].
    destruct (decide (c' = c)) as [->|Hne].
    + simplify_eq. right. eapply conn_step_closer; [apply (i_conn _ HI _ _ Hc)|done].
    + left. eapply conn_step_effect in Hstep; [|by apply HI].
      destruct Hstep; simpl; by rewrite lookup_insert_ne.
  - destruct (s_conns s !! c') as [cn'|] eqn:Hc'; [|done].
    destruct (decide (c' = c)) as [->|Hne].
    + simplify_eq. right. eapply read_step_closer; [by apply Hcalm|done].
    + left. eapply read_step_move in Hstep as (cn1 & -> & _); [|by apply HI].
      simpl. by rewrite lookup_insert_ne.
Qed.

(** ** When a connection can move *)

(** The branch conn.run can take. *)
Definition pick (cn : conn) : conn_choice :=
  match c_pc cn with
  | CSelect => match ch_buf (c_new cn) with [] => PickOld | _ => PickNew end
  | CWrite _ => WriteOk
  | _ => Tau
  end.

Definition drained {A} (ch : chan A) : bool :=
  match ch_buf ch with [] => negb (ch_closed ch) | _ => false end.

(** conn.run waits for somebody else. *)
Definition waiting (cn : conn) : bool :=
  match c_pc cn with
  | CSelect => drained (c_new cn) && drained (c_old cn)
  | CDrainNew => drained (c_new cn)
  | CDrainOld => drained (c_old cn)
  | CSendOld | CDone => true
  | _ => false
  end.

Lemma drained_inv {A} (ch : chan A) :
  drained ch = true → ch_buf ch = [] ∧ ch_closed ch = false.
Proof. unfold drained. by destruct (ch_buf ch), (ch_closed ch). Qed.

Definition able (P : label → Prop) (s : state) : Prop := ∃ l s', P l ∧ step l s = Next s'.

Definition of_conn (c : nat) (l : label) : Prop := ∃ choice, l = LConn c choice.
Definition of_reader (c : nat) (l : label) : Prop := ∃ ev, l = LRead c ev ∧ failing ev.

Section able.
Context (s : state) (HI : Inv s) (Hb : conn_bound s).
Context (c : nat) (cn : conn) (Hc : s_conns s !! c = Some cn).

Lemma conn_able : waiting cn = false → able (of_conn c) s.
Proof.
  intros Hw. destruct (conn_step c cn (pick cn) s) as [|s'|why] eqn:E.
  - exfalso. pose proof (i_conn _ HI _ _ Hc) as HW. unfold conn_step, pick in E.
    unfold waiting, drained in Hw.
    destruct (c_pc cn) as [|b out|out|out|b k|b k| | | | |i|] eqn:Hpc; try done.
    + destruct (serving_open _ _ _ HW) as [_ Hop]; [by rewrite Hpc|]. rewrite Hop in Hw.
      unfold chan_recv in E. destruct (ch_buf (c_new cn)) as [|b l] eqn:Hbuf; [|done].
      destruct (ch_buf (c_old cn)) as [|v l] eqn:Hold.
      * by destruct (ch_closed (c_old cn)).
      * repeat case_match; done.
    + by repeat case_match.
    + by destruct (chan_recv (c_new cn)).
    + by destruct (dec_block b s) as [[? []]|].
    + unfold chan_recv in E. by destruct (ch_buf (c_new cn)), (ch_closed (c_new cn)).
    + unfold chan_recv in E. by destruct (ch_buf (c_old cn)), (ch_closed (c_old cn)).
    + by repeat case_match.
  - exists (LConn c (pick cn)), s'. split; [by eexists|]. simpl. by rewrite Hc.
  - by destruct (conn_no_crash s c cn (pick cn) why HI Hb Hc).
Qed.

(** The reader, while conn.run has nothing from it. *)
Lemma reader_able : drained (c_old cn) = true → able (of_reader c) s.
Proof.
  intros [Hbuf Hop]%drained_inv. pose proof (i_conn _ HI _ _ Hc) as HW.
  destruct (cw_reader _ _ _ HW) as [_ Hrd].
  destruct (read_step c cn (RdErr []) s) as [|s'|why] eqn:E.
  - exfalso. unfold read_step in E. destruct (c_rd cn) as [|typ len|v| |]; try done.
    + rewrite chan_send_room in E; [done|done|]. rewrite Hbuf, (cw_oldcap _ _ _ HW). apply HI.
    + by destruct (chan_close (c_old cn)).
    + congruence.
  - exists (LRead c (RdErr [])), s'. split; [by eexists|]. simpl. by rewrite Hc.
  - by destruct (read_no_crash s c cn (RdErr []) why HI Hc).
Qed.

Lemma run_able : s_run s ≠ RSelect → able (λ l, l = LRun) s.
Proof.
  intros Hr. destruct (run_progress s HI Hb Hr) as (s' & Hs & _). by exists LRun, s'.
Qed.

(** A connection that waits for its queue to be closed is run's next job. *)
Lemma draining_run : c_pc cn = CDrainNew → drained (c_new cn) = true → s_run s = RClose c.
Proof.
  intros Hpc [_ Hop]%drained_inv. pose proof (cw_stage _ _ _ (i_conn _ HI _ _ Hc)) as Hst.
  unfold stage_of, closing in Hst. case_decide; [|destruct Hst; congruence].
  destruct (s_run s) as [|c'| | | |] eqn:Hr;
    try (destruct Hst as [_ Hst]; by rewrite Hpc in Hst).
  case_bool_decide; [by subst|]. destruct Hst as [_ Hst]. by rewrite Hpc in Hst.
Qed.
End able.

(** ** Fair executions *)

(** An infinite execution of the socket. *)
Record execution (n : nat) (tr : nat → state) (lab : nat → label) : Prop := {
  ex_start : reachable n (tr 0);
  ex_step k : step (lab k) (tr k) = Next (tr (S k));
}.

(** Whoever can always move moves. *)
Definition weak_fair (tr : nat → state) (lab : nat → label) (P : label → Prop) : Prop :=
  ∀ k, ∃ j, k ≤ j ∧ (P (lab j) ∨ ¬ able P (tr j)).

(** Whoever can move again and again moves. *)
Definition strong_fair (tr : nat → state) (lab : nat → label) (P : label → Prop) : Prop :=
  ∀ k, ∃ j, k ≤ j ∧ (P (lab j) ∨ ∀ i, j ≤ i → ¬ able P (tr i)).

(** A scheduler that is fair to what the end of connection [c] needs. *)
Record fair (c : nat) (tr : nat → state) (lab : nat → label) : Prop := {
  f_conn : weak_fair tr lab (of_conn c);
  f_read : weak_fair tr lab (of_reader c);
  f_run : weak_fair tr lab (λ l, l = LRun);
  f_bye : strong_fair tr lab (λ l, l = LOld c);
}.

Section run.
Context (n : nat) (tr : nat → state) (lab : nat → label).
Context (Hn : 0 < n) (Hex : execution n tr lab) (Hb : ∀ k, conn_bound (tr k)).

Lemma ex_reachable (k : nat) : reachable n (tr k).
Proof. induction k as [|k IH]; [apply Hex|]. eapply reach_step; [done|apply Hb|apply Hex]. Qed.

Lemma ex_inv (k : nat) : Inv (tr k).
Proof. eapply reachable_inv; [done|apply ex_reachable]. Qed.

Lemma ex_nb (k : nat) : s_nb (tr k) = n.
Proof. apply reachable_nb, ex_reachable. Qed.

(** run comes back to its select again and again. *)
Lemma run_stays (s s' : state) (l : label) :
  step l s = Next s' → s_run s ≠ RSelect → l ≠ LRun → s_run s' = s_run s.
Proof.
  intros Hstep Hr Hl. by destruct l; [step_cases Hstep..].
Qed.

(** Until it takes a step of its own. *)
Lemma run_first (k j : nat) :
  k ≤ j → s_run (tr k) ≠ RSelect →
  s_run (tr j) = s_run (tr k) ∨ ∃ i, k ≤ i ∧ lab i = LRun ∧ s_run (tr i) = s_run (tr k).
Proof.
  intros Hle Hr. induction Hle as [|j Hle [IH|IH]]; [by left| |by right].
  assert (lab j = LRun ∨ lab j ≠ LRun) as [Hl|Hl] by (destruct (lab j); auto).
  - right. by exists j.
  - left. by rewrite (run_stays _ _ _ (ex_step _ _ _ Hex j)) by (done || by rewrite IH).
Qed.

Lemma run_rank_step (j : nat) :
  lab j = LRun → s_run (tr j) ≠ RSelect → run_rank (s_run (tr (S j))) < run_rank (s_run (tr j)).
Proof.
  intros Hl Hr. destruct (run_progress (tr j) (ex_inv j) (Hb j) Hr) as (s' & Hs & Hlt & _).
  pose proof (ex_step _ _ _ Hex j) as Hs'. rewrite Hl, Hs in Hs'. by injection Hs' as <-.
Qed.

Context (Hrun : weak_fair tr lab (λ l, l = LRun)).

(** run takes its next step. *)
Lemma run_acts (k : nat) :
  s_run (tr k) ≠ RSelect → ∃ i, k ≤ i ∧ lab i = LRun ∧ s_run (tr i) = s_run (tr k).
Proof.
  intros Hsel. destruct (Hrun k) as (j & Hle & Hj).
  destruct (run_first k j Hle Hsel) as [Hsame|]; [|done]. destruct Hj as [Hl|Hj]; [by exists j|].
  destruct Hj. apply run_able; [apply ex_inv|done|by rewrite Hsame].
Qed.

Lemma run_selects (r k : nat) :
  run_rank (s_run (tr k)) = r → ∃ j, k ≤ j ∧ s_run (tr j) = RSelect.
Proof.
  revert k. induction r as [r IH] using lt_wf_ind. intros k Hr.
  destruct (decide (run_rank (s_run (tr k)) = 0)) as [H0|H0].
  { exists k. split; [done|]. destruct (s_run (tr k)); simpl in H0; (done || lia). }
  assert (s_run (tr k) ≠ RSelect) as Hsel by (intros E; by rewrite E in H0).
  destruct (run_acts k Hsel) as (i & Hi & Hl & Hsame).
  pose proof (run_rank_step i Hl ltac:(by rewrite Hsame)) as Hlt. rewrite Hsame in Hlt.
  destruct (IH (run_rank (s_run (tr (S i)))) ltac:(lia) (S i) eq_refl) as (j & Hj & ?).
  exists j. split; [lia|done].
Qed.
End run.

Section fair.
Context (n : nat) (tr : nat → state) (lab : nat → label) (c : nat).
Context (Hn : 0 < n) (Hex : execution n tr lab) (Hb : ∀ k, conn_bound (tr k)).
Context (Hgone : ∀ k, calm c (lab k)) (Hfair : fair c tr lab).

Local Notation inv := (ex_inv n tr lab Hn Hex Hb).

(** At some time the connection is closer to its end than [cn]. *)
Definition nears (cn : conn) : Prop :=
  ∃ j cn', s_conns (tr j) !! c = Some cn' ∧ closer n cn cn'.

Lemma ex_closer (k : nat) (cn : conn) :
  s_conns (tr k) !! c = Some cn → s_conns (tr (S k)) !! c = Some cn ∨ nears cn.
Proof.
  intros Hc. destruct (step_closer _ _ _ c cn (inv k) Hc (Hgone k) (ex_step _ _ _ Hex k))
    as [|(cn' & Hc' & Hcl)]; [by left|]. right. rewrite (ex_nb n tr lab Hex Hb) in Hcl. by exists (S k), cn'.
Qed.

(** It stays as it is or comes closer. *)
Lemma meanwhile (k j : nat) (cn : conn) :
  k ≤ j → s_conns (tr k) !! c = Some cn → s_conns (tr j) !! c = Some cn ∨ nears cn.
Proof.
  intros Hle Hc. induction Hle as [|j _ [IH|IH]]; [by left| |by right]. by apply ex_closer.
Qed.

(** A weakly fair party that can move as long as the connection is as it is, and
    brings it closer when it does. *)
Lemma takes_turn (P : label → Prop) (k : nat) (cn : conn) :
  weak_fair tr lab P → s_conns (tr k) !! c = Some cn →
  (∀ j, s_conns (tr j) !! c = Some cn → able P (tr j)) →
  (∀ j, s_conns (tr j) !! c = Some cn → P (lab j) → nears cn) → nears cn.
Proof.
  intros HP Hc Hable Hcl. destruct (HP k) as (j & Hle & Hj).
  destruct (meanwhile k j cn Hle Hc) as [Hcj|]; [|done].
  destruct Hj as [Hj|Hj]; [by eapply Hcl|]. by destruct Hj; apply Hable.
Qed.

(** conn.run and its reader. *)
Lemma conn_turn (k : nat) (cn : conn) :
  s_conns (tr k) !! c = Some cn → waiting cn = false → nears cn.
Proof.
  intros Hc Hw. apply (takes_turn (of_conn c) k cn (f_conn _ _ _ Hfair) Hc); intros j Hcj.
  - apply (conn_able (tr j) (inv j) (Hb j) c cn Hcj Hw).
  - intros [choice Hl]. pose proof (ex_step _ _ _ Hex j) as Hs. rewrite Hl in Hs. simpl in Hs.
    rewrite Hcj in Hs. apply conn_step_closer in Hs as (cn' & Hc' & Hcl).
    + rewrite (ex_nb n tr lab Hex Hb) in Hcl. by exists (S j), cn'.
    + apply (i_conn _ (inv j) _ _ Hcj).
Qed.

Lemma reader_turn (k : nat) (cn : conn) :
  s_conns (tr k) !! c = Some cn → drained (c_old cn) = true → nears cn.
Proof.
  intros Hc Hd. apply (takes_turn (of_reader c) k cn (f_read _ _ _ Hfair) Hc); intros j Hcj.
  - apply (reader_able (tr j) (inv j) c cn Hcj Hd).
  - intros (ev & Hl & Hev). pose proof (ex_step _ _ _ Hex j) as Hs. rewrite Hl in Hs. simpl in Hs.
    rewrite Hcj in Hs. apply read_step_closer in Hs as (cn' & Hc' & Hcl); [|done].
    rewrite (ex_nb n tr lab Hex Hb) in Hcl. by exists (S j), cn'.
Qed.

(** run closes the queue of a connection that has said goodbye. *)
Lemma close_turn (k : nat) (cn : conn) :
  s_conns (tr k) !! c = Some cn → c_pc cn = CDrainNew → drained (c_new cn) = true → nears cn.
Proof.
  intros Hc Hpc Hd. apply (takes_turn (λ l, l = LRun) k cn (f_run _ _ _ Hfair) Hc); intros j Hcj;
    pose proof (draining_run (tr j) (inv j) c cn Hcj Hpc Hd) as Hr.
  - apply run_able; [apply inv|done|by rewrite Hr].
  - intros Hl. pose proof (ex_step _ _ _ Hex j) as Hs. rewrite Hl in Hs. simpl in Hs.
    unfold run_step in Hs. rewrite Hr, Hcj in Hs.
    destruct (chan_close (c_new cn)) as [ch|] eqn:Hcl; [|done]. injection Hs as Hs.
    exists (S j), (set_new ch cn). split; [|by apply close_closer]. rewrite <- Hs.
    apply lookup_insert_eq.
Qed.

(** run takes the goodbye. *)
Lemma bye_turn (k : nat) (cn : conn) :
  s_conns (tr k) !! c = Some cn → c_pc cn = CSendOld → nears cn.
Proof.
  intros Hc Hpc.
  assert (∀ j, s_conns (tr j) !! c = Some cn → s_run (tr j) = RSelect →
    step (LOld c) (tr j) = Next (set_run (RClose c) (set_conn c (set_pc CDrainNew cn) (tr j)))) as Hbye.
  { intros j Hcj Hr. simpl. unfold run_old. by rewrite Hr, Hcj, Hpc. }
  destruct (f_bye _ _ _ Hfair k) as (j & Hle & [Hl|Hnever]).
  - destruct (meanwhile k j cn Hle Hc) as [Hcj|]; [|done].
    pose proof (ex_step _ _ _ Hex j) as Hs. rewrite Hl in Hs.
    assert (s_run (tr j) = RSelect) as Hr
      by (simpl in Hs; unfold run_old in Hs; by destruct (s_run (tr j))).
    rewrite (Hbye j Hcj Hr) in Hs. injection Hs as Hs.
    exists (S j), (set_pc CDrainNew cn). split; [rewrite <- Hs; apply lookup_insert_eq|].
    left. rewrite Hpc. simpl. lia.
  - destruct (run_selects n tr lab Hn Hex Hb (f_run _ _ _ Hfair) _ j eq_refl) as (i & Hi & Hr).
    destruct (meanwhile k i cn ltac:(lia) Hc) as [Hci|]; [|done].
    destruct (Hnever i Hi). eexists (LOld c), _. split; [done|by apply Hbye].
Qed.

(** Whatever state the connection is in, somebody takes it closer to its end. *)
Lemma always_nears (k : nat) (cn : conn) :
  s_conns (tr k) !! c = Some cn → c_pc cn ≠ CDone → nears cn.
Proof.
  intros Hc Hpc. destruct (waiting cn) eqn:Hw; [|by eapply conn_turn].
  unfold waiting in Hw. destruct (c_pc cn) eqn:E; try done.
  - apply andb_prop in Hw as [_ Hw]. by eapply reader_turn.
  - by eapply bye_turn.
  - by eapply close_turn.
  - by eapply reader_turn.
Qed.

Lemma reaches_end (p w k : nat) (cn : conn) :
  s_conns (tr k) !! c = Some cn → phase_rank (c_pc cn) = p → chores n cn = w →
  ∃ j cn', s_conns (tr j) !! c = Some cn' ∧ c_pc cn' = CDone.
Proof.
  revert w k cn. induction p as [p IHp] using lt_wf_ind. intros w.
  induction w as [w IHw] using lt_wf_ind. intros k cn Hc Hp Hw.
  assert (c_pc cn = CDone ∨ c_pc cn ≠ CDone) as [Hd|Hd] by (destruct (c_pc cn); auto);
    [by eauto|].
  destruct (always_nears k cn Hc Hd) as (j & cn' & Hc' & [Hlt|[Heq Hlt]]); subst.
  - by eapply (IHp _ Hlt).
  - by eapply (IHw _ Hlt).
Qed.
End fair.

(** C15: a connection whose client is gone comes to its end in every fair execution,
    from whatever state and whatever the other clients, the kernel and getNewBlocks
    do meanwhile; and at its end it holds nothing and has given up every block it was
    sent exactly once. *)
Theorem connection_closes (n : nat) (tr : nat → state) (lab : nat → label) (c : nat) (cn : conn) :
  0 < n → execution n tr lab → (∀ k, conn_bound (tr k)) →
  (∀ k, calm c (lab k)) → fair c tr lab → s_conns (tr 0) !! c = Some cn →
  ∃ j cn', s_conns (tr j) !! c = Some cn' ∧ c_pc cn' = CDone ∧
    l_put (c_log cn') ≡ₚ l_sent (c_log cn') ∧ ∀ i, conn_held cn' i = 0.
Proof.
  intros Hn Hex Hb Hgone Hfair Hc.
  destruct (reaches_end n tr lab c Hn Hex Hb Hgone Hfair _ _ 0 cn Hc eq_refl eq_refl)
    as (j & cn' & Hc' & Hpc).
  exists j, cn'. split_and!; [done..| |];
    by apply (conn_ended n (tr j) c cn' Hn (ex_reachable n tr lab Hex Hb j)).
Qed.

(** ** Executions that come to rest

    A schedule, and then getNewBlocks polls a block that stays empty forever: the
    simplest infinite executions, used to exercise the theorems about them. *)
Fixpoint follow (lab : nat → label) (s : state) (k : nat) : state :=
  match k with
  | O => s
  | S k => match step (lab k) (follow lab s k) with Next s' => s' | _ => follow lab s k end
  end.

Definition then_poll (ls : list label) (k : nat) : label := default (LG 0) (ls !! k).

Definition polling (g : gpc) : Prop := g = GLoadR ∨ g = GLoadStatus ∨ g = GWait.

(** The block at the cursor is the kernel's and nobody has it. *)
Definition idle_cursor (s : state) : bool :=
  match s_blocks s !! s_gi s with
  | Some bl => (b_r bl =? 0)%Z && (b_status bl =? 0)%Z
  | None => false
  end.

Lemma poll_step (s : state) (g : gpc) :
  idle_cursor s = true → polling g →
  ∃ g', polling g' ∧ step (LG 0) (set_g g s) = Next (set_g g' s).
Proof.
  unfold idle_cursor. intros Hidle Hg. unfold polling. simpl. unfold getNewBlocks_step. simpl.
  destruct (s_blocks s !! s_gi s) as [bl|]; [|done]. apply andb_prop in Hidle as [Hr Hst].
  destruct Hg as [-> |[-> | ->]]; simpl.
  - rewrite Hr. exists GLoadStatus. auto.
  - rewrite Hst. exists GWait. auto.
  - exists GLoadR. auto.
Qed.

Section rest.
Context (n : nat) (s0 : state) (ls : list label) (rest : state).
Context (Hs0 : reachable n s0) (Hls : run_schedule ls s0 = Some rest).
Context (Hg : s_g rest = GLoadR) (Hidle : idle_cursor rest = true).

Local Notation tr := (follow (then_poll ls) s0).

Lemma then_poll_at (k : nat) (l : label) : ls !! k = Some l → then_poll ls k = l.
Proof. unfold then_poll. by intros ->. Qed.

Lemma then_poll_after (k : nat) : length ls ≤ k → then_poll ls k = LG 0.
Proof. intros Hk. unfold then_poll. by rewrite lookup_ge_None_2. Qed.

(** The first states are those of the schedule. *)
Lemma follow_label (k : nat) (l : label) :
  ls !! k = Some l → run_schedule (take k ls) s0 = Some (tr k) → step l (tr k) = Next (tr (S k)).
Proof.
  intros Hl Hk. pose proof Hls as H. rewrite <- (take_drop_middle _ _ _ Hl), run_schedule_app, Hk in H.
  cbn [mbind option_bind run_schedule] in H. cbn [follow]. rewrite (then_poll_at k l Hl).
  by destruct (step l (tr k)).
Qed.

Lemma follow_take (k : nat) : k ≤ length ls → run_schedule (take k ls) s0 = Some (tr k).
Proof.
  induction k as [|k IH]; intros Hk; [done|]. specialize (IH ltac:(lia)).
  destruct (lookup_lt_is_Some_2 ls k Hk) as [l Hl].
  rewrite (take_S_r _ _ _ Hl), run_schedule_app, IH. cbn [mbind option_bind run_schedule].
  by rewrite (follow_label k l Hl IH).
Qed.

Lemma follow_rest (k : nat) : ∃ g, polling g ∧ tr (length ls + k) = set_g g rest.
Proof.
  induction k as [|k (g & Hpg & IH)].
  - exists GLoadR. split; [by left|]. rewrite Nat.add_0_r.
    pose proof (follow_take (length ls) ltac:(done)) as H. rewrite take_ge, Hls in H by done.
    injection H as <-. rewrite <- Hg. by destruct rest.
  - destruct (poll_step rest g Hidle Hpg) as (g' & Hpg' & Hs). exists g'. split; [done|].
    rewrite Nat.add_succ_r. cbn [follow].
    by rewrite IH, then_poll_after, Hs by lia.
Qed.

Lemma follow_step (k : nat) : step (then_poll ls k) (tr k) = Next (tr (S k)).
Proof.
  destruct (decide (k < length ls)) as [Hk|Hk].
  - destruct (lookup_lt_is_Some_2 ls k Hk) as [l Hl].
    rewrite (then_poll_at k l Hl). apply follow_label; [done|]. apply follow_take. lia.
  - destruct (follow_rest (k - length ls)) as (g & Hpg & IH).
    replace (length ls + (k - length ls)) with k in IH by lia.
    destruct (poll_step rest g Hidle Hpg) as (g' & _ & Hs). cbn [follow].
    by rewrite IH, then_poll_after, Hs by lia.
Qed.

Lemma follow_execution : execution n tr (then_poll ls).
Proof. split; [done|apply follow_step]. Qed.

Lemma follow_bound : bounded ls s0 = true → ∀ k, conn_bound (tr k).
Proof.
  intros Hb. assert (∀ k, k ≤ length ls → conn_bound (tr k)) as Hle.
  { intros k Hk. apply (bounded_app (take k ls) (drop k ls) s0); [by rewrite take_drop|].
    by apply follow_take. }
  intros k. destruct (decide (k ≤ length ls)) as [Hk|Hk]; [by apply Hle|].
  pose proof (Hle (length ls) ltac:(done)) as Hrest.
  destruct (follow_rest 0) as (g0 & _ & E0). rewrite Nat.add_0_r in E0.
  destruct (follow_rest (k - length ls)) as (g & _ & E).
  replace (length ls + (k - length ls)) with k in E by lia. rewrite E. rewrite E0 in Hrest. exact Hrest.
Qed.

(** Whoever has nothing to do at rest was treated fairly. *)
Lemma follow_fair (P : label → Prop) :
  (∀ g l s', P l → step l (set_g g rest) ≠ Next s') → strong_fair tr (then_poll ls) P.
Proof.
  intros HP k. exists (length ls + k). split; [lia|]. right. intros i Hi (l & s' & Hl & Hs).
  destruct (follow_rest (i - length ls)) as (g & _ & IH).
  replace (length ls + (i - length ls)) with i in IH by lia. rewrite IH in Hs. by eapply HP.
Qed.

Lemma follow_calm (c : nat) : Forall (calm c) ls → ∀ k, calm c (then_poll ls k).
Proof.
  intros Hc k. unfold then_poll. destruct (ls !! k) eqn:E; [|done].
  rewrite Forall_forall in Hc. apply Hc. by eapply list_elem_of_lookup_2.
Qed.
End rest.

Lemma strong_weak (tr : nat → state) (lab : nat → label) (P : label → Prop) :
  strong_fair tr lab P → weak_fair tr lab P.
Proof. intros HP k. destruct (HP k) as (j & Hj & [?|Hn]); exists j; auto. Qed.

(** The client of the demonstration hangs up while it holds block 0, and its goroutines
    take the connection to its end. *)
Definition hangup_labels : list label :=
  demo_hangup ++ [LConn 7 Tau; LConn 7 Tau; LConn 7 Tau; LConn 7 Tau].
Definition hangup_start : state := demo_state (demo_deliver ++ demo_write).
Definition hangup_rest : state := demo_state (demo_deliver ++ demo_write ++ hangup_labels).

Lemma hangup_fair : fair 7 (follow (then_poll hangup_labels) hangup_start) (then_poll hangup_labels).
Proof.
  assert (∀ P : label → Prop, (∀ l, P l → of_conn 7 l ∨ of_reader 7 l ∨ l = LRun ∨ l = LOld 7) →
    strong_fair (follow (then_poll hangup_labels) hangup_start) (then_poll hangup_labels) P) as H.
  { intros P HP. apply (follow_fair hangup_start hangup_labels hangup_rest);
      [vm_compute; reflexivity..|].
    intros g l s' Hl. destruct (HP l Hl) as [[choice ->]|[(ev & -> & _)|[-> | ->]]]; by vm_compute. }
  split; [apply strong_weak, H; auto..|apply H; auto].
Qed.

Lemma hangup_calm : Forall (calm 7) hangup_labels.
Proof.
  unfold hangup_labels, demo_hangup.
  repeat (apply Forall_cons_2; [by intros ev [=]; subst|]). apply Forall_nil_2.
Qed.

Lemma connection_closes_witness :
  ∃ j cn', s_conns (follow (then_poll hangup_labels) hangup_start j) !! 7 = Some cn' ∧
    c_pc cn' = CDone.
Proof.
  assert (run_schedule hangup_labels hangup_start = Some hangup_rest) as Hrun
    by (vm_compute; reflexivity).
  assert (idle_cursor hangup_rest = true) as Hidle by (vm_compute; reflexivity).
  assert (s_g hangup_rest = GLoadR) as Hg by (vm_compute; reflexivity).
  destruct (s_conns hangup_start !! 7) as [cn|] eqn:E; [|by vm_compute in E].
  destruct (connection_closes 2 (follow (then_poll hangup_labels) hangup_start)
    (then_poll hangup_labels) 7 cn) as (j & cn' & Hc & Hpc & _).
  - lia.
  - apply (follow_execution 2 _ _ hangup_rest); [apply demo_reachable; by vm_compute|done..].
  - apply (follow_bound hangup_start hangup_labels hangup_rest); [done..|]. by vm_compute.
  - apply follow_calm, hangup_calm.
  - apply hangup_fair.
  - exact E.
  - exists j, cn'. split; [exact Hc|exact Hpc].
Defined.
