(* ===== verification/Delivery.v ===== *)
(** * Blocks reach the client: liveness of delivery

    In every execution in which the scheduler is fair to a connection, a block that run
    has put into its queue is written to the client, or the connection leaves its
    serving loop (the client hung up, misbehaved, or a write failed).  conn.run batches:
    it writes only when its queue is empty, while run may go on filling the queue.  That
    this ends is not a matter of luck: what a connection already has it is not sent
    again, so a batch has at most as many blocks as the ring. *)

From stdpp Require Import base list numbers option gmap.
From Stdlib Require Import ZArith Lia.
From S2P Require Import Prelude Bytes Protocol Chan Block Socket SocketInv SocketSafety Shutdown.
From S2P Require Import SocketExcl Fair.

Local Open Scope nat_scope.

(** ** One batch *)

(** What is left of the current batch, whatever the client returns meanwhile. *)
Definition busy (nb : nat) (cn : conn) : nat :=
  5 * zeros (refs_open (l_sent (c_log cn)) (l_put (c_log cn))) nb +
  4 * length (ch_buf (c_new cn)) + at_rank nb (c_pc cn).

Definition serving (cn : conn) : Prop := phase_rank (c_pc cn) = 6.

(** conn.run moved on within its loop. *)
Definition advanced (nb : nat) (cn cn' : conn) : Prop :=
  ¬ serving cn' ∨ serving cn' ∧ busy nb cn' < busy nb cn.

Lemma conn_step_busy (s s' : state) (c : nat) (cn : conn) (choice : conn_choice) :
  serving cn → c_pc cn ≠ CSelect → conn_step c cn choice s = Next s' →
  ∃ cn', s_conns s' !! c = Some cn' ∧ advanced (s_nb s) cn cn'.
Proof.
  intros Hsv Hsel Hstep. unfold conn_step in Hstep. unfold advanced, serving, busy in *.
  destruct (c_pc cn) as [|b out|out|out|b [| |]|b [| |]| | | | |i|] eqn:Hpc; try done.
  4: { destruct (dec_block b s) as [[s1 nx]|] eqn:Hd; [|done].
       apply dec_block_inv in Hd as (bl & _ & -> & _).
       assert (zeros (refs_open (l_sent (c_log cn)) (l_put (c_log cn) ++ [b])) (s_nb s) ≤
               S (zeros (refs_open (l_sent (c_log cn)) (l_put (c_log cn))) (s_nb s))) as Hz.
       { apply (zeros_change _ _ b). intros i Hi. unfold refs_open.
         rewrite occ_app. simpl. rewrite is_at_ne by done. lia. }
       destruct nx; simplify_eq; (eexists; split; [apply lookup_insert_eq|]); simpl; lia. }
  all: repeat (case_match; simplify_eq); simplify_eq; queues; simpl in *;
    (eexists; split; [apply lookup_insert_eq|]); simpl; lia.
Qed.

(** Nobody else lengthens a batch. *)
Definition no_later (nb : nat) (cn cn' : conn) : Prop :=
  c_pc cn' = c_pc cn ∧ busy nb cn' ≤ busy nb cn.

Lemma arrival_busy (s : state) (b c : nat) (todo : list nat) (cn : conn) (ch : chan nat) :
  Inv s → s_run s = RSend b c todo → s_conns s !! c = Some cn → chan_send (c_new cn) b = Sent ch →
  no_later (s_nb s) cn (log_sent b (set_new ch cn)).
Proof.
  intros HI Hpc Hc Hs. pose proof (arrival_sent s b c todo cn HI Hpc Hc) as Hz.
  queues. split; [done|]. unfold busy. simpl. lia.
Qed.

Lemma other_no_later (c c' : nat) (cn cn' : conn) (m : gmap nat conn) (nb : nat) :
  m !! c = Some cn → (c' = c → no_later nb cn cn') →
  ∃ cn1, <[c' := cn']> m !! c = Some cn1 ∧ no_later nb cn cn1.
Proof.
  intros Hc Hcl. destruct (decide (c' = c)) as [->|Hne].
  - exists cn'. rewrite lookup_insert_eq. auto.
  - exists cn. by rewrite lookup_insert_ne.
Qed.

Lemma step_in_batch (s s' : state) (l : label) (c : nat) (cn : conn) :
  Inv s → s_conns s !! c = Some cn → serving cn → c_pc cn ≠ CSelect → step l s = Next s' →
  ∃ cn', s_conns s' !! c = Some cn' ∧
    (of_conn c l ∧ advanced (s_nb s) cn cn' ∨ ¬ of_conn c l ∧ no_later (s_nb s) cn cn').
Proof.
  intros HI Hc Hsv Hsel Hstep.
  assert (∀ l', l' = l → ¬ of_conn c l' →
    (∃ cn', s_conns s' !! c = Some cn' ∧ no_later (s_nb s) cn cn') →
    ∃ cn', s_conns s' !! c = Some cn' ∧
      (of_conn c l' ∧ advanced (s_nb s) cn cn' ∨ ¬ of_conn c l' ∧ no_later (s_nb s) cn cn')) as Hgo
    by (intros l' _ Hl' (cn' & Hc' & Hn); eauto).
  assert (s_conns s' = s_conns s → ∃ cn', s_conns s' !! c = Some cn' ∧ no_later (s_nb s) cn cn')
    as Hsame by (intros ->; by exists cn).
  destruct l as [b status|errno| |c'|c'|order|c' choice|c' ev]; simpl in Hstep;
    try (apply Hgo; [done|by intros [choice' ?]|]).
  - apply Hsame. unfold kernel_step in Hstep. destruct (_ ≫= _); by simplify_eq.
  - apply Hsame. by step_cases Hstep.
  - unfold run_step in Hstep.
    destruct (s_run s) as [|c'|b [|c' todo]|b c' todo|b k|b k] eqn:Hpc; simplify_eq; try by apply Hsame.
    + destruct (s_conns s !! c') as [cn'|] eqn:Hc'; [|done].
      destruct (chan_close (c_new cn')) eqn:E; simplify_eq. apply other_no_later; [done|].
      intros ->. simplify_eq. unfold chan_close in E. destruct (ch_closed _); by simplify_eq.
    + destruct (run_send_sent s b c' todo HI Hpc) as (cn' & ch & Hc' & Hs).
      rewrite Hc', Hs in Hstep. simplify_eq. apply other_no_later; [done|]. intros ->. simplify_eq.
      by eapply arrival_busy.
    + apply Hsame. by step_cases Hstep.
  - unfold run_accept in Hstep. destruct (s_run s); try done.
    destruct (s_conns s !! c') eqn:Hc'; simplify_eq. apply other_no_later; [done|congruence].
  - unfold run_old in Hstep. destruct (s_run s); try done.
    destruct (s_conns s !! c') as [cn'|] eqn:Hc'; [|done].
    destruct (c_pc cn') eqn:Hp; simplify_eq. apply other_no_later; [done|]. intros ->. simplify_eq.
    unfold serving in Hsv. by rewrite Hp in Hsv.
  - apply Hsame. by step_cases Hstep.
  - destruct (s_conns s !! c') as [cn'|] eqn:Hc'; [|done].
    destruct (decide (c' = c)) as [->|Hne].
    + simplify_eq. apply conn_step_busy in Hstep as (cn' & ? & ?); [|done..].
      exists cn'. split; [done|]. left. by split; [exists choice|].
    + apply Hgo; [done|by intros [? [= ?]]|].
      eapply conn_step_effect in Hstep; [|by apply HI]. exists cn.
      destruct Hstep; simpl; by rewrite lookup_insert_ne.
  - destruct (s_conns s !! c') as [cn'|] eqn:Hc'; [|done].
    assert (∃ cn1, s' = set_conn c' cn1 s ∧ no_later (s_nb s) cn' cn1) as (cn1 & -> & Hn)
      by (unfold read_step in Hstep; repeat (case_match; simplify_eq); by eexists).
    apply other_no_later; [done|]. intros ->. by simplify_eq.
Qed.

(** The logs only grow. *)
Definition log_grows (l l' : conn_log) : Prop :=
  l_sent l `prefix_of` l_sent l' ∧ l_got l `prefix_of` l_got l' ∧ l_put l `prefix_of` l_put l'.

Lemma step_log (s s' : state) (l : label) (c : nat) (cn : conn) :
  s_conns s !! c = Some cn → step l s = Next s' →
  ∃ cn', s_conns s' !! c = Some cn' ∧ log_grows (c_log cn) (c_log cn').
Proof.
  intros Hc Hstep. unfold log_grows.
  step_cases Hstep; try (by exists cn);
    match goal with |- context [<[?c0 := _]> _ !! c] =>
      destruct (decide (c0 = c)) as [->|];
        [rewrite lookup_insert_eq|rewrite lookup_insert_ne by done; by exists cn]
    end; simplify_eq; eexists; (split; [done|]); simpl;
    split_and!; done || by apply prefix_app_r.
Qed.

(** ** Executions fair to the connection *)

(** The select of conn.run can take a block, and does. *)
Definition can_pick (c : nat) (s : state) : Prop :=
  ∃ cn, s_conns s !! c = Some cn ∧ c_pc cn = CSelect ∧ ch_buf (c_new cn) ≠ [].
Definition picks (c : nat) (s : state) (l : label) : Prop :=
  can_pick c s ∧ l = LConn c PickNew.

(** The select does not pass over a waiting block forever, however many returned blocks
    compete with it. *)
Definition select_fair (c : nat) (tr : nat → state) (lab : nat → label) : Prop :=
  ∀ k, ∃ j, k ≤ j ∧ (picks c (tr j) (lab j) ∨ ∀ i, j ≤ i → ¬ can_pick c (tr i)).

Section delivery.
Context (n : nat) (tr : nat → state) (lab : nat → label) (c : nat).
Context (Hn : 0 < n) (Hex : execution n tr lab) (Hb : ∀ k, conn_bound (tr k)).
Context (Hconn : weak_fair tr lab (of_conn c)) (Hselect : select_fair c tr lab).

Local Notation inv := (ex_inv n tr lab Hn Hex Hb).

Lemma ex_log (k j : nat) (cn : conn) :
  k ≤ j → s_conns (tr k) !! c = Some cn →
  ∃ cn', s_conns (tr j) !! c = Some cn' ∧ log_grows (c_log cn) (c_log cn').
Proof.
  intros Hle Hc. induction Hle as [|j _ (cn' & Hc' & H1 & H2 & H3)]; [by exists cn|].
  destruct (step_log _ _ _ c cn' Hc' (ex_step _ _ _ Hex j)) as (cn2 & Hc2 & H4 & H5 & H6).
  exists cn2. split; [done|]. split_and!; by etransitivity.
Qed.

(** Later the batch is nearer to its end, or the connection is where it was. *)
Lemma batch_meanwhile (k j : nat) (cn : conn) :
  k ≤ j → s_conns (tr k) !! c = Some cn → serving cn → c_pc cn ≠ CSelect →
  (∃ i cn', k ≤ i ∧ s_conns (tr i) !! c = Some cn' ∧ advanced n cn cn') ∨
  ∃ cn', s_conns (tr j) !! c = Some cn' ∧ no_later n cn cn'.
Proof.
  intros Hle Hc Hsv Hsel. induction Hle as [|j Hle [IH|(cn1 & Hc1 & Hpc & Hbusy)]]; [|by left|].
  { right. by exists cn. }
  assert (serving cn1) as Hsv1 by (unfold serving; by rewrite Hpc).
  assert (c_pc cn1 ≠ CSelect) as Hsel1 by (by rewrite Hpc).
  destruct (step_in_batch _ _ _ c cn1 (inv j) Hc1 Hsv1 Hsel1 (ex_step _ _ _ Hex j))
    as (cn2 & Hc2 & Hcase).
  rewrite (ex_nb n tr lab Hex Hb) in Hcase. destruct Hcase as [[_ Hadv]|[_ [Hpc2 Hbusy2]]].
  - left. exists (S j), cn2. split_and!; [lia|done|]. unfold advanced in *. intuition lia.
  - right. exists cn2. split; [done|]. split; [congruence|lia].
Qed.

Lemma batch_advances (k : nat) (cn : conn) :
  s_conns (tr k) !! c = Some cn → serving cn → c_pc cn ≠ CSelect →
  ∃ i cn', k ≤ i ∧ s_conns (tr i) !! c = Some cn' ∧ advanced n cn cn'.
Proof.
  intros Hc Hsv Hsel. destruct (Hconn k) as (j & Hle & Hj).
  destruct (batch_meanwhile k j cn Hle Hc Hsv Hsel) as [|(cn1 & Hc1 & Hpc & Hbusy)]; [done|].
  assert (serving cn1) as Hsv1 by (unfold serving; by rewrite Hpc).
  assert (c_pc cn1 ≠ CSelect) as Hsel1 by (by rewrite Hpc). destruct Hj as [Hj|Hj].
  - destruct (step_in_batch _ _ _ c cn1 (inv j) Hc1 Hsv1 Hsel1 (ex_step _ _ _ Hex j))
      as (cn2 & Hc2 & Hcase). rewrite (ex_nb n tr lab Hex Hb) in Hcase.
    destruct Hcase as [[_ Hadv]|[Hno _]]; [|done].
    exists (S j), cn2. split_and!; [lia|done|]. unfold advanced in *. intuition lia.
  - destruct Hj. apply (conn_able (tr j) (inv j) (Hb j) c cn1 Hc1).
    unfold waiting, serving in *. by destruct (c_pc cn1) as [| | | |? []|? []| | | | | |].
Qed.

(** conn.run ends its batch. *)
Lemma back_to_select (w k : nat) (cn : conn) :
  s_conns (tr k) !! c = Some cn → busy n cn = w →
  ∃ j cn', k ≤ j ∧ s_conns (tr j) !! c = Some cn' ∧ (¬ serving cn' ∨ c_pc cn' = CSelect).
Proof.
  revert k cn. induction w as [w IH] using lt_wf_ind. intros k cn Hc Hw.
  destruct (decide (phase_rank (c_pc cn) = 6)) as [Hsv|Hsv]; [|by exists k, cn; auto].
  assert (c_pc cn = CSelect ∨ c_pc cn ≠ CSelect) as [Hsel|Hsel] by (destruct (c_pc cn); auto).
  { exists k, cn. auto. }
  destruct (batch_advances k cn Hc Hsv Hsel) as (i & cn' & Hi & Hc' & [Hns|[Hs Hlt]]).
  - exists i, cn'. auto.
  - destruct (IH (busy n cn') ltac:(lia) i cn' Hc' eq_refl) as (j & cn2 & Hj & ?).
    exists j, cn2. split; [lia|done].
Qed.

(** What the select takes. *)
Lemma picks_got (j : nat) (cn : conn) :
  s_conns (tr j) !! c = Some cn → picks c (tr j) (lab j) →
  ∃ cn', s_conns (tr (S j)) !! c = Some cn' ∧
    length (l_got (c_log cn')) = S (length (l_got (c_log cn))) ∧
    l_sent (c_log cn') = l_sent (c_log cn).
Proof.
  intros Hc ((cn1 & Hc1 & Hpc & Hbuf) & Hl). rewrite Hc in Hc1. injection Hc1 as <-.
  pose proof (ex_step _ _ _ Hex j) as Hs. rewrite Hl in Hs. simpl in Hs. rewrite Hc in Hs.
  unfold conn_step, chan_recv in Hs. rewrite Hpc in Hs.
  destruct (ch_buf (c_new cn)) as [|b l]; [done|]. injection Hs as <-.
  eexists. split; [apply lookup_insert_eq|]. simpl. rewrite length_app. simpl. split; [lia|done].
Qed.

(** The first [m] blocks sent get written. *)
Lemma delivers (m d k : nat) (cn : conn) :
  s_conns (tr k) !! c = Some cn → m ≤ length (l_sent (c_log cn)) →
  m - length (l_got (c_log cn)) = d →
  ∃ j cn', k ≤ j ∧ s_conns (tr j) !! c = Some cn' ∧
    (¬ serving cn' ∨ c_pc cn' = CSelect ∧ m ≤ length (l_got (c_log cn'))).
Proof.
  revert k cn. induction d as [d IH] using lt_wf_ind. intros k cn Hc Hm Hd.
  destruct (decide (m ≤ length (l_got (c_log cn)))) as [Hgot|Hgot].
  { destruct (back_to_select _ k cn Hc eq_refl) as (j & cn1 & Hj & Hc1 & Hcase).
    destruct (ex_log k j cn Hj Hc) as (cn2 & Hc2 & _ & Hg%prefix_length & _).
    rewrite Hc1 in Hc2. injection Hc2 as <-. exists j, cn1. split_and!; [done..|]. destruct Hcase; [by left|right; split; [done|lia]]. }
  destruct (Hselect k) as (j & Hj & Hcase).
  destruct (ex_log k j cn Hj Hc) as (cn1 & Hc1 & Hs1%prefix_length & Hg1%prefix_length & _).
  destruct Hcase as [Hp|Hnever].
  - destruct (picks_got j cn1 Hc1 Hp) as (cn2 & Hc2 & Hg2 & Hs2).
    destruct (IH (m - length (l_got (c_log cn2))) ltac:(lia) (S j) cn2 Hc2) as (i & cn3 & ? & ?);
      [rewrite Hs2; lia|done|]. exists i, cn3. split; [lia|done].
  - destruct (back_to_select _ j cn1 Hc1 eq_refl) as (i & cn2 & Hi & Hc2 & [Hns|Hsel]).
    { exists i, cn2. split_and!; [lia|done|by left]. }
    exists i, cn2. split_and!; [lia|done|]. right. split; [done|].
    destruct (decide (m ≤ length (l_got (c_log cn2)))) as [|Hlt]; [done|]. exfalso.
    apply (Hnever i Hi). exists cn2. split_and!; [done..|]. intros Hnil.
    destruct (ex_log j i cn1 Hi Hc1) as (cn3 & Hc3 & Hs3%prefix_length & _).
    rewrite Hc2 in Hc3. injection Hc3 as <-.
    pose proof (cw_fifo _ _ _ (i_conn _ (inv i) _ _ Hc2)) as Hf.
    rewrite Hnil, app_nil_r in Hf. rewrite Hf in Hs3. lia.
Qed.
End delivery.

(** ** From the socket's queue to the connection *)

(** run is passing block [b] on and has not come to [c] yet. *)
Definition owes (s : state) (b c : nat) : Prop :=
  match s_run s with
  | RFan b' todo => b' = b ∧ c ∈ todo
  | RSend b' c' todo => b' = b ∧ c ∈ c' :: todo
  | _ => False
  end.

Lemma owes_step (s s' : state) (b c : nat) (cn : conn) :
  Inv s → owes s b c → s_conns s !! c = Some cn → step LRun s = Next s' →
  owes s' b c ∨
  ∃ cn', s_conns s' !! c = Some cn' ∧ l_sent (c_log cn') = l_sent (c_log cn) ++ [b].
Proof.
  intros HI Ho Hc Hstep. simpl in Hstep. unfold run_step, owes in *.
  destruct (s_run s) as [|c'|b' [|c' todo]|b' c' todo|b' k|b' k] eqn:Hpc; try done.
  - destruct Ho as [_ Ho]. by apply elem_of_nil in Ho.
  - injection Hstep as <-. by left.
  - destruct (run_send_sent s b' c' todo HI Hpc) as (cn' & ch & Hc' & Hs).
    rewrite Hc', Hs in Hstep. injection Hstep as <-. destruct Ho as [-> Ho]. simpl.
    apply elem_of_cons in Ho as [<-|Ho]; [|by left]. right. rewrite lookup_insert_eq.
    simplify_eq. eexists. split; [done|]. done.
Qed.

(** The queue of the socket: blocks leave it in order, one at a time. *)
Lemma queue_step (s s' : state) (l : label) (b : nat) (pre post : list nat) :
  ch_buf (s_new s) = pre ++ b :: post → step l s = Next s' →
  (∃ pre' post', ch_buf (s_new s') = pre' ++ b :: post' ∧ length pre' ≤ length pre ∧
     ∀ order, l = LNew order → length pre' < length pre) ∨
  ∃ order, s_run s' = RFan b order ∧ list_to_set order = s_cur s.
Proof.
  intros Hq Hstep.
  assert (∀ more, ch_buf (s_new s') = ch_buf (s_new s) ++ more → (∀ order, l ≠ LNew order) →
    ∃ pre' post', ch_buf (s_new s') = pre' ++ b :: post' ∧ length pre' ≤ length pre ∧
      ∀ order, l = LNew order → length pre' < length pre) as Hkeep.
  { intros more Hm Hl. exists pre, (post ++ more). rewrite Hm, Hq, <- app_assoc.
    split_and!; [done..|]. intros order Ho. by destruct (Hl order). }
  destruct l as [b' status|errno| |c'|c'|order|c' choice|c' ev].
  1,3-5,7-8: left; apply (Hkeep []); [rewrite app_nil_r; by step_cases Hstep|done].
  - left. simpl in Hstep. unfold getNewBlocks_step in Hstep.
    destruct (s_blocks s !! s_gi s); [|done]. destruct (s_g s);
      try (apply (Hkeep []); [rewrite app_nil_r; repeat case_match; by simplify_eq|done]).
    destruct (chan_send (s_new s) (s_gi s)) as [| |ch] eqn:Hs; simplify_eq.
    apply chan_send_inv in Hs as (Hb & _). by apply (Hkeep [s_gi s]).
  - simpl in Hstep. unfold run_new, chan_recv in Hstep. destruct (s_run s); try done.
    case_bool_decide as Hord; [|done]. rewrite Hq in Hstep.
    destruct pre as [|x pre]; simpl in Hstep; simplify_eq; simpl.
    + right. exists order. split; [done|apply Hord].
    + left. exists pre, post. split_and!; [done|lia|]. intros; lia.
Qed.

Section distribution.
Context (n : nat) (tr : nat → state) (lab : nat → label).
Context (Hn : 0 < n) (Hex : execution n tr lab) (Hb : ∀ k, conn_bound (tr k)).
Context (Hrun : weak_fair tr lab (λ l, l = LRun)).

(** run goes through its range loop. *)
Lemma owed_sent (r b c k : nat) (cn : conn) :
  owes (tr k) b c → s_conns (tr k) !! c = Some cn → run_rank (s_run (tr k)) = r →
  ∃ j cn' more, k ≤ j ∧ s_conns (tr j) !! c = Some cn' ∧
    l_sent (c_log cn') = l_sent (c_log cn) ++ more ∧ b ∈ more.
Proof.
  revert k cn. induction r as [r IH] using lt_wf_ind. intros k cn Ho Hc Hr.
  assert (s_run (tr k) ≠ RSelect) as Hsel by (intros E; unfold owes in Ho; by rewrite E in Ho).
  destruct (run_acts n tr lab Hn Hex Hb Hrun k Hsel) as (i & Hi & Hl & Hsame).
  pose proof (run_rank_step n tr lab Hn Hex Hb i Hl ltac:(by rewrite Hsame)) as Hlt.
  destruct (ex_log n tr lab c Hex k i cn Hi Hc) as (cn1 & Hc1 & [m1 Hm1] & _).
  pose proof (ex_step _ _ _ Hex i) as Hs. rewrite Hl in Hs.
  apply (owes_step _ _ b c cn1 (ex_inv n tr lab Hn Hex Hb i)) in Hs as [Ho'|(cn2 & Hc2 & Hm2)];
    [| |by unfold owes; rewrite Hsame|done].
  - destruct (ex_log n tr lab c Hex i (S i) cn1 ltac:(lia) Hc1) as (cn2 & Hc2 & [m2 Hm2] & _).
    destruct (IH (run_rank (s_run (tr (S i)))) ltac:(rewrite <- Hr, <- Hsame; lia) (S i) cn2 Ho' Hc2 eq_refl)
      as (j & cn3 & m3 & Hj & Hc3 & Hm3 & Hin).
    exists j, cn3, (m1 ++ m2 ++ m3). split_and!; [lia|done| |set_solver].
    by rewrite Hm3, Hm2, Hm1, !app_assoc.
  - exists (S i), cn2, (m1 ++ [b]). split_and!; [lia|done| |set_solver].
    by rewrite Hm2, Hm1, app_assoc.
Qed.

Context (Hnew : strong_fair tr lab (λ l, ∃ order, l = LNew order)).

(** A queued block is taken out of the queue. *)
Definition popped (k b : nat) : Prop :=
  ∃ i order, k ≤ i ∧ s_run (tr (S i)) = RFan b order ∧ list_to_set order = s_cur (tr i).

Lemma queue_meanwhile (k j b : nat) (pre post : list nat) :
  k ≤ j → ch_buf (s_new (tr k)) = pre ++ b :: post →
  (∃ pre' post', ch_buf (s_new (tr j)) = pre' ++ b :: post' ∧ length pre' ≤ length pre) ∨ popped k b.
Proof.
  intros Hle Hq. induction Hle as [|j Hle [(pre1 & post1 & Hq1 & Hl1)|IH]]; [by left; eauto| |by right].
  destruct (queue_step _ _ _ b pre1 post1 Hq1 (ex_step _ _ _ Hex j))
    as [(pre2 & post2 & Hq2 & Hl2 & _)|(order & Hr & Ho)].
  - left. exists pre2, post2. split; [done|lia].
  - right. by exists j, order.
Qed.

Lemma gets_popped (p k b : nat) (pre post : list nat) :
  ch_buf (s_new (tr k)) = pre ++ b :: post → length pre = p → popped k b.
Proof.
  revert k pre post. induction p as [p IH] using lt_wf_ind. intros k pre post Hq Hp.
  destruct (Hnew k) as (j & Hj & Hcase).
  destruct (queue_meanwhile k j b pre post Hj Hq) as [(pre1 & post1 & Hq1 & Hl1)|]; [|done].
  destruct Hcase as [[order Hl]|Hnever].
  - destruct (queue_step _ _ _ b pre1 post1 Hq1 (ex_step _ _ _ Hex j))
      as [(pre2 & post2 & Hq2 & _ & Hlt)|(order' & Hr & Ho)].
    + destruct (IH (length pre2) ltac:(specialize (Hlt _ Hl); lia) (S j) pre2 post2 Hq2 eq_refl)
        as (i & o & Hi & ?). exists i, o. split; [lia|done].
    + by exists j, order'.
  - destruct (run_selects n tr lab Hn Hex Hb Hrun _ j eq_refl) as (i & Hi & Hr).
    destruct (queue_meanwhile k i b pre post ltac:(lia) Hq) as [(pre2 & post2 & Hq2 & _)|]; [|done].
    exfalso. apply (Hnever i Hi).
    destruct (ch_buf (s_new (tr i))) as [|x l] eqn:Hbuf; [by destruct pre2|].
    eexists (LNew (elements (s_cur (tr i)))), _.
    split; [by eexists|]. simpl. unfold run_new, chan_recv. rewrite Hr, Hbuf.
    by rewrite bool_decide_true by (split; [apply NoDup_elements|apply list_to_set_elements_L]).
Qed.
End distribution.

(** ** From the kernel to the socket's queue *)

(** The kernel has filled the block, nobody has it and nobody is about to reset it. *)
Definition full (s : state) (i : nat) : Prop :=
  ¬ pending s i ∧ ∃ bl, s_blocks s !! i = Some bl ∧ b_r bl = 0%Z ∧ b_status bl ≠ 0%Z.

(** The block [d] places after the cursor of getNewBlocks. *)
Definition ahead_of (s : state) (d : nat) : nat := (s_gi s + d) mod s_nb s.

(** The kernel has filled the blocks from the cursor to the one [d] places after it; the
    block at the cursor may be on its way to the queue already. *)
Definition filled_to (s : state) (d : nat) : Prop :=
  d < s_nb s ∧ ∀ e, e ≤ d → 0 < e ∨ s_g s ≠ GSend → full s (ahead_of s e).

(** The kernel, which goes round the ring in order, has filled [i] and all blocks before
    it that getNewBlocks has still to pick up. *)
Definition filled (s : state) (i : nat) : Prop := ∃ d, filled_to s d ∧ ahead_of s d = i.

Lemma full_free (s : state) (i : nat) : Inv s → full s i → holders s i = 0.
Proof. intros HI (_ & bl & Hbl & Hr & _). rewrite (i_ref _ HI _ _ Hbl) in Hr. lia. Qed.

(** A state in which this block is as it was. *)
Lemma full_same (s s' : state) (i : nat) :
  full s i → s_blocks s' !! i = s_blocks s !! i → (pending s' i → pending s i) → full s' i.
Proof. intros (Hp & Hbl) Hb Hp'. unfold full. rewrite Hb. split; [by intros ?%Hp'|done]. Qed.

Lemma full_conn (s s' : state) (c i : nat) (cn : conn) :
  Inv s → full s i → s_conns s !! c = Some cn →
  conn_effect (s_nb s) (stage_of s c) s c cn s' → full s' i.
Proof.
  intros HI Hf Hc He. pose proof (full_free s i HI Hf) as H0. pose proof Hf as (Hnp & _).
  pose proof (conn_held_holders s c cn i Hc) as Hle.
  destruct He as [cn' HW Hh Hcl Hcl'|b bl cn' HW Hh Hbl Hcl Hcl'|b cn' HW Hh Hcl Hcl'].
  - apply (full_same s); [done..|]. intros Hp.
    eapply pending_conn in Hp as [Hp|Hp]; [done| |done..]. congruence.
  - assert (b ≠ i) as Hne.
    { intros ->. specialize (Hh i). rewrite is_at_eq in Hh by done. lia. }
    apply (full_same s); [done..|by apply list_lookup_alter_ne|]. intros Hp.
    eapply pending_conn in Hp as [Hp|Hp]; [done| |done..]. rewrite Hcl' in Hp.
    destruct (_ =? 0)%Z; [congruence|done].
  - assert (b ≠ i) as Hne by (intros ->; apply Hnp; right; by exists c, cn).
    apply (full_same s); [done..|by apply list_lookup_alter_ne|]. intros Hp.
    eapply pending_conn in Hp as [Hp|Hp]; [done| |done..]. congruence.
Qed.

(** run touched a connection but not its program counter. *)
Lemma pending_same_pc (s s' : state) (c i : nat) (cn cn' : conn) :
  s_conns s !! c = Some cn → s_conns s' = <[c := cn']> (s_conns s) → c_pc cn' = c_pc cn →
  run_clearing (s_run s') = None → pending s' i → pending s i.
Proof.
  intros Hc Hs Hpc Hr [Hp|(c0 & cn0 & Hc0 & Hp)]; [congruence|]. right. rewrite Hs in Hc0.
  destruct (decide (c0 = c)) as [->|Hne].
  - rewrite lookup_insert_eq in Hc0. injection Hc0 as <-. exists c, cn. by rewrite <- Hpc.
  - rewrite lookup_insert_ne in Hc0 by done. by exists c0, cn0.
Qed.

Lemma full_run (s s' : state) (i : nat) :
  Inv s → full s i → run_step s = Next s' → full s' i.
Proof.
  intros HI Hf Hstep. pose proof (full_free s i HI Hf) as H0. pose proof Hf as (Hnp & _).
  unfold holders in H0. unfold run_step in Hstep.
  destruct (s_run s) as [|c|b [|c todo]|b c todo|b k|b k] eqn:Hpc; [done|..].
  - destruct (s_conns s !! c) as [cn|] eqn:Hc; [|done]. destruct (chan_close _) as [ch|]; [|done].
    injection Hstep as <-. apply (full_same s); [done..|]. by eapply pending_same_pc.
  - injection Hstep as <-. apply (full_same s); [done..|].
    intros Hp. by apply (pending_run s) in Hp as [|].
  - injection Hstep as <-. assert (b ≠ i) as Hne
      by (intros ->; simpl in H0; rewrite is_at_eq in H0 by done; lia).
    apply (full_same s); [done..|by apply list_lookup_alter_ne|].
    intros Hp. by apply (pending_run s) in Hp as [|].
  - destruct (run_send_sent s b c todo HI Hpc) as (cn & ch & Hc & Hs). rewrite Hc, Hs in Hstep.
    injection Hstep as <-. apply (full_same s); [done..|]. by eapply pending_same_pc.
  - assert (b ≠ i) as Hne by (intros ->; simpl in H0; rewrite is_at_eq in H0 by done; lia).
    destruct (dec_block b s) as [[s1 nx]|] eqn:Hd; [|done].
    apply dec_block_inv in Hd as (bl & Hbl & -> & ->).
    destruct (unref_after (unref_dec bl).2); simplify_eq;
      (apply (full_same s); [done..|by apply list_lookup_alter_ne|];
       intros Hp; apply (pending_run s) in Hp as [|Hp]; [done|simpl in Hp|done];
       try (destruct k; simpl in Hp); congruence).
  - injection Hstep as <-. assert (b ≠ i) as Hne by (intros ->; apply Hnp; left; by rewrite Hpc).
    apply (full_same s); [done..|by apply list_lookup_alter_ne|].
    intros Hp. apply (pending_run s) in Hp as [|Hp]; [done| |done]. simpl in Hp. by destruct k.
Qed.
(** A connection was put in place that is not about to reset a block. *)
Lemma pending_insert (s s' : state) (c i : nat) (cn' : conn) :
  s_conns s' = <[c := cn']> (s_conns s) → run_clearing (s_run s') = run_clearing (s_run s) →
  clearing (c_pc cn') = None → pending s' i → pending s i.
Proof.
  intros Hs Hr Hcl [Hp|(c0 & cn0 & Hc0 & Hp)]; [left; congruence|]. right. rewrite Hs in Hc0.
  destruct (decide (c0 = c)) as [->|Hne].
  - rewrite lookup_insert_eq in Hc0. congruence.
  - rewrite lookup_insert_ne in Hc0 by done. by exists c0, cn0.
Qed.

(** Nobody but getNewBlocks touches it. *)
Definition of_get (l : label) : Prop := ∃ errno, l = LG errno.

Lemma full_step (s s' : state) (l : label) (i : nat) :
  Inv s → full s i → step l s = Next s' → ¬ of_get l → full s' i.
Proof.
  intros HI Hf Hstep Hl. destruct l as [b status|errno| |c|c|order|c choice|c ev]; simpl in Hstep.
  - destruct Hf as (Hp & bl & Hbl & Hr & Hst). unfold kernel_step in Hstep.
    destruct (s_blocks s !! b) as [bl0|] eqn:Hb; simpl in Hstep; [|done].
    destruct (kernel_fill status bl0) as [bl1|] eqn:Hk; [|done]. injection Hstep as <-.
    apply (full_same s); [by split; eauto| |done]. simpl.
    apply list_lookup_insert_ne. intros ->. simplify_eq. unfold kernel_fill in Hk.
    by rewrite (proj2 (Z.eqb_neq _ _) Hst) in Hk.
  - by destruct Hl; eexists.
  - by eapply full_run.
  - unfold run_accept in Hstep. destruct (s_run s) eqn:Hpc; try done.
    destruct (s_conns s !! c) eqn:Hc; [done|]. injection Hstep as <-.
    apply (full_same s); [done..|]. by eapply pending_insert.
  - unfold run_old in Hstep. destruct (s_run s) eqn:Hpc; try done.
    destruct (s_conns s !! c) as [cn|] eqn:Hc; [|done]. destruct (c_pc cn) eqn:Hcp; try done.
    injection Hstep as <-. apply (full_same s); [done..|]. eapply pending_insert; [done| |done].
    by rewrite Hpc.
  - unfold run_new in Hstep. destruct (s_run s); try done. case_bool_decide; [|done].
    destruct (chan_recv (s_new s)); try done. injection Hstep as <-.
    apply (full_same s); [done..|]. intros Hp. by apply (pending_run s) in Hp as [|].
  - destruct (s_conns s !! c) as [cn|] eqn:Hc; [|done].
    eapply full_conn; [done..|]. eapply conn_step_effect; [|done]. by apply HI.
  - destruct (s_conns s !! c) as [cn|] eqn:Hc; [|done].
    eapply read_step_move in Hstep as (cn' & -> & HW & Hh & Hpc); [|by apply HI].
    apply (full_same s); [done..|]. intros Hp.
    eapply pending_conn in Hp as [Hp|Hp]; [done| |done..]. right. exists c, cn. by rewrite <- Hpc.
Qed.

(** getNewBlocks itself touches only the block at its cursor, when it takes it. *)
Lemma full_get (s s' : state) (errno : Z) (i : nat) :
  full s i → step (LG errno) s = Next s' → i ≠ s_gi s ∨ s_g s ≠ GRef → full s' i.
Proof.
  intros Hf Hstep Hi. simpl in Hstep. unfold getNewBlocks_step in Hstep.
  destruct (s_blocks s !! s_gi s) as [bl|] eqn:Hbl; [|done].
  destruct (s_g s); repeat case_match; simplify_eq; apply (full_same s); try done.
  apply list_lookup_alter_ne. by destruct Hi.
Qed.

(** The steps of getNewBlocks to the next send. *)
Definition get_rank (g : gpc) : nat :=
  match g with GWait => 4 | GLoadR => 3 | GLoadStatus => 2 | GRef => 1 | GSend => 0 end.

(** The next block of the ring. *)
Lemma ahead_next (s s' : state) (e : nat) :
  s_nb s' = s_nb s → s_gi s' = (s_gi s + 1) mod s_nb s → ahead_of s' e = ahead_of s (S e).
Proof.
  intros Hnb Hgi. unfold ahead_of. rewrite Hnb, Hgi, Nat.Div0.add_mod_idemp_l. f_equal. lia.
Qed.

Lemma ahead_other (s : state) (e : nat) :
  s_gi s < s_nb s → 0 < e < s_nb s → ahead_of s e ≠ s_gi s.
Proof.
  intros Hg He. unfold ahead_of. destruct (decide (s_gi s + e < s_nb s)).
  - rewrite Nat.mod_small by done. lia.
  - replace (s_gi s + e) with (s_gi s + e - s_nb s + 1 * s_nb s) by lia.
    rewrite Nat.Div0.mod_add, Nat.mod_small by lia. lia.
Qed.

Lemma ahead_same (s s' : state) (e : nat) :
  s_nb s' = s_nb s → s_gi s' = s_gi s → ahead_of s' e = ahead_of s e.
Proof. intros Hnb Hgi. unfold ahead_of. by rewrite Hnb, Hgi. Qed.

Lemma ahead_zero (s : state) : s_gi s < s_nb s → ahead_of s 0 = s_gi s.
Proof. intros H. unfold ahead_of. rewrite Nat.add_0_r. by apply Nat.mod_small. Qed.

(** A step of getNewBlocks: nearer to the send, or the block at the cursor is queued and
    the cursor moves on. *)
Lemma get_step_cases (s s' : state) (errno : Z) :
  Inv s → step (LG errno) s = Next s' → (s_g s ≠ GSend → full s (s_gi s)) →
  s_gi s' = s_gi s ∧ get_rank (s_g s') < get_rank (s_g s) ∧ (s_g s = GRef ↔ s_g s' = GSend) ∨
  s_g s = GSend ∧ s_g s' = GLoadR ∧ s_gi s' = (s_gi s + 1) mod s_nb s ∧
    s_gi s ∈ ch_buf (s_new s').
Proof.
  intros HI Hstep Hf. simpl in Hstep. unfold getNewBlocks_step in Hstep.
  destruct (s_blocks s !! s_gi s) as [bl|] eqn:Hbl; [|done]. destruct (s_g s) eqn:Hg.
  1-4: destruct (Hf ltac:(done)) as (_ & bl' & Hbl' & Hr & Hst); rewrite Hbl in Hbl'; injection Hbl' as <-.
  - rewrite Hr in Hstep. simplify_eq/=. left. split_and!; [done|lia|done].
  - rewrite (proj2 (Z.eqb_neq _ _) Hst) in Hstep. simplify_eq/=. left. split_and!; [done|lia|done].
  - destruct (errno =? 0)%Z; simplify_eq/=. left. split_and!; [done|lia|done].
  - simplify_eq/=. left. split_and!; [done|lia|done].
  - destruct (chan_send (s_new s) (s_gi s)) as [| |ch] eqn:Hs; simplify_eq/=. right.
    apply chan_send_inv in Hs as (Hb & _). split_and!; [done..|]. rewrite Hb. set_solver.
Qed.

Lemma filled_to_get (s s' : state) (errno : Z) (d : nat) :
  Inv s → filled_to s d → step (LG errno) s = Next s' →
  filled_to s' d ∧ ahead_of s' d = ahead_of s d ∧ get_rank (s_g s') < get_rank (s_g s) ∨
  match d with
  | O => ahead_of s 0 ∈ ch_buf (s_new s')
  | S d => filled_to s' d ∧ ahead_of s' d = ahead_of s (S d) ∧ get_rank (s_g s') = 3
  end.
Proof.
  intros HI [Hd Hf] Hstep. pose proof (i_gi _ HI) as Hgi. pose proof (step_nb _ _ _ Hstep) as Hnb.
  assert (s_g s ≠ GSend → full s (s_gi s)) as Hcur.
  { intros Hg. rewrite <- (ahead_zero s Hgi). apply Hf; [lia|by right]. }
  destruct (get_step_cases s s' errno HI Hstep Hcur) as [(Hgi' & Hlt & Href)|(Hg & Hg' & Hgi' & Hq)].
  - left. split_and!; [|by apply ahead_same|done]. split; [by rewrite Hnb|]. intros e He Hor.
    rewrite (ahead_same s s') by done. eapply full_get; [|exact Hstep|].
    + apply Hf; [done|]. destruct Hor as [?|Hor]; [by left|right].
      intros E. rewrite E in Hlt. simpl in Hlt. lia.
    + destruct (decide (e = 0)) as [->|Hne]; [|left; apply ahead_other; lia].
      right. intros Hr%Href. destruct Hor as [?|Hor]; [lia|done].
  - right. destruct d as [|d]; [by rewrite ahead_zero|].
    split_and!; [|by apply ahead_next|by rewrite Hg'].
    split; [rewrite Hnb; lia|]. intros e He _. rewrite (ahead_next s s') by done.
    eapply full_get; [apply Hf; [lia|left; lia]|exact Hstep|]. right. by rewrite Hg.
Qed.

(** Between its own steps getNewBlocks stays where it is. *)
Lemma get_stays (s s' : state) (l : label) :
  step l s = Next s' → ¬ of_get l → s_g s' = s_g s ∧ s_gi s' = s_gi s.
Proof.
  intros Hstep Hl. destruct l; try (by step_cases Hstep). by destruct Hl; eexists.
Qed.

Lemma filled_to_step (s s' : state) (l : label) (d : nat) :
  Inv s → filled_to s d → step l s = Next s' → ¬ of_get l →
  filled_to s' d ∧ ahead_of s' d = ahead_of s d ∧ s_g s' = s_g s.
Proof.
  intros HI [Hd Hf] Hstep Hl. destruct (get_stays s s' l Hstep Hl) as [Hg Hgi].
  pose proof (step_nb _ _ _ Hstep) as Hnb. split_and!; [|by apply ahead_same|done].
  split; [by rewrite Hnb|]. intros e He Hor. rewrite Hg in Hor. rewrite (ahead_same s s') by done.
  eapply full_step; [done|by apply Hf|done|done].
Qed.

(** It can always move. *)
Lemma get_able (n : nat) (s : state) :
  0 < n → reachable n s → conn_bound s → able of_get s.
Proof.
  intros Hn Hr Hb. destruct (step (LG 0) s) as [|s'|why] eqn:E.
  - exfalso. destruct (decide (s_g s = GSend)) as [Hg|Hg].
    + destruct (getNewBlocks_never_waits n s 0 Hn Hr Hg) as (s' & Hs & _). congruence.
    + simpl in E. unfold getNewBlocks_step in E. destruct (s_blocks s !! s_gi s); [|done].
      by destruct (s_g s).
  - by exists (LG 0), s'; split; [eexists|].
  - by destruct (step_no_crash _ _ _ (reachable_inv n s Hn Hr) Hb E) as (errno & [= <-] & ? & _).
Qed.

Section filling.
Context (n : nat) (tr : nat → state) (lab : nat → label).
Context (Hn : 0 < n) (Hex : execution n tr lab) (Hb : ∀ k, conn_bound (tr k)).
Context (Hget : weak_fair tr lab of_get).

Local Notation inv := (ex_inv n tr lab Hn Hex Hb).

(** getNewBlocks takes its next step from where it is. *)
Lemma get_acts (P : state → Prop) (k : nat) :
  (∀ s s' l, Inv s → P s → step l s = Next s' → ¬ of_get l → P s') → P (tr k) →
  ∃ j, k ≤ j ∧ of_get (lab j) ∧ P (tr j).
Proof.
  intros HP Hk. destruct (Hget k) as (j & Hle & Hj).
  assert ((∃ i, k ≤ i ∧ of_get (lab i) ∧ P (tr i)) ∨ P (tr j)) as [|HPj]; [|done|].
  { clear Hj. induction Hle as [|j Hle [IH|IH]]; [by right|by left|].
    assert (of_get (lab j) ∨ ¬ of_get (lab j)) as [Hl|Hl].
    { destruct (lab j); try (right; by intros [? ?]). left. by eexists. }
    - left. by exists j.
    - right. by eapply HP; [apply inv|exact IH|apply Hex|]. }
  destruct Hj as [Hl|Hno]; [by exists j|]. destruct Hno. apply (get_able n); [done|by apply (ex_reachable n tr lab)|done].
Qed.

(** A filled block is queued, after those before it. *)
Lemma filled_to_queued (m i d k : nat) :
  filled_to (tr k) d → ahead_of (tr k) d = i → 5 * d + get_rank (s_g (tr k)) = m →
  ∃ j, k ≤ j ∧ i ∈ ch_buf (s_new (tr j)).
Proof.
  revert d k. induction m as [m IH] using lt_wf_ind. intros d k Hf Hi Hm.
  destruct (get_acts (λ s, filled_to s d ∧ ahead_of s d = i ∧ s_g s = s_g (tr k)) k)
    as (j & Hj & [errno Hl] & Hfj & Hij & Hgj).
  { intros s s' l HI (Hfs & His & Hgs) Hs Hl.
    destruct (filled_to_step s s' l d HI Hfs Hs Hl) as (? & ? & ?). split_and!; [done|congruence..]. }
  { done. }
  pose proof (ex_step _ _ _ Hex j) as Hs. rewrite Hl in Hs.
  destruct (filled_to_get _ _ _ d (inv j) Hfj Hs) as [(Hf' & Hi' & Hlt)|Hnext].
  - destruct (IH (5 * d + get_rank (s_g (tr (S j)))) ltac:(rewrite Hgj in Hlt; lia) d (S j))
      as (i' & Hi2 & ?); [done|congruence|done|]. exists i'. split; [lia|done].
  - destruct d as [|d]; [exists (S j); split; [lia|congruence]|]. destruct Hnext as (Hf' & Hi' & Hr).
    destruct (IH (5 * d + get_rank (s_g (tr (S j)))) ltac:(lia) d (S j)) as (i' & Hi2 & ?);
      [done|congruence|done|]. exists i'. split; [lia|done].
Qed.

Lemma filled_queued (i k : nat) :
  filled (tr k) i → ∃ j, k ≤ j ∧ i ∈ ch_buf (s_new (tr j)).
Proof. intros (d & Hf & Hi). by eapply filled_to_queued. Qed.
End filling.

(** A scheduler that is fair to what delivery to [c] needs. *)
Record fair_delivery (c : nat) (tr : nat → state) (lab : nat → label) : Prop := {
  fd_get : weak_fair tr lab of_get;
  fd_run : weak_fair tr lab (λ l, l = LRun);
  fd_new : strong_fair tr lab (λ l, ∃ order, l = LNew order);
  fd_conn : weak_fair tr lab (of_conn c);
  fd_select : select_fair c tr lab;
}.

Section end_to_end.
Context (n : nat) (tr : nat → state) (lab : nat → label) (c : nat).
Context (Hn : 0 < n).
Context (Hex : execution n tr lab) (Hb : ∀ k, conn_bound (tr k)) (Hfair : fair_delivery c tr lab).

(** conn.run is back at its select, having taken and written [all] and maybe more. *)
Definition has_written (cn : conn) (all : list nat) : Prop :=
  c_pc cn = CSelect ∧ all `prefix_of` l_got (c_log cn).

(** Everything sent by a certain time is written, or the connection stops serving. *)
Lemma sent_delivered (k : nat) (cn : conn) :
  s_conns (tr k) !! c = Some cn →
  ∃ j cn', s_conns (tr j) !! c = Some cn' ∧
    (¬ serving cn' ∨ has_written cn' (l_sent (c_log cn))).
Proof.
  intros Hc. destruct (delivers n tr lab c Hn Hex Hb (fd_conn _ _ _ Hfair) (fd_select _ _ _ Hfair)
    (length (l_sent (c_log cn))) _ k cn Hc ltac:(done) eq_refl)
    as (j & cn' & Hj & Hc' & [?|[Hpc Hlen]]); [by exists j, cn'; auto|].
  exists j, cn'. split; [done|]. right. split; [done|].
  pose proof (cw_fifo _ _ _ (i_conn _ (ex_inv n tr lab Hn Hex Hb j) _ _ Hc')) as Hf.
  destruct (ex_log n tr lab c Hex k j cn Hj Hc) as (cn2 & Hc2 & Hs & _).
  rewrite Hc' in Hc2. injection Hc2 as <-. rewrite Hf in Hs.
  destruct (prefix_weak_total _ _ _ Hs (prefix_app_r _ _ (ch_buf (c_new cn')) (reflexivity _)))
    as [?|Hrev]; [done|]. by rewrite (prefix_length_eq _ _ Hrev Hlen).
Qed.

(** A connection run has removed does not serve. *)
Lemma removed_not_serving (s : state) (cn : conn) :
  Inv s → s_conns s !! c = Some cn → c ∉ s_cur s → ¬ serving cn.
Proof.
  intros HI Hc Hcur. pose proof (cw_stage _ _ _ (i_conn _ HI _ _ Hc)) as Hst.
  unfold stage_of in Hst. rewrite decide_False in Hst by done. unfold serving. intros Hsv.
  destruct Hst as [_ Hst].
  destruct (c_pc cn) as [| | | |? []|? []| | | | | |]; simpl in *; try done; by destruct Hst as [|[]].
Qed.

(** A queued block reaches the client. *)
Lemma queued_delivered (b k : nat) (cn : conn) :
  b ∈ ch_buf (s_new (tr k)) → s_conns (tr k) !! c = Some cn →
  ∃ j cn', s_conns (tr j) !! c = Some cn' ∧
    (¬ serving cn' ∨ ∃ more, has_written cn' (l_sent (c_log cn) ++ more) ∧ b ∈ more).
Proof.
  intros (pre & post & Hq)%list_elem_of_split Hc.
  destruct (gets_popped n tr lab Hn Hex Hb (fd_run _ _ _ Hfair) (fd_new _ _ _ Hfair) _ k b pre post Hq
    eq_refl) as (i & order & Hi & Hr & Hord).
  destruct (decide (c ∈ s_cur (tr i))) as [Hin|Hout].
  - destruct (ex_log n tr lab c Hex k (S i) cn ltac:(lia) Hc) as (cn1 & Hc1 & [m1 Hm1] & _).
    assert (owes (tr (S i)) b c) as Ho.
    { unfold owes. rewrite Hr. split; [done|]. rewrite <- Hord in Hin. set_solver. }
    destruct (owed_sent n tr lab Hn Hex Hb (fd_run _ _ _ Hfair) _ b c (S i) cn1 Ho Hc1 eq_refl)
      as (m & cn2 & m2 & _ & Hc2 & Hm2 & Hb2).
    destruct (sent_delivered m cn2 Hc2) as (j & cn' & Hc' & Hcase).
    exists j, cn'. split; [done|]. destruct Hcase as [|Hw]; [by left|]. right.
    exists (m1 ++ m2). split; [|set_solver]. by rewrite Hm2, Hm1, <- !app_assoc in Hw.
  - destruct (ex_log n tr lab c Hex k i cn ltac:(lia) Hc) as (cn1 & Hc1 & _).
    exists i, cn1. split; [done|]. left.
    by apply (removed_not_serving (tr i) cn1 (ex_inv n tr lab Hn Hex Hb i)).
Qed.

(** So does a block the kernel has filled. *)
Lemma filled_written (b : nat) (cn : conn) :
  filled (tr 0) b → s_conns (tr 0) !! c = Some cn →
  ∃ j cn', s_conns (tr j) !! c = Some cn' ∧
    (¬ serving cn' ∨ ∃ more, has_written cn' (l_sent (c_log cn) ++ more) ∧ b ∈ more).
Proof.
  intros Hf Hc.
  destruct (filled_queued n tr lab Hn Hex Hb (fd_get _ _ _ Hfair) b 0 Hf) as (k & _ & Hq).
  destruct (ex_log n tr lab c Hex 0 k cn ltac:(lia) Hc) as (cn1 & Hc1 & [m1 Hm1] & _).
  destruct (queued_delivered b k cn1 Hq Hc1) as (j & cn' & Hc' & [?|(m2 & Hm2 & Hin)]);
    [by exists j, cn'; auto|].
  exists j, cn'. split; [done|]. right. exists (m1 ++ m2). split; [|set_solver].
  by rewrite Hm1, <- app_assoc in Hm2.
Qed.
End end_to_end.

(** Delivery, from the kernel to the client: in every execution that is fair to
    getNewBlocks, run and a connection, a block the kernel has filled, with all blocks
    before it that getNewBlocks has not picked up, reaches the client: at some time the words written to it decode to everything that
    was sent to it before and then a sequence with this block, unless the connection
    leaves its serving loop first.  No further traffic, neither new blocks nor returned
    ones nor other clients, can put this off forever. *)
Theorem filled_block_delivered (n : nat) (tr : nat → state) (lab : nat → label) (b c : nat)
    (cn : conn) :
  0 < n → (Z.of_nat n <= 2 ^ 32)%Z → execution n tr lab → (∀ k, conn_bound (tr k)) →
  fair_delivery c tr lab → filled (tr 0) b → s_conns (tr 0) !! c = Some cn →
  ∃ j cn', s_conns (tr j) !! c = Some cn' ∧
    (¬ serving cn' ∨
     ∃ more, decode_all (l_wire (c_log cn')) = Some (Z.of_nat <$> (l_sent (c_log cn) ++ more)) ∧
       b ∈ more).
Proof.
  intros Hn Hw Hex Hb Hfair Hf Hc.
  destruct (filled_written n tr lab c Hn Hex Hb Hfair b cn Hf Hc)
    as (j & cn' & Hc' & [?|(more & [Hpc [m Hm]] & Hin)]); [by exists j, cn'; auto|].
  exists j, cn'. split; [done|]. right. exists (more ++ m). split; [|set_solver].
  destruct (wire_words n (tr j) c cn' Hn Hw (ex_reachable n tr lab Hex Hb j) Hc') as [_ Hdec].
  destruct (Hdec Hpc) as [-> _]. by rewrite Hm, <- app_assoc.
Qed.

(** The kernel has filled block 0; getNewBlocks queues it, run passes it to client 7 and
    conn.run writes it. *)
Definition filled_start : state := demo_state (take 2 demo_deliver).
Definition deliver_labels : list label := drop 2 demo_deliver ++ demo_write.
Definition deliver_rest : state := demo_state (demo_deliver ++ demo_write).

Lemma new_blocked (s s' : state) (order : list nat) :
  chan_recv (s_new s) = RecvEmpty → step (LNew order) s ≠ Next s'.
Proof.
  intros E. simpl. unfold run_new. rewrite E. destruct (s_run s); try done. by case_bool_decide.
Qed.

Lemma deliver_fair :
  run_schedule deliver_labels filled_start = Some deliver_rest →
  s_g deliver_rest = GLoadR → idle_cursor deliver_rest = true →
  fair_delivery 7 (follow (then_poll deliver_labels) filled_start) (then_poll deliver_labels).
Proof.
  intros Hrun Hg Hidle.
  assert (∀ P : label → Prop, (∀ l, P l → of_conn 7 l ∨ l = LRun ∨ ∃ order, l = LNew order) →
    strong_fair (follow (then_poll deliver_labels) filled_start) (then_poll deliver_labels) P) as H.
  { intros P HP. apply (follow_fair filled_start deliver_labels deliver_rest Hrun Hg Hidle).
    intros g l s' Hl. destruct (HP l Hl) as [[choice ->]|[->|[order ->]]].
    - by destruct choice; vm_compute.
    - by vm_compute.
    - apply new_blocked. vm_compute. reflexivity. }
  split; [|apply strong_weak, H; auto|apply H; auto|apply strong_weak, H; auto|].
  { intros k. exists (length deliver_labels + k). split; [lia|]. left. exists 0%Z.
    apply then_poll_after. lia. }
  intros k. exists (length deliver_labels + k). split; [lia|]. right.
  intros i Hi (cn1 & Hc1 & _ & Hbuf).
  destruct (follow_rest filled_start deliver_labels deliver_rest Hrun Hg Hidle
    (i - length deliver_labels)) as (g & _ & IH).
  replace (length deliver_labels + (i - length deliver_labels)) with i in IH by lia.
  rewrite IH in Hc1. vm_compute in Hc1. injection Hc1 as <-. by apply Hbuf.
Qed.

Lemma filled_start_filled : filled filled_start 0.
Proof.
  assert (s_run filled_start = RSelect ∧ s_blocks filled_start !! 0 = Some (Block 0 1 1) ∧
    option_map (clearing ∘ c_pc) (s_conns filled_start !! 7) = Some None ∧
    dom (s_conns filled_start) = {[7]}) as (Hr & Hbl & Hcl & Hdom) by (vm_compute; done).
  exists 0. split; [|vm_compute; reflexivity]. split; [vm_compute; lia|]. intros e He _.
  assert (e = 0) as -> by lia. split; [|by exists (Block 0 1 1)].
  change (ahead_of filled_start 0) with 0.
  intros [Hp|(c0 & cn0 & Hc0 & Hp)]; [by rewrite Hr in Hp|].
  apply elem_of_dom_2 in Hc0 as Hd. rewrite Hdom in Hd. apply elem_of_singleton in Hd as ->.
  rewrite Hc0 in Hcl. simpl in Hcl. congruence.
Qed.

Lemma filled_block_delivered_witness :
  ∃ j cn', s_conns (follow (then_poll deliver_labels) filled_start j) !! 7 = Some cn' ∧
    (¬ serving cn' ∨
     ∃ more, decode_all (l_wire (c_log cn')) = Some (Z.of_nat <$> ([] ++ more)) ∧ 0 ∈ more).
Proof.
  assert (run_schedule deliver_labels filled_start = Some deliver_rest) as Hrun
    by (vm_compute; reflexivity).
  assert (idle_cursor deliver_rest = true) as Hidle by (vm_compute; reflexivity).
  assert (s_g deliver_rest = GLoadR) as Hg by (vm_compute; reflexivity).
  assert (option_map (l_sent ∘ c_log) (s_conns filled_start !! 7) = Some []) as Hsent
    by (vm_compute; reflexivity).
  destruct (s_conns filled_start !! 7) as [cn|] eqn:E; [|done]. injection Hsent as Hsent.
  destruct (filled_block_delivered 2 (follow (then_poll deliver_labels) filled_start)
    (then_poll deliver_labels) 0 7 cn) as (j & cn' & Hc & Hd).
  - lia.
  - lia.
  - apply (follow_execution 2 _ _ deliver_rest); [apply demo_reachable; by vm_compute|done..].
  - apply (follow_bound filled_start deliver_labels deliver_rest); [done..|]. by vm_compute.
  - by apply deliver_fair.
  - apply filled_start_filled.
  - exact E.
  - exists j, cn'. split; [exact Hc|]. rewrite <- Hsent. exact Hd.
Defined.
