(* ===== verification/Returns.v ===== *)
(** * Returned blocks are given up: liveness of returns

    The other direction of the protocol: in every execution in which the scheduler is
    fair to a connection, a block index the client sent back and handleReads queued is
    taken by conn.run, which gives up its reference, however many new blocks compete
    for its attention, unless the connection leaves its serving loop. *)

From stdpp Require Import base list numbers option gmap.
From Stdlib Require Import ZArith Lia.
From S2P Require Import Prelude Bytes Protocol Chan Block Socket SocketInv SocketSafety Shutdown.
From S2P Require Import Fair Delivery.

Local Open Scope nat_scope.

(** ** One returned index *)

(** conn.run takes a returned index at its select. *)
Definition can_take (c : nat) (s : state) : Prop :=
  ∃ cn, s_conns s !! c = Some cn ∧ c_pc cn = CSelect ∧ ch_buf (c_old cn) ≠ [].
Definition takes (c : nat) (s : state) (l : label) : Prop :=
  can_take c s ∧ l = LConn c PickOld.

(** Where the index [v] stands in the queue, or that it was taken. *)
Definition waits (cn : conn) (v : Z) (p : nat) : Prop :=
  ∃ pre post, ch_buf (c_old cn) = pre ++ v :: post ∧ length pre = p.

Definition in_hand (cn : conn) (v : Z) : Prop := c_pc cn = CUnref (Z.to_nat (v - 1)) KSelect.

(** Taken, or at most (or less than) so many before it; or the loop was left. *)
Definition later (cn : conn) (v : Z) (p : nat) : Prop :=
  ¬ serving cn ∨ in_hand cn v ∨ ∃ p', waits cn v p' ∧ p' ≤ p.
Definition sooner (cn : conn) (v : Z) (p : nat) : Prop :=
  ¬ serving cn ∨ in_hand cn v ∨ ∃ p', waits cn v p' ∧ p' < p.

(** A step that leaves the queue of returned indexes alone, or appends to it. *)
Lemma waits_append (cn cn' : conn) (v : Z) (p : nat) (more : list Z) :
  ch_buf (c_old cn') = ch_buf (c_old cn) ++ more → waits cn v p → later cn' v p.
Proof.
  intros Hb (pre & post & Hq & Hp). right. right. exists p. split; [|done].
  exists pre, (post ++ more). by rewrite Hb, Hq, <- app_assoc.
Qed.

Lemma waits_same (cn cn' : conn) (v : Z) (p : nat) :
  ch_buf (c_old cn') = ch_buf (c_old cn) → waits cn v p → later cn' v p.
Proof. intros Hb. apply (waits_append cn cn' v p []). by rewrite app_nil_r. Qed.

(** The select takes the first index. *)
Lemma take_old_step (c : nat) (cn : conn) (s s' : state) (v : Z) (p : nat) :
  c_pc cn = CSelect → (0 < v)%Z → waits cn v p → conn_step c cn PickOld s = Next s' →
  ∃ cn', s_conns s' !! c = Some cn' ∧ sooner cn' v p.
Proof.
  intros Hpc Hv (pre & post & Hq & Hp) Hstep. unfold conn_step, chan_recv in Hstep.
  rewrite Hpc, Hq in Hstep. unfold sooner, serving, in_hand. destruct pre as [|x pre]; simpl in Hstep.
  - rewrite (proj2 (Z.eqb_neq v 0)) in Hstep by lia.
    repeat case_match; simplify_eq; (eexists; split; [apply lookup_insert_eq|]); simpl; auto.
  - assert (∀ cn', ch_buf (c_old cn') = pre ++ v :: post → ∃ p', waits cn' v p' ∧ p' < p) as Hgo.
    { intros cn' Hb. exists (length pre). simpl in Hp. split; [by exists pre, post|lia]. }
    repeat case_match; simplify_eq; (eexists; split; [apply lookup_insert_eq|]); auto.
Qed.

(** Nothing else conn.run does while it serves touches the queue. *)
Lemma keep_old_step (c : nat) (cn : conn) (choice : conn_choice) (s s' : state) :
  serving cn → (c_pc cn = CSelect → choice ≠ PickOld) → conn_step c cn choice s = Next s' →
  ∃ cn', s_conns s' !! c = Some cn' ∧ ch_buf (c_old cn') = ch_buf (c_old cn).
Proof.
  intros Hsv Hno Hstep. unfold serving in Hsv. unfold conn_step in Hstep.
  destruct (c_pc cn) as [|b out|out|out|b [| |]|b [| |]| | | | |i|] eqn:Hpc; try done;
    repeat (case_match; simplify_eq); simplify_eq; try (by destruct Hno);
    (eexists; split; [apply lookup_insert_eq|done]).
Qed.

(** handleReads appends; nobody else touches it at all. *)
Lemma step_old_grows (s s' : state) (l : label) (c : nat) (cn : conn) :
  s_conns s !! c = Some cn → (∀ choice, l ≠ LConn c choice) → step l s = Next s' →
  ∃ cn' more, s_conns s' !! c = Some cn' ∧ ch_buf (c_old cn') = ch_buf (c_old cn) ++ more.
Proof.
  intros Hc Hl Hstep.
  assert (∀ cn', s_conns s' !! c = Some cn' → ch_buf (c_old cn') = ch_buf (c_old cn) →
    ∃ cn' more, s_conns s' !! c = Some cn' ∧ ch_buf (c_old cn') = ch_buf (c_old cn) ++ more) as Hsame
    by (intros cn' H1 H2; exists cn', []; by rewrite app_nil_r).
  destruct l as [b status|errno| |c'|c'|order|c' choice|c' ev].
  8: { simpl in Hstep. destruct (s_conns s !! c') as [cn0|] eqn:Hc0; [|done].
       destruct (decide (c' = c)) as [->|Hne].
       - rewrite Hc in Hc0. injection Hc0 as <-. unfold read_step in Hstep.
         destruct (c_rd cn) as [|typ len|v| |].
         3: { destruct (chan_send (c_old cn) v) as [| |ch] eqn:Hs; [done|done|]. injection Hstep as <-.
              apply chan_send_inv in Hs as (Hb & _). eexists _, [v].
              split; [apply lookup_insert_eq|]. simpl. by rewrite Hb. }
         all: unfold chan_close in Hstep; repeat (case_match; simplify_eq); simplify_eq;
           (eapply Hsame; [apply lookup_insert_eq|done]).
       - apply (Hsame cn); [|done].
         assert (∃ cn1, s' = set_conn c' cn1 s) as [cn1 ->]
           by (unfold read_step in Hstep; repeat (case_match; simplify_eq); by eexists).
         simpl. by rewrite lookup_insert_ne. }
  7: { simpl in Hstep. destruct (s_conns s !! c') as [cn0|] eqn:Hc0; [|done].
       assert (c' ≠ c) as Hne by (intros ->; by destruct (Hl choice)).
       apply (Hsame cn); [|done].
       assert (∃ cn1 s1, s' = set_conn c' cn1 s1 ∧ s_conns s1 = s_conns s) as (cn1 & s1 & -> & E).
       { unfold conn_step in Hstep. repeat (case_match; simplify_eq);
           try (by eexists _, s); try (by eexists _, (upd_block _ _ s)).
         all: match goal with H : dec_block _ _ = Some _ |- _ =>
                apply dec_block_inv in H as (? & _ & -> & _) end; by eexists _, _. }
       simpl. by rewrite E, lookup_insert_ne. }
  all: step_cases Hstep; try (by apply (Hsame cn));
    match goal with |- context [<[?c0 := _]> _ !! ?c1] =>
      destruct (decide (c0 = c1)) as [->|Hne];
        [|apply (Hsame cn); [by rewrite lookup_insert_ne|done]]
    end; simplify_eq; (eapply Hsame; [apply lookup_insert_eq|done]).
Qed.

(** An index that waits comes nearer to the front whenever the select takes one, and
    loses its place to nobody. *)
Lemma step_later (s s' : state) (l : label) (c : nat) (cn : conn) (v : Z) (p : nat) :
  s_conns s !! c = Some cn → serving cn → (0 < v)%Z → waits cn v p → step l s = Next s' →
  ∃ cn', s_conns s' !! c = Some cn' ∧ later cn' v p ∧ (takes c s l → sooner cn' v p).
Proof.
  intros Hc Hsv Hv Hw Hstep.
  assert (of_conn c l ∨ ∀ choice, l ≠ LConn c choice) as [[choice ->]|Hl].
  { destruct l as [| | | | | |c' choice|]; try by right.
    destruct (decide (c' = c)) as [->|Hne]; [left; by exists choice|right; congruence]. }
  - assert (step (LConn c choice) s = conn_step c cn choice s) as E by (simpl; by rewrite Hc).
    rewrite E in Hstep.
    assert ((c_pc cn = CSelect ∧ choice = PickOld) ∨ (c_pc cn = CSelect → choice ≠ PickOld))
      as [[Hpc ->]|Hno] by (destruct (c_pc cn), choice; auto).
    + destruct (take_old_step c cn s s' v p Hpc Hv Hw Hstep) as (cn' & Hc' & Hs).
      exists cn'. split_and!; [done| |done].
      destruct Hs as [|[|(p' & ? & ?)]]; [by left|by right; left|].
      right. right. exists p'. split; [done|lia].
    + destruct (keep_old_step c cn choice s s' Hsv Hno Hstep) as (cn' & Hc' & Hb).
      exists cn'. split_and!; [done|by eapply waits_same|].
      intros [(cn0 & Hc0 & Hpc & _) [= ->]]. simplify_eq. by destruct (Hno Hpc).
  - destruct (step_old_grows s s' l c cn Hc Hl Hstep) as (cn' & more & Hc' & Hb).
    exists cn'. split_and!; [done|by eapply waits_append|]. intros [_ E]. by destruct (Hl PickOld).
Qed.

(** ** Fair executions *)

(** The select does not pass over a returned index forever, however many new blocks
    compete with it. *)
Definition return_fair (c : nat) (tr : nat → state) (lab : nat → label) : Prop :=
  ∀ k, ∃ j, k ≤ j ∧ (takes c (tr j) (lab j) ∨ ∀ i, j ≤ i → ¬ can_take c (tr i)).

Section returns.
Context (n : nat) (tr : nat → state) (lab : nat → label) (c : nat).
Context (Hn : 0 < n) (Hex : execution n tr lab) (Hb : ∀ k, conn_bound (tr k)).
Context (Hconn : weak_fair tr lab (of_conn c)) (Hreturn : return_fair c tr lab).

Local Notation inv := (ex_inv n tr lab Hn Hex Hb).

(** The index has left the queue, or the connection its loop. *)
Definition settled (k : nat) (v : Z) : Prop :=
  ∃ i cn, k ≤ i ∧ s_conns (tr i) !! c = Some cn ∧ (¬ serving cn ∨ serving cn ∧ in_hand cn v).

Lemma later_settled (k : nat) (cn : conn) (v : Z) (q : nat → Prop) :
  s_conns (tr k) !! c = Some cn → (¬ serving cn ∨ in_hand cn v ∨ ∃ p', waits cn v p' ∧ q p') →
  settled k v ∨ serving cn ∧ ∃ p', waits cn v p' ∧ q p'.
Proof.
  intros Hc Hcase. destruct (decide (phase_rank (c_pc cn) = 6)) as [Hsv|Hsv].
  - destruct Hcase as [?|[?|?]]; [done| |by right]. left. exists k, cn. auto.
  - left. exists k, cn. auto.
Qed.

Lemma settled_earlier (k j : nat) (v : Z) : k ≤ j → settled j v → settled k v.
Proof. intros Hle (i & cn & Hi & ?). exists i, cn. split; [lia|done]. Qed.

Lemma waits_meanwhile (k j : nat) (cn : conn) (v : Z) (p : nat) :
  k ≤ j → s_conns (tr k) !! c = Some cn → serving cn → (0 < v)%Z → waits cn v p →
  settled k v ∨ ∃ cn' p', s_conns (tr j) !! c = Some cn' ∧ serving cn' ∧ waits cn' v p' ∧ p' ≤ p.
Proof.
  intros Hle Hc Hsv Hv Hw. induction Hle as [|j Hle [IH|(cn1 & p1 & Hc1 & Hsv1 & Hw1 & Hp1)]];
    [right; by exists cn, p|by left|].
  destruct (step_later _ _ _ c cn1 v p1 Hc1 Hsv1 Hv Hw1 (ex_step _ _ _ Hex j))
    as (cn2 & Hc2 & Hl & _).
  destruct (later_settled (S j) cn2 v _ Hc2 Hl) as [Hset|(Hsv2 & p2 & Hw2 & Hp2)].
  - left. by apply (settled_earlier k (S j)); [lia|].
  - right. exists cn2, p2. split_and!; [done..|lia].
Qed.

(** Every waiting index is taken out of the queue. *)
Lemma gets_taken (p k : nat) (cn : conn) (v : Z) :
  s_conns (tr k) !! c = Some cn → serving cn → (0 < v)%Z → waits cn v p → settled k v.
Proof.
  revert k cn. induction p as [p IH] using lt_wf_ind. intros k cn Hc Hsv Hv Hw.
  destruct (Hreturn k) as (j & Hj & Hcase).
  destruct (waits_meanwhile k j cn v p Hj Hc Hsv Hv Hw)
    as [|(cn1 & p1 & Hc1 & Hsv1 & Hw1 & Hp1)]; [done|].
  apply (settled_earlier k j); [done|]. destruct Hcase as [Ht|Hnever].
  - destruct (step_later _ _ _ c cn1 v p1 Hc1 Hsv1 Hv Hw1 (ex_step _ _ _ Hex j))
      as (cn2 & Hc2 & _ & Hs).
    apply (settled_earlier j (S j)); [lia|].
    destruct (later_settled (S j) cn2 v _ Hc2 (Hs Ht)) as [|(Hsv2 & p2 & Hw2 & Hp2)]; [done|].
    apply (IH p2 ltac:(lia) (S j) cn2 Hc2 Hsv2 Hv Hw2).
  - destruct (back_to_select n tr lab c Hn Hex Hb Hconn _ j cn1 Hc1 eq_refl)
      as (i & cn2 & Hi & Hc2 & [Hns|Hsel]); [exists i, cn2; auto|].
    destruct (waits_meanwhile j i cn1 v p1 Hi Hc1 Hsv1 Hv Hw1)
      as [|(cn3 & p3 & Hc3 & _ & (pre & post & Hq & _) & _)]; [done|].
    exfalso. apply (Hnever i Hi). rewrite Hc2 in Hc3. injection Hc3 as <-.
    exists cn2. split_and!; [done..|]. rewrite Hq. by destruct pre.
Qed.

(** From here to there, block [b] is given up. *)
Definition gives_up (k b : nat) (cn : conn) : Prop :=
  ∃ j cn' more, k ≤ j ∧ s_conns (tr j) !! c = Some cn' ∧
    l_put (c_log cn') = l_put (c_log cn) ++ more ∧ b ∈ more.

(** Unref is conn.run's next step. *)
Lemma unref_next (j b : nat) (cn : conn) :
  s_conns (tr j) !! c = Some cn → c_pc cn = CUnref b KSelect → of_conn c (lab j) →
  ∃ cn', s_conns (tr (S j)) !! c = Some cn' ∧ l_put (c_log cn') = l_put (c_log cn) ++ [b].
Proof.
  intros Hc Hpc [choice Hl]. pose proof (ex_step _ _ _ Hex j) as Hs. rewrite Hl in Hs. simpl in Hs.
  rewrite Hc in Hs. unfold conn_step in Hs. rewrite Hpc in Hs.
  destruct (dec_block b (tr j)) as [[s1 nx]|]; [|done].
  destruct nx; [|done|]; injection Hs as <-; (eexists; split; [apply lookup_insert_eq|done]).
Qed.

Lemma unref_meanwhile (k j b : nat) (cn : conn) :
  k ≤ j → s_conns (tr k) !! c = Some cn → c_pc cn = CUnref b KSelect →
  (∃ i, k ≤ i ∧ of_conn c (lab i) ∧ ∃ cn', s_conns (tr i) !! c = Some cn' ∧ c_pc cn' = CUnref b KSelect) ∨
  ∃ cn', s_conns (tr j) !! c = Some cn' ∧ c_pc cn' = CUnref b KSelect.
Proof.
  intros Hle Hc Hpc. induction Hle as [|j Hle [IH|(cn1 & Hc1 & Hpc1)]]; [by right; exists cn|by left|].
  assert (serving cn1) as Hsv1 by (unfold serving; by rewrite Hpc1).
  destruct (step_in_batch _ _ _ c cn1 (inv j) Hc1 Hsv1 ltac:(by rewrite Hpc1) (ex_step _ _ _ Hex j))
    as (cn2 & Hc2 & [[Hl _]|[_ [Hpc2 _]]]).
  - left. by exists j; eauto.
  - right. exists cn2. split; [done|congruence].
Qed.

Lemma unref_done (k b : nat) (cn : conn) :
  s_conns (tr k) !! c = Some cn → c_pc cn = CUnref b KSelect → gives_up k b cn.
Proof.
  intros Hc Hpc.
  assert (∃ i, k ≤ i ∧ of_conn c (lab i) ∧
    ∃ cn', s_conns (tr i) !! c = Some cn' ∧ c_pc cn' = CUnref b KSelect) as (i & Hi & Hl & cn1 & Hc1 & Hpc1).
  { destruct (Hconn k) as (j & Hj & Hcase).
    destruct (unref_meanwhile k j b cn Hj Hc Hpc) as [|(cn1 & Hc1 & Hpc1)]; [done|].
    destruct Hcase as [?|Hno]; [by eauto 7|]. destruct Hno.
    apply (conn_able (tr j) (inv j) (Hb j) c cn1 Hc1). unfold waiting. by rewrite Hpc1. }
  destruct (unref_next i b cn1 Hc1 Hpc1 Hl) as (cn2 & Hc2 & Hput).
  destruct (ex_log n tr lab c Hex k i cn Hi Hc) as (cn3 & Hc3 & _ & _ & [more Hmore]).
  rewrite Hc1 in Hc3. injection Hc3 as <-.
  exists (S i), cn2, (more ++ [b]). split_and!; [lia|done| |set_solver].
  by rewrite Hput, Hmore, app_assoc.
Qed.
End returns.

(** A scheduler that is fair to what a return to [c] needs. *)
Record fair_return (c : nat) (tr : nat → state) (lab : nat → label) : Prop := {
  fr_conn : weak_fair tr lab (of_conn c);
  fr_select : return_fair c tr lab;
}.

(** C14: returns, under fairness: in every execution that is fair to a connection, a
    block index [b] that handleReads has queued (as [b + 1]) makes conn.run give up a
    reference to [b], however many blocks arrive meanwhile and whatever else is
    returned, unless the connection leaves its serving loop. *)
Theorem returned_block_given_up (n : nat) (tr : nat → state) (lab : nat → label) (b c : nat)
    (cn : conn) :
  0 < n → execution n tr lab → (∀ k, conn_bound (tr k)) → fair_return c tr lab →
  s_conns (tr 0) !! c = Some cn → (Z.of_nat b + 1)%Z ∈ ch_buf (c_old cn) →
  ∃ j cn', s_conns (tr j) !! c = Some cn' ∧
    (¬ serving cn' ∨ ∃ more, l_put (c_log cn') = l_put (c_log cn) ++ more ∧ b ∈ more).
Proof.
  intros Hn Hex Hb [Hconn Hsel] Hc (pre & post & Hq)%list_elem_of_split.
  destruct (decide (phase_rank (c_pc cn) = 6)) as [Hsv|Hsv]; [|by exists 0, cn; auto].
  destruct (gets_taken n tr lab c Hn Hex Hb Hconn Hsel (length pre) 0 cn (Z.of_nat b + 1))
    as (i & cn1 & _ & Hc1 & [?|[_ Hhand]]); [done..|lia|by exists pre, post|by exists i, cn1; auto|].
  unfold in_hand in Hhand. replace (Z.to_nat (Z.of_nat b + 1 - 1)) with b in Hhand by lia.
  destruct (unref_done n tr lab c Hn Hex Hb Hconn Hsel i b cn1 Hc1 Hhand)
    as (j & cn2 & more & _ & Hc2 & Hput & Hin).
  destruct (ex_log n tr lab c Hex 0 i cn ltac:(lia) Hc) as (cn3 & Hc3 & _ & _ & [m1 Hm1]).
  rewrite Hc1 in Hc3. injection Hc3 as <-. exists j, cn2. split; [done|]. right.
  exists (m1 ++ more). split; [|set_solver]. by rewrite Hput, Hm1, <- app_assoc.
Qed.

(** Client 7 of the demonstration has returned block 0; conn.run takes the index and
    gives the block back to the kernel. *)
Definition return_start : state := demo_state (demo_deliver ++ demo_write ++ take 2 demo_return).
Definition return_labels : list label := drop 2 demo_return.
Definition return_rest : state := demo_state (demo_deliver ++ demo_write ++ demo_return).

Lemma returned_fair :
  run_schedule return_labels return_start = Some return_rest →
  s_g return_rest = GLoadR → idle_cursor return_rest = true →
  fair_return 7 (follow (then_poll return_labels) return_start) (then_poll return_labels).
Proof.
  intros Hrun Hg Hidle. split.
  - apply strong_weak, (follow_fair return_start return_labels return_rest Hrun Hg Hidle).
    intros g l s' [choice ->]. by destruct choice; vm_compute.
  - intros k. exists (length return_labels + k). split; [lia|]. right.
    intros i Hi (cn1 & Hc1 & _ & Hbuf).
    destruct (follow_rest return_start return_labels return_rest Hrun Hg Hidle
      (i - length return_labels)) as (g & _ & IH).
    replace (length return_labels + (i - length return_labels)) with i in IH by lia.
    rewrite IH in Hc1. vm_compute in Hc1. injection Hc1 as <-. by apply Hbuf.
Qed.

Lemma returned_block_given_up_witness :
  ∃ j cn', s_conns (follow (then_poll return_labels) return_start j) !! 7 = Some cn' ∧
    (¬ serving cn' ∨ ∃ more, l_put (c_log cn') = [] ++ more ∧ 0 ∈ more).
Proof.
  assert (run_schedule return_labels return_start = Some return_rest) as Hrun
    by (vm_compute; reflexivity).
  assert (idle_cursor return_rest = true) as Hidle by (vm_compute; reflexivity).
  assert (s_g return_rest = GLoadR) as Hg by (vm_compute; reflexivity).
  assert (option_map (λ cn, (l_put (c_log cn), ch_buf (c_old cn))) (s_conns return_start !! 7) =
    Some ([], [1%Z])) as Hcn by (vm_compute; reflexivity).
  destruct (s_conns return_start !! 7) as [cn|] eqn:E; [|done]. injection Hcn as Hput Hold.
  destruct (returned_block_given_up 2 (follow (then_poll return_labels) return_start)
    (then_poll return_labels) 0 7 cn) as (j & cn' & Hc & Hd).
  - lia.
  - apply (follow_execution 2 _ _ return_rest); [apply demo_reachable; by vm_compute|done..].
  - apply (follow_bound return_start return_labels return_rest); [done..|]. by vm_compute.
  - by apply returned_fair.
  - exact E.
  - rewrite Hold. apply list_elem_of_here.
  - exists j, cn'. split; [exact Hc|]. rewrite <- Hput. exact Hd.
Defined.
