(* ===== verification/Stutter.v ===== *)
(** * One socket among others

    Seen from one socket, an execution of the whole process is a sequence of its own
    steps with pauses in between, in which others move.  If the socket moves infinitely
    often, leaving the pauses out gives an execution of the socket alone, and whatever
    fairness the process shows to its goroutines it still has.  So what the files Fair,
    Delivery and Returns show of one socket holds of a socket within the process. *)

From stdpp Require Import base list numbers option.
From Stdlib Require Import Lia ConstructiveEpsilon.
From S2P Require Import Prelude Chan Block Socket SocketInv SocketSafety Fair.

Local Open Scope nat_scope.

(** The states of a socket at all times, and its step where it makes one. *)
Record stuttering (n : nat) (st : nat → state) (own : nat → option label) : Prop := {
  stu_start : reachable n (st 0);
  stu_step k :
    match own k with
    | Some l => step l (st k) = Next (st (S k))
    | None => st (S k) = st k
    end;
}.

Lemma stuttering_reachable (n : nat) (st : nat → state) (own : nat → option label) (k : nat) :
  stuttering n st own → (∀ k, conn_bound (st k)) → reachable n (st k).
Proof.
  intros Hst Hb. induction k as [|k IH]; [apply Hst|].
  pose proof (stu_step _ _ _ Hst k) as Hk. destruct (own k); [by eapply reach_step|congruence].
Qed.

(** At time [j] the socket makes a step as [A] says. *)
Definition occurs (st : nat → state) (own : nat → option label) (A : state → label → Prop)
    (j : nat) : Prop := ∃ l, own j = Some l ∧ A (st j) l.

(** Weak and strong fairness in the presence of others. *)
Definition weakly (st : nat → state) (own : nat → option label) (A : state → label → Prop)
    (B : state → Prop) : Prop :=
  ∀ k, ∃ j, k ≤ j ∧ (occurs st own A j ∨ B (st j)).
Definition strongly (st : nat → state) (own : nat → option label) (A : state → label → Prop)
    (B : state → Prop) : Prop :=
  ∀ k, ∃ j, k ≤ j ∧ (occurs st own A j ∨ ∀ i, j ≤ i → B (st i)).

Section pauses.
Context (n : nat) (st : nat → state) (own : nat → option label).
Context (Hst : stuttering n st own) (Hinf : ∀ k, ∃ j, k ≤ j ∧ is_Some (own j)).

(** The socket's next step, and the times of all its steps. *)
Definition due (k j : nat) : Prop := k ≤ j ∧ is_Some (own j).

Lemma due_dec (k j : nat) : {due k j} + {¬ due k j}.
Proof.
  unfold due. destruct (decide (k ≤ j)) as [Hk|Hk]; [|by right; intros [? _]].
  destruct (own j); [left; split; [done|by eexists]|right; by intros [_ [? ?]]].
Defined.

Definition next_step (k : nat) : { j : nat | due k j ∧ ∀ i, due k i → j ≤ i } :=
  epsilon_smallest (due k) (due_dec k) (Hinf k).

Definition next (k : nat) : nat := proj1_sig (next_step k).

Fixpoint times (k : nat) : nat :=
  match k with O => next 0 | S k => next (S (times k)) end.

Lemma next_due (k : nat) : due k (next k).
Proof. unfold next. by destruct (next_step k) as [j [? ?]]. Qed.

Lemma next_least (k i : nat) : due k i → next k ≤ i.
Proof. unfold next. destruct (next_step k) as [j [? Hj]]. apply Hj. Qed.

Lemma next_now (k : nat) : is_Some (own k) → next k = k.
Proof.
  intros Hk. pose proof (next_least k k (conj (le_n k) Hk)). destruct (next_due k). lia.
Qed.

Lemma next_pause (k : nat) : own k = None → next k = next (S k).
Proof.
  intros Hk. apply Nat.le_antisymm.
  - apply next_least. destruct (next_due (S k)). split; [lia|done].
  - apply next_least. destruct (next_due k) as [Hle Hs]. split; [|done].
    destruct (decide (next k = k)) as [E|]; [|lia]. rewrite E, Hk in Hs. by destruct Hs.
Qed.

(** Nothing changes until then. *)
Lemma next_state (k : nat) : st (next k) = st k.
Proof.
  remember (next k - k) as d eqn:Hd. revert k Hd.
  induction d as [|d IH]; intros k Hd; destruct (next_due k) as [Hle _].
  - by replace (next k) with k by lia.
  - pose proof (stu_step _ _ _ Hst k) as Hk. destruct (own k) eqn:E.
    + rewrite next_now in Hd by (by rewrite E). lia.
    + rewrite (next_pause k E). rewrite <- Hk. apply IH. rewrite <- (next_pause k E). lia.
Qed.

Lemma times_due (k : nat) : is_Some (own (times k)).
Proof. destruct k; apply next_due. Qed.

Lemma times_lt (k : nat) : times k < times (S k).
Proof. simpl. destruct (next_due (S (times k))). lia. Qed.

Lemma times_mono (k j : nat) : k ≤ j → times k ≤ times j.
Proof. induction 1 as [|j _ IH]; [done|]. pose proof (times_lt j). lia. Qed.

Lemma times_ge (k : nat) : k ≤ times k.
Proof. induction k as [|k IH]; [lia|]. pose proof (times_lt k). lia. Qed.

(** Every step of the socket is at one of these times. *)
Lemma times_next (k : nat) : ∃ j, times j = next k.
Proof.
  induction k as [|k [j Hj]]; [by exists 0|]. destruct (own k) eqn:E.
  - rewrite next_now in Hj by (by rewrite E). exists (S j). simpl. by rewrite Hj.
  - exists j. by rewrite Hj, next_pause.
Qed.

Lemma times_after (k j : nat) : times k ≤ j → ∃ i, k ≤ i ∧ times i = next j.
Proof.
  intros Hle. destruct (times_next j) as [i Hi]. exists i. split; [|done].
  destruct (decide (k ≤ i)) as [|Hlt]; [done|]. destruct (next_due j) as [Hj _].
  pose proof (times_lt i). pose proof (times_mono (S i) k ltac:(lia)). lia.
Qed.

(** ** The execution without the pauses *)
Definition tr (k : nat) : state := st (times k).
Definition lab (k : nat) : label := default (LG 0) (own (times k)).

Lemma lab_own (k : nat) : own (times k) = Some (lab k).
Proof. unfold lab. by destruct (times_due k) as [l ->]. Qed.

Lemma tr_start : tr 0 = st 0.
Proof. apply next_state. Qed.

Lemma unpaused : execution n tr lab.
Proof.
  split.
  - rewrite tr_start. apply Hst.
  - intros k. pose proof (stu_step _ _ _ Hst (times k)) as Hk. rewrite lab_own in Hk.
    unfold tr at 2. simpl. by rewrite next_state.
Qed.

Lemma weakly_unpaused (A : state → label → Prop) (B : state → Prop) :
  weakly st own A B → ∀ k, ∃ j, k ≤ j ∧ (A (tr j) (lab j) ∨ B (tr j)).
Proof.
  intros H k. destruct (H (times k)) as (j & Hj & Hcase).
  destruct (times_after k j Hj) as (i & Hi & E). exists i. split; [done|].
  destruct Hcase as [(l & Hl & HA)|HB].
  - left. rewrite next_now in E by (by rewrite Hl). unfold tr, lab. rewrite E, Hl. done.
  - right. unfold tr. by rewrite E, next_state.
Qed.

Lemma strongly_unpaused (A : state → label → Prop) (B : state → Prop) :
  strongly st own A B → ∀ k, ∃ j, k ≤ j ∧ (A (tr j) (lab j) ∨ ∀ i, j ≤ i → B (tr i)).
Proof.
  intros H k. destruct (H (times k)) as (j & Hj & Hcase).
  destruct (times_after k j Hj) as (i & Hi & E). exists i. split; [done|].
  destruct Hcase as [(l & Hl & HA)|HB].
  - left. rewrite next_now in E by (by rewrite Hl). unfold tr, lab. rewrite E, Hl. done.
  - right. intros m Hm. apply HB. apply times_mono in Hm. destruct (next_due j). lia.
Qed.
End pauses.
