(* ===== verification/Lifecycle.v ===== *)
(** * The life of a block

    What the daemon promises about one block of the ring, as an abstract machine:
    the kernel owns it, or it is filled and nobody has it, or some number of
    parties share it.  Every step of the system of Socket is a step of this
    machine on each block, or none: the concrete counters, channels and program
    counters refine it. *)

From stdpp Require Import base list numbers option gmap.
From Stdlib Require Import ZArith Lia.
From S2P Require Import Prelude Bytes Chan Block Socket SocketInv SocketSafety SocketExcl.

Local Open Scope nat_scope.

(** ** The abstract machine *)
Inductive ablock :=
  | AKernel                  (* the kernel may write packets *)
  | AReady                   (* filled, or about to be given back; nobody reads it *)
  | AShared (n : nat).       (* n parties hold it *)

Inductive astep : ablock → ablock → Prop :=
  | a_fill : astep AKernel AReady
  | a_take : astep AReady (AShared 1)
  | a_share n : 0 < n → astep (AShared n) (AShared (S n))
  | a_drop n : 0 < n → astep (AShared (S n)) (AShared n)
  | a_last : astep (AShared 1) AReady
  | a_release : astep AReady AKernel.

(** The abstraction: the count and the status word of a block. *)
Definition abs_block (bl : block) : ablock :=
  if (b_r bl =? 0)%Z then if (b_status bl =? 0)%Z then AKernel else AReady
  else AShared (Z.to_nat (b_r bl)).

(** ** How a step changes a block *)
Inductive block_change (bl : block) : block → Prop :=
  | bc_same : block_change bl bl
  | bc_ref : block_change bl (ref bl)
  | bc_dec : block_change bl (unref_dec bl).1
  | bc_clear : block_change bl (clear bl)
  | bc_fill status bl' : kernel_fill status bl = Some bl' → block_change bl bl'.

Lemma change_alter (f : block → block) (bls : list block) (b i : nat) (bl : block) :
  (∀ bl, block_change bl (f bl)) → bls !! i = Some bl →
  ∃ bl', alter f b bls !! i = Some bl' ∧ block_change bl bl'.
Proof.
  intros Hf Hi. rewrite list_lookup_alter. case_decide; subst.
  - rewrite Hi. simpl. eauto.
  - rewrite Hi. eauto using block_change.
Qed.

Lemma step_change (s s' : state) (l : label) (i : nat) (bl : block) :
  step l s = Next s' → s_blocks s !! i = Some bl →
  ∃ bl', s_blocks s' !! i = Some bl' ∧ block_change bl bl'.
Proof.
  intros Hstep Hi. destruct l as [b status| | | | | | |].
  { simpl in Hstep. unfold kernel_step in Hstep.
    destruct (s_blocks s !! b) as [bl0|] eqn:Hb; simpl in Hstep; [|done].
    destruct (kernel_fill status bl0) as [bl1|] eqn:Hf; [|done]. injection Hstep as <-. simpl.
    destruct (decide (b = i)) as [->|].
    - rewrite list_lookup_insert_eq by (by eapply lookup_lt_Some). simplify_eq.
      eauto using block_change.
    - rewrite list_lookup_insert_ne by done. eauto using block_change. }
  all: step_cases Hstep; try (by eauto using block_change); apply change_alter; try done;
    intros ?; first [apply bc_ref|apply bc_clear|apply bc_dec].
Qed.

(** ** Refinement *)

(** The blocks of two states that the invariants hold in. *)
Lemma change_refines (s s' : state) (i : nat) (bl bl' : block) :
  Inv s → Excl s → conn_bound s → Inv s' → Excl s' →
  s_blocks s !! i = Some bl → s_blocks s' !! i = Some bl' → block_change bl bl' →
  abs_block bl = abs_block bl' ∨ astep (abs_block bl) (abs_block bl').
Proof.
  intros HI HE Hb HI' HE' Hi Hi' Hc.
  pose proof (i_ref _ HI _ _ Hi) as Hr. pose proof (i_ref _ HI' _ _ Hi') as Hr'.
  pose proof (ex_held _ HE _ _ Hi) as Hst. pose proof (ex_held _ HE' _ _ Hi') as Hst'.
  pose proof (holders_bound s HI i). unfold conn_bound in Hb.
  set (h := holders s i) in *. set (h' := holders s' i) in *. clearbody h h'.
  destruct bl as [r st g]. simpl in Hr, Hst. subst r. unfold abs_block.
  destruct Hc as [| | | |status bl' Hf]; simpl in Hr', Hst' |- *.
  - by left.
  - rewrite int32_small in Hr' |- * by lia. right.
    rewrite (proj2 (Z.eqb_neq (Z.of_nat h + 1) 0)) by lia.
    replace (Z.to_nat (Z.of_nat h + 1)) with (S h) by lia.
    destruct (Z.eqb_spec (Z.of_nat h) 0); [|rewrite Nat2Z.id; constructor; lia].
    assert (st ≠ 0%Z) by (apply Hst'; lia). replace h with 0 by lia.
    rewrite (proj2 (Z.eqb_neq st 0)) by done. constructor.
  - rewrite int32_small in Hr' |- * by lia. right.
    assert (st ≠ 0%Z) by (apply Hst; lia).
    rewrite (proj2 (Z.eqb_neq (Z.of_nat h) 0)), Nat2Z.id by lia.
    replace h with (S h') by lia. replace (Z.of_nat (S h') - 1)%Z with (Z.of_nat h') by lia.
    destruct (Z.eqb_spec (Z.of_nat h') 0); [|rewrite Nat2Z.id; constructor; lia].
    rewrite (proj2 (Z.eqb_neq st 0)) by done. replace h' with 0 by lia. constructor.
  - destruct (Z.eqb_spec (Z.of_nat h) 0); [|by destruct Hst'; [lia|]].
    destruct (Z.eqb_spec st 0); [by left|right; constructor].
  - unfold kernel_fill in Hf. simpl in Hf. destruct (Z.eqb_spec st 0) as [->|]; [|done].
    destruct (Z.eqb_spec status 0); [done|]. injection Hf as <-. simpl in *.
    destruct (Z.eqb_spec (Z.of_nat h) 0); [|by destruct Hst; [lia|]].
    rewrite (proj2 (Z.eqb_neq status 0)) by done. right. constructor.
Qed.

(** C6: every step of the system is, for each block, a step of the abstract machine or
    none: a block is filled only while the kernel owns it, shared only when it is
    filled, counted up and down one party at a time, and given back only when the
    last party has let go; under the same proviso as above. *)
Theorem block_lifecycle (n : nat) (s s' : state) (l : label) (i : nat) (bl : block) :
  0 < n → reachable_quiet n s → quiet l s → step l s = Next s' → conn_bound s →
  s_blocks s !! i = Some bl →
  ∃ bl', s_blocks s' !! i = Some bl' ∧
    (abs_block bl = abs_block bl' ∨ astep (abs_block bl) (abs_block bl')).
Proof.
  intros Hn Hr Hq Hstep Hb Hi.
  assert (reachable_quiet n s') as Hr' by (by eapply quiet_step).
  destruct (step_change s s' l i bl Hstep Hi) as (bl' & Hi' & Hc). exists bl'. split; [done|].
  eapply change_refines; [| | | | |done|done|done]; try done;
    eauto using reachable_inv, reachable_quiet_excl, quiet_reachable.
Qed.

Lemma block_lifecycle_witness :
  abs_block <$> s_blocks (demo_state (take 4 demo_deliver)) !! 0 = Some AReady ∧
  ∃ bl', s_blocks (demo_state (take 5 demo_deliver)) !! 0 = Some bl' ∧
    (AReady = abs_block bl' ∨ astep AReady (abs_block bl')).
Proof.
  split; [reflexivity|].
  destruct (block_lifecycle 2 (demo_state (take 4 demo_deliver)) (demo_state (take 5 demo_deliver))
    (LG 0) 0 (Block.Block 0 1 1)) as (bl' & H & Hs); [lia|..|by exists bl'].
  - eapply (run_quiet_reachable 2 (take 4 demo_deliver)); [constructor|]. by vm_compute.
  - intros Hg. by vm_compute in Hg.
  - by vm_compute.
  - by vm_compute.
  - by vm_compute.
Defined.

(** ** The methods of a block, uninterrupted

    [ready] and [unref] take two steps each in the system; when nothing comes in
    between, the steps compute the methods. *)
Lemma ready_uninterrupted (s : state) (bl : block) :
  s_g s = GLoadR → s_blocks s !! s_gi s = Some bl →
  (∃ s', run_schedule [LG 0; LG 0] s = Some s' ∧ s_g s' = GRef) ↔ ready bl = true.
Proof.
  intros Hg Hbl. cbn [run_schedule step]. unfold getNewBlocks_step at 1. rewrite Hbl, Hg.
  unfold getNewBlocks_step. simpl. rewrite Hbl. unfold ready.
  destruct (b_r bl =? 0)%Z; simpl; [|naive_solver].
  destruct (b_status bl =? 0)%Z; simpl; naive_solver.
Qed.

Lemma unref_uninterrupted (s : state) (b : nat) (k : skont) (bl bl' : block) :
  s_run s = RUnref b k → s_blocks s !! b = Some bl → unref bl = Some bl' →
  ∃ n s', run_schedule (replicate (S n) LRun) s = Some s' ∧ s_run s' = run_resume b k ∧
    s_blocks s' !! b = Some bl'.
Proof.
  intros Hr Hbl Hu. unfold unref in Hu. destruct (unref_dec bl) as [bl1 refs] eqn:Hd.
  assert (step LRun s = match unref_after refs with
    | UnrefClear => Next (set_run (RClear b k) (upd_block (λ bl, (unref_dec bl).1) b s))
    | UnrefPanic refs => Crash (PanicUnref b refs)
    | UnrefDone => Next (set_run (run_resume b k) (upd_block (λ bl, (unref_dec bl).1) b s))
    end) as Hs.
  { unfold step, run_step, dec_block. rewrite Hr, Hbl. cbn [mbind option_bind]. rewrite Hd.
    cbn [snd]. by destruct (unref_after refs). }
  assert (s_blocks (upd_block (λ bl, (unref_dec bl).1) b s) !! b = Some bl1) as Hb1
    by (change (s_blocks (upd_block ?f b s)) with (alter f b (s_blocks s));
        rewrite list_lookup_alter_eq, Hbl; cbn [fmap option_fmap option_map]; by rewrite Hd).
  destruct (unref_after refs); simplify_eq.
  - eexists 1, _. cbn [replicate run_schedule]. rewrite Hs. simpl. split; [done|]. split; [done|].
    simpl. rewrite list_lookup_alter_eq. simpl in Hb1. by rewrite Hb1.
  - eexists 0, _. cbn [replicate run_schedule]. rewrite Hs. done.
Qed.
