(* ===== verification/Cmsg.v ===== *)
(** * Control messages: descriptors over a Unix socket

    The part of package [syscall] that puts a file descriptor into the control
    data of a message and takes it out again ([UnixRights],
    [ParseSocketControlMessage], [ParseUnixRights]), on the bytes of a
    little-endian 64-bit Linux: a header of a 64-bit length and two 32-bit words,
    then the data, everything aligned to eight bytes. *)

From stdpp Require Import base list numbers option.
From Stdlib Require Import ZArith Lia.
From S2P Require Import Prelude Bytes.

(** ** Little-endian words *)
Fixpoint put_le (n : nat) (v : Z) : list byte :=
  match n with O => [] | S n => byte_of v :: put_le n (v / 2 ^ 8) end.

Fixpoint get_le (bs : list byte) : Z :=
  match bs with [] => 0 | b :: bs => byte_val b + 2 ^ 8 * get_le bs end.

Lemma length_put_le (n : nat) (v : Z) : length (put_le n v) = n.
Proof. revert v. induction n as [|n IH]; intros v; simpl; [done|]. by rewrite IH. Qed.

Lemma get_put_le (n : nat) (v : Z) : get_le (put_le n v) = v mod 2 ^ (8 * Z.of_nat n).
Proof.
  revert v. induction n as [|n IH]; intros v; [by rewrite Z.mod_1_r|].
  cbn [put_le get_le]. rewrite IH, byte_val_of. unfold uint8.
  replace (8 * Z.of_nat (S n)) with (8 + 8 * Z.of_nat n) by lia.
  rewrite Z.pow_add_r, Z.rem_mul_r by lia. done.
Qed.

Lemma get_le_nonneg (bs : list byte) : 0 <= get_le bs.
Proof.
  induction bs as [|b bs IH]; cbn [get_le]; [done|].
  pose proof (byte_val_range b). pow2. lia.
Qed.

(** ** The control data *)
Definition EINVAL : Z := 22.
Definition SOL_SOCKET : Z := 1.
Definition SCM_RIGHTS : Z := 1.

Definition cmsg_header : nat := 16.

(** [cmsgAlignOf]: up to the next multiple of eight. *)
Definition cmsg_align (n : nat) : nat := (n + 7) / 8 * 8.

Record cmsg := Cmsg { m_level : Z; m_type : Z; m_data : list byte }.

#[export] Instance cmsg_eq_dec : EqDecision cmsg.
Proof. solve_decision. Defined.

(** [UnixRights(fds...)] *)
Definition UnixRights (fds : list Z) : list byte :=
  let data := fds ≫= put_le 4 in
  put_le 8 (Z.of_nat (cmsg_header + length data)) ++ put_le 4 SOL_SOCKET ++
  put_le 4 SCM_RIGHTS ++ data ++
  replicate (cmsg_align (length data) - length data) (byte_of 0).

(** [ParseSocketControlMessage]: every message takes at least a header, so the
    length of the data bounds their number. *)
Fixpoint parse_cmsgs (fuel : nat) (b : list byte) : list cmsg + Z :=
  match fuel with
  | O => inl []
  | S fuel =>
      if bool_decide (length b < cmsg_header)%nat then inl []
      else
        let len := get_le (take 8 b) in
        if (len <? Z.of_nat cmsg_header) || (Z.of_nat (length b) <? len) then inr EINVAL
        else
          let n := Z.to_nat len in
          let m := Cmsg (get_le (take 4 (drop 8 b))) (get_le (take 4 (drop 12 b)))
                     (drop cmsg_header (take n b)) in
          match parse_cmsgs fuel (drop (cmsg_align n) b) with
          | inl ms => inl (m :: ms)
          | inr e => inr e
          end
  end.

Definition ParseSocketControlMessage (b : list byte) : list cmsg + Z :=
  parse_cmsgs (length b) b.

(** The words of the data, four bytes each; a remainder is dropped. *)
Fixpoint fds_of (fuel : nat) (b : list byte) : list Z :=
  match fuel with
  | O => []
  | S fuel => int32 (get_le (take 4 b)) :: fds_of fuel (drop 4 b)
  end.

(** [ParseUnixRights] *)
Definition ParseUnixRights (m : cmsg) : list Z + Z :=
  if negb (m_level m =? SOL_SOCKET) then inr EINVAL
  else if negb (m_type m =? SCM_RIGHTS) then inr EINVAL
  else inl (fds_of (length (m_data m) / 4) (m_data m)).

(** ** Round trip *)
Lemma cmsg_align_ge (n : nat) : (n ≤ cmsg_align n)%nat.
Proof. unfold cmsg_align. pose proof (Nat.div_mod_eq (n + 7) 8).
  pose proof (Nat.mod_upper_bound (n + 7) 8). lia. Qed.

Lemma cmsg_align_header (n : nat) :
  cmsg_align (cmsg_header + n) = (cmsg_header + cmsg_align n)%nat.
Proof.
  unfold cmsg_align, cmsg_header. replace (16 + n + 7)%nat with (n + 7 + 2 * 8)%nat by lia.
  rewrite Nat.div_add by lia. lia.
Qed.

Lemma length_fds_data (fds : list Z) : length (fds ≫= put_le 4) = (4 * length fds)%nat.
Proof.
  induction fds as [|fd fds IH]; [done|].
  rewrite bind_cons, length_app, length_put_le, IH. simpl. lia.
Qed.

Lemma fds_of_data (fds : list Z) :
  Forall (λ fd, - 2 ^ 31 <= fd < 2 ^ 31) fds →
  fds_of (length fds) (fds ≫= put_le 4) = fds.
Proof.
  induction fds as [|fd fds IH]; intros Hf; [done|].
  apply Forall_cons_iff in Hf as [Hfd Hf].
  rewrite bind_cons. cbn [length fds_of].
  rewrite take_app_length', drop_app_length', IH by (done || apply length_put_le).
  f_equal. rewrite get_put_le. change (8 * Z.of_nat 4) with 32. mach.
Qed.

(** Slicing the fields of a control message out of its bytes. *)
Lemma cmsg_fields (l v t rest : list byte) :
  length l = 8%nat → length v = 4%nat → length t = 4%nat →
  let b := l ++ v ++ t ++ rest in
  take 8 b = l ∧ take 4 (drop 8 b) = v ∧ take 4 (drop 12 b) = t ∧ drop 16 b = rest.
Proof.
  intros Hl Hv Ht b. subst b.
  assert (∀ n, drop (8 + n) (l ++ v ++ t ++ rest) = drop n (v ++ t ++ rest)) as D8.
  { intros n. rewrite <- drop_drop. by rewrite drop_app_length'. }
  assert (∀ n, drop (4 + n) (v ++ t ++ rest) = drop n (t ++ rest)) as D4.
  { intros n. rewrite <- drop_drop. by rewrite drop_app_length'. }
  split_and!.
  - by rewrite take_app_length'.
  - rewrite (D8 0%nat : drop 8 _ = _), drop_0. by rewrite take_app_length'.
  - rewrite (D8 4%nat : drop 12 _ = drop 4 _), (D4 0%nat : drop 4 _ = _), drop_0. by rewrite take_app_length'.
  - rewrite (D8 8%nat : drop 16 _ = drop 8 _), (D4 4%nat : drop 8 _ = drop 4 _). by rewrite drop_app_length'.
Qed.

(** Parsing what [UnixRights] built: one message, with the descriptors. *)
Lemma parse_UnixRights (fds : list Z) :
  Z.of_nat (length fds) < 2 ^ 16 →
  ParseSocketControlMessage (UnixRights fds) =
    inl [Cmsg SOL_SOCKET SCM_RIGHTS (fds ≫= put_le 4)].
Proof.
  intros Hn. unfold ParseSocketControlMessage, UnixRights.
  set (data := fds ≫= put_le 4). set (pad := replicate _ _). cbn zeta.
  assert (Z.of_nat (length data) < 2 ^ 20) as Hd.
  { unfold data. rewrite length_fds_data. pow2. lia. }
  set (lenw := put_le 8 _). set (b := lenw ++ _).
  destruct (cmsg_fields lenw (put_le 4 SOL_SOCKET) (put_le 4 SCM_RIGHTS) (data ++ pad))
    as (F1 & F2 & F3 & F4); [apply length_put_le..|]. fold b in F1, F2, F3, F4.
  assert (length b = cmsg_header + cmsg_align (length data))%nat as Hb.
  { unfold b, lenw, pad. rewrite !length_app, !length_put_le, length_replicate.
    pose proof (cmsg_align_ge (length data)). unfold cmsg_header. lia. }
  assert (get_le lenw = Z.of_nat (cmsg_header + length data)) as Hlen.
  { unfold lenw. rewrite get_put_le, Z.mod_small; [done|].
    change (2 ^ (8 * Z.of_nat 8)) with (2 ^ 64). unfold cmsg_header.
    pow2. lia. }
  replace (length b) with (S (S (length b - 2))) by (rewrite Hb; unfold cmsg_header; lia).
  assert (∀ f, parse_cmsgs (S f) [] = inl []) as Hnil by done.
  cbn [parse_cmsgs]. rewrite bool_decide_false by (rewrite Hb; lia). cbn zeta.
  rewrite F1, F2, F3, Hlen, Nat2Z.id.
  pose proof (cmsg_align_ge (length data)).
  rewrite (proj2 (Z.ltb_ge _ _)), (proj2 (Z.ltb_ge _ _)) by (rewrite ?Hb; lia).
  cbn [orb]. rewrite cmsg_align_header, <- Hb, drop_all.
  rewrite bool_decide_true by (simpl; unfold cmsg_header; lia).
  do 3 f_equal. rewrite <- take_drop_commute.
  change (drop cmsg_header b) with (drop 16 b). rewrite F4.
  by apply take_app_length'.
Qed.

Lemma ParseUnixRights_data (fds : list Z) :
  Forall (λ fd, - 2 ^ 31 <= fd < 2 ^ 31) fds →
  ParseUnixRights (Cmsg SOL_SOCKET SCM_RIGHTS (fds ≫= put_le 4)) = inl fds.
Proof.
  intros Hf. unfold ParseUnixRights. cbn [m_level m_type m_data].
  rewrite !Z.eqb_refl, length_fds_data. cbn [negb].
  replace (4 * length fds / 4)%nat with (length fds)
    by (rewrite Nat.mul_comm, Nat.div_mul; lia).
  by rewrite fds_of_data.
Qed.

Lemma length_UnixRights (fds : list Z) :
  length (UnixRights fds) = (cmsg_header + cmsg_align (4 * length fds))%nat.
Proof.
  unfold UnixRights. cbn zeta.
  rewrite !length_app, !length_put_le, length_replicate, length_fds_data.
  pose proof (cmsg_align_ge (4 * length fds)). unfold cmsg_header. lia.
Qed.
