(* ===== verification/Link.v ===== *)
(** * One end of a client connection

    A Unix stream socket as one of its two ends sees it: the bytes the peer will
    have sent by the time it closes, what this end wrote, the control data that
    goes along in both directions, and how many more bytes the transport accepts before writes fail.  The
    server's handshake and the client library are programs over such an end, in
    a state monad with an early exit (Go's error returns). *)

From stdpp Require Import base list numbers option.
From Stdlib Require Import ZArith Lia.
From S2P Require Import Prelude Bytes Protocol.

(** ** Programs with early returns *)
Definition prog (S E A : Type) : Type := S → S * (A + E).

#[export] Instance prog_ret {S E} : MRet (prog S E) := λ A a s, (s, inl a).

#[export] Instance prog_bind {S E} : MBind (prog S E) := λ A B k m s,
  match m s with
  | (s, inl a) => k a s
  | (s, inr e) => (s, inr e)
  end.

(** [return err] *)
Definition exit {S E A} (e : E) : prog S E A := λ s, (s, inr e).

(** [if cond { return err }] *)
Definition check {S E} (cond : bool) (e : E) : prog S E unit :=
  if cond then exit e else mret tt.

(** One step of a program. *)
Lemma bind_inl {S E A B} (m : prog S E A) (k : A → prog S E B) (s s' : S) (a : A) :
  m s = (s', inl a) → (m ≫= k) s = k a s'.
Proof. intros H. unfold mbind, prog_bind. by rewrite H. Qed.

Lemma bind_inr {S E A B} (m : prog S E A) (k : A → prog S E B) (s s' : S) (e : E) :
  m s = (s', inr e) → (m ≫= k) s = (s', inr e).
Proof. intros H. unfold mbind, prog_bind. by rewrite H. Qed.

(** A program that returned ran all its steps. *)
Lemma bind_inl_inv {S E A B} (m : prog S E A) (k : A → prog S E B) (s s' : S) (b : B) :
  (m ≫= k) s = (s', inl b) → ∃ s1 a, m s = (s1, inl a) ∧ k a s1 = (s', inl b).
Proof. unfold mbind, prog_bind. destruct (m s) as [s1 [a|]]; [by eauto|done]. Qed.

(** A change of the state that cannot fail. *)
Definition modify {S E} (f : S → S) : prog S E unit := λ s, (f s, inl tt).

(** A program that depends on the current state. *)
Definition reads {S E A} (f : S → prog S E A) : prog S E A := λ s, f s s.

(** The same program with its errors wrapped, as [fmt.Errorf] does. *)
Definition wrap {S E E' A} (f : E → E') (m : prog S E A) : prog S E' A := λ s,
  match m s with (s, inl a) => (s, inl a) | (s, inr e) => (s, inr (f e)) end.

(** [if err := op(c); err != nil { return err }] *)
Definition try {S E} (op : S → S * option E) : prog S E unit := λ s,
  match op s with (s, None) => (s, inl tt) | (s, Some e) => (s, inr e) end.

(** A program that keeps a property, whether it fails or not. *)
Definition keeps {S E A} (P : S → Prop) (m : prog S E A) : Prop := ∀ s, P s → P (m s).1.

Lemma keeps_bind {S E A B} (P : S → Prop) (m : prog S E A) (f : A → prog S E B) :
  keeps P m → (∀ a, keeps P (f a)) → keeps P (m ≫= f).
Proof.
  intros Hm Hf s Hs. unfold mbind, prog_bind. specialize (Hm s Hs).
  destruct (m s) as [s' [a|e]]; [by apply Hf|done].
Qed.

Lemma keeps_check {S E} (P : S → Prop) (b : bool) (e : E) : keeps P (check b e).
Proof. intros s. by destruct b. Qed.

Lemma keeps_reads {S E A} (P : S → Prop) (f : S → prog S E A) :
  (∀ s, keeps P (f s)) → keeps P (reads f).
Proof. intros Hf s. apply Hf. Qed.

Lemma keeps_modify {S E} (P : S → Prop) (f : S → S) :
  (∀ s, P s → P (f s)) → keeps P (modify f : prog S E unit).
Proof. intros Hf s. apply Hf. Qed.

Lemma keeps_exit {S E A} (P : S → Prop) (e : E) : keeps P (exit e : prog S E A).
Proof. by intros s. Qed.

Lemma keeps_ret {S E A} (P : S → Prop) (a : A) : keeps P (mret a : prog S E A).
Proof. by intros s. Qed.

Create HintDb keeps.
#[export] Hint Resolve keeps_bind keeps_check keeps_reads keeps_modify keeps_exit keeps_ret : keeps.

(** ** The end of a connection *)
Record link := Link {
  k_in : list byte;       (* bytes the peer sends, in order, before it closes *)
  k_oob : list byte;      (* control data that arrives with the next message *)
  k_out : list byte;      (* bytes written so far *)
  k_ctl : list (list byte); (* control data written so far *)
  k_budget : nat;         (* bytes the transport still accepts *)
  k_closed : bool;        (* Close was called *)
}.

Definition set_in (bs : list byte) (k : link) : link :=
  Link bs (k_oob k) (k_out k) (k_ctl k) (k_budget k) (k_closed k).
Definition add_ctl (c : list byte) (k : link) : link :=
  Link (k_in k) (k_oob k) (k_out k) (k_ctl k ++ [c]) (k_budget k) (k_closed k).

(** [Close] *)
Definition link_close (k : link) : link :=
  Link (k_in k) (k_oob k) (k_out k) (k_ctl k) (k_budget k) true.

(** The link after [bs] went out. *)
Definition sent (bs : list byte) (k : link) : link :=
  Link (k_in k) (k_oob k) (k_out k ++ bs) (k_ctl k) (k_budget k - length bs) (k_closed k).

(** EPIPE *)
Definition broken_pipe : io_error := ErrTransport 32.

(** [Write]: all of it, or as much as the transport takes and an error. *)
#[export] Instance link_writer : Writer link := λ k bs,
  if bool_decide (length bs ≤ k_budget k)%nat then (sent bs k, None)
  else (sent (take (k_budget k) bs) k, Some broken_pipe).

Definition link_write (bs : list byte) : prog link io_error unit := try (λ k, write k bs).

(** [io.ReadFull] *)
Definition link_read (n : nat) : prog link io_error (list byte) := λ k,
  match read_full n (k_in k) with
  | inl (bs, rest) => (set_in rest k, inl bs)
  | inr e => (set_in [] k, inr e)
  end.

(** [WriteMsgUnix(bs, oob)]: the control data travels with the first byte. *)
Definition link_write_msg (bs oob : list byte) : prog link io_error unit :=
  link_write bs;; modify (add_ctl oob).

(** [ReadMsgUnix(buf, oob)] with buffers of [n] and [m] bytes: control data that
    does not fit is truncated; a closed connection is [EOF]. *)
Definition link_read_msg (n m : nat) : prog link io_error (list byte * list byte) := λ k,
  match k_in k with
  | [] => (k, inr EOF)
  | _ => (Link (drop n (k_in k)) [] (k_out k) (k_ctl k) (k_budget k) (k_closed k),
          inl (take n (k_in k), take m (k_oob k)))
  end.

Lemma link_write_ok (k : link) (bs : list byte) :
  (length bs ≤ k_budget k)%nat → write k bs = (sent bs k, None).
Proof. intros. unfold write, link_writer. by rewrite bool_decide_true. Qed.

Lemma sent_sent (a b : list byte) (k : link) : sent b (sent a k) = sent (a ++ b) k.
Proof. unfold sent. simpl. by rewrite <- app_assoc, length_app, Nat.sub_add_distr. Qed.

(** A write, complete or not, sends a prefix and touches nothing else. *)
Lemma link_write_prefix (k k' : link) (bs : list byte) (e : option io_error) :
  write k bs = (k', e) →
  ∃ p, k' = sent p k ∧ p `prefix_of` bs ∧ (e = None → p = bs).
Proof.
  unfold write, link_writer. case_bool_decide; intros [= <- <-].
  - by exists bs.
  - eexists. split_and!; [done|apply prefix_take|done].
Qed.

(** ** Programs that only write *)

Lemma prog_assoc {S E A B} (m1 : prog S E unit) (m2 : prog S E A) (k : A → prog S E B) (s : S) :
  (m1;; (m2 ≫= k)) s = ((m1;; m2) ≫= k) s.
Proof. unfold mbind, prog_bind. by destruct (m1 s) as [? []]. Qed.

(** The program sends exactly these bytes, or as many of them as the transport
    takes and fails with one of these errors. *)
Definition writes {E} (P : E → Prop) (m : prog link E unit) (bs : list byte) : Prop := ∀ k,
  ((length bs ≤ k_budget k)%nat → m k = (sent bs k, inl tt)) ∧
  ((k_budget k < length bs)%nat →
     ∃ e, m k = (sent (take (k_budget k) bs) k, inr e) ∧ P e).

Lemma link_write_writes (bs : list byte) : writes (λ e, e = broken_pipe) (link_write bs) bs.
Proof.
  intros k. unfold link_write, try, write, link_writer.
  split; intros; [by rewrite bool_decide_true|].
  rewrite bool_decide_false by lia. eauto.
Qed.

Lemma wrap_writes {E E'} (P : E → Prop) (P' : E' → Prop) (f : E → E')
    (m : prog link E unit) (bs : list byte) :
  (∀ e, P' (f e)) → writes P m bs → writes P' (wrap f m) bs.
Proof.
  intros Hf Hm k. destruct (Hm k) as [Hok Hko]. unfold wrap. split; intros H.
  - by rewrite Hok.
  - destruct (Hko H) as (e & -> & _). eauto.
Qed.

Lemma bind_writes {E} (P : E → Prop) (m1 m2 : prog link E unit) (b1 b2 : list byte) :
  writes P m1 b1 → writes P m2 b2 → writes P (m1;; m2) (b1 ++ b2).
Proof.
  intros H1 H2 k. destruct (H1 k) as [Hok1 Hko1], (H2 (sent b1 k)) as [Hok2 Hko2].
  rewrite length_app. split; intros Hb.
  - rewrite (bind_inl _ _ _ _ _ (Hok1 ltac:(lia))), Hok2 by (simpl; lia). by rewrite sent_sent.
  - destruct (decide (length b1 ≤ k_budget k)%nat) as [Hle|Hgt].
    + rewrite (bind_inl _ _ _ _ _ (Hok1 Hle)).
      destruct Hko2 as (e & He & HP); [simpl; lia|]. exists e. split; [|done].
      rewrite He, sent_sent. simpl. by rewrite take_app_ge by lia.
    + destruct Hko1 as (e & He & HP); [lia|]. exists e. split; [|done].
      rewrite (bind_inr _ _ _ _ _ He). by rewrite take_app_le by lia.
Qed.

(** A message sent with [SendTLV] over a connection. *)
Lemma send_writes (m : tlv) :
  tlv_valid m → writes (λ _, True) (try (λ k : link, SendTLV k m.1 m.2)) (tlv_bytes m).
Proof.
  intros Hm k. unfold try. rewrite SendTLV_write by done. unfold write, link_writer.
  split; intros; [by rewrite bool_decide_true|].
  rewrite bool_decide_false by lia. simpl. eauto.
Qed.

(** Reading a whole message. *)
Lemma link_read_app (k : link) (bs rest : list byte) (n : nat) :
  k_in k = bs ++ rest → length bs = n → link_read n k = (set_in rest k, inl bs).
Proof. intros Hk <-. unfold link_read. by rewrite Hk, read_full_app. Qed.
