(* ===== verification/Strconv.v ===== *)
(** * Decimal numbers: [strconv.Atoi]

    The conversion the daemon applies to user ids and to the output of tcpdump,
    over the bytes of a string, with the two errors of the package; and decimal
    printing, for the round trip. *)

From stdpp Require Import base list numbers option.
From Stdlib Require Import ZArith Lia.
From S2P Require Import Prelude Bytes.

Inductive num_error := ErrSyntax | ErrRange.

#[export] Instance num_error_eq_dec : EqDecision num_error.
Proof. solve_decision. Defined.

(** The value of a digit character. *)
Definition digit (b : byte) : option Z :=
  let v := byte_val b - 48 in if (0 <=? v) && (v <=? 9) then Some v else None.

Definition digit_char (d : Z) : byte := byte_of (48 + d).

(** The number a string of digits denotes, most significant digit first. *)
Fixpoint digits_val (acc : Z) (s : list byte) : option Z :=
  match s with
  | [] => Some acc
  | b :: s => d ← digit b; digits_val (acc * 10 + d) s
  end.

(** An unsigned magnitude: at least one digit. *)
Definition magnitude (s : list byte) : option Z :=
  match s with [] => None | _ => digits_val 0 s end.

(** [Atoi]: an optional sign and decimal digits, in the range of a 64-bit int. *)
Definition Atoi (s : list byte) : Z + num_error :=
  let '(neg, body) :=
    match s with
    | Byte.x2d :: s' => (true, s')     (* - *)
    | Byte.x2b :: s' => (false, s')    (* + *)
    | _ => (false, s)
    end in
  match magnitude body with
  | None => inr ErrSyntax
  | Some m =>
      let v := if (neg : bool) then - m else m in
      if (- 2 ^ 63 <=? v) && (v <? 2 ^ 63) then inl v else inr ErrRange
  end.

(** [%d] of a non-negative number: its digits; a number has at most as many
    digits as it has bits, plus one. *)
Fixpoint print_digits (fuel : nat) (n : Z) (acc : list byte) : list byte :=
  match fuel with
  | O => acc
  | S fuel =>
      let acc := digit_char (n mod 10) :: acc in
      if n <? 10 then acc else print_digits fuel (n / 10) acc
  end.

Definition print_nat (n : Z) : list byte := print_digits (S (Z.to_nat (Z.log2 n))) n [].

(** ** Round trip *)
Lemma digit_digit_char (d : Z) : 0 <= d < 10 → digit (digit_char d) = Some d.
Proof.
  intros Hd. unfold digit, digit_char. rewrite byte_val_of.
  replace (uint8 (48 + d) - 48) with d by mach.
  by rewrite (proj2 (Z.leb_le 0 d)), (proj2 (Z.leb_le d 9)) by lia.
Qed.

Lemma digits_val_app (s1 s2 : list byte) (a b : Z) :
  digits_val a s1 = Some b → digits_val a (s1 ++ s2) = digits_val b s2.
Proof.
  revert a. induction s1 as [|x s1 IH]; intros a; simpl; [congruence|].
  destruct (digit x); simpl; [apply IH|done].
Qed.

Lemma print_digits_val (fuel : nat) (n : Z) (acc : list byte) :
  0 <= n < 2 ^ Z.of_nat fuel → (0 < fuel)%nat →
  ∃ ds, print_digits fuel n acc = ds ++ acc ∧ ds ≠ [] ∧ Forall (λ b, is_Some (digit b)) ds ∧
        digits_val 0 ds = Some n.
Proof.
  revert n acc. induction fuel as [|fuel IH]; intros n acc Hn Hf; [lia|]. simpl.
  destruct (Z.ltb_spec n 10) as [Hlt|Hge].
  - rewrite Z.mod_small by lia. exists [digit_char n]. split; [done|]. split; [done|].
    rewrite Forall_singleton. simpl. rewrite digit_digit_char by lia. done.
  - assert (0 <= n mod 10 < 10) as Hm by (apply Z.mod_pos_bound; lia).
    assert (0 <= n / 10 < 2 ^ Z.of_nat fuel) as Hd.
    { rewrite Nat2Z.inj_succ, Z.pow_succ_r in Hn by lia. split; [apply Z.div_pos; lia|].
      apply Z.div_lt_upper_bound; lia. }
    destruct (IH (n / 10) (digit_char (n mod 10) :: acc)) as (ds & -> & Hne & Hf' & Hv);
      [done| |].
    { destruct fuel; [|lia]. simpl in Hd. assert (n / 10 = 0) as H0 by lia.
      apply Z.div_small_iff in H0; lia. }
    exists (ds ++ [digit_char (n mod 10)]). split; [by rewrite <- app_assoc|].
    split; [by destruct ds|].
    rewrite Forall_app, Forall_singleton, digit_digit_char by done. split; [done|].
    rewrite (digits_val_app _ _ _ _ Hv). simpl. rewrite digit_digit_char by done. simpl.
    f_equal. pose proof (Z.div_mod n 10). lia.
Qed.

(** No leading zero. *)
Lemma print_digits_head (fuel : nat) (n : Z) (acc : list byte) :
  0 < n < 2 ^ Z.of_nat fuel →
  ∃ b s d, print_digits fuel n acc = b :: s ∧ digit b = Some d ∧ d ≠ 0.
Proof.
  revert n acc. induction fuel as [|fuel IH]; intros n acc Hn; [simpl in Hn; lia|]. simpl.
  destruct (Z.ltb_spec n 10) as [Hlt|Hge].
  - rewrite Z.mod_small by lia. eexists _, _, n. split_and!; [done|apply digit_digit_char; lia|lia].
  - apply IH. rewrite Nat2Z.inj_succ, Z.pow_succ_r in Hn by lia.
    split; [apply Z.div_str_pos; lia|apply Z.div_lt_upper_bound; lia].
Qed.

Lemma print_nat_head (n : Z) :
  0 < n → ∃ b s d, print_nat n = b :: s ∧ digit b = Some d ∧ d ≠ 0.
Proof.
  intros Hn. apply print_digits_head. rewrite Nat2Z.inj_succ, Z2Nat.id by apply Z.log2_nonneg.
  split; [done|]. apply Z.log2_spec. lia.
Qed.

(** The printed form: digits only, at least one, denoting the number. *)
Lemma print_nat_digits (n : Z) :
  0 <= n → print_nat n ≠ [] ∧ Forall (λ b, is_Some (digit b)) (print_nat n) ∧
           digits_val 0 (print_nat n) = Some n.
Proof.
  intros Hn. unfold print_nat.
  destruct (print_digits_val (S (Z.to_nat (Z.log2 n))) n []) as (ds & -> & ? & ? & ?); [|lia|].
  - rewrite Nat2Z.inj_succ, Z2Nat.id by apply Z.log2_nonneg.
    destruct (decide (n = 0)) as [->|]; [vm_compute; split; congruence|].
    split; [done|]. apply Z.log2_spec. lia.
  - by rewrite app_nil_r.
Qed.

Lemma Atoi_print (n : Z) : 0 <= n < 2 ^ 63 → Atoi (print_nat n) = inl n.
Proof.
  intros Hn. destruct (print_nat_digits n) as (Hne & Hd & Hv); [lia|]. unfold Atoi.
  destruct (print_nat n) as [|b s] eqn:E; [done|].
  apply Forall_cons_iff in Hd as [[d Hd] _].
  assert (match b :: s with
          | Byte.x2d :: s' => (true, s')
          | Byte.x2b :: s' => (false, s')
          | _ => (false, b :: s)
          end = (false, b :: s)) as ->.
  { destruct b; try done; by vm_compute in Hd. }
  simpl. simpl in Hv. rewrite Hv.
  by rewrite (proj2 (Z.leb_le _ _)), (proj2 (Z.ltb_lt _ _)) by lia.
Qed.
