(* ===== verification/Filter.v ===== *)
(** * Compiling a filter: [compileFilter] of socket.go

    The words of tcpdump's output as [bufio.ScanWords] splits them, their
    conversion with [strconv.Atoi], the check of the count and the instructions.
    The output of tcpdump is the argument. *)

From stdpp Require Import base list numbers option.
From Stdlib Require Import ZArith Lia.
From S2P Require Import Prelude Bytes Strconv.

(** ** [bufio.ScanWords] *)

(** White space: the ASCII ones and the UTF-8 encodings of the others. *)
Definition spaces : list (list byte) := [
  [Byte.x20]; [Byte.x09]; [Byte.x0a]; [Byte.x0b]; [Byte.x0c]; [Byte.x0d];
  [Byte.xc2; Byte.x85]; [Byte.xc2; Byte.xa0]; [Byte.xe1; Byte.x9a; Byte.x80];
  [Byte.xe2; Byte.x80; Byte.x80]; [Byte.xe2; Byte.x80; Byte.x81]; [Byte.xe2; Byte.x80; Byte.x82];
  [Byte.xe2; Byte.x80; Byte.x83]; [Byte.xe2; Byte.x80; Byte.x84]; [Byte.xe2; Byte.x80; Byte.x85];
  [Byte.xe2; Byte.x80; Byte.x86]; [Byte.xe2; Byte.x80; Byte.x87]; [Byte.xe2; Byte.x80; Byte.x88];
  [Byte.xe2; Byte.x80; Byte.x89]; [Byte.xe2; Byte.x80; Byte.x8a]; [Byte.xe2; Byte.x80; Byte.xa8];
  [Byte.xe2; Byte.x80; Byte.xa9]; [Byte.xe2; Byte.x80; Byte.xaf]; [Byte.xe2; Byte.x81; Byte.x9f];
  [Byte.xe3; Byte.x80; Byte.x80]].

(** What follows a prefix, and what follows the first of several that fits. *)
Fixpoint strip (p s : list byte) : option (list byte) :=
  match p, s with
  | [], _ => Some s
  | a :: p, b :: s => if Byte.eqb a b then strip p s else None
  | _ :: _, [] => None
  end.

Fixpoint strip_any (ps : list (list byte)) (s : list byte) : option (list byte) :=
  match ps with
  | [] => None
  | p :: ps => match strip p s with Some r => Some r | None => strip_any ps s end
  end.

(** The white space at the front, if any, is skipped.  No encoding of a rune has
    the first byte of another inside it, so this finds what decoding finds. *)
Definition skip_space (s : list byte) : option (list byte) := strip_any spaces s.

(** The words; [cur] is the word being read.  Every turn takes a byte. *)
Fixpoint scan_words (fuel : nat) (cur : list byte) (s : list byte) : list (list byte) :=
  let flush := match cur with [] => [] | _ => [cur] end in
  match fuel with
  | O => flush
  | S fuel =>
      match skip_space s with
      | Some s => flush ++ scan_words fuel [] s
      | None => match s with
                | [] => flush
                | b :: s => scan_words fuel (cur ++ [b]) s
                end
      end
  end.

Definition ScanWords (s : list byte) : list (list byte) := scan_words (S (length s)) [] s.

(** The scanner gives up at a word that does not fit its buffer, and the code does
    not look at the error. *)
Definition MaxScanTokenSize : Z := 64 * 1024.

Fixpoint scannable (ws : list (list byte)) : list (list byte) :=
  match ws with
  | [] => []
  | w :: ws => if Z.of_nat (length w) <? MaxScanTokenSize then w :: scannable ws else []
  end.

(** ** The instructions *)
Record sock_filter := SockFilter { code : Z; jt : Z; jf : Z; k : Z }.

#[export] Instance sock_filter_eq_dec : EqDecision sock_filter.
Proof. solve_decision. Defined.

Inductive filter_error :=
  | TcpdumpFailed (e : Z)
  | BadToken (w : list byte) (e : num_error)
  | BadLength.

Fixpoint scan_ints (ws : list (list byte)) : list Z + filter_error :=
  match ws with
  | [] => inl []
  | w :: ws =>
      match Atoi w with
      | inr e => inr (BadToken w e)
      | inl i => match scan_ints ws with inr e => inr e | inl ints => inl (i :: ints) end
      end
  end.

(** The loop over groups of four; the check before it makes the groups whole. *)
Fixpoint instructions (ints : list Z) : list sock_filter :=
  match ints with
  | a :: b :: c :: d :: ints => SockFilter (uint16 a) (uint8 b) (uint8 c) (uint32 d) :: instructions ints
  | _ => []
  end.

(** [compileFilter], on the result of running tcpdump. *)
Definition compileFilter (tcpdump : list byte + Z) : list sock_filter + filter_error :=
  match tcpdump with
  | inr e => inr (TcpdumpFailed e)
  | inl out =>
      match scan_ints (scannable (ScanWords out)) with
      | inr e => inr e
      | inl [] => inr BadLength
      | inl (n :: ints) =>
          if negb (Z.of_nat (length (n :: ints)) =? int64 (int64 (n * 4) + 1)) then inr BadLength
          else inl (instructions ints)
      end
  end.

(** ** What tcpdump -ddd prints *)
Definition space : byte := Byte.x20.
Definition newline : byte := Byte.x0a.

Definition print_instr (i : sock_filter) : list byte :=
  print_nat (code i) ++ [space] ++ print_nat (jt i) ++ [space] ++
  print_nat (jf i) ++ [space] ++ print_nat (k i) ++ [newline].

Definition print_filter (prog : list sock_filter) : list byte :=
  print_nat (Z.of_nat (length prog)) ++ [newline] ++ (prog ≫= print_instr).

Definition instr_ok (i : sock_filter) : Prop :=
  0 <= code i < 2 ^ 16 ∧ 0 <= jt i < 2 ^ 8 ∧ 0 <= jf i < 2 ^ 8 ∧ 0 <= k i < 2 ^ 32.

#[export] Instance instr_ok_dec i : Decision (instr_ok i).
Proof. apply _. Defined.

(** The numbers of a program, in order. *)
Definition instr_ints (i : sock_filter) : list Z := [code i; jt i; jf i; k i].

(** ** Words of digits *)
Lemma digit_not_space (b : byte) (s : list byte) :
  is_Some (digit b) → skip_space (b :: s) = None.
Proof. intros [d Hd]. destruct b; try reflexivity; by vm_compute in Hd. Qed.

(** A word of digits is read whole, up to the white space after it. *)
Lemma scan_word (w : list byte) (fuel : nat) (cur s rest : list byte) :
  Forall (λ b, is_Some (digit b)) w → skip_space s = Some rest →
  (0 < fuel)%nat → cur ++ w ≠ [] →
  scan_words (length w + fuel) cur (w ++ s) = (cur ++ w) :: scan_words (fuel - 1) [] rest.
Proof.
  revert cur. induction w as [|b w IH]; intros cur Hw Hs Hf Hne.
  - rewrite app_nil_r in *. destruct fuel as [|fuel]; [lia|]. simpl.
    rewrite Hs, Nat.sub_0_r. by destruct cur.
  - apply Forall_cons_iff in Hw as [Hb Hw]. cbn [length app Nat.add scan_words].
    rewrite digit_not_space by done. rewrite IH; [|done..|by destruct cur].
    by rewrite <- app_assoc.
Qed.

Lemma strip_length (p s r : list byte) : strip p s = Some r → length s = (length p + length r)%nat.
Proof.
  revert s. induction p as [|a p IH]; intros [|b s]; simpl; try naive_solver.
  destruct (Byte.eqb a b); [|done]. intros H. by rewrite (IH _ H).
Qed.

Lemma skip_space_length (s r : list byte) : skip_space s = Some r → (length r < length s)%nat.
Proof.
  assert (Forall (λ p, p ≠ []) spaces) as Hne by (repeat constructor; congruence).
  unfold skip_space. induction Hne as [|p ps Hp _ IH]; simpl; [done|].
  destruct (strip p s) as [r'|] eqn:E; [|done]. intros [= <-].
  apply strip_length in E. destruct p; simpl in *; [done|lia].
Qed.

(** More turns than bytes make no difference. *)
Lemma scan_words_fuel (f1 f2 : nat) (cur s : list byte) :
  (length s < f1)%nat → (length s < f2)%nat → scan_words f1 cur s = scan_words f2 cur s.
Proof.
  revert f2 cur s. induction f1 as [|f1 IH]; intros f2 cur s H1 H2; [lia|].
  destruct f2 as [|f2]; [lia|]. cbn [scan_words].
  destruct (skip_space s) as [s'|] eqn:E.
  - apply skip_space_length in E. f_equal. apply IH; lia.
  - destruct s as [|b s]; [done|]. simpl in *. apply IH; lia.
Qed.

(** The words of a text that is digits, white space and the rest. *)
Lemma ScanWords_word (w s rest : list byte) :
  w ≠ [] → Forall (λ b, is_Some (digit b)) w → skip_space s = Some rest →
  ScanWords (w ++ s) = w :: ScanWords rest.
Proof.
  intros Hne Hw Hs. unfold ScanWords. rewrite length_app.
  pose proof (skip_space_length _ _ Hs).
  replace (S (length w + length s)) with (length w + S (length s))%nat by lia.
  rewrite (scan_word w (S (length s)) [] s rest) by (done || lia). cbn [app]. f_equal.
  apply scan_words_fuel; lia.
Qed.

(** ** Round trip *)
Lemma ScanWords_num (n : Z) (c : byte) (rest : list byte) :
  0 <= n → c = space ∨ c = newline →
  ScanWords (print_nat n ++ [c] ++ rest) = print_nat n :: ScanWords rest.
Proof.
  intros Hn Hc. destruct (print_nat_digits n Hn) as (Hne & Hd & _).
  apply ScanWords_word; [done..|]. by destruct Hc as [-> | ->].
Qed.

Lemma ScanWords_instr (i : sock_filter) (rest : list byte) :
  instr_ok i →
  ScanWords (print_instr i ++ rest) = (print_nat <$> instr_ints i) ++ ScanWords rest.
Proof.
  intros (H1 & H2 & H3 & H4). unfold print_instr, instr_ints. rewrite <- !app_assoc.
  rewrite !ScanWords_num by (lia || auto). done.
Qed.

Lemma ScanWords_prog (prog : list sock_filter) :
  Forall instr_ok prog →
  ScanWords (prog ≫= print_instr) = print_nat <$> (prog ≫= instr_ints).
Proof.
  induction 1 as [|i prog Hi _ IH]; [done|].
  rewrite !bind_cons, ScanWords_instr, fmap_app by done. by f_equal.
Qed.

Lemma length_print_digits (fuel : nat) (n : Z) (acc : list byte) :
  (length (print_digits fuel n acc) ≤ fuel + length acc)%nat.
Proof.
  revert n acc. induction fuel as [|fuel IH]; intros n acc; [done|]. cbn [print_digits].
  destruct (n <? 10); [simpl; lia|]. etransitivity; [apply IH|]. simpl. lia.
Qed.

Lemma print_nat_scannable (n : Z) :
  0 <= n < 2 ^ 63 → Z.of_nat (length (print_nat n)) < MaxScanTokenSize.
Proof.
  intros Hn. pose proof (length_print_digits (S (Z.to_nat (Z.log2 n))) n []) as Hl.
  fold (print_nat n) in Hl. cbn [length] in Hl.
  assert (Z.log2 n < 63).
  { destruct (decide (n = 0)) as [->|]; [done|]. apply Z.log2_lt_pow2; lia. }
  unfold MaxScanTokenSize. lia.
Qed.

Lemma scannable_nums (ns : list Z) :
  Forall (λ n, 0 <= n < 2 ^ 63) ns → scannable (print_nat <$> ns) = print_nat <$> ns.
Proof.
  induction 1 as [|n ns Hn _ IH]; [done|]. csimpl.
  rewrite (proj2 (Z.ltb_lt _ _)) by by apply print_nat_scannable. by rewrite IH.
Qed.

Lemma scan_ints_nums (ns : list Z) :
  Forall (λ n, 0 <= n < 2 ^ 63) ns → scan_ints (print_nat <$> ns) = inl ns.
Proof.
  induction 1 as [|n ns Hn _ IH]; [done|]. csimpl. by rewrite Atoi_print, IH.
Qed.

Lemma instr_ints_small (prog : list sock_filter) :
  Forall instr_ok prog → Forall (λ n, 0 <= n < 2 ^ 63) (prog ≫= instr_ints).
Proof.
  induction 1 as [|i prog Hi _ IH]; [constructor|]. rewrite bind_cons.
  apply Forall_app. split; [|done]. destruct Hi as (? & ? & ? & ?).
  repeat constructor; pow2; lia.
Qed.

Lemma instructions_ints (prog : list sock_filter) :
  Forall instr_ok prog → instructions (prog ≫= instr_ints) = prog.
Proof.
  induction 1 as [|[a b c d] prog Hi _ IH]; [done|]. rewrite bind_cons. cbn.
  change (list_bind _ _ instr_ints prog) with (prog ≫= instr_ints). rewrite IH.
  destruct Hi as (? & ? & ? & ?). simpl in *. do 2 f_equal; mach.
Qed.

Lemma length_instr_ints (prog : list sock_filter) :
  length (prog ≫= instr_ints) = (4 * length prog)%nat.
Proof.
  induction prog as [|i prog IH]; [done|]. rewrite bind_cons, length_app, IH. simpl. lia.
Qed.

(** C28: the program tcpdump prints is the program that is compiled, whatever it is. *)
Theorem compileFilter_roundtrip (prog : list sock_filter) :
  Forall instr_ok prog → Z.of_nat (length prog) < 2 ^ 60 →
  compileFilter (inl (print_filter prog)) = inl prog.
Proof.
  intros Hp Hl. unfold compileFilter, print_filter.
  rewrite ScanWords_num, ScanWords_prog, <- fmap_cons by (lia || auto).
  assert (Forall (λ n, 0 <= n < 2 ^ 63) (Z.of_nat (length prog) :: (prog ≫= instr_ints))) as Hs
    by (constructor; [pow2; lia|by apply instr_ints_small]).
  rewrite scannable_nums, scan_ints_nums by done.
  rewrite (int64_small (Z.of_nat (length prog) * 4)) by (pow2; lia).
  rewrite int64_small by (pow2; lia). cbn [length]. rewrite length_instr_ints.
  rewrite (proj2 (Z.eqb_eq _ _)) by lia. simpl. by rewrite instructions_ints.
Qed.

Lemma instructions_whole (ints : list Z) (n : nat) :
  length ints = (4 * n)%nat →
  length (instructions ints) = n ∧ Forall instr_ok (instructions ints).
Proof.
  revert ints. induction n as [|n IH]; intros ints Hl.
  { destruct ints; [|done]. by split; [|constructor]. }
  destruct ints as [|a [|b [|c [|d ints]]]]; try (simpl in Hl; lia).
  destruct (IH ints) as [Hn Hf]; [simpl in Hl; lia|]. cbn [instructions length].
  split; [by rewrite Hn|]. constructor; [|done]. unfold instr_ok. simpl. split_and!; mach.
Qed.

(** Whatever tcpdump prints, an accepted output is a count and whole groups of
    four numbers, so the loop never reads past the end, even where the count times
    four overflows; and every field of an instruction fits its C type. *)
Theorem compileFilter_whole (out : list byte) (prog : list sock_filter) :
  compileFilter (inl out) = inl prog →
  ∃ n ints, scan_ints (scannable (ScanWords out)) = inl (n :: ints) ∧
    length ints = (4 * length prog)%nat ∧ Forall instr_ok prog.
Proof.
  unfold compileFilter. destruct (scan_ints _) as [[|n ints]|]; [done| |done].
  destruct (Z.eqb_spec (Z.of_nat (length (n :: ints))) (int64 (int64 (n * 4) + 1))) as [He|];
    [|done]. intros [= <-]. exists n, ints. split; [done|].
  assert (∃ m, length ints = 4 * m)%nat as [m Hm].
  { exists (Z.to_nat (Z.of_nat (length ints) / 4)). cbn [length] in He. mach. }
  destruct (instructions_whole ints m Hm) as [-> ?]. done.
Qed.

Definition demo_prog : list sock_filter :=
  [SockFilter 40 0 0 12; SockFilter 21 0 1 2048; SockFilter 6 0 0 262144; SockFilter 6 0 0 0].

Lemma compileFilter_roundtrip_witness : compileFilter (inl (print_filter demo_prog)) = inl demo_prog.
Proof.
  apply compileFilter_roundtrip; [|vm_compute; congruence].
  apply (bool_decide_unpack _). vm_compute. exact I.
Defined.

Lemma compileFilter_whole_witness :
  ∃ n ints, scan_ints (scannable (ScanWords (print_filter demo_prog))) = inl (n :: ints) ∧
    length ints = 16%nat ∧ Forall instr_ok demo_prog.
Proof. apply (compileFilter_whole (print_filter demo_prog) demo_prog). vm_compute. reflexivity. Defined.
