(* ===== verification/AFPacket.v ===== *)
(** * Creating the packet socket: socket.c and [newSocket] of socket.go

    [AFPacket] as the sequence of system calls it makes, what each returns being
    an oracle, with its two failure labels; and [newSocket], which compiles the
    filter and calls it.  A failed call is an [errno]. *)

From stdpp Require Import base list numbers option strings.
From Stdlib Require Import ZArith Lia.
From S2P Require Import Prelude Bytes Strconv Filter Link.

(** ** System calls *)
Inductive syscall :=
  | SysSocket                                     (* AF_PACKET, SOCK_RAW, ETH_P_ALL *)
  | SysVersion (fd v : Z)                         (* PACKET_VERSION *)
  | SysAttachFilter (fd len : Z) (prog : list sock_filter)
  | SysLockFilter (fd v : Z)
  | SysRxRing (fd block_size frame_size block_nr frame_nr tov : Z)
  | SysMmap (fd len : Z)
  | SysIfIndex (iface : string)                   (* if_nametoindex *)
  | SysBind (fd ifindex : Z)
  | SysFanout (fd arg : Z)                        (* PACKET_FANOUT *)
  | SysMunmap (ring len : Z)
  | SysClose (fd : Z).

#[export] Instance syscall_eq_dec : EqDecision syscall.
Proof. solve_decision. Defined.

Definition TPACKET_V3 : Z := 2.
Definition EINVAL : Z := 22.

(** What a call returns: a value, or its errno. *)
Definition oracle := syscall → Z + Z.

(** The error message and errno. *)
Record af_error := AfError { af_msg : string; af_errno : Z }.

(** The fanout argument of [AFPacket], on 32-bit ints. *)
Definition fanout_arg (fanout_id fanout_type : Z) : Z :=
  int32 (Z.lor (Z.land fanout_id 0xFFFF) (Z.shiftl fanout_type 16)).

Section afpacket.
Context (kern : oracle).

(** Programs over the calls made so far. *)
Definition af := prog (list syscall) af_error.

(** A call whose failure is reported with a message. *)
Definition call (c : syscall) (msg : string) : af Z := λ tr,
  (tr ++ [c], match kern c with inl r => inl r | inr e => inr (AfError msg e) end).

(** A call of a failure label: its result is ignored and errno is kept. *)
Definition cleanup (c : syscall) (tr : list syscall) : list syscall := tr ++ [c].

(** [goto label]: what the label does, then return -1 with errno unchanged. *)
Definition on_error {A} (undo : list syscall → list syscall) (m : af A) : af A := λ tr,
  match m tr with
  | (tr, inl a) => (tr, inl a)
  | (tr, inr e) => (undo tr, inr e)
  end.

(** if_nametoindex returns 0 on failure and the code sets EINVAL; likewise mmap. *)
Definition einval {A} (m : af A) : af A := wrap (λ e, AfError (af_msg e) EINVAL) m.

(** The part that goes to [fail2]. *)
Definition bind_and_fanout (fd : Z) (iface : string) (fanout_id fanout_size fanout_type : Z) :
    af unit :=
  ifindex ← einval (call (SysIfIndex iface) "if_nametoindex failed");
  call (SysBind fd ifindex) "bind failed";;
  if fanout_size =? 1 then mret tt
  else call (SysFanout fd (fanout_arg fanout_id fanout_type)) "setsockopt PACKET_FANOUT failed";;
       mret tt.

(** The part that goes to [fail1]: version, filter, ring, mapping. *)
Definition setup (fd : Z) (iface : string)
    (block_size block_nr block_ms fanout_id fanout_size fanout_type filter_size : Z)
    (filters : list sock_filter) : af Z :=
  call (SysVersion fd TPACKET_V3) "setsockopt PACKET_VERSION failure";;
  (if filter_size =? 0 then mret tt
   else
     call (SysAttachFilter fd (uint16 filter_size) filters) "setsockopt SO_ATTACH_FILTER error";;
     call (SysLockFilter fd 1) "setsockopt SO_LOCK_FILTER error";;
     mret tt);;
  call (SysRxRing fd (uint32 block_size) (uint32 block_size) (uint32 block_nr) (uint32 block_nr)
          (uint32 block_ms)) "setsockopt PACKET_RX_RING failure";;
  ring ← einval (call (SysMmap fd (uint64 (uint32 block_size * uint32 block_nr)))
                   "ring mmap failed");
  on_error (cleanup (SysMunmap ring (uint64 (int32 (block_size * block_nr)))))
    (bind_and_fanout fd iface fanout_id fanout_size fanout_type);;
  mret ring.

(** [AFPacket]: the descriptor and the ring. *)
Definition AFPacket (iface : string)
    (block_size block_nr block_ms fanout_id fanout_size fanout_type filter_size : Z)
    (filters : list sock_filter) : af (Z * Z) :=
  fd ← call SysSocket "socket creation failure";
  ring ← on_error (cleanup (SysClose fd))
           (setup fd iface block_size block_nr block_ms fanout_id fanout_size fanout_type
              filter_size filters);
  mret (fd, ring).
End afpacket.

(** [WaitForBlocks]: 0 when select returns (ready or timeout), its errno otherwise; for a
    descriptor that [FD_SET] can take, that is below FD_SETSIZE. *)
Definition SOCKET_READY_OR_TIMEOUT : Z := 0.

Definition WaitForBlocks (select : Z + Z) : Z :=
  match select with inl _ => SOCKET_READY_OR_TIMEOUT | inr errno => errno end.

(** ** The configuration of a socket (daemon.go) *)
Record SocketConfig := MkConfig {
  SocketName : string;
  Interface : string;
  BlockSize : Z;
  NumBlocks : Z;
  BlockTimeoutMillis : Z;
  FanoutType : Z;
  FanoutSize : Z;
  FanoutID : Z;
  User : string;
  Group : string;
  Filter : string;
}.

(** A socket, as the handshake uses it. *)
Record sock := Sock { sock_conf : SocketConfig; sock_num : Z; sock_fd : Z }.

Inductive socket_error :=
  | PanicMakeChan                    (* make(chan, n) with a negative n *)
  | PanicEmptyFilter                 (* &f[0] of an empty program *)
  | FilterError (e : filter_error)
  | AFPacketError (e : af_error).

(** The second half of [newSocket]: the call of [AFPacket] with the compiled
    filter.  [C.int] keeps 32 bits. *)
Definition open_socket (kern : oracle) (sc : SocketConfig) (fanoutID num : Z)
    (f : list sock_filter) : list syscall * (sock + socket_error) :=
  match AFPacket kern (Interface sc) (int32 (BlockSize sc)) (int32 (NumBlocks sc))
          (int32 (BlockTimeoutMillis sc)) (int32 fanoutID) (int32 (FanoutSize sc))
          (int32 (FanoutType sc)) (int32 (Z.of_nat (length f))) f [] with
  | (tr, inl (fd, ring)) => (tr, inl (Sock sc num fd))
  | (tr, inr e) => (tr, inr (AFPacketError e))
  end.

(** [newSocket], with the system calls made; [tcpdump] is the result of running it
    on the interface and the filter. *)
Definition newSocket (kern : oracle) (tcpdump : string → string → list byte + Z)
    (sc : SocketConfig) (fanoutID num : Z) : list syscall * (sock + socket_error) :=
  if NumBlocks sc <? 0 then ([], inr PanicMakeChan)
  else if String.eqb (Filter sc) "" then open_socket kern sc fanoutID num []
  else match compileFilter (tcpdump (Interface sc) (Filter sc)) with
       | inr e => ([], inr (FilterError e))
       | inl [] => ([], inr PanicEmptyFilter)
       | inl f => open_socket kern sc fanoutID num f
       end.

(** ** Properties *)

(** Run the calls one after another, splitting on what each returns. *)
Ltac af_run kern :=
  unfold AFPacket, setup, bind_and_fanout, einval, wrap, on_error, cleanup, call, mret, prog_ret,
    mbind, prog_bind in *; lazy beta iota zeta;
  repeat match goal with
  | |- context [if ?b =? ?c then _ else _] => destruct (b =? c) eqn:?; lazy beta iota zeta; cbn [app]
  | |- context [kern ?c] => destruct (kern c) eqn:?; lazy beta iota zeta; cbn [app]
  end.

(** The calls of a successful set-up, in order. *)
Definition setup_calls (fd ifindex : Z) (iface : string)
    (block_size block_nr block_ms fanout_id fanout_size fanout_type filter_size : Z)
    (filters : list sock_filter) : list syscall :=
  [SysSocket; SysVersion fd TPACKET_V3] ++
  (if filter_size =? 0 then []
   else [SysAttachFilter fd (uint16 filter_size) filters; SysLockFilter fd 1]) ++
  [SysRxRing fd (uint32 block_size) (uint32 block_size) (uint32 block_nr) (uint32 block_nr)
     (uint32 block_ms);
   SysMmap fd (uint64 (uint32 block_size * uint32 block_nr));
   SysIfIndex iface; SysBind fd ifindex] ++
  (if fanout_size =? 1 then [] else [SysFanout fd (fanout_arg fanout_id fanout_type)]).

(** What is held after a sequence of calls: descriptors, and mappings with their
    length (unmapping another length does not release one). *)
Inductive resource := Fd (fd : Z) | Ring (ring len : Z).

#[export] Instance resource_eq_dec : EqDecision resource.
Proof. solve_decision. Defined.

Definition track (kern : oracle) (held : list resource) (c : syscall) : list resource :=
  match c with
  | SysSocket => match kern c with inl fd => Fd fd :: held | inr _ => held end
  | SysMmap fd len => match kern c with inl ring => Ring ring len :: held | inr _ => held end
  | SysMunmap ring len => filter (λ r, r ≠ Ring ring len) held
  | SysClose fd => filter (λ r, r ≠ Fd fd) held
  | _ => held
  end.

Definition open_after (kern : oracle) (tr : list syscall) : list resource :=
  foldl (track kern) [] tr.

(** Evaluate what is held after a given sequence. *)
Ltac open_run Hm Hu :=
  unfold open_after; cbn [foldl track];
  repeat match goal with
  | H : ?k ?c = inl _ |- context [?k ?c] => rewrite H
  | H : ?k ?c = inr _ |- context [?k ?c] => rewrite H
  end;
  rewrite ?Hm, ?Hu; repeat (rewrite ?filter_cons; case_decide; try done); congruence.

Lemma ring_size_exact (bs nr : Z) :
  0 <= bs → 0 <= nr → bs * nr < 2 ^ 31 →
  uint64 (uint32 bs * uint32 nr) = bs * nr ∧ uint64 (int32 (bs * nr)) = bs * nr.
Proof.
  intros Hb Hn Hp. assert (0 <= bs * nr) by nia. split.
  - destruct (decide (bs = 0)) as [->|]; [done|]. destruct (decide (nr = 0)) as [->|].
    { by rewrite !Z.mul_0_r. }
    rewrite !uint32_small by nia. set (p := bs * nr) in *. clearbody p. mach.
  - set (p := bs * nr) in *. clearbody p. mach.
Qed.

Section afpacket_spec.
Context (kern : oracle) (iface : string).
Context (block_size block_nr block_ms fanout_id fanout_size fanout_type filter_size : Z).
Context (filters : list sock_filter).

Abbreviation run :=
  (AFPacket kern iface block_size block_nr block_ms fanout_id fanout_size fanout_type
     filter_size filters []).

Lemma AFPacket_calls (tr : list syscall) (fd ring : Z) :
  run = (tr, inl (fd, ring)) →
  kern SysSocket = inl fd ∧ Forall (λ c, ∃ r, kern c = inl r) tr ∧
  ∃ ifindex, kern (SysIfIndex iface) = inl ifindex ∧
    tr = setup_calls fd ifindex iface block_size block_nr block_ms fanout_id fanout_size
           fanout_type filter_size filters.
Proof.
  unfold setup_calls. af_run kern; try done;
    intros [= <- <- <-]; (split; [done|]); (split; [repeat constructor; eauto|]);
    (eexists; split; [done|reflexivity]).
Qed.

(** A descriptor that [AFPacket] returns went through every step, each of them
    successful, and the calls were made in this order.  In particular a requested
    filter is attached and locked before the ring exists, so no packet the filter
    would refuse can ever reach the ring. *)
Theorem AFPacket_success (tr : list syscall) (fd ring : Z) :
  run = (tr, inl (fd, ring)) →
  kern SysSocket = inl fd ∧ Forall (λ c, ∃ r, kern c = inl r) tr ∧
  ∃ ifindex, kern (SysIfIndex iface) = inl ifindex ∧
    tr = setup_calls fd ifindex iface block_size block_nr block_ms fanout_id fanout_size
           fanout_type filter_size filters.
Proof. apply AFPacket_calls. Qed.

(** C26: nothing leaks: a failed run holds nothing when it returns, and a successful
    one holds the descriptor and the ring it returns; for every ring size that a
    32-bit int can say. *)
Theorem AFPacket_resources (tr : list syscall) (r : Z * Z + af_error) :
  0 <= block_size → 0 <= block_nr → block_size * block_nr < 2 ^ 31 →
  run = (tr, r) →
  open_after kern tr =
    match r with
    | inl (fd, ring) => [Ring ring (block_size * block_nr); Fd fd]
    | inr _ => []
    end.
Proof.
  intros Hbs Hnr Hp. pose proof (ring_size_exact _ _ Hbs Hnr Hp) as [Hm Hu].
  af_run kern; intros [= <- <-]; open_run Hm Hu.
Qed.

(** The errno of a failed run is the errno of a call that was made and failed, or
    EINVAL where the code sets it. *)
Theorem AFPacket_errno (tr : list syscall) (e : af_error) :
  run = (tr, inr e) →
  ∃ c err, c ∈ tr ∧ kern c = inr err ∧
    af_errno e = match c with SysMmap _ _ | SysIfIndex _ => EINVAL | _ => err end.
Proof.
  af_run kern; try done; intros [= <- <-]; cbn [af_errno af_msg];
    (eexists _, _; split; [|split; [eassumption|reflexivity]]);
    repeat (apply list_elem_of_here || apply list_elem_of_further).
Qed.
End afpacket_spec.

(** ** Sockets *)

(** A kernel that grants everything, and one that refuses one call. *)
Definition demo_kern : oracle := λ c,
  match c with SysSocket => inl 5 | SysMmap _ _ => inl 4096 | SysIfIndex _ => inl 2 | _ => inl 0 end.

Definition refusing (bad : syscall) (e : Z) : oracle := λ c,
  if decide (c = bad) then inr e else demo_kern c.

Lemma AFPacket_success_witness :
  ∃ ifindex, demo_kern (SysIfIndex "eth0") = inl ifindex ∧
    (AFPacket demo_kern "eth0" 4096 4 100 7 2 1 4 demo_prog []).1 =
    setup_calls 5 ifindex "eth0" 4096 4 100 7 2 1 4 demo_prog.
Proof.
  apply (AFPacket_success demo_kern "eth0" 4096 4 100 7 2 1 4 demo_prog _ 5 4096).
  vm_compute. reflexivity.
Defined.

Lemma AFPacket_resources_witness :
  open_after (refusing (SysBind 5 2) 13)
    (AFPacket (refusing (SysBind 5 2) 13) "eth0" 4096 4 100 7 2 1 0 [] []).1 = [].
Proof.
  apply (AFPacket_resources (refusing (SysBind 5 2) 13) "eth0" 4096 4 100 7 2 1 0 [] _
           (inr (AfError "bind failed" 13))); [lia|lia|pow2; lia|vm_compute; reflexivity].
Defined.

Lemma AFPacket_errno_witness :
  ∃ c err, c ∈ (AFPacket (refusing (SysBind 5 2) 13) "eth0" 4096 4 100 7 2 1 0 [] []).1 ∧
    refusing (SysBind 5 2) 13 c = inr err ∧
    13 = match c with SysMmap _ _ | SysIfIndex _ => EINVAL | _ => err end.
Proof.
  apply (AFPacket_errno (refusing (SysBind 5 2) 13) "eth0" 4096 4 100 7 2 1 0 [] _
           (AfError "bind failed" 13)). vm_compute. reflexivity.
Defined.

(** For a ring of 2 GiB the length that is unmapped is not the length that was
    mapped, so a late failure leaves the ring mapped. *)
Theorem munmap_length_overflow :
  open_after (refusing (SysBind 5 2) 13)
    (AFPacket (refusing (SysBind 5 2) 13) "eth0" (2 ^ 20) (2 ^ 11) 100 7 1 1 0 [] []).1
  = [Ring 4096 (2 ^ 31)].
Proof. vm_compute. reflexivity. Qed.

(** What [newSocket] asked [AFPacket] for. *)
Definition socket_calls (sc : SocketConfig) (fanoutID fd ifindex : Z) (f : list sock_filter) :
    list syscall :=
  setup_calls fd ifindex (Interface sc) (int32 (BlockSize sc)) (int32 (NumBlocks sc))
    (int32 (BlockTimeoutMillis sc)) (int32 fanoutID) (int32 (FanoutSize sc))
    (int32 (FanoutType sc)) (int32 (Z.of_nat (length f))) f.

Lemma newSocket_conf (kern : oracle) (tcpdump : string → string → list byte + Z)
    (sc : SocketConfig) (fanoutID num : Z) (tr : list syscall) (s : sock) :
  newSocket kern tcpdump sc fanoutID num = (tr, inl s) → sock_conf s = sc ∧ sock_num s = num.
Proof.
  unfold newSocket, open_socket. repeat case_match; naive_solver.
Qed.

(** C27: a socket that [newSocket] returns has the configuration and the number it was
    asked for and the descriptor the kernel gave; every call that was made succeeded;
    and when a filter is configured, the program tcpdump compiled for it was attached
    and locked before the ring was set up, whole if it has fewer than 2^16
    instructions (the kernel is told the low 16 bits of its length). *)
Theorem newSocket_spec (kern : oracle) (tcpdump : string → string → list byte + Z)
    (sc : SocketConfig) (fanoutID num : Z) (tr : list syscall) (s : sock) :
  newSocket kern tcpdump sc fanoutID num = (tr, inl s) →
  s = Sock sc num (sock_fd s) ∧ kern SysSocket = inl (sock_fd s) ∧ 0 <= NumBlocks sc ∧
  Forall (λ c, ∃ r, kern c = inl r) tr ∧
  ∃ f ifindex, tr = socket_calls sc fanoutID (sock_fd s) ifindex f ∧
    (Filter sc = ""%string → f = []) ∧
    (Filter sc ≠ ""%string →
       compileFilter (tcpdump (Interface sc) (Filter sc)) = inl f ∧
       (Z.of_nat (length f) < 2 ^ 16 →
          ∃ rest, tr = [SysSocket; SysVersion (sock_fd s) TPACKET_V3;
                        SysAttachFilter (sock_fd s) (Z.of_nat (length f)) f;
                        SysLockFilter (sock_fd s) 1] ++ rest)).
Proof.
  unfold newSocket. destruct (Z.ltb_spec (NumBlocks sc) 0); [done|].
  assert (∀ f, open_socket kern sc fanoutID num f = (tr, inl s) → s = Sock sc num (sock_fd s) ∧
    kern SysSocket = inl (sock_fd s) ∧ Forall (λ c, ∃ r, kern c = inl r) tr ∧
    ∃ ifindex, tr = socket_calls sc fanoutID (sock_fd s) ifindex f) as Hopen.
  { intros f. unfold open_socket. destruct (AFPacket _ _ _ _ _ _ _ _ _ _ _) as [tr' [[fd ring]|]] eqn:E;
      [|done]. intros [= <- <-]. apply AFPacket_calls in E as (? & ? & ifindex & _ & ->).
    split_and!; [done..|]. by exists ifindex. }
  destruct (String.eqb_spec (Filter sc) "") as [He|Hne].
  - intros (? & ? & ? & ifindex & ?)%Hopen. split_and!; [done..|]. by exists [], ifindex.
  - destruct (compileFilter _) as [[|i f]|] eqn:Hc; [done| |done].
    intros (? & ? & ? & ifindex & Htr)%Hopen. split_and!; [done..|]. exists (i :: f), ifindex.
    split_and!; [done|done|]. intros _. split; [done|]. intros Hl.
    assert (0 < Z.of_nat (length (i :: f))) by (simpl; lia). eexists. rewrite Htr.
    unfold socket_calls, setup_calls. rewrite (int32_small (Z.of_nat _)) by (pow2; lia).
    rewrite (proj2 (Z.eqb_neq _ _)), uint16_small by lia. reflexivity.
Qed.

Definition demo_conf (filter : string) : SocketConfig :=
  MkConfig "a" "eth0" 4096 4 100 0 1 0 "" "" filter.

Lemma newSocket_spec_witness :
  (newSocket demo_kern (λ _ _, inl (print_filter demo_prog)) (demo_conf "ip") 1 0).2 =
    inl (Sock (demo_conf "ip") 0 5) ∧ demo_kern SysSocket = inl 5.
Proof.
  split; [vm_compute; reflexivity|].
  apply (newSocket_spec demo_kern (λ _ _, inl (print_filter demo_prog)) (demo_conf "ip") 1 0
           (newSocket demo_kern (λ _ _, inl (print_filter demo_prog)) (demo_conf "ip") 1 0).1
           (Sock (demo_conf "ip") 0 5)).
  vm_compute. reflexivity.
Defined.

(** An output of tcpdump that announces no instructions passes the length check of
    [compileFilter] and then crashes [newSocket]. *)
Theorem empty_filter_panics :
  compileFilter (inl (print_filter [])) = inl [] ∧
  ∀ kern fanoutID num,
    newSocket kern (λ _ _, inl (print_filter [])) (demo_conf "ip") fanoutID num =
      ([], inr PanicEmptyFilter).
Proof. split; [vm_compute; reflexivity|]. intros. reflexivity. Qed.
