(* ===== verification/Config.v ===== *)
(** * Starting the daemon: testimonyd/daemon.go and socket/daemon.go

    The configuration, the defaults [main] fills in, the checks and the fanout
    ids of [RunTestimony], ownership of the listening socket, and the fanout
    argument the C code hands to the kernel.  What the operating system answers
    (creating sockets, listening, looking up users) is a parameter. *)

From stdpp Require Import base list numbers option gmap strings.
From Stdlib Require Import ZArith Lia.
From S2P Require Import Prelude Bytes Strconv Filter AFPacket.

(** [main]: a missing FanoutSize is 1. *)
Definition default_fanout (sc : SocketConfig) : SocketConfig :=
  if FanoutSize sc =? 0 then
    MkConfig (SocketName sc) (Interface sc) (BlockSize sc) (NumBlocks sc)
      (BlockTimeoutMillis sc) (FanoutType sc) 1 (FanoutID sc) (User sc) (Group sc) (Filter sc)
  else sc.

Definition main_defaults (t : list SocketConfig) : list SocketConfig := default_fanout <$> t.

(** ** Ownership of the socket file *)

(** An error of the operating system, by number. *)
Definition errno := Z.

(** What the system answers to the daemon's lookups and calls. *)
Record os := Os {
  os_current_user : list byte + errno;             (* user.Current().Uid *)
  os_lookup_user : string → list byte + errno;     (* user.Lookup(name).Uid *)
  os_getgrnam : string → option Z + errno;         (* getgrnam_r: gid, or no such group *)
  os_chown : string → Z → Z → option errno;
  os_tcpdump : string → string → list byte + errno; (* tcpdump -i iface -ddd filter *)
  os_kernel : string → Z → oracle;                 (* the calls of one newSocket *)
  os_listen : string → option errno;               (* os.Remove, result ignored, then net.ListenUnix *)
}.

Inductive perm_error :=
  | NoUser (e : errno) | BadUid (e : num_error) | GroupError (e : errno)
  | GroupNotFound (name : string) | ChownFailed (uid : Z) (e : errno).

Section permissions.
Context (o : os).

Definition uid (sc : SocketConfig) : Z + perm_error :=
  match (if String.eqb (User sc) "" then os_current_user o else os_lookup_user o (User sc)) with
  | inr e => inr (NoUser e)
  | inl u => match Atoi u with inl v => inl v | inr e => inr (BadUid e) end
  end.

Definition gid (sc : SocketConfig) : Z + perm_error :=
  if String.eqb (Group sc) "" then inl 0
  else match os_getgrnam o (Group sc) with
       | inr e => inr (GroupError e)
       | inl None => inr (GroupNotFound (Group sc))
       | inl (Some g) => inl g
       end.

Definition setPermissions (sc : SocketConfig) : option perm_error :=
  match uid sc with
  | inr e => Some e
  | inl u =>
      match gid sc with
      | inr e => Some e
      | inl g => match os_chown o (SocketName sc) u g with
                 | Some e => Some (ChownFailed u e)
                 | None => None
                 end
      end
  end.
End permissions.

(** ** Fanout ids *)

(** The first loop of [RunTestimony]: the ids set by hand. *)
Inductive id_error := InvalidFanoutID (id : Z) | DuplicateFanoutID (id : Z).

Fixpoint manual_ids (ids : gset Z) (t : list SocketConfig) : gset Z + id_error :=
  match t with
  | [] => inl ids
  | sc :: t =>
      if FanoutID sc <? 0 then inr (InvalidFanoutID (FanoutID sc))
      else if bool_decide (FanoutID sc ∈ ids) then inr (DuplicateFanoutID (FanoutID sc))
      else manual_ids (if 0 <? FanoutID sc then {[FanoutID sc]} ∪ ids else ids) t
  end.

(** [for ids[autoID] { autoID++ }]: as many turns as there are ids suffice. *)
Fixpoint skip_used (fuel : nat) (ids : gset Z) (autoID : Z) : Z :=
  match fuel with
  | O => autoID
  | S fuel => if bool_decide (autoID ∈ ids) then skip_used fuel ids (autoID + 1) else autoID
  end.

Definition next_auto (ids : gset Z) (autoID : Z) : Z := skip_used (S (size ids)) ids autoID.

(** The id of one configuration, and the next automatic one. *)
Definition pick_id (ids : gset Z) (autoID : Z) (sc : SocketConfig) : Z * Z :=
  if 0 <? FanoutID sc then (FanoutID sc, autoID)
  else let a := next_auto ids autoID in (a, a + 1).

(** ** [RunTestimony] *)
(** A configuration that is being served. *)
Record service := Service { sv_conf : SocketConfig; sv_id : Z; sv_socks : list sock }.

(** [log.Fatalf] ends the process. *)
Inductive fatal :=
  | BadID (e : id_error)
  | DuplicateName (name : string)
  | BadSocket (sc : SocketConfig) (e : socket_error)
  | ListenFailed (e : errno)
  | PermissionsFailed (e : perm_error).

Section run.
Context (o : os).

(** The loop [for i := 0; i < sc.FanoutSize; i++]. *)
Fixpoint make_socks (sc : SocketConfig) (fanoutID : Z) (nums : list nat) : list sock + fatal :=
  match nums with
  | [] => inl []
  | i :: nums =>
      match (newSocket (os_kernel o (SocketName sc) (Z.of_nat i)) (os_tcpdump o)
               sc fanoutID (Z.of_nat i)).2 with
      | inr e => inr (BadSocket sc e)
      | inl s => match make_socks sc fanoutID nums with
                 | inr e => inr e
                 | inl socks => inl (s :: socks)
                 end
      end
  end.

(** The second loop; the result is what is being served when it ends, or when the
    process exits. *)
Fixpoint start_all (ids : gset Z) (names : gset string) (autoID : Z) (t : list SocketConfig) :
    list service * option fatal :=
  match t with
  | [] => ([], None)
  | sc :: t =>
      if bool_decide (SocketName sc ∈ names) then ([], Some (DuplicateName (SocketName sc)))
      else
        let names := {[SocketName sc]} ∪ names in
        let '(fanoutID, autoID) := pick_id ids autoID sc in
        match make_socks sc fanoutID (seq 0 (Z.to_nat (FanoutSize sc))) with
        | inr e => ([], Some e)
        | inl socks =>
            match os_listen o (SocketName sc) with
            | Some e => ([], Some (ListenFailed e))
            | None =>
                match setPermissions o sc with
                | Some e => ([], Some (PermissionsFailed e))
                | None =>
                    let '(svs, end_) := start_all ids names autoID t in
                    (Service sc fanoutID socks :: svs, end_)
                end
            end
        end
  end.

Definition RunTestimony (t : list SocketConfig) : list service * option fatal :=
  match manual_ids ∅ t with
  | inr e => ([], Some (BadID e))
  | inl ids => start_all ids ∅ 1 t
  end.
End run.

(** ** [main] of testimonyd *)

(** How [main] ends before it serves, the umask it set, or what it serves. *)
Inductive main_result :=
  | SyslogFailed (e : errno)
  | ConfigUnreadable (e : errno)
  | ConfigUnparsable
  | Serving (umask : Z) (svs : list service) (end_ : option fatal).

(** [decode] is the JSON decoder of the standard library, on the file's bytes. *)
Definition main (o : os) (decode : list byte → option (list SocketConfig))
    (logToSyslog : bool) (syslog : option errno) (confdata : list byte + errno) : main_result :=
  match (if logToSyslog then syslog else None) with
  | Some e => SyslogFailed e
  | None =>
      match confdata with
      | inr e => ConfigUnreadable e
      | inl data =>
          match decode data with
          | None => ConfigUnparsable
          | Some t => let '(svs, e) := RunTestimony o (main_defaults t) in
                      Serving 127 (* 0177 *) svs e
          end
      end
  end.

(** ** Properties *)

(** The automatic id is the first unused one. *)
Lemma skip_used_spec (fuel : nat) (ids : gset Z) (a : Z) :
  let r := skip_used fuel ids a in
  a <= r <= a + Z.of_nat fuel ∧ (∀ x, a <= x < r → x ∈ ids) ∧
  (r ∉ ids ∨ r = a + Z.of_nat fuel).
Proof.
  revert a. induction fuel as [|fuel IH]; intros a; simpl.
  - split_and!; [lia..|intros; lia|right; lia].
  - case_bool_decide as Ha; [|split_and!; [lia..|intros; lia|by left]].
    destruct (IH (a + 1)) as (Hr & Hall & Hend). split_and!; [lia..| |].
    + intros x Hx. destruct (decide (x = a)) as [->|]; [done|]. apply Hall. lia.
    + destruct Hend; [by left|right; lia].
Qed.

Lemma next_auto_spec (ids : gset Z) (a : Z) :
  a <= next_auto ids a ∧ next_auto ids a ∉ ids ∧
  ∀ x, a <= x < next_auto ids a → x ∈ ids.
Proof.
  unfold next_auto. destruct (skip_used_spec (S (size ids)) ids a) as (Hr & Hall & Hend).
  split_and!; [lia| |done]. destruct Hend as [|Hend]; [done|]. exfalso.
  rewrite Hend in Hall.
  assert (list_to_set (seqZ a (Z.of_nat (S (size ids)))) ⊆ ids) as Hsub.
  { intros x Hx%elem_of_list_to_set%elem_of_seqZ. by apply Hall. }
  apply subseteq_size in Hsub. rewrite size_list_to_set in Hsub by apply NoDup_seqZ.
  rewrite length_seqZ in Hsub. lia.
Qed.

(** The ids set by hand. *)
Definition manual (t : list SocketConfig) : list Z := filter (λ i, 0 < i) (FanoutID <$> t).

Lemma manual_cons_pos (sc : SocketConfig) (t : list SocketConfig) :
  0 < FanoutID sc → manual (sc :: t) = FanoutID sc :: manual t.
Proof. intros. unfold manual. simpl. by rewrite filter_cons_True. Qed.

Lemma manual_cons_auto (sc : SocketConfig) (t : list SocketConfig) :
  ¬ 0 < FanoutID sc → manual (sc :: t) = manual t.
Proof. intros. unfold manual. simpl. by rewrite filter_cons_False. Qed.

Lemma manual_ids_spec (t : list SocketConfig) (ids0 ids : gset Z) :
  manual_ids ids0 t = inl ids →
  ids = list_to_set (manual t) ∪ ids0 ∧ NoDup (manual t) ∧
  (∀ i, i ∈ manual t → i ∉ ids0) ∧ Forall (λ sc, 0 <= FanoutID sc) t.
Proof.
  revert ids0. induction t as [|sc t IH]; intros ids0; simpl.
  - intros [= <-]. split_and!; [set_solver|constructor|set_solver|done].
  - destruct (Z.ltb_spec (FanoutID sc) 0) as [|Hnn]; [done|].
    case_bool_decide as Hin; [done|].
    destruct (Z.ltb_spec 0 (FanoutID sc)) as [Hp|Hz]; intros (-> & Hnd & Hdis & Hall)%IH.
    + rewrite manual_cons_pos by done. simpl. split_and!.
      * set_solver.
      * apply NoDup_cons. split; [|done]. intros Hm%Hdis. set_solver.
      * intros i [->|Hi]%elem_of_cons; [done|]. specialize (Hdis i Hi). set_solver.
      * by constructor.
    + rewrite manual_cons_auto by lia. split_and!; try done. by constructor.
Qed.

(** One turn of the second loop: nothing is served, or this configuration is and
    the rest follows. *)
Lemma start_all_cons (o : os) (ids : gset Z) (names : gset string) (a : Z)
    (sc : SocketConfig) (t : list SocketConfig) (svs : list service) (e : option fatal) :
  start_all o ids names a (sc :: t) = (svs, e) →
  svs = [] ∧ is_Some e ∨
  ∃ socks svs', svs = Service sc (pick_id ids a sc).1 socks :: svs' ∧
    SocketName sc ∉ names ∧
    make_socks o sc (pick_id ids a sc).1 (seq 0 (Z.to_nat (FanoutSize sc))) = inl socks ∧
    os_listen o (SocketName sc) = None ∧ setPermissions o sc = None ∧
    start_all o ids ({[SocketName sc]} ∪ names) (pick_id ids a sc).2 t = (svs', e).
Proof.
  simpl. case_bool_decide; [intros; simplify_eq; by left|].
  destruct (pick_id ids a sc) as [id a']. simpl.
  destruct (make_socks _ _ _ _) as [socks|]; [|intros; simplify_eq; by left].
  destruct (os_listen _ _); [intros; simplify_eq; by left|].
  destruct (setPermissions _ _); [intros; simplify_eq; by left|].
  destruct (start_all o ids _ a' t) as [svs' e'] eqn:Hr. intros. simplify_eq.
  right. by exists socks, svs'.
Qed.

(** Where an id comes from: the configuration, or the automatic counter. *)
Definition id_ok (ids : gset Z) (a : Z) (t : list SocketConfig) (sv : service) : Prop :=
  sv_id sv ∈ manual t ∧ sv_id sv = FanoutID (sv_conf sv) ∨
  FanoutID (sv_conf sv) = 0 ∧ a <= sv_id sv ∧ sv_id sv ∉ ids.

(** The ids given out by the second loop. *)
Lemma start_all_ids (o : os) (ids : gset Z) (t : list SocketConfig) (names : gset string)
    (a : Z) (svs : list service) (e : option fatal) :
  NoDup (manual t) → (∀ i, i ∈ manual t → i ∈ ids) → Forall (λ sc, 0 <= FanoutID sc) t →
  start_all o ids names a t = (svs, e) →
  NoDup (sv_id <$> svs) ∧ Forall (id_ok ids a t) svs.
Proof.
  revert names a svs. induction t as [|sc t IH]; intros names a svs Hnd Hids Hnn Hs.
  { simpl in Hs. simplify_eq. split; constructor. }
  apply Forall_cons_iff in Hnn as [Hsc Hnn].
  apply start_all_cons in Hs as [[-> _]|(socks & svs' & -> & _ & _ & _ & _ & Hr)];
    [split; constructor|].
  unfold pick_id in *. destruct (next_auto_spec ids a) as (Hge & Hni & _).
  destruct (Z.ltb_spec 0 (FanoutID sc)) as [Hp|Hz]; simpl in *.
  - unfold id_ok at 1. rewrite manual_cons_pos in * by done.
    apply NoDup_cons in Hnd as [Hni' Hnd].
    destruct (IH _ _ _ Hnd (λ i Hi, Hids i (list_elem_of_further _ _ _ Hi)) Hnn Hr)
      as [IHnd IHall]. split.
    + apply NoDup_cons. split; [|done]. intros (sv & Heq & Hsv)%list_elem_of_fmap.
      rewrite Forall_forall in IHall. destruct (IHall sv Hsv) as [[Hm _]|(_ & _ & Hn)].
      * by rewrite <- Heq in Hm.
      * rewrite <- Heq in Hn. apply Hn, Hids. by left.
    + constructor; [left; split; [by left|done]|]. eapply Forall_impl; [done|].
      intros sv [[]|]; [left; split; [by right|done]|by right].
  - unfold id_ok at 1. rewrite manual_cons_auto in * by lia.
    destruct (IH _ _ _ Hnd Hids Hnn Hr) as [IHnd IHall]. split.
    + apply NoDup_cons. split; [|done]. intros (sv & Heq & Hsv)%list_elem_of_fmap.
      rewrite Forall_forall in IHall. destruct (IHall sv Hsv) as [[Hm _]|(_ & Hlt & _)].
      * apply Hni, Hids. by rewrite Heq.
      * lia.
    + constructor; [right; simpl; split_and!; [lia|lia|done]|]. eapply Forall_impl; [done|].
      intros sv [?|(H0 & Hle & Hn)]; [by left|right; split_and!; [done|lia|done]].
Qed.

(** Names of the services. *)
Lemma start_all_names (o : os) (ids : gset Z) (t : list SocketConfig) (names : gset string)
    (a : Z) (svs : list service) (e : option fatal) :
  start_all o ids names a t = (svs, e) →
  NoDup (SocketName ∘ sv_conf <$> svs) ∧
  Forall (λ sv, SocketName (sv_conf sv) ∉ names) svs ∧
  (sv_conf <$> svs) `prefix_of` t ∧ (e = None → sv_conf <$> svs = t).
Proof.
  revert names a svs. induction t as [|sc t IH]; intros names a svs Hs.
  { simpl in Hs. simplify_eq. split_and!; [constructor|constructor|apply prefix_nil|done]. }
  apply start_all_cons in Hs as [[-> [e0 ->]]|(socks & svs' & -> & Hn & _ & _ & _ & Hr)].
  { split_and!; [constructor|constructor|apply prefix_nil|done]. }
  destruct (IH _ _ _ Hr) as (Hnd & Hall & Hpre & Heq). simpl. split_and!.
  - apply NoDup_cons. split; [|done]. intros (sv & Hsv & Hin)%list_elem_of_fmap.
    rewrite Forall_forall in Hall. specialize (Hall sv Hin). simpl in Hsv. set_solver.
  - constructor; [done|]. eapply Forall_impl; [done|]. set_solver.
  - by apply prefix_cons.
  - intros He. f_equal. by apply Heq.
Qed.

(** The sockets of a service. *)
Lemma make_socks_spec (o : os) (sc : SocketConfig) (id : Z) (nums : list nat)
    (socks : list sock) :
  make_socks o sc id nums = inl socks →
  sock_num <$> socks = Z.of_nat <$> nums ∧ Forall (λ s, sock_conf s = sc) socks.
Proof.
  revert socks. induction nums as [|i nums IH]; intros socks; simpl.
  { intros [= <-]. by split; [|constructor]. }
  destruct (newSocket _ _ sc id (Z.of_nat i)) as [tr [s|]] eqn:Hs; [|done]. cbn [snd].
  destruct (make_socks o sc id nums) as [socks'|]; [|done]. intros [= <-].
  apply newSocket_conf in Hs as [Hc Hi].
  destruct (IH _ eq_refl) as [Hn Hf]. csimpl. rewrite Hn, Hi. split; [done|by constructor].
Qed.

Lemma start_all_socks (o : os) (ids : gset Z) (t : list SocketConfig) (names : gset string)
    (a : Z) (svs : list service) (e : option fatal) :
  start_all o ids names a t = (svs, e) →
  Forall (λ sv, sock_num <$> sv_socks sv =
                  Z.of_nat <$> seq 0 (Z.to_nat (FanoutSize (sv_conf sv))) ∧
                Forall (λ s, sock_conf s = sv_conf sv) (sv_socks sv) ∧
                setPermissions o (sv_conf sv) = None) svs.
Proof.
  revert names a svs. induction t as [|sc t IH]; intros names a svs Hs.
  { simpl in Hs. simplify_eq. constructor. }
  apply start_all_cons in Hs as [[-> _]|(socks & svs' & -> & _ & Hm & _ & Hp & Hr)];
    [constructor|].
  apply make_socks_spec in Hm as [??]. constructor; [done|]. by eapply IH.
Qed.

(** The parts of [RunTestimony]: the checks of the ids, then the second loop. *)
Lemma RunTestimony_inv (o : os) (t : list SocketConfig) (svs : list service)
    (e : option fatal) :
  RunTestimony o t = (svs, e) →
  svs = [] ∧ is_Some e ∨
  NoDup (manual t) ∧ Forall (λ sc, 0 <= FanoutID sc) t ∧
  start_all o (list_to_set (manual t)) ∅ 1 t = (svs, e).
Proof.
  unfold RunTestimony. destruct (manual_ids ∅ t) as [ids|] eqn:Hm.
  - apply manual_ids_spec in Hm as (-> & Hnd & _ & Hnn).
    rewrite (right_id_L ∅ (∪)). auto.
  - intros [= <- <-]. by left.
Qed.

(** C38: the fanout ids in use are pairwise different and positive, a configured
    id is used as it is, and an automatic id never takes one that is configured
    anywhere in the file, whatever the order of the entries. *)
Theorem RunTestimony_ids (o : os) (t : list SocketConfig) (svs : list service)
    (e : option fatal) :
  RunTestimony o t = (svs, e) →
  NoDup (sv_id <$> svs) ∧
  Forall (λ sv, 0 < sv_id sv ∧
    if decide (0 < FanoutID (sv_conf sv)) then sv_id sv = FanoutID (sv_conf sv)
    else sv_id sv ∉ manual t) svs.
Proof.
  intros [[-> _]|(Hnd & Hnn & Hs)]%RunTestimony_inv; [by split; constructor|].
  apply start_all_ids in Hs as [Hids Hok]; [|done|set_solver|done]. split; [done|].
  eapply Forall_impl; [done|]. intros sv.
  intros [[[Hp _]%list_elem_of_filter Heq]|(H0 & Hge & Hni%not_elem_of_list_to_set)].
  - rewrite decide_True by lia. done.
  - rewrite decide_False by lia. split; [lia|done].
Qed.

(** What [RunTestimony] serves: no two entries share a socket name; entries
    are served in the order of the file, all of them unless the process ends
    with a fatal error; and each has exactly [FanoutSize] sockets numbered from
    0, and a socket file whose ownership was set. *)
Theorem RunTestimony_services (o : os) (t : list SocketConfig) (svs : list service)
    (e : option fatal) :
  RunTestimony o t = (svs, e) →
  NoDup (SocketName ∘ sv_conf <$> svs) ∧
  (sv_conf <$> svs) `prefix_of` t ∧ (e = None → sv_conf <$> svs = t) ∧
  Forall (λ sv, sock_num <$> sv_socks sv =
                  Z.of_nat <$> seq 0 (Z.to_nat (FanoutSize (sv_conf sv))) ∧
                Forall (λ s, sock_conf s = sv_conf sv) (sv_socks sv) ∧
                setPermissions o (sv_conf sv) = None) svs.
Proof.
  intros [[-> [e' ->]]|(_ & _ & Hs)]%RunTestimony_inv.
  - split_and!; [constructor|apply prefix_nil|done|constructor].
  - pose proof (start_all_socks _ _ _ _ _ _ _ Hs).
    apply start_all_names in Hs as (? & _ & ? & ?). by split_and!.
Qed.

(** A system that grants everything, and three entries, one with its id set. *)
Definition demo_os : os :=
  Os (inl (print_nat 0)) (λ _, inl (print_nat 1000)) (λ _, inl (Some 50)) (λ _ _ _, None)
     (λ _ _, inl (print_filter demo_prog))
     (λ _ i c, match c with SysSocket => inl (100 + i) | _ => inl 1 end) (λ _, None).

Definition demo_entry (name : string) (id size : Z) : SocketConfig :=
  MkConfig name "eth0" 1048576 16 1000 0 size id "" "" "".

Definition demo_config : list SocketConfig :=
  main_defaults [demo_entry "a" 0 0; demo_entry "b" 1 2; demo_entry "c" 0 1].

Lemma RunTestimony_ids_witness :
  sv_id <$> (RunTestimony demo_os demo_config).1 = [2; 1; 3] ∧
  NoDup (sv_id <$> (RunTestimony demo_os demo_config).1).
Proof.
  split; [vm_compute; reflexivity|].
  apply (RunTestimony_ids demo_os demo_config _ (RunTestimony demo_os demo_config).2).
  vm_compute. reflexivity.
Defined.

Lemma RunTestimony_services_witness :
  (length ∘ sv_socks <$> (RunTestimony demo_os demo_config).1) = [1; 2; 1]%nat ∧
  sv_conf <$> (RunTestimony demo_os demo_config).1 = demo_config.
Proof.
  split; [vm_compute; reflexivity|].
  apply (RunTestimony_services demo_os demo_config _ (RunTestimony demo_os demo_config).2);
    vm_compute; reflexivity.
Defined.

(** ** The fanout argument *)
Lemma fanout_arg_low (id typ : Z) :
  0 <= id < 2 ^ 31 → fanout_arg id typ mod 2 ^ 16 = id mod 2 ^ 16.
Proof.
  intros Hid. unfold fanout_arg. rewrite land_ones16, lor_add_shift by (lia || mach). mach.
Qed.

(** Sockets of different fanout groups get different kernel arguments as long
    as their ids stay below 2^16, whatever the fanout types. *)
Theorem fanout_arg_inj (id1 id2 typ1 typ2 : Z) :
  0 <= id1 < 2 ^ 16 → 0 <= id2 < 2 ^ 16 →
  fanout_arg id1 typ1 = fanout_arg id2 typ2 → id1 = id2.
Proof.
  intros H1 H2 Heq%(f_equal (λ z, z mod 2 ^ 16)).
  rewrite !fanout_arg_low, !Z.mod_small in Heq by (pow2; lia). done.
Qed.

Lemma fanout_arg_inj_witness : fanout_arg 7 1 = fanout_arg 7 1 ∧ 7 = 7.
Proof.
  split; [reflexivity|].
  apply (fanout_arg_inj 7 7 1 1); [pow2; lia|pow2; lia|reflexivity].
Defined.

(** Two entries with ids that [RunTestimony] accepts as different join the same
    fanout group in the kernel. *)
Theorem fanout_id_collision :
  ∃ t svs, RunTestimony demo_os t = (svs, None) ∧
    ∃ a b, a ∈ svs ∧ b ∈ svs ∧ SocketName (sv_conf a) ≠ SocketName (sv_conf b) ∧
      sv_id a ≠ sv_id b ∧
      fanout_arg (int32 (sv_id a)) (int32 (FanoutType (sv_conf a))) =
      fanout_arg (int32 (sv_id b)) (int32 (FanoutType (sv_conf b))).
Proof.
  exists [demo_entry "a" 1 2; demo_entry "b" 65537 2]. eexists.
  split; [vm_compute; reflexivity|].
  eexists _, _. split; [by left|]. split; [by right; left|].
  split_and!; vm_compute; congruence.
Qed.

(** The defaults: every entry that gives no FanoutSize gets one socket, nothing
    else of an entry changes, and filling in the defaults twice is filling them in
    once. *)
Theorem main_defaults_spec (t : list SocketConfig) :
  main_defaults (main_defaults t) = main_defaults t ∧
  Forall2 (λ sc sc',
    FanoutSize sc' ≠ 0 ∧ (FanoutSize sc ≠ 0 → sc' = sc) ∧
    (FanoutSize sc = 0 → FanoutSize sc' = 1) ∧
    (SocketName sc', FanoutID sc', BlockSize sc', NumBlocks sc', User sc', Group sc', Filter sc')
    = (SocketName sc, FanoutID sc, BlockSize sc, NumBlocks sc, User sc, Group sc, Filter sc))
    t (main_defaults t).
Proof.
  unfold main_defaults, default_fanout. split.
  - rewrite <- list_fmap_compose. apply list_fmap_ext. intros i sc _. simpl.
    destruct (Z.eqb_spec (FanoutSize sc) 0) as [|Hne]; simpl; [done|].
    by rewrite (proj2 (Z.eqb_neq _ _)).
  - induction t as [|sc t IH]; constructor; [|done].
    destruct (Z.eqb_spec (FanoutSize sc) 0); simpl; auto with lia.
Qed.
