(* ===== verification/Handshake.v ===== *)
(** * A new connection: [Testimony.handle] of socket/daemon.go

    The server's half of the handshake over a connection: version byte, fanout
    size, block size and block count, the client's fanout index, and the AF_PACKET
    descriptor of the chosen socket.  Every early return closes the connection
    (the deferred function); only the hand-over to [sock.newConns] keeps it. *)

From stdpp Require Import base list numbers option strings.
From Stdlib Require Import ZArith Lia.
From S2P Require Import Prelude Bytes Protocol Cmsg Link Strconv AFPacket Config.

Definition protocolVersion : Z := 2.

(** How [handle] ends when it does not hand the connection over. *)
Inductive handle_error :=
  | VersionFailed (e : io_error)
  | PanicNoSockets                       (* socks[0] of an empty slice *)
  | SizesFailed (e : send_error)
  | ClosedEarly                          (* the client only wanted the sizes *)
  | IndexReadFailed (e : io_error)
  | UnexpectedType (tl : Z)
  | InvalidIndex (idx : Z)
  | FdFailed (e : io_error).

(** The two words of the fanout message; the array has eight bytes. *)
Definition fanout_words (msg : list byte) : Z * Z :=
  (Uint32 (take 4 msg), Uint32 (drop 4 msg)).

Definition send32 (typ val : Z) : prog link send_error unit := try (λ k, SendUint32 k typ val).

Definition read_index_error (e : io_error) : handle_error :=
  match e with EOF => ClosedEarly | e => IndexReadFailed e end.

(** The body of [handle]; the result is the socket whose [newConns] gets [c]. *)
Definition handle_body (socks : list sock) : prog link handle_error sock :=
  wrap VersionFailed (link_write [byte_of protocolVersion]);;
  match socks with
  | [] => exit PanicNoSockets
  | s0 :: _ =>
      let conf := sock_conf s0 in
      wrap SizesFailed (send32 TypeFanoutSize (uint32 (Z.of_nat (length socks))));;
      wrap SizesFailed (send32 TypeBlockSize (uint32 (BlockSize conf)));;
      wrap SizesFailed (send32 TypeNumBlocks (uint32 (NumBlocks conf)));;
      wrap SizesFailed (try (λ k, SendType k TypeWaitingForFanoutIndex));;
      msg ← wrap read_index_error (link_read 8);
      let '(valA, valB) := fanout_words msg in
      check (negb (valA =? ToTL TypeFanoutIndex 4)) (UnexpectedType valA);;
      let idx := valB in
      check ((idx <? 0) || (Z.of_nat (length socks) <=? idx)) (InvalidIndex idx);;
      match socks !! Z.to_nat idx with
      | None => exit (InvalidIndex idx)
      | Some sock =>
          wrap FdFailed (link_write_msg [byte_of 0] (UnixRights [sock_fd sock]));;
          mret sock
      end
  end.

(** With the deferred function. *)
Definition handle (socks : list sock) (k : link) : link * (sock + handle_error) :=
  match handle_body socks k with
  | (k, inl sock) => (k, inl sock)
  | (k, inr e) => (link_close k, inr e)
  end.

(** ** What the server says *)

(** The four messages after the version byte. *)
Definition sizes (n blockSize numBlocks : Z) : list tlv :=
  [(TypeFanoutSize, put_uint32 (uint32 n)); (TypeBlockSize, put_uint32 (uint32 blockSize));
   (TypeNumBlocks, put_uint32 (uint32 numBlocks)); (TypeWaitingForFanoutIndex, [])].

Definition greeting (socks : list sock) : list byte :=
  byte_of protocolVersion ::
  match socks with
  | [] => []
  | s0 :: _ => encode_all (sizes (Z.of_nat (length socks)) (BlockSize (sock_conf s0))
                             (NumBlocks (sock_conf s0)))
  end.

(** The client's answer. *)
Definition index_msg (idx : Z) : list byte := put_uint32 (ToTL TypeFanoutIndex 4) ++ put_uint32 idx.

Lemma sizes_valid (n b m : Z) : Forall tlv_valid (sizes n b m).
Proof.
  unfold sizes. repeat apply Forall_cons_2; [..|apply Forall_nil_2]; (split; [left|]);
    vm_compute; try split; congruence.
Qed.

(** The part of [handle_body] up to the client's answer. *)
Definition greet (socks : list sock) (conf : SocketConfig) : prog link handle_error unit :=
  wrap VersionFailed (link_write [byte_of protocolVersion]);;
  wrap SizesFailed (send32 TypeFanoutSize (uint32 (Z.of_nat (length socks))));;
  wrap SizesFailed (send32 TypeBlockSize (uint32 (BlockSize conf)));;
  wrap SizesFailed (send32 TypeNumBlocks (uint32 (NumBlocks conf)));;
  wrap SizesFailed (try (λ k, SendType k TypeWaitingForFanoutIndex)).

(** And the rest. *)
Definition answer (socks : list sock) : prog link handle_error sock :=
  msg ← wrap read_index_error (link_read 8);
  let '(valA, valB) := fanout_words msg in
  check (negb (valA =? ToTL TypeFanoutIndex 4)) (UnexpectedType valA);;
  check ((valB <? 0) || (Z.of_nat (length socks) <=? valB)) (InvalidIndex valB);;
  match socks !! Z.to_nat valB with
  | None => exit (InvalidIndex valB)
  | Some sock =>
      wrap FdFailed (link_write_msg [byte_of 0] (UnixRights [sock_fd sock]));;
      mret sock
  end.

Lemma handle_body_split (s0 : sock) (socks : list sock) (k : link) :
  handle_body (s0 :: socks) k =
  (greet (s0 :: socks) (sock_conf s0);; answer (s0 :: socks)) k.
Proof.
  unfold handle_body, greet, answer. unfold mbind, prog_bind.
  repeat (match goal with |- context [wrap ?f ?m ?s] =>
    destruct (wrap f m s) as [? []]; try done end).
Qed.

(** The errors of the first part. *)
Definition greet_error (e : handle_error) : Prop :=
  match e with VersionFailed _ | SizesFailed _ => True | _ => False end.

Lemma greet_writes (s0 : sock) (socks : list sock) :
  writes greet_error (greet (s0 :: socks) (sock_conf s0)) (greeting (s0 :: socks)).
Proof.
  pose proof (sizes_valid (Z.of_nat (length (s0 :: socks))) (BlockSize (sock_conf s0))
    (NumBlocks (sock_conf s0))) as Hv.
  unfold greet, greeting. unfold sizes in *.
  apply Forall_cons_iff in Hv as [V1 Hv]. apply Forall_cons_iff in Hv as [V2 Hv].
  apply Forall_cons_iff in Hv as [V3 Hv]. apply Forall_cons_iff in Hv as [V4 _].
  apply (bind_writes _ _ _ [_]); [by eapply wrap_writes, link_write_writes|].
  eapply bind_writes; [by eapply wrap_writes, (send_writes _ V1)|].
  eapply bind_writes; [by eapply wrap_writes, (send_writes _ V2)|].
  eapply bind_writes; [by eapply wrap_writes, (send_writes _ V3)|].
  change (_ ≫= encode) with (tlv_bytes (TypeWaitingForFanoutIndex, []) ++ []).
  rewrite app_nil_r. by eapply wrap_writes, (send_writes _ V4).
Qed.

(** The answer of a client as a function of its first eight bytes. *)
Definition answer_result (socks : list sock) (k : link) : link * (sock + handle_error) :=
  match read_full 8 (k_in k) with
  | inr e => (set_in [] k, inr (read_index_error e))
  | inl (msg, rest) =>
      let k := set_in rest k in
      let '(valA, valB) := fanout_words msg in
      if negb (valA =? ToTL TypeFanoutIndex 4) then (k, inr (UnexpectedType valA))
      else match socks !! Z.to_nat valB with
           | None => (k, inr (InvalidIndex valB))
           | Some s =>
               if bool_decide (0 < k_budget k)%nat
               then (add_ctl (UnixRights [sock_fd s]) (sent [byte_of 0] k), inl s)
               else (k, inr (FdFailed broken_pipe))
           end
  end.

Lemma fanout_words_range (msg : list byte) :
  0 <= (fanout_words msg).1 < 2 ^ 32 ∧ 0 <= (fanout_words msg).2 < 2 ^ 32.
Proof.
  split; apply Uint32_range.
Qed.

Lemma sent_nil (k : link) : sent [] k = k.
Proof. destruct k. unfold sent. simpl. by rewrite app_nil_r, Nat.sub_0_r. Qed.

Lemma answer_eq (socks : list sock) (k : link) : answer socks k = answer_result socks k.
Proof.
  unfold answer, answer_result. unfold mbind, prog_bind, wrap at 1, link_read.
  destruct (read_full 8 (k_in k)) as [[msg rest]|e]; [|done].
  pose proof (fanout_words_range msg) as [_ HB].
  destruct (fanout_words msg) as [valA valB]. simpl in HB.
  destruct (negb (valA =? _)); [done|]. unfold check at 1. cbn [mret prog_ret].
  rewrite (proj2 (Z.ltb_ge valB 0)) by lia. cbn [orb].
  destruct (Z.leb_spec (Z.of_nat (length socks)) valB) as [Hge|Hlt].
  - by rewrite (lookup_ge_None_2 socks) by lia.
  - destruct (socks !! Z.to_nat valB) as [s|] eqn:Hs; [|done].
    unfold check, mret, prog_ret, wrap, link_write_msg, link_write, try, modify.
    unfold mbind, prog_bind, write, link_writer. cbn [length].
    repeat case_bool_decide; try lia; [done|].
    replace (k_budget (set_in rest k)) with 0%nat by lia. by rewrite sent_nil.
Qed.

(** [handle] on a connection that takes the greeting, and on one that does not. *)
Lemma handle_eq (s0 : sock) (socks : list sock) (k : link) :
  let g := greeting (s0 :: socks) in
  ((length g ≤ k_budget k)%nat →
     handle (s0 :: socks) k =
       match answer_result (s0 :: socks) (sent g k) with
       | (k, inl s) => (k, inl s)
       | (k, inr e) => (link_close k, inr e)
       end) ∧
  ((k_budget k < length g)%nat →
     ∃ e, handle (s0 :: socks) k = (link_close (sent (take (k_budget k) g) k), inr e) ∧
          greet_error e).
Proof.
  intros g. destruct (greet_writes s0 socks k) as [Hok Hko]. fold g in Hok, Hko.
  unfold handle. rewrite handle_body_split. split; intros Hb.
  - by rewrite (bind_inl _ _ _ _ _ (Hok Hb)), answer_eq.
  - destruct (Hko Hb) as (e & He & HP). exists e. by rewrite (bind_inr _ _ _ _ _ He).
Qed.

(** The eight bytes of a client's answer. *)
Lemma fanout_words_msg (idx : Z) :
  0 <= idx < 2 ^ 32 → fanout_words (index_msg idx) = (ToTL TypeFanoutIndex 4, idx).
Proof.
  intros Hi. unfold fanout_words, index_msg.
  rewrite take_app_length' by done. rewrite drop_app_length' by done.
  by rewrite !Uint32_put, (uint32_small idx).
Qed.

Lemma fanout_words_inv (msg : list byte) (idx : Z) :
  length msg = 8%nat → fanout_words msg = (ToTL TypeFanoutIndex 4, idx) →
  msg = index_msg idx ∧ 0 <= idx < 2 ^ 32.
Proof.
  intros Hl Hw. pose proof (fanout_words_range msg) as [_ HB]. rewrite Hw in HB. split; [|done].
  destruct msg as [|a0 [|a1 [|a2 [|a3 [|a4 [|a5 [|a6 [|a7 [|? ?]]]]]]]]]; try done.
  unfold fanout_words in Hw. unfold Uint32 in Hw. cbn [take drop uint32_of default from_option id] in Hw.
  apply (f_equal (λ p, put_uint32 p.1 ++ put_uint32 p.2)) in Hw. cbn [fst snd] in Hw.
  by rewrite !put_uint32_of in Hw.
Qed.

Lemma read_full_inl_iff (n : nat) (s bs rest : list byte) :
  read_full n s = inl (bs, rest) ↔ s = bs ++ rest ∧ length bs = n.
Proof. split; [apply read_full_inl|]. intros [-> <-]. apply read_full_app. Qed.

(** When the answer is accepted. *)
Lemma answer_accepts (socks : list sock) (k k' : link) (s : sock) :
  answer_result socks k = (k', inl s) ↔
  ∃ idx rest, k_in k = index_msg idx ++ rest ∧ 0 <= idx < 2 ^ 32 ∧
    socks !! Z.to_nat idx = Some s ∧ (0 < k_budget k)%nat ∧
    k' = add_ctl (UnixRights [sock_fd s]) (sent [byte_of 0] (set_in rest k)).
Proof.
  unfold answer_result. split.
  - destruct (read_full 8 (k_in k)) as [[msg rest]|] eqn:Hr; [|done].
    apply read_full_inl in Hr as [Hin Hl].
    destruct (fanout_words msg) as [valA valB] eqn:Hw.
    destruct (Z.eqb_spec valA (ToTL TypeFanoutIndex 4)) as [->|]; [|done]. cbn [negb].
    destruct (fanout_words_inv msg valB Hl Hw) as [-> ?].
    destruct (socks !! Z.to_nat valB) as [s'|] eqn:Hs; [|done].
    case_bool_decide; [|done]. intros [= <- <-]. by exists valB, rest.
  - intros (idx & rest & Hin & Hi & Hs & Hb & ->). rewrite Hin.
    rewrite (read_full_app (index_msg idx) rest : read_full 8 _ = _).
    rewrite fanout_words_msg, Z.eqb_refl by done. cbn [negb]. by rewrite Hs, bool_decide_true.
Qed.

Lemma answer_refuses (socks : list sock) (k k' : link) (e : handle_error) :
  answer_result socks k = (k', inr e) → ∃ rest, k' = set_in rest k.
Proof.
  unfold answer_result. destruct (read_full 8 (k_in k)) as [[msg rest]|]; [|naive_solver].
  destruct (fanout_words msg). destruct (negb _); [naive_solver|].
  destruct (socks !! _); [|naive_solver]. case_bool_decide; naive_solver.
Qed.

Lemma handle_accepts (socks : list sock) (k k' : link) (s : sock) :
  handle socks k = (k', inl s) ↔
  ∃ idx rest, k_in k = index_msg idx ++ rest ∧ 0 <= idx < 2 ^ 32 ∧
    socks !! Z.to_nat idx = Some s ∧ (length (greeting socks) < k_budget k)%nat ∧
    k' = add_ctl (UnixRights [sock_fd s])
           (sent (greeting socks ++ [byte_of 0]) (set_in rest k)).
Proof.
  destruct socks as [|s0 socks].
  { split; [|naive_solver]. unfold handle, handle_body, mbind, prog_bind, wrap, exit.
    by destruct (link_write _ k) as [? []]. }
  destruct (handle_eq s0 socks k) as [Hok Hko]. set (g := greeting _) in *.
  destruct (decide (length g ≤ k_budget k)%nat) as [Hle|Hgt].
  - rewrite (Hok Hle). transitivity (answer_result (s0 :: socks) (sent g k) = (k', inl s)).
    { destruct (answer_result _ _) as [? []]; naive_solver. }
    rewrite answer_accepts. cbn [sent k_in k_budget].
    split; intros (idx & rest & Hin & Hi & Hs & Hb & ->); exists idx, rest;
      (split_and!; [done|lia|lia|done|lia|by rewrite <- sent_sent]).
  - destruct Hko as (e & -> & _); [lia|]. split; [done|]. naive_solver lia.
Qed.

(** C25: exactly when a client gets a descriptor: the transport took the whole
    greeting and the message after it, and the client answered with a
    FanoutIndex message that names a socket of this service.  The client is then
    handed to that socket and nothing it sent after the answer is lost. *)
Theorem handle_hands_over (socks : list sock) (k k' : link) (s : sock) :
  handle socks k = (k', inl s) ↔
  ∃ idx rest, k_in k = index_msg idx ++ rest ∧ 0 <= idx < 2 ^ 32 ∧
    socks !! Z.to_nat idx = Some s ∧ (length (greeting socks) < k_budget k)%nat ∧
    k' = add_ctl (UnixRights [sock_fd s])
           (sent (greeting socks ++ [byte_of 0]) (set_in rest k)).
Proof. apply handle_accepts. Qed.

(** Whenever it is not, the connection is closed. *)
Lemma handle_refuses (socks : list sock) (k k' : link) (e : handle_error) :
  handle socks k = (k', inr e) →
  k_closed k' = true ∧ k_ctl k' = k_ctl k ∧
  ∃ p, k_out k' = k_out k ++ p ∧ p `prefix_of` greeting socks.
Proof.
  destruct socks as [|s0 socks].
  { unfold handle, handle_body, mbind, prog_bind, wrap, exit.
    destruct (link_write_writes [byte_of protocolVersion] k) as [Hok Hko].
    destruct (decide (1 ≤ k_budget k)%nat) as [Hle|Hgt].
    - rewrite (Hok Hle). intros [= <- <-]. split_and!; [done..|]. by eexists.
    - destruct Hko as (e' & -> & _); [simpl; lia|]. intros [= <- <-]. split_and!; [done..|].
      eexists. split; [done|]. apply prefix_take. }
  destruct (handle_eq s0 socks k) as [Hok Hko]. set (g := greeting _) in *.
  destruct (decide (length g ≤ k_budget k)%nat) as [Hle|Hgt].
  - rewrite (Hok Hle). destruct (answer_result _ _) as [k1 [|e1]] eqn:Ha; [done|].
    apply answer_refuses in Ha as [rest ->]. intros [= <- <-].
    split_and!; [done..|]. by exists g.
  - destruct Hko as (e' & -> & _); [lia|]. intros [= <- <-]. split_and!; [done..|].
    eexists. split; [done|]. apply prefix_take.
Qed.

(** Whenever [handle] does not hand the connection over it closes it, no
    descriptor left the daemon, and what was written is a prefix of the greeting. *)
Theorem handle_error_closes (socks : list sock) (k k' : link) (e : handle_error) :
  handle socks k = (k', inr e) →
  k_closed k' = true ∧ k_ctl k' = k_ctl k ∧
  ∃ p, k_out k' = k_out k ++ p ∧ p `prefix_of` greeting socks.
Proof. apply handle_refuses. Qed.

(** The server's answer to every kind of wrong client, on a connection that
    takes the greeting: a client that says nothing only gathers the sizes, a
    truncated answer, an answer of another type and an index without a socket are
    told apart. *)
Theorem handle_rejections (s0 : sock) (socks : list sock) (k : link) :
  let all := s0 :: socks in
  (length (greeting all) < k_budget k)%nat →
  (k_in k = [] → (handle all k).2 = inr ClosedEarly) ∧
  ((0 < length (k_in k) < 8)%nat → (handle all k).2 = inr (IndexReadFailed ErrUnexpectedEOF)) ∧
  (∀ valA valB rest, k_in k = put_uint32 valA ++ put_uint32 valB ++ rest →
     0 <= valA < 2 ^ 32 → 0 <= valB < 2 ^ 32 →
     (valA ≠ ToTL TypeFanoutIndex 4 → (handle all k).2 = inr (UnexpectedType valA)) ∧
     (valA = ToTL TypeFanoutIndex 4 → Z.of_nat (length all) <= valB →
        (handle all k).2 = inr (InvalidIndex valB))).
Proof.
  intros all Hb. destruct (handle_eq s0 socks k) as [Hok _]. fold all in Hok.
  rewrite Hok by lia. unfold answer_result. cbn [sent k_in]. split_and!.
  - by intros ->.
  - intros Hl. unfold read_full. rewrite bool_decide_false by lia.
    by destruct (k_in k) as [|? ?]; simpl in Hl; [lia|].
  - intros valA valB rest -> HA HB. rewrite app_assoc.
    rewrite (read_full_app (put_uint32 valA ++ put_uint32 valB) rest : read_full 8 _ = _).
    assert (fanout_words (put_uint32 valA ++ put_uint32 valB) = (valA, valB)) as ->.
    { unfold fanout_words. rewrite take_app_length' by done. rewrite drop_app_length' by done.
      by rewrite !Uint32_put, !uint32_small. }
    split.
    + intros Hne. by rewrite (proj2 (Z.eqb_neq _ _) Hne).
    + intros -> Hge. rewrite Z.eqb_refl. cbn [negb].
      by rewrite (lookup_ge_None_2 all) by lia.
Qed.

(** ** The accept loop: [Testimony.run]

    Each connection is handled by a goroutine of its own and they share nothing
    but the sockets, so the results can be listed; a failed accept ends the
    process. *)
Fixpoint run (socks : list sock) (accepts : list (link + errno)) :
    list (link * (sock + handle_error)) * option errno :=
  match accepts with
  | [] => ([], None)
  | inr e :: _ => ([], Some e)
  | inl c :: accepts =>
      let '(rs, e) := run socks accepts in (handle socks c :: rs, e)
  end.

(** Concrete connections. *)
Definition demo_socks : list sock :=
  [Sock (demo_entry "a" 0 2) 0 11; Sock (demo_entry "a" 0 2) 1 12].

Definition demo_link (bs : list byte) : link := Link bs [] [] [] 100 false.

Lemma handle_error_closes_witness :
  k_closed (handle demo_socks (demo_link (index_msg 2))).1 = true.
Proof.
  eapply (handle_error_closes demo_socks (demo_link (index_msg 2)) _ (InvalidIndex 2)).
  vm_compute. reflexivity.
Defined.

Lemma handle_rejections_witness :
  (handle demo_socks (demo_link (index_msg 7))).2 = inr (InvalidIndex 7).
Proof.
  apply (handle_rejections (Sock (demo_entry "a" 0 2) 0 11) [Sock (demo_entry "a" 0 2) 1 12]
           (demo_link (index_msg 7)) ltac:(vm_compute; lia)) with (rest := []) (valA := ToTL TypeFanoutIndex 4);
    vm_compute; try split; congruence.
Defined.

(** A negative FanoutSize passes every check of [main] and [RunTestimony], and
    then the first client that connects crashes the daemon. *)
Theorem negative_fanout_crashes :
  ∃ t svs sv, main_defaults t = t ∧ RunTestimony demo_os t = (svs, None) ∧ sv ∈ svs ∧
    ∀ k, (0 < k_budget k)%nat → (handle (sv_socks sv) k).2 = inr PanicNoSockets.
Proof.
  exists [demo_entry "a" 0 (-1)]. eexists _, _.
  split; [vm_compute; reflexivity|]. split; [vm_compute; reflexivity|].
  split; [by left|]. intros k Hk. cbn [sv_socks]. unfold handle, handle_body.
  rewrite (bind_inl _ _ k (sent [byte_of protocolVersion] k) tt); [done|].
  unfold wrap. rewrite (proj1 (link_write_writes [byte_of protocolVersion] k)); [done|].
  simpl. lia.
Qed.

Lemma handle_some_socket (s0 : sock) (socks : list sock) (k : link) :
  (handle (s0 :: socks) k).2 ≠ inr PanicNoSockets.
Proof.
  destruct (handle_eq s0 socks k) as [Hok Hko].
  destruct (decide (length (greeting (s0 :: socks)) ≤ k_budget k)%nat) as [Hle|Hgt].
  - rewrite (Hok Hle). unfold answer_result.
    destruct (read_full 8 _) as [[msg rest]|[]]; [|done..].
    destruct (fanout_words msg). destruct (negb _); [done|].
    destruct ((s0 :: socks) !! _); [|done]. by case_bool_decide.
  - destruct Hko as (e' & -> & HP); [lia|]. by intros [= ->].
Qed.

(** A service made by [RunTestimony] from a positive FanoutSize never meets that
    crash, whatever its clients do. *)
Theorem handle_no_panic (o : os) (t : list SocketConfig) (svs : list service)
    (e : option fatal) (sv : service) (accepts : list (link + errno)) :
  RunTestimony o t = (svs, e) → sv ∈ svs → 0 < FanoutSize (sv_conf sv) →
  Forall (λ r, r.2 ≠ inr PanicNoSockets) (run (sv_socks sv) accepts).1.
Proof.
  intros Hr Hsv Hpos.
  assert (∃ s0 socks, sv_socks sv = s0 :: socks) as (s0 & socks & ->).
  { apply RunTestimony_inv in Hr as [[-> _]|(_ & _ & Hs)]; [by apply elem_of_nil in Hsv|].
    apply start_all_socks in Hs. rewrite Forall_forall in Hs. destruct (Hs sv Hsv) as [Hn _].
    destruct (sv_socks sv); [|by eauto].
    apply (f_equal length) in Hn. rewrite !length_fmap, length_seq in Hn. simpl in Hn. lia. }
  induction accepts as [|[c|] accepts IH]; simpl; [constructor| |constructor].
  destruct (run (s0 :: socks) accepts) as [rs err]. simpl in *. constructor; [|done].
  apply handle_some_socket.
Qed.

Lemma handle_no_panic_witness :
  Forall (λ r, r.2 ≠ inr PanicNoSockets)
    (run [Sock (demo_entry "a" 0 2) 0 100; Sock (demo_entry "a" 0 2) 1 101]
         [inl (demo_link []); inl (demo_link (index_msg 1)); inr 24]).1.
Proof.
  eapply (handle_no_panic demo_os [demo_entry "a" 0 2] _ None
            (Service (demo_entry "a" 0 2) 1
               [Sock (demo_entry "a" 0 2) 0 100; Sock (demo_entry "a" 0 2) 1 101])).
  - vm_compute. reflexivity.
  - left.
  - reflexivity.
Defined.
