(* ===== verification/Client.v ===== *)
(** * The client library: go/testimony/testimony.go

    [Connect], [Init], [Close], [Conn.Block] and [Block.Return] over a connection,
    with the results of the system calls as parameters.  Memory that is mapped is
    shared with the kernel, so a slice of it is an offset and a length, and its
    contents are an argument of what reads them (see Packets). *)

From stdpp Require Import base list numbers option sets.
From Stdlib Require Import ZArith Lia.
From S2P Require Import Prelude Bytes Protocol Cmsg Link.

Definition protocolVersion : Z := 2.

Record Conn := MkConn {
  t_c : option link;          (* nil after Close *)
  t_fd : Z;
  t_ring : option Z;          (* length of the mapped region *)
  t_numBlocks : Z;
  t_blockSize : Z;
  t_fanoutSize : Z;
}.

(** [&Conn{}] *)
Definition zero_conn : Conn := MkConn None 0 None 0 0 0.

Definition set_c (c : option link) (t : Conn) : Conn :=
  MkConn c (t_fd t) (t_ring t) (t_numBlocks t) (t_blockSize t) (t_fanoutSize t).
Definition set_fd (fd : Z) (t : Conn) : Conn :=
  MkConn (t_c t) fd (t_ring t) (t_numBlocks t) (t_blockSize t) (t_fanoutSize t).
Definition set_ring (r : option Z) (t : Conn) : Conn :=
  MkConn (t_c t) (t_fd t) r (t_numBlocks t) (t_blockSize t) (t_fanoutSize t).
Definition set_numBlocks (n : Z) (t : Conn) : Conn :=
  MkConn (t_c t) (t_fd t) (t_ring t) n (t_blockSize t) (t_fanoutSize t).
Definition set_blockSize (n : Z) (t : Conn) : Conn :=
  MkConn (t_c t) (t_fd t) (t_ring t) (t_numBlocks t) n (t_fanoutSize t).
Definition set_fanoutSize (n : Z) (t : Conn) : Conn :=
  MkConn (t_c t) (t_fd t) (t_ring t) (t_numBlocks t) (t_blockSize t) n.

(** What the system calls of the library return; [None] is success. *)
Record sys := Sys {
  sys_munmap : option Z;
  sys_close : Z → option Z;
  sys_conn_close : option Z;
  sys_mmap : Z → Z → option Z;        (* descriptor, length *)
}.

Inductive client_error :=
  | DialFailed (e : Z)
  | VersionRead (e : io_error) | VersionMismatch (got : Z)
  | TLRead (e : io_error) | BadInitialType (typ : Z) | ValRead (e : io_error)
  | BadLength (typ len : Z) | MissingSizes
  | IndexWrite (e : send_error)
  | FdRead (e : io_error) | WrongBytes (n : Z) | TooManyOob (n : Z)
  | CmsgParse (e : Z) | WrongCmsgs (n : Z) | RightsParse (e : Z) | WrongFds (n : Z)
  | MmapFailed (e : Z)
  | BlockRead (e : io_error) | BlockVal (typ len : Z) (e : io_error)
  | NotServerToClient (typ : Z) | BadIndex (idx : Z)
  | ReturnWrite (e : io_error)
  | NilConn                           (* use of a connection after Close *)
  | PanicSlice (low high : Z)         (* slice bounds out of range *)
  | PanicNilBlock                     (* use of a block after Return *)
  | OutOfFuel.                        (* not an outcome of the code: see below *)

Section client.
Context (os : sys).

(** ** Close *)

(** Each of the three resources, in the order of the code; the last error wins. *)
Definition close_ring (t : Conn) (ret : option Z) : Conn * option Z :=
  match t_ring t with
  | None => (t, ret)
  | Some _ => match sys_munmap os with
              | Some e => (t, Some e)
              | None => (set_ring None t, ret)
              end
  end.

Definition close_fd (t : Conn) (ret : option Z) : Conn * option Z :=
  if t_fd t =? 0 then (t, ret)
  else match sys_close os (t_fd t) with
       | Some e => (t, Some e)
       | None => (set_fd 0 t, ret)
       end.

Definition close_c (t : Conn) (ret : option Z) : Conn * option Z :=
  match t_c t with
  | None => (t, ret)
  | Some _ => match sys_conn_close os with
              | Some e => (t, Some e)
              | None => (set_c None t, ret)
              end
  end.

Definition Close (t : Conn) : Conn * option Z :=
  let '(t, ret) := close_ring t None in
  let '(t, ret) := close_fd t ret in
  close_c t ret.

(** ** Access to the connection *)

(** A read or a write of [t.c]. *)
Definition on_c {E A} (f : E → client_error) (m : prog link E A) : prog Conn client_error A :=
  λ t, match t_c t with
       | None => (t, inr NilConn)
       | Some k => let '(k, r) := m k in
                   (set_c (Some k) t, match r with inl a => inl a | inr e => inr (f e) end)
       end.

(** The bytes still to come, which bound the turns of the reading loops: every
    turn takes at least the four bytes of a word. *)
Definition loop_bound (t : Conn) : nat :=
  match t_c t with None => 1 | Some k => S (length (k_in k)) end.

(** ** Connect *)
Definition switch_type (typ length : Z) (val : list byte) (continue : prog Conn client_error unit) :
    prog Conn client_error unit :=
  if typ =? TypeWaitingForFanoutIndex then mret tt
  else if typ =? TypeFanoutSize then
    check (negb (length =? 4)) (BadLength typ length);;
    modify (set_fanoutSize (Uint32 val));; continue
  else if typ =? TypeBlockSize then
    check (negb (length =? 4)) (BadLength typ length);;
    modify (set_blockSize (Uint32 val));; continue
  else if typ =? TypeNumBlocks then
    check (negb (length =? 4)) (BadLength typ length);;
    modify (set_numBlocks (Uint32 val));; continue
  else continue.

(** The loop labelled [tlvLoop]. *)
Fixpoint tlvLoop (fuel : nat) : prog Conn client_error unit :=
  match fuel with
  | O => exit OutOfFuel
  | S fuel =>
      buf ← on_c TLRead (link_read 4);
      let '(typ, length) := TLFrom (Uint32 buf) in
      check (negb (TypeOf typ =? TypeServerToClient)) (BadInitialType typ);;
      val ← on_c ValRead (link_read (Z.to_nat length));
      switch_type typ length val (tlvLoop fuel)
  end.

Definition Connect_body (dial : link + Z) : prog Conn client_error unit :=
  match dial with
  | inr e => exit (DialFailed e)
  | inl k =>
      modify (set_c (Some k));;
      version ← on_c VersionRead (link_read 1);
      check (negb (bool_decide (version = [byte_of protocolVersion])))
            (VersionMismatch (byte_val (default Byte.x00 (head version))));;
      reads (λ t, tlvLoop (loop_bound t));;
      reads (λ t, check ((t_fanoutSize t <=? 0) || (t_blockSize t <=? 0) || (t_numBlocks t <=? 0))
                        MissingSizes)
  end.

(** With the deferred Close; the connection is what [t] is at the end. *)
Definition Connect (dial : link + Z) : Conn * option client_error :=
  match Connect_body dial zero_conn with
  | (t, inl _) => (t, None)
  | (t, inr e) => ((Close t).1, Some e)
  end.

(** ** Init *)
Definition oob_size : nat := 1024.

(** [syscall.Mmap]: the package refuses a length that is not positive. *)
Definition mmap (fd len : Z) : option Z :=
  if len <=? 0 then Some EINVAL else sys_mmap os fd len.

(** The descriptor in the control data. *)
Definition parse_fd (oob : list byte) : Z + client_error :=
  match ParseSocketControlMessage oob with
  | inr e => inr (CmsgParse e)
  | inl [m] =>
      match ParseUnixRights m with
      | inr e => inr (RightsParse e)
      | inl [fd] => inl fd
      | inl fds => inr (WrongFds (Z.of_nat (length fds)))
      end
  | inl ms => inr (WrongCmsgs (Z.of_nat (length ms)))
  end.

Definition Init_body (fanoutIndex : Z) : prog Conn client_error unit :=
  on_c IndexWrite (try (λ k, SendUint32 k TypeFanoutIndex (uint32 fanoutIndex)));;
  '(msg, oob) ← on_c FdRead (link_read_msg 1 oob_size);
  check (negb (length msg =? 1)%nat) (WrongBytes (Z.of_nat (length msg)));;
  check (oob_size <=? length oob)%nat (TooManyOob (Z.of_nat (length oob)));;
  match parse_fd oob with
  | inr e => exit e
  | inl fd =>
      modify (set_fd fd);;
      reads (λ t,
        let len := int64 (t_blockSize t * t_numBlocks t) in
        match mmap fd len with
        | Some e => modify (set_ring None);; exit (MmapFailed e)
        | None => modify (set_ring (Some len))
        end)
  end.

Definition Init (fanoutIndex : Z) (t : Conn) : Conn * option client_error :=
  match Init_body fanoutIndex t with
  | (t, inl _) => (t, None)
  | (t, inr e) => ((Close t).1, Some e)
  end.

(** ** Blocks *)

(** A slice of the mapped region. *)
Record slice := Slice { sl_off : Z; sl_len : Z }.

Record Block := MkBlock {
  b_t : bool;                 (* b.t is not nil *)
  b_i : Z;
  b_B : slice;
  b_offset : Z;
  b_left : Z;
  b_pkt : option Z;           (* where in b.B the current packet's header is *)
}.

(** [t.ring[low:high]], with Go's bounds check. *)
Definition slice_ring (low high : Z) (t : Conn) : option slice :=
  let len := default 0 (t_ring t) in
  if (0 <=? low) && (low <=? high) && (high <=? len) then Some (Slice low (high - low)) else None.

(** The loop labelled [readLoop]. *)
Fixpoint readLoop (fuel : nat) : prog Conn client_error Z :=
  match fuel with
  | O => exit OutOfFuel
  | S fuel =>
      m ← on_c BlockRead (link_read 4);
      let num := Uint32 m in
      let '(typ, length) := TLFrom num in
      if TypeOf typ =? TypeBlockIndex then mret num
      else if TypeOf typ =? TypeServerToClient then
        on_c (BlockVal typ length) (link_read (Z.to_nat length));; readLoop fuel
      else exit (NotServerToClient typ)
  end.

Definition Conn_Block : prog Conn client_error Block :=
  idx ← reads (λ t, readLoop (loop_bound t));
  reads (λ t,
    check ((idx <? 0) || (t_numBlocks t <=? idx)) (BadIndex idx);;
    let start := int64 (idx * t_blockSize t) in
    let stop := int64 (start + t_blockSize t) in
    match slice_ring start stop t with
    | None => exit (PanicSlice start stop)
    | Some B => mret (MkBlock true idx B 0 0 None)
    end).

(** [Block.Return]: the block as it is left behind. *)
Definition Return (b : Block) : prog Conn client_error Block :=
  if b_t b then
    on_c ReturnWrite (link_write (put_uint32 (uint32 (b_i b))));;
    mret (MkBlock false 0 (Slice 0 0) (b_offset b) (b_left b) (b_pkt b))
  else exit PanicNilBlock.
End client.

(** ** Reading messages *)

(** Where a reading program has got to: the rest of the bytes. *)
Definition at_rest (k : link) (rest : list byte) (t : Conn) : Conn :=
  set_c (Some (set_in rest k)) t.

Lemma on_c_read_app {f : io_error → client_error} (t : Conn) (k : link) (bs rest : list byte)
    (n : nat) :
  t_c t = Some k → k_in k = bs ++ rest → length bs = n →
  on_c f (link_read n) t = (at_rest k rest t, inl bs).
Proof. intros Ht Hk Hl. unfold on_c. rewrite Ht. by rewrite (link_read_app k bs rest). Qed.

(** A read succeeds on the bytes at the front or fails with a reading error. *)
Lemma on_c_read_inv (f : io_error → client_error) (n : nat) (t t' : Conn)
    (r : list byte + client_error) :
  on_c f (link_read n) t = (t', r) →
  (∃ bs k rest, r = inl bs ∧ t_c t = Some k ∧ k_in k = bs ++ rest ∧ length bs = n ∧
                t' = at_rest k rest t) ∨
  (∃ e, r = inr e ∧ (e = NilConn ∧ t' = t ∨ (∃ e', e = f e') ∧ ∃ k, t' = set_c (Some k) t)).
Proof.
  unfold on_c. destruct (t_c t) as [k|] eqn:Ht; [|naive_solver].
  unfold link_read. destruct (read_full n (k_in k)) as [[bs rest]|e] eqn:Hr.
  - apply read_full_inl in Hr as [Hk Hl]. intros [= <- <-]. left. by exists bs, k, rest.
  - intros [= <- <-]. right. eexists. split; [done|]. right. eauto.
Qed.

Lemma loop_bound_read (k : link) (bs rest : list byte) (t : Conn) :
  t_c t = Some k → k_in k = bs ++ rest →
  loop_bound t = (length bs + loop_bound (at_rest k rest t))%nat.
Proof. intros Ht Hk. unfold loop_bound. rewrite Ht, Hk, length_app. simpl. lia. Qed.

(** The range of the server's types. *)
Definition server_type (typ : Z) : Prop := TypeServerToClient < typ < TypeClientToServer.

Lemma server_type_sendable (typ : Z) : server_type typ → sendable typ.
Proof. by left. Qed.

Lemma TypeOf_server (typ : Z) : server_type typ → TypeOf typ = TypeServerToClient.
Proof.
  intros Hs. pose proof (sendable_range typ (or_introl Hs)). unfold server_type, TypeOf in *.
  rewrite type_top_bit, (proj2 (Z.ltb_ge typ _)) by (pow2; lia).
  by rewrite (proj2 (Z.ltb_lt _ typ)), (proj2 (Z.ltb_lt typ _)) by lia.
Qed.

(** A message of the server. *)
Definition server_msg (m : tlv) : Prop := server_type m.1 ∧ Z.of_nat (length m.2) <= 0xFFFF.

Lemma server_msg_valid (m : tlv) : server_msg m → tlv_valid m.
Proof. intros [??]. split; [by left|done]. Qed.

#[export] Instance server_msg_dec m : Decision (server_msg m).
Proof. unfold server_msg, server_type. apply _. Defined.

(** One turn of [tlvLoop] on such a message. *)
Lemma tlvLoop_msg (fuel : nat) (t : Conn) (k : link) (m : tlv) (rest : list byte) :
  server_msg m → t_c t = Some k → k_in k = tlv_bytes m ++ rest →
  tlvLoop (S fuel) t =
    switch_type m.1 (Z.of_nat (length m.2)) m.2 (tlvLoop fuel) (at_rest k rest t).
Proof.
  intros Hm Ht Hk. destruct (tlv_word m (server_msg_valid m Hm)) as [Hx HT].
  unfold tlv_bytes in Hk. rewrite <- app_assoc in Hk. cbn [tlvLoop].
  rewrite (bind_inl _ _ _ _ _ (on_c_read_app t k _ _ 4 Ht Hk eq_refl)).
  rewrite Uint32_put, (uint32_small (ToTL _ _)), HT by (pow2; lia).
  rewrite TypeOf_server, Z.eqb_refl by apply Hm. cbn [negb].
  rewrite (bind_inl _ _ _ (at_rest k (m.2 ++ rest) t) tt) by done. rewrite Nat2Z.id.
  rewrite (bind_inl _ _ _ (at_rest k rest t) m.2); [done|].
  by apply (on_c_read_app (at_rest k (m.2 ++ rest) t) (set_in (m.2 ++ rest) k)).
Qed.

(** What a message tells the client. *)
Definition learn (t : Conn) (m : tlv) : Conn :=
  if m.1 =? TypeFanoutSize then set_fanoutSize (Uint32 m.2) t
  else if m.1 =? TypeBlockSize then set_blockSize (Uint32 m.2) t
  else if m.1 =? TypeNumBlocks then set_numBlocks (Uint32 m.2) t
  else t.

(** The messages [Connect] accepts before the last one: any server message, known
    or not, whose sizes have four bytes. *)
Definition greeting_msg (m : tlv) : Prop :=
  server_msg m ∧ m.1 ≠ TypeWaitingForFanoutIndex ∧
  (m.1 ∈ [TypeFanoutSize; TypeBlockSize; TypeNumBlocks] → length m.2 = 4%nat).

#[export] Instance greeting_msg_dec m : Decision (greeting_msg m).
Proof. unfold greeting_msg. apply _. Defined.

Lemma switch_type_learn (m : tlv) (continue : prog Conn client_error unit) (t : Conn) :
  greeting_msg m →
  switch_type m.1 (Z.of_nat (length m.2)) m.2 continue t = continue (learn t m).
Proof.
  intros (_ & Hw & Hl). unfold switch_type, learn. rewrite (proj2 (Z.eqb_neq _ _) Hw).
  destruct (Z.eqb_spec m.1 TypeFanoutSize) as [E|]; [by rewrite Hl by (rewrite E; set_solver)|].
  destruct (Z.eqb_spec m.1 TypeBlockSize) as [E|]; [by rewrite Hl by (rewrite E; set_solver)|].
  destruct (Z.eqb_spec m.1 TypeNumBlocks) as [E|]; [by rewrite Hl by (rewrite E; set_solver)|].
  done.
Qed.

Lemma learn_c (t : Conn) (m : tlv) : t_c (learn t m) = t_c t.
Proof. unfold learn. by repeat case_match. Qed.

Lemma learn_at_rest (k : link) (rest : list byte) (t : Conn) (m : tlv) :
  learn (at_rest k rest t) m = at_rest k rest (learn t m).
Proof. unfold learn. by repeat case_match. Qed.

Lemma foldl_learn_at_rest (k : link) (rest : list byte) (t : Conn) (ms : list tlv) :
  foldl learn (at_rest k rest t) ms = at_rest k rest (foldl learn t ms).
Proof.
  revert t. induction ms as [|m ms IH]; intros t; simpl; [done|]. by rewrite learn_at_rest.
Qed.

Lemma tlvLoop_learns (ms : list tlv) (w rest : list byte) (fuel : nat) (t : Conn) (k : link) :
  Forall greeting_msg ms → Z.of_nat (length w) <= 0xFFFF → (length ms < fuel)%nat →
  t_c t = Some k →
  k_in k = encode_all ms ++ tlv_bytes (TypeWaitingForFanoutIndex, w) ++ rest →
  tlvLoop fuel t = (at_rest k rest (foldl learn t ms), inl tt).
Proof.
  revert fuel t k. induction ms as [|m ms IH]; intros fuel t k Hms Hw Hf Ht Hk;
    (destruct fuel as [|fuel]; [simpl in Hf; lia|]).
  - by rewrite (tlvLoop_msg fuel t k (TypeWaitingForFanoutIndex, w) rest).
  - apply Forall_cons_iff in Hms as [Hm Hms].
    change (encode_all (m :: ms)) with (tlv_bytes m ++ encode_all ms) in Hk.
    rewrite <- app_assoc in Hk. set (rest' := encode_all ms ++ _) in Hk.
    rewrite (tlvLoop_msg fuel t k m rest' (proj1 Hm) Ht Hk), switch_type_learn by done.
    rewrite (IH fuel _ (set_in rest' k)); [|done|done|simpl in Hf; lia|by rewrite learn_c|done].
    rewrite learn_at_rest, foldl_learn_at_rest. done.
Qed.

(** Every reading loop ends within its bound. *)
Definition terminates {A} (m : prog Conn client_error A) (t : Conn) : Prop :=
  (m t).2 ≠ inr OutOfFuel.

Lemma terminates_bind {A B} (m : prog Conn client_error A) (f : A → prog Conn client_error B)
    (t : Conn) :
  terminates m t → (∀ t' a, m t = (t', inl a) → terminates (f a) t') → terminates (m ≫= f) t.
Proof.
  unfold terminates, mbind, prog_bind. destruct (m t) as [t' [a|e]]; simpl.
  - intros _ H. by apply H.
  - congruence.
Qed.

Lemma terminates_read (f : io_error → client_error) (n : nat) (t : Conn) :
  (∀ e, f e ≠ OutOfFuel) → terminates (on_c f (link_read n)) t.
Proof.
  intros Hf. unfold terminates. destruct (on_c f (link_read n) t) as [t' r] eqn:E.
  apply on_c_read_inv in E as [(? & ? & ? & -> & _)|(e & -> & [[-> _]|[[e' ->] _]])]; [done..|].
  intros [= H]. by eapply Hf.
Qed.

Lemma terminates_check (b : bool) (e : client_error) (t : Conn) :
  e ≠ OutOfFuel → terminates (check b e) t.
Proof. intros He. unfold terminates, check. destruct b; simpl; congruence. Qed.

Lemma read_bound (f : io_error → client_error) (n : nat) (t t' : Conn) (bs : list byte) :
  on_c f (link_read n) t = (t', inl bs) →
  loop_bound t = (n + loop_bound t')%nat ∧ is_Some (t_c t').
Proof.
  intros [(bs' & k & rest & _ & Ht & Hk & <- & ->)|(? & ? & _)]%on_c_read_inv; [|done].
  split; [by apply loop_bound_read|by eexists].
Qed.

Lemma check_ok {S E} (b : bool) (e : E) (s s' : S) : check b e s = (s', inl tt) → s' = s.
Proof. unfold check. destruct b; [done|]. by intros [=]. Qed.

Lemma tlvLoop_terminates (fuel : nat) (t : Conn) :
  (loop_bound t ≤ fuel)%nat → terminates (tlvLoop fuel) t.
Proof.
  revert t. induction fuel as [|fuel IH]; intros t Hb.
  { unfold loop_bound in Hb. destruct (t_c t); lia. }
  cbn [tlvLoop]. apply terminates_bind; [by apply terminates_read|].
  intros t1 buf H1%read_bound. destruct (TLFrom _) as [typ len].
  apply terminates_bind; [by apply terminates_check|]. intros t2 [] ->%check_ok.
  apply terminates_bind; [by apply terminates_read|]. intros t3 val H3%read_bound.
  assert (∀ f, loop_bound (f t3) = loop_bound t3 → terminates (tlvLoop fuel) (f t3)) as Hk.
  { intros f Hf. apply IH. lia. }
  unfold switch_type. case_match; [done|].
  repeat (case_match; [apply terminates_bind; [by apply terminates_check|];
    intros ? [] ->%check_ok; apply (Hk (λ t, _)); done|]).
  by apply (Hk (λ t, t)).
Qed.

Lemma readLoop_terminates (fuel : nat) (t : Conn) :
  (loop_bound t ≤ fuel)%nat → terminates (readLoop fuel) t.
Proof.
  revert t. induction fuel as [|fuel IH]; intros t Hb.
  { unfold loop_bound in Hb. destruct (t_c t); lia. }
  cbn [readLoop]. apply terminates_bind; [by apply terminates_read|].
  intros t1 buf H1%read_bound. destruct (TLFrom _) as [typ len].
  case_match; [done|]. case_match; [|done].
  apply terminates_bind; [by apply terminates_read|]. intros t3 val H3%read_bound.
  apply IH. lia.
Qed.

(** The bound on the turns of its loop is never what stops [Connect]. *)
Lemma Connect_returns (os : sys) (dial : link + Z) : (Connect os dial).2 ≠ Some OutOfFuel.
Proof.
  assert (terminates (Connect_body dial) zero_conn) as H.
  { destruct dial as [k|]; [|done]. unfold Connect_body.
    apply terminates_bind; [done|]. intros t [] _.
    apply terminates_bind; [by apply terminates_read|]. intros t' version _.
    apply terminates_bind; [by apply terminates_check|]. intros ? [] ->%check_ok.
    apply terminates_bind; [by apply tlvLoop_terminates|]. intros t2 [] _.
    by apply terminates_check. }
  unfold Connect. unfold terminates in H. destruct (Connect_body dial zero_conn) as [t [[]|e]];
    [done|]. simpl in *. congruence.
Qed.

Lemma Conn_Block_returns (t : Conn) : (Conn_Block t).2 ≠ inr OutOfFuel.
Proof.
  change (terminates Conn_Block t). apply terminates_bind; [by apply readLoop_terminates|].
  intros t' idx _. apply (terminates_bind (check _ _)); [by apply terminates_check|].
  intros t2 [] _. unfold terminates. by destruct (slice_ring _ _ _).
Qed.

(** ** Connect *)
Definition sized (t : Conn) : Prop := 0 < t_fanoutSize t ∧ 0 < t_blockSize t ∧ 0 < t_numBlocks t.

#[export] Instance sized_dec t : Decision (sized t).
Proof. apply _. Defined.

Lemma sized_check (t : Conn) :
  ((t_fanoutSize t <=? 0) || (t_blockSize t <=? 0) || (t_numBlocks t <=? 0))
  = negb (bool_decide (sized t)).
Proof.
  unfold sized. destruct (Z.leb_spec (t_fanoutSize t) 0), (Z.leb_spec (t_blockSize t) 0),
    (Z.leb_spec (t_numBlocks t) 0); simpl;
    (by rewrite bool_decide_false by lia) || (by rewrite bool_decide_true by lia).
Qed.

Lemma length_encode_all_ge (ms : list tlv) : (length ms ≤ length (encode_all ms))%nat.
Proof.
  induction ms as [|m ms IH]; [done|].
  change (encode_all (m :: ms)) with (tlv_bytes m ++ encode_all ms).
  rewrite length_app. unfold tlv_bytes. rewrite length_app, length_put_uint32. simpl. lia.
Qed.

Lemma Connect_eq (os : sys) (k : link) (ms : list tlv) (w rest : list byte) :
  Forall greeting_msg ms → Z.of_nat (length w) <= 0xFFFF →
  k_in k = byte_of protocolVersion :: encode_all ms ++
             tlv_bytes (TypeWaitingForFanoutIndex, w) ++ rest →
  let t := at_rest k rest (foldl learn zero_conn ms) in
  Connect os (inl k) =
    if bool_decide (sized t) then (t, None) else ((Close os t).1, Some MissingSizes).
Proof.
  intros Hms Hw Hk t. unfold Connect, Connect_body.
  rewrite (bind_inl _ _ _ (set_c (Some k) zero_conn) tt) by done.
  set (rest0 := encode_all ms ++ _) in Hk.
  rewrite (bind_inl _ _ _ _ _ (on_c_read_app (set_c (Some k) zero_conn) k [_] rest0 1
    eq_refl Hk eq_refl)).
  rewrite (bool_decide_true (_ = _)) by done. cbn [negb].
  rewrite (bind_inl _ _ _ (at_rest k rest0 zero_conn) tt) by done.
  rewrite (bind_inl _ _ _ t tt).
  2: { unfold reads. rewrite (tlvLoop_learns ms w rest _ _ (set_in rest0 k)); [|done|done| |done|done].
       - by rewrite foldl_learn_at_rest.
       - unfold loop_bound. simpl. unfold rest0. rewrite length_app.
         pose proof (length_encode_all_ge ms). lia. }
  unfold reads. rewrite sized_check. by case_bool_decide.
Qed.

(** C29: [Connect] learns exactly what the server's messages say, in whatever order
    they come and with whatever unknown messages between them, the last word on
    each size counting; it stops reading at the WaitingForFanoutIndex message and
    leaves the rest of the stream alone; and it reports missing sizes. *)
Theorem Connect_learns (os : sys) (k : link) (ms : list tlv) (w rest : list byte) :
  Forall greeting_msg ms → Z.of_nat (length w) <= 0xFFFF →
  k_in k = byte_of protocolVersion :: encode_all ms ++
             tlv_bytes (TypeWaitingForFanoutIndex, w) ++ rest →
  let t := at_rest k rest (foldl learn zero_conn ms) in
  Connect os (inl k) =
    if bool_decide (sized t) then (t, None) else ((Close os t).1, Some MissingSizes).
Proof. apply Connect_eq. Qed.

(** What every message leaves alone, and the range of the sizes. *)
Definition fresh (t : Conn) : Prop :=
  t_fd t = 0 ∧ t_ring t = None ∧ 0 <= t_fanoutSize t < 2 ^ 32 ∧
  0 <= t_blockSize t < 2 ^ 32 ∧ 0 <= t_numBlocks t < 2 ^ 32.

Lemma fresh_set_c (c : option link) (t : Conn) : fresh t → fresh (set_c c t).
Proof. done. Qed.

Lemma keeps_on_c {E A} (P : Conn → Prop) (f : E → client_error) (m : prog link E A) :
  (∀ c t, P t → P (set_c c t)) → keeps P (on_c f m).
Proof.
  intros HP t Ht. unfold on_c. destruct (t_c t) as [k|]; [|done].
  destruct (m k) as [k' r]. by apply HP.
Qed.

#[export] Hint Resolve keeps_on_c : keeps.

Lemma on_c_frame {B E A} (p : Conn → B) (f : E → client_error) (m : prog link E A)
    (t t' : Conn) (r : A + client_error) :
  (∀ c t, p (set_c c t) = p t) → on_c f m t = (t', r) → p t' = p t.
Proof.
  intros Hp. unfold on_c. destruct (t_c t) as [k|]; [|by intros [= <- <-]].
  destruct (m k) as [k' r']. by intros [= <- <-].
Qed.

(** [Connect] and what it gives: every outcome keeps the connection fresh. *)
Lemma tlvLoop_fresh (fuel : nat) : keeps fresh (tlvLoop fuel).
Proof.
  induction fuel as [|fuel IH]; cbn [tlvLoop]; [auto with keeps|].
  apply keeps_bind; [auto using fresh_set_c with keeps|]. intros buf. destruct (TLFrom _).
  apply keeps_bind; [auto with keeps|]. intros _.
  apply keeps_bind; [auto using fresh_set_c with keeps|]. intros val. unfold switch_type.
  pose proof (Uint32_range val).
  assert (∀ f e b, (∀ t, fresh t → fresh (f t)) →
    keeps fresh (check b e;; (modify f : prog Conn client_error unit);; tlvLoop fuel)) as H1
    by auto with keeps.
  repeat case_match; auto with keeps; apply H1; unfold fresh; naive_solver.
Qed.

Lemma Connect_body_fresh (dial : link + Z) : keeps fresh (Connect_body dial).
Proof.
  destruct dial as [k|]; cbn [Connect_body]; [|auto with keeps].
  apply keeps_bind; [auto using fresh_set_c with keeps|]. intros _.
  apply keeps_bind; [auto using fresh_set_c with keeps|]. intros version.
  apply keeps_bind; [auto with keeps|]. intros _.
  apply keeps_bind; [auto using tlvLoop_fresh with keeps|]. auto with keeps.
Qed.

Lemma zero_conn_fresh : fresh zero_conn.
Proof. split_and!; (done || simpl; pow2; lia). Qed.

Lemma Connect_body_ok (dial : link + Z) (t : Conn) :
  Connect_body dial zero_conn = (t, inl tt) → sized t ∧ fresh t.
Proof.
  intros E. pose proof (Connect_body_fresh dial zero_conn zero_conn_fresh) as Hf.
  rewrite E in Hf. split; [|done]. destruct dial as [k|]; [|done].
  apply bind_inl_inv in E as (t1 & [] & _ & E). apply bind_inl_inv in E as (t2 & v & _ & E).
  apply bind_inl_inv in E as (t3 & [] & _ & E). apply bind_inl_inv in E as (t4 & [] & _ & E).
  unfold reads in E. rewrite sized_check in E. case_bool_decide; [|done].
  by apply check_ok in E as ->.
Qed.

Lemma Connect_inl (os : sys) (dial : link + Z) (t : Conn) :
  Connect os dial = (t, None) → Connect_body dial zero_conn = (t, inl tt).
Proof. unfold Connect. destruct (Connect_body dial zero_conn) as [? [[]|]]; naive_solver. Qed.

(** A connection that [Connect] returns has all three sizes, each in the range
    of its 32-bit field, and holds no descriptor and no mapping yet. *)
Theorem Connect_ok (os : sys) (dial : link + Z) (t : Conn) :
  Connect os dial = (t, None) → sized t ∧ fresh t.
Proof. intros H%Connect_inl. by eapply Connect_body_ok. Qed.

(** ** Close *)

(** The resources that stay when the system refuses to release them. *)
Lemma Close_eq (os : sys) (t : Conn) :
  Close os t =
  (MkConn (if sys_conn_close os then t_c t else None)
          (if sys_close os (t_fd t) then t_fd t else 0)
          (if sys_munmap os then t_ring t else None)
          (t_numBlocks t) (t_blockSize t) (t_fanoutSize t),
   match t_c t, sys_conn_close os with
   | Some _, Some e => Some e
   | _, _ =>
       match t_fd t =? 0, sys_close os (t_fd t) with
       | false, Some e => Some e
       | _, _ => match t_ring t with None => None | Some _ => sys_munmap os end
       end
   end).
Proof.
  destruct t as [c fd ring nb bs fs]. unfold Close, close_ring, close_fd, close_c. simpl.
  destruct ring, (sys_munmap os) as [|]; simpl;
    destruct (Z.eqb_spec fd 0) as [->|]; simpl;
    try (destruct (sys_close os fd)); try (destruct (sys_close os 0));
    simpl; destruct c; simpl; by destruct (sys_conn_close os).
Qed.

(** [Close] gives back every resource whose system call succeeds, even when
    another one fails, and reports an error exactly when something stays open; so
    closing again is the way to retry, and closing twice is closing once. *)
Theorem Close_releases (os : sys) (t : Conn) :
  let t' := (Close os t).1 in
  (sys_munmap os = None → t_ring t' = None) ∧
  (sys_close os (t_fd t) = None → t_fd t' = 0) ∧
  (sys_conn_close os = None → t_c t' = None) ∧
  ((Close os t).2 = None ↔ t_ring t' = None ∧ t_fd t' = 0 ∧ t_c t' = None) ∧
  (Close os t').1 = t'.
Proof.
  rewrite !Close_eq. cbn. destruct t as [c fd ring nb bs fs]. cbn.
  split_and!; [by intros ->..| |].
  - destruct c, (sys_conn_close os); simpl; destruct (Z.eqb_spec fd 0) as [->|]; simpl;
      try destruct (sys_close os _); simpl; destruct ring, (sys_munmap os); simpl; naive_solver.
  - rewrite Close_eq. cbn. destruct (sys_close os fd) eqn:E; rewrite ?E;
      destruct (sys_conn_close os), (sys_munmap os); simpl; try done; by destruct (sys_close os 0).
Qed.

(** No error path of [Connect] leaks: when the system closes sockets, the
    connection is closed and nothing is held. *)
Theorem Connect_error_releases (os : sys) (dial : link + Z) (t : Conn) (e : client_error) :
  sys_conn_close os = None → Connect os dial = (t, Some e) →
  t_c t = None ∧ t_fd t = 0 ∧ t_ring t = None.
Proof.
  intros Hc. unfold Connect. pose proof (Connect_body_fresh dial zero_conn) as Hf.
  destruct (Connect_body dial zero_conn) as [t' [[]|e']]; [done|]. intros [= <- <-].
  rewrite Close_eq. cbn. rewrite Hc. simpl in Hf.
  destruct Hf as (-> & -> & _); [apply zero_conn_fresh|].
  split_and!; [done|by destruct (sys_close os 0)|by destruct (sys_munmap os)].
Qed.

(** ** Init *)

(** A connection whose blocks can be read. *)
Definition ready (t : Conn) : Prop :=
  0 < t_blockSize t < 2 ^ 32 ∧ 0 < t_numBlocks t < 2 ^ 32 ∧
  t_blockSize t * t_numBlocks t < 2 ^ 63 ∧
  t_ring t = Some (t_blockSize t * t_numBlocks t).

Lemma ready_set_c (c : option link) (t : Conn) : ready t → ready (set_c c t).
Proof. done. Qed.

(** A size that wraps around a 64-bit int comes out negative, and [Mmap] refuses it. *)
Lemma mmap_size (os : sys) (fd bs nb : Z) :
  0 < bs < 2 ^ 32 → 0 < nb < 2 ^ 32 → mmap os fd (int64 (bs * nb)) = None →
  bs * nb < 2 ^ 63 ∧ int64 (bs * nb) = bs * nb.
Proof.
  intros Hbs Hnb Hm.
  assert (0 < bs * nb < 2 ^ 64) as Hp.
  { split; [lia|]. replace (2 ^ 64) with (2 ^ 32 * 2 ^ 32) by done. apply Z.mul_lt_mono_nonneg; lia. }
  unfold mmap in Hm. destruct (Z.leb_spec (int64 (bs * nb)) 0); [done|].
  set (p := bs * nb) in *. clearbody p. split; mach.
Qed.

(** C31: after [Connect] and [Init] the whole ring is mapped: its length is the
    product of the two sizes, without wrap-around, whatever sizes the server sent. *)
Theorem Init_ready (os : sys) (dial : link + Z) (idx : Z) (t t' : Conn) :
  Connect os dial = (t, None) → Init os idx t = (t', None) → ready t'.
Proof.
  intros [(_ & Hb & Hn) (_ & _ & _ & HB & HN)]%Connect_inl%Connect_body_ok.
  unfold Init. destruct (Init_body os idx t) as [t1 [[]|]] eqn:E; [|done]. intros [= ->].
  apply bind_inl_inv in E as (t2 & [] & E2 & E).
  apply bind_inl_inv in E as (t3 & [msg oob] & E3 & E).
  apply bind_inl_inv in E as (t4 & [] & ->%check_ok & E).
  apply bind_inl_inv in E as (t5 & [] & ->%check_ok & E).
  destruct (parse_fd oob) as [fd|]; [|done].
  apply bind_inl_inv in E as (t6 & [] & [= <-] & E). unfold reads in E.
  assert (t_blockSize t3 = t_blockSize t ∧ t_numBlocks t3 = t_numBlocks t) as [Eb En].
  { split; [by rewrite (on_c_frame t_blockSize _ _ _ _ _ (λ _ _, eq_refl) E3), (on_c_frame t_blockSize _ _ _ _ _ (λ _ _, eq_refl) E2)|].
    by rewrite (on_c_frame t_numBlocks _ _ _ _ _ (λ _ _, eq_refl) E3), (on_c_frame t_numBlocks _ _ _ _ _ (λ _ _, eq_refl) E2). }
  cbn [set_fd t_blockSize t_numBlocks] in E. rewrite Eb, En in E.
  destruct (mmap os fd _) eqn:Hm; [by destruct t3|]. injection E as <-.
  apply mmap_size in Hm as [Hlt Heq]; [|lia..].
  rewrite Heq. unfold ready. simpl. rewrite Eb, En. split_and!; (done || lia).
Qed.

(** Every error of [Init] gives back the descriptor, the mapping and the
    connection, when the system does. *)
Theorem Init_error_releases (os : sys) (idx : Z) (t t' : Conn) (e : client_error) :
  sys_munmap os = None → (∀ fd, sys_close os fd = None) → sys_conn_close os = None →
  Init os idx t = (t', Some e) → t_c t' = None ∧ t_fd t' = 0 ∧ t_ring t' = None.
Proof.
  intros Hm Hc Hk. unfold Init. destruct (Init_body os idx t) as [t1 [|e1]]; [done|].
  intros [= <- <-]. rewrite Close_eq. cbn. by rewrite Hm, Hc, Hk.
Qed.

(** The descriptor a server sends is the one the client finds. *)
Lemma parse_fd_rights (fd : Z) : - 2 ^ 31 <= fd < 2 ^ 31 → parse_fd (UnixRights [fd]) = inl fd.
Proof.
  intros Hfd. unfold parse_fd. rewrite parse_UnixRights by (simpl; pow2; lia).
  by rewrite ParseUnixRights_data by (constructor; [done|constructor]).
Qed.

Lemma index_valid (idx : Z) : tlv_valid (TypeFanoutIndex, put_uint32 idx).
Proof. split; [right|]; vm_compute; try split; congruence. Qed.

Lemma on_c_ok {E A} (f : E → client_error) (m : prog link E A) (t : Conn) (k k' : link) (a : A) :
  t_c t = Some k → m k = (k', inl a) → on_c f m t = (set_c (Some k') t, inl a).
Proof. intros Ht Hm. unfold on_c. by rewrite Ht, Hm. Qed.

(** [Init] with a server that answers with one descriptor: the request goes out,
    the byte and the descriptor are taken, the ring is mapped, and what follows on
    the connection is left for [Conn.Block]. *)
Lemma Init_ok (os : sys) (idx fd : Z) (t : Conn) (k : link) (b : byte) (rest : list byte) :
  t_c t = Some k → k_in k = b :: rest → k_oob k = UnixRights [fd] →
  - 2 ^ 31 <= fd < 2 ^ 31 → (8 ≤ k_budget k)%nat →
  mmap os fd (int64 (t_blockSize t * t_numBlocks t)) = None →
  Init os idx t =
    (MkConn (Some (Link rest [] (k_out k ++ tlv_bytes (TypeFanoutIndex, put_uint32 (uint32 idx)))
                     (k_ctl k) (k_budget k - 8) (k_closed k)))
       fd (Some (int64 (t_blockSize t * t_numBlocks t)))
       (t_numBlocks t) (t_blockSize t) (t_fanoutSize t), None).
Proof.
  intros Ht Hin Hoob Hfd Hb Hm. unfold Init, Init_body.
  set (msg := tlv_bytes (TypeFanoutIndex, put_uint32 (uint32 idx))).
  rewrite (bind_inl _ _ _ (set_c (Some (sent msg k)) t) tt).
  2: { apply (on_c_ok _ _ _ k); [done|]. by apply (send_writes _ (index_valid _) k). }
  rewrite (bind_inl _ _ _
    (set_c (Some (Link rest [] (k_out k ++ msg) (k_ctl k) (k_budget k - 8) (k_closed k))) t)
    ([b], UnixRights [fd])).
  2: { apply (on_c_ok _ _ (set_c (Some (sent msg k)) t) (sent msg k)); [done|].
       unfold link_read_msg. cbn [sent k_in k_oob]. by rewrite Hin, Hoob. }
  cbn [length]. rewrite parse_fd_rights by done.
  rewrite length_UnixRights. cbn -[parse_fd]. unfold mbind, prog_bind, reads, modify. simpl.
  rewrite Hm. done.
Qed.

(** ** Blocks *)
Lemma slice_ready (t : Conn) (idx : Z) :
  ready t → 0 <= idx < t_numBlocks t →
  int64 (idx * t_blockSize t) = idx * t_blockSize t ∧
  int64 (idx * t_blockSize t + t_blockSize t) = idx * t_blockSize t + t_blockSize t ∧
  slice_ring (idx * t_blockSize t) (idx * t_blockSize t + t_blockSize t) t =
    Some (Slice (idx * t_blockSize t) (t_blockSize t)).
Proof.
  intros (Hb & Hn & Hp & Hr) Hi.
  assert (0 <= idx * t_blockSize t) by nia.
  assert (idx * t_blockSize t + t_blockSize t <= t_blockSize t * t_numBlocks t) by nia.
  split_and!; [apply int64_small; pow2; lia..|].
  unfold slice_ring. rewrite Hr. cbn [default from_option id].
  rewrite !(proj2 (Z.leb_le _ _)) by lia. simpl. do 2 f_equal. lia.
Qed.

(** The two outcomes of [Conn_Block] once the index is read. *)
Lemma Conn_Block_index (t t1 : Conn) (idx : Z) :
  ready t1 → readLoop (loop_bound t) t = (t1, inl idx) → 0 <= idx →
  Conn_Block t =
    (t1, if bool_decide (idx < t_numBlocks t1)
         then inl (MkBlock true idx (Slice (idx * t_blockSize t1) (t_blockSize t1)) 0 0 None)
         else inr (BadIndex idx)).
Proof.
  intros Hr Hl Hi. unfold Conn_Block. rewrite (bind_inl _ _ t t1 idx) by exact Hl. unfold reads.
  rewrite (proj2 (Z.ltb_ge idx 0)) by done. cbn [orb].
  destruct (Z.leb_spec (t_numBlocks t1) idx); [by rewrite bool_decide_false by lia|].
  rewrite bool_decide_true by done. rewrite (bind_inl _ _ _ t1 tt) by done.
  destruct (slice_ready t1 idx Hr) as (-> & -> & ->); done.
Qed.

Lemma readLoop_index (fuel : nat) (t t' : Conn) (idx : Z) :
  readLoop fuel t = (t', inl idx) → 0 <= idx.
Proof.
  revert t. induction fuel as [|fuel IH]; intros t; [done|]. cbn [readLoop].
  intros (t1 & m & _ & E)%bind_inl_inv. destruct (TLFrom _) as [typ len].
  case_match; [injection E as <- <-; apply Uint32_range|]. case_match; [|done].
  apply bind_inl_inv in E as (t2 & v & _ & E). by eapply IH.
Qed.

Lemma readLoop_no_panic (fuel : nat) (t t' : Conn) (low high : Z) :
  readLoop fuel t ≠ (t', inr (PanicSlice low high)).
Proof.
  revert t. induction fuel as [|fuel IH]; intros t; [done|]. cbn [readLoop].
  unfold mbind, prog_bind. destruct (on_c BlockRead _ t) as [t1 [m|e]] eqn:E1.
  - destruct (TLFrom _) as [typ len]. case_match; [done|]. case_match; [|done].
    destruct (on_c (BlockVal typ len) _ t1) as [t2 [v|e]] eqn:E2; [apply IH|].
    apply on_c_read_inv in E2. naive_solver.
  - apply on_c_read_inv in E1. naive_solver.
Qed.

Lemma readLoop_keeps (P : Conn → Prop) (fuel : nat) :
  (∀ c t, P t → P (set_c c t)) → keeps P (readLoop fuel).
Proof.
  intros HP. induction fuel as [|fuel IH]; cbn [readLoop]; [auto with keeps|].
  apply keeps_bind; [auto with keeps|]. intros m. destruct (TLFrom _).
  repeat case_match; auto with keeps.
Qed.

(** C32: whatever the server sends, a block that [Conn.Block] returns has an index in
    range and is that block's slice of the mapped region, whole and inside it; the
    bounds check of the slice expression never fails. *)
Theorem Conn_Block_safe (t t' : Conn) (r : Block + client_error) :
  ready t → Conn_Block t = (t', r) →
  ready t' ∧
  match r with
  | inl b => 0 <= b_i b < t_numBlocks t ∧
             b_B b = Slice (b_i b * t_blockSize t) (t_blockSize t) ∧
             0 <= sl_off (b_B b) ∧
             sl_off (b_B b) + sl_len (b_B b) <= t_blockSize t * t_numBlocks t
  | inr e => ∀ low high, e ≠ PanicSlice low high
  end.
Proof.
  intros Hr Hb. destruct (readLoop (loop_bound t) t) as [t1 [idx|e]] eqn:E.
  - set (P := λ t1, ready t1 ∧ t_numBlocks t1 = t_numBlocks t ∧ t_blockSize t1 = t_blockSize t).
    assert (P t1) as (Hr1 & Hn & Hs).
    { pose proof (readLoop_keeps P (loop_bound t) (λ c t H, H) t) as Hk. rewrite E in Hk.
      by apply Hk. }
    pose proof (readLoop_index _ _ _ _ E). rewrite (Conn_Block_index t t1 idx) in Hb by done.
    injection Hb as <- <-. split; [done|]. case_bool_decide; [|done]. simpl. rewrite Hs, <- Hn.
    destruct Hr1 as (? & ? & _). split_and!; [done..| |]; nia.
  - unfold Conn_Block in Hb. rewrite (bind_inr _ _ t t1 e) in Hb by exact E.
    injection Hb as <- <-.
    pose proof (readLoop_keeps ready (loop_bound t) ready_set_c t Hr) as Hk. rewrite E in Hk.
    split; [done|]. intros low high ->. by apply readLoop_no_panic in E.
Qed.

(** A word below 2^31 is a block index. *)
Lemma TLFrom_block (idx : Z) : 0 <= idx < 2 ^ 31 → TypeOf (TLFrom idx).1 = TypeBlockIndex.
Proof. intros. by rewrite TLFrom_index. Qed.

(** The messages before an index are skipped. *)
Lemma readLoop_skips (ms : list tlv) (idx : Z) (rest : list byte) (fuel : nat) (t : Conn)
    (k : link) :
  Forall server_msg ms → 0 <= idx < 2 ^ 31 → (length ms < fuel)%nat → t_c t = Some k →
  k_in k = encode_all ms ++ put_uint32 idx ++ rest →
  readLoop fuel t = (at_rest k rest t, inl idx).
Proof.
  revert fuel t k. induction ms as [|m ms IH]; intros fuel t k Hms Hi Hf Ht Hk;
    (destruct fuel as [|fuel]; [simpl in Hf; lia|]); cbn [readLoop].
  - rewrite (bind_inl _ _ _ _ _ (on_c_read_app t k (put_uint32 idx) rest 4 Ht Hk eq_refl)).
    rewrite Uint32_put, uint32_small, TLFrom_index by (pow2; lia). done.
  - apply Forall_cons_iff in Hms as [Hm Hms].
    destruct (tlv_word m (server_msg_valid m Hm)) as [Hx HT].
    change (encode_all (m :: ms)) with (tlv_bytes m ++ encode_all ms) in Hk.
    unfold tlv_bytes in Hk. rewrite <- !app_assoc in Hk. set (rest' := encode_all ms ++ _) in Hk.
    rewrite (bind_inl _ _ _ _ _ (on_c_read_app t k _ _ 4 Ht Hk eq_refl)).
    rewrite Uint32_put, (uint32_small (ToTL _ _)), HT by (pow2; lia).
    rewrite TypeOf_server by apply Hm.
    change (TypeServerToClient =? TypeBlockIndex) with false. rewrite Z.eqb_refl, Nat2Z.id.
    rewrite (bind_inl _ _ _ (at_rest k rest' t) m.2)
      by (by apply (on_c_read_app (at_rest k (m.2 ++ rest') t) (set_in (m.2 ++ rest') k))).
    by rewrite (IH fuel _ (set_in rest' k)) by (done || simpl in Hf; lia).
Qed.

Lemma Conn_Block_next (t : Conn) (k : link) (ms : list tlv) (idx : Z) (rest : list byte) :
  ready t → t_c t = Some k → Forall server_msg ms → 0 <= idx < 2 ^ 31 →
  k_in k = encode_all ms ++ put_uint32 idx ++ rest →
  Conn_Block t =
    (at_rest k rest t,
     if bool_decide (idx < t_numBlocks t)
     then inl (MkBlock true idx (Slice (idx * t_blockSize t) (t_blockSize t)) 0 0 None)
     else inr (BadIndex idx)).
Proof.
  intros Hr Ht Hms Hi Hk. apply (Conn_Block_index t (at_rest k rest t)); [done| |lia].
  apply (readLoop_skips ms); [done..| |done|done].
  unfold loop_bound. rewrite Ht, Hk, length_app. pose proof (length_encode_all_ge ms). lia.
Qed.

(** Taking one block after another. *)
Fixpoint read_blocks (n : nat) : prog Conn client_error (list Block) :=
  match n with
  | O => mret []
  | S n => b ← Conn_Block; bs ← read_blocks n; mret (b :: bs)
  end.

(** What a server sends for one block: some messages, then its index. *)
Definition item_bytes (it : list tlv * Z) : list byte := encode_all it.1 ++ put_uint32 it.2.

Definition block_of (t : Conn) (idx : Z) : Block :=
  MkBlock true idx (Slice (idx * t_blockSize t) (t_blockSize t)) 0 0 None.

Lemma read_blocks_items (items : list (list tlv * Z)) (t : Conn) (k : link)
    (rest : list byte) :
  ready t → t_c t = Some k →
  Forall (λ it, Forall server_msg it.1 ∧ 0 <= it.2 < t_numBlocks t ∧ it.2 < 2 ^ 31) items →
  k_in k = (items ≫= item_bytes) ++ rest →
  read_blocks (length items) t = (at_rest k rest t, inl (block_of t <$> items.*2)).
Proof.
  revert t k. induction items as [|[ms idx] items IH]; intros t k Hr Ht Hall Hk.
  { destruct t; simpl in *. rewrite Ht. unfold at_rest, set_c. simpl. by destruct k; simplify_eq/=. }
  apply Forall_cons_iff in Hall as [(Hms & Hi & Hlt) Hall]. cbn [fst snd] in *.
  rewrite bind_cons in Hk. unfold item_bytes at 1 in Hk. rewrite <- !app_assoc in Hk.
  set (rest' := (items ≫= item_bytes) ++ rest) in *. cbn [length read_blocks].
  rewrite (bind_inl _ _ _ (at_rest k rest' t) (block_of t idx)).
  2: { rewrite (Conn_Block_next t k ms idx rest') by (done || lia).
       by rewrite bool_decide_true by lia. }
  rewrite (bind_inl _ _ _ _ _ (IH (at_rest k rest' t) (set_in rest' k) Hr eq_refl Hall eq_refl)).
  done.
Qed.

(** Successive calls of [Conn.Block] return exactly the blocks the server sent, in
    order, each as its own slice of the ring, skipping the messages in between and
    reading nothing beyond the last one. *)
Theorem blocks_in_order (items : list (list tlv * Z)) (t : Conn) (k : link)
    (rest : list byte) :
  ready t → t_c t = Some k →
  Forall (λ it, Forall server_msg it.1 ∧ 0 <= it.2 < t_numBlocks t ∧ it.2 < 2 ^ 31) items →
  k_in k = (items ≫= item_bytes) ++ rest →
  read_blocks (length items) t = (at_rest k rest t, inl (block_of t <$> items.*2)).
Proof. apply read_blocks_items. Qed.

Lemma Return_writes (t : Conn) (k : link) (b : Block) :
  t_c t = Some k → (4 ≤ k_budget k)%nat → b_t b = true →
  Return b t = (set_c (Some (sent (put_uint32 (uint32 (b_i b))) k)) t,
                inl (MkBlock false 0 (Slice 0 0) (b_offset b) (b_left b) (b_pkt b))).
Proof.
  intros Ht Hb Hbt. unfold Return. rewrite Hbt.
  rewrite (bind_inl _ _ _ (set_c (Some (sent (put_uint32 (uint32 (b_i b))) k)) t) tt); [done|].
  apply (on_c_ok _ _ _ k); [done|]. by apply (link_write_writes (put_uint32 (uint32 (b_i b))) k).
Qed.

(** [Return] sends back the index and the block cannot be used again; returning it
    a second time fails without sending anything. *)
Theorem Return_once (t : Conn) (k : link) (b : Block) :
  t_c t = Some k → (4 ≤ k_budget k)%nat → b_t b = true →
  ∃ b', Return b t = (set_c (Some (sent (put_uint32 (uint32 (b_i b))) k)) t, inl b') ∧
    sl_len (b_B b') = 0 ∧ ∀ t', Return b' t' = (t', inr PanicNilBlock).
Proof. intros Ht Hb Hbt. rewrite (Return_writes t k b) by done. by eexists. Qed.

(** ** Examples *)
Definition demo_sys : sys := Sys None (λ _, None) None (λ _ _, None).

(** Two sizes, a message of an unknown type, the third size. *)
Definition demo_greeting : list tlv :=
  [(TypeNumBlocks, put_uint32 4); (TypeFanoutSize, put_uint32 1);
   (0x9000, [Byte.x41]); (TypeBlockSize, put_uint32 4096)].

Definition demo_in (rest : list byte) : list byte :=
  byte_of protocolVersion :: encode_all demo_greeting ++
  tlv_bytes (TypeWaitingForFanoutIndex, []) ++ rest.

Definition demo_server (rest : list byte) : link :=
  Link (demo_in rest) (UnixRights [7]) [] [] 100 false.

(** The connection after [Connect] and after [Init]. *)
Definition demo_conn (rest : list byte) : Conn := (Connect demo_sys (inl (demo_server rest))).1.
Definition demo_ready (rest : list byte) : Conn := (Init demo_sys 0 (demo_conn rest)).1.

Lemma Connect_learns_witness :
  t_numBlocks (demo_conn []) = 4 ∧ t_blockSize (demo_conn []) = 4096 ∧
  Connect demo_sys (inl (demo_server [])) = (demo_conn [], None).
Proof.
  split; [vm_compute; reflexivity|]. split; [vm_compute; reflexivity|].
  rewrite (Connect_learns demo_sys (demo_server []) demo_greeting [] []).
  - vm_compute. reflexivity.
  - apply (bool_decide_unpack _). vm_compute. exact I.
  - vm_compute. congruence.
  - reflexivity.
Defined.

Lemma Connect_ok_witness : sized (demo_conn []) ∧ fresh (demo_conn []).
Proof.
  apply (Connect_ok demo_sys (inl (demo_server []))). vm_compute. reflexivity.
Defined.

Lemma Connect_error_releases_witness :
  t_c (Connect demo_sys (inl (Link [Byte.x03] [] [] [] 0 false))).1 = None.
Proof.
  apply (Connect_error_releases demo_sys (inl (Link [Byte.x03] [] [] [] 0 false)) _
           (VersionMismatch 3)); vm_compute; reflexivity.
Defined.

Lemma Init_ready_witness : ready (demo_ready [Byte.x00]).
Proof.
  apply (Init_ready demo_sys (inl (demo_server [Byte.x00])) 0 (demo_conn [Byte.x00]));
    vm_compute; reflexivity.
Defined.

Lemma Init_error_releases_witness :
  t_c (Init demo_sys 0 (demo_conn [])).1 = None.
Proof.
  apply (Init_error_releases demo_sys 0 (demo_conn []) _ (FdRead EOF));
    (intros; vm_compute; reflexivity).
Defined.

(** A block, a message, another block, an index that does not exist. *)
Definition demo_blocks : list byte :=
  put_uint32 2 ++ tlv_bytes (0x9000, [Byte.x41]) ++ put_uint32 0 ++ put_uint32 9.

Lemma demo_ready_ok (rest : list byte) : ready (demo_ready (Byte.x00 :: rest)).
Proof. vm_compute. split_and!; congruence. Qed.

Lemma Conn_Block_safe_witness :
  (Conn_Block (demo_ready (Byte.x00 :: demo_blocks))).2 =
    inl (MkBlock true 2 (Slice 8192 4096) 0 0 None) ∧
  ready (Conn_Block (demo_ready (Byte.x00 :: demo_blocks))).1.
Proof.
  split; [vm_compute; reflexivity|].
  eapply (Conn_Block_safe (demo_ready (Byte.x00 :: demo_blocks))).
  - apply demo_ready_ok.
  - apply surjective_pairing.
Defined.

Definition demo_rest (rest : list byte) : link :=
  Link rest [] (tlv_bytes (TypeFanoutIndex, put_uint32 0)) [] 92 false.

Definition demo_items : list (list tlv * Z) := [([], 2); ([(0x9000, [Byte.x41])], 0)].

Lemma blocks_in_order_witness :
  (read_blocks (length demo_items) (demo_ready (Byte.x00 :: demo_blocks))).2 =
    inl [MkBlock true 2 (Slice 8192 4096) 0 0 None; MkBlock true 0 (Slice 0 4096) 0 0 None].
Proof.
  rewrite (blocks_in_order demo_items (demo_ready (Byte.x00 :: demo_blocks))
    (demo_rest demo_blocks) (put_uint32 9)).
  - vm_compute. reflexivity.
  - apply demo_ready_ok.
  - vm_compute. reflexivity.
  - apply (bool_decide_unpack _). vm_compute. exact I.
  - vm_compute. reflexivity.
Defined.

Lemma Return_once_witness :
  ∃ b', (Return (block_of (demo_ready (Byte.x00 :: [])) 2) (demo_ready [Byte.x00])).2 = inl b' ∧
        Return b' zero_conn = (zero_conn, inr PanicNilBlock).
Proof.
  destruct (Return_once (demo_ready [Byte.x00]) (demo_rest []) (block_of (demo_ready [Byte.x00]) 2))
    as (b' & Hr & _ & Hn).
  - vm_compute. reflexivity.
  - vm_compute. lia.
  - reflexivity.
  - exists b'. rewrite Hr. split; [reflexivity|apply Hn].
Defined.
