(* ===== verification/Packets.v ===== *)
(** * The packets of a block

    The iterator of the Go client ([Block.Next], [Packet], [PacketData] of
    testimony.go) and the one of the C client (testimony_iter_* of testimony.c),
    over the bytes of a block as the kernel lays it out (TPACKET_V3, little
    endian): the block header says how many packets there are and where the first
    one is, and every packet says how far the next one is. *)

From stdpp Require Import base list numbers option.
From Stdlib Require Import ZArith Lia.
From S2P Require Import Prelude Bytes Cmsg Client.

(** ** The layout *)

(** A little-endian field; [None] is an access outside the block. *)
Definition field (n : nat) (B : list byte) (off : Z) : option Z :=
  if (0 <=? off) && (off + Z.of_nat n <=? Z.of_nat (length B))
  then Some (get_le (take n (drop (Z.to_nat off) B))) else None.

(** struct tpacket_block_desc with its tpacket_hdr_v1. *)
Definition desc_version (B : list byte) : option Z := field 4 B 0.
Definition num_pkts (B : list byte) : option Z := field 4 B 12.
Definition offset_to_first_pkt (B : list byte) : option Z := field 4 B 16.

(** struct tpacket3_hdr at [p]. *)
Definition tp_next_offset (B : list byte) (p : Z) : option Z := field 4 B p.
Definition tp_sec (B : list byte) (p : Z) : option Z := field 4 B (p + 4).
Definition tp_nsec (B : list byte) (p : Z) : option Z := field 4 B (p + 8).
Definition tp_snaplen (B : list byte) (p : Z) : option Z := field 4 B (p + 12).
Definition tp_mac (B : list byte) (p : Z) : option Z := field 2 B (p + 24).

(** ** The Go iterator *)
Inductive next_result :=
  | More                     (* true *)
  | Done                     (* false *)
  | PanicNilPkt              (* b.pkt is nil *)
  | PanicIndex               (* index out of range *)
  | BadAccess.               (* a read through an unsafe pointer leaves the block *)

Definition set_iter (offset left : Z) (b : Block) : Block :=
  MkBlock (b_t b) (b_i b) (b_B b) offset left (b_pkt b).

(** The first half of [Next]: where to look, before [left] is tested. *)
Definition advance (B : list byte) (b : Block) : Block + next_result :=
  if b_offset b =? 0 then
    if bool_decide (B = []) then inr PanicIndex
    else match num_pkts B, offset_to_first_pkt B with
         | Some n, Some o => inl (set_iter o n b)
         | _, _ => inr BadAccess
         end
  else match b_pkt b with
       | None => inr PanicNilPkt
       | Some p => match tp_next_offset B p with
                   | Some d => inl (set_iter (int64 (b_offset b + d)) (b_left b) b)
                   | None => inr BadAccess
                   end
       end.

(** [Next], where [B] holds the bytes of [b.B]. *)
Definition Next (B : list byte) (b : Block) : Block * next_result :=
  match advance B b with
  | inr e => (b, e)
  | inl b =>
      if b_left b <=? 0 then (b, Done)
      else
        let b := set_iter (b_offset b) (b_left b - 1) b in
        if (0 <=? b_offset b) && (b_offset b <? Z.of_nat (length B))
        then (MkBlock (b_t b) (b_i b) (b_B b) (b_offset b) (b_left b) (Some (b_offset b)), More)
        else (b, PanicIndex)
  end.

(** [Packet] *)
Definition Packet (b : Block) : option Z := b_pkt b.

(** [PacketData]: nil without a packet, otherwise the slice, [inr] being a panic. *)
Definition PacketData (B : list byte) (b : Block) : option (list byte) + next_result :=
  match b_pkt b with
  | None => inl None
  | Some p =>
      match tp_mac B p, tp_snaplen B p with
      | Some mac, Some snaplen =>
          let start := int64 (b_offset b + mac) in
          let stop := int64 (start + snaplen) in
          if (0 <=? start) && (start <=? stop) && (stop <=? Z.of_nat (length B))
          then inl (Some (take (Z.to_nat (stop - start)) (drop (Z.to_nat start) B)))
          else inr PanicIndex
      | _, _ => inr BadAccess
      end
  end.

(** [for b.Next() { visit(b.Packet()) }] *)
Fixpoint go_loop (fuel : nat) (B : list byte) (b : Block) : list Z * option next_result :=
  match fuel with
  | O => ([], None)
  | S fuel =>
      match Next B b with
      | (b, More) => let '(ps, r) := go_loop fuel B b in (default 0 (Packet b) :: ps, r)
      | (_, r) => ([], Some r)
      end
  end.

(** ** The C iterator *)
Module CIter.
Record iter := Iter { it_pkt : option Z; it_left : Z }.

Definition TPACKET_V3 : Z := 2.
Definition EPROTONOSUPPORT : Z := 93.

(** testimony_iter_init, by the result of malloc: the zeroed iterator or NULL, and what
    is returned; testimony_iter_close frees it. *)
Definition init (malloc : bool) : option iter * Z :=
  if malloc then (Some (Iter None 0), 0) else (None, - 12 (* ENOMEM *)).
Definition close (it : option iter) : option iter * Z := (None, 0).

(** testimony_iter_reset *)
Definition reset (B : list byte) : iter + Z :=
  match desc_version B, num_pkts B with
  | Some v, Some n =>
      if negb (v =? TPACKET_V3) then inr (- EPROTONOSUPPORT)
      else inl (Iter None (int32 n))
  | _, _ => inr 0
  end.

(** testimony_iter_next: the packet, or NULL at the end; [None] is a read outside
    the block. *)
Definition next (B : list byte) (it : iter) : option (iter * option Z) :=
  if it_left it =? 0 then Some (it, None)
  else
    match it_pkt it with
    | Some p => d ← tp_next_offset B p; Some (Iter (Some (p + d)) (it_left it - 1), Some (p + d))
    | None => o ← offset_to_first_pkt B; Some (Iter (Some o) (it_left it - 1), Some o)
    end.

Fixpoint loop (fuel : nat) (B : list byte) (it : iter) : list Z * bool :=
  match fuel with
  | O => ([], false)
  | S fuel =>
      match next B it with
      | None => ([], false)
      | Some (_, None) => ([], true)
      | Some (it, Some p) => let '(ps, r) := loop fuel B it in (p :: ps, r)
      end
  end.

(** testimony_packet_data and testimony_packet_nanos *)
Definition packet_data (B : list byte) (p : Z) : option Z := mac ← tp_mac B p; Some (p + mac).
Definition packet_nanos (B : list byte) (p : Z) : option Z :=
  s ← tp_sec B p; n ← tp_nsec B p; Some (int64 (int64 (s * 1000000000) + n)).
End CIter.

(** ** What a block is *)
Definition hdr_size : Z := 48.

(** The packets of a well-formed block: a chain of headers inside the block. *)
Fixpoint chain (B : list byte) (n : nat) (o : Z) : option (list Z) :=
  match n with
  | O => Some []
  | S n =>
      if (0 <? o) && (o + hdr_size <=? Z.of_nat (length B)) then
        d ← tp_next_offset B o; ps ← chain B n (o + d); Some (o :: ps)
      else None
  end.

Definition packets (B : list byte) : option (list Z) :=
  n ← num_pkts B; o ← offset_to_first_pkt B;
  if 0 <? o then chain B (Z.to_nat n) o else None.

(** ** Properties *)
Lemma get_le_bound (bs : list byte) : get_le bs < 2 ^ (8 * Z.of_nat (length bs)).
Proof.
  induction bs as [|b bs IH]; [done|]. cbn [get_le length].
  replace (8 * Z.of_nat (S (length bs))) with (8 + 8 * Z.of_nat (length bs)) by lia.
  rewrite Z.pow_add_r by lia. pose proof (byte_val_range b). pose proof (get_le_nonneg bs). nia.
Qed.

Lemma field_range (n : nat) (B : list byte) (off v : Z) :
  field n B off = Some v → 0 <= v < 2 ^ (8 * Z.of_nat n).
Proof.
  unfold field. destruct (_ && _); [|done]. intros [= <-]. split; [apply get_le_nonneg|].
  eapply Z.lt_le_trans; [apply get_le_bound|]. apply Z.pow_le_mono_r; [done|].
  rewrite length_take. lia.
Qed.

Lemma field4_range (B : list byte) (off v : Z) : field 4 B off = Some v → 0 <= v < 2 ^ 32.
Proof. apply field_range. Qed.

(** A block as [Conn.Block] returns it, before the first [Next]. *)
Definition unread (b : Block) : Prop := b_offset b = 0 ∧ b_pkt b = None.

(** The iterator standing on a packet. *)
Definition standing (p left : Z) (b : Block) : Prop :=
  b_offset b = p ∧ b_left b = left ∧ b_pkt b = Some p.

(** A chain, one packet at a time. *)
Lemma chain_S (B : list byte) (n : nat) (o : Z) (ps : list Z) :
  chain B (S n) o = Some ps →
  0 < o ∧ o + hdr_size <= Z.of_nat (length B) ∧
  ∃ d ps', tp_next_offset B o = Some d ∧ chain B n (o + d) = Some ps' ∧ ps = o :: ps'.
Proof.
  cbn [chain]. destruct (Z.ltb_spec 0 o); [|done].
  destruct (Z.leb_spec (o + hdr_size) (Z.of_nat (length B))); [|done]. cbn [andb].
  destruct (tp_next_offset B o) as [d|]; [|done]. simpl.
  destruct (chain B n (o + d)) as [ps'|] eqn:E; [|done]. intros [= <-]. eauto 10.
Qed.

Lemma chain_length (B : list byte) (n : nat) (o : Z) (ps : list Z) :
  chain B n o = Some ps → length ps = n.
Proof.
  revert o ps. induction n as [|n IH]; intros o ps.
  - by intros [= <-].
  - intros (_ & _ & d & ps' & _ & H & ->)%chain_S. simpl. by rewrite (IH _ _ H).
Qed.

(** Stepping onto a packet that is there. *)
Lemma Next_onto (B : list byte) (b b1 : Block) (o n : Z) :
  advance B b = inl b1 → b_offset b1 = o → b_left b1 = n → 0 < n →
  0 < o → o + hdr_size <= Z.of_nat (length B) →
  ∃ b2, Next B b = (b2, More) ∧ standing o (n - 1) b2.
Proof.
  intros Ha Ho Hn Hpos H0 Hl. unfold Next. rewrite Ha.
  rewrite (proj2 (Z.leb_gt _ _)) by lia. cbn [set_iter b_offset b_left]. unfold hdr_size in Hl.
  rewrite (proj2 (Z.leb_le _ _)), (proj2 (Z.ltb_lt _ _)) by lia. simpl.
  eexists. split; [done|]. split_and!; simpl; congruence.
Qed.

Lemma go_loop_More (n : nat) (B : list byte) (b b' : Block) (p left : Z) :
  Next B b = (b', More) → standing p left b' →
  go_loop (S n) B b = (p :: (go_loop n B b').1, (go_loop n B b').2).
Proof.
  intros Hn (_ & _ & Hp). cbn [go_loop]. rewrite Hn. unfold Packet. rewrite Hp.
  by destruct (go_loop n B b').
Qed.

Lemma go_loop_chain (B : list byte) (n : nat) (p d : Z) (b : Block) (ps : list Z) :
  Z.of_nat (length B) < 2 ^ 62 → 0 < p < 2 ^ 62 →
  standing p (Z.of_nat n) b → tp_next_offset B p = Some d → chain B n (p + d) = Some ps →
  go_loop (S n) B b = (ps, Some Done).
Proof.
  intros HB. revert p d b ps. induction n as [|n IH]; intros p d b ps Hp Hb Hd Hc.
  all: destruct Hb as (Ho & Hleft & Hpkt); pose proof (field4_range _ _ _ Hd) as Hdr.
  all: assert (advance B b = inl (set_iter (p + d) (b_left b) b)) as Ha
    by (unfold advance; rewrite (proj2 (Z.eqb_neq _ _)), Hpkt, Hd, Ho, int64_small
          by (pow2; lia); done).
  - injection Hc as <-. cbn [go_loop]. unfold Next. rewrite Ha. cbn [set_iter b_left].
    by rewrite Hleft.
  - apply chain_S in Hc as (H0 & Hl & d' & ps' & Hd' & Hc & ->).
    destruct (Next_onto B b _ (p + d) (Z.of_nat (S n)) Ha) as (b2 & Hn & Hs); [done|done|lia..|].
    replace (Z.of_nat (S n) - 1) with (Z.of_nat n) in Hs by lia.
    rewrite (go_loop_More _ _ _ _ _ _ Hn Hs).
    by rewrite (IH (p + d) d' b2 ps') by (done || unfold hdr_size in *; lia).
Qed.

(** The packets of a block start at the first one. *)
Lemma packets_inv (B : list byte) (ps : list Z) :
  packets B = Some ps →
  ∃ o, num_pkts B = Some (Z.of_nat (length ps)) ∧ offset_to_first_pkt B = Some o ∧ 0 < o < 2 ^ 32 ∧
       chain B (length ps) o = Some ps ∧ B ≠ [].
Proof.
  unfold packets. destruct (num_pkts B) as [n|] eqn:Hn; [|done]. simpl.
  destruct (offset_to_first_pkt B) as [o|] eqn:Ho; [|done]. simpl.
  destruct (Z.ltb_spec 0 o); [|done]. intros Hc. exists o.
  pose proof (chain_length _ _ _ _ Hc) as Hlen.
  pose proof (field4_range _ _ _ Hn). pose proof (field4_range _ _ _ Ho).
  rewrite Hlen, Z2Nat.id by lia. split_and!; try (done || lia). by intros ->.
Qed.

(** On a well-formed block the loop over [Next] visits exactly its packets. *)
Lemma go_visits (B : list byte) (b : Block) (ps : list Z) :
  Z.of_nat (length B) < 2 ^ 62 → unread b → packets B = Some ps →
  go_loop (S (length ps)) B b = (ps, Some Done).
Proof.
  intros HB [Ho Hp] (o & Hn & Hf & H0 & Hc & Hne)%packets_inv.
  assert (advance B b = inl (set_iter o (Z.of_nat (length ps)) b)) as Ha.
  { unfold advance. by rewrite Ho, bool_decide_false, Hn, Hf. }
  destruct ps as [|p ps].
  { cbn [go_loop length]. unfold Next. by rewrite Ha. }
  apply chain_S in Hc as (Hpos & Hl & d & ps' & Hd & Hc & [= <- <-]).
  destruct (Next_onto B b _ p (Z.of_nat (length (p :: ps))) Ha)
    as (b2 & Hnx & Hs); [done|done|simpl; lia|lia|done|].
  cbn [length] in Hs |- *. replace (Z.of_nat (S (length ps)) - 1) with (Z.of_nat (length ps)) in Hs by lia.
  rewrite (go_loop_More _ _ _ _ _ _ Hnx Hs).
  by rewrite (go_loop_chain B (length ps) p d b2 ps) by (done || pow2; lia).
Qed.

(** The C loop over the same chain. *)
Lemma c_loop_chain (B : list byte) (n : nat) (p d : Z) (ps : list Z) :
  tp_next_offset B p = Some d → chain B n (p + d) = Some ps →
  CIter.loop (S n) B (CIter.Iter (Some p) (Z.of_nat n)) = (ps, true).
Proof.
  revert p d ps. induction n as [|n IH]; intros p d ps Hd Hc.
  { injection Hc as <-. done. }
  apply chain_S in Hc as (_ & _ & d' & ps' & Hd' & Hc & ->).
  remember (S n) as m. cbn [CIter.loop]. unfold CIter.next. cbn [CIter.it_left CIter.it_pkt].
  rewrite (proj2 (Z.eqb_neq _ _)), Hd by lia. simpl. subst m.
  replace (Z.of_nat (S n) - 1) with (Z.of_nat n) by lia. by rewrite (IH _ _ _ Hd' Hc).
Qed.

(** The C loop visits the packets of a block. *)
Lemma c_visits (B : list byte) (ps : list Z) :
  packets B = Some ps → desc_version B = Some CIter.TPACKET_V3 → Z.of_nat (length ps) < 2 ^ 31 →
  CIter.reset B = inl (CIter.Iter None (Z.of_nat (length ps))) ∧
  CIter.loop (S (length ps)) B (CIter.Iter None (Z.of_nat (length ps))) = (ps, true).
Proof.
  intros Hps Hv Hl. destruct (packets_inv B ps Hps) as (o & Hn & Hf & _ & Hc & _). split.
  - unfold CIter.reset. rewrite Hv, Hn. simpl. by rewrite int32_small by (pow2; lia).
  - destruct ps as [|p ps]; [done|].
    change (length (p :: ps)) with (S (length ps)) in Hc.
    apply chain_S in Hc as (_ & _ & d & ps' & Hd & Hc & [= <- <-]). cbn [length].
    remember (S (length ps)) as m. cbn [CIter.loop]. unfold CIter.next.
    cbn [CIter.it_left CIter.it_pkt]. rewrite (proj2 (Z.eqb_neq _ _)), Hf by lia. simpl. subst m.
    replace (Z.of_nat (S (length ps)) - 1) with (Z.of_nat (length ps)) by lia.
    by rewrite (c_loop_chain _ _ _ _ _ Hd Hc).
Qed.

(** C37: the two client libraries see the same packets: on every well-formed block the
    C iterator and the Go iterator visit the same headers, in the same order, and
    both end. *)
Theorem iterators_agree (B : list byte) (b : Block) (ps : list Z) :
  Z.of_nat (length B) < 2 ^ 62 → unread b → packets B = Some ps →
  desc_version B = Some CIter.TPACKET_V3 → Z.of_nat (length ps) < 2 ^ 31 →
  ∃ it, CIter.reset B = inl it ∧
    CIter.loop (S (length ps)) B it = (ps, true) ∧
    go_loop (S (length ps)) B b = (ps, Some Done).
Proof.
  intros HB Hu Hps Hv Hl. destruct (c_visits B ps Hps Hv Hl) as [Hr Hc].
  eexists. split_and!; [exact Hr|exact Hc|by apply go_visits].
Qed.

(** The data of the packet the iterator stands on is the captured bytes, the
    ones the C client's pointer points to, whenever they lie inside the block. *)
Theorem PacketData_bytes (B : list byte) (b : Block) (p left mac snaplen : Z) :
  Z.of_nat (length B) < 2 ^ 62 → standing p left b → 0 <= p →
  tp_mac B p = Some mac → tp_snaplen B p = Some snaplen →
  p + mac + snaplen <= Z.of_nat (length B) →
  ∃ data, PacketData B b = inl (Some data) ∧ Z.of_nat (length data) = snaplen ∧
    CIter.packet_data B p = Some (p + mac) ∧
    ∀ i, 0 <= i < snaplen → data !! Z.to_nat i = B !! Z.to_nat (p + mac + i).
Proof.
  intros HB (Ho & _ & Hp) H0 Hm Hs Hle.
  pose proof (field_range _ _ _ _ Hm) as Rm. pose proof (field4_range _ _ _ Hs) as Rs.
  change (2 ^ (8 * Z.of_nat 2)) with (2 ^ 16) in Rm.
  unfold PacketData, CIter.packet_data. rewrite Hp, Hm, Hs, Ho.
  rewrite (int64_small (p + mac)), int64_small by (pow2; lia).
  rewrite !(proj2 (Z.leb_le _ _)) by lia. eexists. split; [done|].
  split_and!; [rewrite length_take, length_drop; lia|done|].
  intros i Hi. rewrite lookup_take_lt, lookup_drop by lia. f_equal. lia.
Qed.

(** Iterating an empty block again after it ended crashes: the first [Next]
    answers false and moves the offset, the second one dereferences the packet that
    was never set. *)
Theorem Next_empty_block_twice (B : list byte) (b : Block) (o : Z) :
  unread b → num_pkts B = Some 0 → offset_to_first_pkt B = Some o → 0 < o →
  ∃ b', Next B b = (b', Done) ∧ (Next B b').2 = PanicNilPkt.
Proof.
  intros [Ho Hp] Hn Hf H0. assert (B ≠ []) by by intros ->.
  exists (set_iter o 0 b). unfold Next at 1, advance. rewrite Ho, bool_decide_false, Hn, Hf by done.
  split; [done|]. unfold Next, advance. simpl. rewrite Hp.
  by rewrite (proj2 (Z.eqb_neq _ _)) by lia.
Qed.

(** ** Examples *)

(** A block with two packets of two bytes each, and an empty one. *)
Definition demo_pkt (next : Z) (d0 d1 : byte) : list byte :=
  put_le 4 next ++ put_le 4 1 ++ put_le 4 2 ++ put_le 4 2 ++ put_le 4 2 ++ put_le 4 0 ++
  put_le 2 48 ++ replicate 22 Byte.x00 ++ [d0; d1].

Definition demo_block (n : Z) : list byte :=
  put_le 4 2 ++ put_le 4 0 ++ put_le 4 1 ++ put_le 4 n ++ put_le 4 24 ++ put_le 4 0 ++
  demo_pkt 50 Byte.x41 Byte.x42 ++ demo_pkt 0 Byte.x43 Byte.x44.

Definition demo_unread : Block := MkBlock true 0 (Slice 0 124) 0 0 None.

Lemma iterators_agree_witness :
  ∃ it, CIter.reset (demo_block 2) = inl it ∧
    CIter.loop 3 (demo_block 2) it = ([24; 74], true) ∧
    go_loop 3 (demo_block 2) demo_unread = ([24; 74], Some Done).
Proof.
  apply (iterators_agree (demo_block 2) demo_unread [24; 74]); vm_compute;
    try split; reflexivity.
Defined.

Lemma PacketData_bytes_witness :
  ∃ data, PacketData (demo_block 2) (Next (demo_block 2) demo_unread).1 = inl (Some data) ∧
    Z.of_nat (length data) = 2 ∧ data !! 1%nat = Some Byte.x42.
Proof.
  destruct (PacketData_bytes (demo_block 2) (Next (demo_block 2) demo_unread).1 24 1 48 2)
    as (data & Hd & Hl & _ & Hi).
  - vm_compute. reflexivity.
  - vm_compute. repeat split.
  - lia.
  - vm_compute. reflexivity.
  - vm_compute. reflexivity.
  - vm_compute. congruence.
  - exists data. split; [exact Hd|]. split; [exact Hl|].
    specialize (Hi 1 ltac:(lia)). change (Z.to_nat 1) with 1%nat in Hi. rewrite Hi.
    vm_compute. reflexivity.
Defined.

Lemma Next_empty_block_twice_witness :
  ∃ b', Next (demo_block 0) demo_unread = (b', Done) ∧
        (Next (demo_block 0) b').2 = PanicNilPkt.
Proof.
  apply (Next_empty_block_twice (demo_block 0) demo_unread 24); vm_compute; try split; reflexivity.
Defined.
