(* ===== verification/Testclient.v ===== *)
(** * The example client: go/testclient/testclient.go

    [main] after the flags are parsed: connect, choose a socket, then read blocks,
    walk their packets and return them, until [count] packets were read.  The
    contents of the blocks, one list of bytes per block read, are an argument:
    the ring is written by the kernel. *)

From stdpp Require Import base list numbers option.
From Stdlib Require Import ZArith Lia.
From S2P Require Import Prelude Bytes Protocol Cmsg Link Client Packets.

(** How [main] ends. *)
Inductive tc_end :=
  | Finished (totalCount : Z)
  | ConnectFailed (e : client_error)
  | InitFailed (e : client_error)
  | BlockFailed (e : client_error)        (* log.Fatalf *)
  | ReturnFailed (e : client_error)       (* log.Fatalf *)
  | PacketPanic (r : next_result)
  | Running.                              (* more blocks than were given *)

(** [if *dump { fmt.Printf("%x\n", block.PacketData()) }] *)
Definition dump_packet (dump : bool) (B : list byte) (b : Block) : option next_result :=
  if dump then match PacketData B b with inl _ => None | inr r => Some r end else None.

(** [for block.Next() { ... }], with the value of [*count] and the packets seen; the
    number of turns is bounded by [fuel]. *)
Fixpoint packet_loop (fuel : nat) (dump : bool) (B : list byte) (b : Block) (count blockCount : Z) :
    (Block * Z * Z) + option next_result :=
  match fuel with
  | O => inr None
  | S fuel =>
      match Next B b with
      | (b, More) =>
          if count =? 0 then inl (b, count, blockCount)
          else match dump_packet dump B b with
               | Some r => inr (Some r)
               | None => packet_loop fuel dump B b (int64 (count - 1)) (blockCount + 1)
               end
      | (b, Done) => inl (b, count, blockCount)
      | (_, r) => inr (Some r)
      end
  end.

(** The turns that suffice for a block: one more than its packets. *)
Definition packet_fuel (B : list byte) : nat := S (Z.to_nat (default 0 (num_pkts B))).

(** The outer loop, over the contents of the blocks that will be read. *)
Fixpoint block_loop (dump : bool) (mems : list (list byte)) (count totalCount : Z) (t : Conn) :
    Conn * tc_end :=
  match mems with
  | [] => (t, Running)
  | B :: mems =>
      match Conn_Block t with
      | (t, inr e) => (t, BlockFailed e)
      | (t, inl block) =>
          match packet_loop (packet_fuel B) dump B block count 0 with
          | inr (Some r) => (t, PacketPanic r)
          | inr None => (t, Running)
          | inl (block, count, blockCount) =>
              match Return block t with
              | (t, inr e) => (t, ReturnFailed e)
              | (t, inl _) =>
                  let totalCount := totalCount + blockCount in
                  if count =? 0 then (t, Finished totalCount)
                  else block_loop dump mems count totalCount t
              end
          end
      end
  end.

Definition main (os : sys) (dial : link + Z) (fanoutInt : Z) (dump : bool) (count : Z)
    (mems : list (list byte)) : Conn * tc_end :=
  match Connect os dial with
  | (t, Some e) => (t, ConnectFailed e)
  | (t, None) =>
      match Init os fanoutInt t with
      | (t, Some e) => (t, InitFailed e)
      | (t, None) => block_loop dump mems count 0 t
      end
  end.

(** ** Properties *)

(** How many of [p] packets are read when [count] are still wanted; a negative
    count is no limit. *)
Definition taken (count : Z) (p : nat) : nat :=
  if count <? 0 then p else Nat.min (Z.to_nat count) p.

(** Equal results with equal counts. *)
Ltac same_counts :=
  match goal with
  | |- inl (?b, ?x, ?y) = inl (?b, ?x', ?y') =>
      replace x' with x by lia; replace y' with y by lia; reflexivity
  end.

(** [Next] changes only the position. *)
Lemma Next_frame (B : list byte) (b b' : Block) (r : next_result) :
  Next B b = (b', r) → b_t b' = b_t b ∧ b_i b' = b_i b.
Proof.
  unfold Next, advance. intros H. repeat (case_match; simplify_eq/=); done.
Qed.

(** The packets of a block: all of them, or as many as are wanted. *)
Lemma packet_loop_counts (fuel : nat) (B : list byte) (b : Block) (ps : list Z) (count bc : Z) :
  go_loop fuel B b = (ps, Some Done) →
  - 2 ^ 63 <= count - Z.of_nat (length ps) → count < 2 ^ 63 →
  ∃ b', b_t b' = b_t b ∧ b_i b' = b_i b ∧
    packet_loop fuel false B b count bc =
      inl (b', count - Z.of_nat (taken count (length ps)), bc + Z.of_nat (taken count (length ps))).
Proof.
  revert b ps count bc. induction fuel as [|fuel IH]; intros b ps count bc Hg Hlo Hhi; [done|].
  cbn [go_loop packet_loop] in *. destruct (Next B b) as [b1 r] eqn:Hn.
  destruct (Next_frame _ _ _ _ Hn) as [Ht Hi]. destruct r; simplify_eq/=.
  - destruct (go_loop fuel B b1) as [ps' r'] eqn:Hg'. simplify_eq/=.
    destruct (Z.eqb_spec count 0) as [->|Hne].
    { exists b1. split_and!; [done..|]. unfold taken. simpl. same_counts. }
    destruct (IH b1 ps' (count - 1) (bc + 1) Hg') as (b' & Ht' & Hi' & Hp); [lia..|].
    exists b'. split_and!; [congruence..|]. rewrite int64_small, Hp by lia.
    assert (taken count (S (length ps')) = S (taken (count - 1) (length ps'))) as ->.
    { unfold taken. destruct (Z.ltb_spec count 0), (Z.ltb_spec (count - 1) 0); lia. }
    same_counts.
  - exists b1. split_and!; [done..|].
    assert (taken count 0 = 0%nat) as -> by (unfold taken; case_match; lia). same_counts.
Qed.

(** A block the server sends: its index and what the kernel wrote to it. *)
Definition good_block (t : Conn) (it : Z * list byte * list Z) : Prop :=
  let '(idx, B, ps) := it in
  0 <= idx < t_numBlocks t ∧ idx < 2 ^ 31 ∧ Z.of_nat (length B) < 2 ^ 62 ∧ packets B = Some ps.

Definition words (items : list (Z * list byte * list Z)) : list byte :=
  (items.*1).*1 ≫= put_uint32.

Definition packets_total (items : list (Z * list byte * list Z)) : Z :=
  foldr (λ it n, Z.of_nat (length it.2) + n) 0 items.

(** One turn of the outer loop on such a block. *)
Lemma block_turn (mems : list (list byte)) (t : Conn) (k : link) (idx : Z) (B : list byte)
    (ps : list Z) (rest : list byte) (count total : Z) :
  ready t → t_c t = Some k → good_block t (idx, B, ps) → k_in k = put_uint32 idx ++ rest →
  (4 ≤ k_budget k)%nat → 0 <= count < 2 ^ 63 →
  let n := Z.min count (Z.of_nat (length ps)) in
  let t' := set_c (Some (sent (put_uint32 idx) (set_in rest k))) t in
  block_loop false (B :: mems) count total t =
    if count =? n then (t', Finished (total + n))
    else block_loop false mems (count - n) (total + n) t'.
Proof.
  intros Hr Ht (Hi & Hlt & HB & Hps) Hin Hb Hc n t'. cbn [block_loop].
  rewrite (Conn_Block_next t k [] idx rest Hr Ht) by (done || lia).
  rewrite bool_decide_true by lia.
  destruct (packets_inv B ps Hps) as (o & Hn & _).
  assert (packet_fuel B = S (length ps)) as -> by (unfold packet_fuel; rewrite Hn; simpl; lia).
  pose proof (go_visits B (MkBlock true idx (Slice (idx * t_blockSize t) (t_blockSize t)) 0 0 None)
    ps HB ltac:(by split) Hps) as Hg.
  assert (Z.of_nat (length ps) < 2 ^ 32) by (apply field4_range in Hn; lia).
  destruct (packet_loop_counts _ _ _ _ count 0 Hg) as (b' & Hbt & Hbi & ->); [pow2; lia..|].
  replace (Z.of_nat (taken count (length ps))) with n
    by (unfold taken, n; rewrite (proj2 (Z.ltb_ge count 0)); lia).
  rewrite (Return_writes (at_rest k rest t) (set_in rest k)) by done.
  rewrite Hbi. cbn [b_i]. rewrite (uint32_small idx), Z.add_0_l by (pow2; lia).
  destruct (Z.eqb_spec count n) as [Heq|].
  - by rewrite <- Heq, Z.sub_diag.
  - by rewrite (proj2 (Z.eqb_neq (count - n) 0)) by lia.
Qed.

(** C35: the example client stops exactly when it should: given a limit and blocks
    that hold at least that many packets, it reads exactly [count] packets, stops
    with the block that reaches the limit, and has returned every block it read, in
    the order in which it got them. *)
Theorem testclient_counts (items : list (Z * list byte * list Z)) (t : Conn) (k : link)
    (rest : list byte) (count total : Z) :
  ready t → t_c t = Some k → Forall (good_block t) items → items ≠ [] →
  k_in k = words items ++ rest → (length (words items) ≤ k_budget k)%nat →
  0 <= count < 2 ^ 63 → count <= packets_total items →
  ∃ read unread, items = read ++ unread ∧ read ≠ [] ∧
    block_loop false ((items.*1).*2) count total t =
      (set_c (Some (sent (words read) (set_in (words unread ++ rest) k))) t,
       Finished (total + count)).
Proof.
  intros Hr. revert t k Hr count total.
  induction items as [|[[idx B] ps] items IH]; intros t k Hr count total Ht Hall Hne Hin Hb Hc Hsum;
    [done|].
  apply Forall_cons_iff in Hall as [Hg Hall].
  change (words ((idx, B, ps) :: items)) with (put_uint32 idx ++ words items) in *.
  rewrite length_app, length_put_uint32 in Hb. rewrite <- app_assoc in Hin.
  rewrite !fmap_cons. cbn [fst snd].
  rewrite (block_turn _ t k idx B ps (words items ++ rest)) by (done || lia).
  cbn [packets_total foldr snd] in Hsum. fold (packets_total items) in Hsum.
  set (n := Z.min count (Z.of_nat (length ps))). destruct (Z.eqb_spec count n) as [Heq|Hneq].
  - exists [(idx, B, ps)], items. split_and!; [done..|]. rewrite <- Heq. done.
  - assert (n = Z.of_nat (length ps)) as Hn by lia.
    destruct (IH (set_c (Some (sent (put_uint32 idx) (set_in (words items ++ rest) k))) t)
      (sent (put_uint32 idx) (set_in (words items ++ rest) k)) Hr (count - n) (total + n))
      as (read & unread & -> & _ & ->); try done.
    + intros ->. simpl in Hsum. lia.
    + cbn [sent k_budget set_in]. rewrite length_put_uint32. lia.
    + lia.
    + lia.
    + exists ((idx, B, ps) :: read), unread. split_and!; [done..|].
      change (words ((idx, B, ps) :: read)) with (put_uint32 idx ++ words read).
      rewrite <- sent_sent. do 2 f_equal. lia.
Qed.

(** Three blocks, the second one empty; three packets are wanted. *)
Definition demo_items3 : list (Z * list byte * list Z) :=
  [(2, demo_block 2, [24; 74]); (0, demo_block 0, []); (1, demo_block 2, [24; 74])].

Definition demo_tc_link : link := Link (words demo_items3) [] [] [] 100 false.
Definition demo_tc : Conn := MkConn (Some demo_tc_link) 7 (Some 16384) 4 4096 1.

Lemma testclient_counts_witness :
  ∃ read unread, demo_items3 = read ++ unread ∧ read ≠ [] ∧
    block_loop false ((demo_items3.*1).*2) 3 0 demo_tc =
      (set_c (Some (sent (words read) (set_in (words unread ++ []) demo_tc_link))) demo_tc,
       Finished (0 + 3)).
Proof.
  apply (testclient_counts demo_items3 demo_tc demo_tc_link [] 3 0).
  - vm_compute. repeat split; congruence.
  - reflexivity.
  - repeat constructor; vm_compute; (reflexivity || congruence).
  - discriminate.
  - reflexivity.
  - vm_compute. lia.
  - pow2. lia.
  - vm_compute. congruence.
Defined.
