(* ===== verification/Flags.v ===== *)
(** * Command lines: the flags of testimonyd and testclient

    The three groups of flags the programs declare (testimonyd/daemon.go, vlog/vlog.go,
    testclient/testclient.go), what [flag.Parse] makes of a command line, and the two
    programs started from their arguments.  A flag is [-name] or [--name], with its
    value after [=] or, unless it is boolean, as the next argument; the first argument
    that is not a flag, or [--], ends them. *)

From stdpp Require Import base list numbers option strings.
From Stdlib Require Import ZArith Lia.
From S2P Require Import Prelude Bytes Strconv Link AFPacket Config Client Testclient Report.

(** ** Values of flags *)
Inductive flag_value := VString (s : list byte) | VInt (z : Z) | VBool (b : bool).

Definition bytes (s : string) : list byte := String.list_byte_of_string s.

(** [strconv.ParseBool] *)
Definition ParseBool (s : list byte) : option bool :=
  if bool_decide (s ∈ bytes <$> ["1"; "t"; "T"; "TRUE"; "true"; "True"]) then Some true
  else if bool_decide (s ∈ bytes <$> ["0"; "f"; "F"; "FALSE"; "false"; "False"]) then Some false
  else None.

(** The digits of [strconv.ParseUint], of either case. *)
Definition any_digit (b : byte) : option Z :=
  let v := byte_val b in
  if (48 <=? v) && (v <=? 57) then Some (v - 48)
  else if (97 <=? v) && (v <=? 122) then Some (v - 97 + 10)
  else if (65 <=? v) && (v <=? 90) then Some (v - 65 + 10)
  else None.

(** Its loop, which passes over underscores. *)
Fixpoint based_val (base acc : Z) (s : list byte) : option Z :=
  match s with
  | [] => Some acc
  | Byte.x5f :: s => based_val base acc s
  | b :: s => d ← any_digit b; if d <? base then based_val base (acc * base + d) s else None
  end.

(** [underscoreOK], on digits and underscores: each underscore between two digits,
    where the prefix of the base counts as a digit. *)
Fixpoint underscores_ok (after_digit last : bool) (s : list byte) : bool :=
  match s with
  | [] => negb last
  | Byte.x5f :: s => after_digit && underscores_ok false true s
  | _ :: s => underscores_ok true false s
  end.

(** The base a number is written in, its digits, and whether it has a prefix. *)
Definition base_prefix (s : list byte) : Z * list byte * bool :=
  match s with
  | Byte.x30 :: (Byte.x62 | Byte.x42) :: (_ :: _) as s => (2, s, true)
  | Byte.x30 :: (Byte.x6f | Byte.x4f) :: (_ :: _) as s => (8, s, true)
  | Byte.x30 :: (Byte.x78 | Byte.x58) :: (_ :: _) as s => (16, s, true)
  | Byte.x30 :: s => (8, s, true)
  | _ => (10, s, false)
  end.

(** [strconv.ParseInt(s, 0, 64)], as [flag.Int] uses it; its errors are not told apart. *)
Definition ParseInt (s : list byte) : option Z :=
  let '(neg, body) :=
    match s with
    | Byte.x2d :: s' => (true, s')
    | Byte.x2b :: s' => (false, s')
    | _ => (false, s)
    end in
  match body with
  | [] => None
  | _ =>
      let '(base, ds, prefix) := base_prefix body in
      m ← based_val base 0 ds;
      if underscores_ok prefix false ds then
        let v := if (neg : bool) then - m else m in
        if (- 2 ^ 63 <=? v) && (v <? 2 ^ 63) then Some v else None
      else None
  end.

(** [Value.Set]: the kind of a flag is that of its default. *)
Definition set_value (old : flag_value) (s : list byte) : option flag_value :=
  match old with
  | VString _ => Some (VString s)
  | VInt _ => VInt <$> ParseInt s
  | VBool _ => VBool <$> ParseBool s
  end.

(** ** Parse *)
Definition flag_set := list (list byte * flag_value).

Fixpoint get_flag (name : list byte) (fs : flag_set) : option flag_value :=
  match fs with
  | [] => None
  | (n, v) :: fs => if decide (n = name) then Some v else get_flag name fs
  end.

Fixpoint put_flag (name : list byte) (v : flag_value) (fs : flag_set) : flag_set :=
  match fs with
  | [] => []
  | (n, v0) :: fs => if decide (n = name) then (n, v) :: fs else (n, v0) :: put_flag name v fs
  end.

Inductive flag_error :=
  | BadFlagSyntax (arg : list byte)
  | FlagNotDefined (name : list byte)
  | HelpRequested
  | FlagNeedsArgument (name : list byte)
  | InvalidFlagValue (name value : list byte).

(** What one argument is. *)
Inductive argument :=
  | NoFlag                                        (* ends the flags, is kept *)
  | EndOfFlags                                    (* -- *)
  | BadFlag
  | Flag (name : list byte) (value : option (list byte)).

(** The name up to the first [=] and the value after it. *)
Fixpoint cut_value (s : list byte) : list byte * option (list byte) :=
  match s with
  | [] => ([], None)
  | Byte.x3d :: s => ([], Some s)
  | b :: s => let '(name, value) := cut_value s in (b :: name, value)
  end.

(** What follows the dashes; [=] cannot be first. *)
Definition flag_name (s : list byte) : argument :=
  match s with
  | [] | Byte.x2d :: _ | Byte.x3d :: _ => BadFlag
  | b :: s => let '(name, value) := cut_value s in Flag (b :: name) value
  end.

Definition read_argument (s : list byte) : argument :=
  match s with
  | Byte.x2d :: Byte.x2d :: [] => EndOfFlags
  | Byte.x2d :: Byte.x2d :: s => flag_name s
  | Byte.x2d :: b :: s => flag_name (b :: s)
  | _ => NoFlag
  end.

(** [flag.Parse]: the values, and the arguments that are left. *)
Fixpoint Parse (fs : flag_set) (args : list (list byte)) :
    (flag_set * list (list byte)) + flag_error :=
  match args with
  | [] => inl (fs, [])
  | arg :: rest =>
      match read_argument arg with
      | NoFlag => inl (fs, args)
      | EndOfFlags => inl (fs, rest)
      | BadFlag => inr (BadFlagSyntax arg)
      | Flag name value =>
          match get_flag name fs, value, rest with
          | None, _, _ =>
              inr (if bool_decide (name = bytes "help" ∨ name = bytes "h") then HelpRequested
                   else FlagNotDefined name)
          | Some (VBool b), _, _ =>
              let s := default (bytes "true") value in
              match set_value (VBool b) s with
              | Some v => Parse (put_flag name v fs) rest
              | None => inr (InvalidFlagValue name s)
              end
          | Some old, Some s, _ =>
              match set_value old s with
              | Some v => Parse (put_flag name v fs) rest
              | None => inr (InvalidFlagValue name s)
              end
          | Some old, None, s :: rest =>
              match set_value old s with
              | Some v => Parse (put_flag name v fs) rest
              | None => inr (InvalidFlagValue name s)
              end
          | Some _, None, [] => inr (FlagNeedsArgument name)
          end
      end
  end.

(** ** The programs *)

(** [*p] of what [flag.String] and the others returned. *)
Definition string_flag (name : string) (fs : flag_set) : list byte :=
  match get_flag (bytes name) fs with Some (VString s) => s | _ => [] end.
Definition int_flag (name : string) (fs : flag_set) : Z :=
  match get_flag (bytes name) fs with Some (VInt z) => z | _ => 0 end.
Definition bool_flag (name : string) (fs : flag_set) : bool :=
  match get_flag (bytes name) fs with Some (VBool b) => b | _ => false end.

Definition testclient_flags : flag_set :=
  [(bytes "socket", VString []); (bytes "fanout", VInt 0); (bytes "dump", VBool false);
   (bytes "count", VInt (-1))].

(** [dial] is the connection attempt to the named socket. *)
Definition testclient_main (os : sys) (dial : list byte → link + Z) (args : list (list byte))
    (mems : list (list byte)) : (Conn * tc_end) + flag_error :=
  match Parse testclient_flags args with
  | inr e => inr e
  | inl (fs, _) =>
      inl (Testclient.main os (dial (string_flag "socket" fs)) (int_flag "fanout" fs)
             (bool_flag "dump" fs) (int_flag "count" fs) mems)
  end.

(** vlog declares -v in the same set; [vlog.VUp] compares the level of a message with
    its value ([*verbose], the argument [verbose] of [VUp] in Report). *)
Definition vlog_flags : flag_set := [(bytes "v", VInt 0)].
Definition testimonyd_flags : flag_set :=
  vlog_flags ++ [(bytes "config", VString (bytes "/etc/testimony.conf")); (bytes "syslog", VBool true)].

(** The verbosity the process logs with, and how [main] ends. *)
Definition testimonyd_main (o : os) (decode : list byte → option (list SocketConfig))
    (syslog : option errno) (ReadFile : list byte → list byte + errno) (args : list (list byte)) :
    (Z * main_result) + flag_error :=
  match Parse testimonyd_flags args with
  | inr e => inr e
  | inl (fs, _) =>
      inl (int_flag "v" fs,
           Config.main o decode (bool_flag "syslog" fs) syslog (ReadFile (string_flag "config" fs)))
  end.

(** ** Properties *)

(** Values as they are written on a command line. *)
Definition print_int (z : Z) : list byte :=
  if z <? 0 then Byte.x2d :: print_nat (- z) else print_nat z.

Definition print_value (v : flag_value) : list byte :=
  match v with
  | VString s => s
  | VInt z => print_int z
  | VBool b => bytes (if b then "true" else "false")
  end.

(** [-name=value] *)
Definition print_setting (p : list byte * flag_value) : list byte :=
  Byte.x2d :: p.1 ++ Byte.x3d :: print_value p.2.

Lemma digit_based (b : byte) (d : Z) :
  digit b = Some d → any_digit b = Some d ∧ b ≠ Byte.x5f ∧ (d <? 10) = true.
Proof.
  unfold digit, any_digit. destruct ((0 <=? _) && _) eqn:E; [|done]. intros [= <-].
  apply andb_prop in E as [H1%Z.leb_le H2%Z.leb_le].
  rewrite (proj2 (Z.leb_le 48 _)), (proj2 (Z.leb_le _ 57)) by lia. split_and!; [done| |apply Z.ltb_lt; lia].
  intros ->. vm_compute in H2. congruence.
Qed.

Lemma based_digits (s : list byte) (a : Z) :
  Forall (λ b, is_Some (digit b)) s → based_val 10 a s = digits_val a s.
Proof.
  intros Hs. revert a. induction Hs as [|b s [d Hd] _ IH]; intros a; [done|].
  destruct (digit_based b d Hd) as (Ha & Hu & Hlt). cbn [digits_val]. rewrite Hd. cbn.
  rewrite <- IH. destruct b; try done; cbn [based_val]; rewrite Ha; cbn; by rewrite Hlt.
Qed.

Lemma digits_underscores (s : list byte) (d : bool) :
  Forall (λ b, is_Some (digit b)) s → underscores_ok d false s = true.
Proof.
  intros Hs. revert d. induction Hs as [|b s [v Hd] _ IH]; intros d; [done|].
  destruct (digit_based b v Hd) as (_ & Hu & _). destruct b; try done; apply IH.
Qed.

(** Printed numbers have no leading zero. *)
Lemma digits_base (b : byte) (s : list byte) (d : Z) :
  digit b = Some d → d ≠ 0 → base_prefix (b :: s) = (10, b :: s, false).
Proof. intros Hd Hne. destruct b; try done. by vm_compute in Hd; simplify_eq. Qed.

Lemma print_nat_based (n : Z) :
  0 <= n →
  let '(base, ds, prefix) := base_prefix (print_nat n) in
  based_val base 0 ds = Some n ∧ underscores_ok prefix false ds = true.
Proof.
  intros Hn. destruct (decide (n = 0)) as [->|Hne]; [by vm_compute|].
  destruct (print_nat_head n) as (b & s & d & E & Hd & Hd0); [lia|].
  destruct (print_nat_digits n Hn) as (_ & Hall & Hv). rewrite E in *.
  rewrite (digits_base b s d Hd Hd0). rewrite based_digits by done. split; [done|].
  by apply digits_underscores.
Qed.

(** The sign of a number. *)
Lemma digit_unsigned {A} (b : byte) (s : list byte) (f g : list byte → A) (h : A) :
  is_Some (digit b) →
  match b :: s with Byte.x2d :: s' => f s' | Byte.x2b :: s' => g s' | _ => h end = h.
Proof. intros [d Hd]. destruct b; try done; by vm_compute in Hd. Qed.

Lemma ParseInt_print (z : Z) : - 2 ^ 63 <= z < 2 ^ 63 → ParseInt (print_int z) = Some z.
Proof.
  intros Hz. unfold ParseInt, print_int. destruct (Z.ltb_spec z 0) as [Hlt|Hge].
  - pose proof (print_nat_based (- z) ltac:(lia)) as H.
    destruct (print_nat_digits (- z)) as (Hne & _ & _); [lia|].
    destruct (print_nat (- z)) as [|b s]; [done|].
    destruct (base_prefix (b :: s)) as [[base ds] pre]. destruct H as [-> ->]. cbn [mbind option_bind].
    rewrite Z.opp_involutive. by rewrite (proj2 (Z.leb_le _ _)), (proj2 (Z.ltb_lt _ _)) by lia.
  - pose proof (print_nat_based z ltac:(lia)) as H.
    destruct (print_nat_digits z) as (Hne & Hall & _); [lia|].
    destruct (print_nat z) as [|b s]; [done|]. apply Forall_cons_iff in Hall as [Hb _].
    rewrite (digit_unsigned b s (λ s, (true, s)) (λ s, (false, s)) (false, b :: s) Hb).
    destruct (base_prefix (b :: s)) as [[base ds] pre]. destruct H as [-> ->]. cbn [mbind option_bind].
    by rewrite (proj2 (Z.leb_le _ _)), (proj2 (Z.ltb_lt _ _)) by lia.
Qed.

(** Values of a flag, and settings of flags that exist. *)
Definition same_kind (v v' : flag_value) : Prop :=
  match v, v' with
  | VString _, VString _ | VInt _, VInt _ | VBool _, VBool _ => True
  | _, _ => False
  end.

Definition value_ok (v : flag_value) : Prop :=
  match v with VInt z => - 2 ^ 63 <= z < 2 ^ 63 | _ => True end.

Definition name_ok (name : list byte) : Prop :=
  Byte.x3d ∉ name ∧ match name with [] | Byte.x2d :: _ => False | _ => True end.

Definition setting_ok (fs : flag_set) (p : list byte * flag_value) : Prop :=
  name_ok p.1 ∧ value_ok p.2 ∧ ∃ v0, get_flag p.1 fs = Some v0 ∧ same_kind v0 p.2.

Lemma set_value_print (v0 v : flag_value) :
  same_kind v0 v → value_ok v → set_value v0 (print_value v) = Some v.
Proof.
  destruct v0, v; simpl; try done; intros _ Hv.
  - by rewrite ParseInt_print.
  - by destruct b0.
Qed.

Lemma cut_value_app (name value : list byte) :
  Byte.x3d ∉ name → cut_value (name ++ Byte.x3d :: value) = (name, Some value).
Proof.
  induction name as [|b name IH]; intros Hn; [done|].
  apply not_elem_of_cons in Hn as [Hb Hn]. simpl. rewrite (IH Hn). by destruct b.
Qed.

Lemma read_setting (name : list byte) (v : flag_value) :
  name_ok name → read_argument (print_setting (name, v)) = Flag name (Some (print_value v)).
Proof.
  intros [Hn Hhead]. unfold print_setting. simpl. destruct name as [|b name]; [done|].
  apply not_elem_of_cons in Hn as [Hb Hn]. simpl.
  assert (flag_name (b :: name ++ Byte.x3d :: print_value v) = Flag (b :: name) (Some (print_value v))) as E
    by (simpl; rewrite cut_value_app by done; by destruct b).
  by destruct b.
Qed.

Lemma get_put (fs : flag_set) (n m : list byte) (v : flag_value) :
  get_flag n (put_flag m v fs) =
    match get_flag n fs with
    | Some v0 => if decide (m = n) then Some v else Some v0
    | None => None
    end.
Proof.
  induction fs as [|[k v0] fs IH]; [done|]. simpl. repeat case_decide; subst; simpl;
    repeat case_decide; subst; try done; destruct (get_flag _ fs); done.
Qed.

Lemma get_flag_app (n : list byte) (l k : flag_set) :
  get_flag n (l ++ k) = match get_flag n l with Some v => Some v | None => get_flag n k end.
Proof. induction l as [|[m v] l IH]; simpl; [done|]. by case_decide. Qed.

Lemma Parse_setting (fs : flag_set) (p : list byte * flag_value) (args : list (list byte)) :
  setting_ok fs p → Parse fs (print_setting p :: args) = Parse (put_flag p.1 p.2 fs) args.
Proof.
  destruct p as [name v]. intros (Hn & Hv & v0 & Hget & Hk). cbn [fst snd] in *. cbn [Parse].
  rewrite read_setting, Hget by done. pose proof (set_value_print v0 v Hk Hv) as Hset.
  destruct v0; cbv zeta; unfold default, from_option, id; by rewrite Hset.
Qed.

Lemma setting_ok_put (fs : flag_set) (p q : list byte * flag_value) :
  setting_ok fs p → setting_ok fs q → setting_ok (put_flag p.1 p.2 fs) q.
Proof.
  intros (_ & _ & v1 & H1 & K1) (Hn & Hv & v0 & H0 & K0). split_and!; [done..|].
  rewrite get_put, H0. case_decide as E; [|by eauto].
  rewrite E, H0 in H1. injection H1 as ->. exists p.2. split; [done|].
  destruct v1, p as [? []], q as [? []]; done.
Qed.

(** The arguments after the flags. *)
Definition no_flag_first (rest : list (list byte)) : Prop :=
  match rest with [] => True | arg :: _ => read_argument arg = NoFlag end.

(** Settings in any number and order, with repetitions: the last one of each name. *)
Lemma Parse_settings (fs : flag_set) (settings : flag_set) (rest : list (list byte)) :
  Forall (setting_ok fs) settings → no_flag_first rest →
  ∃ fs', Parse fs ((print_setting <$> settings) ++ rest) = inl (fs', rest) ∧
    ∀ n, get_flag n fs' = get_flag n (reverse settings ++ fs).
Proof.
  intros Hs Hrest. revert fs Hs. induction settings as [|p settings IH]; intros fs Hs.
  { exists fs. split; [|done]. destruct rest as [|arg rest]; [done|]. cbn [fmap list_fmap app Parse].
    by rewrite Hrest. }
  apply Forall_cons_iff in Hs as [Hp Hs]. cbn [fmap list_fmap app]. rewrite Parse_setting by done.
  destruct (IH (put_flag p.1 p.2 fs)) as (fs' & HP & Hget).
  { eapply Forall_impl; [exact Hs|]. intros q. by apply setting_ok_put. }
  exists fs'. split; [done|]. intros n. rewrite Hget, reverse_cons, <- app_assoc, !get_flag_app.
  destruct (get_flag n (reverse settings)); [done|]. destruct p as [name v]. simpl. rewrite get_put.
  destruct Hp as (_ & _ & v0 & Hv0 & _). simpl in Hv0.
  case_decide as E; [subst; by rewrite Hv0|]. by destruct (get_flag n fs).
Qed.

(** *** The options of the two programs *)

(** What a user of testclient can set, and what it is set to without that. *)
Inductive tc_setting := SetSocket (s : list byte) | SetFanout (z : Z) | SetDump (b : bool) | SetCount (z : Z).
Record tc_options := TcOptions { o_socket : list byte; o_fanout : Z; o_dump : bool; o_count : Z }.

Definition tc_defaults : tc_options := TcOptions [] 0 false (-1).

Definition tc_apply (o : tc_options) (x : tc_setting) : tc_options :=
  match x with
  | SetSocket s => TcOptions s (o_fanout o) (o_dump o) (o_count o)
  | SetFanout z => TcOptions (o_socket o) z (o_dump o) (o_count o)
  | SetDump b => TcOptions (o_socket o) (o_fanout o) b (o_count o)
  | SetCount z => TcOptions (o_socket o) (o_fanout o) (o_dump o) z
  end.

Definition tc_pair (x : tc_setting) : list byte * flag_value :=
  match x with
  | SetSocket s => (bytes "socket", VString s)
  | SetFanout z => (bytes "fanout", VInt z)
  | SetDump b => (bytes "dump", VBool b)
  | SetCount z => (bytes "count", VInt z)
  end.

(** The same for testimonyd. *)
Inductive td_setting := SetV (z : Z) | SetConfig (s : list byte) | SetSyslog (b : bool).
Record td_options := TdOptions { o_verbose : Z; o_config : list byte; o_syslog : bool }.

Definition td_defaults : td_options := TdOptions 0 (bytes "/etc/testimony.conf") true.

Definition td_apply (o : td_options) (x : td_setting) : td_options :=
  match x with
  | SetV z => TdOptions z (o_config o) (o_syslog o)
  | SetConfig s => TdOptions (o_verbose o) s (o_syslog o)
  | SetSyslog b => TdOptions (o_verbose o) (o_config o) b
  end.

Definition td_pair (x : td_setting) : list byte * flag_value :=
  match x with
  | SetV z => (bytes "v", VInt z)
  | SetConfig s => (bytes "config", VString s)
  | SetSyslog b => (bytes "syslog", VBool b)
  end.

(** Settings of declared flags; integers of 64 bits. *)
Ltac setting_ok_by_kind :=
  split; [split; [apply (bool_decide_unpack _); by vm_compute|done]|];
  split; [done|eexists; split; [vm_compute; reflexivity|done]].

Lemma tc_setting_ok (x : tc_setting) :
  value_ok (tc_pair x).2 → setting_ok testclient_flags (tc_pair x).
Proof. intros H. destruct x; setting_ok_by_kind. Qed.

Lemma td_setting_ok (x : td_setting) :
  value_ok (td_pair x).2 → setting_ok testimonyd_flags (td_pair x).
Proof. intros H. destruct x; setting_ok_by_kind. Qed.

(** What the program finds under its flags: the last setting of each. *)
Lemma get_flag_cons (n m : list byte) (v : flag_value) (fs : flag_set) :
  get_flag n ((m, v) :: fs) = if decide (m = n) then Some v else get_flag n fs.
Proof. done. Qed.

Ltac last_setting IH :=
  repeat match goal with |- context [decide (?a = ?b)] =>
    first [rewrite (decide_True (P := (a = b))) by reflexivity
          |rewrite (decide_False (P := (a = b))) by (by vm_compute)]
  end; first [reflexivity|apply IH].

Lemma tc_values (xs : list tc_setting) :
  let fs := reverse (tc_pair <$> xs) ++ testclient_flags in
  let o := foldl tc_apply tc_defaults xs in
  string_flag "socket" fs = o_socket o ∧ int_flag "fanout" fs = o_fanout o ∧
  bool_flag "dump" fs = o_dump o ∧ int_flag "count" fs = o_count o.
Proof.
  cbn zeta. induction xs as [|x xs IH] using rev_ind; [vm_compute; by split_and!|].
  rewrite fmap_app, foldl_app, reverse_app. cbn [fmap list_fmap foldl]. rewrite reverse_singleton.
  cbn [app]. revert IH. generalize (foldl tc_apply tc_defaults xs) as o.
  generalize (reverse (tc_pair <$> xs) ++ testclient_flags) as fs. intros fs o IH.
  unfold string_flag, int_flag, bool_flag in *.
  destruct x; cbn [tc_pair tc_apply o_socket o_fanout o_dump o_count]; rewrite !get_flag_cons;
    split_and!; last_setting IH.
Qed.

Lemma td_values (xs : list td_setting) :
  let fs := reverse (td_pair <$> xs) ++ testimonyd_flags in
  let o := foldl td_apply td_defaults xs in
  int_flag "v" fs = o_verbose o ∧ string_flag "config" fs = o_config o ∧
  bool_flag "syslog" fs = o_syslog o.
Proof.
  cbn zeta. induction xs as [|x xs IH] using rev_ind; [vm_compute; by split_and!|].
  rewrite fmap_app, foldl_app, reverse_app. cbn [fmap list_fmap foldl]. rewrite reverse_singleton.
  cbn [app]. revert IH. generalize (foldl td_apply td_defaults xs) as o.
  generalize (reverse (td_pair <$> xs) ++ testimonyd_flags) as fs. intros fs o IH.
  unfold string_flag, int_flag, bool_flag in *.
  destruct x; cbn [td_pair td_apply o_verbose o_config o_syslog]; rewrite !get_flag_cons;
    split_and!; last_setting IH.
Qed.

(** C36: what a command line means.  testclient started with -socket, -fanout, -dump and
    -count, and testimonyd with -v, -config and -syslog, each written [-name=value], in any
    number and order and with repetitions, run with exactly these values, the last one of
    each name, and otherwise with: no socket name, fanout 0, no dump and no limit; and
    verbosity 0, /etc/testimony.conf and syslog.  This holds for strings with any bytes, all
    64-bit integers and booleans, and whatever other arguments follow; a vlog message of the
    daemon is written exactly when its level is at most the value of -v. *)
Theorem command_lines (settings : list tc_setting) (d_settings : list td_setting)
    (more : list (list byte)) (os : sys) (dial : list byte → link + Z) (mems : list (list byte))
    (o : Config.os) (decode : list byte → option (list SocketConfig)) (syslog : option errno)
    (ReadFile : list byte → list byte + errno) :
  no_flag_first more →
  Forall (λ x, value_ok (tc_pair x).2) settings → Forall (λ x, value_ok (td_pair x).2) d_settings →
  let c := foldl tc_apply (TcOptions [] 0 false (-1)) settings in
  let d := foldl td_apply (TdOptions 0 (bytes "/etc/testimony.conf") true) d_settings in
  testclient_main os dial ((print_setting <$> (tc_pair <$> settings)) ++ more) mems =
    inl (Testclient.main os (dial (o_socket c)) (o_fanout c) (o_dump c) (o_count c) mems) ∧
  ∃ verbose,
    testimonyd_main o decode syslog ReadFile ((print_setting <$> (td_pair <$> d_settings)) ++ more) =
      inl (verbose, Config.main o decode (o_syslog d) syslog (ReadFile (o_config d))) ∧
    ∀ level caller msg stack,
      is_Some (VUp verbose level caller msg stack) ↔ level <= o_verbose d.
Proof.
  intros Hmore Hs Hd c d. split.
  - assert (Forall (setting_ok testclient_flags) (tc_pair <$> settings)) as Hok
      by (apply Forall_fmap; eapply Forall_impl; [exact Hs|]; apply tc_setting_ok).
    unfold testclient_main. destruct (Parse_settings _ _ _ Hok Hmore) as (fs' & -> & Hget).
    destruct (tc_values settings) as (E1 & E2 & E3 & E4).
    unfold string_flag, int_flag, bool_flag in *. rewrite !Hget, E1, E2, E3, E4. done.
  - assert (Forall (setting_ok testimonyd_flags) (td_pair <$> d_settings)) as Hok
      by (apply Forall_fmap; eapply Forall_impl; [exact Hd|]; apply td_setting_ok).
    unfold testimonyd_main. destruct (Parse_settings _ _ _ Hok Hmore) as (fs' & -> & Hget).
    destruct (td_values d_settings) as (E1 & E2 & E3).
    unfold string_flag, int_flag, bool_flag in *. rewrite !Hget, E1, E2, E3. eexists. split; [done|].
    intros level caller msg stack. unfold VUp.
    change (foldl td_apply td_defaults d_settings) with d.
    destruct (Z.leb_spec level (o_verbose d)) as [Hle|Hlt].
    + split; [done|]. intros _. by eexists.
    + split; [by intros []|lia].
Qed.

Lemma command_lines_witness :
  testclient_main demo_sys (λ _, inr 2)
    (bytes <$> ["-count=3"; "-fanout=1"; "-count=-7"; "x"]) [] =
  inl (Testclient.main demo_sys (inr 2) 1 false (-7) []).
Proof.
  apply (command_lines [SetCount 3; SetFanout 1; SetCount (-7)] [SetV 2] [bytes "x"] demo_sys
    (λ _, inr 2) [] demo_os (λ _, None) None (λ _, inr 2)); [reflexivity| |];
    repeat (apply Forall_cons_2; [vm_compute; split; congruence|]); apply Forall_nil_2.
Defined.

(** Parsing keeps the kind of every flag, so a program finds under each name what it
    declared; and it leaves an end of the arguments. *)
Theorem Parse_kinds (fs fs' : flag_set) (args rest : list (list byte)) (n : list byte)
    (v : flag_value) :
  Parse fs args = inl (fs', rest) → get_flag n fs = Some v →
  (∃ v', get_flag n fs' = Some v' ∧ same_kind v v') ∧ rest `suffix_of` args.
Proof.
  assert (∀ v, same_kind v v) as Hrefl by (by intros []).
  assert (∀ v s v', set_value v s = Some v' → same_kind v v') as Hset
    by (intros [s0|z|b] s v'; simpl; [|destruct (ParseInt s)|destruct (ParseBool s)]; by intros [= <-]).
  assert (∀ v v' v'', same_kind v v' → same_kind v' v'' → same_kind v v'') as Htrans
    by (by intros [] [] []).
  remember (length args) as m eqn:Hm. revert fs args v Hm.
  induction m as [m IH] using lt_wf_ind. intros fs args v -> HP Hv.
  destruct args as [|arg args]; simpl in HP; [simplify_eq; split; [by eauto|done]|].
  assert (∀ name old s v1 tl, get_flag name fs = Some old → set_value old s = Some v1 →
    Parse (put_flag name v1 fs) tl = inl (fs', rest) → tl `suffix_of` args →
    (∃ v', get_flag n fs' = Some v' ∧ same_kind v v') ∧ rest `suffix_of` arg :: args) as Hgo.
  { intros name old s v1 tl Hold Hs HP' Htl. pose proof (suffix_length _ _ Htl) as Hlen.
    assert (∃ v2, get_flag n (put_flag name v1 fs) = Some v2 ∧ same_kind v v2) as (v2 & Hv2 & Hk2).
    { rewrite get_put, Hv. case_decide as E; [|by eauto]. subst.
      rewrite Hv in Hold. injection Hold as ->. eauto. }
    destruct (IH (length tl) ltac:(simpl; lia) _ tl v2 eq_refl HP' Hv2) as [(v3 & Hv3 & Hk3) Hsuf].
    split; [by eauto|]. apply suffix_cons_r. by etransitivity. }
  destruct (read_argument arg) as [| | |name value]; simplify_eq.
  - split; [by eauto|done].
  - split; [by eauto|]. by apply suffix_cons_r.
  - destruct (get_flag name fs) as [old|] eqn:Hold; [|done].
    destruct old as [s0|z0|b0], value as [s1|], args as [|s2 args]; try done; cbv zeta in HP;
      match type of HP with match ?e with Some _ => _ | None => _ end = _ =>
        destruct e as [v1|] eqn:Hs; [|done] end;
      (eapply Hgo; [exact Hold|exact Hs|exact HP|]); done || by apply suffix_cons_r.
Qed.

Lemma Parse_kinds_witness :
  ∃ v', get_flag (bytes "dump") (put_flag (bytes "dump") (VBool true) testclient_flags) = Some v' ∧
    same_kind (VBool false) v'.
Proof.
  apply (Parse_kinds testclient_flags _ (bytes <$> ["--dump"; "--"; "-x"]) (bytes <$> ["-x"])
    (bytes "dump") (VBool false)); vm_compute; reflexivity.
Defined.

(** Errors of a command line. *)
Example Parse_rejects :
  Parse testclient_flags (bytes <$> ["-count"]) = inr (FlagNeedsArgument (bytes "count")) ∧
  Parse testclient_flags (bytes <$> ["-count"; "3x"]) = inr (InvalidFlagValue (bytes "count") (bytes "3x")) ∧
  Parse testclient_flags (bytes <$> ["-v=1"]) = inr (FlagNotDefined (bytes "v")) ∧
  Parse testclient_flags (bytes <$> ["-=1"]) = inr (BadFlagSyntax (bytes "-=1")) ∧
  Parse testimonyd_flags (bytes <$> ["-h"]) = inr HelpRequested ∧
  ParseInt (bytes "0x_fF") = Some 255 ∧ ParseInt (bytes "1__0") = None ∧ ParseInt (bytes "017") = Some 15.
Proof. vm_compute. split_and!; reflexivity. Qed.
