(* ===== verification/Session.v ===== *)
(** * A client and the daemon together

    The two ends of a connection, each reading what the other wrote: the handshake
    of socket/daemon.go against [Connect] and [Init] of the client library, the
    blocks [conn.run] writes against [Conn.Block], and a returned block against
    [conn.handleReads]. *)

From stdpp Require Import base list numbers option gmap strings.
From Stdlib Require Import ZArith Lia.
From S2P Require Import Prelude Bytes Protocol Chan Block Socket SocketInv SocketSafety.
From S2P Require Import Cmsg Link AFPacket Config Handshake Client.

(** ** The handshake *)

(** What the server's messages tell the client. *)
Lemma learn_sizes (n b m : Z) :
  foldl learn zero_conn (take 3 (sizes n b m)) =
    MkConn None 0 None (uint32 m) (uint32 b) (uint32 n).
Proof.
  unfold sizes. cbn [take foldl]. unfold learn. cbn [fst snd Z.eqb].
  change (TypeFanoutSize =? TypeFanoutSize) with true.
  change (TypeBlockSize =? TypeFanoutSize) with false.
  change (TypeBlockSize =? TypeBlockSize) with true.
  change (TypeNumBlocks =? TypeFanoutSize) with false.
  change (TypeNumBlocks =? TypeBlockSize) with false.
  change (TypeNumBlocks =? TypeNumBlocks) with true. cbn iota.
  unfold set_fanoutSize, set_blockSize, set_numBlocks, zero_conn. simpl.
  rewrite !Uint32_put. unfold uint32. by rewrite !Zmod_mod.
Qed.

Lemma sizes_greeting (n b m : Z) : Forall greeting_msg (take 3 (sizes n b m)).
Proof.
  unfold sizes. cbn [take]. repeat apply Forall_cons_2; [..|apply Forall_nil_2];
    (split_and!; [split; [vm_compute; split; congruence|]|vm_compute; congruence|intros _]);
    rewrite ?length_put_uint32; done.
Qed.

(** A server that is set up sensibly: sizes a client can use. *)
Record good_service (s0 : sock) (socks : list sock) : Prop := {
  g_sockets : Z.of_nat (length (s0 :: socks)) < 2 ^ 32;
  g_block : 0 < BlockSize (sock_conf s0) < 2 ^ 32;
  g_blocks : 0 < NumBlocks (sock_conf s0) < 2 ^ 32;
  g_ring : BlockSize (sock_conf s0) * NumBlocks (sock_conf s0) < 2 ^ 63;
}.

Lemma greeting_cons (s0 : sock) (socks : list sock) (rest : list byte) :
  let sz := sizes (Z.of_nat (length (s0 :: socks))) (BlockSize (sock_conf s0))
              (NumBlocks (sock_conf s0)) in
  greeting (s0 :: socks) ++ rest =
    byte_of protocolVersion :: encode_all (take 3 sz) ++
      tlv_bytes (TypeWaitingForFanoutIndex, []) ++ rest.
Proof.
  cbn zeta. unfold greeting. cbn [app]. by rewrite app_assoc.
Qed.

Section handshake.
Context (os : sys) (install : Z → Z).
Context (s0 : sock) (socks : list sock) (idx : Z) (s : sock).
Context (Hgood : good_service s0 socks).
Context (Hidx : 0 <= idx) (Hs : (s0 :: socks) !! Z.to_nat idx = Some s).

(** Everything the server writes in the handshake and [more] after it, with the
    control data as the kernel delivers it: the descriptor installed in the client's
    process. *)
Definition server_bytes : list byte := greeting (s0 :: socks) ++ [byte_of 0].
Definition client_end (more : list byte) (budget : nat) : link :=
  Link (server_bytes ++ more) (UnixRights [install (sock_fd s)]) [] [] budget false.

Lemma client_connects (more : list byte) (budget : nat) :
  Connect os (inl (client_end more budget)) =
    (MkConn (Some (set_in (byte_of 0 :: more) (client_end more budget))) 0 None
       (NumBlocks (sock_conf s0)) (BlockSize (sock_conf s0))
       (Z.of_nat (length (s0 :: socks))), None).
Proof.
  destruct Hgood as [Gs Gb Gn Gr].
  rewrite (Connect_eq os (client_end more budget) _ [] (byte_of 0 :: more)
    (sizes_greeting (Z.of_nat (length (s0 :: socks))) (BlockSize (sock_conf s0))
       (NumBlocks (sock_conf s0)))); [|done| ].
  2: { unfold client_end, server_bytes. cbn [k_in]. rewrite <- app_assoc. apply greeting_cons. }
  rewrite learn_sizes, !uint32_small by lia.
  rewrite bool_decide_true; [done|].
  unfold sized. cbn [at_rest set_c t_fanoutSize t_blockSize t_numBlocks length]. lia.
Qed.

(** [Connect] and [Init]: the client is set up and what follows is left to be read. *)
Lemma client_set_up (more : list byte) (cb : nat) :
  (8 ≤ cb)%nat → - 2 ^ 31 <= install (sock_fd s) < 2 ^ 31 →
  sys_mmap os (install (sock_fd s))
    (BlockSize (sock_conf s0) * NumBlocks (sock_conf s0)) = None →
  let t := MkConn (Some (Link more [] (index_msg idx) [] (cb - 8) false))
       (install (sock_fd s)) (Some (BlockSize (sock_conf s0) * NumBlocks (sock_conf s0)))
       (NumBlocks (sock_conf s0)) (BlockSize (sock_conf s0)) (Z.of_nat (length (s0 :: socks))) in
  Init os idx (Connect os (inl (client_end more cb))).1 = (t, None) ∧ ready t.
Proof.
  intros Hcb Hfd Hmm t. rewrite client_connects. pose proof Hgood as [Gs Gb Gn Gr].
  assert (0 < BlockSize (sock_conf s0) * NumBlocks (sock_conf s0)) as Hpos by nia.
  assert (int64 (BlockSize (sock_conf s0) * NumBlocks (sock_conf s0)) =
          BlockSize (sock_conf s0) * NumBlocks (sock_conf s0)) as Hint
    by (apply int64_small; pow2; lia).
  assert (0 <= idx < 2 ^ 32) as Hi.
  { apply lookup_lt_Some in Hs. split; [done|lia]. }
  split; [|unfold t, ready; clear t; cbn [t_blockSize t_numBlocks t_ring]; split_and!; (lia || done)].
  cbn [fst]. erewrite Init_ok; [|done|done|done|done|done|].
  2: { cbn [t_blockSize t_numBlocks]. unfold mmap. rewrite Hint.
       by rewrite (proj2 (Z.leb_gt _ _)). }
  cbn [t_blockSize t_numBlocks t_fanoutSize k_out k_ctl k_budget k_closed client_end set_in app].
  rewrite Hint. unfold t, index_msg. by rewrite (uint32_small idx).
Qed.

(** C18: a client and the daemon, each reading what the other wrote, complete the
    handshake: [Connect] and [Init] succeed, [handle] hands the connection to the
    socket the client asked for, and the client ends up with that socket's
    descriptor, the service's sizes and the whole ring mapped. *)
Theorem handshake_completes (cb sb : nat) :
  (8 ≤ cb)%nat → (length server_bytes ≤ sb)%nat →
  - 2 ^ 31 <= install (sock_fd s) < 2 ^ 31 →
  sys_mmap os (install (sock_fd s))
    (BlockSize (sock_conf s0) * NumBlocks (sock_conf s0)) = None →
  ∃ t client server,
    (Init os idx (Connect os (inl (client_end [] cb))).1) = (t, None) ∧ t_c t = Some client ∧
    handle (s0 :: socks) (Link (k_out client) [] [] [] sb false) = (server, inl s) ∧
    k_out server = k_in (client_end [] cb) ∧ k_ctl server = [UnixRights [sock_fd s]] ∧
    k_in client = [] ∧ k_in server = [] ∧ ready t ∧ t_fd t = install (sock_fd s) ∧
    t_numBlocks t = NumBlocks (sock_conf s0) ∧ t_blockSize t = BlockSize (sock_conf s0) ∧
    t_fanoutSize t = Z.of_nat (length (s0 :: socks)).
Proof.
  intros Hcb Hsb Hfd Hmm. destruct (client_set_up [] cb Hcb Hfd Hmm) as [HI Hr].
  pose proof Hgood as [Gs _ _ _]. pose proof (lookup_lt_Some _ _ _ Hs) as Hlt.
  eexists _, _, _. split; [exact HI|]. split; [done|].
  split; [apply handle_accepts; exists idx, []; split_and!; [|lia|lia|done| |done]|].
  - cbn [k_in k_out t_c]. by rewrite app_nil_r.
  - unfold server_bytes in Hsb. rewrite length_app in Hsb. cbn [length k_budget] in *. lia.
  - cbn [k_out k_ctl k_in add_ctl sent set_in client_end]. rewrite app_nil_r.
    split_and!; first [exact Hr | reflexivity].
Qed.
End handshake.

Definition demo_server_socks : list sock :=
  [Sock (demo_entry "a" 0 2) 0 11; Sock (demo_entry "a" 0 2) 1 12].

Lemma handshake_completes_witness :
  ∃ t, (Init demo_sys 1 (Connect demo_sys (inl (client_end (λ fd, fd - 8)
          (Sock (demo_entry "a" 0 2) 0 11) [Sock (demo_entry "a" 0 2) 1 12]
          (Sock (demo_entry "a" 0 2) 1 12) [] 100))).1) = (t, None) ∧ t_fd t = 4.
Proof.
  destruct (handshake_completes demo_sys (λ fd, fd - 8) (Sock (demo_entry "a" 0 2) 0 11)
    [Sock (demo_entry "a" 0 2) 1 12] 1 (Sock (demo_entry "a" 0 2) 1 12)) with (cb := 100%nat)
    (sb := 100%nat) as (t & _ & _ & H & _ & _ & _ & _ & _ & _ & _ & Hfd & _).
  - split; vm_compute; try split; congruence.
  - lia.
  - reflexivity.
  - lia.
  - vm_compute. lia.
  - vm_compute. split; congruence.
  - reflexivity.
  - exists t. split; [exact H|]. rewrite Hfd. reflexivity.
Defined.

(** ** Blocks *)

(** The words the daemon writes are items without messages in between. *)
Lemma wire_items (l : list nat) :
  Forall (λ b, Z.of_nat b < 2 ^ 31) l →
  wire_of l = ((λ b, ([], Z.of_nat b)) <$> l) ≫= item_bytes.
Proof.
  induction 1 as [|b l Hb _ IH]; [done|]. rewrite fmap_cons, bind_cons, <- IH.
  unfold wire_of. rewrite bind_cons. f_equal. unfold wire_word, item_bytes. simpl fst. simpl snd.
  by rewrite uint32_small by (pow2; lia).
Qed.

Lemma length_wire_of (l : list nat) : length (wire_of l) = (4 * length l)%nat.
Proof.
  induction l as [|b l IH]; [done|]. unfold wire_of in *. rewrite bind_cons, length_app, IH.
  change (length (wire_word b)) with 4%nat. cbn [length]. lia.
Qed.

(** A beginning of some words: as many whole ones as fit, and what is left of a word. *)
Lemma wire_prefix (w : list byte) (l : list nat) :
  w `prefix_of` wire_of l →
  ∃ rest, w = wire_of (take (length w / 4) l) ++ rest ∧ (length rest < 4)%nat ∧
    (length w / 4 ≤ length l)%nat.
Proof.
  intros Hp. set (m := (length w / 4)%nat). exists (drop (4 * m) w).
  pose proof (Nat.div_mod_eq (length w) 4) as Hdm.
  pose proof (Nat.mod_upper_bound (length w) 4 ltac:(lia)) as Hlt. fold m in Hdm.
  pose proof (prefix_length _ _ Hp) as Hle. rewrite length_wire_of in Hle.
  split_and!; [|rewrite length_drop; lia|lia].
  rewrite <- (take_drop (4 * m) w) at 1. f_equal. destruct Hp as [tl Hp].
  rewrite <- (take_app_le w tl (4 * m)) by lia. rewrite <- Hp, <- (take_drop m l) at 1.
  rewrite wire_of_app. apply take_app_length'. rewrite length_wire_of, length_take. lia.
Qed.

(** How many whole words were written to a connection. *)
Definition written (cn : conn) : nat := (length (l_wire (c_log cn)) / 4)%nat.

(** The blocks whose indexes a client has been sent. *)
Definition written_blocks (cn : conn) : list nat := take (written cn) (l_got (c_log cn)).

(** In every state the bytes written are the indexes of the first blocks taken, as far
    as they were written, with at most a part of a word after them; between two batches
    they are all of them. *)
Lemma daemon_wire (n : nat) (s : state) (c : nat) (cn : conn) :
  (0 < n)%nat → reachable n s → s_conns s !! c = Some cn →
  ∃ rest, l_wire (c_log cn) = wire_of (written_blocks cn) ++ rest ∧ (length rest < 4)%nat ∧
    length (written_blocks cn) = written cn ∧
    Forall (λ b, (b < n)%nat) (written_blocks cn) ∧
    (c_pc cn = CSelect → written_blocks cn = l_got (c_log cn) ∧ rest = []).
Proof.
  intros Hn Hr Hc. assert (Inv s) as HI by (by eapply reachable_inv).
  pose proof (i_conn _ HI _ _ Hc) as HW. rewrite (reachable_nb n s Hr) in HW.
  pose proof (cw_wire _ _ _ HW) as Hwire. pose proof (cw_sent _ _ _ HW) as Hsent.
  rewrite (cw_fifo _ _ _ HW) in Hsent. apply Forall_app in Hsent as [Hgot _].
  assert (l_wire (c_log cn) `prefix_of` wire_of (l_got (c_log cn))) as Hp.
  { unfold wire_ok in Hwire. destruct (c_pc cn) as [| | | |? []|? []| | | | | |]; try done;
      rewrite <- Hwire; done || by apply prefix_app_r. }
  destruct (wire_prefix _ _ Hp) as (rest & Hw & Hl & Hle). exists rest. fold (written cn) in Hw, Hle.
  split_and!; [exact Hw|exact Hl|by apply length_take_le|by apply Forall_take|].
  intros Hpc. unfold wire_ok in Hwire. rewrite Hpc in Hwire.
  assert (written_blocks cn = l_got (c_log cn)) as E.
  { apply take_ge. unfold written. rewrite Hwire, length_wire_of, Nat.mul_comm, Nat.div_mul by lia. done. }
  split; [done|]. fold (written_blocks cn) in Hw. rewrite E, Hwire in Hw.
  apply (app_inv_head (wire_of (l_got (c_log cn)))). by rewrite app_nil_r.
Qed.

(** A client that is set up reads the blocks whose indexes were written. *)
Lemma read_daemon_blocks (n : nat) (s : state) (c : nat) (cn : conn) (t : Conn) (k : link) :
  (0 < n)%nat → Z.of_nat n <= 2 ^ 31 → reachable n s → s_conns s !! c = Some cn →
  ready t → t_numBlocks t = Z.of_nat n → t_c t = Some k → k_in k = l_wire (c_log cn) →
  ∃ rest, (length rest < 4)%nat ∧ (c_pc cn = CSelect → rest = []) ∧
    read_blocks (written cn) t =
      (at_rest k rest t, inl (block_of t <$> (Z.of_nat <$> written_blocks cn))).
Proof.
  intros Hn Hw Hr Hc Ht Hnum Hk Hin.
  destruct (daemon_wire n s c cn Hn Hr Hc) as (rest & Hwire & Hl & Hlen & Hgot & Hpc).
  exists rest. split_and!; [done|by intros [_ ?]%Hpc|]. set (got := written_blocks cn) in *.
  assert (Forall (λ b, Z.of_nat b < 2 ^ 31) got) as Hlt
    by (eapply Forall_impl; [exact Hgot|]; simpl; lia).
  pose proof (read_blocks_items ((λ b, ([], Z.of_nat b)) <$> got) t k rest Ht Hk) as H.
  rewrite length_fmap, <- wire_items, Hlen in H by done.
  rewrite H; [|apply Forall_fmap|by rewrite Hin, Hwire].
  - do 2 f_equal. rewrite <- !list_fmap_compose. done.
  - rewrite Hnum. eapply Forall_impl; [exact Hgot|]. simpl. intros b Hlb.
    split_and!; [constructor|lia..].
Qed.

(** The blocks a client sees are the blocks the daemon gave it: in every reachable
    state of the daemon in which the connection is between two batches, a client
    that is set up for the same ring and reads what was written gets exactly the
    blocks [conn.run] took from its queue, in order, each as its slice of the ring,
    and then has read everything. *)
Theorem client_sees_blocks (n : nat) (s : state) (c : nat) (cn : conn) (t : Conn) (k : link) :
  (0 < n)%nat → Z.of_nat n <= 2 ^ 31 → reachable n s →
  s_conns s !! c = Some cn → c_pc cn = CSelect →
  ready t → t_numBlocks t = Z.of_nat n → t_c t = Some k → k_in k = l_wire (c_log cn) →
  read_blocks (length (l_got (c_log cn))) t =
    (at_rest k [] t, inl (block_of t <$> (Z.of_nat <$> l_got (c_log cn)))).
Proof.
  intros Hn Hw Hr Hc Hpc Ht Hnum Hk Hin.
  destruct (daemon_wire n s c cn Hn Hr Hc) as (? & _ & _ & Hlen & _ & Hall).
  destruct (read_daemon_blocks n s c cn t k Hn Hw Hr Hc Ht Hnum Hk Hin) as (rest & _ & Hrest & H).
  rewrite <- (proj1 (Hall Hpc)), Hlen, H. by rewrite (Hrest Hpc).
Qed.

Lemma client_sees_blocks_witness :
  ∃ cn, s_conns (demo_state (demo_deliver ++ demo_write)) !! 7%nat = Some cn ∧
    read_blocks (length (l_got (c_log cn)))
      (MkConn (Some (Link (l_wire (c_log cn)) [] [] [] 100 false)) 4 (Some 8192) 2 4096 1) =
    (MkConn (Some (Link [] [] [] [] 100 false)) 4 (Some 8192) 2 4096 1,
     inl [MkBlock true 0 (Slice 0 4096) 0 0 None]).
Proof.
  destruct (s_conns (demo_state (demo_deliver ++ demo_write)) !! 7%nat) as [cn|] eqn:E;
    [|by vm_compute in E].
  exists cn. split; [done|].
  rewrite (client_sees_blocks 2 (demo_state (demo_deliver ++ demo_write)) 7 cn _
    (Link (l_wire (c_log cn)) [] [] [] 100 false)).
  - vm_compute in E. simplify_eq. vm_compute. reflexivity.
  - lia.
  - pow2. lia.
  - apply demo_reachable. by vm_compute.
  - done.
  - vm_compute in E. by simplify_eq.
  - vm_compute. repeat split; congruence.
  - reflexivity.
  - reflexivity.
  - reflexivity.
Defined.

(** ** Returning a block *)
Lemma handle_word_index (n : nat) (i : Z) :
  0 <= i < Z.of_nat n → Z.of_nat n <= 2 ^ 31 →
  handle_word n (RdData (put_uint32 (uint32 i))) = HSend (i + 1).
Proof.
  intros Hi Hn. unfold handle_word. rewrite length_put_uint32. cbn [Nat.eqb negb].
  rewrite <- (app_nil_r (put_uint32 _)), uint32_of_put.
  rewrite (uint32_small (uint32 i)), (uint32_small i), top_bit by (pow2; lia || apply uint32_range).
  rewrite (proj2 (Z.ltb_lt _ _)), (proj2 (Z.ltb_ge _ _)), (proj2 (Z.leb_gt _ _)) by lia. done.
Qed.

(** A connection that is idle: nothing to read, nothing returned yet. *)
Definition idle (cn : conn) : Prop :=
  c_pc cn = CSelect ∧ c_rd cn = HRead ∧ c_shut cn = false ∧ ch_buf (c_old cn) = [].

(** The steps that take a returned block through the daemon. *)
Definition return_schedule (c : nat) (bs : list byte) : list label :=
  [LRead c (RdData bs); LRead c (RdData []); LConn c PickOld; LConn c Tau].

Lemma lookup_set_conn (c : nat) (cn : conn) (s : state) : s_conns (set_conn c cn s) !! c = Some cn.
Proof. apply lookup_insert_eq. Qed.

(** Each step of that schedule. *)
Section return_steps.
Context (n : nat) (s : state) (c i : nat) (cn : conn).
Context (Hnb : s_nb s = n) (Hc : s_conns s !! c = Some cn) (Hi : (i < n)%nat).

Lemma step_read_index :
  Z.of_nat n <= 2 ^ 31 → c_rd cn = HRead → c_shut cn = false →
  step (LRead c (RdData (put_uint32 (uint32 (Z.of_nat i))))) s =
    Next (set_conn c (set_rd (HSend (Z.of_nat i + 1)) cn) s).
Proof.
  intros Hw Hrd Hsh. simpl. rewrite Hc. unfold read_step. rewrite Hrd.
  unfold read_possible. rewrite Hsh, length_put_uint32. cbn [Nat.leb negb andb].
  by rewrite Hnb, handle_word_index by lia.
Qed.

Lemma step_send_index (v : Z) :
  c_rd cn = HSend v → ch_closed (c_old cn) = false → ch_buf (c_old cn) = [] →
  ch_cap (c_old cn) = n →
  step (LRead c (RdData [])) s =
    Next (set_conn c (set_rd HRead (set_old (Chan [v] n false) cn)) s).
Proof.
  intros Hrd Hop Hbuf Hcap. simpl. rewrite Hc. unfold read_step. rewrite Hrd.
  rewrite chan_send_room by (done || rewrite Hbuf; simpl; lia). by rewrite Hbuf, Hcap.
Qed.

Lemma step_pick_index :
  c_pc cn = CSelect → c_old cn = Chan [Z.of_nat i + 1] n false → c_out cn !! i = Some true →
  step (LConn c PickOld) s =
    Next (set_conn c (set_pc (CUnref i KSelect)
      (set_out (<[i := false]> (c_out cn)) (set_old (Chan [] n false) cn))) s).
Proof.
  intros Hpc Hold Hout. simpl. rewrite Hc. unfold conn_step. rewrite Hpc, Hold. simpl.
  rewrite (proj2 (Z.eqb_neq _ _)) by lia.
  replace (Z.to_nat (Z.of_nat i + 1 - 1)) with i by lia. by rewrite Hout.
Qed.

Lemma step_unref (bl : block) :
  Inv s → conn_bound s → c_pc cn = CUnref i KSelect → s_blocks s !! i = Some bl →
  ∃ cn', step (LConn c Tau) s =
      Next (set_conn c cn' (upd_block (λ bl, (unref_dec bl).1) i s)) ∧
    l_put (c_log cn') = l_put (c_log cn) ++ [i] ∧ c_out cn' = c_out cn ∧
    b_r (unref_dec bl).1 = b_r bl - 1.
Proof.
  intros HI Hb Hpc Hbl.
  assert (0 < conn_held cn i)%nat as Hh.
  { unfold conn_held, taken. rewrite Hpc. cbn [pc_held]. rewrite is_at_eq by done. lia. }
  pose proof (conn_held_holders s c cn i Hc) as Hle.
  destruct (dec_no_crash s i HI Hb) as (s1 & nx & Hd & Hnp); [lia|].
  pose proof (dec_value s i bl HI Hb Hbl ltac:(lia)) as Hv.
  assert (b_r (unref_dec bl).1 = b_r bl - 1) as Hbr.
  { change (b_r (unref_dec bl).1) with (unref_dec bl).2. rewrite Hv.
    rewrite (i_ref _ HI _ _ Hbl). lia. }
  simpl. rewrite Hc. unfold conn_step. rewrite Hpc, Hd.
  apply dec_block_inv in Hd as (bl' & _ & -> & _).
  destruct nx as [|refs|]; [|by destruct (Hnp refs)|]; eexists; (split; [done|]); by split_and!.
Qed.
End return_steps.

(** Returning a block works end to end: the bytes [Return] writes, read by
    [handleReads], make an idle connection that has the block outstanding give up its
    reference; the daemon's count for the block goes down by exactly one. *)
Theorem return_gives_up_reference (n : nat) (s : state) (c i : nat) (cn : conn) (bl : block)
    (t : Conn) (k : link) (b : Client.Block) :
  (0 < n)%nat → Z.of_nat n <= 2 ^ 31 → reachable n s → conn_bound s →
  s_conns s !! c = Some cn → idle cn → c_out cn !! i = Some true → s_blocks s !! i = Some bl →
  t_c t = Some k → (4 ≤ k_budget k)%nat → b_t b = true → b_i b = Z.of_nat i →
  ∃ bs t' b' s' cn' bl',
    Return b t = (t', inl b') ∧ t' = set_c (Some (sent bs k)) t ∧
    run_schedule (return_schedule c bs) s = Some s' ∧
    s_conns s' !! c = Some cn' ∧ l_put (c_log cn') = l_put (c_log cn) ++ [i] ∧
    c_out cn' !! i = Some false ∧
    s_blocks s' !! i = Some bl' ∧ b_r bl' = b_r bl - 1.
Proof.
  intros Hn Hw Hr Hb Hc (Hpc & Hrd & Hsh & Hbuf) Hout Hbl Ht Hk Hbt Hbi.
  assert (Inv s) as HI by (by eapply reachable_inv).
  pose proof (i_conn _ HI _ _ Hc) as HW. rewrite (reachable_nb n s Hr) in HW.
  pose proof (reachable_nb n s Hr) as Hnb.
  pose proof (lookup_lt_Some _ _ _ Hout) as Hi. rewrite (cw_out _ _ _ HW) in Hi.
  destruct (cw_reader _ _ _ HW) as [_ Hop]. rewrite Hrd in Hop.
  set (bs := put_uint32 (uint32 (Z.of_nat i))).
  pose proof (step_read_index n s c i cn Hnb Hc Hi Hw Hrd Hsh) as S1. fold bs in S1.
  set (cn1 := set_rd (HSend (Z.of_nat i + 1)) cn) in *. set (s1 := set_conn c cn1 s) in *.
  pose proof (step_send_index n s1 c i cn1 Hnb (lookup_set_conn _ _ _) Hi (Z.of_nat i + 1)
    eq_refl Hop Hbuf (cw_oldcap _ _ _ HW)) as S2.
  set (cn2 := set_rd HRead _) in S2. set (s2 := set_conn c cn2 s1) in *.
  pose proof (step_pick_index n s2 c i cn2 Hnb (lookup_set_conn _ _ _) Hi Hpc eq_refl Hout) as S3.
  set (cn3 := set_pc _ _) in S3. set (s3 := set_conn c cn3 s2) in *.
  assert (conn_bound s1) as Hb1 by (by apply (step_bound _ _ _ S1)).
  assert (conn_bound s2) as Hb2 by (by apply (step_bound _ _ _ S2)).
  assert (conn_bound s3) as Hb3 by (by apply (step_bound _ _ _ S3)).
  assert (Inv s3) as HI3
    by (eapply inv_step, S3; [eapply inv_step, S2; [eapply inv_step, S1; done|done]|done]).
  destruct (step_unref n s3 c i cn3 Hnb (lookup_set_conn _ _ _) Hi bl) as (cn' & S4 & Hput & Ho & Hbr);
    [done..|].
  eexists bs, _, _, _, cn', _. split_and!.
  - rewrite (Return_writes t k b), Hbi by done. done.
  - done.
  - unfold return_schedule, run_schedule. by rewrite S1, S2, S3, S4.
  - apply lookup_set_conn.
  - done.
  - rewrite Ho. simpl. apply list_lookup_insert_eq. by apply lookup_lt_Some in Hout.
  - simpl. rewrite list_lookup_alter_eq, Hbl. done.
  - exact Hbr.
Qed.

Lemma return_gives_up_reference_witness :
  ∃ bs s', bs = put_uint32 0 ∧
    run_schedule (return_schedule 7 bs) (demo_state (demo_deliver ++ demo_write)) = Some s' ∧
    b_r <$> s_blocks s' !! 0%nat = Some 0.
Proof.
  destruct (s_conns (demo_state (demo_deliver ++ demo_write)) !! 7%nat) as [cn|] eqn:E;
    [|by vm_compute in E].
  edestruct (return_gives_up_reference 2 (demo_state (demo_deliver ++ demo_write)) 7 0 cn
    (Block.Block 1 1 1) (MkConn (Some (Link [] [] [] [] 100 false)) 4 (Some 8192) 2 4096 1)
    (Link [] [] [] [] 100 false) (MkBlock true 0 (Slice 0 4096) 0 0 None))
    as (bs & t' & b' & s' & cn' & bl' & Hret & Ht' & Hrun & _ & _ & _ & Hbl & Hbr).
  - lia.
  - pow2. lia.
  - apply demo_reachable. by vm_compute.
  - by vm_compute.
  - done.
  - vm_compute in E. simplify_eq. by repeat split.
  - vm_compute in E. by simplify_eq.
  - by vm_compute.
  - done.
  - simpl. lia.
  - done.
  - done.
  - exists bs, s'. split_and!; [|done|].
    + subst t'. vm_compute in Hret. injection Hret as H _. symmetry. exact H.
    + rewrite Hbl. simpl. by rewrite Hbr.
Defined.
