(* ===== verification/Daemon.v ===== *)
(** * The whole daemon

    The process RunTestimony starts: for every entry of the configuration a list of
    sockets, each with its own goroutines (file Socket), an accept loop
    ([Testimony.run]) and a goroutine per accepted connection ([Testimony.handle],
    file Handshake) that ends by passing the connection to one socket over its
    unbuffered channel [newConns].  The goroutines of different sockets share
    nothing, and a handshake shares nothing with a socket before that hand-over, so
    the world is the sockets' states side by side with the state of each handshake,
    and the only step in which two of them take part is the hand-over.

    The theorems lift what is proved of one socket to the process, and add what only
    the composition shows: a client is served by the socket whose descriptor it was
    given, and by no other. *)

From stdpp Require Import base list numbers option gmap strings.
From Stdlib Require Import ZArith Lia.
From S2P Require Import Prelude Bytes Protocol Chan Block Socket SocketInv SocketSafety Shutdown.
From S2P Require Import Cmsg Link AFPacket Config Handshake Client Session.

(** ** State *)

(** A socket object with its goroutines. *)
Record served := Served { v_sock : sock; v_state : state }.

Definition ring_blocks (s : sock) : nat := Z.to_nat (NumBlocks (sock_conf s)).

(** [go sock.run()] on what newSocket returned. *)
Definition serve_sock (s : sock) : served := Served s (newSocket_state (ring_blocks s)).

(** The goroutine [t.handle(socks, c)]. *)
Inductive handler :=
  | Shaking (k : link)                     (* about to run *)
  | HandingOver (k : link) (i : nat)       (* at socks[i].newConns <- c *)
  | HandedOver (k : link) (i : nat)        (* c is socket i's *)
  | Refused (k : link) (e : handle_error). (* returned, c closed *)

Record world := World {
  w_todo : list service;                   (* entries the loop of RunTestimony will start *)
  w_end : option fatal;                    (* how that loop ends *)
  w_services : list (list served);         (* entries being served *)
  w_handlers : gmap nat (nat * handler);   (* connections: entry and goroutine *)
}.

(** ** Outcomes and labels *)
Inductive world_crash :=
  | SetupFatal (e : fatal)                 (* log.Fatalf in RunTestimony *)
  | AcceptFatal (e : errno)                (* log.Fatalf in Testimony.run *)
  | PanicHandle                            (* socks[0] of an empty slice *)
  | SocketCrash (v i : nat) (why : crash). (* a goroutine of a socket *)

Inductive world_outcome := WBlocked | WNext (w : world) | WCrash (why : world_crash).

Inductive world_label :=
  | WStart                                 (* the next turn of the loop in RunTestimony *)
  | WAccept (v c : nat) (r : link + errno) (* AcceptUnix of entry v *)
  | WHandle (c : nat)                      (* handle, up to the hand-over *)
  | WHandOver (c : nat)                    (* newConns, with run of the socket *)
  | WSocket (v i : nat) (l : label).       (* anything else of socket i of entry v *)

(** ** Steps *)
Definition get_socket (w : world) (v i : nat) : option served :=
  w_services w !! v ≫= (λ svs, svs !! i).

Definition set_socket (v i : nat) (st : state) (w : world) : world :=
  World (w_todo w) (w_end w)
    (alter (alter (λ x, Served (v_sock x) st) i) v (w_services w)) (w_handlers w).

Definition set_handler (c v : nat) (h : handler) (w : world) : world :=
  World (w_todo w) (w_end w) (w_services w) (<[c := (v, h)]> (w_handlers w)).

(** The second loop of RunTestimony; earlier entries are already being served.  The sockets
    of an entry are started together: the code starts each as soon as it is made, but
    none of them can have a connection before the listener of the entry is there. *)
Definition start_step (w : world) : world_outcome :=
  match w_todo w with
  | sv :: todo =>
      WNext (World todo (w_end w) (w_services w ++ [serve_sock <$> sv_socks sv]) (w_handlers w))
  | [] => match w_end w with Some e => WCrash (SetupFatal e) | None => WBlocked end
  end.

(** A connection just accepted: nothing was sent on it. *)
Definition fresh_link (k : link) : bool :=
  match k_out k, k_ctl k with [], [] => negb (k_closed k) | _, _ => false end.

(** One turn of [Testimony.run]. *)
Definition accept_step (v c : nat) (r : link + errno) (w : world) : world_outcome :=
  match w_services w !! v, r with
  | None, _ => WBlocked
  | Some _, inr e => WCrash (AcceptFatal e)
  | Some _, inl k =>
      match w_handlers w !! c with
      | Some _ => WBlocked
      | None => if fresh_link k then WNext (set_handler c v (Shaking k) w) else WBlocked
      end
  end.

(** [handle]; [sock] is the object whose channel is used next, the one numbered so. *)
Definition handle_step (c : nat) (w : world) : world_outcome :=
  match w_handlers w !! c with
  | Some (v, Shaking k) =>
      match w_services w !! v with
      | None => WBlocked
      | Some svs =>
          match handle (v_sock <$> svs) k with
          | (k, inl sock) => WNext (set_handler c v (HandingOver k (Z.to_nat (sock_num sock))) w)
          | (_, inr PanicNoSockets) => WCrash PanicHandle
          | (k, inr e) => WNext (set_handler c v (Refused k e) w)
          end
      end
  | _ => WBlocked
  end.

(** A step of one socket within the world. *)
Definition socket_step (v i : nat) (l : label) (w : world) : world_outcome :=
  match get_socket w v i with
  | None => WBlocked
  | Some x =>
      match step l (v_state x) with
      | Blocked => WBlocked
      | Next st => WNext (set_socket v i st w)
      | Crash why => WCrash (SocketCrash v i why)
      end
  end.

(** [sock.newConns <- c] and [case c := <-s.newConns] meet. *)
Definition handover_step (c : nat) (w : world) : world_outcome :=
  match w_handlers w !! c with
  | Some (v, HandingOver k i) =>
      match socket_step v i (LAccept c) w with
      | WNext w => WNext (set_handler c v (HandedOver k i) w)
      | o => o
      end
  | _ => WBlocked
  end.

Definition is_accept (l : label) : bool := match l with LAccept _ => true | _ => false end.

Definition world_step (l : world_label) (w : world) : world_outcome :=
  match l with
  | WStart => start_step w
  | WAccept v c r => accept_step v c r w
  | WHandle c => handle_step c w
  | WHandOver c => handover_step c w
  | WSocket v i l => if is_accept l then WBlocked else socket_step v i l w
  end.

Fixpoint run_world (ls : list world_label) (w : world) : option world :=
  match ls with
  | [] => Some w
  | l :: ls => match world_step l w with WNext w => run_world ls w | _ => None end
  end.

(** RunTestimony with nothing started yet. *)
Definition boot (r : list service * option fatal) : world := World r.1 r.2 [] ∅.

(** Open connections of the process; fewer at one time than an int32 can count. *)
Definition entry_open (svs : list served) : nat := sum_list_with (λ x, open_conns (v_state x)) svs.
Definition world_open (w : world) : nat := sum_list_with entry_open (w_services w).
Definition world_bound (w : world) : Prop := Z.of_nat (world_open w) + 3 < 2 ^ 31.
#[export] Instance world_bound_dec w : Decision (world_bound w) := Z_lt_dec _ _.

Inductive world_reachable (r : list service * option fatal) : world → Prop :=
  | wr_boot : world_reachable r (boot r)
  | wr_step w l w' :
      world_reachable r w → world_bound w → world_step l w = WNext w' → world_reachable r w'.

Fixpoint world_bounded (ls : list world_label) (w : world) : bool :=
  bool_decide (world_bound w) &&
  match ls with
  | [] => true
  | l :: ls => match world_step l w with WNext w => world_bounded ls w | _ => true end
  end.

Lemma run_world_app (ls ks : list world_label) (w w1 w' : world) :
  run_world ls w = Some w1 → run_world ks w1 = Some w' → run_world (ls ++ ks) w = Some w'.
Proof.
  revert w. induction ls as [|l ls IH]; intros w; simpl; [by intros [= ->]|].
  destruct (world_step l w); [done| |done]. apply IH.
Qed.

Lemma run_world_reachable (r : list service * option fatal) (ls : list world_label) (w w' : world) :
  world_reachable r w → world_bounded ls w = true → run_world ls w = Some w' →
  world_reachable r w'.
Proof.
  revert w. induction ls as [|l ls IH]; intros w Hw; simpl; intros [Hb Hls]%andb_prop;
    apply bool_decide_eq_true_1 in Hb; [by intros [= <-]|].
  destruct (world_step l w) eqn:E; try done. apply IH; [|done]. by eapply wr_step.
Qed.

Lemma world_conn_bound (w : world) (v i : nat) (x : served) :
  world_bound w → get_socket w v i = Some x → conn_bound (v_state x).
Proof.
  unfold world_bound, conn_bound, world_open, get_socket. intros Hb Hx.
  destruct (w_services w !! v) as [svs|] eqn:Hv; [|done]. simpl in Hx.
  pose proof (sum_lookup_le entry_open _ _ _ Hv) as H1.
  pose proof (sum_lookup_le (λ x, open_conns (v_state x)) _ _ _ Hx) as H2.
  unfold entry_open in H1 at 1. lia.
Qed.

(** A step of a socket that accepts nobody. *)
Lemma set_socket_bound (w : world) (v i : nat) (x : served) (st : state) :
  get_socket w v i = Some x → (open_conns st ≤ open_conns (v_state x))%nat →
  world_bound w → world_bound (set_socket v i st w).
Proof.
  unfold get_socket, world_bound, world_open, set_socket. simpl. intros Hx Hle Hb.
  destruct (w_services w !! v) as [svs|] eqn:Hv; [|done]. simpl in Hx.
  pose proof (sum_alter_le entry_open (alter (λ x, Served (v_sock x) st) i) (w_services w) v svs Hv) as H.
  lapply H; [lia|]. by apply (sum_alter_le _ _ svs i x).
Qed.

(** ** Sockets of a world *)
Lemma get_socket_set (v i v' i' : nat) (st : state) (w : world) (x : served) :
  get_socket (set_socket v i st w) v' i' = Some x →
  ∃ x0, get_socket w v' i' = Some x0 ∧ v_sock x = v_sock x0 ∧
    (v' = v ∧ i' = i ∧ v_state x = st ∨ (v' ≠ v ∨ i' ≠ i) ∧ x = x0).
Proof.
  unfold get_socket, set_socket. simpl. rewrite list_lookup_alter.
  case_decide as Hv; subst; [|naive_solver].
  destruct (w_services w !! v') as [svs|]; [|done]. simpl. rewrite list_lookup_alter.
  case_decide as Hi; subst; [|naive_solver]. destruct (svs !! i'); naive_solver.
Qed.

Lemma get_socket_set_eq (v i : nat) (st : state) (w : world) (x : served) :
  get_socket w v i = Some x →
  get_socket (set_socket v i st w) v i = Some (Served (v_sock x) st).
Proof.
  unfold get_socket, set_socket. simpl. rewrite list_lookup_alter_eq.
  destruct (w_services w !! v) as [l|]; [|done]. simpl. intros Hx. by rewrite list_lookup_alter_eq, Hx.
Qed.

(** The socket objects, which never change. *)
Definition all_socks (svss : list (list served)) : list (list sock) :=
  (λ svs : list served, v_sock <$> svs) <$> svss.

Lemma socks_set (v i : nat) (st : state) (w : world) :
  all_socks (w_services (set_socket v i st w)) = all_socks (w_services w).
Proof.
  unfold set_socket, all_socks. simpl. apply list_eq. intros j. rewrite !list_lookup_fmap, list_lookup_alter.
  case_decide as Hj; [subst|done]. destruct (w_services w !! j) as [svs|]; [|done]. simpl. f_equal.
  apply list_eq. intros m. rewrite !list_lookup_fmap, list_lookup_alter.
  case_decide; [subst|done]. by destruct (svs !! m).
Qed.

Definition entry_socks (w : world) (v : nat) : option (list sock) :=
  all_socks (w_services w) !! v.

Lemma entry_get (w : world) (v i : nat) (x : served) :
  get_socket w v i = Some x → ∃ socks, entry_socks w v = Some socks ∧ socks !! i = Some (v_sock x).
Proof.
  unfold get_socket, entry_socks, all_socks. rewrite list_lookup_fmap.
  destruct (w_services w !! v) as [svs|]; [|done]. simpl. intros Hx. exists (v_sock <$> svs).
  split; [done|]. by rewrite list_lookup_fmap, Hx.
Qed.

Lemma get_entry (w : world) (v i : nat) (socks : list sock) (s : sock) :
  entry_socks w v = Some socks → socks !! i = Some s →
  ∃ x, get_socket w v i = Some x ∧ v_sock x = s.
Proof.
  unfold get_socket, entry_socks, all_socks. rewrite list_lookup_fmap.
  destruct (w_services w !! v) as [svs|]; [|done]. simpl. intros [= <-].
  rewrite list_lookup_fmap. intros (x & -> & ->)%fmap_Some. eauto.
Qed.

(** What [RunTestimony] hands over: sockets numbered by position, of their entry. *)
Definition numbered (sv : service) : Prop :=
  ∀ i s, sv_socks sv !! i = Some s → sock_num s = Z.of_nat i ∧ sock_conf s = sv_conf sv.

Lemma RunTestimony_numbered (o : os) (t : list SocketConfig) :
  Forall numbered (RunTestimony o t).1.
Proof.
  destruct (RunTestimony o t) as [svs e] eqn:Hr.
  apply RunTestimony_inv in Hr as [[-> _]|(_ & _ & Hs)]; [constructor|].
  apply start_all_socks in Hs. eapply Forall_impl; [exact Hs|].
  intros sv (Hn & Hc & _) i s Hi. rewrite Forall_forall in Hc.
  split; [|by apply Hc; eapply list_elem_of_lookup_2].
  assert ((sock_num <$> sv_socks sv) !! i = Some (sock_num s)) as H by (by rewrite list_lookup_fmap, Hi).
  rewrite Hn, list_lookup_fmap in H. apply fmap_Some in H as (j & Hj & ->).
  by apply lookup_seq in Hj as [-> _].
Qed.

(** ** The invariant of the composition *)

(** The client of [k] was greeted by entry [v] and got the descriptor of socket [i]. *)
Definition handed_to (w : world) (v : nat) (k : link) (i : nat) : Prop :=
  ∃ socks s, entry_socks w v = Some socks ∧ socks !! i = Some s ∧
    k_out k = greeting socks ++ [byte_of 0] ∧ k_ctl k = [UnixRights [sock_fd s]] ∧
    k_closed k = false.

Definition handler_ok (w : world) (v : nat) (h : handler) : Prop :=
  match h with
  | Shaking k => fresh_link k = true ∧ is_Some (entry_socks w v)
  | HandingOver k i | HandedOver k i => handed_to w v k i
  | Refused k e => k_closed k = true ∧ k_ctl k = []
  end.

Record WInv (svs : list service) (w : world) : Prop := {
  wi_socks : all_socks (w_services w) ++ (sv_socks <$> w_todo w) = sv_socks <$> svs;
  wi_reach v i x : get_socket w v i = Some x → reachable (ring_blocks (v_sock x)) (v_state x);
  wi_conns v i x c : get_socket w v i = Some x →
    (c ∈ dom (s_conns (v_state x)) ↔ ∃ k, w_handlers w !! c = Some (v, HandedOver k i));
  wi_handlers c v h : w_handlers w !! c = Some (v, h) → handler_ok w v h;
}.

Lemma handler_ok_mono (w w' : world) (v : nat) (h : handler) :
  (∀ socks, entry_socks w v = Some socks → entry_socks w' v = Some socks) →
  handler_ok w v h → handler_ok w' v h.
Proof.
  intros Hm. destruct h; simpl; unfold handed_to; try naive_solver.
  intros [? [socks ?]]. eauto.
Qed.

Lemma fresh_link_inv (k : link) :
  fresh_link k = true → k_out k = [] ∧ k_ctl k = [] ∧ k_closed k = false.
Proof. unfold fresh_link. by destruct (k_out k), (k_ctl k), (k_closed k). Qed.

(** The sockets of an entry are those RunTestimony made for it, all the time. *)
Lemma entry_started (svs : list service) (w : world) (v : nat) (socks : list sock) :
  WInv svs w → entry_socks w v = Some socks → (sv_socks <$> svs) !! v = Some socks.
Proof. intros HI He. rewrite <- (wi_socks _ _ HI). by apply lookup_app_l_Some. Qed.

Section preservation.
Context (svs : list service) (Hnum : Forall numbered svs).

Lemma entry_numbered (w : world) (v i : nat) (socks : list sock) (s : sock) :
  WInv svs w → entry_socks w v = Some socks → socks !! i = Some s → sock_num s = Z.of_nat i.
Proof.
  intros HI Hv%(entry_started _ _ _ _ HI) Hs. rewrite list_lookup_fmap in Hv. apply fmap_Some in Hv as (sv & Hsv & ->).
  rewrite Forall_forall in Hnum. apply (Hnum sv); [by eapply list_elem_of_lookup_2|done].
Qed.

(** A change of the goroutine of one connection that is not with a socket, before or
    after. *)
Definition with_socket (h : option (nat * handler)) : bool :=
  match h with Some (_, HandedOver _ _) => true | _ => false end.

Lemma inv_set_handler (w : world) (c v : nat) (h : handler) :
  WInv svs w → with_socket (w_handlers w !! c) = false → with_socket (Some (v, h)) = false →
  handler_ok w v h → WInv svs (set_handler c v h w).
Proof.
  intros HI Hold Hnew Hok. constructor; simpl.
  - apply HI.
  - apply HI.
  - intros v' i x c' Hx. rewrite (wi_conns _ _ HI v' i x c' Hx).
    destruct (decide (c = c')) as [<-|Hne]; [|by rewrite lookup_insert_ne].
    rewrite lookup_insert_eq. split; intros [k Hk].
    + by rewrite Hk in Hold.
    + by simplify_eq.
  - intros c' v' h'. destruct (decide (c = c')) as [<-|Hne].
    + rewrite lookup_insert_eq. intros [= <- <-]. by eapply handler_ok_mono.
    + rewrite lookup_insert_ne by done. intros H. eapply handler_ok_mono; [|by eapply HI]. done.
Qed.

Lemma inv_start (w w' : world) : WInv svs w → start_step w = WNext w' → WInv svs w'.
Proof.
  intros HI. unfold start_step. destruct (w_todo w) as [|sv todo] eqn:Ht; [by destruct (w_end w)|].
  intros [= <-].
  assert (∀ v socks, entry_socks w v = Some socks →
    all_socks (w_services w ++ [serve_sock <$> sv_socks sv]) !! v = Some socks) as Hent.
  { intros v socks Hv. unfold all_socks. rewrite fmap_app. by apply lookup_app_l_Some. }
  assert (∀ v i x, (w_services w ++ [serve_sock <$> sv_socks sv]) !! v ≫= (.!! i) = Some x →
    get_socket w v i = Some x ∨
    entry_socks w v = None ∧ ∃ s, x = serve_sock s) as Hget.
  { intros v i x. unfold get_socket, entry_socks, all_socks. rewrite list_lookup_fmap.
    destruct (w_services w !! v) as [l|] eqn:Hv.
    - rewrite (lookup_app_l_Some _ _ _ _ Hv). by left.
    - apply lookup_ge_None in Hv as Hlen. rewrite lookup_app_r by done.
      destruct (v - length (w_services w))%nat as [|]; simpl; [|done].
      rewrite list_lookup_fmap. intros (s & _ & ->)%fmap_Some. right. eauto. }
  constructor; simpl.
  - rewrite <- (wi_socks _ _ HI), Ht. unfold all_socks. rewrite fmap_app, <- app_assoc. simpl.
    rewrite <- list_fmap_compose, (list_fmap_id). done.
  - intros v i x [Hx|(_ & s & ->)]%Hget; [by eapply HI|constructor].
  - intros v i x c [Hx|(Hn & s & ->)]%Hget; [by apply HI|]. split.
    + simpl. set_solver.
    + intros [k (socks & s' & He & _)%(wi_handlers _ _ HI)]. congruence.
  - intros c v h Hh%(wi_handlers _ _ HI). eapply handler_ok_mono; [|exact Hh]. apply Hent.
Qed.

Lemma inv_accept_step (w w' : world) (v c : nat) (r : link + errno) :
  WInv svs w → accept_step v c r w = WNext w' → WInv svs w'.
Proof.
  intros HI. unfold accept_step. destruct (w_services w !! v) as [l|] eqn:Hv; [|done].
  destruct r as [k|]; [|done]. destruct (w_handlers w !! c) eqn:Hc; [done|].
  destruct (fresh_link k) eqn:Hk; [|done]. intros [= <-].
  apply inv_set_handler; [done|by rewrite Hc|done|]. split; [done|].
  unfold entry_socks, all_socks. rewrite list_lookup_fmap, Hv. by eexists.
Qed.

Lemma inv_handle_step (w w' : world) (c : nat) :
  WInv svs w → handle_step c w = WNext w' → WInv svs w'.
Proof.
  intros HI. unfold handle_step.
  destruct (w_handlers w !! c) as [[v [k|k i|k i|k e]]|] eqn:Hc; try done.
  destruct (w_services w !! v) as [l|] eqn:Hv; [|done].
  destruct (wi_handlers _ _ HI _ _ _ Hc) as [(Ho & Hct & Hcl)%fresh_link_inv _].
  assert (entry_socks w v = Some (v_sock <$> l)) as He
    by (unfold entry_socks, all_socks; by rewrite list_lookup_fmap, Hv).
  destruct (handle (v_sock <$> l) k) as [k' [s|e]] eqn:Hh.
  - apply handle_accepts in Hh as (idx & rest & _ & Hidx & Hs & _ & ->). intros [= <-].
    rewrite (entry_numbered w v _ _ _ HI He Hs), Nat2Z.id.
    apply inv_set_handler; [done|by rewrite Hc|done|].
    exists (v_sock <$> l), s. simpl. rewrite Ho, Hct, Hcl. by split_and!.
  - apply handle_refuses in Hh as (Hcl' & Hct' & _). intros Hw.
    assert (w' = set_handler c v (Refused k' e) w) as -> by (by destruct e; simplify_eq).
    apply inv_set_handler; [done|by rewrite Hc|done|]. split; [done|congruence].
Qed.

(** A step of one socket, and what its connections are afterwards. *)
Lemma socket_step_inv (w w' : world) (v i : nat) (l : label) :
  socket_step v i l w = WNext w' →
  ∃ x st, get_socket w v i = Some x ∧ step l (v_state x) = Next st ∧ w' = set_socket v i st w.
Proof.
  unfold socket_step. destruct (get_socket w v i) as [x|]; [|done].
  destruct (step l (v_state x)) eqn:E; [done| |done]. intros [= <-]. eauto.
Qed.

Lemma inv_set_socket (w : world) (hs : gmap nat (nat * handler)) (v i : nat) (x : served)
    (st : state) (l : label) :
  WInv svs w → world_bound w → get_socket w v i = Some x → step l (v_state x) = Next st →
  (∀ c v' h, hs !! c = Some (v', h) → handler_ok w v' h) →
  (∀ c, c ∈ dom (s_conns st) ↔ ∃ k, hs !! c = Some (v, HandedOver k i)) →
  (∀ v' i' c k, v' ≠ v ∨ i' ≠ i →
     hs !! c = Some (v', HandedOver k i') ↔ w_handlers w !! c = Some (v', HandedOver k i')) →
  let w1 := set_socket v i st w in
  WInv svs (World (w_todo w1) (w_end w1) (w_services w1) hs).
Proof.
  intros HI Hb Hx Hst Hok Hin Hother w1. constructor; cbn [w_todo w_services w_handlers].
  - unfold w1. rewrite socks_set. apply HI.
  - intros v' i' x' Hx'.
    apply (get_socket_set v i v' i' st w) in Hx' as (x0 & Hx0 & -> & [(-> & -> & ->)|[_ ->]]);
      [|by eapply HI].
    rewrite Hx in Hx0. injection Hx0 as <-. eapply reach_step; [by eapply HI|by eapply world_conn_bound|done].
  - intros v' i' x' c Hx'.
    apply (get_socket_set v i v' i' st w) in Hx' as (x0 & Hx0 & _ & [(-> & -> & ->)|[Hne ->]]);
      [apply Hin|].
    rewrite (wi_conns _ _ HI v' i' x0 c Hx0). split; intros [k Hk]; exists k; by apply Hother.
  - intros c v' h Hh%Hok. eapply handler_ok_mono; [|done]. intros socks.
    unfold entry_socks, w1. cbn [w_services]. by rewrite socks_set.
Qed.

Lemma inv_socket_step (w w' : world) (v i : nat) (l : label) :
  WInv svs w → world_bound w → is_accept l = false → socket_step v i l w = WNext w' → WInv svs w'.
Proof.
  intros HI Hb Hl (x & st & Hx & Hst & ->)%socket_step_inv.
  apply (inv_set_socket w (w_handlers w) v i x st l HI Hb Hx Hst); [apply HI| |done].
  intros c. rewrite <- (wi_conns _ _ HI v i x c Hx), (step_dom _ _ _ Hst). by destruct l.
Qed.

Lemma inv_handover_step (w w' : world) (c : nat) :
  WInv svs w → world_bound w → handover_step c w = WNext w' → WInv svs w'.
Proof.
  intros HI Hb. unfold handover_step.
  destruct (w_handlers w !! c) as [[v [k|k i|k i|k e]]|] eqn:Hc; try done.
  destruct (socket_step v i (LAccept c) w) as [|w1|] eqn:Hs; try done. intros [= <-].
  apply socket_step_inv in Hs as (x & st & Hx & Hst & ->).
  apply (inv_set_socket w (<[c := (v, HandedOver k i)]> (w_handlers w)) v i x st _ HI Hb Hx Hst).
  - intros c' v' h. destruct (decide (c = c')) as [<-|Hne].
    + rewrite lookup_insert_eq. intros [= <- <-]. exact (wi_handlers _ _ HI _ _ _ Hc).
    + rewrite lookup_insert_ne by done. apply HI.
  - intros c'. rewrite (step_dom _ _ _ Hst). destruct (decide (c = c')) as [<-|Hne].
    + rewrite lookup_insert_eq. split; [by eexists|set_solver].
    + rewrite lookup_insert_ne, <- (wi_conns _ _ HI v i x c' Hx) by done. set_solver.
  - intros v' i' c' k' Hne. destruct (decide (c = c')) as [<-|]; [|by rewrite lookup_insert_ne].
    rewrite lookup_insert_eq, Hc. split; [intros [= <- _ <-]; tauto|done].
Qed.

Lemma inv_world_step (w w' : world) (l : world_label) :
  WInv svs w → world_bound w → world_step l w = WNext w' → WInv svs w'.
Proof.
  intros HI Hb. destruct l as [|v c r|c|c|v i l]; simpl.
  - by apply inv_start.
  - by apply inv_accept_step.
  - by apply inv_handle_step.
  - by apply inv_handover_step.
  - destruct (is_accept l) eqn:Hl; [done|]. by apply inv_socket_step.
Qed.

Lemma world_inv (e : option fatal) (w : world) : world_reachable (svs, e) w → WInv svs w.
Proof.
  induction 1 as [|w l w' _ IH Hb Hs]; [|by eapply inv_world_step].
  constructor; simpl; try done.
Qed.
End preservation.

(** ** What RunTestimony starts *)
Lemma world_end (r : list service * option fatal) (w : world) :
  world_reachable r w → w_end w = r.2.
Proof.
  induction 1 as [|w l w' _ IH _ Hs]; [done|]. rewrite <- IH.
  destruct l as [|v c k|c|c|v i l]; simpl in Hs; revert Hs.
  - unfold start_step. by destruct (w_todo w); [destruct (w_end w)|intros [= <-]].
  - unfold accept_step. destruct (w_services w !! v), k; try done.
    destruct (w_handlers w !! c); [done|]. destruct (fresh_link _); [by intros [= <-]|done].
  - unfold handle_step. destruct (w_handlers w !! c) as [[v [| | |]]|]; try done.
    destruct (w_services w !! v); [|done].
    destruct (handle _ _) as [? [|[]]]; intros ?; by simplify_eq.
  - unfold handover_step. destruct (w_handlers w !! c) as [[v [| | |]]|]; try done.
    destruct (socket_step v i (LAccept c) w) eqn:E; try done. intros [= <-].
    by apply socket_step_inv in E as (? & ? & _ & _ & ->).
  - destruct (is_accept l); [done|]. by intros (? & ? & _ & _ & ->)%socket_step_inv.
Qed.

Section started.
Context (o : os) (t : list SocketConfig).
Local Notation r := (RunTestimony o t).

Lemma started_inv (w : world) : world_reachable r w → WInv r.1 w.
Proof.
  intros Hw. eapply world_inv; [apply RunTestimony_numbered|]. by rewrite <- surjective_pairing.
Qed.

(** The entry behind a list of sockets of a world. *)
Lemma started_entry (w : world) (v : nat) (socks : list sock) :
  world_reachable r w → entry_socks w v = Some socks →
  ∃ sc, sc ∈ t ∧ Z.of_nat (length socks) = Z.max 0 (FanoutSize sc) ∧
    Forall (λ s, sock_conf s = sc) socks.
Proof.
  intros Hw Hv%(entry_started _ _ _ _ (started_inv w Hw)).
  rewrite list_lookup_fmap in Hv. apply fmap_Some in Hv as (sv & Hsv & ->).
  apply list_elem_of_lookup_2 in Hsv. destruct r as [svs e] eqn:Hr. cbn [fst] in Hsv.
  apply RunTestimony_inv in Hr as [[-> _]|(_ & _ & Hs)]; [by apply elem_of_nil in Hsv|].
  pose proof (start_all_socks _ _ _ _ _ _ _ Hs) as Hss.
  apply start_all_names in Hs as (_ & _ & [rest Hpre] & _).
  rewrite Forall_forall in Hss. destruct (Hss sv Hsv) as (Hn & Hc & _).
  exists (sv_conf sv). split_and!; [|apply (f_equal length) in Hn|done].
  - rewrite Hpre. apply elem_of_app. left. by apply list_elem_of_fmap_2.
  - rewrite !length_fmap, length_seq in Hn. lia.
Qed.

Lemma started_socket (w : world) (v i : nat) (x : served) :
  world_reachable r w → get_socket w v i = Some x → sock_conf (v_sock x) ∈ t.
Proof.
  intros Hw (socks & He & Hs)%entry_get.
  destruct (started_entry w v socks Hw He) as (sc & Hsc & _ & Hall).
  rewrite Forall_forall in Hall. rewrite (Hall (v_sock x)); [done|]. by eapply list_elem_of_lookup_2.
Qed.

(** All sockets of an entry have its configuration. *)
Lemma started_conf (w : world) (v i : nat) (x : served) (s0 : sock) (socks : list sock) :
  world_reachable r w → get_socket w v i = Some x → entry_socks w v = Some (s0 :: socks) →
  sock_conf (v_sock x) = sock_conf s0.
Proof.
  intros Hw (socks' & He' & Hs)%entry_get He. rewrite He in He'. injection He' as <-.
  destruct (started_entry w v _ Hw He) as (sc & _ & _ & Hall).
  rewrite Forall_forall in Hall. rewrite !Hall; [done|by left|by eapply list_elem_of_lookup_2].
Qed.
End started.

(** ** The process stays up *)

(** The ends the code provides for. *)
Definition expected_end (setup : option fatal) (l : world_label) (why : world_crash) : Prop :=
  match why with
  | SetupFatal e => l = WStart ∧ setup = Some e
  | AcceptFatal e => ∃ v c, l = WAccept v c (inr e)
  | SocketCrash v i (PanicWaitForBlocks errno) => l = WSocket v i (LG errno) ∧ errno ≠ 0
  | _ => False
  end.

Lemma handle_step_panic (w : world) (c : nat) (why : world_crash) :
  handle_step c w = WCrash why →
  why = PanicHandle ∧ ∃ v, entry_socks w v = Some [].
Proof.
  unfold handle_step. destruct (w_handlers w !! c) as [[v [k| | |]]|]; try done.
  unfold entry_socks, all_socks. destruct (w_services w !! v) as [svs|] eqn:Hv; [|done].
  destruct (v_sock <$> svs) as [|s0 socks] eqn:Hs.
  - intros H. split; [destruct (handle _ k) as [? [|[]]]; congruence|].
    exists v. rewrite list_lookup_fmap, Hv. simpl. by rewrite Hs.
  - pose proof (handle_some_socket s0 socks k).
    destruct (handle (s0 :: socks) k) as [? [|[]]]; simpl in *; congruence.
Qed.

Lemma socket_step_crash (svs : list service) (w : world) (v i : nat) (x : served) (l : label)
    (why : world_crash) :
  WInv svs w → world_bound w → get_socket w v i = Some x → (0 < ring_blocks (v_sock x))%nat →
  socket_step v i l w = WCrash why →
  ∃ errno, l = LG errno ∧ errno ≠ 0 ∧ why = SocketCrash v i (PanicWaitForBlocks errno).
Proof.
  intros HI Hb Hx Hn. unfold socket_step. rewrite Hx.
  pose proof (world_conn_bound w v i x Hb Hx) as Hcb.
  destruct (step l (v_state x)) eqn:E; [done|done|]. intros [= <-].
  apply step_no_crash in E as (errno & -> & He & _ & ->); [by eauto| |done].
  by eapply reachable_inv; [|eapply HI].
Qed.

(** C2: the daemon stays up: with a configuration whose entries have sockets and
    blocks, no client, no set of clients and no interleaving makes the process panic
    or exit.  It ends only where the code says so: a fatal error of the set-up, a
    failing accept, a failing select(2) in WaitForBlocks. *)
Theorem daemon_never_crashes (o : os) (t : list SocketConfig) (w : world) (l : world_label)
    (why : world_crash) :
  Forall (λ sc, 0 < FanoutSize sc ∧ 0 < NumBlocks sc) t →
  world_reachable (RunTestimony o t) w → world_bound w → world_step l w = WCrash why →
  expected_end (RunTestimony o t).2 l why.
Proof.
  intros Hconf Hw Hb Hstep. pose proof (started_inv o t w Hw) as HI.
  rewrite Forall_forall in Hconf.
  assert (∀ v i x, get_socket w v i = Some x → (0 < ring_blocks (v_sock x))%nat) as Hn.
  { intros v i x Hx%(started_socket o t w v i x Hw)%Hconf. unfold ring_blocks. lia. }
  assert (∀ v i l, socket_step v i l w = WCrash why →
    ∃ errno, l = LG errno ∧ errno ≠ 0 ∧ why = SocketCrash v i (PanicWaitForBlocks errno)) as Hsock.
  { intros v i l' E. destruct (get_socket w v i) as [x|] eqn:Hx.
    - eapply (socket_step_crash _ w v i x); eauto.
    - unfold socket_step in E. by rewrite Hx in E. }
  destruct l as [|v c k|c|c|v i l]; simpl in Hstep.
  - unfold start_step in Hstep. destruct (w_todo w); [|done].
    destruct (w_end w) eqn:He; simplify_eq. split; [done|]. by rewrite <- (world_end _ w Hw).
  - unfold accept_step in Hstep. destruct (w_services w !! v), k; simplify_eq; [|by eexists _, _].
    destruct (w_handlers w !! c); [done|]. by destruct (fresh_link _).
  - apply handle_step_panic in Hstep as (_ & v & He).
    destruct (started_entry o t w v [] Hw He) as (sc & [Hf _]%Hconf & Hl & _). simpl in Hl. lia.
  - unfold handover_step in Hstep. destruct (w_handlers w !! c) as [[v [| | |]]|]; try done.
    destruct (socket_step v i (LAccept c) w) eqn:E; simplify_eq.
    by destruct (Hsock v i (LAccept c) E) as (errno & ? & _).
  - destruct (is_accept l); [done|].
    destruct (Hsock v i l Hstep) as (errno & -> & ? & ->). done.
Qed.

(** Three entries, the second with two sockets; client 7 asks for its socket 1, client
    8 for a socket that does not exist. *)
Definition demo_world (ls : list world_label) : world :=
  default (boot (RunTestimony demo_os demo_config))
    (run_world ls (boot (RunTestimony demo_os demo_config))).

Lemma demo_world_reachable (ls : list world_label) :
  world_bounded ls (boot (RunTestimony demo_os demo_config)) = true →
  world_reachable (RunTestimony demo_os demo_config) (demo_world ls).
Proof.
  intros Hb. unfold demo_world. destruct (run_world ls _) eqn:E; simpl; [|constructor].
  by eapply run_world_reachable; [constructor|..].
Qed.

Definition demo_clients : list world_label :=
  [WStart; WStart; WAccept 1 7 (inl (demo_link (index_msg 1))); WStart;
   WAccept 1 8 (inl (demo_link (index_msg 5))); WHandle 7; WHandle 8].

(** Client 7 is handed over and gets block 0 of its ring. *)
Definition demo_serving : list world_label :=
  demo_clients ++ [WHandOver 7] ++
  (WSocket 1 1 <$> [LKernel 0 1; LG 0; LG 0; LG 0; LG 0; LNew [7%nat]; LRun; LRun; LRun; LRun;
                    LConn 7 PickNew; LConn 7 Tau; LConn 7 Tau; LConn 7 WriteOk]).

Lemma demo_config_served : Forall (λ sc, 0 < FanoutSize sc ∧ 0 < NumBlocks sc) demo_config.
Proof. repeat constructor. Qed.

Lemma daemon_never_crashes_witness :
  world_step (WAccept 2 9 (inr 24)) (demo_world demo_serving) = WCrash (AcceptFatal 24) ∧
  expected_end (RunTestimony demo_os demo_config).2 (WAccept 2 9 (inr 24)) (AcceptFatal 24).
Proof.
  split; [by vm_compute|]. apply (daemon_never_crashes demo_os demo_config (demo_world demo_serving)).
  - apply demo_config_served.
  - apply demo_world_reachable. by vm_compute.
  - by vm_compute.
  - by vm_compute.
Defined.

(** ** Who serves a client *)

(** C17: a client is served by the socket whose descriptor it was given and by no
    other: a connection is among a socket's connections exactly when its handshake
    chose that socket, and then the daemon sent it the greeting of that entry and one
    descriptor, this socket's; connections that were refused are closed and got
    none. *)
Theorem served_by_its_descriptor (o : os) (t : list SocketConfig) (w : world) :
  world_reachable (RunTestimony o t) w →
  (∀ v i x c, get_socket w v i = Some x →
     (c ∈ dom (s_conns (v_state x)) ↔ ∃ k, w_handlers w !! c = Some (v, HandedOver k i))) ∧
  (∀ c v k i, w_handlers w !! c = Some (v, HandedOver k i) →
     ∃ x socks, get_socket w v i = Some x ∧ entry_socks w v = Some socks ∧
       k_out k = greeting socks ++ [byte_of 0] ∧ k_ctl k = [UnixRights [sock_fd (v_sock x)]] ∧
       k_closed k = false) ∧
  (∀ c v k e, w_handlers w !! c = Some (v, Refused k e) → k_closed k = true ∧ k_ctl k = []).
Proof.
  intros Hw. pose proof (started_inv o t w Hw) as HI. split_and!.
  - apply HI.
  - intros c v k i Hc. destruct (wi_handlers _ _ HI _ _ _ Hc) as (socks & s & He & Hs & ? & ? & ?).
    destruct (get_entry w v i socks s He Hs) as (x & Hx & <-). eauto 10.
  - intros c v k e Hc. exact (wi_handlers _ _ HI _ _ _ Hc).
Qed.

Lemma served_by_its_descriptor_witness :
  ∃ x, get_socket (demo_world demo_serving) 1 1 = Some x ∧ sock_fd (v_sock x) = 101 ∧
    (7%nat ∈ dom (s_conns (v_state x)) ↔
     ∃ k, w_handlers (demo_world demo_serving) !! 7%nat = Some (1%nat, HandedOver k 1)).
Proof.
  assert (option_map (sock_fd ∘ v_sock) (get_socket (demo_world demo_serving) 1 1) = Some 101) as Hfd
    by (vm_compute; reflexivity).
  destruct (get_socket (demo_world demo_serving) 1 1) as [x|] eqn:E; [|done].
  exists x. split; [done|]. split; [by injection Hfd|].
  apply (served_by_its_descriptor demo_os demo_config (demo_world demo_serving));
    [apply demo_world_reachable; by vm_compute|done].
Defined.

(** ** The hand-over comes *)
Lemma socket_run_to_select (svs : list service) (w : world) (v i : nat) (rank : nat) (x : served) :
  Forall numbered svs → WInv svs w → world_bound w → get_socket w v i = Some x →
  (0 < ring_blocks (v_sock x))%nat → run_rank (s_run (v_state x)) = rank →
  ∃ ls w' x', Forall (λ l, l = WSocket v i LRun) ls ∧ run_world ls w = Some w' ∧
    WInv svs w' ∧ w_handlers w' = w_handlers w ∧ get_socket w' v i = Some x' ∧
    v_sock x' = v_sock x ∧ s_run (v_state x') = RSelect.
Proof.
  intros Hnum. revert w x. induction rank as [rank IH] using lt_wf_ind.
  intros w x HI Hb Hx Hn Hrk.
  destruct (decide (run_rank (s_run (v_state x)) = 0%nat)) as [H0|H0].
  { exists [], w, x. split_and!; try done.
    destruct (s_run (v_state x)); simpl in H0; try done; lia. }
  assert (conn_bound (v_state x)) as Hcb by (by eapply world_conn_bound).
  assert (Inv (v_state x)) as HS by (by eapply reachable_inv; [|eapply HI]).
  destruct (run_progress _ HS Hcb) as (st & Hst & Hlt & _); [by intros E; rewrite E in H0|].
  set (w1 := set_socket v i st w).
  assert (socket_step v i LRun w = WNext w1) as Hs by (unfold socket_step; by rewrite Hx, Hst).
  assert (get_socket w1 v i = Some (Served (v_sock x) st)) as Hx1
    by (by apply get_socket_set_eq).
  destruct (IH (run_rank (s_run st))) with (w := w1) (x := Served (v_sock x) st)
    as (ls & w' & x' & Hls & Hrun & HI' & Hh & Hx' & Hsock & Hsel); try done; [lia|..].
  { by apply (inv_socket_step svs w w1 v i LRun). }
  { apply (set_socket_bound w v i x st Hx); [|done]. by apply (step_open _ _ LRun). }
  exists (WSocket v i LRun :: ls), w', x'. split_and!; try done; [by constructor|].
  simpl. by rewrite Hs.
Qed.

(** A client that completed the handshake is taken in: from every reachable state
    in which a handshake waits at newConns, steps of that one socket's run bring it to
    its select, where it accepts the connection and starts serving it. *)
Theorem handover_completes (o : os) (t : list SocketConfig) (w : world) (c v i : nat) (k : link) :
  Forall (λ sc, 0 < NumBlocks sc) t → world_reachable (RunTestimony o t) w → world_bound w →
  w_handlers w !! c = Some (v, HandingOver k i) →
  ∃ ls w' x cn, Forall (λ l, l = WSocket v i LRun) ls ∧
    run_world (ls ++ [WHandOver c]) w = Some w' ∧
    w_handlers w' !! c = Some (v, HandedOver k i) ∧
    get_socket w' v i = Some x ∧ s_conns (v_state x) !! c = Some cn ∧ c ∈ s_cur (v_state x) ∧
    cn = addNewConn (ring_blocks (v_sock x)).
Proof.
  intros Hconf Hw Hb Hc. pose proof (started_inv o t w Hw) as HI.
  destruct (wi_handlers _ _ HI _ _ _ Hc) as (socks & s & He & Hs & _).
  destruct (get_entry w v i socks s He Hs) as (x & Hx & _).
  rewrite Forall_forall in Hconf.
  assert (0 < ring_blocks (v_sock x))%nat as Hn.
  { pose proof (Hconf _ (started_socket o t w v i x Hw Hx)). unfold ring_blocks. lia. }
  destruct (socket_run_to_select _ w v i _ x (RunTestimony_numbered o t) HI Hb Hx Hn eq_refl)
    as (ls & w' & x' & Hls & Hrun & HI' & Hh & Hx' & Hsock & Hsel).
  assert (s_conns (v_state x') !! c = None) as Hfree.
  { apply not_elem_of_dom. intros [k' Hk']%(wi_conns _ _ HI' v i x' c Hx').
    rewrite Hh in Hk'. congruence. }
  assert (length (s_blocks (v_state x')) = ring_blocks (v_sock x')) as Hlen.
  { rewrite (i_len (v_state x')), (reachable_nb (ring_blocks (v_sock x'))); [done|by eapply HI'|].
    eapply reachable_inv; [|by eapply HI']. by rewrite Hsock. }
  set (st := set_cur ({[c]} ∪ s_cur (v_state x')) (set_conn c
    (addNewConn (length (s_blocks (v_state x')))) (v_state x'))).
  assert (step (LAccept c) (v_state x') = Next st) as Hst
    by (simpl; unfold run_accept; by rewrite Hsel, Hfree).
  exists ls, (set_handler c v (HandedOver k i) (set_socket v i st w')), (Served (v_sock x') st).
  eexists. split_and!.
  - done.
  - eapply run_world_app; [done|]. simpl. unfold handover_step, socket_step.
    by rewrite Hh, Hc, Hx', Hst.
  - apply lookup_insert_eq.
  - by apply get_socket_set_eq.
  - apply lookup_insert_eq.
  - simpl. set_solver.
  - by rewrite Hlen.
Qed.

Lemma handover_completes_witness :
  ∃ ls w', Forall (λ l, l = WSocket 1 1 LRun) ls ∧
    run_world (ls ++ [WHandOver 7]) (demo_world demo_clients) = Some w' ∧
    ∃ k, w_handlers w' !! 7%nat = Some (1%nat, HandedOver k 1).
Proof.
  destruct (w_handlers (demo_world demo_clients) !! 7%nat) as [[v h]|] eqn:E; [|by vm_compute in E].
  assert (∃ k, (v, h) = (1%nat, HandingOver k 1)) as [k Hk].
  { vm_compute in E. simplify_eq. by eexists. }
  simplify_eq.
  destruct (handover_completes demo_os demo_config (demo_world demo_clients) 7 1 1 k)
    as (ls & w' & _ & _ & Hls & Hrun & Hh & _).
  - repeat constructor.
  - apply demo_world_reachable. by vm_compute.
  - by vm_compute.
  - done.
  - exists ls, w'. by eauto.
Defined.

(** ** A client of the daemon, from end to end *)

(** What the daemon wrote on a connection, read by the Go client. *)
Lemma client_reads (o : os) (t : list SocketConfig) (w : world) (v i c : nat)
    (x : served) (cn : conn) (s0 : sock) (socks : list sock)
    (sys : sys) (install : Z → Z) (cb : nat) :
  world_reachable (RunTestimony o t) w →
  get_socket w v i = Some x → s_conns (v_state x) !! c = Some cn →
  entry_socks w v = Some (s0 :: socks) → good_service s0 socks →
  NumBlocks (sock_conf s0) <= 2 ^ 31 → (8 ≤ cb)%nat →
  - 2 ^ 31 <= install (sock_fd (v_sock x)) < 2 ^ 31 →
  sys_mmap sys (install (sock_fd (v_sock x)))
    (BlockSize (sock_conf s0) * NumBlocks (sock_conf s0)) = None →
  ∃ k tc tc' rest, w_handlers w !! c = Some (v, HandedOver k i) ∧
    k_ctl k = [UnixRights [sock_fd (v_sock x)]] ∧
    Init sys (Z.of_nat i) (Connect sys (inl (Link (k_out k ++ l_wire (c_log cn))
       (UnixRights [install (sock_fd (v_sock x))]) [] [] cb false))).1 = (tc, None) ∧
    t_fd tc = install (sock_fd (v_sock x)) ∧ ready tc ∧
    t_numBlocks tc = NumBlocks (sock_conf (v_sock x)) ∧
    t_blockSize tc = BlockSize (sock_conf (v_sock x)) ∧
    read_blocks (written cn) tc =
      (tc', inl (block_of tc <$> (Z.of_nat <$> take (written cn) (l_got (c_log cn))))) ∧
    k_in <$> t_c tc' = Some rest ∧ (length rest < 4)%nat ∧
    (c_pc cn = CSelect → written cn = length (l_got (c_log cn)) ∧ rest = []).
Proof.
  intros Hw Hx Hc He Hgood Hn31 Hcb Hfd Hmm.
  pose proof (started_inv o t w Hw) as HI. pose proof Hgood as [_ _ Gn _].
  pose proof (started_conf o t w v i x s0 socks Hw Hx He) as Hconf.
  destruct (entry_get w v i x Hx) as (socks' & He' & Hs). rewrite He in He'. injection He' as <-.
  apply elem_of_dom_2 in Hc as Hd. apply (wi_conns _ _ HI v i x c Hx) in Hd as [k Hk].
  destruct (wi_handlers _ _ HI _ _ _ Hk) as (socks1 & s1 & He1 & Hs1 & Hout & Hctl & _).
  rewrite He in He1. injection He1 as <-. rewrite Hs in Hs1. injection Hs1 as <-.
  destruct (client_set_up sys install s0 socks (Z.of_nat i) (v_sock x) Hgood ltac:(lia))
    with (more := l_wire (c_log cn)) (cb := cb) as [Hinit Hready]; [by rewrite Nat2Z.id|done..|].
  assert ((0 < ring_blocks (v_sock x))%nat ∧ Z.of_nat (ring_blocks (v_sock x)) <= 2 ^ 31 ∧
    NumBlocks (sock_conf s0) = Z.of_nat (ring_blocks (v_sock x))) as (Hn & Hle & Hnum)
    by (unfold ring_blocks; rewrite Hconf; lia).
  assert (reachable (ring_blocks (v_sock x)) (v_state x)) as Hreach by (by eapply HI).
  destruct (daemon_wire _ _ c cn Hn Hreach Hc) as (? & _ & _ & Hlen & _ & Hall).
  destruct (read_daemon_blocks _ _ c cn _ _ Hn Hle Hreach Hc Hready Hnum eq_refl eq_refl)
    as (rest & Hl & Hrest & Hread).
  eexists k, _, _, rest. split_and!; [done..| | | | | | | | |].
  - rewrite Hout. exact Hinit.
  - done.
  - exact Hready.
  - by rewrite Hconf.
  - by rewrite Hconf.
  - exact Hread.
  - done.
  - done.
  - intros Hpc. split; [|by apply Hrest]. by rewrite <- Hlen, (proj1 (Hall Hpc)).
Qed.

(** C3: everything the daemon wrote on a connection in any reachable state, from the
    version byte to the last byte, read by the Go client: [Connect] and [Init] succeed
    with the sizes of the entry and the descriptor of the socket that serves this
    connection, and [Conn.Block] then returns exactly as many blocks as whole indexes
    were written, the first ones this socket's conn.run took for it, in order, each as
    its slice of the ring that this descriptor maps, and leaves less than one index
    unread; when conn.run is at its select these are all the blocks it took and
    nothing is left. *)
Theorem daemon_serves_client (o : os) (t : list SocketConfig) (w : world) (v i c : nat)
    (x : served) (cn : conn) (s0 : sock) (socks : list sock)
    (sys : sys) (install : Z → Z) (cb : nat) :
  world_reachable (RunTestimony o t) w →
  get_socket w v i = Some x → s_conns (v_state x) !! c = Some cn →
  entry_socks w v = Some (s0 :: socks) → good_service s0 socks →
  NumBlocks (sock_conf s0) <= 2 ^ 31 → (8 ≤ cb)%nat →
  - 2 ^ 31 <= install (sock_fd (v_sock x)) < 2 ^ 31 →
  sys_mmap sys (install (sock_fd (v_sock x)))
    (BlockSize (sock_conf s0) * NumBlocks (sock_conf s0)) = None →
  ∃ k tc tc' rest, w_handlers w !! c = Some (v, HandedOver k i) ∧
    k_ctl k = [UnixRights [sock_fd (v_sock x)]] ∧
    Init sys (Z.of_nat i) (Connect sys (inl (Link (k_out k ++ l_wire (c_log cn))
       (UnixRights [install (sock_fd (v_sock x))]) [] [] cb false))).1 = (tc, None) ∧
    t_fd tc = install (sock_fd (v_sock x)) ∧ ready tc ∧
    t_numBlocks tc = NumBlocks (sock_conf (v_sock x)) ∧
    t_blockSize tc = BlockSize (sock_conf (v_sock x)) ∧
    read_blocks (written cn) tc =
      (tc', inl (block_of tc <$> (Z.of_nat <$> take (written cn) (l_got (c_log cn))))) ∧
    k_in <$> t_c tc' = Some rest ∧ (length rest < 4)%nat ∧
    (c_pc cn = CSelect → written cn = length (l_got (c_log cn)) ∧ rest = []).
Proof. apply client_reads. Qed.

Lemma daemon_serves_client_witness :
  ∃ k tc, w_handlers (demo_world demo_serving) !! 7%nat = Some (1%nat, HandedOver k 1) ∧
    t_fd tc = 4 ∧ (read_blocks 1 tc).2 = inl [block_of tc 0].
Proof.
  assert (option_map (sock_fd ∘ v_sock) (get_socket (demo_world demo_serving) 1 1) = Some 101) as Hfd0
    by (vm_compute; reflexivity).
  assert (option_map (λ x, option_map (λ cn, (c_pc cn, l_got (c_log cn))) (s_conns (v_state x) !! 7%nat))
    (get_socket (demo_world demo_serving) 1 1) = Some (Some (CSelect, [0%nat]))) as Hcn0
    by (vm_compute; reflexivity).
  destruct (get_socket (demo_world demo_serving) 1 1) as [x|] eqn:Ex; [|done].
  cbn [option_map compose] in Hfd0, Hcn0.
  destruct (s_conns (v_state x) !! 7%nat) as [cn|] eqn:Ec; [|done]. cbn [option_map] in Hcn0.
  injection Hfd0 as Hfd0. injection Hcn0 as Hpc Hgot.
  destruct (daemon_serves_client demo_os demo_config (demo_world demo_serving) 1 1 7 x cn
    (Sock (demo_entry "b" 1 2) 0 100) [Sock (demo_entry "b" 1 2) 1 101] demo_sys (λ fd, fd - 97) 100)
    as (k & tc & tc' & rest & Hk & _ & _ & Hfd & _ & _ & _ & Hr & _ & _ & Hsel).
  - apply demo_world_reachable. by vm_compute.
  - exact Ex.
  - exact Ec.
  - by vm_compute.
  - split; vm_compute; try split; congruence.
  - vm_compute. congruence.
  - lia.
  - rewrite Hfd0. lia.
  - rewrite Hfd0. reflexivity.
  - exists k, tc. split; [exact Hk|]. destruct (Hsel Hpc) as [Hw _]. rewrite Hw, Hgot in Hr.
    rewrite Hfd0 in Hfd. split; [exact Hfd|]. cbn in Hr |- *. by rewrite Hr.
Defined.
