(* ===== verification/DaemonLive.v ===== *)
(** * The whole daemon, forever

    Infinite executions of the process of file Daemon.  What each of its sockets does in
    them is an execution of that socket with pauses (file Stutter), so the liveness of
    one socket becomes liveness of the process: a client that finished its handshake is
    taken in, and a block the kernel fills in the ring of a socket is in the end returned
    by [Conn.Block] in the client that got this socket's descriptor. *)

From stdpp Require Import base list numbers option gmap strings.
From Stdlib Require Import ZArith Lia.
From S2P Require Import Prelude Bytes Protocol Chan Block Socket SocketInv SocketSafety Shutdown.
From S2P Require Import Fair Delivery Stutter Cmsg Link AFPacket Config Handshake Client Session Daemon.

(** ** Executions of the process *)
Record world_execution (r : list service * option fatal) (wtr : nat → world)
    (wlab : nat → world_label) : Prop := {
  wx_start : world_reachable r (wtr 0%nat);
  wx_step k : world_step (wlab k) (wtr k) = WNext (wtr (S k));
}.

(** The part socket [i] of entry [v] has in a step of the process. *)
Definition own_label (v i : nat) (w : world) (l : world_label) : option label :=
  match l with
  | WSocket v' i' l => if bool_decide (v' = v ∧ i' = i) then Some l else None
  | WHandOver c =>
      match w_handlers w !! c with
      | Some (v', HandingOver _ i') =>
          if bool_decide (v' = v ∧ i' = i) then Some (LAccept c) else None
      | _ => None
      end
  | _ => None
  end.

Lemma get_socket_ne (v i v' i' : nat) (st : state) (w : world) :
  ¬ (v' = v ∧ i' = i) → get_socket (set_socket v' i' st w) v i = get_socket w v i.
Proof.
  intros Hne. unfold get_socket, set_socket. simpl. rewrite list_lookup_alter.
  case_decide as Hv; [subst|done]. destruct (w_services w !! v) as [svs|]; [|done]. simpl.
  rewrite list_lookup_alter_ne; [done|]. intros ->. by destruct Hne.
Qed.

Definition moved (x x' : served) (l : option label) : Prop :=
  v_sock x' = v_sock x ∧
  match l with Some l => step l (v_state x) = Next (v_state x') | None => x' = x end.

Lemma socket_step_moved (w w' : world) (v i v' i' : nat) (l : label) (x : served) :
  socket_step v' i' l w = WNext w' → get_socket w v i = Some x →
  ∃ x', get_socket w' v i = Some x' ∧
    moved x x' (if bool_decide (v' = v ∧ i' = i) then Some l else None).
Proof.
  intros (x0 & st & Hx0 & Hst & ->)%socket_step_inv Hx.
  case_bool_decide as Heq; [destruct Heq as [-> ->]|].
  - rewrite Hx in Hx0. injection Hx0 as <-. exists (Served (v_sock x) st). split; [by apply get_socket_set_eq|done].
  - exists x. by rewrite get_socket_ne.
Qed.

Lemma world_step_moved (w w' : world) (l : world_label) (v i : nat) (x : served) :
  world_step l w = WNext w' → get_socket w v i = Some x →
  ∃ x', get_socket w' v i = Some x' ∧ moved x x' (own_label v i w l).
Proof.
  intros Hs Hx.
  assert (w_services w' = w_services w → ∃ x', get_socket w' v i = Some x' ∧ moved x x' None) as Hsame.
  { intros E. exists x. split; [|done]. unfold get_socket in *. by rewrite E. }
  destruct l as [|v' c r|c|c|v' i' l]; simpl in Hs |- *.
  - unfold start_step in Hs. destruct (w_todo w); [by destruct (w_end w)|]. injection Hs as <-.
    exists x. split; [|done]. unfold get_socket in *. simpl.
    destruct (w_services w !! v) eqn:Hv; [|done]. by rewrite (lookup_app_l_Some _ _ _ _ Hv).
  - unfold accept_step in Hs. destruct (w_services w !! v'), r; try done.
    destruct (w_handlers w !! c); [done|]. destruct (fresh_link _); [|done]. injection Hs as <-.
    by apply Hsame.
  - unfold handle_step in Hs. destruct (w_handlers w !! c) as [[v' [| | |]]|]; try done.
    destruct (w_services w !! v'); [|done].
    destruct (handle _ _) as [? [|[]]]; simplify_eq; by apply Hsame.
  - unfold handover_step in Hs. destruct (w_handlers w !! c) as [[v' [| | |]]|]; try done.
    destruct (socket_step v' i0 (LAccept c) w) as [|w1|] eqn:E; try done. injection Hs as <-.
    by apply (socket_step_moved w w1 v i v' i0 _ x).
  - destruct (is_accept l); [done|]. by apply (socket_step_moved w w' v i v' i' l x).
Qed.

(** ** A socket within an execution *)
Definition state_of (v i : nat) (w : world) : state :=
  match get_socket w v i with Some x => v_state x | None => newSocket_state 0 end.

Section within.
Context (o : os) (t : list SocketConfig) (wtr : nat → world) (wlab : nat → world_label).
Context (Hex : world_execution (RunTestimony o t) wtr wlab) (Hb : ∀ k, world_bound (wtr k)).
Context (v i : nat) (x0 : served) (Hx0 : get_socket (wtr 0%nat) v i = Some x0).

Local Notation st := (λ k, state_of v i (wtr k)).
Local Notation own := (λ k, own_label v i (wtr k) (wlab k)).
Local Notation n := (ring_blocks (v_sock x0)).

Lemma wx_reachable (k : nat) : world_reachable (RunTestimony o t) (wtr k).
Proof. induction k as [|k IH]; [apply Hex|]. eapply wr_step; [done|done|apply Hex]. Qed.

Lemma socket_at (k : nat) : ∃ x, get_socket (wtr k) v i = Some x ∧ v_sock x = v_sock x0.
Proof.
  induction k as [|k (x & Hx & Hs)]; [by exists x0|].
  destruct (world_step_moved _ _ _ v i x (wx_step _ _ _ Hex k) Hx) as (x' & Hx' & Hs' & _).
  exists x'. split; [done|congruence].
Qed.

Lemma within_stuttering : stuttering n st own.
Proof.
  split.
  - unfold state_of. rewrite Hx0. apply (wi_reach _ _ (started_inv o t _ (wx_start _ _ _ Hex)) v i x0 Hx0).
  - intros k. destruct (socket_at k) as (x & Hx & _). unfold state_of.
    destruct (world_step_moved _ _ _ v i x (wx_step _ _ _ Hex k) Hx) as (x' & -> & _ & Hm).
    rewrite Hx. destruct (own_label v i (wtr k) (wlab k)); [done|congruence].
Qed.

Lemma within_bound (k : nat) : conn_bound (st k).
Proof.
  unfold state_of. destruct (socket_at k) as (x & Hx & _). rewrite Hx. by eapply world_conn_bound.
Qed.

(** getNewBlocks alone keeps the socket going. *)
Lemma within_moves (k : nat) :
  (0 < n)%nat → weakly st own (λ _, of_get) (λ s, ¬ able of_get s) →
  ∃ j, (k ≤ j)%nat ∧ is_Some (own j).
Proof.
  intros Hn Hget. destruct (Hget k) as (j & Hj & [(l & Hl & _)|Hno]).
  - exists j. split; [done|by eexists].
  - destruct Hno. apply (get_able n); [done| |apply within_bound].
    apply (stuttering_reachable n st own j within_stuttering within_bound).
Qed.
End within.

(** ** Delivery *)

(** A scheduler that is fair to getNewBlocks and run of a socket and to its connection
    [c], within the process. *)
Record fair_service (v i c : nat) (wtr : nat → world) (wlab : nat → world_label) : Prop := {
  fs_get : weakly (λ k, state_of v i (wtr k)) (λ k, own_label v i (wtr k) (wlab k))
    (λ _, of_get) (λ s, ¬ able of_get s);
  fs_run : weakly (λ k, state_of v i (wtr k)) (λ k, own_label v i (wtr k) (wlab k))
    (λ _ l, l = LRun) (λ s, ¬ able (λ l, l = LRun) s);
  fs_new : strongly (λ k, state_of v i (wtr k)) (λ k, own_label v i (wtr k) (wlab k))
    (λ _ l, ∃ order, l = LNew order) (λ s, ¬ able (λ l, ∃ order, l = LNew order) s);
  fs_conn : weakly (λ k, state_of v i (wtr k)) (λ k, own_label v i (wtr k) (wlab k))
    (λ _, of_conn c) (λ s, ¬ able (of_conn c) s);
  fs_select : strongly (λ k, state_of v i (wtr k)) (λ k, own_label v i (wtr k) (wlab k))
    (picks c) (λ s, ¬ can_pick c s);
}.

Section delivery.
Context (o : os) (t : list SocketConfig) (wtr : nat → world) (wlab : nat → world_label).
Context (Hex : world_execution (RunTestimony o t) wtr wlab) (Hb : ∀ k, world_bound (wtr k)).
Context (v i c : nat) (Hfair : fair_service v i c wtr wlab).
Context (x0 : served) (Hx0 : get_socket (wtr 0%nat) v i = Some x0).
Context (Hn : (0 < ring_blocks (v_sock x0))%nat).

Lemma world_filled_written (b : nat) (cn : conn) :
  filled (v_state x0) b → s_conns (v_state x0) !! c = Some cn →
  ∃ k x cn', get_socket (wtr k) v i = Some x ∧ v_sock x = v_sock x0 ∧
    s_conns (v_state x) !! c = Some cn' ∧
    (¬ serving cn' ∨ ∃ more, has_written cn' (l_sent (c_log cn) ++ more) ∧ b ∈ more).
Proof.
  intros Hf Hc. set (st := λ k, state_of v i (wtr k)).
  set (own := λ k, own_label v i (wtr k) (wlab k)).
  pose proof (within_stuttering o t wtr wlab Hex v i x0 Hx0) as Hst.
  pose proof (λ k, within_moves o t wtr wlab Hex Hb v i x0 Hx0 k Hn (fs_get _ _ _ _ _ Hfair)) as Hinf.
  assert (tr st own Hinf 0 = v_state x0) as H0.
  { rewrite (tr_start _ _ _ Hst). unfold st, state_of. by rewrite Hx0. }
  destruct (filled_written (ring_blocks (v_sock x0)) (tr st own Hinf) (lab own Hinf) c Hn
    (unpaused _ _ _ Hst Hinf)) with (b := b) (cn := cn) as (j & cn' & Hc' & Hcase).
  - intros k. apply (within_bound o t wtr wlab Hex Hb v i x0 Hx0).
  - split.
    + exact (weakly_unpaused _ _ _ Hst Hinf _ _ (fs_get _ _ _ _ _ Hfair)).
    + exact (weakly_unpaused _ _ _ Hst Hinf _ _ (fs_run _ _ _ _ _ Hfair)).
    + exact (strongly_unpaused _ _ Hinf _ _ (fs_new _ _ _ _ _ Hfair)).
    + exact (weakly_unpaused _ _ _ Hst Hinf _ _ (fs_conn _ _ _ _ _ Hfair)).
    + exact (strongly_unpaused _ _ Hinf _ _ (fs_select _ _ _ _ _ Hfair)).
  - by rewrite H0.
  - by rewrite H0.
  - destruct (socket_at o t wtr wlab Hex v i x0 Hx0 (times own Hinf j)) as (x & Hx & Hs).
    exists (times own Hinf j), x, cn'. split_and!; try done.
    unfold tr, st, state_of in Hc'. by rewrite Hx in Hc'.
Qed.
End delivery.

(** C12: delivery, end to end: in every execution of the process that is fair to the
    goroutines of one socket and to one of its connections, whatever the other sockets,
    handshakes and clients do, a block the kernel has filled in the ring of that socket
    is in the end returned by [Conn.Block] in the client: the Go client that reads what
    the daemon wrote to this connection sets itself up with the descriptor of this
    socket and then gets a sequence of blocks in which, after all that were sent to it
    before, this block occurs; unless the connection leaves its serving loop first.  The
    block may be anywhere ahead of the cursor of getNewBlocks, provided the kernel has
    filled the blocks between the two as well, as it does in the order of the ring; each
    of them is held by nobody, and none is about to be reset by an unref that has
    already counted it down (the window of the race shown in SocketExcl, in which a
    filling can be lost). *)
Theorem daemon_delivers (o : os) (t : list SocketConfig) (wtr : nat → world)
    (wlab : nat → world_label) (v i c b : nat) (x : served) (cn : conn) (s0 : sock)
    (socks : list sock) (sys : sys) (install : Z → Z) (cb : nat) :
  world_execution (RunTestimony o t) wtr wlab → (∀ k, world_bound (wtr k)) →
  fair_service v i c wtr wlab →
  get_socket (wtr 0%nat) v i = Some x → filled (v_state x) b →
  s_conns (v_state x) !! c = Some cn →
  entry_socks (wtr 0%nat) v = Some (s0 :: socks) → good_service s0 socks →
  NumBlocks (sock_conf s0) <= 2 ^ 31 → (8 ≤ cb)%nat →
  - 2 ^ 31 <= install (sock_fd (v_sock x)) < 2 ^ 31 →
  sys_mmap sys (install (sock_fd (v_sock x)))
    (BlockSize (sock_conf s0) * NumBlocks (sock_conf s0)) = None →
  ∃ k x' cn', get_socket (wtr k) v i = Some x' ∧ s_conns (v_state x') !! c = Some cn' ∧
    (¬ serving cn' ∨
     ∃ lk tc bs, w_handlers (wtr k) !! c = Some (v, HandedOver lk i) ∧
       Init sys (Z.of_nat i) (Connect sys (inl (Link (k_out lk ++ l_wire (c_log cn'))
         (UnixRights [install (sock_fd (v_sock x))]) [] [] cb false))).1 = (tc, None) ∧
       t_fd tc = install (sock_fd (v_sock x)) ∧
       (read_blocks (length (l_got (c_log cn'))) tc).2 = inl bs ∧
       block_of tc (Z.of_nat b) ∈ drop (length (l_sent (c_log cn))) bs).
Proof.
  intros Hex Hb Hfair Hx Hf Hc He Hgood Hn31 Hcb Hfd Hmm. pose proof Hgood as [_ _ Gn _].
  assert ((sv_socks <$> (RunTestimony o t).1) !! v = Some (s0 :: socks)) as Hent
    by (apply (entry_started _ (wtr 0%nat)); [apply started_inv, Hex|done]).
  assert ((0 < ring_blocks (v_sock x))%nat) as Hn.
  { unfold ring_blocks. rewrite (started_conf o t _ v i x s0 socks (wx_start _ _ _ Hex) Hx He). lia. }
  destruct (world_filled_written o t wtr wlab Hex Hb v i c Hfair x Hx Hn b cn Hf Hc)
    as (k & x' & cn' & Hx' & Hs & Hc' & [?|(more & [Hpc [rest Hgot]] & Hin)]);
    [by exists k, x', cn'; auto|].
  pose proof (wx_reachable o t wtr wlab Hex Hb k) as Hw.
  destruct (entry_get _ v i x' Hx') as (socks' & He' & _).
  pose proof (entry_started _ _ _ _ (started_inv o t _ Hw) He') as Hent'.
  rewrite Hent in Hent'. injection Hent' as <-.
  exists k, x', cn'. split_and!; [done..|]. right. rewrite <- Hs in *.
  destruct (client_reads o t (wtr k) v i c x' cn' s0 socks sys install cb Hw Hx' Hc' He'
    Hgood Hn31 Hcb Hfd Hmm) as (lk & tc & tc' & rst & Hk & _ & Hinit & Hfd' & _ & _ & _ & Hread & _ & _ & Hsel).
  destruct (Hsel Hpc) as [Hwr _]. rewrite Hwr, take_ge in Hread by done.
  eexists lk, tc, _. split_and!; [done..|by rewrite Hread|].
  rewrite Hgot, <- app_assoc, !fmap_app.
  rewrite drop_app_length' by (by rewrite !length_fmap).
  apply elem_of_app. left. by do 2 apply list_elem_of_fmap_2.
Qed.

(** ** Admission *)

(** run of the socket could take the connection now. *)
Definition can_admit (c : nat) (w : world) : Prop := ∃ w', world_step (WHandOver c) w = WNext w'.

Definition shaking (c : nat) (w : world) : Prop :=
  ∃ v k, w_handlers w !! c = Some (v, Shaking k).

(** A scheduler that lets the handshake of [c] run, is fair to getNewBlocks and run of
    the socket, and whose select does not pass over a waiting connection forever. *)
Record fair_admission (v i c : nat) (wtr : nat → world) (wlab : nat → world_label) : Prop := {
  fa_handle k : ∃ j, (k ≤ j)%nat ∧ (wlab j = WHandle c ∨ ¬ shaking c (wtr j));
  fa_get : weakly (λ k, state_of v i (wtr k)) (λ k, own_label v i (wtr k) (wlab k))
    (λ _, of_get) (λ s, ¬ able of_get s);
  fa_run : weakly (λ k, state_of v i (wtr k)) (λ k, own_label v i (wtr k) (wlab k))
    (λ _ l, l = LRun) (λ s, ¬ able (λ l, l = LRun) s);
  fa_accept k : ∃ j, (k ≤ j)%nat ∧
    (wlab j = WHandOver c ∨ ∀ m, (j ≤ m)%nat → ¬ can_admit c (wtr m));
}.

(** Nobody but its own goroutine and the socket moves a handshake. *)
Lemma handler_waits (w w' : world) (l : world_label) (c : nat) (vh : nat * handler) :
  world_step l w = WNext w' → w_handlers w !! c = Some vh →
  w_handlers w' !! c = Some vh ∨ l = WHandle c ∨ l = WHandOver c.
Proof.
  intros Hs Hc.
  assert (∀ c' v' h, c' ≠ c → <[c' := (v', h)]> (w_handlers w) !! c = Some vh) as Hother
    by (intros; by rewrite lookup_insert_ne).
  destruct l as [|v' c' r|c'|c'|v' i' l]; simpl in Hs.
  - unfold start_step in Hs. destruct (w_todo w); [by destruct (w_end w)|]. injection Hs as <-. by left.
  - unfold accept_step in Hs. destruct (w_services w !! v'), r; try done.
    destruct (w_handlers w !! c') eqn:E; [done|]. destruct (fresh_link _); [|done]. injection Hs as <-.
    left. apply Hother. congruence.
  - destruct (decide (c' = c)) as [->|Hne]; [auto|]. left. unfold handle_step in Hs.
    destruct (w_handlers w !! c') as [[v' [| | |]]|]; try done.
    destruct (w_services w !! v'); [|done].
    destruct (handle _ _) as [? [|[]]]; simplify_eq; by apply Hother.
  - destruct (decide (c' = c)) as [->|Hne]; [auto|]. left. unfold handover_step in Hs.
    destruct (w_handlers w !! c') as [[v' [| | |]]|]; try done.
    destruct (socket_step v' i (LAccept c') w) as [|w1|] eqn:E; try done. injection Hs as <-.
    apply socket_step_inv in E as (? & ? & _ & _ & ->). by apply Hother.
  - left. destruct (is_accept l); [done|]. by apply socket_step_inv in Hs as (? & ? & _ & _ & ->).
Qed.

Section admission.
Context (o : os) (t : list SocketConfig) (wtr : nat → world) (wlab : nat → world_label).
Context (Hex : world_execution (RunTestimony o t) wtr wlab) (Hb : ∀ k, world_bound (wtr k)).

Local Notation winv k := (started_inv o t _ (wx_reachable o t wtr wlab Hex Hb k)).

(** The first step of [P], while a connection is where it is. *)
Lemma handler_until (c : nat) (vh : nat * handler) (k j : nat) :
  (k ≤ j)%nat → w_handlers (wtr k) !! c = Some vh →
  (∃ m, (k ≤ m)%nat ∧ w_handlers (wtr m) !! c = Some vh ∧ (wlab m = WHandle c ∨ wlab m = WHandOver c)) ∨
  w_handlers (wtr j) !! c = Some vh.
Proof.
  intros Hle Hc. induction Hle as [|j Hle [IH|IH]]; [by right|by left|].
  destruct (handler_waits _ _ _ c vh (wx_step _ _ _ Hex j) IH) as [?|Hl]; [by right|].
  left. by exists j.
Qed.

(** handle runs. *)
Lemma handle_runs (c v k : nat) (lk lk' : link) (socks : list sock) (s : sock) :
  (∀ k, ∃ j, (k ≤ j)%nat ∧ (wlab j = WHandle c ∨ ¬ shaking c (wtr j))) →
  w_handlers (wtr k) !! c = Some (v, Shaking lk) →
  entry_socks (wtr k) v = Some socks → handle socks lk = (lk', inl s) →
  ∃ j, (k ≤ j)%nat ∧ w_handlers (wtr j) !! c = Some (v, HandingOver lk' (Z.to_nat (sock_num s))).
Proof.
  intros Hfair Hc He Hh.
  assert (∃ m, (k ≤ m)%nat ∧ w_handlers (wtr m) !! c = Some (v, Shaking lk) ∧
    (wlab m = WHandle c ∨ wlab m = WHandOver c)) as (m & Hm & Hcm & Hl).
  { destruct (Hfair k) as (j & Hj & Hcase). destruct (handler_until c _ k j Hj Hc) as [?|Hcj]; [done|].
    destruct Hcase as [Hl|Hno]; [by exists j; auto|]. destruct Hno. by exists v, lk. }
  exists (S m). split; [lia|]. pose proof (wx_step _ _ _ Hex m) as Hs.
  destruct Hl as [Hl|Hl]; rewrite Hl in Hs; simpl in Hs; unfold handle_step, handover_step in Hs;
    rewrite Hcm in Hs; [|done].
  destruct (w_services (wtr m) !! v) as [svs|] eqn:Hv; [|done].
  assert (v_sock <$> svs = socks) as E.
  { apply (entry_started _ _ _ _ (winv k)) in He.
    assert (entry_socks (wtr m) v = Some (v_sock <$> svs)) as He'
      by (unfold entry_socks, all_socks; by rewrite list_lookup_fmap, Hv).
    apply (entry_started _ _ _ _ (winv m)) in He'. congruence. }
  rewrite E, Hh in Hs. injection Hs as <-. apply lookup_insert_eq.
Qed.

(** run comes back to its select again and again. *)
Lemma socket_selects (v i k : nat) (x0 : served) :
  get_socket (wtr 0%nat) v i = Some x0 → (0 < ring_blocks (v_sock x0))%nat →
  weakly (λ k, state_of v i (wtr k)) (λ k, own_label v i (wtr k) (wlab k))
    (λ _, of_get) (λ s, ¬ able of_get s) →
  weakly (λ k, state_of v i (wtr k)) (λ k, own_label v i (wtr k) (wlab k))
    (λ _ l, l = LRun) (λ s, ¬ able (λ l, l = LRun) s) →
  ∃ j x, (k ≤ j)%nat ∧ get_socket (wtr j) v i = Some x ∧ s_run (v_state x) = RSelect.
Proof.
  intros Hx0 Hn Hget Hrun. set (st := λ k, state_of v i (wtr k)).
  set (own := λ k, own_label v i (wtr k) (wlab k)).
  pose proof (within_stuttering o t wtr wlab Hex v i x0 Hx0) as Hst.
  pose proof (λ k, within_moves o t wtr wlab Hex Hb v i x0 Hx0 k Hn Hget) as Hinf.
  destruct (run_selects (ring_blocks (v_sock x0)) (tr st own Hinf) (lab own Hinf) Hn
    (unpaused _ _ _ Hst Hinf)) with (r := run_rank (s_run (tr st own Hinf k))) (k := k)
    as (j & Hj & Hsel); [| |done|].
  - intros m. apply (within_bound o t wtr wlab Hex Hb v i x0 Hx0).
  - exact (weakly_unpaused _ _ _ Hst Hinf _ _ Hrun).
  - destruct (socket_at o t wtr wlab Hex v i x0 Hx0 (times own Hinf j)) as (x & Hx & _).
    exists (times own Hinf j), x. split_and!; [|done|].
    + etransitivity; [exact Hj|]. apply times_ge.
    + unfold tr, st, state_of in Hsel. by rewrite Hx in Hsel.
Qed.

(** The hand-over, once it comes. *)
Lemma handed_over (c v i m : nat) (lk : link) :
  w_handlers (wtr m) !! c = Some (v, HandingOver lk i) → wlab m = WHandle c ∨ wlab m = WHandOver c →
  ∃ x, get_socket (wtr (S m)) v i = Some x ∧
    w_handlers (wtr (S m)) !! c = Some (v, HandedOver lk i) ∧
    s_conns (v_state x) !! c = Some (addNewConn (length (s_blocks (v_state x)))).
Proof.
  intros Hc Hl. pose proof (wx_step _ _ _ Hex m) as Hs.
  destruct Hl as [Hl|Hl]; rewrite Hl in Hs; simpl in Hs; unfold handle_step, handover_step in Hs;
    rewrite Hc in Hs; [done|].
  destruct (socket_step v i (LAccept c) (wtr m)) as [|w1|] eqn:E; try done. injection Hs as <-.
  apply socket_step_inv in E as (x & st & Hx & Hst & ->).
  exists (Served (v_sock x) st). split_and!; [by apply get_socket_set_eq|apply lookup_insert_eq|].
  simpl in Hst. unfold run_accept in Hst. destruct (s_run (v_state x)); try done.
  destruct (s_conns (v_state x) !! c); [done|]. injection Hst as <-. simpl. apply lookup_insert_eq.
Qed.

Lemma handover_comes (c v i k : nat) (lk : link) (x0 : served) :
  get_socket (wtr 0%nat) v i = Some x0 → (0 < ring_blocks (v_sock x0))%nat →
  fair_admission v i c wtr wlab → w_handlers (wtr k) !! c = Some (v, HandingOver lk i) →
  ∃ m, (k ≤ m)%nat ∧ w_handlers (wtr m) !! c = Some (v, HandingOver lk i) ∧
    (wlab m = WHandle c ∨ wlab m = WHandOver c).
Proof.
  intros Hx0 Hn [_ Hget Hrun Hacc] Hc. destruct (Hacc k) as (j & Hj & Hcase).
  destruct (handler_until c _ k j Hj Hc) as [?|Hcj]; [done|].
  destruct Hcase as [Hl|Hnever]; [by exists j; auto|].
  destruct (socket_selects v i j x0 Hx0 Hn Hget Hrun) as (m & x & Hm & Hx & Hsel).
  destruct (handler_until c _ k m ltac:(lia) Hc) as [?|Hcm]; [done|].
  destruct (Hnever m Hm). eexists. simpl. unfold handover_step, socket_step. rewrite Hcm, Hx. simpl.
  unfold run_accept. rewrite Hsel.
  assert (s_conns (v_state x) !! c = None) as ->; [|done].
  apply not_elem_of_dom. intros [k' Hk']%(wi_conns _ _ (winv m) v i x c Hx). congruence.
Qed.
End admission.

(** C13: admission: in every execution of the process that is fair to a handshake and to
    getNewBlocks and run of the socket the client asks for, a client whose request names
    a socket of its entry is taken in: at some time its connection is with exactly this
    socket, freshly set up, and it was sent this socket's descriptor; whatever other
    clients ask for and however busy the socket is. *)
Theorem client_admitted (o : os) (t : list SocketConfig) (wtr : nat → world)
    (wlab : nat → world_label) (v i c : nat) (lk : link) (rest : list byte) (socks : list sock)
    (s : sock) :
  world_execution (RunTestimony o t) wtr wlab → (∀ k, world_bound (wtr k)) →
  w_handlers (wtr 0%nat) !! c = Some (v, Shaking lk) →
  entry_socks (wtr 0%nat) v = Some socks → socks !! i = Some s → 0 < NumBlocks (sock_conf s) →
  k_in lk = index_msg (Z.of_nat i) ++ rest → Z.of_nat i < 2 ^ 32 →
  (length (greeting socks) < k_budget lk)%nat →
  fair_admission v i c wtr wlab →
  ∃ k lk' x, w_handlers (wtr k) !! c = Some (v, HandedOver lk' i) ∧
    k_out lk' = greeting socks ++ [byte_of 0] ∧ k_ctl lk' = [UnixRights [sock_fd s]] ∧
    get_socket (wtr k) v i = Some x ∧ v_sock x = s ∧
    s_conns (v_state x) !! c = Some (addNewConn (ring_blocks s)).
Proof.
  intros Hex Hb Hc He Hs Hpos Hin Hi Hbud Hfair.
  destruct (get_entry _ v i socks s He Hs) as (x0 & Hx0 & Hx0s).
  pose proof (started_inv o t _ (wx_start _ _ _ Hex)) as HI.
  pose proof (entry_numbered _ (RunTestimony_numbered o t) _ v i socks s HI He Hs) as Hnum.
  assert (∃ lk', handle socks lk = (lk', inl s)) as [lk' Hh].
  { eexists. apply handle_accepts. exists (Z.of_nat i), rest. split_and!; [done|lia|done| |done|reflexivity].
    by rewrite Nat2Z.id. }
  destruct (handle_runs o t wtr wlab Hex Hb c v 0 lk lk' socks s (fa_handle _ _ _ _ _ Hfair) Hc He Hh)
    as (k & _ & Hk). rewrite Hnum, Nat2Z.id in Hk.
  destruct (handover_comes o t wtr wlab Hex Hb c v i k lk' x0 Hx0
    ltac:(unfold ring_blocks; rewrite Hx0s; lia) Hfair Hk) as (m & _ & Hm & Hl).
  destruct (handed_over o t wtr wlab Hex c v i m lk' Hm Hl) as (x & Hx & Hho & Hcn).
  destruct (socket_at o t wtr wlab Hex v i x0 Hx0 (S m)) as (x' & Hx' & Hxs).
  rewrite Hx in Hx'. injection Hx' as <-. rewrite Hx0s in Hxs.
  pose proof (started_inv o t _ (wx_reachable o t wtr wlab Hex Hb (S m))) as HI'.
  destruct (wi_handlers _ _ HI' _ _ _ Hho) as (socks' & s' & He' & Hs' & Hout & Hctl & _).
  apply (entry_started _ _ _ _ HI') in He'. apply (entry_started _ _ _ _ HI) in He.
  rewrite He in He'. injection He' as <-. rewrite Hs in Hs'. injection Hs' as <-.
  exists (S m), lk', x. split_and!; [done..|]. rewrite Hcn. do 2 f_equal.
  pose proof (wi_reach _ _ HI' v i x Hx) as Hr. rewrite Hxs in Hr.
  assert (Inv (v_state x)) as HS by (eapply reachable_inv, Hr; unfold ring_blocks; lia).
  by rewrite (i_len _ HS), (reachable_nb _ _ Hr).
Qed.

(** ** Executions in which one socket works

    An execution of one socket, within a process that is otherwise at rest. *)
Section alone.
Context (r : list service * option fatal) (w : world) (v i : nat) (x : served).
Context (Hw : world_reachable r w) (Hwb : world_bound w) (Hx : get_socket w v i = Some x).
Context (n : nat) (tr : nat → state) (lab : nat → label).
Context (Hex : execution n tr lab) (H0 : tr 0%nat = v_state x) (Hno : ∀ k, is_accept (lab k) = false).

Definition alone (k : nat) : world := set_socket v i (tr k) w.
Definition alone_label (k : nat) : world_label := WSocket v i (lab k).

Lemma alone_socket (k : nat) : get_socket (alone k) v i = Some (Served (v_sock x) (tr k)).
Proof. by apply get_socket_set_eq. Qed.

Lemma set_socket_twice (st st' : state) :
  set_socket v i st' (set_socket v i st w) = set_socket v i st' w.
Proof.
  unfold set_socket. simpl. f_equal. rewrite list_alter_alter_eq. apply list_alter_ext; [|done].
  intros svs _. simpl. by rewrite list_alter_alter_eq.
Qed.

Lemma alone_start : alone 0 = w.
Proof.
  unfold alone, set_socket. rewrite H0. unfold get_socket in Hx. destruct w as [todo e svss hs].
  simpl in *. f_equal. rewrite <- (list_alter_id id svss v) at 2 by done.
  apply list_alter_ext; [|done]. intros svs Hv. rewrite Hv in Hx. simpl in Hx.
  rewrite <- (list_alter_id id svs i) at 2 by done. apply list_alter_ext; [|done].
  intros y Hy. rewrite Hy in Hx. injection Hx as ->. by destruct x.
Qed.

Lemma alone_execution : world_execution r alone alone_label.
Proof.
  split; [by rewrite alone_start|]. intros k. simpl. rewrite Hno. unfold socket_step.
  rewrite alone_socket. simpl. rewrite (ex_step _ _ _ Hex k). unfold alone. by rewrite set_socket_twice.
Qed.

Lemma alone_bound (k : nat) : world_bound (alone k).
Proof.
  apply (set_socket_bound w v i x _ Hx); [|done]. rewrite <- H0.
  induction k as [|k IH]; [done|]. etransitivity; [|exact IH].
  apply (step_open _ _ (lab k)); [apply Hex|]. intros c E. specialize (Hno k). by rewrite E in Hno.
Qed.

Lemma alone_state (k : nat) : state_of v i (alone k) = tr k.
Proof. unfold state_of. by rewrite alone_socket. Qed.

Lemma alone_own (k : nat) : own_label v i (alone k) (alone_label k) = Some (lab k).
Proof. simpl. by rewrite bool_decide_true. Qed.

(** It is as fair as the execution of the socket is. *)
Lemma alone_weakly (P : label → Prop) :
  weak_fair tr lab P →
  weakly (λ k, state_of v i (alone k)) (λ k, own_label v i (alone k) (alone_label k))
    (λ _, P) (λ s, ¬ able P s).
Proof.
  intros HP k. destruct (HP k) as (j & Hj & Hcase). exists j. split; [done|].
  rewrite alone_state. destruct Hcase; [left|by right]. exists (lab j). by rewrite alone_own.
Qed.

Lemma alone_strongly (A : state → label → Prop) (B : state → Prop) :
  (∀ k, ∃ j, (k ≤ j)%nat ∧ (A (tr j) (lab j) ∨ ∀ i, (j ≤ i)%nat → B (tr i))) →
  strongly (λ k, state_of v i (alone k)) (λ k, own_label v i (alone k) (alone_label k)) A B.
Proof.
  intros HA k. destruct (HA k) as (j & Hj & Hcase). exists j. split; [done|].
  destruct Hcase as [Ha|Hb]; [left|right; intros m Hm; rewrite alone_state; auto].
  exists (lab j). by rewrite alone_own, alone_state.
Qed.

Lemma alone_fair (c : nat) : fair_delivery c tr lab → fair_service v i c alone alone_label.
Proof.
  intros [? ? Hnew ? Hsel].
  split; [by apply alone_weakly..|by apply alone_strongly|by apply alone_weakly|by apply alone_strongly].
Qed.
End alone.

(** One entry with one socket and a ring of two blocks; client 7 is with it, and the
    kernel has filled block 0. *)
Definition small_config : list SocketConfig :=
  [MkConfig "a" "eth0" 4096 2 1000 0 1 1 "" "" ""].
Definition small_labels : list world_label :=
  [WStart; WAccept 0 7 (inl (demo_link (index_msg 0))); WHandle 7; WHandOver 7;
   WSocket 0 0 (LKernel 0 1)].
Definition small_world : world :=
  default (boot (RunTestimony demo_os small_config))
    (run_world small_labels (boot (RunTestimony demo_os small_config))).
Definition small_sock : sock := Sock (MkConfig "a" "eth0" 4096 2 1000 0 1 1 "" "" "") 0 100.
Definition small_x : served := Served small_sock filled_start.
Definition small_tr : nat → state := follow (then_poll deliver_labels) filled_start.

Lemma small_reachable : world_reachable (RunTestimony demo_os small_config) small_world.
Proof.
  assert (world_bounded small_labels (boot (RunTestimony demo_os small_config)) = true) as Hb
    by (vm_compute; reflexivity).
  unfold small_world. destruct (run_world small_labels _) eqn:E; simpl; [|constructor].
  exact (run_world_reachable _ _ _ _ (wr_boot _) Hb E).
Qed.

Lemma small_bound : world_bound small_world.
Proof. by vm_compute. Qed.

Lemma small_socket : get_socket small_world 0 0 = Some small_x.
Proof. vm_compute. reflexivity. Qed.

Lemma small_rest :
  run_schedule deliver_labels filled_start = Some deliver_rest ∧
  s_g deliver_rest = GLoadR ∧ idle_cursor deliver_rest = true.
Proof. split_and!; vm_compute; reflexivity. Qed.

Lemma small_execution : execution 2 small_tr (then_poll deliver_labels).
Proof.
  destruct small_rest as (Hrun & Hg & Hidle).
  apply (follow_execution 2 _ _ deliver_rest); [apply demo_reachable; by vm_compute|done..].
Qed.

Lemma small_quiet (k : nat) : is_accept (then_poll deliver_labels k) = false.
Proof.
  unfold then_poll. destruct (deliver_labels !! k) as [l|] eqn:E; [|done].
  assert (Forall (λ l, is_accept l = false) deliver_labels) as H by (repeat constructor).
  rewrite Forall_lookup in H. by apply (H k).
Qed.

Lemma daemon_delivers_witness :
  let wtr := alone small_world 0 0 small_tr in
  ∃ k x' cn', get_socket (wtr k) 0 0 = Some x' ∧ s_conns (v_state x') !! 7%nat = Some cn' ∧
    (¬ serving cn' ∨
     ∃ tc bs, t_fd tc = 4 ∧ (read_blocks (length (l_got (c_log cn'))) tc).2 = inl bs ∧
       block_of tc 0 ∈ bs).
Proof.
  destruct small_rest as (Hrun & Hg & Hidle).
  assert (option_map (l_sent ∘ c_log) (s_conns filled_start !! 7%nat) = Some []) as Hsent
    by (vm_compute; reflexivity).
  destruct (s_conns filled_start !! 7%nat) as [cn|] eqn:E; [|done]. injection Hsent as Hsent.
  destruct (daemon_delivers demo_os small_config (alone small_world 0 0 small_tr)
    (alone_label 0 0 (then_poll deliver_labels)) 0 0 7 0 small_x cn small_sock [] demo_sys (λ fd, fd - 96) 100)
    as (k & x' & cn' & Hx & Hc & Hd).
  - exact (alone_execution _ _ 0 0 small_x small_reachable small_bound small_socket 2 _ _
      small_execution eq_refl small_quiet).
  - exact (alone_bound _ 0 0 small_x small_bound small_socket 2 _ _ small_execution eq_refl small_quiet).
  - apply (alone_fair small_world 0 0 small_x small_socket). by apply deliver_fair.
  - unfold alone. rewrite (get_socket_set_eq 0 0 _ _ _ small_socket). reflexivity.
  - apply filled_start_filled.
  - exact E.
  - by vm_compute.
  - split; vm_compute; try split; congruence.
  - vm_compute. congruence.
  - lia.
  - vm_compute. split; congruence.
  - reflexivity.
  - exists k, x', cn'. split_and!; [exact Hx|exact Hc|]. rewrite Hsent in Hd.
    destruct Hd as [|(lk & tc & bs & _ & _ & Hfd & Hr & Hin)]; [by left|].
    right. exists tc, bs. split_and!; [exact Hfd|exact Hr|]. by rewrite drop_0 in Hin.
Defined.

(** Client 7 has been accepted; its handshake runs, run of the socket takes it in, and
    then getNewBlocks polls. *)
Definition small_after (m : nat) : world :=
  default small_world (run_world (take m small_labels) (boot (RunTestimony demo_os small_config))).
Definition taken_in : state := demo_state (take 1 demo_deliver).
Definition polls : nat → state := follow (then_poll []) taken_in.

Definition admit_tr (k : nat) : world :=
  match k with
  | O => small_after 2
  | S O => small_after 3
  | S (S k) => alone (small_after 4) 0 0 polls k
  end.
Definition admit_lab (k : nat) : world_label :=
  match k with
  | O => WHandle 7
  | S O => WHandOver 7
  | S (S k) => alone_label 0 0 (then_poll []) k
  end.

Lemma small_after_reachable (m : nat) :
  world_bounded (take m small_labels) (boot (RunTestimony demo_os small_config)) = true →
  world_reachable (RunTestimony demo_os small_config) (small_after m).
Proof.
  intros Hb. unfold small_after. destruct (run_world (take m small_labels) _) eqn:E; simpl.
  - exact (run_world_reachable _ _ _ _ (wr_boot _) Hb E).
  - apply small_reachable.
Qed.

Lemma admit_socket : get_socket (small_after 4) 0 0 = Some (Served small_sock taken_in).
Proof. vm_compute. reflexivity. Qed.

Lemma admit_bound4 : world_bound (small_after 4).
Proof. by vm_compute. Qed.

Lemma polls_execution : execution 2 polls (then_poll []).
Proof. apply (follow_execution 2 _ _ taken_in); [apply demo_reachable|..]; by vm_compute. Qed.

Lemma admit_execution : world_execution (RunTestimony demo_os small_config) admit_tr admit_lab.
Proof.
  pose proof admit_bound4 as Hb.
  assert (world_reachable (RunTestimony demo_os small_config) (small_after 4)) as Hr
    by (apply small_after_reachable; vm_compute; reflexivity).
  pose proof (alone_execution _ _ 0 0 _ Hr Hb admit_socket 2 _ _ polls_execution eq_refl
    (λ k, eq_refl)) as Hex.
  split; [apply small_after_reachable; vm_compute; reflexivity|].
  intros [|[|k]]; [vm_compute; reflexivity| |apply Hex].
  simpl admit_tr. rewrite (alone_start _ _ 0 0 _ Hr Hb admit_socket polls eq_refl). vm_compute. reflexivity.
Qed.

Lemma admit_bound (k : nat) : world_bound (admit_tr k).
Proof.
  destruct k as [|[|k]]; [by vm_compute..|].
  exact (alone_bound _ 0 0 _ admit_bound4 admit_socket 2 _ _ polls_execution eq_refl (λ k, eq_refl) k).
Qed.

Lemma admit_handler (k : nat) :
  ∃ lk, w_handlers (admit_tr (S (S k))) !! 7%nat = Some (0%nat, HandedOver lk 0).
Proof. simpl. vm_compute. by eexists. Qed.

Lemma admit_fair : fair_admission 0 0 7 admit_tr admit_lab.
Proof.
  split.
  - intros k. exists (S (S k)). split; [lia|]. right. intros (v & lk & Hlk).
    destruct (admit_handler k) as [lk' Hk]. congruence.
  - intros k. exists (S (S k)). split; [lia|]. left. exists (LG 0). split; [reflexivity|by eexists].
  - intros k. exists (S (S k)). split; [lia|]. right. simpl admit_tr.
    rewrite (alone_state (small_after 4) 0 0 _ admit_socket).
    destruct (follow_rest taken_in [] taken_in eq_refl ltac:(by vm_compute) ltac:(by vm_compute) k)
      as (g & _ & Hg). simpl in Hg. unfold polls. rewrite Hg. intros (l & s' & -> & Hs).
    by vm_compute in Hs.
  - intros k. exists (S (S k)). split; [lia|]. right. intros m Hm [w' Hw'].
    destruct m as [|[|m]]; [lia..|]. destruct (admit_handler m) as [lk Hk].
    change (handover_step 7 (admit_tr (S (S m))) = WNext w') in Hw'. unfold handover_step in Hw'.
    by rewrite Hk in Hw'.
Qed.

Lemma client_admitted_witness :
  ∃ k lk x, w_handlers (admit_tr k) !! 7%nat = Some (0%nat, HandedOver lk 0) ∧
    k_ctl lk = [UnixRights [100]] ∧ get_socket (admit_tr k) 0 0 = Some x ∧
    s_conns (v_state x) !! 7%nat = Some (addNewConn 2).
Proof.
  destruct (client_admitted demo_os small_config admit_tr admit_lab 0 0 7
    (demo_link (index_msg 0)) [] [small_sock] small_sock) as (k & lk & x & Hk & _ & Hctl & Hx & _ & Hc).
  - exact admit_execution.
  - exact admit_bound.
  - vm_compute. reflexivity.
  - vm_compute. reflexivity.
  - reflexivity.
  - reflexivity.
  - reflexivity.
  - lia.
  - vm_compute. lia.
  - exact admit_fair.
  - exists k, lk, x. split_and!; [exact Hk|exact Hctl|exact Hx|exact Hc].
Defined.
