(* ===== verification/CClient.v ===== *)
(** * The C client library: c/testimony.c

    [testimony_connect], [testimony_init], [testimony_close], [testimony_get_block],
    [testimony_return_block] and [testimony_return_packets] with the buffered reading
    underneath.  A state is the struct behind the handle and what the process sees
    of the system: the results of the coming system calls, [errno], the bytes sent,
    and the resources held.  The library is modelled as it is built with GCC's
    atomic builtins, on a platform with a 32-bit [int] and a 64-bit [size_t].  A
    function that returns 0 gives [inl]; [return r] is [inr (Ret r)]. *)

From stdpp Require Import base list numbers option sets.
From Stdlib Require Import ZArith Lia.
From S2P Require Import Prelude Bytes Protocol Cmsg Link Client.

(** ** The process *)

(** What a call of recv(2) or recvmsg(2) finds: bytes, with the control data that
    came with the first of them, a failure, or nothing for good: the peer stays
    connected and silent, or signals interrupt every further call.  After the last
    one the peer has closed. *)
Inductive chunk := Arrives (b : byte) (bs oob : list byte) | Failure (e : Z) | Silent.

(** What a call of poll(2) answers; [PollNever]: this and every further call is
    interrupted. *)
Inductive poll_result := PollReady | PollTimeout | PollError (e : Z) | PollNever.

(** What the process holds and has to give back. *)
Inductive resource := Struct | Counts | Fd (fd : Z) | Ring (addr len : Z).

#[export] Instance resource_eq_dec : EqDecision resource.
Proof. solve_decision. Defined.

(** struct testimony_internal; a NULL [ring] is 0, and [buf] holds the bytes between
    [buf_start] and [buf_limit]. *)
Record testimony_internal := Testimony {
  fanout_size : Z;
  block_size : Z;
  block_nr : Z;
  fanout_index : Z;
  sock_fd : Z;
  afpacket_fd : Z;
  ring : Z;
  block_counts : option (list Z);
  buf : list byte;
}.

Record world := World {
  w_in : list chunk;
  w_send : list (nat + Z);      (* of coming sends: bytes taken beyond the first, or errno *)
  w_poll : list poll_result;    (* of coming polls; then the socket is readable *)
  w_out : list byte;
  w_errno : Z;
  w_held : list resource;
}.

Record proc := Proc { p_t : testimony_internal; p_w : world }.

(** How a function ends other than by returning 0. *)
Inductive stop :=
  | Ret (r : Z)
  | Crash                       (* a NULL pointer is followed *)
  | Waits                       (* it never returns: it waits in recv(2) or poll(2) *)
  | OutOfFuel.                  (* not an outcome of the code: see below *)

(** The result of the other system calls; [inr] and [Some] are errno values. *)
Record csys := CSys {
  c_malloc : bool;
  c_socket : Z + Z;
  c_bind : option Z;
  c_connect : list byte → option Z; (* path *)
  c_calloc : bool;
  c_mmap : Z → Z → Z + Z;       (* descriptor, length *)
  c_munmap : option Z;
  c_close : Z → option Z;
}.

Abbreviation cprog := (prog proc stop).

(** ** Assignments *)
Definition on_t (f : testimony_internal → testimony_internal) (p : proc) : proc :=
  Proc (f (p_t p)) (p_w p).
Definition on_w (f : world → world) (p : proc) : proc := Proc (p_t p) (f (p_w p)).

Definition set_sizes (fs bs nr : Z) (t : testimony_internal) : testimony_internal :=
  Testimony fs bs nr (fanout_index t) (sock_fd t) (afpacket_fd t) (ring t) (block_counts t) (buf t).
Definition set_fanout_index (i : Z) (t : testimony_internal) : testimony_internal :=
  Testimony (fanout_size t) (block_size t) (block_nr t) i (sock_fd t) (afpacket_fd t) (ring t)
    (block_counts t) (buf t).
Definition set_sock_fd (fd : Z) (t : testimony_internal) : testimony_internal :=
  Testimony (fanout_size t) (block_size t) (block_nr t) (fanout_index t) fd (afpacket_fd t) (ring t)
    (block_counts t) (buf t).
Definition set_afpacket_fd (fd : Z) (t : testimony_internal) : testimony_internal :=
  Testimony (fanout_size t) (block_size t) (block_nr t) (fanout_index t) (sock_fd t) fd (ring t)
    (block_counts t) (buf t).
Definition set_cring (r : Z) (t : testimony_internal) : testimony_internal :=
  Testimony (fanout_size t) (block_size t) (block_nr t) (fanout_index t) (sock_fd t) (afpacket_fd t) r
    (block_counts t) (buf t).
Definition set_counts (c : option (list Z)) (t : testimony_internal) : testimony_internal :=
  Testimony (fanout_size t) (block_size t) (block_nr t) (fanout_index t) (sock_fd t) (afpacket_fd t)
    (ring t) c (buf t).
Definition set_buf (b : list byte) (t : testimony_internal) : testimony_internal :=
  Testimony (fanout_size t) (block_size t) (block_nr t) (fanout_index t) (sock_fd t) (afpacket_fd t)
    (ring t) (block_counts t) b.

Definition set_w_in (cs : list chunk) (w : world) : world :=
  World cs (w_send w) (w_poll w) (w_out w) (w_errno w) (w_held w).
Definition set_w_send (l : list (nat + Z)) (w : world) : world :=
  World (w_in w) l (w_poll w) (w_out w) (w_errno w) (w_held w).
Definition set_w_poll (l : list poll_result) (w : world) : world :=
  World (w_in w) (w_send w) l (w_out w) (w_errno w) (w_held w).
Definition add_out (bs : list byte) (w : world) : world :=
  World (w_in w) (w_send w) (w_poll w) (w_out w ++ bs) (w_errno w) (w_held w).
Definition set_errno (e : Z) (w : world) : world :=
  World (w_in w) (w_send w) (w_poll w) (w_out w) e (w_held w).
Definition hold (r : resource) (w : world) : world :=
  World (w_in w) (w_send w) (w_poll w) (w_out w) (w_errno w) (r :: w_held w).
Definition release (r : resource) (w : world) : world :=
  World (w_in w) (w_send w) (w_poll w) (w_out w) (w_errno w) (filter (λ r', r' ≠ r) (w_held w)).

Definition errno (p : proc) : Z := w_errno (p_w p).

(** ** Errors *)
Definition EINTR : Z := 4.
Definition EIO : Z := 5.
Definition EBADF : Z := 9.
Definition ENOMEM : Z := 12.
Definition EPROTONOSUPPORT : Z := 93.
Definition ECANCELED : Z := 125.

(** [return -errno;] *)
Definition ret_errno {A} : cprog A := λ p, (p, inr (Ret (- errno p))).

(** [TERR_SET(e, ...); return -errno;] and a system call that failed with [e]. *)
Definition fail_with {A} (e : Z) : cprog A := modify (on_w (set_errno e));; ret_errno.

(** [r = m; if (r < 0) { TERR(...); return -errno; }] *)
Definition or_errno {A} (m : cprog A) : cprog A := λ p,
  match m p with (p, inr (Ret _)) => (p, inr (Ret (- errno p))) | r => r end.

(** What the caller sees. *)
Definition status {A} (r : A + stop) : option Z :=
  match r with inl _ => Some 0 | inr (Ret r) => Some r | inr _ => None end.

(** ** Reading *)
Definition TESTIMONY_BUF_SIZE : nat := 256.

(** What stays of a chunk; the control data went with the first byte. *)
Definition push_back (bs : list byte) (cs : list chunk) : list chunk :=
  match bs with [] => cs | b :: bs => Arrives b bs [] :: cs end.

(** The inner loop of [recv_t], [while (t->buf_start >= t->buf_limit)], on an empty
    buffer: the buffer, what is left to receive and [errno], and whether the
    function goes on.  One turn is one recv(2). *)
Fixpoint fill (cs : list chunk) (e : Z) : list byte * list chunk * Z * (unit + stop) :=
  match cs with
  | [] => ([], [], ECANCELED, inr (Ret (-1)))
  | Failure e' :: cs => if e' =? EINTR then fill cs EINTR else ([], cs, e', inr (Ret (-1)))
  | Arrives b bs _ :: cs =>
      (take TESTIMONY_BUF_SIZE (b :: bs), push_back (drop TESTIMONY_BUF_SIZE (b :: bs)) cs, e, inl tt)
  | Silent :: _ => ([], cs, e, inr Waits)
  end.

(** Buffer, coming chunks and errno replaced. *)
Definition at_in (b : list byte) (cs : list chunk) (e : Z) (p : proc) : proc :=
  Proc (set_buf b (p_t p)) (set_errno e (set_w_in cs (p_w p))).

Definition refill : cprog unit := λ p,
  match buf (p_t p) with
  | [] => let '(b, cs, e, r) := fill (w_in (p_w p)) (errno p) in (at_in b cs e p, r)
  | _ => (p, inl tt)
  end.

(** The outer loop of [recv_t]; a turn copies at least one byte, so [n] turns are
    enough. *)
Fixpoint recv_loop (fuel n : nat) : cprog (list byte) :=
  match n, fuel with
  | O, _ => mret []
  | _, O => exit OutOfFuel
  | _, S fuel =>
      refill;;
      reads (λ p,
        let to_copy := (n `min` length (buf (p_t p)))%nat in
        modify (on_t (set_buf (drop to_copy (buf (p_t p)))));;
        rest ← recv_loop fuel (n - to_copy);
        mret (take to_copy (buf (p_t p)) ++ rest))
  end.

(** [recv_t(t, out, s)]: the bytes stored at [out]. *)
Definition recv_t (s : nat) : cprog (list byte) := recv_loop s s.

Definition recv_be_32 : cprog Z := msg ← recv_t 4; mret (C.recv_be_32 msg).

(** [discard_bytes(t, n)] *)
Fixpoint discard_loop (fuel n : nat) : cprog unit :=
  match n, fuel with
  | O, _ => mret tt
  | _, O => exit OutOfFuel
  | _, S fuel =>
      let len := (if TESTIMONY_BUF_SIZE <? n then TESTIMONY_BUF_SIZE else n)%nat in
      recv_t len;; discard_loop fuel (n - len)
  end.

Definition discard_bytes (n : Z) : cprog unit := discard_loop (Z.to_nat n) (Z.to_nat n).

(** ** Sending *)

(** send(2) of a buffer that is not empty: how many bytes were taken. *)
Definition send (bs : list byte) : cprog nat := λ p,
  match w_send (p_w p) with
  | [] => (on_w (add_out bs) p, inl (length bs))
  | inl n :: l => (on_w (λ w, set_w_send l (add_out (take (S n) bs) w)) p,
                   inl (S n `min` length bs)%nat)
  | inr e :: l => (on_w (λ w, set_w_send l (set_errno e w)) p, inr (Ret (-1)))
  end.

(** The loop of [send_be_32]; a turn sends at least one byte. *)
Fixpoint send_loop (fuel : nat) (bs : list byte) : cprog unit :=
  match bs, fuel with
  | [], _ => mret tt
  | _, O => exit OutOfFuel
  | _, S fuel => r ← send bs; send_loop fuel (drop r bs)
  end.

Definition send_be_32 (x : Z) : cprog unit := send_loop 4 (C.set_be_32 (uint32 x)).

(** ** The library *)
Section library.
Context (os : csys).

(** close(2) *)
Definition sys_close_fd (fd : Z) : option Z := if fd <? 0 then Some EBADF else c_close os fd.

Definition testimony_close : cprog unit :=
  reads (λ p,
    let t := p_t p in
    if ring t =? 0 then mret tt
    else match c_munmap os with
         | Some e => fail_with e
         | None => modify (on_w (release (Ring (ring t) (uint64 (block_nr t * block_size t)))))
         end);;
  reads (λ p,
    match sys_close_fd (sock_fd (p_t p)) with
    | Some e => fail_with e
    | None => modify (on_w (release (Fd (sock_fd (p_t p)))))
    end);;
  modify (on_w (release Counts));;
  modify (on_w (release Struct)).

(** *** Connecting *)

(** The switch of the greeting loop. *)
Definition switch_size (typ v : Z) (t : testimony_internal) : testimony_internal :=
  if typ =? TypeFanoutSize then set_sizes (int32 v) (block_size t) (block_nr t) t
  else if typ =? TypeBlockSize then set_sizes (fanout_size t) v (block_nr t) t
  else if typ =? TypeNumBlocks then set_sizes (fanout_size t) (block_size t) v t
  else t.

(** [while (1)]; a turn takes at least four bytes. *)
Fixpoint greeting_loop (fuel : nat) : cprog unit :=
  match fuel with
  | O => exit OutOfFuel
  | S fuel =>
      msg ← recv_be_32;
      let proto_typ := C.protocol_type msg in
      let proto_len := C.protocol_length msg in
      if (proto_typ =? TypeWaitingForFanoutIndex) && (proto_len =? 0) then mret tt
      else if proto_len =? 4 then
        v ← recv_be_32;
        modify (on_t (switch_size proto_typ v));; greeting_loop fuel
      else discard_bytes proto_len;; greeting_loop fuel
  end.

(** The bytes that arrive before the peer closes or falls silent or a call fails for
    good. *)
Fixpoint arriving (cs : list chunk) : list byte :=
  match cs with
  | [] => []
  | Failure e :: cs => if e =? EINTR then arriving cs else []
  | Arrives b bs _ :: cs => b :: bs ++ arriving cs
  | Silent :: _ => []
  end.

(** Those and the buffered ones. *)
Definition avail (p : proc) : list byte := buf (p_t p) ++ arriving (w_in (p_w p)).

Definition TESTIMONY_VERSION : Z := 2.

(** [saddr.sun_path]: all but the last byte of its 108. *)
Definition sun_path (socket_name : list byte) : list byte := take 107 socket_name.

(** The body up to [*tp = t]; a failure is [goto fail]. *)
Definition connect_body (socket_name : list byte) : cprog unit :=
  match c_socket os with
  | inr e => modify (on_t (set_sock_fd (-1)));; fail_with e
  | inl fd => modify (on_t (set_sock_fd fd));; modify (on_w (hold (Fd fd)))
  end;;
  match c_bind os with Some e => fail_with e | None => mret tt end;;
  match c_connect os (sun_path socket_name) with Some e => fail_with e | None => mret tt end;;
  version ← recv_t 1;
  (if bool_decide (version = [byte_of TESTIMONY_VERSION]) then mret tt
   else fail_with EPROTONOSUPPORT);;
  reads (λ p, greeting_loop (S (length (avail p))));;
  reads (λ p,
    let t := p_t p in
    if (fanout_size t =? 0) || (block_size t =? 0) || (block_nr t =? 0)
    then fail_with EINVAL else mret tt).

Definition zero_testimony : testimony_internal := Testimony 0 0 0 0 0 0 0 None [].

(** [testimony_connect(&t, socket_name)]; [fail:] closes and returns what [errno]
    was. *)
Definition testimony_connect (socket_name : list byte) (w : world) :
    proc * (unit + stop) :=
  if c_malloc os then
    match connect_body socket_name (Proc zero_testimony (hold Struct w)) with
    | (p, inr (Ret _)) => ((testimony_close p).1, inr (Ret (- errno p)))
    | r => r
    end
  else (Proc zero_testimony w, inr (Ret (- ENOMEM))).

(** *** Initiating *)

(** Control data in a buffer of [CMSG_SPACE(sizeof(int))] zeroed bytes. *)
Definition ctrl_size : nat := 24.
Definition ctrl_buf (oob : list byte) : list byte :=
  let ctl := take ctrl_size oob in ctl ++ replicate (ctrl_size - length ctl) Byte.x00.

Definition cmsg_alignZ (n : Z) : Z := (n + 7) / 8 * 8.

(** A field of the header at [off]. *)
Definition hdr_field (b : list byte) (off pos : Z) (n : nat) : Z :=
  get_le (take n (drop (Z.to_nat (off + pos)) b)).

(** The loop over [CMSG_FIRSTHDR] and [CMSG_NXTHDR]: a header needs 16 bytes, so the
    length of the control data bounds the turns. *)
Fixpoint find_rights (fuel : nat) (b : list byte) (controllen off : Z) : option Z :=
  match fuel with
  | O => None
  | S fuel =>
      if (hdr_field b off 8 4 =? SOL_SOCKET) && (hdr_field b off 12 4 =? SCM_RIGHTS)
      then Some (int32 (hdr_field b off 16 4))
      else
        let len := hdr_field b off 0 8 in
        let next := off + cmsg_alignZ len in
        if (len <? 16) || (controllen <? next + 16) ||
           (controllen <? next + cmsg_alignZ (hdr_field b next 0 8)) then None
        else find_rights fuel b controllen next
  end.

(** [recv_file_descriptor(socket)]: one recvmsg(2) of one byte, past the buffer of
    [recv_t].  A closed connection leaves [errno] as it was. *)
Definition recv_file_descriptor : cprog Z := λ p,
  match w_in (p_w p) with
  | [] => (p, inl (-1))
  | Failure e :: cs => (on_w (λ w, set_errno e (set_w_in cs w)) p, inl (-1))
  | Silent :: _ => (p, inr Waits)
  | Arrives _ bs oob :: cs =>
      let p := on_w (set_w_in (push_back bs cs)) p in
      let n := length (take ctrl_size oob) in
      match (if (n <? cmsg_header)%nat then None
             else find_rights n (ctrl_buf oob) (Z.of_nat n) 0) with
      | Some fd => (on_w (hold (Fd fd)) p, inl fd)
      | None => (on_w (set_errno EIO) p, inl (-1))
      end
  end.

Definition index_word : Z := uint32 (Z.shiftl TypeFanoutIndex 16 + 4).

(** The descriptor, the counters and the mapping: [testimony_init] after its sends. *)
Definition receive_ring : cprog unit :=
  fd ← recv_file_descriptor;
  modify (on_t (set_afpacket_fd fd));;
  (if fd <? 0 then ret_errno else mret tt);;
  reads (λ p,
    if c_calloc os then
      modify (on_t (set_counts (Some (replicate (Z.to_nat (block_nr (p_t p))) 0))));;
      modify (on_w (hold Counts))
    else modify (on_t (set_counts None));; modify (on_w (set_errno ENOMEM)));;
  reads (λ p,
    let len := uint64 (block_size (p_t p) * block_nr (p_t p)) in
    match c_mmap os fd len with
    | inr e => modify (on_t (set_cring 0));; fail_with e
    | inl addr => modify (on_t (set_cring addr));; modify (on_w (hold (Ring addr len)))
    end).

Definition testimony_init : cprog unit :=
  reads (λ p, if ring (p_t p) =? 0 then mret tt else fail_with EINVAL);;
  or_errno (send (C.set_be_32 index_word));;
  reads (λ p, or_errno (send (C.set_be_32 (uint32 (fanout_index (p_t p))))));;
  receive_ring.
End library.

(** *** Blocks *)
Section blocks.

(** The [num_pkts] field of the block descriptor at an address of the shared ring. *)
Context (num_pkts : Z → Z).

(** An atomic read-modify-write of a counter: the old value. *)
Definition sync_count (i : Z) (f : Z → Z) : cprog Z := λ p,
  match block_counts (p_t p) with
  | None => (p, inr Crash)
  | Some cs =>
      match cs !! Z.to_nat i with
      | None => (p, inr Crash)
      | Some old => (on_t (set_counts (Some (<[Z.to_nat i := f old]> cs))) p, inl old)
      end
  end.

(** The loop of [testimony_get_block]: the index, or None at a timeout.  A turn takes
    a result of poll(2) or four bytes. *)
Fixpoint get_loop (fuel : nat) (timeout_millis : Z) : cprog (option Z) :=
  match fuel with
  | O => exit OutOfFuel
  | S fuel =>
      let receive : cprog (option Z) :=
        blockidx ← or_errno recv_be_32;
        if C.protocol_type blockidx =? TypeBlockIndex then mret (Some blockidx)
        else or_errno (discard_bytes (C.protocol_length blockidx));; get_loop fuel timeout_millis in
      reads (λ p,
        if (0 <=? timeout_millis) && bool_decide (buf (p_t p) = []) then
          match w_poll (p_w p) with
          | [] => receive
          | r :: l =>
              modify (on_w (set_w_poll l));;
              match r with
              | PollReady => receive
              | PollTimeout => mret None
              | PollError e =>
                  modify (on_w (set_errno e));;
                  if e =? EINTR then get_loop fuel timeout_millis else ret_errno
              | PollNever => exit Waits
              end
          end
        else receive)
  end.

Definition get_bound (p : proc) : nat := S (length (avail p) + length (w_poll (p_w p))).

(** [testimony_get_block(t, timeout_millis, &block)]: the address stored in [block],
    None for NULL. *)
Definition testimony_get_block (timeout_millis : Z) : cprog (option Z) :=
  reads (λ p, if (sock_fd (p_t p) =? 0) || (ring (p_t p) =? 0)
              then fail_with EINVAL else mret tt);;
  r ← reads (λ p, get_loop (get_bound p) timeout_millis);
  match r with
  | None => mret None
  | Some blockidx =>
      reads (λ p,
        let t := p_t p in
        (if block_nr t <=? blockidx then fail_with EIO else mret tt);;
        let block := ring t + block_size t * blockidx in
        old_count ← sync_count blockidx (λ c, if c =? 0 then num_pkts block else c);
        (if old_count =? 0 then mret tt else fail_with EIO);;
        mret (Some block))
  end.

Definition kInvalidBlockIndex : Z := 0xFFFFFFFF.

Definition testimony_block_index (t : testimony_internal) (block : Z) : Z :=
  let blockptr := uint64 (block - ring t) / block_size t in
  if block_nr t <=? blockptr then kInvalidBlockIndex else uint32 blockptr.

Definition testimony_return_block (block : Z) : cprog unit :=
  reads (λ p,
    let blockidx := testimony_block_index (p_t p) block in
    (if blockidx =? kInvalidBlockIndex then fail_with EINVAL else mret tt);;
    old_count ← sync_count blockidx (λ c, Z.land c 0);
    (if negb (old_count =? 0) && negb (old_count =? num_pkts block)
     then fail_with EINVAL else mret tt);;
    or_errno (send_be_32 blockidx)).

Definition testimony_return_packets (block packets : Z) : cprog unit :=
  reads (λ p,
    let blockidx := testimony_block_index (p_t p) block in
    (if blockidx =? kInvalidBlockIndex then fail_with EINVAL else mret tt);;
    count ← sync_count blockidx (λ c, uint32 (c - packets));
    if count =? packets then testimony_return_block block
    else if count <? packets then fail_with EINVAL
    else mret tt).
End blocks.

(** ** Buffered reading *)

(** The errno of the read after the last byte, if there is one. *)
Fixpoint ending (cs : list chunk) : option Z :=
  match cs with
  | [] => Some ECANCELED
  | Failure e :: cs => if e =? EINTR then ending cs else Some e
  | Arrives _ _ _ :: cs => ending cs
  | Silent :: _ => None
  end.

(** How a read ends that asks for more than comes: with the error at the end of the
    stream, or not at all. *)
Definition stopped (p p' : proc) (r : stop) : Prop :=
  match ending (w_in (p_w p)) with
  | Some e => r = Ret (-1) ∧ errno p' = e
  | None => r = Waits ∧ avail p' = []
  end.

(** No call will fail. *)
Definition calm (cs : list chunk) : Prop :=
  Forall (λ c, match c with Arrives _ _ _ => True | _ => False end) cs.

(** The stream ends the same way for both. *)
Definition same_end (cs cs' : list chunk) : Prop :=
  ending cs' = ending cs ∧ (calm cs → calm cs').

(** [p'] is [p] after [bs] was read: only the buffer, the coming chunks and errno
    differ. *)
Definition took (bs : list byte) (p p' : proc) : Prop :=
  ∃ b cs e, p' = at_in b cs e p ∧ avail p = bs ++ avail p' ∧ same_end (w_in (p_w p)) cs.

Lemma took_nil (p : proc) : took [] p p.
Proof. exists (buf (p_t p)), (w_in (p_w p)), (errno p). by destruct p as [[] []]. Qed.

Lemma took_trans (a b : list byte) (p p1 p2 : proc) :
  took a p p1 → took b p1 p2 → took (a ++ b) p p2.
Proof.
  intros (b1 & cs1 & e1 & -> & Ha & He) (b2 & cs2 & e2 & -> & Hb & He2).
  exists b2, cs2, e2. split; [done|]. split; [by rewrite Ha, Hb, <- app_assoc|].
  cbn [at_in p_w set_errno set_w_in w_in] in He2. destruct He, He2. split; [congruence|auto].
Qed.

Lemma took_avail (bs rest : list byte) (p p' : proc) :
  took bs p p' → avail p = bs ++ rest → avail p' = rest.
Proof. intros (b & cs & e & _ & H & _) H'. rewrite H in H'. by apply app_inv_head in H'. Qed.

Lemma arriving_push_back (bs : list byte) (cs : list chunk) :
  arriving (push_back bs cs) = bs ++ arriving cs ∧ ending (push_back bs cs) = ending cs ∧
  (calm cs → calm (push_back bs cs)).
Proof. destruct bs; cbn; split_and!; try done. intros H. by constructor. Qed.

Lemma fill_true (cs cs' : list chunk) (e e' : Z) (b : list byte) :
  fill cs e = (b, cs', e', inl tt) →
  b ≠ [] ∧ arriving cs = b ++ arriving cs' ∧ same_end cs cs'.
Proof.
  revert e. induction cs as [|[x bs oob|e0|] cs IH]; intros e H; simpl in H; [done| | |done].
  - injection H as <- <- <-. split; [done|].
    destruct (arriving_push_back (drop 255 bs) cs) as (Ha & He & Hc).
    split; [cbn [arriving app]; by rewrite Ha, app_assoc, take_drop|].
    split; [exact He|]. intros [_ H]%Forall_cons_iff. by apply Hc.
  - cbn [arriving]. destruct (Z.eqb_spec e0 EINTR) as [->|]; [|done].
    destruct (IH EINTR H) as (? & ? & He & Hc). split_and!; [done..|].
    split; [exact He|]. by intros [[] _]%Forall_cons_iff.
Qed.

Lemma fill_false (cs cs' : list chunk) (e e' : Z) (b : list byte) (r : stop) :
  fill cs e = (b, cs', e', inr r) →
  b = [] ∧ arriving cs = [] ∧
  match ending cs with Some e0 => r = Ret (-1) ∧ e' = e0 | None => r = Waits ∧ arriving cs' = [] end.
Proof.
  revert e. induction cs as [|[x bs oob|e0|] cs IH]; intros e H; simpl in H.
  - by injection H as <- <- <- <-.
  - done.
  - cbn [arriving ending]. destruct (e0 =? EINTR); [by apply (IH EINTR)|].
    by injection H as <- <- <- <-.
  - by injection H as <- <- <- <-.
Qed.

(** One turn of the inner loop. *)
Lemma refill_spec (p : proc) :
  match avail p with
  | [] => ∃ cs e r, refill p = (at_in [] cs e p, inr r) ∧ stopped p (at_in [] cs e p) r
  | _ => ∃ p', refill p = (p', inl tt) ∧ took [] p p' ∧ buf (p_t p') ≠ []
  end.
Proof.
  unfold refill, avail. destruct (buf (p_t p)) as [|x bs] eqn:Hb; cbn [app].
  - destruct (fill (w_in (p_w p)) (errno p)) as [[[b cs] e] [[]|r]] eqn:E.
    + apply fill_true in E as (Hne & Ha & He). rewrite Ha.
      destruct b as [|y b]; [done|]. cbn [app]. eexists. split; [done|]. split; [|done].
      exists (y :: b), cs, e. split_and!; [done| |done].
      unfold avail. rewrite Hb. by rewrite Ha.
    + apply fill_false in E as (-> & -> & He). by exists cs, e, r.
  - exists p. split; [done|]. split; [apply took_nil|by rewrite Hb].
Qed.

Lemma recv_loop_ok (fuel n : nat) (p : proc) (bs rest : list byte) :
  (n ≤ fuel)%nat → avail p = bs ++ rest → length bs = n →
  ∃ p', recv_loop fuel n p = (p', inl bs) ∧ took bs p p'.
Proof.
  revert n p bs. induction fuel as [|fuel IH]; intros n p bs Hf Ha Hl.
  { destruct n as [|n]; [|lia]. apply nil_length_inv in Hl as ->. exists p.
    split; [done|apply took_nil]. }
  destruct n as [|n]; [apply nil_length_inv in Hl as ->; exists p; split; [done|apply took_nil]|].
  pose proof (refill_spec p) as Hr. rewrite Ha in Hr. destruct bs as [|x bs]; [done|].
  cbn [app] in Hr. destruct Hr as (p1 & Hr & Ht & Hne). cbn [recv_loop].
  rewrite (bind_inl _ _ _ _ _ Hr). unfold reads. set (k := (S n `min` length (buf (p_t p1)))%nat).
  rewrite (bind_inl _ _ _ (on_t (set_buf (drop k (buf (p_t p1)))) p1) tt) by done.
  assert (0 < k)%nat as Hk by (destruct (buf (p_t p1)); [done|simpl in k; lia]).
  set (a := take k (buf (p_t p1))). set (p2 := on_t _ p1).
  pose proof (took_avail _ _ _ _ Ht Ha) as Ha1.
  assert (took a p1 p2) as Ht2.
  { exists (drop k (buf (p_t p1))), (w_in (p_w p1)), (errno p1). split_and!; [|by unfold avail, a, p2;
      cbn [on_t p_t p_w set_buf buf]; rewrite app_assoc, take_drop|by split].
    unfold p2. by destruct p1 as [[] []]. }
  assert (a = take k (x :: bs)) as Hak.
  { unfold avail in Ha1. unfold a.
    rewrite <- (take_app_le (buf (p_t p1)) (arriving (w_in (p_w p1))) k) by lia.
    rewrite Ha1. apply take_app_le. rewrite Hl. lia. }
  assert (avail p2 = drop k (x :: bs) ++ rest) as Ha2.
  { apply (took_avail a _ p1 p2 Ht2). by rewrite Hak, app_assoc, take_drop. }
  destruct (IH (S n - k)%nat p2 (drop k (x :: bs))) as (p3 & H3 & Ht3);
    [lia|done|rewrite length_drop; lia|].
  rewrite (bind_inl _ _ _ _ _ H3). exists p3. split.
  - unfold mret, prog_ret. by rewrite Hak, take_drop.
  - rewrite <- (take_drop k (x :: bs)), <- Hak. change (a ++ drop k (x :: bs)) with
      ([] ++ a ++ drop k (x :: bs)). eauto using took_trans.
Qed.

Lemma recv_t_ok (p : proc) (bs rest : list byte) (n : nat) :
  avail p = bs ++ rest → length bs = n →
  ∃ p', recv_t n p = (p', inl bs) ∧ took bs p p'.
Proof. intros. by eapply recv_loop_ok. Qed.

Lemma recv_loop_short (fuel n : nat) (p : proc) :
  (n ≤ fuel)%nat → (length (avail p) < n)%nat →
  ∃ cs e r, recv_loop fuel n p = (at_in [] cs e p, inr r) ∧ stopped p (at_in [] cs e p) r.
Proof.
  revert n p. induction fuel as [|fuel IH]; intros n p Hf Hl; [lia|].
  destruct n as [|n]; [lia|]. cbn [recv_loop]. pose proof (refill_spec p) as Hr.
  destruct (avail p) as [|x bs] eqn:Ha.
  - destruct Hr as (cs & e & r & Hr & He). rewrite (bind_inr _ _ _ _ _ Hr). by exists cs, e, r.
  - destruct Hr as (p1 & Hr & Ht & Hne). rewrite (bind_inl _ _ _ _ _ Hr). unfold reads.
    assert (avail p1 = x :: bs) as Ha1 by exact (took_avail [] _ _ _ Ht Ha).
    destruct Ht as (b & cs & e & -> & _ & [He _]). set (p1 := at_in b cs e p) in *.
    set (k := (S n `min` length (buf (p_t p1)))%nat).
    rewrite (bind_inl _ _ _ (at_in (drop k (buf (p_t p1))) cs e p) tt) by done.
    assert (length (avail p1) = (length (buf (p_t p1)) + length (arriving cs))%nat) as Hlen
      by (unfold avail; by rewrite length_app).
    rewrite Ha1 in Hlen. assert (0 < length (buf (p_t p1)))%nat
      by (destruct (buf (p_t p1)); [done|simpl; lia]).
    destruct (IH (S n - k)%nat (at_in (drop k (buf (p_t p1))) cs e p)) as (cs' & e' & r & H' & Hr');
      [lia|unfold avail; cbn [at_in p_t p_w set_buf buf w_in set_w_in set_errno];
           rewrite length_app, length_drop; lia|].
    rewrite (bind_inr _ _ _ _ _ H'). exists cs', e', r. split; [done|].
    revert Hr'. unfold stopped. cbn [at_in p_w set_errno set_w_in w_in]. by rewrite He.
Qed.

(** Both outcomes of a read. *)
Lemma recv_t_spec (n : nat) (p : proc) :
  match read_full n (avail p) with
  | inl (bs, rest) => ∃ p', recv_t n p = (p', inl bs) ∧ took bs p p' ∧ avail p' = rest
  | inr _ => ∃ p' r, recv_t n p = (p', inr r) ∧ stopped p p' r
  end.
Proof.
  destruct (read_full n (avail p)) as [[bs rest]|e] eqn:E.
  - apply read_full_inl in E as [Ha Hl]. destruct (recv_t_ok p bs rest n Ha Hl) as (p' & H & Ht).
    exists p'. split_and!; [done..|]. by eapply took_avail.
  - unfold read_full in E. case_bool_decide; [done|].
    destruct (recv_loop_short n n p) as (cs & e' & r & H' & Hr); [done|lia|].
    unfold recv_t. rewrite H'. by eexists _, r.
Qed.

(** C22: the buffered reading of the C client is [io.ReadFull] on the stream: however the
    bytes are cut into chunks, however signals interrupt the calls and whatever
    the buffer holds, [recv_t] gives the next [n] bytes and leaves the others to
    the next call, and it fails exactly when fewer will come, with the errno of
    the call that failed or ECANCELED when the peer closed; it waits for ever exactly
    when fewer come and the stream stays open and silent; its loops end. *)
Theorem recv_t_is_ReadFull (n : nat) (p : proc) :
  match read_full n (avail p) with
  | inl (bs, rest) => ∃ p', recv_t n p = (p', inl bs) ∧ took bs p p' ∧ avail p' = rest
  | inr _ => ∃ p' r, recv_t n p = (p', inr r) ∧ stopped p p' r
  end.
Proof. apply recv_t_spec. Qed.

(** ** Reading words and messages *)
Lemma C_recv_Uint32 (bs : list byte) : length bs = 4%nat → C.recv_be_32 bs = Uint32 bs.
Proof.
  intros Hl. destruct bs as [|b0 [|b1 [|b2 [|b3 [|]]]]]; try done.
  by destruct (c_word_agrees b0 b1 b2 b3) as (_ & _ & -> & _).
Qed.

Lemma recv_be_32_ok (p : proc) (bs rest : list byte) :
  avail p = bs ++ rest → length bs = 4%nat →
  ∃ p', recv_be_32 p = (p', inl (Uint32 bs)) ∧ took bs p p'.
Proof.
  intros Ha Hl. destruct (recv_t_ok p bs rest 4 Ha Hl) as (p' & H & Ht). exists p'.
  unfold recv_be_32. rewrite (bind_inl _ _ _ _ _ H), C_recv_Uint32 by done. done.
Qed.

Lemma discard_loop_ok (fuel n : nat) (p : proc) (bs rest : list byte) :
  (n ≤ fuel)%nat → avail p = bs ++ rest → length bs = n →
  ∃ p', discard_loop fuel n p = (p', inl tt) ∧ took bs p p'.
Proof.
  revert n p bs. induction fuel as [|fuel IH]; intros n p bs Hf Ha Hl;
    (destruct n as [|n];
     [apply nil_length_inv in Hl as ->; exists p; split; [done|apply took_nil]|]); [lia|].
  cbn [discard_loop]. set (len := if (TESTIMONY_BUF_SIZE <? S n)%nat then _ else _).
  assert (0 < len ≤ S n)%nat as Hlen.
  { unfold len. destruct (Nat.ltb_spec TESTIMONY_BUF_SIZE (S n)); unfold TESTIMONY_BUF_SIZE in *; lia. }
  clearbody len. rewrite <- (take_drop len bs), <- app_assoc in Ha.
  destruct (recv_t_ok p (take len bs) _ len Ha) as (p1 & H1 & Ht1); [rewrite length_take; lia|].
  rewrite (bind_inl _ _ _ _ _ H1).
  destruct (IH (S n - len)%nat p1 (drop len bs)) as (p2 & H2 & Ht2);
    [lia|by eapply took_avail|rewrite length_drop; lia|].
  exists p2. split; [done|]. rewrite <- (take_drop len bs). eauto using took_trans.
Qed.

Lemma discard_bytes_ok (p : proc) (bs rest : list byte) :
  avail p = bs ++ rest →
  ∃ p', discard_bytes (Z.of_nat (length bs)) p = (p', inl tt) ∧ took bs p p'.
Proof. intros Ha. unfold discard_bytes. rewrite Nat2Z.id. by eapply discard_loop_ok. Qed.

(** ** The greeting *)

(** What a message tells the C client. *)
Definition c_learn (t : testimony_internal) (m : tlv) : testimony_internal :=
  if (length m.2 =? 4)%nat then switch_size m.1 (Uint32 m.2) t else t.

(** The messages the loop reads over: any type, any value. *)
Definition c_msg (m : tlv) : Prop := tlv_valid m ∧ m ≠ (TypeWaitingForFanoutIndex, []).

(** A change of the struct that has nothing to do with reading. *)
Definition apart (f : testimony_internal → testimony_internal) : Prop :=
  ∀ b t, f (set_buf b t) = set_buf b (f t) ∧ buf (f t) = buf t.

Lemma apart_c_learn (m : tlv) : apart (λ t, c_learn t m).
Proof. intros b t. unfold c_learn, switch_size. by repeat case_match. Qed.

Lemma took_apart (f : testimony_internal → testimony_internal) (bs : list byte) (p q : proc) :
  apart f → took bs (on_t f p) q → ∃ q', took bs p q' ∧ q = on_t f q'.
Proof.
  intros Hf (b & cs & e & -> & Ha & He). exists (at_in b cs e p). split.
  - exists b, cs, e. split_and!; [done| |done]. unfold avail in *.
    cbn [on_t at_in p_t p_w] in *. rewrite (proj2 (Hf [] (p_t p))) in Ha. exact Ha.
  - unfold on_t, at_in. cbn. by rewrite (proj1 (Hf b (p_t p))).
Qed.

(** The word of a message, as the C client reads it. *)
Lemma recv_word_ok (p : proc) (m : tlv) (rest : list byte) :
  tlv_valid m → avail p = tlv_bytes m ++ rest →
  ∃ p' x, recv_be_32 p = (p', inl x) ∧ took (put_uint32 x) p p' ∧ avail p' = m.2 ++ rest ∧
    C.protocol_type x = m.1 ∧ C.protocol_length x = Z.of_nat (length m.2) ∧
    tlv_bytes m = put_uint32 x ++ m.2.
Proof.
  intros Hm Ha. destruct (tlv_word m Hm) as [Hx HT]. unfold tlv_bytes in Ha.
  rewrite <- app_assoc in Ha. destruct (recv_be_32_ok p _ _ Ha eq_refl) as (p' & H & Ht).
  set (x := ToTL m.1 (Z.of_nat (length m.2))) in *.
  rewrite Uint32_put, uint32_small in H by lia. exists p', x. split_and!; [done..| | | |done].
  - by eapply took_avail.
  - destruct (c_word_TLFrom x) as [-> _]; [lia|]. by rewrite HT.
  - destruct (c_word_TLFrom x) as [_ ->]; [lia|]. by rewrite HT.
Qed.

Lemma greeting_loop_msg (fuel : nat) (p : proc) (m : tlv) (rest : list byte) :
  c_msg m → avail p = tlv_bytes m ++ rest →
  ∃ p', took (tlv_bytes m) p p' ∧
    greeting_loop (S fuel) p = greeting_loop fuel (on_t (λ t, c_learn t m) p').
Proof.
  intros [Hv Hne] Ha. destruct (recv_word_ok p m rest Hv Ha) as (p1 & x & H1 & Ht1 & Ha1 & Hty & Hle & Hb).
  cbn [greeting_loop]. rewrite (bind_inl _ _ _ _ _ H1), Hty, Hle.
  assert ((m.1 =? TypeWaitingForFanoutIndex) && (Z.of_nat (length m.2) =? 0) = false) as ->.
  { destruct m as [ty v]. simpl. destruct (Z.eqb_spec ty TypeWaitingForFanoutIndex) as [->|]; [|done].
    destruct v; [done|by rewrite (proj2 (Z.eqb_neq _ _)) by (simpl; lia)]. }
  unfold c_learn. destruct (Nat.eqb_spec (length m.2) 4) as [E4|N4].
  - rewrite E4. cbn [Z.eqb Z.of_nat]. destruct (recv_be_32_ok p1 m.2 rest Ha1 E4) as (p2 & H2 & Ht2).
    exists p2. split; [rewrite Hb; eauto using took_trans|].
    change (Z.of_nat 4 =? 4) with true. cbn iota. by rewrite (bind_inl _ _ _ _ _ H2).
  - rewrite (proj2 (Z.eqb_neq _ _)) by lia.
    destruct (discard_bytes_ok p1 m.2 rest Ha1) as (p2 & H2 & Ht2).
    exists p2. split; [rewrite Hb; eauto using took_trans|].
    rewrite (bind_inl _ _ _ _ _ H2). by destruct p2.
Qed.

Lemma greeting_loop_learns (ms : list tlv) (rest : list byte) (fuel : nat) (p : proc) :
  Forall c_msg ms → (length ms < fuel)%nat →
  avail p = encode_all ms ++ tlv_bytes (TypeWaitingForFanoutIndex, []) ++ rest →
  ∃ p', took (encode_all ms ++ tlv_bytes (TypeWaitingForFanoutIndex, [])) p p' ∧
    greeting_loop fuel p = (on_t (λ t, foldl c_learn t ms) p', inl tt).
Proof.
  revert fuel p. induction ms as [|m ms IH]; intros fuel p Hms Hf Ha;
    (destruct fuel as [|fuel]; [simpl in Hf; lia|]).
  - destruct (recv_word_ok p (TypeWaitingForFanoutIndex, []) rest)
      as (p1 & x & H1 & Ht1 & _ & Hty & Hle & Hb); [by vm_compute; (split; [left|])|done|].
    exists p1. cbn [encode_all mbind list_bind app]. rewrite Hb, app_nil_r. split; [done|].
    cbn [greeting_loop]. rewrite (bind_inl _ _ _ _ _ H1), Hty, Hle. by destruct p1.
  - apply Forall_cons_iff in Hms as [Hm Hms].
    change (encode_all (m :: ms)) with (tlv_bytes m ++ encode_all ms) in *.
    rewrite <- app_assoc in Ha |- *.
    destruct (greeting_loop_msg fuel p m _ Hm Ha) as (p1 & Ht1 & ->).
    destruct (IH fuel (on_t (λ t, c_learn t m) p1)) as (p2 & Ht2 & ->);
      [done|simpl in Hf; lia| |].
    { rewrite <- (took_avail _ _ _ _ Ht1 Ha). unfold avail. cbn [on_t p_t p_w].
      by rewrite (proj2 (apart_c_learn m [] (p_t p1))). }
    apply took_apart in Ht2 as (p3 & Ht3 & ->); [|apply apart_c_learn].
    exists p3. split; [eauto using took_trans|]. done.
Qed.

(** ** Connecting *)
Definition c_sized (t : testimony_internal) : Prop :=
  fanout_size t ≠ 0 ∧ block_size t ≠ 0 ∧ block_nr t ≠ 0.

#[export] Instance c_sized_dec t : Decision (c_sized t).
Proof. unfold c_sized. apply _. Defined.

Lemma c_sized_check (t : testimony_internal) :
  ((fanout_size t =? 0) || (block_size t =? 0) || (block_nr t =? 0))
  = negb (bool_decide (c_sized t)).
Proof.
  unfold c_sized. destruct (Z.eqb_spec (fanout_size t) 0), (Z.eqb_spec (block_size t) 0),
    (Z.eqb_spec (block_nr t) 0); simpl;
    (by rewrite bool_decide_false by tauto) || (by rewrite bool_decide_true by tauto).
Qed.

Lemma fail_with_eq {A} (e : Z) (p : proc) :
  (fail_with e : cprog A) p = (on_w (set_errno e) p, inr (Ret (- e))).
Proof. done. Qed.

Lemma foldl_c_learn_buf (ms : list tlv) : apart (λ t, foldl c_learn t ms).
Proof.
  induction ms as [|m ms IH]; intros b t; simpl; [done|].
  destruct (apart_c_learn m b t) as [-> Hb]. destruct (IH b (c_learn t m)) as [-> ->]. done.
Qed.

(** The system lets the client through to the server. *)
Record reaches (os : csys) (name : list byte) (fd : Z) : Prop := {
  r_malloc : c_malloc os = true;
  r_socket : c_socket os = inl fd;
  r_bind : c_bind os = None;
  r_connect : c_connect os (sun_path name) = None;
}.

(** The client after the greeting: the bytes [b] are buffered, [cs] is still to come. *)
Definition greeted (fd : Z) (ms : list tlv) (w : world) (b : list byte) (cs : list chunk) (e : Z) :
    proc :=
  Proc (set_buf b (foldl c_learn (set_sock_fd fd zero_testimony) ms))
       (set_errno e (set_w_in cs (hold (Fd fd) (hold Struct w)))).

Lemma connect_body_ok (os : csys) (name : list byte) (fd : Z) (ms : list tlv) (rest : list byte)
    (w : world) :
  reaches os name fd → Forall c_msg ms →
  arriving (w_in w) = byte_of TESTIMONY_VERSION :: encode_all ms ++
                        tlv_bytes (TypeWaitingForFanoutIndex, []) ++ rest →
  ∃ b cs e, let p := greeted fd ms w b cs e in
    avail p = rest ∧ same_end (w_in w) cs ∧
    connect_body os name (Proc zero_testimony (hold Struct w)) =
      if bool_decide (c_sized (p_t p)) then (p, inl tt)
      else (on_w (set_errno EINVAL) p, inr (Ret (- EINVAL))).
Proof.
  intros [Hm Hs Hb Hc] Hms Ha. set (p1 := Proc (set_sock_fd fd zero_testimony)
    (hold (Fd fd) (hold Struct w))).
  assert (avail p1 = [byte_of TESTIMONY_VERSION] ++ encode_all ms ++
            tlv_bytes (TypeWaitingForFanoutIndex, []) ++ rest) as Ha1 by exact Ha.
  destruct (recv_t_ok p1 _ _ 1 Ha1 eq_refl) as (p2 & H2 & Ht2).
  pose proof (took_avail _ _ _ _ Ht2 Ha1) as Ha2.
  destruct (greeting_loop_learns ms rest (S (length (avail p2))) p2 Hms) as (p3 & Ht3 & H3);
    [rewrite Ha2, length_app; pose proof (length_encode_all_ge ms); lia|done|].
  pose proof (took_avail _ rest _ _ (took_trans _ _ _ _ _ Ht2 Ht3)) as Ha3.
  rewrite <- !app_assoc in Ha3. specialize (Ha3 Ha1).
  destruct (took_trans _ _ _ _ _ Ht2 Ht3) as (b & cs & e & -> & _ & He). exists b, cs, e.
  assert (on_t (λ t, foldl c_learn t ms) (at_in b cs e p1) = greeted fd ms w b cs e) as Hg.
  { unfold greeted, on_t, at_in. cbn. f_equal.
    apply (foldl_c_learn_buf ms b (set_sock_fd fd zero_testimony)). }
  split; [exact Ha3|]. split; [exact He|]. rewrite Hg in H3. unfold connect_body. rewrite Hs, Hb, Hc.
  rewrite (bind_inl _ _ _ p1 tt) by done. rewrite (bind_inl _ _ _ p1 tt) by done.
  rewrite (bind_inl _ _ _ p1 tt) by done. rewrite (bind_inl _ _ _ _ _ H2).
  rewrite (bool_decide_true (_ = _)) by done. rewrite (bind_inl _ _ _ p2 tt) by done.
  rewrite (bind_inl _ _ _ (greeted fd ms w b cs e) tt) by exact H3. unfold reads.
  rewrite c_sized_check.
  by case_bool_decide; rewrite ?fail_with_eq.
Qed.

(** What the two clients learn from one message, and from all of them. *)
Definition same_sizes (t : Conn) (c : testimony_internal) : Prop :=
  fanout_size c = int32 (t_fanoutSize t) ∧ block_size c = t_blockSize t ∧
  block_nr c = t_numBlocks t.

Lemma same_sizes_learn (t : Conn) (c : testimony_internal) (m : tlv) :
  greeting_msg m → same_sizes t c → same_sizes (learn t m) (c_learn c m).
Proof.
  intros (_ & _ & H4) (Hf & Hb & Hn). unfold learn, c_learn, switch_size.
  assert (∀ ty, m.1 = ty → ty ∈ [TypeFanoutSize; TypeBlockSize; TypeNumBlocks] →
            (length m.2 =? 4)%nat = true) as H by (intros ty <- Hin; by rewrite (H4 Hin)).
  destruct (Z.eqb_spec m.1 TypeFanoutSize) as [E|];
    [by rewrite (H _ E) by set_solver|].
  destruct (Z.eqb_spec m.1 TypeBlockSize) as [E|];
    [by rewrite (H _ E) by set_solver|].
  destruct (Z.eqb_spec m.1 TypeNumBlocks) as [E|];
    [by rewrite (H _ E) by set_solver|].
  by case_match.
Qed.

Lemma same_sizes_foldl (ms : list tlv) (t : Conn) (c : testimony_internal) :
  Forall greeting_msg ms → same_sizes t c → same_sizes (foldl learn t ms) (foldl c_learn c ms).
Proof.
  intros Hms. revert t c. induction Hms as [|m ms Hm _ IH]; intros t c H; simpl; [done|].
  by apply IH, same_sizes_learn.
Qed.

Lemma learn_fresh (t : Conn) (m : tlv) : fresh t → fresh (learn t m).
Proof.
  unfold learn, fresh. pose proof (Uint32_range m.2). repeat case_match; simpl; tauto.
Qed.

Lemma foldl_learn_fresh (ms : list tlv) (t : Conn) : fresh t → fresh (foldl learn t ms).
Proof. revert t. induction ms as [|m ms IH]; intros t H; simpl; auto using learn_fresh. Qed.

(** Zero is the only size that both clients refuse. *)
Lemma sized_agrees (t : Conn) (c : testimony_internal) :
  fresh t → same_sizes t c → (sized t ↔ c_sized c).
Proof.
  intros (_ & _ & Hf & Hb & Hn) (Ef & Eb & En). unfold sized, c_sized. rewrite Ef, Eb, En.
  assert (int32 (t_fanoutSize t) = 0 ↔ t_fanoutSize t = 0) by mach. lia.
Qed.

Lemma greeting_c_msg (m : tlv) : greeting_msg m → c_msg m.
Proof.
  intros (Hs & Hw & _). split; [by apply server_msg_valid|]. intros ->. by apply Hw.
Qed.

(** The stream of a server that greets with the messages [ms]. *)
Definition greeting_bytes (ms : list tlv) (rest : list byte) : list byte :=
  byte_of TESTIMONY_VERSION :: encode_all ms ++ tlv_bytes (TypeWaitingForFanoutIndex, []) ++ rest.

Lemma testimony_connect_ok (os : csys) (name : list byte) (fd : Z) (ms : list tlv)
    (rest : list byte) (w : world) :
  reaches os name fd → Forall c_msg ms → arriving (w_in w) = greeting_bytes ms rest →
  c_sized (foldl c_learn (set_sock_fd fd zero_testimony) ms) →
  ∃ b cs e, testimony_connect os name w = (greeted fd ms w b cs e, inl tt) ∧
    avail (greeted fd ms w b cs e) = rest ∧ same_end (w_in w) cs.
Proof.
  intros Hr Hms Ha Hsz. destruct (connect_body_ok os name fd ms rest w Hr Hms Ha)
    as (b & cs & e & Hav & He & Hc).
  exists b, cs, e. split; [|split; [exact Hav|exact He]].
  unfold testimony_connect. by rewrite (r_malloc _ _ _ Hr), Hc, bool_decide_true.
Qed.

(** C24: the two clients read a greeting alike: on the same stream of a server that
    follows the protocol, however it is cut up on its way to the C client, both
    connect or both refuse because a size is missing; they have learnt the same
    sizes (the C client keeps the fanout size in an int), and both are left with
    the same bytes to read. *)
Theorem connect_agrees (os : csys) (gos : sys) (name : list byte) (fd : Z) (k : link)
    (ms : list tlv) (rest : list byte) (w : world) :
  reaches os name fd → Forall greeting_msg ms →
  arriving (w_in w) = greeting_bytes ms rest → k_in k = greeting_bytes ms rest →
  let '(t, ge) := Connect gos (inl k) in
  let '(p, ce) := testimony_connect os name w in
  if bool_decide (sized (foldl learn zero_conn ms))
  then ge = None ∧ ce = inl tt ∧ same_sizes t (p_t p) ∧
       k_in <$> t_c t = Some rest ∧ avail p = rest
  else ge = Some MissingSizes ∧ ce = inr (Ret (- EINVAL)).
Proof.
  intros Hr Hms Ha Hk. rewrite (Connect_eq gos k ms [] rest Hms) by done.
  assert (Forall c_msg ms) as Hc by (eapply Forall_impl; [done|]; apply greeting_c_msg).
  destruct (connect_body_ok os name fd ms rest w Hr Hc Ha) as (b & cs & e & Hav & _ & Hcb).
  set (p := greeted fd ms w b cs e) in *. unfold testimony_connect.
  rewrite (r_malloc _ _ _ Hr), Hcb.
  assert (same_sizes (foldl learn zero_conn ms) (p_t p)) as Hss
    by (apply (same_sizes_foldl ms _ (set_sock_fd fd zero_testimony)); done).
  pose proof (sized_agrees _ _ (foldl_learn_fresh ms _ zero_conn_fresh) Hss) as Hiff.
  destruct (decide (sized (foldl learn zero_conn ms))) as [Hs|Hs].
  - rewrite !bool_decide_true by (done || by apply Hiff). done.
  - rewrite !bool_decide_false by (done || by rewrite <- Hiff). done.
Qed.

(** ** Examples *)

(** A stream in pieces of two bytes, with an interrupted call before each. *)
Fixpoint cut (bs : list byte) : list chunk :=
  match bs with
  | a :: b :: bs => Failure EINTR :: Arrives a [b] [] :: cut bs
  | [a] => [Arrives a [] []]
  | [] => []
  end.

Definition demo_csys : csys :=
  CSys true (inl 3) None (λ _, None) true (λ _ _, inl 65536) None (λ _, None).

(** The greeting of Client, the descriptor, and what follows. *)
Definition demo_world (rest : list byte) : world :=
  World (cut (greeting_bytes demo_greeting []) ++
         Arrives Byte.x00 [] (UnixRights [7]) :: cut rest) [] [] [] 0 [].

Lemma demo_reaches : reaches demo_csys [] 3.
Proof. by split. Qed.

Lemma connect_agrees_witness :
  same_sizes (Connect demo_sys (inl (demo_server [Byte.x00]))).1
    (p_t (testimony_connect demo_csys [] (demo_world [])).1) ∧
  avail (testimony_connect demo_csys [] (demo_world [])).1 = [Byte.x00].
Proof.
  pose proof (connect_agrees demo_csys demo_sys [] 3 (demo_server [Byte.x00]) demo_greeting
    [Byte.x00] (demo_world []) demo_reaches) as H.
  destruct (Connect demo_sys (inl (demo_server [Byte.x00]))) as [t ge].
  destruct (testimony_connect demo_csys [] (demo_world [])) as [p ce].
  rewrite bool_decide_true in H by (vm_compute; split_and!; reflexivity).
  destruct H as (_ & _ & Hs & _ & Ha).
  - apply (bool_decide_unpack _). vm_compute. exact I.
  - vm_compute. reflexivity.
  - vm_compute. reflexivity.
  - split; [exact Hs|exact Ha].
Defined.
