(* ===== verification/CBlocks.v ===== *)
(** * The C client library: its blocks

    Properties of the operations of CClient: that their loops end, what
    [testimony_get_block], [testimony_return_block] and [testimony_return_packets] do
    on every branch, the address arithmetic of blocks, and the loop of a client that
    gets and returns blocks. *)

From stdpp Require Import base list numbers option sets.
From Stdlib Require Import ZArith Lia.
From S2P Require Import Prelude Bytes Protocol Cmsg Link Client CClient.

(** ** Termination *)

(** Two reasons to wait for ever: the stream stays open and silent, and all that came
    was read; or, where the function polls, poll(2) is interrupted every time, and
    nothing is buffered. *)
Definition waiting (polls : bool) (p p' : proc) : Prop :=
  (ending (w_in (p_w p)) = None ∧ avail p' = []) ∨
  (polls = true ∧ PollNever ∈ w_poll (p_w p) ∧ buf (p_t p') = []).

(** What is still to come in [p'] was to come in [p]. *)
Definition ahead (p p' : proc) : Prop :=
  ending (w_in (p_w p')) = ending (w_in (p_w p)) ∧ w_poll (p_w p') ⊆ w_poll (p_w p).

(** Not stopped by the bound of the model, and waiting only for these reasons. *)
Definition returns {A} (polls : bool) (m : cprog A) (p : proc) : Prop :=
  match m p with
  | (p', inl _) => ahead p p'
  | (p', inr Waits) => waiting polls p p'
  | (_, inr OutOfFuel) => False
  | _ => True
  end.

#[export] Instance ahead_preorder : PreOrder ahead.
Proof.
  split; [by intros p|]. intros p1 p2 p3 [H1 H2] [H3 H4]. split; [congruence|by etransitivity].
Qed.





Lemma or_errno_inl {A} (m : cprog A) (p p' : proc) (a : A) :
  or_errno m p = (p', inl a) ↔ m p = (p', inl a).
Proof. unfold or_errno. destruct (m p) as [? [|[]]]; naive_solver. Qed.

(** Steps that neither read nor poll. *)
Lemma returns_modify (pl : bool) (f : proc → proc) (p : proc) : ahead p (f p) → returns pl (modify f) p.
Proof. done. Qed.


Lemma returns_check {A} (pl : bool) (b : bool) (e : Z) (m : cprog A) (p : proc) :
  returns pl m p → returns pl (if b then fail_with e else m) p.
Proof. by destruct b. Qed.






Lemma took_poll (bs : list byte) (p p' : proc) : took bs p p' → w_poll (p_w p') = w_poll (p_w p).
Proof. by intros (b & cs & e & -> & _). Qed.









(** ** Addresses of blocks *)

(** A connection that [testimony_init] has set up: the ring is mapped somewhere in the
    address space, and there is a counter for every block. *)
Record c_ready (t : testimony_internal) (counts : list Z) : Prop := {
  cr_fd : sock_fd t ≠ 0;
  cr_size : 0 < block_size t < 2 ^ 32;
  cr_nr : 0 < block_nr t < 2 ^ 32;
  cr_ring : 0 < ring t;
  cr_space : ring t + block_size t * block_nr t <= 2 ^ 64;
  cr_counts : block_counts t = Some counts;
  cr_length : Z.of_nat (length counts) = block_nr t;
}.

(** Where block [i] starts. *)
Definition block_addr (t : testimony_internal) (i : Z) : Z := ring t + block_size t * i.

Lemma block_index_inside (t : testimony_internal) (counts : list Z) (i a : Z) :
  c_ready t counts → 0 <= i < block_nr t →
  block_addr t i <= a < block_addr t i + block_size t → testimony_block_index t a = i.
Proof.
  intros [_ Hs Hn Hr Hsp _ _] Hi Ha. unfold testimony_block_index, block_addr in *.
  assert (block_size t * i + block_size t <= block_size t * block_nr t) by nia.
  assert (uint64 (a - ring t) = a - ring t) as -> by (unfold uint64; apply Z.mod_small; lia).
  assert ((a - ring t) / block_size t = i) as ->.
  { symmetry. apply (Z.div_unique_pos _ _ i (a - ring t - block_size t * i)); lia. }
  rewrite (proj2 (Z.leb_gt _ _)) by lia. apply uint32_small. lia.
Qed.

Lemma block_index_outside (t : testimony_internal) (counts : list Z) (a : Z) :
  c_ready t counts → 0 <= a < 2 ^ 64 →
  a < ring t ∨ ring t + block_size t * block_nr t <= a →
  testimony_block_index t a = kInvalidBlockIndex.
Proof.
  intros [_ Hs Hn Hr Hsp _ _] Ha Ho. unfold testimony_block_index.
  assert (block_size t * block_nr t <= uint64 (a - ring t)) as Hle.
  { destruct Ho as [Hlt|Hge].
    - unfold uint64. rewrite <- (Z.mod_unique (a - ring t) (2 ^ 64) (-1) (a - ring t + 2 ^ 64)); lia.
    - unfold uint64. rewrite Z.mod_small; lia. }
  rewrite (proj2 (Z.leb_le _ _)); [done|]. apply Z.div_le_lower_bound; lia.
Qed.

(** C33: [testimony_block_index] finds the block a pointer lies in, exactly: for every
    address inside block [i] of the mapped ring it is [i], and every other address,
    below the ring (where the subtraction wraps around) or above it, is invalid. *)
Theorem block_index_exact (t : testimony_internal) (counts : list Z) (a i : Z) :
  c_ready t counts → 0 <= a < 2 ^ 64 → 0 <= i < block_nr t →
  (testimony_block_index t a = i ↔ block_addr t i <= a < block_addr t i + block_size t) ∧
  (testimony_block_index t a = kInvalidBlockIndex ↔
     a < ring t ∨ ring t + block_size t * block_nr t <= a).
Proof.
  intros Hc Ha Hi.
  pose proof (cr_nr _ _ Hc). pose proof (cr_size _ _ Hc).
  destruct (decide (a < ring t ∨ ring t + block_size t * block_nr t <= a)) as [Ho|Hin].
  - rewrite (block_index_outside t counts a Hc Ha Ho). unfold kInvalidBlockIndex, block_addr.
    split; [split; [lia|]|done]. intros Hb. nia.
  - set (j := (a - ring t) / block_size t).
    assert (block_addr t j <= a < block_addr t j + block_size t) as Hj.
    { unfold block_addr, j. pose proof (Z.div_mod (a - ring t) (block_size t)).
      pose proof (Z.mod_pos_bound (a - ring t) (block_size t)). lia. }
    assert (0 <= j < block_nr t) as Hjn.
    { unfold j. split; [apply Z.div_pos; lia|]. apply Z.div_lt_upper_bound; lia. }
    rewrite (block_index_inside t counts j a Hc Hjn Hj). unfold kInvalidBlockIndex.
    split; [|lia]. split; [by intros <-|]. unfold block_addr in *. intros Hb. nia.
Qed.

Lemma block_index_addr (t : testimony_internal) (counts : list Z) (i : Z) :
  c_ready t counts → 0 <= i < block_nr t → testimony_block_index t (block_addr t i) = i.
Proof.
  intros Hc Hi. eapply block_index_inside; [done..|]. pose proof (cr_size _ _ Hc). lia.
Qed.

(** ** Sending a word *)

(** What a send leaves alone. *)
Definition sends (bs : list byte) (p p' : proc) : Prop :=
  ∃ l e, p' = on_w (λ w, set_w_send l (set_errno e (add_out bs w))) p.

Lemma sends_app (a b : list byte) (l : list (nat + Z)) (p p' : proc) :
  sends b (on_w (λ w, set_w_send l (add_out a w)) p) p' → sends (a ++ b) p p'.
Proof.
  intros (l' & e & ->). exists l', e. unfold on_w, add_out, set_w_send, set_errno.
  destruct p as [t w]. cbn. by rewrite <- app_assoc.
Qed.

Lemma send_loop_spec (fuel : nat) (bs : list byte) (p : proc) :
  (length bs ≤ fuel)%nat →
  (∃ p', send_loop fuel bs p = (p', inl tt) ∧ sends bs p p') ∨
  (∃ p' k e, send_loop fuel bs p = (p', inr (Ret (-1))) ∧ sends (take k bs) p p' ∧
             inr e ∈ w_send (p_w p) ∧ errno p' = e).
Proof.
  revert bs p. induction fuel as [|fuel IH]; intros bs p Hl.
  { destruct bs; [|simpl in Hl; lia]. left. exists p. split; [done|].
    exists (w_send (p_w p)), (errno p). destruct p as [? []]. unfold on_w, add_out. simpl.
    by rewrite app_nil_r. }
  destruct bs as [|x bs].
  { left. exists p. split; [done|]. exists (w_send (p_w p)), (errno p).
    destruct p as [? []]. unfold on_w, add_out. simpl. by rewrite app_nil_r. }
  cbn [send_loop]. unfold mbind, prog_bind, send.
  destruct (w_send (p_w p)) as [|[n|e] l] eqn:Hs.
  - left. rewrite drop_ge by done. destruct fuel; (eexists; split; [done|]);
      exists [], (errno p); destruct p as [? []]; simpl in *; by subst.
  - set (r := (S n `min` length (x :: bs))%nat). set (q := on_w _ p).
    assert (drop r (x :: bs) = drop (S n) (x :: bs)) as ->.
    { unfold r. destruct (decide (S n ≤ length (x :: bs))%nat); [by rewrite Nat.min_l|].
      rewrite Nat.min_r, !drop_ge by lia. done. }
    assert (length (drop (S n) (x :: bs)) ≤ fuel)%nat as Hle by (rewrite length_drop; simpl in *; lia).
    destruct (IH (drop (S n) (x :: bs)) q Hle) as [(p' & -> & Hs')|(p' & k & e & -> & Hs' & Hin & He)].
    + left. eexists. split; [done|]. apply (sends_app (take (S n) (x :: bs)) _ l) in Hs'.
      by rewrite take_drop in Hs'.
    + right. eexists _, (S n + k)%nat, e. split; [done|]. split; [|split; [by right|done]].
      apply (sends_app (take (S n) (x :: bs)) _ l) in Hs'. by rewrite take_take_drop in Hs'.
  - right. eexists _, 0%nat, e. split; [done|]. split; [|split; [left|done]].
    exists l, e. destruct p as [? []]. unfold on_w, add_out. simpl. by rewrite app_nil_r.
Qed.

(** A word the C client sends goes out whole, however send(2) splits it, unless one
    of the calls fails; then a prefix went out and the error is reported. *)
Theorem send_be_32_whole (x : Z) (p : proc) :
  (∃ p', send_be_32 x p = (p', inl tt) ∧ sends (put_uint32 (uint32 x)) p p') ∨
  (∃ p' k e, send_be_32 x p = (p', inr (Ret (-1))) ∧ sends (take k (put_uint32 (uint32 x))) p p' ∧
             inr e ∈ w_send (p_w p) ∧ errno p' = e).
Proof. by apply (send_loop_spec 4 (put_uint32 (uint32 x))). Qed.

Lemma send_be_32_ok (x : Z) (p : proc) :
  w_send (p_w p) = [] → 0 <= x < 2 ^ 32 →
  send_be_32 x p = (on_w (add_out (put_uint32 x)) p, inl tt).
Proof. intros Hs Hx. unfold send_be_32. rewrite uint32_small by done.
  cbn [send_loop C.set_be_32]. unfold mbind, prog_bind, send. by rewrite Hs. Qed.

(** ** Getting a block *)

(** The poll before a read lets the client through. *)
Definition waits (timeout_millis : Z) (p : proc) : Prop :=
  timeout_millis < 0 ∨ w_poll (p_w p) = [].

Lemma get_loop_receive (fuel : nat) (timeout : Z) (p : proc) :
  waits timeout p →
  get_loop (S fuel) timeout p =
    (blockidx ← or_errno recv_be_32;
     if C.protocol_type blockidx =? TypeBlockIndex then mret (Some blockidx)
     else or_errno (discard_bytes (C.protocol_length blockidx));; get_loop fuel timeout) p.
Proof.
  intros Hw. cbn [get_loop]. unfold reads.
  destruct (Z.leb_spec 0 timeout); cbn [andb]; [|done].
  destruct Hw as [?|Hp]; [lia|]. rewrite Hp. by case_match.
Qed.

Lemma waits_took (bs : list byte) (timeout : Z) (p p' : proc) :
  took bs p p' → waits timeout p → waits timeout p'.
Proof. intros Ht [?|Hp]; [by left|right]. by rewrite (took_poll _ _ _ Ht). Qed.

Lemma get_loop_next (ms : list tlv) (idx : Z) (rest : list byte) (fuel : nat) (timeout : Z)
    (p : proc) :
  Forall tlv_valid ms → 0 <= idx < 2 ^ 31 → (length ms < fuel)%nat → waits timeout p →
  avail p = encode_all ms ++ put_uint32 idx ++ rest →
  ∃ p', get_loop fuel timeout p = (p', inl (Some idx)) ∧
        took (encode_all ms ++ put_uint32 idx) p p'.
Proof.
  revert fuel p. induction ms as [|m ms IH]; intros fuel p Hms Hi Hf Hw Ha;
    (destruct fuel as [|fuel]; [simpl in Hf; lia|]); rewrite get_loop_receive by done.
  - destruct (recv_be_32_ok p (put_uint32 idx) rest Ha eq_refl) as (p1 & H1 & Ht1).
    rewrite (bind_inl _ _ _ _ _ (proj2 (or_errno_inl _ _ _ _) H1)).
    rewrite Uint32_put, uint32_small by (pow2; lia).
    destruct (c_word_TLFrom idx) as [-> _]; [pow2; lia|]. rewrite TLFrom_index by done.
    by exists p1.
  - apply Forall_cons_iff in Hms as [Hm Hms].
    change (encode_all (m :: ms)) with (tlv_bytes m ++ encode_all ms) in *.
    rewrite <- !app_assoc in Ha |- *.
    destruct (recv_word_ok p m _ Hm Ha) as (p1 & x & H1 & Ht1 & Ha1 & Hty & Hle & Hb).
    rewrite (bind_inl _ _ _ _ _ (proj2 (or_errno_inl _ _ _ _) H1)), Hty, Hle.
    rewrite (proj2 (Z.eqb_neq _ _)).
    2: { pose proof (sendable_range _ (proj1 Hm)). unfold TypeBlockIndex. pow2. lia. }
    destruct (discard_bytes_ok p1 m.2 _ Ha1) as (p2 & H2 & Ht2).
    rewrite (bind_inl _ _ _ _ _ (proj2 (or_errno_inl _ _ _ _) H2)).
    assert (took (tlv_bytes m) p p2) as Ht by (rewrite Hb; eauto using took_trans).
    destruct (IH fuel p2) as (p3 & H3 & Ht3); [done|done|simpl in Hf; lia| | |].
    { by eapply waits_took. }
    { by eapply took_avail. }
    exists p3. split; [done|]. eauto using took_trans.
Qed.

Section get_and_return.
Context (num_pkts : Z → Z).

Lemma took_t (bs : list byte) (p p' : proc) :
  took bs p p' → p_t p' = set_buf (buf (p_t p')) (p_t p).
Proof. by intros (b & cs & e & -> & _). Qed.

Lemma c_ready_set_buf (t : testimony_internal) (b : list byte) (counts : list Z) :
  c_ready t counts → c_ready (set_buf b t) counts.
Proof. intros []. by split. Qed.

Lemma sync_count_ok (p : proc) (counts : list Z) (i old : Z) (f : Z → Z) :
  block_counts (p_t p) = Some counts → counts !! Z.to_nat i = Some old →
  sync_count i f p = (on_t (set_counts (Some (<[Z.to_nat i := f old]> counts))) p, inl old).
Proof. intros Hc Hi. unfold sync_count. by rewrite Hc, Hi. Qed.

(** Everything [testimony_get_block] does once the next index on the wire is known:
    the messages before it are skipped, it is checked against the ring and its
    counter has to be free. *)
Lemma get_block_next (p : proc) (counts : list Z) (ms : list tlv) (idx : Z) (rest : list byte)
    (timeout : Z) :
  c_ready (p_t p) counts → Forall tlv_valid ms → 0 <= idx < 2 ^ 31 → waits timeout p →
  avail p = encode_all ms ++ put_uint32 idx ++ rest →
  ∃ p', took (encode_all ms ++ put_uint32 idx) p p' ∧
    testimony_get_block num_pkts timeout p =
      let a := block_addr (p_t p) idx in
      match counts !! Z.to_nat idx with
      | None => (on_w (set_errno EIO) p', inr (Ret (- EIO)))
      | Some 0 => (on_t (set_counts (Some (<[Z.to_nat idx := num_pkts a]> counts))) p', inl (Some a))
      | Some _ => (on_w (set_errno EIO) p', inr (Ret (- EIO)))
      end.
Proof.
  intros Hc Hms Hi Hw Ha.
  destruct (get_loop_next ms idx rest (get_bound p) timeout p) as (p1 & H1 & Ht); [done|done| |done|done|].
  { unfold get_bound. rewrite Ha, length_app. pose proof (length_encode_all_ge ms). lia. }
  exists p1. split; [done|]. unfold testimony_get_block.
  rewrite (bind_inl _ _ _ p tt).
  2: { unfold reads. destruct Hc as [Hfd _ _ Hr _ _ _].
       by rewrite !(proj2 (Z.eqb_neq _ _)) by lia. }
  rewrite (bind_inl _ _ _ p1 (Some idx)) by exact H1. unfold reads.
  pose proof (took_t _ _ _ Ht) as Et. pose proof (c_ready_set_buf _ (buf (p_t p1)) _ Hc) as Hc1.
  rewrite <- Et in Hc1. destruct (counts !! Z.to_nat idx) as [old|] eqn:Ho.
  - apply lookup_lt_Some in Ho as Hlt. pose proof (cr_length _ _ Hc1).
    rewrite (proj2 (Z.leb_gt _ _)) by lia. rewrite (bind_inl _ _ _ p1 tt) by done.
    rewrite (bind_inl _ _ _ _ _ (sync_count_ok p1 counts idx old _ (cr_counts _ _ Hc1) Ho)).
    assert (ring (p_t p1) + block_size (p_t p1) * idx = block_addr (p_t p) idx) as -> by (by rewrite Et).
    destruct (Z.eqb_spec old 0) as [->|Hne].
    + done.
    + rewrite list_insert_id by done. assert (on_t (set_counts (Some counts)) p1 = p1) as ->.
      { pose proof (cr_counts _ _ Hc1). destruct p1 as [[] ?]. cbn in *. by subst. }
      rewrite (bind_inr _ _ _ _ _ (fail_with_eq EIO p1)). by destruct old.
  - apply lookup_ge_None in Ho. pose proof (cr_length _ _ Hc1).
    rewrite (proj2 (Z.leb_le _ _)) by lia. by rewrite (bind_inr _ _ _ _ _ (fail_with_eq EIO p1)).
Qed.

(** ** Returning a block *)
Definition with_count (i v : Z) (counts : list Z) (p : proc) : proc :=
  on_t (set_counts (Some (<[Z.to_nat i := v]> counts))) p.

Lemma return_block_eq (p : proc) (counts : list Z) (i a old : Z) :
  c_ready (p_t p) counts → counts !! Z.to_nat i = Some old → 0 <= i →
  block_addr (p_t p) i <= a < block_addr (p_t p) i + block_size (p_t p) →
  testimony_return_block num_pkts a p =
    if bool_decide (old = 0 ∨ old = num_pkts a)
    then or_errno (send_be_32 i) (with_count i 0 counts p)
    else (on_w (set_errno EINVAL) (with_count i 0 counts p), inr (Ret (- EINVAL))).
Proof.
  intros Hc Ho H0 Ha. apply lookup_lt_Some in Ho as Hlt. pose proof (cr_length _ _ Hc).
  pose proof (cr_nr _ _ Hc). unfold testimony_return_block, reads.
  rewrite (block_index_inside _ counts i) by (done || lia).
  rewrite (proj2 (Z.eqb_neq i _)) by (unfold kInvalidBlockIndex; lia).
  rewrite (bind_inl _ _ _ p tt) by done.
  rewrite (bind_inl _ _ _ _ _ (sync_count_ok p counts i old _ (cr_counts _ _ Hc) Ho)).
  rewrite Z.land_0_r. fold (with_count i 0 counts p).
  destruct (Z.eqb_spec old 0), (Z.eqb_spec old (num_pkts a)); cbn [andb negb];
    (rewrite bool_decide_true by tauto) || (rewrite bool_decide_false by tauto);
    [by rewrite (bind_inl _ _ _ (with_count i 0 counts p) tt)..|].
  by rewrite (bind_inr _ _ _ _ _ (fail_with_eq EINVAL _)).
Qed.

Lemma return_packets_eq (p : proc) (counts : list Z) (i a packets count : Z) :
  c_ready (p_t p) counts → counts !! Z.to_nat i = Some count → 0 <= i →
  block_addr (p_t p) i <= a < block_addr (p_t p) i + block_size (p_t p) →
  testimony_return_packets num_pkts a packets p =
    let p1 := with_count i (uint32 (count - packets)) counts p in
    if count =? packets then testimony_return_block num_pkts a p1
    else if count <? packets then (on_w (set_errno EINVAL) p1, inr (Ret (- EINVAL)))
    else (p1, inl tt).
Proof.
  intros Hc Ho H0 Ha. apply lookup_lt_Some in Ho as Hlt. pose proof (cr_length _ _ Hc).
  pose proof (cr_nr _ _ Hc). unfold testimony_return_packets, reads.
  rewrite (block_index_inside _ counts i) by (done || lia).
  rewrite (proj2 (Z.eqb_neq i _)) by (unfold kInvalidBlockIndex; lia).
  rewrite (bind_inl _ _ _ p tt) by done.
  rewrite (bind_inl _ _ _ _ _ (sync_count_ok p counts i count _ (cr_counts _ _ Hc) Ho)).
  fold (with_count i (uint32 (count - packets)) counts p).
  by case_match; [|case_match].
Qed.

Lemma c_ready_with_count (p : proc) (counts : list Z) (i v : Z) :
  c_ready (p_t p) counts →
  c_ready (p_t (with_count i v counts p)) (<[Z.to_nat i := v]> counts).
Proof. intros []. split; try done. by rewrite length_insert. Qed.

Lemma with_count_twice (p : proc) (counts : list Z) (i v v' : Z) :
  with_count i v' (<[Z.to_nat i := v]> counts) (with_count i v counts p) =
    with_count i v' counts p.
Proof. unfold with_count. by rewrite list_insert_insert_eq. Qed.

Lemma with_count_same (p : proc) (counts : list Z) (i v : Z) :
  block_counts (p_t p) = Some counts → counts !! Z.to_nat i = Some v →
  with_count i v counts p = p.
Proof.
  intros Hc Hi. unfold with_count. rewrite list_insert_id by done.
  destruct p as [[] ?]. cbn in *. by subst.
Qed.
End get_and_return.

(** What [testimony_return_packets] does with a block whose counter is [count], on
    every branch: a part of the packets lowers the counter and sends nothing; the
    last ones send the index back and leave the counter at zero; more than there
    are is an error, which wraps the counter around, and from then on
    [testimony_return_block] refuses the block too, once. *)
Theorem return_packets_spec (num_pkts : Z → Z) (p : proc) (counts : list Z) (i a packets count : Z) :
  c_ready (p_t p) counts → counts !! Z.to_nat i = Some count → 0 <= i →
  block_addr (p_t p) i <= a < block_addr (p_t p) i + block_size (p_t p) →
  0 <= count < 2 ^ 32 → 0 <= packets < 2 ^ 32 → w_send (p_w p) = [] →
  (packets < count →
     testimony_return_packets num_pkts a packets p =
       (with_count i (count - packets) counts p, inl tt)) ∧
  (packets = count →
     testimony_return_packets num_pkts a packets p =
       (on_w (add_out (put_uint32 i)) (with_count i 0 counts p), inl tt)) ∧
  (count < packets → ∃ p',
     testimony_return_packets num_pkts a packets p = (p', inr (Ret (- EINVAL))) ∧
     w_out (p_w p') = w_out (p_w p) ∧
     (num_pkts a ≠ count - packets + 2 ^ 32 →
        status (testimony_return_block num_pkts a p').2 = Some (- EINVAL))).
Proof.
  intros Hc Ho H0 Ha Hn Hp Hs. apply lookup_lt_Some in Ho as Hlt.
  pose proof (cr_length _ _ Hc). pose proof (cr_nr _ _ Hc).
  rewrite (return_packets_eq num_pkts p counts i a packets count) by done. cbn zeta.
  pose proof (c_ready_with_count p counts i (uint32 (count - packets)) Hc) as Hc1.
  pose proof (list_lookup_insert_eq counts (Z.to_nat i) (uint32 (count - packets)) Hlt) as Ho1.
  split_and!; intros Hcase.
  - rewrite (proj2 (Z.eqb_neq _ _)), (proj2 (Z.ltb_ge _ _)), uint32_small by lia. done.
  - subst. rewrite Z.eqb_refl, Z.sub_diag in *.
    rewrite (return_block_eq num_pkts _ _ i a 0 Hc1 Ho1), bool_decide_true by (done || by left).
    rewrite with_count_twice. unfold or_errno. by rewrite send_be_32_ok by (done || lia).
  - rewrite (proj2 (Z.eqb_neq _ _)), (proj2 (Z.ltb_lt _ _)) by lia.
    eexists. split; [done|]. split; [done|]. intros Hne.
    assert (uint32 (count - packets) = count - packets + 2 ^ 32) as E by mach.
    rewrite (return_block_eq num_pkts
      (on_w (set_errno EINVAL) (with_count i (uint32 (count - packets)) counts p)) _ i a _ Hc1 Ho1)
      by done.
    rewrite E in *. rewrite bool_decide_false by lia. done.
Qed.

(** ** The loop of a client *)

(** The usage that testimony.h shows: get a block, use it, return it.  [mem] is the
    shared memory as it is in each turn. *)
Fixpoint usage_loop (mem : list (Z → Z)) (timeout_millis : Z) : cprog (list Z) :=
  match mem with
  | [] => mret []
  | num_pkts :: mem =>
      block ← testimony_get_block num_pkts timeout_millis;
      match block with
      | None => usage_loop mem timeout_millis
      | Some a =>
          testimony_return_block num_pkts a;;
          l ← usage_loop mem timeout_millis; mret (a :: l)
      end
  end.

Lemma took_out (o bs : list byte) (p q : proc) :
  took bs (on_w (add_out o) p) q → ∃ q', took bs p q' ∧ q = on_w (add_out o) q'.
Proof.
  intros (b & cs & e & -> & Ha & He). exists (at_in b cs e p). split; [|done].
  by exists b, cs, e.
Qed.

(** One turn: the state differs in what was read and written. *)
Lemma usage_turn (num_pkts : Z → Z) (p : proc) (counts : list Z) (ms : list tlv) (idx : Z)
    (rest : list byte) (timeout : Z) :
  c_ready (p_t p) counts → Forall tlv_valid ms → 0 <= idx < 2 ^ 31 → waits timeout p →
  counts !! Z.to_nat idx = Some 0 → w_send (p_w p) = [] →
  avail p = encode_all ms ++ put_uint32 idx ++ rest →
  ∃ p1 q, let a := block_addr (p_t p) idx in took (encode_all ms ++ put_uint32 idx) p p1 ∧
    testimony_get_block num_pkts timeout p = (q, inl (Some a)) ∧
    testimony_return_block num_pkts a q = (on_w (add_out (put_uint32 idx)) p1, inl tt).
Proof.
  intros Hc Hms Hi Hw Ho Hs Ha. apply lookup_lt_Some in Ho as Hlt.
  destruct (get_block_next num_pkts p counts ms idx rest timeout Hc Hms Hi Hw Ha) as (p1 & Ht & Hg).
  rewrite Ho in Hg. cbn zeta in Hg. set (a := block_addr (p_t p) idx) in *.
  fold (with_count idx (num_pkts a) counts p1) in Hg.
  eexists p1, _. cbn zeta. split; [done|]. split; [exact Hg|].
  assert (p_t p1 = set_buf (buf (p_t p1)) (p_t p)) as Et by (by eapply took_t).
  assert (c_ready (p_t p1) counts) as Hc1 by (rewrite Et; by apply c_ready_set_buf).
  pose proof (cr_size _ _ Hc). pose proof (cr_length _ _ Hc). pose proof (cr_nr _ _ Hc).
  rewrite (return_block_eq num_pkts _ _ idx a (num_pkts a) (c_ready_with_count p1 counts idx _ Hc1)
    (list_lookup_insert_eq _ _ _ Hlt)); [|lia|].
  2: { change (block_addr (p_t p1) idx <= a < block_addr (p_t p1) idx + block_size (p_t p1)).
       assert (block_size (p_t p1) = block_size (p_t p)) as -> by (by rewrite Et).
       assert (block_addr (p_t p1) idx = a) as -> by (by rewrite Et). lia. }
  rewrite bool_decide_true, with_count_twice by (by right).
  rewrite (with_count_same p1 counts idx 0 (cr_counts _ _ Hc1) Ho). unfold or_errno.
  rewrite send_be_32_ok; [done| |lia]. by destruct Ht as (? & ? & ? & -> & _).
Qed.

Lemma usage_loop_items (items : list (list tlv * Z)) (mem : list (Z → Z)) (p : proc)
    (counts : list Z) (rest : list byte) (timeout : Z) :
  c_ready (p_t p) counts → Forall (λ c, c = 0) counts → waits timeout p → w_send (p_w p) = [] →
  Forall (λ it, Forall tlv_valid it.1 ∧ 0 <= it.2 < block_nr (p_t p) ∧ it.2 < 2 ^ 31) items →
  length mem = length items → avail p = (items ≫= item_bytes) ++ rest →
  ∃ p', took (items ≫= item_bytes) p p' ∧
    usage_loop mem timeout p =
      (on_w (add_out (items.*2 ≫= put_uint32)) p', inl (block_addr (p_t p) <$> items.*2)).
Proof.
  intros Hc Hz. revert mem p Hc. induction items as [|[ms idx] items IH];
    intros mem p Hc Hw Hs Hall Hl Ha; (destruct mem as [|num_pkts mem]; [|try done]); [|done|].
  { exists p. split; [apply took_nil|]. destruct p as [? []]. unfold on_w, add_out. cbn.
    by rewrite app_nil_r. }
  apply Forall_cons_iff in Hall as [(Hms & Hi & Hlt) Hall]. cbn [fst snd] in *.
  rewrite bind_cons in Ha. unfold item_bytes at 1 in Ha. cbn [fst snd] in Ha.
  rewrite <- !app_assoc in Ha. pose proof (cr_length _ _ Hc) as Hlen.
  destruct (lookup_lt_is_Some_2 counts (Z.to_nat idx)) as [old Ho]; [lia|].
  pose proof (proj1 (Forall_lookup _ _) Hz _ _ Ho) as ->.
  destruct (usage_turn num_pkts p counts ms idx _ timeout Hc Hms ltac:(lia) Hw Ho Hs Ha)
    as (p1 & q & Ht & Hg & Hr). cbn zeta in *. cbn [usage_loop].
  rewrite (bind_inl _ _ _ _ _ Hg), (bind_inl _ _ _ _ _ Hr).
  pose proof (took_avail _ _ _ _ Ht ltac:(by rewrite <- app_assoc)) as Ha1.
  pose proof (took_t _ _ _ Ht) as Et.
  destruct (IH mem (on_w (add_out (put_uint32 idx)) p1)) as (p2 & Ht2 & H2).
  - cbn [on_w p_t]. rewrite Et. by apply c_ready_set_buf.
  - pose proof (waits_took _ _ _ _ Ht Hw) as Hw1. exact Hw1.
  - by destruct Ht as (? & ? & ? & -> & _).
  - cbn [on_w p_t]. rewrite Et. done.
  - simpl in Hl. lia.
  - exact Ha1.
  - rewrite (bind_inl _ _ _ _ _ H2). apply took_out in Ht2 as (p3 & Ht3 & ->). exists p3.
    rewrite !bind_cons. split.
    + unfold item_bytes at 1. eauto using took_trans.
    + unfold on_w, add_out. cbn. rewrite Et, <- app_assoc. done.
Qed.

(** A C client that follows the usage in testimony.h gets every block the server
    sends, in order, at its place in the mapped ring, whatever messages come in
    between and however the stream is cut up, and returns each of them once, in
    the same order; no counter is left behind. *)
Theorem usage_loop_echoes (items : list (list tlv * Z)) (mem : list (Z → Z)) (p : proc)
    (counts : list Z) (rest : list byte) (timeout : Z) :
  c_ready (p_t p) counts → Forall (λ c, c = 0) counts → waits timeout p → w_send (p_w p) = [] →
  Forall (λ it, Forall tlv_valid it.1 ∧ 0 <= it.2 < block_nr (p_t p) ∧ it.2 < 2 ^ 31) items →
  length mem = length items → avail p = (items ≫= item_bytes) ++ rest →
  ∃ p', took (items ≫= item_bytes) p p' ∧
    usage_loop mem timeout p =
      (on_w (add_out (items.*2 ≫= put_uint32)) p', inl (block_addr (p_t p) <$> items.*2)).
Proof. apply usage_loop_items. Qed.

(** ** Examples *)
Definition demo_cconn (rest : list byte) : proc :=
  (testimony_connect demo_csys [] (demo_world rest)).1.
Definition demo_proc (rest : list byte) : proc := (testimony_init demo_csys (demo_cconn rest)).1.

Lemma demo_c_ready (rest : list byte) : c_ready (p_t (demo_proc rest)) (replicate 4 0).
Proof. split; vm_compute; repeat split; congruence. Qed.

Lemma block_index_exact_witness :
  testimony_block_index (p_t (demo_proc [])) (65536 + 3 * 4096 + 48) = 3 ∧
  testimony_block_index (p_t (demo_proc [])) 8 = kInvalidBlockIndex.
Proof.
  destruct (block_index_exact (p_t (demo_proc [])) (replicate 4 0) (65536 + 3 * 4096 + 48) 3
    (demo_c_ready [])) as [[_ H1] _]; [vm_compute; split; congruence..|].
  destruct (block_index_exact (p_t (demo_proc [])) (replicate 4 0) 8 3
    (demo_c_ready [])) as [_ [_ H2]]; [vm_compute; split; congruence..|].
  split; [apply H1; vm_compute; split; congruence|apply H2; left; vm_compute; congruence].
Defined.

(** Block 2 with five packets on its way. *)
Definition demo_counted : proc := with_count 2 5 (replicate 4 0) (demo_proc []).

Lemma demo_counted_ready : c_ready (p_t demo_counted) [0; 0; 5; 0].
Proof. exact (c_ready_with_count (demo_proc []) _ 2 5 (demo_c_ready [])). Qed.

Lemma return_packets_spec_witness :
  (testimony_return_packets (λ _, 5) (65536 + 2 * 4096) 3 demo_counted).1 =
    with_count 2 2 [0; 0; 5; 0] demo_counted ∧
  status (testimony_return_packets (λ _, 5) (65536 + 2 * 4096) 6 demo_counted).2 = Some (- EINVAL).
Proof.
  destruct (return_packets_spec (λ _, 5) demo_counted [0; 0; 5; 0] 2 (65536 + 2 * 4096) 3 5)
    as (H & _ & _);
    [apply demo_counted_ready|reflexivity|lia|vm_compute; split; congruence|lia|lia|reflexivity|].
  destruct (return_packets_spec (λ _, 5) demo_counted [0; 0; 5; 0] 2 (65536 + 2 * 4096) 6 5)
    as (_ & _ & H2);
    [apply demo_counted_ready|reflexivity|lia|vm_compute; split; congruence|lia|lia|reflexivity|].
  split; [rewrite H by lia; reflexivity|]. destruct H2 as (p' & -> & _); [lia|reflexivity].
Defined.

Lemma usage_loop_echoes_witness :
  ∃ p', usage_loop [λ _, 5; λ _, 0] (-1) (demo_proc (demo_items ≫= item_bytes)) =
    (on_w (add_out (put_uint32 2 ++ put_uint32 0)) p', inl [65536 + 2 * 4096; 65536]).
Proof.
  destruct (usage_loop_echoes demo_items [λ _, 5; λ _, 0] (demo_proc (demo_items ≫= item_bytes))
    (replicate 4 0) [] (-1)) as (p' & _ & H).
  - apply demo_c_ready.
  - repeat constructor.
  - left. lia.
  - vm_compute. reflexivity.
  - apply (bool_decide_unpack _). vm_compute. exact I.
  - reflexivity.
  - vm_compute. reflexivity.
  - exists p'. rewrite H. vm_compute. reflexivity.
Defined.

(** A timeout does not bound the call: poll(2) reports a first byte of an index, recv(2)
    then waits for the rest.  With the rest, or once the peer closes, it returns. *)
Example timeout_is_no_bound :
  let p := λ cs, Proc (p_t (demo_proc [])) (World (Arrives Byte.x00 [] [] :: cs) [] [PollReady] [] 0 []) in
  (testimony_get_block (λ _, 5) 1000 (p [Silent])).2 = inr Waits ∧
  (testimony_get_block (λ _, 5) 1000 (p [])).2 = inr (Ret (- ECANCELED)) ∧
  (testimony_get_block (λ _, 5) 1000 (p [Failure EINTR; Arrives Byte.x00 [Byte.x00; Byte.x02] []])).2 =
    inl (Some (65536 + 2 * 4096)).
Proof. split_and!; vm_compute; reflexivity. Qed.
