(* ===== verification/CResources.v ===== *)
(** * The C client library: setting up and tearing down

    What [testimony_init] does once the server answers or hangs up, and what a failed
    [testimony_connect] and [testimony_close] leave behind. *)

From stdpp Require Import base list numbers option sets.
From Stdlib Require Import ZArith Lia.
From S2P Require Import Prelude Bytes Protocol Cmsg Link Client CClient CBlocks.

(** ** Initiating *)
Lemma find_rights_UnixRights (fd : Z) :
  - 2 ^ 31 <= fd < 2 ^ 31 →
  find_rights ctrl_size (ctrl_buf (UnixRights [fd])) (Z.of_nat ctrl_size) 0 = Some fd.
Proof.
  intros Hfd. change (ctrl_buf (UnixRights [fd])) with
    (put_le 8 20 ++ put_le 4 SOL_SOCKET ++ put_le 4 SCM_RIGHTS ++ put_le 4 fd ++
     replicate 4 (byte_of 0)).
  change (find_rights ctrl_size _ _ 0) with (Some (int32 (get_le (put_le 4 fd)))).
  f_equal. rewrite get_put_le. change (2 ^ (8 * Z.of_nat 4)) with (2 ^ 32). mach.
Qed.

Lemma recv_file_descriptor_ok (p : proc) (b : byte) (bs : list byte) (cs : list chunk) (fd : Z) :
  w_in (p_w p) = Arrives b bs (UnixRights [fd]) :: cs → - 2 ^ 31 <= fd < 2 ^ 31 →
  recv_file_descriptor p =
    (on_w (λ w, hold (Fd fd) (set_w_in (push_back bs cs) w)) p, inl fd).
Proof.
  intros Hi Hfd. unfold recv_file_descriptor. rewrite Hi.
  assert (length (take ctrl_size (UnixRights [fd])) = ctrl_size) as -> by done.
  change ((ctrl_size <? cmsg_header)%nat) with false. cbn iota.
  by rewrite find_rights_UnixRights.
Qed.

(** The request for a fanout index, as the Go client writes it. *)
Definition index_request (i : Z) : list byte := tlv_bytes (TypeFanoutIndex, put_uint32 (uint32 i)).

Lemma index_request_bytes (i : Z) :
  C.set_be_32 index_word ++ C.set_be_32 (uint32 i) = index_request i.
Proof. done. Qed.

(** The client once the request is out. *)
Definition requested (p : proc) : proc :=
  on_w (add_out (index_request (fanout_index (p_t p)))) p.

Section init.
Context (os : csys).

Lemma init_requests (p : proc) :
  ring (p_t p) = 0 → w_send (p_w p) = [] → testimony_init os p = receive_ring os (requested p).
Proof.
  intros Hr Hs. unfold testimony_init.
  rewrite (bind_inl _ _ _ p tt) by (unfold reads; by rewrite Hr).
  assert (∀ bs q, w_send (p_w q) = [] →
    or_errno (send bs) q = (on_w (add_out bs) q, inl (length bs))) as Hsend.
  { intros bs q Hq. unfold or_errno, send. by rewrite Hq. }
  rewrite (bind_inl _ _ _ _ _ (Hsend _ p Hs)).
  rewrite (bind_inl _ _ _ (requested p) 4%nat); [done|]. unfold reads. rewrite Hsend by done.
  unfold requested, on_w, add_out. cbn -[C.set_be_32 index_request].
  by rewrite <- app_assoc, index_request_bytes.
Qed.

(** The client after a successful [testimony_init]. *)
Definition initiated (fd addr : Z) (cs : list chunk) (p : proc) : proc :=
  let t := p_t p in
  let len := uint64 (block_size t * block_nr t) in
  Proc (Testimony (fanout_size t) (block_size t) (block_nr t) (fanout_index t) (sock_fd t) fd addr
          (Some (replicate (Z.to_nat (block_nr t)) 0)) (buf t))
       (hold (Ring addr len) (hold Counts (hold (Fd fd)
          (set_w_in cs (add_out (index_request (fanout_index t)) (p_w p)))))).

Lemma testimony_init_ok (p : proc) (b : byte) (bs : list byte) (cs : list chunk) (fd addr : Z) :
  ring (p_t p) = 0 → w_send (p_w p) = [] →
  w_in (p_w p) = Arrives b bs (UnixRights [fd]) :: cs → 0 <= fd < 2 ^ 31 →
  c_calloc os = true → c_mmap os fd (uint64 (block_size (p_t p) * block_nr (p_t p))) = inl addr →
  testimony_init os p = (initiated fd addr (push_back bs cs) p, inl tt).
Proof.
  intros Hr Hs Hi Hfd Hca Hm. rewrite init_requests by done. unfold receive_ring.
  rewrite (bind_inl _ _ _ _ _ (recv_file_descriptor_ok (requested p) b bs cs fd Hi ltac:(pow2; lia))).
  unfold reads, modify, mbind, prog_bind, mret, prog_ret.
  rewrite (proj2 (Z.ltb_ge fd 0)), Hca by lia. cbn -[index_request uint64]. by rewrite Hm.
Qed.

Lemma init_rejected_eq (p : proc) :
  ring (p_t p) = 0 → w_send (p_w p) = [] → w_in (p_w p) = [] →
  testimony_init os p = (on_t (set_afpacket_fd (-1)) (requested p), inr (Ret (- errno p))).
Proof.
  intros Hr Hs Hi. rewrite init_requests by done. unfold receive_ring.
  rewrite (bind_inl _ _ _ (requested p) (-1)); [done|].
  unfold recv_file_descriptor. cbn [requested on_w p_w add_out w_in]. by rewrite Hi.
Qed.
End init.

(** A server that closes the connection instead of sending a descriptor, as the
    daemon does when it refuses the index, is not reported as an error of its own:
    [recv_file_descriptor] returns -1 without setting errno, and [testimony_init]
    returns the negation of whatever errno was before the call.  Where it was 0
    that is success, with no ring mapped. *)
Theorem init_rejected_stale_errno (os : csys) (p : proc) :
  ring (p_t p) = 0 → w_send (p_w p) = [] → w_in (p_w p) = [] →
  status (testimony_init os p).2 = Some (- errno p) ∧ ring (p_t (testimony_init os p).1) = 0.
Proof. intros Hr Hs Hi. by rewrite init_rejected_eq. Qed.

(** ** Resources *)

(** A property of the process that reading does not touch. *)
Definition stable (P : proc → Prop) : Prop := ∀ b cs e p, P p → P (at_in b cs e p).

Section stable.
Context (P : proc → Prop) (HP : stable P).

Lemma keeps_fail {A} (e : Z) : keeps P (fail_with e : cprog A).
Proof.
  intros p Hp. assert (on_w (set_errno e) p = at_in (buf (p_t p)) (w_in (p_w p)) e p) as E
    by (by destruct p as [[] []]).
  rewrite fail_with_eq, E. by apply HP.
Qed.

Lemma keeps_recv_loop (fuel n : nat) : keeps P (recv_loop fuel n).
Proof.
  revert n. induction fuel as [|fuel IH]; intros [|n]; cbn [recv_loop]; auto with keeps.
  apply keeps_bind.
  - intros p Hp. unfold refill. case_match; [|done]. destruct (fill _ _) as [[[b cs] e] ok].
    by apply HP.
  - intros _. apply keeps_reads. intros s. apply keeps_bind; [|auto with keeps].
    apply keeps_modify. intros p Hp.
    assert (∀ b, on_t (set_buf b) p = at_in b (w_in (p_w p)) (errno p) p) as ->
      by (by destruct p as [[] []]). by apply HP.
Qed.

Lemma keeps_recv_be_32 : keeps P recv_be_32.
Proof. apply keeps_bind; [apply keeps_recv_loop|auto with keeps]. Qed.

Lemma keeps_discard (fuel n : nat) : keeps P (discard_loop fuel n).
Proof.
  revert n. induction fuel as [|fuel IH]; intros [|n]; cbn [discard_loop]; auto with keeps.
  apply keeps_bind; [apply keeps_recv_loop|auto].
Qed.

Lemma keeps_greeting_loop (fuel : nat) :
  (∀ typ v p, P p → P (on_t (switch_size typ v) p)) → keeps P (greeting_loop fuel).
Proof.
  intros Hsw. induction fuel as [|fuel IH]; cbn [greeting_loop]; [auto with keeps|].
  apply keeps_bind; [apply keeps_recv_be_32|]. intros x. case_match; [auto with keeps|].
  case_match.
  - apply keeps_bind; [apply keeps_recv_be_32|]. auto with keeps.
  - apply keeps_bind; [apply keeps_discard|auto].
Qed.
End stable.

(** The process of a client that is connecting. *)
Definition connecting (fd : Z) (held : list resource) (p : proc) : Prop :=
  ring (p_t p) = 0 ∧ sock_fd (p_t p) = fd ∧ w_held (p_w p) = Fd fd :: Struct :: held.

Lemma connecting_stable (fd : Z) (held : list resource) : stable (connecting fd held).
Proof. by intros b cs e p. Qed.

Lemma connect_body_connecting (os : csys) (name : list byte) (fd : Z) (w : world) :
  c_socket os = inl fd →
  connecting fd (w_held w) (connect_body os name (Proc zero_testimony (hold Struct w))).1.
Proof.
  intros Hs. unfold connect_body. rewrite Hs.
  set (p1 := Proc (set_sock_fd fd zero_testimony) (hold (Fd fd) (hold Struct w))).
  rewrite (bind_inl _ _ _ p1 tt) by done.
  pose proof (connecting_stable fd (w_held w)) as HP.
  match goal with |- connecting _ _ (?m p1).1 =>
    assert (keeps (connecting fd (w_held w)) m) as Hk; [|by apply Hk] end.
  pose proof (λ e, keeps_fail _ HP (A:=unit) e) as Hf.
  apply keeps_bind; [case_match; auto with keeps|]. intros _.
  apply keeps_bind; [case_match; auto with keeps|]. intros _.
  apply keeps_bind; [by apply keeps_recv_loop|]. intros v.
  apply keeps_bind; [case_match; auto with keeps|]. intros _.
  apply keeps_bind; [apply keeps_reads; intros s; apply keeps_greeting_loop; [done|]|].
  - intros typ u p. unfold connecting, switch_size. by repeat case_match.
  - intros _. apply keeps_reads. intros s. case_match; auto with keeps.
Qed.

(** What closing leaves of what a connecting client held. *)
Lemma close_connecting (os : csys) (fd : Z) (held : list resource) (p : proc) :
  connecting fd held p → 0 <= fd →
  w_held (p_w (testimony_close os p).1) =
    match c_close os fd with
    | None => filter (λ r, r ≠ Struct ∧ r ≠ Counts ∧ r ≠ Fd fd) held
    | Some _ => Fd fd :: Struct :: held
    end.
Proof.
  intros (Hr & Hf & Hh) H0. unfold testimony_close, reads, modify, mbind, prog_bind.
  rewrite Hr. cbn [Z.eqb mret prog_ret]. unfold sys_close_fd. rewrite Hf, (proj2 (Z.ltb_ge fd 0)) by done.
  destruct (c_close os fd); [by rewrite fail_with_eq|].
  cbn [on_w release p_w w_held mret prog_ret fst snd]. rewrite Hh, !list_filter_filter.
  rewrite !filter_cons_False by naive_solver. apply list_filter_iff. naive_solver.
Qed.

(** C34: what a failed [testimony_connect] leaves behind, on each of its failures: with no
    memory for the struct, nothing; when socket(2) fails, the struct, because closing
    descriptor -1 fails too and [testimony_close] returns before it frees; after any
    later failure nothing, provided close(2) succeeds, and else the struct again (the
    descriptor then counts as not given back). *)
Theorem connect_failure_releases (os : csys) (name : list byte) (w : world) (p : proc) (r : Z) :
  testimony_connect os name w = (p, inr (Ret r)) → w_held w = [] →
  if c_malloc os then
    match c_socket os with
    | inr e => r = - e ∧ w_held (p_w p) = [Struct]
    | inl fd => 0 <= fd →
        w_held (p_w p) = match c_close os fd with None => [] | Some _ => [Fd fd; Struct] end
    end
  else r = - ENOMEM ∧ w_held (p_w p) = [].
Proof.
  unfold testimony_connect. intros H Hw. destruct (c_malloc os) eqn:Hm.
  2: { injection H as <- <-. by split. }
  destruct (c_socket os) as [fd|e] eqn:Hs.
  - intros H0. pose proof (connect_body_connecting os name fd w Hs) as Hcn.
    destruct (connect_body os name _) as [p1 [[]|[r1| | |]]]; try done. injection H as <- _.
    rewrite (close_connecting os fd _ p1 Hcn H0), Hw. done.
  - unfold connect_body in H. rewrite Hs in H. injection H as <- <-. simpl. by rewrite Hw.
Qed.

(** [testimony_close] after a successful [testimony_init] unmaps the ring, closes
    the connection and frees the memory, but the packet socket's descriptor stays
    open. *)
Theorem close_leaks_afpacket_fd (os : csys) (fd addr : Z) (cs : list chunk) (p : proc) :
  let s := sock_fd (p_t p) in
  connecting s [] p → 0 <= s → fd ≠ s → addr ≠ 0 →
  c_munmap os = None → c_close os s = None →
  (testimony_close os (initiated fd addr cs p)).2 = inl tt ∧
  w_held (p_w (testimony_close os (initiated fd addr cs p)).1) = [Fd fd].
Proof.
  intros s (_ & _ & Hh) H0 Hne Ha Hm Hc. unfold testimony_close, reads, modify, mbind, prog_bind.
  cbn [initiated p_t ring]. rewrite (proj2 (Z.eqb_neq addr 0)), Hm by done.
  cbn [on_w release p_w p_t w_held sock_fd block_nr block_size]. unfold sys_close_fd.
  change (sock_fd (p_t (initiated fd addr cs p))) with s.
  rewrite (proj2 (Z.ltb_ge s 0)), Hc by done. split; [done|].
  cbn [initiated on_w release p_w hold add_out set_w_in w_held fst]. rewrite Hh, (Z.mul_comm (block_nr _)).
  rewrite !list_filter_filter.
  repeat first [rewrite filter_cons_False by (intros ?; destruct_and?; congruence)
               |rewrite filter_cons_True by (split_and!; congruence)].
  done.
Qed.

(** ** Examples *)

(** The server closes after the greeting. *)
Definition demo_rejected : proc :=
  (testimony_connect demo_csys []
     (World (Arrives (byte_of 2) (encode_all demo_greeting ++
        tlv_bytes (TypeWaitingForFanoutIndex, [])) [] :: []) [] [] [] 0 [])).1.

Lemma init_rejected_stale_errno_witness :
  status (testimony_init demo_csys demo_rejected).2 = Some 0 ∧
  ring (p_t (testimony_init demo_csys demo_rejected).1) = 0.
Proof.
  destruct (init_rejected_stale_errno demo_csys demo_rejected) as [H1 H2];
    [vm_compute; reflexivity..|].
  split; [rewrite H1; vm_compute; reflexivity|exact H2].
Defined.

Lemma connect_failure_releases_witness :
  w_held (p_w (testimony_connect demo_csys [] (World [Failure 104] [] [] [] 0 [])).1) = [].
Proof.
  refine (connect_failure_releases demo_csys [] (World [Failure 104] [] [] [] 0 []) _ (-104) _ _ _);
    vm_compute; (reflexivity || congruence).
Defined.

Lemma close_leaks_afpacket_fd_witness :
  w_held (p_w (testimony_close demo_csys (initiated 7 65536 [] (demo_cconn []))).1) = [Fd 7].
Proof.
  apply (close_leaks_afpacket_fd demo_csys 7 65536 [] (demo_cconn []));
    vm_compute; (repeat split; reflexivity || congruence).
Defined.
