(* ===== verification/CReturn.v ===== *)
(** * Returning packets from many threads

    [testimony_return_packets] of c/testimony.c is meant to be called by many threads
    for the packets of one block, the last one returning the block.  Here the calls
    are split at their atomic operations and system calls: a task is a call in
    progress, a step is one atomic operation or one send(2) of one task, a new call, or
    the delivery of a block, and a schedule is any sequence of steps.  A task run
    without interruption is the function of CClient.  What the daemon and the callers
    have to keep to is not part of the steps but a condition on schedules
    ([allowed]). *)

From Stdlib Require Import ZArith Lia Permutation.
From stdpp Require Import base list numbers option.
From S2P Require Import Prelude Bytes Protocol Cmsg Link Client CClient CBlocks.

(** ** Calls in progress *)
Inductive pc :=
  | PSub (packets : Z)          (* before __sync_fetch_and_sub *)
  | PAnd                        (* in testimony_return_block, before __sync_fetch_and_and *)
  | PSend (rest : list byte)    (* in the loop of send_be_32, with these bytes to send *)
  | PDone (r : Z).

#[export] Instance pc_eq_dec : EqDecision pc.
Proof. solve_decision. Defined.

(** The bytes of an index: [set_be_32(msg, in)]. *)
Definition index_bytes (i : nat) : list byte := C.set_be_32 (uint32 (Z.of_nat i)).

(** One atomic operation or system call, for the block [idx], on its counter and the
    [num_pkts] field of its descriptor; [r] is what send(2) answers, if it is called:
    how many bytes it takes beyond the first, or errno.  The counter, what comes next,
    and the bytes sent. *)
Definition task_step (idx : nat) (num_pkts count : Z) (r : nat + Z) (c : pc) : Z * pc * list byte :=
  match c with
  | PSub packets =>
      (uint32 (count - packets),
       if count =? packets then PAnd
       else if count <? packets then PDone (- EINVAL) else PDone 0, [])
  | PAnd =>
      (Z.land count 0,
       if negb (count =? 0) && negb (count =? num_pkts) then PDone (- EINVAL)
       else PSend (index_bytes idx), [])
  | PSend rest =>
      match r with
      | inr e => (count, PDone (- e), [])
      | inl n => (count, match drop (S n) rest with [] => PDone 0 | rest => PSend rest end,
                  take (S n) rest)
      end
  | PDone r => (count, PDone r, [])
  end.

(** What came of the index, if this step settles it: sent, or lost with an errno. *)
Definition settles (r : nat + Z) (c : pc) : option (unit + Z) :=
  match c, r with
  | PSend rest, inl n => match drop (S n) rest with [] => Some (inl tt) | _ => None end
  | PSend _, inr e => Some (inr e)
  | _, _ => None
  end.

(** send(2) took only a part. *)
Definition cut_short (r : nat + Z) (c : pc) : bool :=
  match c, r with
  | PSend rest, inl n => match drop (S n) rest with [] => false | _ => true end
  | _, _ => false
  end.

Record task := Task { k_idx : nat; k_pc : pc }.

#[export] Instance task_eq_dec : EqDecision task.
Proof. solve_decision. Defined.

(** ** The client *)
Record client := CState {
  s_counts : list Z;
  s_pkts : list Z;              (* num_pkts of each block of the ring *)
  s_left : list Z;              (* packets no call was made for yet *)
  s_tasks : list task;
  s_got : list nat;             (* the indexes received, in order *)
  s_sent : list nat;            (* the indexes sent back, in order *)
  s_lost : list (nat * Z);      (* the indexes that could not be sent, and why *)
  s_out : list byte;            (* the bytes sent *)
  s_short : bool;               (* a send took a part of an index *)
  s_failed : bool;              (* the compare-and-swap of testimony_get_block failed *)
}.

Definition start (block_nr : nat) : client :=
  CState (replicate block_nr 0) (replicate block_nr 0) (replicate block_nr 0) [] [] [] [] [] false
    false.

Definition times (i : nat) (l : list nat) : nat := length (filter (λ j, j = i) l).

Inductive client_label :=
  | Get (i : nat) (num_pkts : Z)    (* block [i] arrives with that many packets *)
  | Call (i : nat) (packets : Z)    (* a thread calls testimony_return_packets *)
  | Run (k : nat) (r : nat + Z).    (* call [k] goes on *)

(** Call [k], for block [i], has gone on from [c] with this result of [task_step]. *)
Definition moved (k i : nat) (r : nat + Z) (c : pc) (res : Z * pc * list byte) (s : client) : client :=
  let '(count, c', out) := res in
  CState (<[i := count]> (s_counts s)) (s_pkts s) (s_left s) (<[k := Task i c']> (s_tasks s)) (s_got s)
    (match settles r c with Some (inl _) => s_sent s ++ [i] | _ => s_sent s end)
    (match settles r c with Some (inr e) => s_lost s ++ [(i, e)] | _ => s_lost s end)
    (s_out s ++ out) (s_short s || cut_short r c) (s_failed s).

(** Get is the counter's compare-and-swap in [testimony_get_block]; a call for a block
    of this ring, at any time, with any number. *)
Definition client_step (l : client_label) (s : client) : option client :=
  match l with
  | Get i num_pkts =>
      old ← s_counts s !! i;
      Some (CState
        (<[i := if old =? 0 then num_pkts else old]> (s_counts s))
        (<[i := num_pkts]> (s_pkts s)) (<[i := num_pkts]> (s_left s))
        (s_tasks s) (s_got s ++ [i]) (s_sent s) (s_lost s) (s_out s) (s_short s)
        (s_failed s || negb (old =? 0)))
  | Call i packets =>
      left ← s_left s !! i;
      Some (CState (s_counts s) (s_pkts s) (<[i := left - packets]> (s_left s))
        (s_tasks s ++ [Task i (PSub packets)]) (s_got s) (s_sent s) (s_lost s) (s_out s) (s_short s)
        (s_failed s))
  | Run k r =>
      t ← s_tasks s !! k;
      count ← s_counts s !! k_idx t;
      num_pkts ← s_pkts s !! k_idx t;
      Some (moved k (k_idx t) r (k_pc t) (task_step (k_idx t) num_pkts count r (k_pc t)) s)
  end.

(** What the client may rely on and has to keep to: the daemon sends a block that has
    packets and that it got back as often as it sent it; the threads return packets
    they have, each once. *)
Definition allowed (l : client_label) (s : client) : Prop :=
  match l with
  | Get i num_pkts => times i (s_got s) = times i (s_sent s) ∧ 0 < num_pkts < 2 ^ 32
  | Call i packets => ∃ left, s_left s !! i = Some left ∧ 0 < packets <= left
  | Run _ _ => True
  end.

#[export] Instance allowed_dec l s : Decision (allowed l s).
Proof.
  destruct l as [i m|i m|k r]; simpl; [apply _| |apply _].
  destruct (s_left s !! i) as [left|]; [|by right; intros (? & ? & _)].
  destruct (decide (0 < m <= left)) as [H|H]; [left; by exists left|].
  right. by intros (? & [= <-] & ?).
Defined.

Inductive client_reachable (n : nat) : client → Prop :=
  | reach_start : client_reachable n (start n)
  | reach_step l s s' :
      client_reachable n s → allowed l s → client_step l s = Some s' → client_reachable n s'.

(** Execute a schedule that keeps to this. *)
Definition run_client (ls : list client_label) (s : client) : option client :=
  foldl (λ s l, s ≫= λ s, if bool_decide (allowed l s) then client_step l s else None) (Some s) ls.

(** ** What is under way for a block *)
Definition total (l : list Z) : Z := foldr Z.add 0 l.

Definition owed (i : nat) (t : task) : Z :=
  match k_pc t with PSub n => if decide (k_idx t = i) then n else 0 | _ => 0 end.

Definition late (i : nat) (t : task) : Z :=
  match k_pc t with
  | PAnd | PSend _ => if decide (k_idx t = i) then 1 else 0
  | _ => 0
  end.

Definition sum (f : task → Z) (ts : list task) : Z := total (f <$> ts).

Lemma sum_cons (f : task → Z) (t : task) (ts : list task) : sum f (t :: ts) = f t + sum f ts.
Proof. done. Qed.

Lemma sum_app (f : task → Z) (a b : list task) : sum f (a ++ b) = sum f a + sum f b.
Proof. induction a as [|x a IH]; [done|]. cbn [app]. rewrite !sum_cons, IH. lia. Qed.

Lemma sum_snoc (f : task → Z) (ts : list task) (t : task) : sum f (ts ++ [t]) = sum f ts + f t.
Proof. rewrite sum_app, sum_cons. unfold sum, total. cbn. lia. Qed.

Lemma sum_insert (f : task → Z) (ts : list task) (k : nat) (t t' : task) :
  ts !! k = Some t → sum f (<[k := t']> ts) = sum f ts - f t + f t'.
Proof.
  revert k. induction ts as [|x ts IH]; intros k; [done|]. destruct k as [|k].
  - intros [= ->]. change (<[0%nat := t']> (t :: ts)) with (t' :: ts). rewrite !sum_cons. lia.
  - intros H. change (<[S k := t']> (x :: ts)) with (x :: <[k := t']> ts).
    rewrite !sum_cons, (IH k H). lia.
Qed.

Lemma sum_nonneg (f : task → Z) (ts : list task) : Forall (λ t, 0 <= f t) ts → 0 <= sum f ts.
Proof. induction 1; [done|]. rewrite sum_cons. lia. Qed.

Lemma sum_pos (f : task → Z) (ts : list task) (k : nat) (t : task) :
  Forall (λ t, 0 <= f t) ts → ts !! k = Some t → f t <= sum f ts.
Proof.
  intros Hf. revert k. induction Hf as [|x ts Hx Hf IH]; intros k; [done|]. rewrite sum_cons.
  pose proof (sum_nonneg f ts Hf). destruct k as [|k]; [intros [= ->]; lia|].
  intros H'. specialize (IH k H'). lia.
Qed.

(** The packets of a block that were not subtracted yet, and how often it was sent back
    or lost. *)
Definition due (s : client) (i : nat) : Z := sum (owed i) (s_tasks s) + default 0 (s_left s !! i).
Definition back (s : client) (i : nat) : nat := (times i (s_sent s) + times i (s_lost s).*1)%nat.

(** The state of one block: packets still due, a call that is about to send, or
    neither. *)
Record block_inv (s : client) (i : nat) : Prop := {
  b_count : s_counts s !! i = Some (due s i);
  b_range : 0 <= due s i < 2 ^ 32;
  b_late : 0 <= sum (late i) (s_tasks s) <= 1;
  b_either : 0 < due s i → sum (late i) (s_tasks s) = 0;
  b_times : Z.of_nat (times i (s_got s)) =
    Z.of_nat (back s i) + (if decide (0 < due s i) then 1 else sum (late i) (s_tasks s));
}.

Definition task_ok (n : nat) (short : bool) (lost : list (nat * Z)) (t : task) : Prop :=
  (k_idx t < n)%nat ∧
  match k_pc t with
  | PSub m => 0 < m
  | PAnd => True
  | PSend rest => rest ≠ [] ∧ (length rest ≤ 4)%nat ∧ (short = false → rest = index_bytes (k_idx t))
  | PDone r => r = 0 ∨ (k_idx t, - r) ∈ lost
  end.

Record ClientInv (n : nat) (s : client) : Prop := {
  i_lengths : length (s_counts s) = n ∧ length (s_pkts s) = n ∧ length (s_left s) = n;
  i_left : Forall (λ m, 0 <= m) (s_left s);
  i_tasks : Forall (task_ok n (s_short s) (s_lost s)) (s_tasks s);
  i_blocks : ∀ i, (i < n)%nat → block_inv s i;
  i_others : ∀ i, (n ≤ i)%nat → times i (s_got s) = back s i;
  i_out : s_short s = false → s_out s = s_sent s ≫= index_bytes;
  i_failed : s_failed s = false;
}.

Lemma times_app (i j : nat) (l : list nat) :
  times i (l ++ [j]) = (times i l + if decide (j = i) then 1 else 0)%nat.
Proof.
  unfold times. rewrite list.filter_app, length_app, filter_cons. by destruct (decide (j = i)).
Qed.

Lemma start_inv (n : nat) : ClientInv n (start n).
Proof.
  split; cbn; try done; [by rewrite !length_replicate|by apply Forall_replicate|].
  intros i Hi. assert (due (start n) i = 0) as E
    by (unfold due; cbn; by rewrite lookup_replicate_2).
  split; rewrite ?E; cbn; try done. by rewrite lookup_replicate_2.
Qed.

Arguments times : simpl never.
Arguments total : simpl never.
Arguments sum : simpl never.
Arguments index_bytes : simpl never.

(** ** Every step keeps the invariant *)

(** What a block's state depends on. *)
Lemma block_inv_same (s s' : client) (i : nat) :
  block_inv s i → s_counts s' !! i = s_counts s !! i → due s' i = due s i →
  sum (late i) (s_tasks s') = sum (late i) (s_tasks s) → times i (s_got s') = times i (s_got s) →
  back s' i = back s i → block_inv s' i.
Proof. intros [] E1 E2 E3 E4 E5. split; rewrite ?E1, ?E2, ?E3, ?E4, ?E5; done. Qed.

Lemma idle_block (s : client) (i : nat) :
  block_inv s i → times i (s_got s) = times i (s_sent s) →
  due s i = 0 ∧ sum (late i) (s_tasks s) = 0.
Proof. intros [_ Hr Hl _ Ht] E. unfold back in Ht. rewrite E in Ht. case_decide; lia. Qed.

Lemma owed_nonneg (n i : nat) (s : client) :
  ClientInv n s → Forall (λ t, 0 <= owed i t) (s_tasks s).
Proof.
  intros HI. eapply Forall_impl; [|exact (i_tasks _ _ HI)]. intros t [_ Ht]. unfold owed.
  repeat case_match; lia.
Qed.

Lemma late_nonneg (i : nat) (ts : list task) : Forall (λ t, 0 <= late i t) ts.
Proof. apply Forall_true. intros t. unfold late. repeat case_match; lia. Qed.

Lemma left_nonneg (n i : nat) (s : client) : ClientInv n s → 0 <= default 0 (s_left s !! i).
Proof.
  intros HI. destruct (s_left s !! i) as [m|] eqn:E; cbn; [|lia].
  exact (proj1 (Forall_lookup _ _) (i_left _ _ HI) _ _ E).
Qed.

(** A block arrives. *)
Lemma step_get_inv (n : nat) (s s' : client) (i : nat) (m : Z) :
  ClientInv n s → allowed (Get i m) s → client_step (Get i m) s = Some s' → ClientInv n s'.
Proof.
  intros HI [Heq Hm] H. cbn [client_step] in H.
  destruct (s_counts s !! i) as [old|] eqn:Hold; [|done]. cbn in H. injection H as <-.
  destruct (i_lengths _ _ HI) as (Hlc & Hlp & Hll).
  assert (i < n)%nat as Hi by (rewrite <- Hlc; by eapply lookup_lt_Some).
  destruct (idle_block s i (i_blocks _ _ HI i Hi) Heq) as [Hd Hlate].
  pose proof (b_count _ _ (i_blocks _ _ HI i Hi)) as Hc. rewrite Hold, Hd in Hc. injection Hc as ->.
  pose proof (sum_nonneg _ _ (owed_nonneg n i s HI)) as Ho. pose proof (left_nonneg n i s HI) as Hl0.
  split; cbn [s_counts s_pkts s_left s_tasks s_got s_sent s_lost s_out s_short s_failed].
  - by rewrite !length_insert.
  - apply Forall_insert; [apply HI|lia].
  - apply HI.
  - intros j Hj. destruct (decide (i = j)) as [<-|Hne].
    + pose proof (b_times _ _ (i_blocks _ _ HI i Hi)) as Ht. rewrite Hd, decide_False in Ht by lia.
      set (s1 := CState _ _ _ _ _ _ _ _ _ _). assert (due s1 i = m) as E.
      { unfold due, s1 in *. cbn. rewrite list_lookup_insert_eq by lia. cbn in *. lia. }
      split; rewrite ?E; cbn; [by rewrite list_lookup_insert_eq by lia|lia|lia|done|].
      rewrite decide_True, times_app, decide_True by (done || lia). unfold back in *. cbn. lia.
    + apply (block_inv_same s); [by apply HI|..]; unfold due, back; cbn; try done.
      * by rewrite list_lookup_insert_ne.
      * by rewrite list_lookup_insert_ne.
      * rewrite times_app, decide_False by done. lia.
  - intros j Hj. rewrite times_app, decide_False by lia. rewrite Nat.add_0_r. by apply HI.
  - apply HI.
  - rewrite (i_failed _ _ HI). done.
Qed.

(** A thread makes a call. *)
Lemma step_call_inv (n : nat) (s s' : client) (i : nat) (m : Z) :
  ClientInv n s → allowed (Call i m) s → client_step (Call i m) s = Some s' → ClientInv n s'.
Proof.
  intros HI (left & Hleft & Hm) H. cbn [client_step] in H. rewrite Hleft in H. cbn in H.
  injection H as <-. destruct (i_lengths _ _ HI) as (Hlc & Hlp & Hll).
  assert (i < n)%nat as Hi by (rewrite <- Hll; by eapply lookup_lt_Some).
  split; cbn [s_counts s_pkts s_left s_tasks s_got s_sent s_lost s_out s_short s_failed]; try apply HI.
  - by rewrite length_insert.
  - apply Forall_insert; [apply HI|lia].
  - apply Forall_app. split; [apply HI|]. constructor; [|constructor]. split; cbn; [done|lia].
  - intros j Hj. apply (block_inv_same s); [by apply HI|done| | |done|done]; unfold due;
      cbn [s_tasks s_left]; rewrite sum_snoc; unfold owed, late; cbn [k_pc k_idx]; [|lia].
    destruct (decide (i = j)) as [->|Hne].
    + rewrite list_lookup_insert_eq, Hleft by lia. cbn. lia.
    + rewrite list_lookup_insert_ne by done. lia.
Qed.

(** *** A call goes on *)

(** What a step of one task leaves alone for the other blocks. *)
Lemma sum_other (f : nat → task → Z) (j k i : nat) (c c' : pc) (ts : list task) :
  (∀ c, i ≠ j → f j (Task i c) = 0) → ts !! k = Some (Task i c) → i ≠ j →
  sum (f j) (<[k := Task i c']> ts) = sum (f j) ts.
Proof. intros Hf Hk Hne. rewrite (sum_insert _ _ _ _ _ Hk), !Hf by done. lia. Qed.

Lemma owed_own (i : nat) (c : pc) : owed i (Task i c) = match c with PSub m => m | _ => 0 end.
Proof. unfold owed. cbn. destruct c; try done. by rewrite decide_True. Qed.

Lemma late_own (i : nat) (c : pc) :
  late i (Task i c) = match c with PAnd | PSend _ => 1 | _ => 0 end.
Proof. unfold late. cbn. destruct c; try done; by rewrite decide_True. Qed.

Lemma owed_other (i j : nat) (c : pc) : i ≠ j → owed j (Task i c) = 0.
Proof. intros. unfold owed. cbn. destruct c; try done. by rewrite decide_False. Qed.

Lemma late_other (i j : nat) (c : pc) : i ≠ j → late j (Task i c) = 0.
Proof. intros. unfold late. cbn. destruct c; try done; by rewrite decide_False. Qed.

Lemma moved_back (k i j : nat) (r : nat + Z) (c : pc) (res : Z * pc * list byte) (s : client) :
  back (moved k i r c res s) j =
    (back s j + if bool_decide (i = j) then match settles r c with Some _ => 1 | None => 0 end else 0)%nat.
Proof.
  destruct res as [[count c'] out]. unfold back. cbn. destruct (settles r c) as [[[]|e]|];
    rewrite ?fmap_app; cbn; rewrite ?times_app; case_bool_decide; try case_decide; (done || lia).
Qed.

(** The numbers of the block of the task that moves. *)
Lemma moved_block (s : client) (k i : nat) (r : nat + Z) (c c' : pc) (count : Z) (out : list byte) :
  s_tasks s !! k = Some (Task i c) → (i < length (s_counts s))%nat →
  let d' := due s i - owed i (Task i c) + owed i (Task i c') in
  let l' := sum (late i) (s_tasks s) - late i (Task i c) + late i (Task i c') in
  count = d' → 0 <= d' < 2 ^ 32 → 0 <= l' <= 1 → (0 < d' → l' = 0) →
  Z.of_nat (times i (s_got s)) = Z.of_nat (back s i) +
    (match settles r c with Some _ => 1 | None => 0 end) + (if decide (0 < d') then 1 else l') →
  block_inv (moved k i r c (count, c', out) s) i.
Proof.
  intros Hk Hi d' l' -> H1 H2 H3 H4. set (s' := moved _ _ _ _ _ _). assert (due s' i = d') as E.
  { unfold due, d', due. cbn [s' moved s_tasks s_left]. rewrite (sum_insert _ _ _ _ _ Hk). lia. }
  assert (sum (late i) (s_tasks s') = l') as E' by (cbn [s' moved s_tasks]; by rewrite (sum_insert _ _ _ _ _ Hk)).
  assert (Z.of_nat (back s' i) = Z.of_nat (back s i) + match settles r c with Some _ => 1 | None => 0 end)
    as Eb by (unfold s'; rewrite moved_back, bool_decide_true by done; destruct (settles r c); lia).
  split; rewrite ?E, ?E', ?Eb; try done. cbn [s' moved s_counts]. by apply list_lookup_insert_eq.
Qed.

(** The task itself and its block, after a step: its counter is what is due, so the
    checks of the code pass. *)
Definition goes_on (n : nat) (s : client) (k i : nat) (r : nat + Z) (c : pc)
    (res : Z * pc * list byte) : Prop :=
  let s' := moved k i r c res s in
  block_inv s' i ∧ task_ok n (s_short s') (s_lost s') (Task i res.1.2).

Section going_on.
Context (n : nat) (s : client) (k i : nat) (HI : ClientInv n s).

Lemma own_bounds (c : pc) :
  s_tasks s !! k = Some (Task i c) →
  (i < length (s_counts s))%nat ∧ (i < n)%nat ∧ block_inv s i ∧
  task_ok n (s_short s) (s_lost s) (Task i c) ∧
  owed i (Task i c) <= due s i ∧ late i (Task i c) <= sum (late i) (s_tasks s).
Proof.
  intros Hk. pose proof (proj1 (Forall_lookup _ _) (i_tasks _ _ HI) _ _ Hk) as Hok.
  pose proof Hok as [Hi _]. cbn in Hi.
  pose proof (sum_pos _ _ _ _ (owed_nonneg n i s HI) Hk). pose proof (left_nonneg n i s HI).
  pose proof (sum_pos _ _ _ _ (late_nonneg i (s_tasks s)) Hk). destruct (i_lengths _ _ HI) as (Hlc & _).
  split_and!; [lia|done|by apply HI|done|unfold due; lia|done].
Qed.

Lemma sub_goes_on (m np : Z) (r : nat + Z) :
  s_tasks s !! k = Some (Task i (PSub m)) →
  goes_on n s k i r (PSub m) (task_step i np (due s i) r (PSub m)).
Proof.
  intros Hk. destruct (own_bounds _ Hk) as (Hlt & Hi & [_ Hr Hl He Ht] & [_ Hm] & Ho & _).
  cbn in Hm. rewrite owed_own in Ho. rewrite decide_True in Ht by lia. specialize (He ltac:(lia)).
  unfold goes_on. cbn [task_step]. destruct (Z.eqb_spec (due s i) m) as [E|Hne]; (split; [|split; [done|]]).
  - apply moved_block; [done..| | | | |]; rewrite ?owed_own, ?late_own, ?decide_False;
      cbn; (lia || mach).
  - done.
  - rewrite (proj2 (Z.ltb_ge _ _)) by lia.
    apply moved_block; [done..| | | | |]; rewrite ?owed_own, ?late_own, ?decide_True;
      cbn; (lia || mach).
  - rewrite (proj2 (Z.ltb_ge _ _)) by lia. by left.
Qed.

(** Somebody is late: nothing is due. *)
Lemma late_idle (c : pc) :
  s_tasks s !! k = Some (Task i c) → late i (Task i c) = 1 →
  due s i = 0 ∧ sum (late i) (s_tasks s) = 1 ∧
  Z.of_nat (times i (s_got s)) = Z.of_nat (back s i) + 1.
Proof.
  intros Hk Hlate. destruct (own_bounds _ Hk) as (_ & _ & [_ Hr Hl He Ht] & _ & _ & Hla).
  assert (due s i = 0) as E by lia. rewrite E, decide_False in Ht by lia. lia.
Qed.

Lemma and_goes_on (np : Z) (r : nat + Z) :
  s_tasks s !! k = Some (Task i PAnd) →
  goes_on n s k i r PAnd (task_step i np (due s i) r PAnd).
Proof.
  intros Hk. destruct (own_bounds _ Hk) as (Hlt & Hi & _).
  destruct (late_idle _ Hk (late_own i PAnd)) as (E & El & Ht).
  unfold goes_on. cbn [task_step]. rewrite E. cbn [Z.eqb negb andb]. split; [|split; [done|]].
  - apply moved_block; [done..| | | | |]; rewrite ?owed_own, ?late_own, ?E, ?El, ?decide_False; cbn; (done || lia).
  - cbn. by rewrite orb_false_r.
Qed.

Lemma send_goes_on (rest : list byte) (np : Z) (r : nat + Z) :
  s_tasks s !! k = Some (Task i (PSend rest)) →
  goes_on n s k i r (PSend rest) (task_step i np (due s i) r (PSend rest)).
Proof.
  intros Hk. destruct (own_bounds _ Hk) as (Hlt & Hi & _ & [_ (Hne & H4 & Hword)] & _).
  destruct (late_idle _ Hk (late_own i (PSend rest))) as (E & El & Ht).
  assert (∀ c' out, late i (Task i c') = (match settles r (PSend rest) with Some _ => 0 | None => 1 end) →
    owed i (Task i c') = 0 → block_inv (moved k i r (PSend rest) (due s i, c', out) s) i) as Hblock.
  { intros c' out Hlate Howed. apply moved_block; [done..| | | | |];
      rewrite ?Howed, ?Hlate, ?owed_own, ?late_own, ?E, ?El; try case_decide;
      destruct (settles r (PSend rest)); (done || lia). }
  unfold goes_on. cbn [task_step]. destruct r as [m|e].
  - cbn [settles] in Hblock. destruct (drop (S m) rest) as [|b bs] eqn:Hd; (split; [apply Hblock|split; [done|]]).
    1,2,4,5: by rewrite ?late_own, ?owed_own. 1: by left.
    cbn. rewrite Hd, orb_true_r. split_and!; [done| |done].
    pose proof (length_drop rest (S m)) as Hlen. rewrite Hd in Hlen. cbn in Hlen. lia.
  - split; [apply Hblock|split; [done|]]. 1,2: by rewrite ?late_own, ?owed_own.
    right. cbn. rewrite Z.opp_involutive. apply elem_of_app. right. by apply list_elem_of_singleton.
Qed.

Lemma run_own (c : pc) (np : Z) (r : nat + Z) :
  s_tasks s !! k = Some (Task i c) → goes_on n s k i r c (task_step i np (due s i) r c).
Proof.
  intros Hk. destruct c as [m| |rest|r0];
    [by apply sub_goes_on|by apply and_goes_on|by apply send_goes_on|].
  destruct (own_bounds _ Hk) as (Hlt & Hi & Hb & [_ Hok] & _). split.
  - pose proof Hb as [_ Hr Hl He Ht].
    apply moved_block; [done..| | | | |]; rewrite ?owed_own, ?late_own, ?Z.sub_0_r, ?Z.add_0_r; done.
  - split; [done|]. exact Hok.
Qed.
End going_on.

Lemma task_ok_weaken (n : nat) (short short' : bool) (lost lost' : list (nat * Z)) (t : task) :
  (short' = false → short = false) → lost ⊆ lost' → task_ok n short lost t → task_ok n short' lost' t.
Proof.
  intros Hs Hl [Hi Ht]. split; [done|]. destruct (k_pc t); try done.
  - destruct Ht as (? & ? & ?). auto.
  - destruct Ht; [by left|right; by apply Hl].
Qed.

(** The bytes sent, after a step. *)
Lemma run_out (i : nat) (np count : Z) (r : nat + Z) (c : pc) (sent : list nat) :
  match c with PSend rest => rest = index_bytes i | _ => True end → cut_short r c = false →
  (sent ≫= index_bytes) ++ (task_step i np count r c).2 =
  (match settles r c with Some (inl _) => sent ++ [i] | _ => sent end) ≫= index_bytes.
Proof.
  intros Hc Hs. destruct c as [m| |rest|r0]; cbn; rewrite ?app_nil_r; try done.
  destruct r as [m|e]; cbn in *; [|by rewrite app_nil_r].
  destruct (drop (S m) rest) as [|b bs] eqn:Hd; [|done]. rewrite bind_app, bind_singleton, <- Hc.
  f_equal. rewrite <- (take_drop (S m) rest) at 2. by rewrite Hd, app_nil_r.
Qed.

Lemma step_run_inv (n : nat) (s s' : client) (k : nat) (r : nat + Z) :
  ClientInv n s → client_step (Run k r) s = Some s' → ClientInv n s'.
Proof.
  intros HI H. cbn [client_step] in H. destruct (s_tasks s !! k) as [[i c]|] eqn:Hk; [|done].
  cbn [mbind option_bind k_idx k_pc] in H.
  destruct (own_bounds n s k i HI c Hk) as (Hlt & Hi & Hb & [_ Hpc] & _).
  rewrite (b_count _ _ Hb) in H. cbn [mbind option_bind] in H.
  destruct (s_pkts s !! i) as [np|]; [|done]. cbn [mbind option_bind] in H.
  pose proof (run_own n s k i HI c np r Hk) as [Hown Hok].
  pose proof (run_out i np (due s i) r c (s_sent s)) as Hout.
  pose proof (λ j, moved_back k i j r c (task_step i np (due s i) r c) s) as Hback.
  destruct (task_step i np (due s i) r c) as [[count c'] out]. injection H as <-.
  destruct (i_lengths _ _ HI) as (Hlc & Hlp & Hll).
  split; cbn [moved s_counts s_pkts s_left s_tasks s_got s_sent s_lost s_out s_short s_failed].
  - by rewrite length_insert.
  - apply HI.
  - apply Forall_insert; [|exact Hok]. eapply Forall_impl; [|apply HI]. intros t.
    apply task_ok_weaken; [by destruct (s_short s)|]. destruct (settles r c) as [[]|];
      [done|by apply list_subseteq_app_l|done].
  - intros j Hj. destruct (decide (i = j)) as [<-|Hne]; [exact Hown|].
    apply (block_inv_same s); [by apply HI|by apply list_lookup_insert_ne| | |done|].
    + unfold due. cbn [moved s_tasks s_left]. f_equal.
      apply (sum_other owed _ _ _ c); [intros; by apply owed_other|done..].
    + apply (sum_other late _ _ _ c); [intros; by apply late_other|done..].
    + rewrite Hback, bool_decide_false by done. lia.
  - intros j Hj. rewrite Hback, bool_decide_false by lia. rewrite Nat.add_0_r. by apply HI.
  - intros [Hs Hcut]%orb_false_elim. rewrite (i_out _ _ HI Hs). apply Hout; [|done].
    destruct c; try done. by apply Hpc.
  - apply HI.
Qed.

Lemma client_inv (n : nat) (s : client) : client_reachable n s → ClientInv n s.
Proof.
  induction 1 as [|l s s' _ IH Ha Hs]; [apply start_inv|].
  destruct l; [by eapply step_get_inv|by eapply step_call_inv|by eapply step_run_inv].
Qed.

(** ** Properties *)
Lemma times_count_occ (i : nat) (l : list nat) : times i l = List.count_occ Nat.eq_dec l i.
Proof.
  unfold times. induction l as [|j l IH]; [done|]. rewrite filter_cons. cbn [List.count_occ].
  destruct (Nat.eq_dec j i); [rewrite decide_True by done; cbn; by rewrite IH|].
  by rewrite decide_False.
Qed.

Lemma times_Permutation (a b : list nat) : (∀ i, times i a = times i b) → a ≡ₚ b.
Proof.
  intros H. apply (Permutation_count_occ Nat.eq_dec). intros i. by rewrite <- !times_count_occ.
Qed.

Lemma times_both (i : nat) (a b : list nat) : times i (a ++ b) = (times i a + times i b)%nat.
Proof. unfold times. by rewrite list.filter_app, length_app. Qed.

Definition finished (t : task) : bool := match k_pc t with PDone _ => true | _ => false end.

(** Every call has returned, and calls were made for all packets. *)
Definition idle (s : client) : Prop := Forall (λ t, finished t = true) (s_tasks s).
Definition shared_out (s : client) : Prop := Forall (λ m, m = 0) (s_left s).

Lemma finished_sums (i : nat) (ts : list task) :
  Forall (λ t, finished t = true) ts → sum (owed i) ts = 0 ∧ sum (late i) ts = 0.
Proof.
  induction 1 as [|[j c] ts Ht _ [IHo IHl]]; [done|]. rewrite !sum_cons, IHo, IHl.
  unfold owed, late. by destruct c.
Qed.

Lemma returned_all (n : nat) (s : client) :
  ClientInv n s → idle s → shared_out s → s_sent s ++ (s_lost s).*1 ≡ₚ s_got s.
Proof.
  intros HI Hd Hl. apply times_Permutation. intros i. rewrite times_both. fold (back s i).
  destruct (decide (i < n)%nat) as [Hi|Hi].
  - pose proof (i_blocks _ _ HI i Hi) as [_ _ _ _ Ht].
    destruct (finished_sums i _ Hd) as [Ho Hla]. assert (due s i = 0) as E.
    { unfold due. rewrite Ho. destruct (s_left s !! i) as [m|] eqn:Em; [|done].
      exact (proj1 (Forall_lookup _ _) Hl _ _ Em). }
    rewrite E, Hla, decide_False in Ht by lia. lia.
  - by rewrite (i_others _ _ HI i) by lia.
Qed.

(** *** The calls end *)
Definition work (t : task) : Z :=
  match k_pc t with PSub _ => 3 | PAnd => 2 | PSend _ => 1 | PDone _ => 0 end.

(** What the progress of calls alone leaves as it is. *)
Definition apart_from_calls (s s' : client) : Prop :=
  s_got s' = s_got s ∧ s_left s' = s_left s ∧ s_lost s' = s_lost s.

(** A call goes on by itself; send(2) takes an index whole. *)
Lemma task_progress (n : nat) (s : client) (k : nat) (t : task) :
  ClientInv n s → s_tasks s !! k = Some t → finished t = false →
  ∃ s', client_step (Run k (inl 3%nat)) s = Some s' ∧ sum work (s_tasks s') < sum work (s_tasks s) ∧
        apart_from_calls s s'.
Proof.
  intros HI Hk Hf. destruct t as [i c].
  pose proof (proj1 (Forall_lookup _ _) (i_tasks _ _ HI) _ _ Hk) as [Hi Hpc]. cbn in Hi, Hpc.
  destruct (lookup_lt_is_Some_2 (s_pkts s) i) as [np Hp];
    [by rewrite (proj1 (proj2 (i_lengths _ _ HI)))|].
  cbn [client_step]. rewrite Hk. cbn [mbind option_bind k_idx k_pc].
  rewrite (b_count _ _ (i_blocks _ _ HI i Hi)). cbn [mbind option_bind].
  rewrite Hp. cbn [mbind option_bind]. destruct (task_step i np _ (inl 3%nat) c) as [[count c'] out] eqn:Hst.
  eexists. split; [done|]. cbn [moved s_tasks]. split.
  - rewrite (sum_insert _ _ _ _ _ Hk). assert (work (Task i c') < work (Task i c)); [|lia].
    unfold work. cbn. destruct c as [m| |rest|]; cbn in Hst; [| | |done].
    + injection Hst as <- <- <-. repeat case_match; (lia || congruence).
    + injection Hst as <- <- <-. repeat case_match; (lia || congruence).
    + rewrite (drop_ge rest 4) in Hst by (by apply Hpc). by injection Hst as <- <- <-.
  - split_and!; try done. cbn. destruct c as [m| |rest|]; try done. cbn. by destruct (drop 4 rest).
Qed.

Inductive runs : client → client → Prop :=
  | runs_nil s : runs s s
  | runs_cons k r s s1 s2 : client_step (Run k r) s = Some s1 → runs s1 s2 → runs s s2.

Lemma all_finish (n : nat) (m : nat) (s : client) :
  ClientInv n s → sum work (s_tasks s) <= Z.of_nat m →
  ∃ s', runs s s' ∧ ClientInv n s' ∧ apart_from_calls s s' ∧ idle s'.
Proof.
  unfold idle. revert s. induction m as [|m IH]; intros s HI Hm.
  all: destruct (decide (Forall (λ t, finished t = true) (s_tasks s))) as [Hd|Hd];
    [exists s; split_and!; [apply runs_nil|done|by split|done]|].
  all: apply not_Forall_Exists in Hd; [|apply _]; apply Exists_exists in Hd as (t & Ht & Hf);
    apply list_elem_of_In, list_elem_of_lookup in Ht as [k Hk]; apply not_true_is_false in Hf;
    destruct (task_progress n s k t HI Hk Hf) as (s1 & Hs & Hlt & Hg1 & Hl1 & Ho1).
  - assert (Forall (λ t, 0 <= work t) (s_tasks s1)) as Hn
      by (apply Forall_true; intros [? []]; unfold work; cbn; lia).
    pose proof (sum_nonneg _ _ Hn). lia.
  - destruct (IH s1) as (s2 & Hr2 & HI2 & (Hg2 & Hl2 & Ho2) & Hd2); [by eapply step_run_inv|lia|].
    exists s2. split_and!; [by eapply runs_cons|done| |done]. split_and!; congruence.
Qed.

(** C19: however the calls of any number of threads interleave, with any answers of send(2),
    as long as no more packets of a block are returned than it has and the daemon sends a
    block again only once it has it back: the counter is free whenever a block is
    delivered; a call returns 0, or the errno of the send that failed in it; each time a
    block is received its index is sent back, or lost in a failed send, at most once, and
    exactly once when calls were made for all packets and have returned; as long as no send
    takes a part of an index, the bytes sent are the indexes sent back, whole; and the
    calls can always return, no thread waiting for another one. *)
Theorem packets_return_exactly_once (n : nat) (s : client) :
  client_reachable n s →
  s_failed s = false ∧
  (∀ t r, t ∈ s_tasks s → k_pc t = PDone r → r = 0 ∨ (k_idx t, - r) ∈ s_lost s) ∧
  (∀ i, back s i ≤ times i (s_got s) ≤ S (back s i))%nat ∧
  (idle s → shared_out s → s_sent s ++ (s_lost s).*1 ≡ₚ s_got s) ∧
  (s_short s = false → s_out s = s_sent s ≫= index_bytes) ∧
  ∃ s', runs s s' ∧ s_got s' = s_got s ∧ s_lost s' = s_lost s ∧ idle s' ∧
        (shared_out s → s_sent s' ++ (s_lost s).*1 ≡ₚ s_got s).
Proof.
  intros Hr. pose proof (client_inv n s Hr) as HI. split_and!.
  - apply HI.
  - intros t r Ht Hd. apply list_elem_of_lookup in Ht as [k Hk].
    pose proof (proj1 (Forall_lookup _ _) (i_tasks _ _ HI) _ _ Hk) as [_ H].
    by rewrite Hd in H.
  - intros i. destruct (decide (i < n)%nat) as [Hi|Hi].
    + pose proof (i_blocks _ _ HI i Hi) as [_ _ Hl _ Ht]. case_decide; lia.
    + rewrite (i_others _ _ HI i) by lia. lia.
  - by apply (returned_all n).
  - apply HI.
  - destruct (all_finish n (Z.to_nat (sum work (s_tasks s))) s HI ltac:(lia))
      as (s' & H1 & H2 & (Hg & Hl & Ho) & H4).
    exists s'. split_and!; [done..|]. unfold shared_out. rewrite <- Hl, <- Ho, <- Hg.
    by apply (returned_all n).
Qed.

(** ** A task is a call of the function *)
Definition next_answer (c : pc) (rs : list (nat + Z)) : (nat + Z) * list (nat + Z) :=
  match c, rs with
  | PSend _, r :: rs => (r, rs)
  | _, _ => (inl 3%nat, rs)
  end.

Fixpoint run_task (fuel : nat) (idx : nat) (num_pkts count : Z) (rs : list (nat + Z)) (c : pc) :
    Z * pc * list byte :=
  match fuel with
  | O => (count, c, [])
  | S fuel =>
      let '(r, rs) := next_answer c rs in
      let '(count, c, out) := task_step idx num_pkts count r c in
      let '(count, c, out') := run_task fuel idx num_pkts count rs c in
      (count, c, out ++ out')
  end.

Lemma run_task_S (fuel idx : nat) (num_pkts count : Z) (rs : list (nat + Z)) (c : pc) :
  run_task (S fuel) idx num_pkts count rs c =
    let '(r, rs) := next_answer c rs in
    let '(count, c, out) := task_step idx num_pkts count r c in
    let '(count, c, out') := run_task fuel idx num_pkts count rs c in
    (count, c, out ++ out').
Proof. done. Qed.

Lemma run_task_done (fuel idx : nat) (num_pkts count : Z) (rs : list (nat + Z)) (r : Z) :
  run_task fuel idx num_pkts count rs (PDone r) = (count, PDone r, []).
Proof. induction fuel as [|fuel IH]; [done|]. cbn. by rewrite IH. Qed.

(** The loop of [send_be_32], for all answers of send(2). *)
Lemma send_loop_task (fuel idx : nat) (num_pkts count : Z) (bs : list byte) (p : proc) :
  bs ≠ [] → (length bs ≤ fuel ≤ 4)%nat →
  let '(p', r) := or_errno (send_loop fuel bs) p in
  let '(count', c, out) := run_task fuel idx num_pkts count (w_send (p_w p)) (PSend bs) in
  count' = count ∧ PDone <$> status r = Some c ∧ p_t p' = p_t p ∧
  w_out (p_w p') = w_out (p_w p) ++ out.
Proof.
  revert bs p. induction fuel as [|fuel IH]; intros bs p Hne Hl; [destruct bs; simpl in *; [done|lia]|].
  destruct bs as [|b bs]; [done|]. cbn [send_loop run_task]. unfold or_errno, mbind, prog_bind, send.
  destruct (w_send (p_w p)) as [|[m|e] rs] eqn:Hs; cbn [next_answer task_step].
  - rewrite (drop_ge (b :: bs) 4) by (simpl in *; lia). rewrite run_task_done.
    rewrite drop_ge by done. rewrite take_ge by (simpl in *; lia). rewrite app_nil_r.
    destruct fuel; cbn; done.
  - set (p1 := on_w _ p). assert (drop (S m `min` length (b :: bs)) (b :: bs) = drop (S m) (b :: bs)) as ->.
    { destruct (decide (S m ≤ length (b :: bs))%nat); [by rewrite Nat.min_l|].
      rewrite Nat.min_r, !drop_ge by lia. done. }
    destruct (drop (S m) (b :: bs)) as [|b' bs'] eqn:Hd.
    + rewrite run_task_done, app_nil_r. destruct fuel; cbn; done.
    + pose proof (length_drop (b :: bs) (S m)) as Hlen. rewrite Hd in Hlen. simpl in Hlen, Hl.
      specialize (IH (b' :: bs') p1 ltac:(done) ltac:(simpl; lia)). unfold or_errno in IH.
      change (w_send (p_w p1)) with rs in IH.
      destruct (send_loop fuel (b' :: bs') p1) as [p' r];
      destruct (run_task fuel idx num_pkts count rs (PSend (b' :: bs'))) as [[count' c] out];
      destruct r as [[]|[]]; destruct IH as (-> & Hc & Ht & Ho); rewrite Ho;
        (split_and!; [done|done|done|cbn; by rewrite <- app_assoc]).
  - rewrite run_task_done. cbn. by rewrite app_nil_r.
Qed.

(** The operations of a task, one after the other, are the sequential function, whatever
    send(2) answers: the same result, the same counter, and the same bytes sent. *)
Theorem task_is_return_packets (num_pkts : Z → Z) (p : proc) (counts : list Z)
    (i : nat) (a packets count : Z) :
  c_ready (p_t p) counts → counts !! i = Some count →
  block_addr (p_t p) (Z.of_nat i) <= a < block_addr (p_t p) (Z.of_nat i) + block_size (p_t p) →
  let '(p', r) := testimony_return_packets num_pkts a packets p in
  let '(count', c, out) := run_task 6 i (num_pkts a) count (w_send (p_w p)) (PSub packets) in
  PDone <$> status r = Some c ∧
  block_counts (p_t p') = Some (<[i := count']> counts) ∧
  w_out (p_w p') = w_out (p_w p) ++ out.
Proof.
  intros Hc Ho Ha. apply lookup_lt_Some in Ho as Hlt.
  rewrite (return_packets_eq num_pkts p counts (Z.of_nat i) a packets count)
    by (rewrite ?Nat2Z.id; done || lia). cbn zeta.
  rewrite run_task_S. cbn [next_answer task_step].
  destruct (Z.eqb_spec count packets) as [->|Hne].
  - rewrite Z.sub_diag. change (uint32 0) with 0.
    pose proof (c_ready_with_count p counts (Z.of_nat i) 0 Hc) as Hc1. rewrite Nat2Z.id in Hc1.
    rewrite (return_block_eq num_pkts _ _ (Z.of_nat i) a 0 Hc1)
      by (rewrite ?Nat2Z.id; done || lia || by apply list_lookup_insert_eq).
    rewrite bool_decide_true by (by left). set (p1 := with_count _ _ _ _).
    assert (p_t p1 = set_counts (Some (<[i := 0]> counts)) (p_t p) ∧ p_w p1 = p_w p) as [Ht1 Hw1].
    { unfold p1, with_count. cbn. by rewrite !Nat2Z.id, list_insert_insert_eq. }
    rewrite run_task_S. cbn [next_answer task_step]. change (Z.land 0 0) with 0. cbn [Z.eqb negb andb].
    pose proof (send_loop_task 4 i (num_pkts a) 0 (index_bytes i) p1 ltac:(done) ltac:(by cbn)) as H.
    unfold send_be_32. fold (index_bytes i). rewrite Hw1 in H.
    destruct (or_errno (send_loop 4 (index_bytes i)) p1) as [p' r].
    destruct (run_task 4 i (num_pkts a) 0 (w_send (p_w p)) (PSend (index_bytes i))) as [[c' q] out].
    destruct H as (-> & Hq & Ht & Hout). split_and!; [done| |exact Hout]. by rewrite Ht, Ht1.
  - unfold with_count. rewrite Nat2Z.id.
    destruct (Z.ltb_spec count packets); rewrite run_task_done; cbn; by rewrite app_nil_r.
Qed.

(** Two threads whose sends are cut short put the bytes of two indexes into each other,
    although each of them sees its call succeed: [send_be_32] may take several send(2)
    calls and no lock is held between them. *)
Example short_sends_interleave :
  ∃ s, run_client
    [Get 1 1; Get 258 1; Call 1 1; Call 258 1; Run 0 (inl 3%nat); Run 0 (inl 3%nat);
     Run 1 (inl 3%nat); Run 1 (inl 3%nat); Run 0 (inl 2%nat); Run 1 (inl 2%nat);
     Run 0 (inl 0%nat); Run 1 (inl 0%nat)] (start 300) = Some s ∧
    (k_pc <$> s_tasks s) = [PDone 0; PDone 0] ∧
    decode_all (s_out s) = Some [0; 256 * 256 + 256 + 2] ∧ s_short s = true.
Proof. eexists. split; [vm_compute; reflexivity|]. split_and!; vm_compute; reflexivity. Qed.

(** ** Examples *)

(** Block 1 with five packets, for three threads; block 0 with one packet, whose index is
    sent in two parts. *)
Definition demo_schedule : list client_label :=
  [Get 1 5; Call 1 2; Call 1 1; Run 0 (inl 3%nat); Get 0 1; Call 1 2; Run 2 (inl 3%nat); Call 0 1;
   Run 3 (inl 3%nat); Run 1 (inl 3%nat); Run 3 (inl 3%nat); Run 1 (inl 3%nat); Run 1 (inl 3%nat);
   Run 3 (inl 1%nat); Run 3 (inl 1%nat)].

Lemma run_schedule_reachable (n : nat) (ls : list client_label) (s s' : client) :
  client_reachable n s → run_client ls s = Some s' → client_reachable n s'.
Proof.
  revert s. induction ls as [|l ls IH]; intros s Hr; unfold run_client; cbn.
  - by intros [= <-].
  - case_bool_decide as Ha.
    + destruct (client_step l s) as [s1|] eqn:E; cbn; [by apply IH; eapply reach_step|].
      intros H. exfalso. clear -H. induction ls; [done|]. by apply IHls.
    + intros H. exfalso. clear -H. induction ls; [done|]. by apply IHls.
Qed.

Definition demo_client : client := default (start 2) (run_client demo_schedule (start 2)).

Lemma demo_client_reachable : client_reachable 2 demo_client.
Proof.
  apply (run_schedule_reachable 2 demo_schedule (start 2)); [apply reach_start|].
  vm_compute. reflexivity.
Qed.

Lemma packets_return_exactly_once_witness :
  s_got demo_client = [1; 0]%nat ∧ s_sent demo_client = [1; 0]%nat ∧
  s_sent demo_client ++ (s_lost demo_client).*1 ≡ₚ s_got demo_client.
Proof.
  split; [vm_compute; reflexivity|]. split; [vm_compute; reflexivity|].
  apply (packets_return_exactly_once 2 demo_client).
  - apply demo_client_reachable.
  - apply (bool_decide_unpack _). vm_compute. exact I.
  - apply (bool_decide_unpack _). vm_compute. exact I.
Defined.

Lemma task_is_return_packets_witness :
  block_counts (p_t (testimony_return_packets (λ _, 5) 73728 5 demo_counted).1) = Some [0; 0; 0; 0] ∧
  run_task 6 2 5 5 [] (PSub 5) = (0, PDone 0, put_uint32 2).
Proof.
  assert (run_task 6 2 5 5 [] (PSub 5) = (0, PDone 0, put_uint32 2)) as E by (vm_compute; reflexivity).
  split; [|exact E].
  pose proof (task_is_return_packets (λ _, 5) demo_counted [0; 0; 5; 0] 2 73728 5 5
    demo_counted_ready eq_refl) as H.
  assert (w_send (p_w demo_counted) = []) as Hs by reflexivity. rewrite Hs, E in H.
  destruct (testimony_return_packets (λ _, 5) 73728 5 demo_counted) as [p' r].
  destruct H as (_ & H & _); [vm_compute; split; congruence|]. exact H.
Defined.
