(* ===== verification/CExample.v ===== *)
(** * The C example client: c/testimony_client.c

    [main]: the options, then connect, choose a socket, get blocks, walk their packets
    with the iterator and return them, until [flag_count] packets were seen.  The contents of the blocks, one list of bytes per block, are an
    argument; what is printed is left out, the reads it makes are not. *)

From stdpp Require Import base list numbers option sets strings.
From Stdlib Require Import ZArith Lia.
From S2P Require Import Prelude Bytes Protocol Strconv Cmsg Link Client Packets CClient CBlocks CResources.

(** How the program ends. *)
Inductive c_end :=
  | Exit (code : Z)
  | BadRead                     (* a read through NULL or outside the block *)
  | Running.                    (* more blocks than were given *)

(** ** Options *)

(** The globals of the program. *)
Record c_flags := CFlags {
  flag_socket : list byte;
  flag_fanout_index : Z;
  flag_count : Z;
  flag_dump : bool;
}.
Definition flag_defaults : c_flags := CFlags (String.list_byte_of_string "/path/to/socket") 0 0 false.

(** [atoi]: white space, a sign, digits, up to the first other character; undefined when
    the number is no int. *)
Definition is_space (b : byte) : bool := (byte_val b =? 32) || (9 <=? byte_val b) && (byte_val b <=? 13).

Fixpoint skip_space (s : list byte) : list byte :=
  match s with b :: s' => if is_space b then skip_space s' else s | [] => [] end.

Fixpoint leading_digits (acc : Z) (s : list byte) : Z :=
  match s with
  | b :: s => match digit b with Some d => leading_digits (acc * 10 + d) s | None => acc end
  | [] => acc
  end.

Definition signed_digits (s : list byte) : Z :=
  match s with
  | Byte.x2d :: s => - leading_digits 0 s
  | Byte.x2b :: s => leading_digits 0 s
  | _ => leading_digits 0 s
  end.

Definition atoi (s : list byte) : option Z :=
  let v := signed_digits (skip_space s) in
  if (- 2 ^ 31 <=? v) && (v <? 2 ^ 31) then Some v else None.

Definition ParseOption (key : Z) (arg : list byte) (fl : c_flags) : option c_flags :=
  if key =? 300 then Some (CFlags arg (flag_fanout_index fl) (flag_count fl) (flag_dump fl))
  else if key =? 301 then
    n ← atoi arg; Some (CFlags (flag_socket fl) n (flag_count fl) (flag_dump fl))
  else if key =? 302 then
    n ← atoi arg; Some (CFlags (flag_socket fl) (flag_fanout_index fl) n (flag_dump fl))
  else if key =? 303 then
    Some (CFlags (flag_socket fl) (flag_fanout_index fl) (flag_count fl) true)
  else Some fl.

(** The calls argp_parse makes, one after the other. *)
Fixpoint parse_options (calls : list (Z * list byte)) (fl : c_flags) : option c_flags :=
  match calls with
  | [] => Some fl
  | (key, arg) :: calls => fl ← ParseOption key arg fl; parse_options calls fl
  end.

(** ** The loops *)

(** [testimony_packet_data] and the loop that prints [tp_snaplen] bytes from there. *)
Definition c_dump_packet (flag_dump : bool) (B : list byte) (p : Z) : bool :=
  if flag_dump then
    match CIter.packet_data B p, tp_snaplen B p with
    | Some start, Some snaplen => start + snaplen <=? Z.of_nat (length B)
    | _, _ => false
    end
  else true.

(** The packets of a block: where the walk stopped. *)
Inductive walk :=
  | WEnd (it : CIter.iter) (count : Z)    (* testimony_iter_next returned NULL *)
  | WLimit                                (* goto done *)
  | WBad
  | WFuel.

(** [while ((packet = testimony_iter_next(iter)) != NULL)] *)
Fixpoint walk_packets (fuel : nat) (flag_dump : bool) (B : list byte) (it : CIter.iter)
    (flag_count : Z) : list Z * walk :=
  match fuel with
  | O => ([], WFuel)
  | S fuel =>
      match CIter.next B it with
      | None => ([], WBad)
      | Some (it, None) => ([], WEnd it flag_count)
      | Some (it, Some p) =>
          if c_dump_packet flag_dump B p then
            let flag_count := int32 (flag_count - 1) in
            if flag_count =? 0 then ([p], WLimit)
            else let '(ps, r) := walk_packets fuel flag_dump B it flag_count in (p :: ps, r)
          else ([p], WBad)
      end
  end.

(** The turns of the iterator: [left] counts down to 0. *)
Definition walk_fuel (it : CIter.iter) : nat := S (Z.to_nat (uint32 (CIter.it_left it))).

Section main.
Context (os : csys).

(** [while (1)], over the contents of the blocks that will be read. *)
Fixpoint c_block_loop (flag_dump : bool) (mem : list (list byte)) (it : option CIter.iter) (flag_count : Z)
    (p : proc) : proc * list Z * c_end :=
  match mem with
  | [] => (p, [], Running)
  | B :: mem =>
      let pkts := λ _ : Z, default 0 (num_pkts B) in
      match testimony_get_block pkts (-1) p, it with
      | (p, inl (Some block)), None => (p, [], BadRead)
      | (p, inl (Some block)), Some it =>
          let it := match CIter.reset B with inl it => it | inr _ => it end in
          match walk_packets (walk_fuel it) flag_dump B it flag_count with
          | (ps, WLimit) => ((testimony_close os p).1, ps, Exit 0)
          | (ps, WEnd it flag_count) =>
              let go p := let '(p, ps', r) := c_block_loop flag_dump mem (Some it) flag_count p in
                          (p, ps ++ ps', r) in
              match testimony_return_block pkts block p with
              | (p, inr (Ret r)) => if r <? 0 then (p, ps, Exit 1) else go p
              | (p, inr _) => (p, ps, BadRead)
              | (p, inl _) => go p
              end
          | (ps, WBad) => (p, ps, BadRead)
          | (ps, WFuel) => (p, ps, Running)
          end
      | (p, inr (Ret r)), _ => if r <? 0 then (p, [], Exit 1) else (p, [], BadRead)
      | (p, _), _ => (p, [], BadRead)
      end
  end.

(** After the options; [iter_malloc] is the malloc of testimony_iter_init, whose result
    [main] does not look at. *)
Definition run_client (iter_malloc : bool) (fl : c_flags) (mem : list (list byte)) (w : world) :
    proc * list Z * c_end :=
  let start p := c_block_loop (flag_dump fl) mem (CIter.init iter_malloc).1 (flag_count fl) p in
  match testimony_connect os (flag_socket fl) w with
  | (p, inr (Ret r)) => if r <? 0 then (p, [], Exit 1) else (p, [], BadRead)
  | (p, inr _) => (p, [], BadRead)
  | (p, inl _) =>
      match testimony_init os (on_t (set_fanout_index (flag_fanout_index fl)) p) with
      | (p, inr (Ret r)) => if r <? 0 then (p, [], Exit 1) else start p
      | (p, inr _) => (p, [], BadRead)
      | (p, inl _) => start p
      end
  end.

(** [argp] is what argp_parse makes of the arguments: the calls of ParseOption. *)
Definition main {A} (argp : A → list (Z * list byte)) (args : A) (iter_malloc : bool)
    (mem : list (list byte)) (w : world) : option (proc * list Z * c_end) :=
  fl ← parse_options (argp args) flag_defaults; Some (run_client iter_malloc fl mem w).
End main.

(** ** Properties *)
Lemma walk_all (fuel : nat) (B : list byte) (it : CIter.iter) (ps : list Z) (count : Z) :
  CIter.loop fuel B it = (ps, true) → Z.of_nat (length ps) < count < 2 ^ 31 →
  ∃ it', walk_packets fuel false B it count = (ps, WEnd it' (count - Z.of_nat (length ps))).
Proof.
  revert it ps count. induction fuel as [|fuel IH]; intros it ps count Hl Hc; [done|].
  cbn [CIter.loop walk_packets] in *. destruct (CIter.next B it) as [[it1 [p|]]|]; [| |done].
  - destruct (CIter.loop fuel B it1) as [ps' r] eqn:E. injection Hl as <- ->.
    cbn [length c_dump_packet] in *. rewrite int32_small by (pow2; lia).
    rewrite (proj2 (Z.eqb_neq _ _)) by lia.
    destruct (IH it1 ps' (count - 1) E) as (it' & ->); [lia|].
    exists it'. do 2 f_equal. lia.
  - injection Hl as <-. exists it1. cbn. by rewrite Z.sub_0_r.
Qed.

Lemma walk_limit (fuel : nat) (B : list byte) (it : CIter.iter) (ps : list Z) (count : Z) :
  CIter.loop fuel B it = (ps, true) → 0 < count <= Z.of_nat (length ps) → count < 2 ^ 31 →
  walk_packets fuel false B it count = (take (Z.to_nat count) ps, WLimit).
Proof.
  revert it ps count. induction fuel as [|fuel IH]; intros it ps count Hl Hc H31.
  { injection Hl as <-. simpl in Hc. lia. }
  cbn [CIter.loop walk_packets] in *. destruct (CIter.next B it) as [[it1 [p|]]|]; [| |done].
  - destruct (CIter.loop fuel B it1) as [ps' r] eqn:E. injection Hl as <- ->.
    cbn [length c_dump_packet] in *. rewrite int32_small by (pow2; lia).
    destruct (Z.eqb_spec (count - 1) 0) as [E1|Hne].
    + replace count with 1 by lia. done.
    + rewrite (IH it1 ps' (count - 1) E) by lia.
      replace (Z.to_nat count) with (S (Z.to_nat (count - 1))) by lia. done.
  - injection Hl as <-. simpl in Hc. lia.
Qed.

(** A block the server sends: its index, what the kernel wrote to it, its packets. *)
Definition c_good_block (t : testimony_internal) (it : Z * list byte * list Z) : Prop :=
  let '(idx, B, ps) := it in
  0 <= idx < block_nr t ∧ idx < 2 ^ 31 ∧ packets B = Some ps ∧
  desc_version B = Some CIter.TPACKET_V3 ∧ Z.of_nat (length ps) < 2 ^ 31.

(** The walk of such a block. *)
Lemma good_walk (B : list byte) (ps : list Z) (count : Z) :
  packets B = Some ps → desc_version B = Some CIter.TPACKET_V3 → Z.of_nat (length ps) < 2 ^ 31 →
  0 < count < 2 ^ 31 → ∃ it,
  CIter.reset B = inl it ∧
  (count <= Z.of_nat (length ps) →
     walk_packets (walk_fuel it) false B it count = (take (Z.to_nat count) ps, WLimit)) ∧
  (Z.of_nat (length ps) < count → ∃ it',
     walk_packets (walk_fuel it) false B it count = (ps, WEnd it' (count - Z.of_nat (length ps)))).
Proof.
  intros Hps Hv Hl Hc. destruct (c_visits B ps Hps Hv Hl) as [Hr Hloop]. eexists. split; [exact Hr|].
  assert (walk_fuel (CIter.Iter None (Z.of_nat (length ps))) = S (length ps)) as ->.
  { unfold walk_fuel. cbn [CIter.it_left]. rewrite uint32_small by (pow2; lia). lia. }
  split; intros Hle; [apply walk_limit; (done || lia)|]. apply walk_all; [done|lia].
Qed.

Definition index_of (it : Z * list byte * list Z) : Z := it.1.1.
Definition bytes_of (it : Z * list byte * list Z) : list byte := it.1.2.

Definition seen_in (items : list (Z * list byte * list Z)) : list Z := items ≫= snd.

Lemma close_out (os : csys) (p : proc) : w_out (p_w (testimony_close os p).1) = w_out (p_w p).
Proof.
  set (P := λ q : proc, w_out (p_w q) = w_out (p_w p)). change (P (testimony_close os p).1).
  assert (stable P) as HP by (by intros b cs e q).
  assert (∀ e, keeps P (fail_with e : cprog unit)) as Hf by (intros e; by apply keeps_fail).
  assert (keeps P (testimony_close os)) as Hk; [|by apply Hk].
  unfold testimony_close. apply keeps_bind; [|intros _; apply keeps_bind]; [..|auto with keeps].
  - apply keeps_reads. intros q. repeat case_match; auto with keeps.
  - apply keeps_reads. intros q. case_match; auto with keeps.
Qed.

(** A turn that does not reach the limit. *)
Lemma turn_goes_on (os : csys) (mem : list (list byte)) (idx : Z) (B : list byte) (ps : list Z)
    (it0 : CIter.iter) (count : Z) (p : proc) (counts : list Z) (rest : list byte) :
  c_ready (p_t p) counts → Forall (λ c, c = 0) counts → w_send (p_w p) = [] →
  c_good_block (p_t p) (idx, B, ps) → Z.of_nat (length ps) < count < 2 ^ 31 →
  avail p = put_uint32 idx ++ rest →
  ∃ p1 it1, took (put_uint32 idx) p p1 ∧
    let q := on_w (add_out (put_uint32 idx)) p1 in
    c_block_loop os false (B :: mem) (Some it0) count p =
      let '(p', ps', r) := c_block_loop os false mem (Some it1) (count - Z.of_nat (length ps)) q in
      (p', ps ++ ps', r).
Proof.
  intros Hc Hz Hs (Hi & Hlt & Hps & Hv & Hl) Hcount Ha.
  assert (counts !! Z.to_nat idx = Some 0) as Ho.
  { pose proof (cr_length _ _ Hc). destruct (lookup_lt_is_Some_2 counts (Z.to_nat idx)) as [x Hx]; [lia|].
    by rewrite Hx, (proj1 (Forall_lookup _ _) Hz _ _ Hx). }
  destruct (usage_turn (λ _, default 0 (num_pkts B)) p counts [] idx rest (-1))
    as (p1 & q & Ht & Hg & Hr); [done|constructor|lia|by left|done|done|done|].
  destruct (good_walk B ps count Hps Hv Hl ltac:(lia)) as (it & Hre & _ & Hw).
  destruct (Hw ltac:(lia)) as (it' & Hwalk). exists p1, it'. split; [exact Ht|].
  cbn [c_block_loop]. rewrite Hg, Hre, Hwalk, Hr. done.
Qed.

(** The turn that does. *)
Lemma turn_stops (os : csys) (mem : list (list byte)) (idx : Z) (B : list byte) (ps : list Z)
    (it0 : CIter.iter) (count : Z) (p : proc) (counts : list Z) (rest : list byte) :
  c_ready (p_t p) counts → Forall (λ c, c = 0) counts →
  c_good_block (p_t p) (idx, B, ps) → 0 < count <= Z.of_nat (length ps) →
  avail p = put_uint32 idx ++ rest →
  ∃ p', c_block_loop os false (B :: mem) (Some it0) count p = (p', take (Z.to_nat count) ps, Exit 0) ∧
        w_out (p_w p') = w_out (p_w p).
Proof.
  intros Hc Hz (Hi & Hlt & Hps & Hv & Hl) Hcount Ha.
  assert (counts !! Z.to_nat idx = Some 0) as Ho.
  { pose proof (cr_length _ _ Hc). destruct (lookup_lt_is_Some_2 counts (Z.to_nat idx)) as [x Hx]; [lia|].
    by rewrite Hx, (proj1 (Forall_lookup _ _) Hz _ _ Hx). }
  destruct (get_block_next (λ _, default 0 (num_pkts B)) p counts [] idx rest (-1))
    as (p1 & Ht & Hg); [done|constructor|lia|by left|done|].
  rewrite Ho in Hg. cbn zeta in Hg.
  destruct (good_walk B ps count Hps Hv Hl ltac:(lia)) as (it & Hre & Hw & _).
  cbn [c_block_loop]. rewrite Hg, Hre, (Hw ltac:(lia)). eexists. split; [done|].
  rewrite close_out. by destruct Ht as (? & ? & ? & -> & _).
Qed.

(** The C example client, given a limit, sees exactly that many packets, in order,
    and exits with 0; it has returned every block before the one that reaches the
    limit, in order, but not that one. *)
Theorem c_example_counts (os : csys) (pre : list (Z * list byte * list Z))
    (last : Z * list byte * list Z) (mem : list (list byte)) (it0 : CIter.iter) (count : Z)
    (p : proc) (counts : list Z) (rest : list byte) :
  c_ready (p_t p) counts → Forall (λ c, c = 0) counts → w_send (p_w p) = [] →
  Forall (c_good_block (p_t p)) (pre ++ [last]) → count < 2 ^ 31 →
  Z.of_nat (length (seen_in pre)) < count <= Z.of_nat (length (seen_in (pre ++ [last]))) →
  avail p = ((index_of <$> pre ++ [last]) ≫= put_uint32) ++ rest →
  ∃ p', c_block_loop os false ((bytes_of <$> pre ++ [last]) ++ mem) (Some it0) count p =
          (p', take (Z.to_nat count) (seen_in (pre ++ [last])), Exit 0) ∧
        w_out (p_w p') = w_out (p_w p) ++ ((index_of <$> pre) ≫= put_uint32).
Proof.
  intros Hc Hz. revert p count it0 Hc. induction pre as [|[[idx B] ps] pre IH];
    intros p count it0 Hc Hs Hgood H31 Hcount Ha.
  - destruct last as [[idx B] ps]. apply Forall_cons_iff in Hgood as [Hg _].
    unfold seen_in in *. cbn in Hcount. rewrite app_nil_r in Hcount.
    cbn in Ha. destruct (turn_stops os mem idx B ps it0 count p counts rest) as (p' & H & Ho);
      [done|done|done|lia|done|].
    exists p'. cbn. rewrite !app_nil_r. split; [exact H|exact Ho].
  - rewrite <- app_comm_cons in Hgood, Hcount, Ha |- *.
    apply Forall_cons_iff in Hgood as [Hg Hgood].
    unfold seen_in in Hcount. rewrite !bind_cons, !length_app in Hcount.
    fold (seen_in pre) in Hcount. fold (seen_in (pre ++ [last])) in Hcount. cbn [snd] in Hcount.
    rewrite fmap_cons, bind_cons, <- app_assoc in Ha. cbn [index_of fst snd] in Ha.
    rewrite fmap_cons, <- app_comm_cons. change (bytes_of (idx, B, ps)) with B.
    destruct (turn_goes_on os ((bytes_of <$> pre ++ [last]) ++ mem) idx B ps it0 count p counts _
      Hc Hz Hs Hg ltac:(lia) Ha) as (p1 & it1 & Ht & Hl). cbn zeta in Hl. rewrite Hl.
    pose proof (took_t _ _ _ Ht) as Et.
    destruct (IH (on_w (add_out (put_uint32 idx)) p1) (count - Z.of_nat (length ps)) it1)
      as (p' & H & Ho).
    + cbn [on_w p_t]. rewrite Et. by apply c_ready_set_buf.
    + by destruct Ht as (? & ? & ? & -> & _).
    + cbn [on_w p_t]. rewrite Et. exact Hgood.
    + lia.
    + lia.
    + exact (took_avail _ _ _ _ Ht Ha).
    + exists p'. rewrite H. split.
      * do 2 f_equal. unfold seen_in at 2. rewrite bind_cons. fold (seen_in (pre ++ [last])).
        cbn [snd]. rewrite take_app, (take_ge ps) by lia. do 2 f_equal. lia.
      * rewrite Ho, fmap_cons, bind_cons. cbn [on_w p_w add_out w_out index_of fst].
        rewrite <- app_assoc. by destruct Ht as (? & ? & ? & -> & _).
Qed.

(** ** Examples *)
Lemma c_example_counts_witness :
  ∃ p', c_block_loop demo_csys false [demo_block 2; demo_block 0; demo_block 2] (Some (CIter.Iter None 0)) 3
          (demo_proc (put_uint32 2 ++ put_uint32 0 ++ put_uint32 1)) = (p', [24; 74; 24], Exit 0) ∧
        w_out (p_w p') = index_request 0 ++ put_uint32 2 ++ put_uint32 0.
Proof.
  destruct (c_example_counts demo_csys [(2, demo_block 2, [24; 74]); (0, demo_block 0, [])]
    (1, demo_block 2, [24; 74]) [] (CIter.Iter None 0) 3
    (demo_proc (put_uint32 2 ++ put_uint32 0 ++ put_uint32 1)) (replicate 4 0) []) as (p' & H & Ho).
  - apply demo_c_ready.
  - repeat constructor.
  - vm_compute. reflexivity.
  - repeat constructor; vm_compute; (reflexivity || congruence).
  - lia.
  - vm_compute. split; congruence.
  - vm_compute. reflexivity.
  - exists p'. split; [exact H|]. rewrite Ho. vm_compute. reflexivity.
Defined.

(** A client whose index was refused, with errno at 0, reports that it is set up and
    fails at its first block. *)
Definition demo_refused : world :=
  World [Arrives (byte_of 2) (encode_all demo_greeting ++
           tlv_bytes (TypeWaitingForFanoutIndex, [])) []] [] [] [] 0 [].

Lemma refused_client_exits :
  (run_client demo_csys true (CFlags [] 9 1 false) [demo_block 2] demo_refused).2 = Exit 1.
Proof. vm_compute. reflexivity. Qed.

(** [atoi] reads back decimal numbers, whatever follows them but a digit. *)
Lemma leading_digits_print (ds rest : list byte) (a n : Z) :
  digits_val a ds = Some n → match rest with b :: _ => digit b = None | [] => True end →
  leading_digits a (ds ++ rest) = n.
Proof.
  revert a. induction ds as [|b ds IH]; intros a; simpl.
  - intros [= ->] Hr. destruct rest as [|b rest]; [done|]. simpl. by rewrite Hr.
  - destruct (digit b); [apply IH|done].
Qed.

(** The C client's number options: what was printed in decimal is what it gets, the last
    of each option wins, and options it does not know change nothing. *)
Lemma ParseOption_count (n : Z) (rest : list byte) (fl : c_flags) :
  0 <= n < 2 ^ 31 → match rest with b :: _ => digit b = None | [] => True end →
  ParseOption 302 (print_nat n ++ rest) fl =
    Some (CFlags (flag_socket fl) (flag_fanout_index fl) n (flag_dump fl)).
Proof.
  intros Hn Hr. unfold ParseOption, atoi. simpl.
  destruct (print_nat_digits n) as (Hne & Hd & Hv); [lia|].
  destruct (print_nat n) as [|b ds] eqn:E; [done|]. rewrite <- app_comm_cons.
  apply Forall_cons_iff in Hd as [[d Hb] _].
  assert (is_space b = false) as Hsp by (destruct b; try done; by vm_compute in Hb).
  cbn [skip_space]. rewrite Hsp.
  assert (∀ s, signed_digits (b :: s) = leading_digits 0 (b :: s)) as ->
    by (intros s; destruct b; try done; by vm_compute in Hb).
  rewrite app_comm_cons, (leading_digits_print _ _ _ _ Hv Hr).
  by rewrite (proj2 (Z.leb_le _ _)), (proj2 (Z.ltb_lt _ _)) by lia.
Qed.
