(* ===== verification/CSession.v ===== *)
(** * The C client and the daemon together

    The handshake of socket/daemon.go against [testimony_connect] and
    [testimony_init], and the blocks [conn.run] writes against the usage loop of the
    C client, each end reading what the other wrote. *)

From stdpp Require Import base list numbers option gmap strings.
From Stdlib Require Import ZArith Lia.
From S2P Require Import Prelude Bytes Protocol Chan Block Report Socket SocketInv SocketSafety.
From S2P Require Import Cmsg Link AFPacket Config Handshake Client Session CClient CBlocks CResources.

(** ** The handshake *)

(** What arrives later, after everything else. *)
Definition deliver (cs : list chunk) (p : proc) : proc :=
  on_w (λ w, set_w_in (w_in w ++ cs) w) p.

Lemma calm_arriving_nil (cs : list chunk) : calm cs → arriving cs = [] → cs = [].
Proof. intros [|c cs' Hc _]; [done|]. by destruct c. Qed.

Lemma foldl_c_learn_rest (ms : list tlv) (t : testimony_internal) :
  let t' := foldl c_learn t ms in
  CClient.sock_fd t' = CClient.sock_fd t ∧ ring t' = ring t ∧ fanout_index t' = fanout_index t.
Proof.
  revert t. induction ms as [|m ms IH]; intros t; [done|]. cbn [foldl].
  destruct (IH (c_learn t m)) as (-> & -> & ->). unfold c_learn, switch_size.
  by repeat case_match.
Qed.

Section handshake.
Context (os : csys) (install : Z → Z) (name : list byte) (fd : Z).
Context (s0 : sock) (socks : list sock) (idx : Z) (s : sock).
Context (Hreach : reaches os name fd) (Hfd : 0 < fd).
Context (Hgood : good_service s0 socks).
Context (Hidx : 0 <= idx) (Hs : (s0 :: socks) !! Z.to_nat idx = Some s).

(** The daemon's messages, and the sizes the client learns from them. *)
Definition daemon_sizes : list tlv :=
  take 3 (sizes (Z.of_nat (length (s0 :: socks))) (BlockSize (sock_conf s0))
            (NumBlocks (sock_conf s0))).

Lemma daemon_greeting (rest : list byte) :
  greeting (s0 :: socks) ++ rest = greeting_bytes daemon_sizes rest.
Proof. apply greeting_cons. Qed.

Lemma daemon_same_sizes :
  same_sizes (MkConn None 0 None (NumBlocks (sock_conf s0)) (BlockSize (sock_conf s0))
                (Z.of_nat (length (s0 :: socks))))
    (foldl c_learn (set_sock_fd fd zero_testimony) daemon_sizes).
Proof.
  pose proof Hgood as [Gs Gb Gn _].
  assert (foldl learn zero_conn daemon_sizes =
    MkConn None 0 None (NumBlocks (sock_conf s0)) (BlockSize (sock_conf s0))
                (Z.of_nat (length (s0 :: socks)))) as <-
    by (unfold daemon_sizes; by rewrite learn_sizes, !uint32_small by lia).
  by apply same_sizes_foldl; [apply sizes_greeting|].
Qed.

(** The client connected: everything was read, nothing is buffered. *)
Lemma c_connects (w : world) :
  calm (w_in w) → arriving (w_in w) = greeting (s0 :: socks) →
  ∃ e, testimony_connect os name w = (greeted fd daemon_sizes w [] [] e, inl tt).
Proof.
  intros Hcalm Ha. pose proof daemon_same_sizes as (Hf & Hb & Hn). pose proof Hgood as [Gs Gb Gn _].
  destruct (testimony_connect_ok os name fd daemon_sizes [] w Hreach) as (b & cs & e & H & Hav & _ & Hc).
  - eapply Forall_impl; [apply sizes_greeting|]. apply greeting_c_msg.
  - by rewrite <- daemon_greeting, app_nil_r.
  - split_and!; [rewrite Hf|rewrite Hb|rewrite Hn]; cbn [t_fanoutSize t_blockSize t_numBlocks length];
      [|lia..]. unfold int32. pow2. Z.div_mod_to_equations. cbn [length] in Gs. lia.
  - exists e. rewrite H. unfold avail in Hav. apply app_eq_nil in Hav as [Hbuf Harr].
    cbn in Hbuf, Harr. subst b. by rewrite (calm_arriving_nil cs (Hc Hcalm) Harr).
Qed.

(** C21: the C client and the daemon complete the handshake, however the greeting is cut
    up: [testimony_connect] and [testimony_init] return 0, [handle] hands the
    connection to the socket the client asked for, and the client has that socket's
    descriptor, the service's sizes, the whole ring mapped and a zeroed counter for
    every block. *)
Theorem c_handshake_completes (w : world) (sb : nat) (addr : Z) :
  calm (w_in w) → arriving (w_in w) = greeting (s0 :: socks) → w_send w = [] → w_out w = [] →
  (length (greeting (s0 :: socks)) < sb)%nat → 0 <= install (AFPacket.sock_fd s) < 2 ^ 31 →
  c_calloc os = true →
  let len := BlockSize (sock_conf s0) * NumBlocks (sock_conf s0) in
  c_mmap os (install (AFPacket.sock_fd s)) len = inl addr → 0 < addr → addr + len <= 2 ^ 64 →
  ∃ p p' server,
    testimony_connect os name w = (p, inl tt) ∧
    testimony_init os
      (deliver [Arrives (byte_of 0) [] (UnixRights [install (AFPacket.sock_fd s)])]
         (on_t (set_fanout_index idx) p)) = (p', inl tt) ∧
    handle (s0 :: socks) (Link (w_out (p_w p')) [] [] [] sb false) = (server, inl s) ∧
    k_out server = greeting (s0 :: socks) ++ [byte_of 0] ∧
    k_ctl server = [UnixRights [AFPacket.sock_fd s]] ∧
    c_ready (p_t p') (replicate (Z.to_nat (NumBlocks (sock_conf s0))) 0) ∧
    afpacket_fd (p_t p') = install (AFPacket.sock_fd s) ∧ ring (p_t p') = addr ∧
    avail p' = [].
Proof.
  intros Hcalm Ha Hse Hout Hsb Hin Hca len Hmm Haddr Hsp. pose proof Hgood as [Gs Gb Gn Gr].
  assert (0 <= idx < 2 ^ 32) as Hi by (apply lookup_lt_Some in Hs; split; [done|lia]).
  destruct (c_connects w Hcalm Ha) as (e & Hcon). pose proof daemon_same_sizes as (Hf & Hb & Hn).
  cbn [t_blockSize t_numBlocks] in Hb, Hn.
  destruct (foldl_c_learn_rest daemon_sizes (set_sock_fd fd zero_testimony)) as (Hsf & Hri & _).
  set (t := foldl c_learn (set_sock_fd fd zero_testimony) daemon_sizes) in *.
  set (p := greeted fd daemon_sizes w [] [] e) in *.
  eexists p, _, _. split; [exact Hcon|].
  assert (uint64 (block_size t * block_nr t) = len) as Hlen.
  { rewrite Hb, Hn. unfold uint64, len. apply Z.mod_small. nia. }
  split; [apply (testimony_init_ok os _ (byte_of 0) [] [] (install (AFPacket.sock_fd s)) addr);
          [exact Hri|exact Hse|reflexivity|done|done|]|].
  { change (c_mmap os (install (AFPacket.sock_fd s)) (uint64 (block_size t * block_nr t)) = inl addr).
    by rewrite Hlen. }
  split; [apply handle_accepts; exists idx, []; split_and!; [|lia|lia|done|exact Hsb|done]|].
  { cbn -[index_request index_msg]. rewrite Hout, app_nil_r. unfold index_request.
    by rewrite (uint32_small idx) by done. }
  split; [done|]. split; [done|]. split; [|done].
  split.
  - change (CClient.sock_fd t ≠ 0). rewrite Hsf. cbn. lia.
  - change (0 < block_size t < 2 ^ 32). lia.
  - change (0 < block_nr t < 2 ^ 32). lia.
  - done.
  - change (addr + block_size t * block_nr t <= 2 ^ 64). by rewrite Hb, Hn.
  - change (Some (replicate (Z.to_nat (block_nr t)) 0) =
            Some (replicate (Z.to_nat (NumBlocks (sock_conf s0))) 0)). by rewrite Hn.
  - change (Z.of_nat (length (replicate (Z.to_nat (NumBlocks (sock_conf s0))) 0)) = block_nr t).
    rewrite length_replicate, Hn. lia.
Qed.
End handshake.

(** ** Blocks *)

(** C20: a C client that follows the usage of testimony.h and reads what the daemon wrote
    in any reachable state gets exactly as many blocks as whole indexes were written,
    the first ones [conn.run] took from its queue, in order, and has written back these
    very words, every block once; less than one index is left unread.  When [conn.run]
    is at its select these are all the blocks it took and nothing is left.  The calls
    of poll(2) do not time out and send(2) takes what it is given. *)
Theorem c_client_echoes_daemon (n : nat) (s : state) (c : nat) (cn : conn) (p : proc)
    (counts : list Z) (mem : list (Z → Z)) (timeout : Z) :
  (0 < n)%nat → Z.of_nat n <= 2 ^ 31 → reachable n s →
  s_conns s !! c = Some cn →
  c_ready (p_t p) counts → Forall (λ c, c = 0) counts → block_nr (p_t p) = Z.of_nat n →
  waits timeout p → w_send (p_w p) = [] → avail p = l_wire (c_log cn) →
  length mem = written cn →
  ∃ p' rest, usage_loop mem timeout p =
      (on_w (add_out (take (4 * written cn) (l_wire (c_log cn)))) p',
       inl (block_addr (p_t p) <$> (Z.of_nat <$> take (written cn) (l_got (c_log cn))))) ∧
    avail p' = rest ∧ (length rest < 4)%nat ∧
    (c_pc cn = CSelect → written cn = length (l_got (c_log cn)) ∧ rest = []).
Proof.
  intros Hn Hw Hr Hc Ht Hz Hnum Hwait Hse Hin Hmem.
  destruct (daemon_wire n s c cn Hn Hr Hc) as (rest & Hwire & Hl & Hlen & Hgot & Hsel).
  fold (written_blocks cn). set (got := written_blocks cn) in *.
  assert (Forall (λ b, Z.of_nat b < 2 ^ 31) got) as Hlt
    by (eapply Forall_impl; [exact Hgot|]; simpl; lia).
  destruct (usage_loop_items ((λ b, ([], Z.of_nat b)) <$> got) mem p counts rest timeout)
    as (p' & Htook & H); [done|done|done|done| |by rewrite length_fmap, Hlen| |].
  - apply Forall_fmap. eapply Forall_impl; [exact Hgot|]. cbn. intros b Hlb.
    rewrite Hnum. split_and!; [constructor|lia..].
  - by rewrite <- wire_items, Hin, Hwire by done.
  - exists p', rest. rewrite <- wire_items in Htook by done. split_and!; [| |done|].
    + rewrite H, <- !list_fmap_compose. do 3 f_equal.
      rewrite Hwire, take_app_length' by (rewrite length_wire_of, Hlen; done). unfold wire_of.
      clear -Hlt. induction Hlt as [|b l Hb _ IH]; [done|]. rewrite fmap_cons, !bind_cons, IH.
      f_equal. unfold wire_word. cbn. by rewrite uint32_small by (pow2; lia).
    + apply (took_avail _ rest _ _ Htook). by rewrite Hin, Hwire.
    + intros [E ->]%Hsel. by rewrite <- Hlen, E.
Qed.

(** The three programs mean the same bytes by a block index: the daemon's header
    pointer, the Go client's slice and the C client's pointer are at the same
    distance from the start of their mappings of the ring. *)
Theorem block_place_agrees (t : Conn) (c : testimony_internal) (counts : list Z) (ring_d i : Z) :
  ready t → c_ready c counts → t_blockSize t = block_size c → t_numBlocks t = block_nr c →
  16 <= t_blockSize t → 0 < ring_d → ring_d + t_blockSize t * t_numBlocks t <= 2 ^ 64 →
  0 <= i < t_numBlocks t →
  let B := b_B (block_of t i) in
  cblock ring_d (t_blockSize t) i - 8 - ring_d = sl_off B ∧
  block_addr c i - ring c = sl_off B ∧
  0 <= sl_off B ∧ sl_off B + sl_len B <= t_blockSize t * t_numBlocks t ∧
  testimony_block_index c (block_addr c i) = i.
Proof.
  intros Ht Hc Hbs Hnr H16 Hr Hsp Hi B.
  destruct (cblock_inside ring_d (t_blockSize t) i (t_numBlocks t)) as [-> _]; [lia..|].
  cbn [B block_of b_B sl_off sl_len]. unfold block_addr. rewrite <- Hbs.
  split_and!; [lia|lia|nia|nia|].
  rewrite Hbs. apply (block_index_addr c counts i Hc). lia.
Qed.

(** ** Examples *)
Lemma block_place_agrees_witness :
  block_addr (p_t (demo_proc [])) 2 - 65536 = sl_off (b_B (block_of (demo_ready [Byte.x00]) 2)).
Proof.
  destruct (block_place_agrees (demo_ready [Byte.x00]) (p_t (demo_proc [])) (replicate 4 0) 4096 2)
    as (_ & H & _).
  - apply demo_ready_ok.
  - apply demo_c_ready.
  - vm_compute. reflexivity.
  - vm_compute. reflexivity.
  - vm_compute. congruence.
  - lia.
  - vm_compute. congruence.
  - vm_compute. split; congruence.
  - exact H.
Defined.

Definition demo_greeting_world : world :=
  match greeting demo_server_socks with
  | b :: b' :: bs => World [Arrives b [b'] []; Arrives (byte_of 3) (drop 1 bs) []] [] [] [] 0 []
  | _ => World [] [] [] [] 0 []
  end.

Lemma c_handshake_completes_witness :
  ∃ p', testimony_init demo_csys
      (deliver [Arrives (byte_of 0) [] (UnixRights [4])]
         (on_t (set_fanout_index 1) (testimony_connect demo_csys [] demo_greeting_world).1)) =
    (p', inl tt) ∧ ring (p_t p') = 65536.
Proof.
  destruct (c_handshake_completes demo_csys (λ fd, fd - 8) [] 3 (Sock (demo_entry "a" 0 2) 0 11)
    [Sock (demo_entry "a" 0 2) 1 12] 1 (Sock (demo_entry "a" 0 2) 1 12)) with
    (w := demo_greeting_world) (sb := 100%nat) (addr := 65536)
    as (p & p' & _ & Hc & Hi & _ & _ & _ & _ & _ & Hr & _).
  - apply demo_reaches.
  - lia.
  - split; vm_compute; try split; congruence.
  - lia.
  - reflexivity.
  - vm_compute. repeat constructor.
  - vm_compute. reflexivity.
  - vm_compute. reflexivity.
  - vm_compute. reflexivity.
  - vm_compute. lia.
  - vm_compute. split; congruence.
  - reflexivity.
  - reflexivity.
  - lia.
  - vm_compute. congruence.
  - exists p'. split; [|exact Hr]. rewrite Hc. exact Hi.
Defined.

(** A client with the ring of two blocks that the daemon's example has. *)
Definition demo_two_blocks (wire : list byte) : proc :=
  Proc (Testimony 1 4096 2 0 3 7 65536 (Some [0; 0]) wire) (World [] [] [] [] 0 []).

Lemma c_client_echoes_daemon_witness :
  ∃ cn p', s_conns (demo_state (demo_deliver ++ demo_write)) !! 7%nat = Some cn ∧
    usage_loop [λ _, 9] (-1) (demo_two_blocks (l_wire (c_log cn))) =
      (on_w (add_out (put_uint32 0)) p', inl [65536]).
Proof.
  destruct (s_conns (demo_state (demo_deliver ++ demo_write)) !! 7%nat) as [cn|] eqn:E;
    [|by vm_compute in E].
  destruct (c_client_echoes_daemon 2 (demo_state (demo_deliver ++ demo_write)) 7 cn
    (demo_two_blocks (l_wire (c_log cn))) [0; 0] [λ _, 9] (-1)) as (p' & rest & H & _).
  - lia.
  - pow2. lia.
  - apply demo_reachable. by vm_compute.
  - done.
  - split; vm_compute; try split; congruence.
  - repeat constructor.
  - reflexivity.
  - left. lia.
  - reflexivity.
  - unfold avail. cbn. apply app_nil_r.
  - vm_compute in E. by simplify_eq.
  - exists cn, p'. split; [reflexivity|]. rewrite H. vm_compute in E. simplify_eq.
    vm_compute. reflexivity.
Defined.
